(* ===== verification/_CoqProject ===== *)
-Q . S2P
Prelude.v
Objects.v
Paths.v
Json.v
Intents.v
Sessions.v
Commits.v
Epochs.v
Taints.v
Stores.v
Memory.v
Diffs.v
Merges.v
Clashes.v
Trees.v
TreeJson.v
Walks.v
Specs.v
Guards.v
Ancestry.v
Heights.v
Integrity.v
Programs.v
Repos.v
Rules.v
Alone.v
Mergers.v
Landings.v
Failures.v
History.v
Writes.v
Missing.v
Packs.v
Bundles.v
Shallows.v
Transfers.v
Reminders.v
Approvals.v
Control.v
Converge.v
Records.v
Policies.v
Verdicts.v
Floats.v
Tables.v
Admin.v
Reconciles.v
Exchange.v
Watches.v
Tasks.v
Boards.v
