(* ===== verification/Prelude.v ===== *)
(** * AgentStateGraph: a verification library

    AgentStateGraph keeps the state of agents as a graph of commits over
    content-addressed trees: every write makes a new tree and a commit that
    says who wrote it and why, branches are refs moved by compare-and-swap, and
    many processes work over one store. This library models its core, the Rust
    crates under [src/crates], as executable definitions that follow the source
    function by function, and proves what makes them correct.

    ** The parts, and where they are

    The data model ([agentstategraph-core]). [Objects] has ids, atoms, nodes and
    content addresses ([object.rs]); [Paths] the parser and printer of state
    paths ([path.rs]); [Intents] the provenance records and their lifecycle
    ([intent.rs], [lifecycle.rs]); [Sessions] namespaces and sessions
    ([namespace.rs], both [session.rs]); [Commits] commit records, their address
    and the query filters ([commit.rs], [query.rs]); [Epochs] sealable segments
    ([epoch.rs]); [Taints] the access check of the taint crate. [Json] is the
    value type exchanged with [serde_json].

    The pure algorithms. [Diffs] is the structural diff ([diff.rs]); [Merges]
    the three-way merge with its conflicts and created objects ([merge.rs]),
    and [Clashes] what a merge with conflicts keeps.

    The store ([agentstategraph-storage]). [Stores] has the interface of an
    object store as a class with its laws, and the default walk over all
    parents ([traits.rs]); [Memory] the whole in-memory backend, an instance of
    that class ([memory.rs]). The tree operations are proved against the
    class, and used at the backend.

    The repository ([agentstategraph]). [Trees] reads, writes and deletes by path,
    [TreeJson] imports and renders JSON, [Walks] lists, searches and indexes
    leaves, all three from [tree.rs]; [Specs] manages speculations
    ([speculation.rs]); and the rest is [repo.rs]: [Guards] its errors and the
    checks before a write, with the hook of [taint.rs]; [Ancestry] the merge
    base; [Integrity] the walks that look for missing objects and the epoch
    seals; [Repos] refs, reads, writes and branches; [Mergers] merging branches;
    [Landings] landing speculations; [History] logs, queries, blame and audits.

    Exchange with other stores ([sync]). [Missing] finds what a remote lacks
    ([missing.rs]); [Packs] has bytes and frames, and [Bundles] the writer and the
    verifying reader of a bundle ([bundle.rs]); [Shallows] the boundary of a history cut
    at a depth ([shallow.rs]); [Transfers] stores a bundle and carries a whole
    store out and in, and [Exchange] is export and import with the reconciling of
    the control tables the one starts and the other ends with ([store.rs]).

    Reminders. [Reminders] has the whole crate: records, schedules, the table and
    the manager over it; [Approvals] what its calls guarantee under
    concurrency, with the approval gate.

    The control tree ([control.rs]), in which taints, reminders, epochs and
    members travel with a repository. [Control] reads, writes and edits it, and
    merges two of them; [Converge] has what it reads back and why merges agree on both sides;
    [Records] the editing of single records. [Tables] is [control_repo.rs]: a
    change to a table is marked, made, committed to the control ref and
    unmarked, and reconciling brings tables and ref together; [Reconciles] that
    it settles. [Admin] has what goes through it: taints, quarantines and
    watches ([taint.rs]), and of [repo.rs] epochs, reminders and writes of JSON,
    with the watches they set off. [Floats] converts numbers to and from text.

    Clients. [Tasks] is the task crate ([agentstategraph-tasks]): plans and tasks as
    JSON under a prefix, changed by compare-and-swap, and the renumbering before
    a merge; [Boards] proves its search for cycles and the renumbering. [Watches]
    is the queue of events of each subscription ([watch.rs]).

    Policies. [Policies] has selectors, records, the evaluator, the registry of
    external engines and the reads of the store ([agentstategraph-policy]);
    [Verdicts] that the policies in force are heeded.

    The proofs of concurrency. [Programs] has operations as trees of atomic
    steps, alone or in a pool that interleaves them in any way, with
    rely-guarantee rules, and rules for what a program does at its own steps
    whatever the others do at theirs ([unless], [logs]); [Rules] the invariant of the shared store, the
    relation every step stays within, and a rule for each step; [Alone] what
    operations do with nobody else about; [Failures] that those that fail move
    no ref, in any company; [Writes] what holds of
    any pool of writers. [Heights] has the one bound on trees all fuels rest on.

    ** How state and effects correspond

    A repository of the code is a handle on a shared store. The shared state is
    [Repos.World]: the backend of [memory.rs] and the speculation managers of
    the processes; the fields of a handle that operations only read are
    [Repos.Repository]. An operation is a program [P A]: each call of the
    storage interface is one atomic step, between any two of which others may
    act. Reads of immutable things (objects, commits) that follow one another
    are one step, since nothing another writer does changes what they find.
    A call of the backend that sees the namespace under one lock and the refs
    under the next is one step too: the two differ only for a namespace that is
    being deleted, which none of the operations interleaved here does.
    A speculation manager sits behind a lock of its process, so each of its
    operations is one step. [Tables.Site] adds the reminder table of the backend,
    and operations of the repository run inside it. Errors are values: [result E A], where a panic, a
    failed lock or a lost connection has no counterpart. Clocks, fresh
    identifiers, tracing context and the iteration order of hash maps are
    arguments.

    A 64-bit float is its bit pattern in [Z], integers have their width written
    out where it matters, strings are byte strings, and a [BTreeMap] is a
    [gmap] listed in key order.

    ** Assumptions

    [blake3] and [serde_json]'s encoders are not in the repository. They enter
    as [ContentHash] and [CommitSerial], functions; three laws are classes of
    their own, which only the theorems that need them assume: [CollisionFree]
    and [CommitCollisionFree] (distinct contents have distinct addresses) and
    [HashAcyclic] (no object contains its own address). [Objects.Plain] is an
    instance of all of them, at which the witnesses evaluate. Unicode case
    folding, [Debug] text and the format of times are functions without laws.
    The other crates the code calls are classes of operations in the same way:
    [Zstd] and [Serde] for bundles, [Chrono] for schedules, [ReminderJson],
    [ControlSerde], [PolicySerde] and [TaskSerde] for the derived encodings of their records, and
    [Regexes] for patterns, [F64Text] and [RepoText] for messages. Those that the theorems need to know
    something of have a class of laws beside them, documented behaviour each
    ([ZstdLaws], [ChronoLaws], [ReminderJsonLaws], [PolicySerdeLaws]),
    and an instance at which the witnesses run. A host's verifier of
    signatures and an external policy engine are functions the models take.

    ** What the theorems show

    Writing concurrently: no acknowledged write is lost under any interleaving,
    every writer gets an answer, a conflict means others progressed, and
    a failure moves no ref ([Writes], [Failures]); what the race with the creation of a
    branch does instead is a theorem too. Merging and landing: a merge
    combines both sides path by path, never dangles, keeps one side at a clash,
    and lands on a complete tree under both heads ([Merges], [Clashes],
    [Mergers]). Paths: reads, writes and deletions act at their path and nowhere
    else, with every error characterised ([Trees]). History: the merge base is
    a lowest common ancestor, the walk of the whole graph lists it once, blame
    and the audit of timestamps say what they find ([Ancestry], [Stores],
    [History]). Guards: what the taint hook lets pass, what the seal check
    refuses, that the incremental integrity check equals the full one
    ([Guards], [Integrity]). Representation: JSON, path and id round trips,
    the level-at-a-time reads equal the plain ones, listings and the
    incremental leaf index equal full walks ([TreeJson], [Walks]). Invariants: the backend keeps its
    tables consistent and its seals frozen, speculations stay isolated,
    intents are terminal exactly when resolved ([Memory], [Specs], [Intents]).
    Exchange: the missing set is enough and in an order that can be stored,
    a bundle reads back to what was written and a spoilt one is refused, a
    shallow history stops at its depth, an export imports whole, and an import
    moves no ref or all of its own ([Missing], [Bundles], [Shallows],
    [Transfers], [Exchange]). Reminders: under any interleaving every step is
    one that an independent table of statuses, fields and log entries allows,
    no acknowledged change is lost, what is finished stays so, and nothing
    starts without its approval ([Approvals]). Control trees: what is written reads back, merging
    in either order gives the same records, and reconciling leaves the control
    ref with all that it and the tables held, the tables up to it, and nothing
    more to do ([Converge], [Records], [Reconciles]). Policies: a
    decision is the strictest of those of the active policies that apply,
    whatever else the store holds ([Verdicts]). Tasks: the cycle that
    new blockers would close is found exactly when there is one, and renumbering
    loses nothing and leaves no clash ([Boards]); a subscriber misses no event and gets none twice ([Watches]).

    ** Fuel and bounds

    A recursion that follows ids through the store has no structural measure;
    it runs on fuel, and a separate error ([OutOfFuel], in the type [stop]) says that
    fuel ran out, so no result hides it. Over the store, the number of objects
    (or of commits and parent links) is enough: [Heights] shows that no stored
    tree is higher, and the theorems that say an operation returns use that.
    Pure walks state the bound they need. Loops bounded by a constant of the
    code ([MAX_REF_CAS_ATTEMPTS], [LIST_PATHS_HARD_CEILING]) use that constant.

    ** What is not modelled

    The SQL and browser backends and the servers and bindings are queries and
    glue over engines outside the repository; schemas, migration and telemetry wrap external crates. Of
    [repo.rs], what is left out is the administration of sessions, the export
    of epochs, garbage collection and the upkeep of a leaf index in backends that have
    one; of policies, the writes. Of [sync],
    pushes and fetches over a transport, their filters and the push
    log are left out. A repository here
    has no active epoch (what one adds to making a commit is
    [Admin.commit_in_epoch]), and the counter of speculation handles is one per
    manager where the code has one per process; handles are unique either way. *)
From Corelib Require Export ssreflect.
From Stdlib Require Export Ascii.
From stdpp Require Export gmap strings sorting pretty numbers relations.
From stdpp Require Export base list.
#[global] Open Scope general_if_scope.
#[global] Set SsrOldRewriteGoalsOrder.

(** ** Results

    [result E A] is Rust's [Result<A, E>]; [stop E] adds the one outcome the
    source does not have, the fuel of a recursion over stored data running
    out, so that a fuelled walker still returns in the [result] monad. *)
Inductive result (E A : Type) : Type :=
  | Ok (a : A)
  | Err (e : E).
Arguments Ok {E A} a.
Arguments Err {E A} e.

#[export] Instance result_ret {E} : MRet (result E) := λ A, Ok.
#[export] Instance result_bind {E} : MBind (result E) := λ A B f r,
  match r with Ok a => f a | Err e => Err e end.
#[export] Instance result_fmap {E} : FMap (result E) := λ A B f r,
  match r with Ok a => Ok (f a) | Err e => Err e end.
#[export] Instance result_eq_dec {E A} `{EqDecision E, EqDecision A} :
  EqDecision (result E A).
Proof. solve_decision. Defined.

Inductive stop (E : Type) : Type :=
  | OutOfFuel
  | Fail (e : E).
Arguments OutOfFuel {E}.
Arguments Fail {E} e.

(** [opt.ok_or(e)]. *)
Definition ok_or {E A} (e : E) (o : option A) : result E A :=
  match o with Some a => Ok a | None => Err e end.

(** [r.map_err(f)]. *)
Definition map_err {E F A} (f : E → F) (r : result E A) : result F A :=
  match r with Ok a => Ok a | Err e => Err (f e) end.

(** [r.ok()]. *)
Definition ok {E A} (r : result E A) : option A :=
  match r with Ok a => Some a | Err _ => None end.

Lemma result_bind_ok {E A B} (f : A → result E B) r b :
  r ≫= f = Ok b ↔ ∃ a, r = Ok a ∧ f a = Ok b.
Proof. destruct r; naive_solver. Qed.

Lemma result_bind_err {E A B} (f : A → result E B) r e :
  r ≫= f = Err e ↔ r = Err e ∨ ∃ a, r = Ok a ∧ f a = Err e.
Proof. destruct r; naive_solver. Qed.

Lemma result_fmap_ok {E A B} (f : A → B) (r : result E A) b :
  f <$> r = Ok b ↔ ∃ a, r = Ok a ∧ b = f a.
Proof. destruct r; naive_solver. Qed.

Lemma ok_or_ok {E A} (e : E) (o : option A) a : ok_or e o = Ok a ↔ o = Some a.
Proof. destruct o; naive_solver. Qed.

Lemma ok_or_err {E A} (e e' : E) (o : option A) :
  ok_or e o = Err e' ↔ o = None ∧ e' = e.
Proof. destruct o; naive_solver. Qed.

Lemma map_err_ok {E F A} (f : E → F) (r : result E A) a :
  map_err f r = Ok a ↔ r = Ok a.
Proof. destruct r; naive_solver. Qed.

(** Take a successful bind apart, hypothesis by hypothesis. *)
Ltac inv_ok :=
  repeat match goal with
  | H : _ ≫= _ = Ok _ |- _ => apply result_bind_ok in H as (? & ? & H)
  | H : _ <$> _ = Ok _ |- _ => apply result_fmap_ok in H as (? & H & ?)
  | H : ok_or _ _ = Ok _ |- _ => apply ok_or_ok in H
  | H : map_err _ _ = Ok _ |- _ => apply map_err_ok in H
  | H : mret _ = Ok _ |- _ => injection H as H
  | H : Ok _ = Ok _ |- _ => injection H as H
  | H : Err _ = Ok _ |- _ => discriminate H
  | H : Ok _ = Err _ |- _ => discriminate H
  end.

(** ** State and errors

    [stateful S E A] is a computation that reads and writes a state [S] and may
    fail: the state it leaves is the state it reached, also when it fails. *)
Definition stateful (S E A : Type) : Type := S → result E A * S.

#[export] Instance stateful_ret {S E} : MRet (stateful S E) := λ A a s, (Ok a, s).
#[export] Instance stateful_bind {S E} : MBind (stateful S E) := λ A B f m s,
  match m s with
  | (Ok a, s') => f a s'
  | (Err e, s') => (Err e, s')
  end.

(** A step given by its function on states. *)
Definition action {S E A} (f : S → result E A * S) : stateful S E A := f.
Definition throw {S E A} (e : E) : stateful S E A := λ s, (Err e, s).
(** A computation that only reads the state. *)
Definition reading {S E A} (f : S → result E A) : stateful S E A := λ s, (f s, s).
Definition lift {S E A} (r : result E A) : stateful S E A := λ s, (r, s).
Definition map_err_st {S E F A} (f : E → F) (m : stateful S E A) : stateful S F A := λ s,
  match m s with (r, s') => (map_err f r, s') end.

(** A [for] loop over a list. *)
Fixpoint for_each {S E A} (f : A → stateful S E ()) (l : list A) : stateful S E () :=
  match l with
  | [] => mret ()
  | x :: l' => _ ← f x; for_each f l'
  end.

Lemma stateful_bind_ok {S E A B} (f : A → stateful S E B) m s b s' :
  (m ≫= f) s = (Ok b, s') ↔ ∃ a s1, m s = (Ok a, s1) ∧ f a s1 = (Ok b, s').
Proof. unfold mbind, stateful_bind. destruct (m s) as [[a|e] s1]; naive_solver. Qed.

Lemma stateful_seq {S E A B} (p : stateful S E A) (k : A → stateful S E B) s a s1 :
  p s = (Ok a, s1) → (p ≫= k) s = k a s1.
Proof. intros Hp. unfold mbind, stateful_bind. by rewrite Hp. Qed.

Lemma for_each_app {S E A} (f : A → stateful S E ()) l1 l2 s s1 :
  for_each f l1 s = (Ok (), s1) → for_each f (l1 ++ l2) s = for_each f l2 s1.
Proof.
  revert s. induction l1 as [|x l1 IH]; intros s; simpl; [by intros [= ->]|].
  unfold mbind, stateful_bind. destruct (f x s) as [[[]|e] s2]; [apply IH|done].
Qed.

Lemma lift_ok {S E A} (r : result E A) (s s' : S) a : lift r s = (Ok a, s') ↔ r = Ok a ∧ s' = s.
Proof. unfold lift. naive_solver. Qed.

Lemma reading_ok {S E A} (f : S → result E A) s s' a :
  reading f s = (Ok a, s') ↔ f s = Ok a ∧ s' = s.
Proof. unfold reading. split; [by intros [= -> <-]|by intros [-> ->]]. Qed.

Lemma map_err_st_ok {S E F A} (f : E → F) (m : stateful S E A) s s' a :
  map_err_st f m s = (Ok a, s') ↔ m s = (Ok a, s').
Proof. unfold map_err_st. destruct (m s) as [[]]; naive_solver. Qed.

(** Take a successful stateful run apart. *)
Ltac inv_st :=
  repeat match goal with
  | H : (_ ≫= _) _ = (Ok _, _) |- _ => apply stateful_bind_ok in H as (? & ? & ? & H)
  | H : lift _ _ = (Ok _, _) |- _ => apply lift_ok in H as [H ->]
  | H : reading _ _ = (Ok _, _) |- _ => apply reading_ok in H as [H ->]
  | H : map_err_st _ _ _ = (Ok _, _) |- _ => apply map_err_st_ok in H
  | H : throw _ _ = (Ok _, _) |- _ => discriminate H
  | H : action _ _ = (Ok _, _) |- _ => unfold action in H
  | H : (Err _, _) = (Ok _, _) |- _ => discriminate H
  | H : (Ok _, _) = (Ok _, _) |- _ => injection H as H; try subst
  | H : mret _ _ = (Ok _, _) |- _ => injection H as H; try subst
  end.

(** ** Lists in a monad: [iter().map(f).collect::<Result<Vec<_>, _>>()]. *)
Fixpoint traverse {E A B} (f : A → result E B) (l : list A) : result E (list B) :=
  match l with
  | [] => Ok []
  | x :: l' => y ← f x; ys ← traverse f l'; Ok (y :: ys)
  end.

Lemma traverse_ok {E A B} (f : A → result E B) l ys :
  traverse f l = Ok ys ↔ Forall2 (λ x y, f x = Ok y) l ys.
Proof.
  revert ys; induction l as [|x l IH]; intros ys; simpl.
  - split; [intros [= <-]; constructor|inversion 1; done].
  - split.
    + intros H. inv_ok. subst. constructor; [done|by apply IH].
    + inversion 1 as [|? y ? ys' Hx Hl]; subst. rw Hx /=.
      apply IH in Hl as ->. done.
Qed.

Lemma traverse_total {E A B} (f : A → result E B) l :
  (∀ x, x ∈ l → ∃ y, f x = Ok y) → ∃ ys, traverse f l = Ok ys.
Proof.
  induction l as [|x l IH]; intros H; simpl; [eauto|].
  destruct (H x) as [y ->]; [by left|]. destruct IH as [ys ->]; [|simpl; eauto].
  intros z Hz. apply H. by right.
Qed.

(** A traversal fails at the first element that does. *)
Lemma traverse_err {E A B} (f : A → result E B) l e :
  traverse f l = Err e →
  ∃ pre x post ys, l = pre ++ x :: post ∧ traverse f pre = Ok ys ∧ f x = Err e.
Proof.
  induction l as [|x l IH]; simpl; [done|]. intros [Hx|(y & Hx & Hl)]%result_bind_err.
  - by exists [], x, l, [].
  - apply result_bind_err in Hl as [(pre & z & post & ys & -> & Hp & Hz)%IH|(? & _ & [=])].
    exists (x :: pre), z, post, (y :: ys). split_and!; [done| |done]. simpl. by rw Hx /= Hp.
Qed.

(** The result of a traversal when every element has one. *)
Lemma traverse_map_ok {E A B C} (f : A → result E B) (h : C → A) (g : C → B) l :
  Forall (λ c, f (h c) = Ok (g c)) l →
  traverse f (h <$> l) = Ok (g <$> l).
Proof. induction 1 as [|c l Hc _ IH]; simpl; [done|]. by rw Hc /= IH. Qed.

(** ** Stable sorting: [sort_by] keeps the order of equal elements. *)
Fixpoint sorted_insert {A} (R : relation A) `{RelDecision A A R} (x : A) (l : list A) : list A :=
  match l with
  | [] => [x]
  | y :: l' => if decide (R x y) then x :: y :: l' else y :: sorted_insert R x l'
  end.
Definition stable_sort {A} (R : relation A) `{RelDecision A A R} (l : list A) : list A :=
  foldr (sorted_insert R) [] l.

Lemma sorted_insert_Permutation {A} (R : relation A) `{RelDecision A A R} x l :
  sorted_insert R x l ≡ₚ x :: l.
Proof.
  induction l as [|y l IH]; [done|]; simpl. case_decide; [done|]. rw IH. constructor.
Qed.

Lemma stable_sort_Permutation {A} (R : relation A) `{RelDecision A A R} l :
  stable_sort R l ≡ₚ l.
Proof. induction l as [|x l IH]; [done|]; simpl. by rw sorted_insert_Permutation IH. Qed.

Lemma sorted_insert_Sorted {A} (R : relation A) `{RelDecision A A R, !Total R, !Transitive R} x l :
  StronglySorted R l → StronglySorted R (sorted_insert R x l).
Proof.
  induction 1 as [|y l' Hl IH Hy]; simpl; [by repeat constructor|].
  case_decide as Hxy.
  - constructor; [by constructor|]. constructor; [done|].
    eapply Forall_impl; [done|]. intros z Hz. by trans y.
  - constructor; [done|]. rw sorted_insert_Permutation. constructor; [|done].
    by destruct (total R x y).
Qed.

Lemma stable_sort_Sorted {A} (R : relation A) `{RelDecision A A R, !Total R, !Transitive R} l :
  StronglySorted R (stable_sort R l).
Proof. induction l as [|x l IH]; simpl; [constructor|]. by apply sorted_insert_Sorted. Qed.

(** [iter_mut().find(p)], then a write to what was found. *)
Fixpoint update_first {A} (p : A → bool) (f : A → A) (l : list A) : list A :=
  match l with
  | [] => []
  | x :: l' => if p x then f x :: l' else x :: update_first p f l'
  end.

Lemma update_first_fmap {A B} (g : A → B) (p : A → bool) f (l : list A) :
  (∀ x, p x → x ∈ l → g (f x) = g x) → g <$> update_first p f l = g <$> l.
Proof.
  induction l as [|x l IH]; intros H; [done|]; simpl. destruct (p x) eqn:E; csimpl.
  - rw H //; [by rewrite E|by left].
  - rw IH //. intros y Hp Hy. apply H; [done|by right].
Qed.

Lemma update_first_find {A} (p : A → bool) f (l : list A) :
  (∀ x, p x → p (f x)) → List.find p (update_first p f l) = f <$> List.find p l.
Proof.
  intros H. induction l as [|x l IH]; [done|]; simpl. destruct (p x) eqn:E; simpl.
  - by rw (Is_true_true_1 _ (H x ltac:(by rewrite E))).
  - by rw E.
Qed.

Lemma update_first_find_ne {A} (p q : A → bool) f (l : list A) :
  (∀ x, p x → q x = false ∧ q (f x) = false) →
  List.find q (update_first p f l) = List.find q l.
Proof.
  intros H. induction l as [|x l IH]; [done|]; simpl. destruct (p x) eqn:E; simpl.
  - destruct (H x) as [-> ->]; [by rewrite E|done].
  - by rw IH.
Qed.

Lemma elem_of_update_first {A} (p : A → bool) f (l : list A) y :
  y ∈ update_first p f l → y ∈ l ∨ ∃ x, x ∈ l ∧ p x ∧ y = f x.
Proof.
  induction l as [|x l IH]; [by left|]; simpl. destruct (p x) eqn:E.
  - rw !elem_of_cons. intros [->|]; [|tauto]. right. exists x. rw E. set_solver.
  - rw !elem_of_cons. intros [->|[?|(z & ? & ?)]%IH]; [tauto..|]. right. exists z. set_solver.
Qed.

Lemma List_find_Some {A} (p : A → bool) (l : list A) x :
  List.find p l = Some x → x ∈ l ∧ p x.
Proof.
  intros H. apply List.find_some in H as [Hin Hp]. rw list_elem_of_In. by rw Hp.
Qed.

Lemma List_find_app {A} p (l k : list A) :
  List.find p (l ++ k) = match List.find p l with Some x => Some x | None => List.find p k end.
Proof. induction l as [|x l IH]; [done|]; simpl. by destruct (p x). Qed.

Lemma elem_of_List_filter {A} (f : A → bool) l x : x ∈ List.filter f l ↔ x ∈ l ∧ f x.
Proof. rw !list_elem_of_In List.filter_In Is_true_true. done. Qed.

Lemma fmap_rev {A B} (f : A → B) l : f <$> rev l = rev (f <$> l).
Proof. apply List.map_rev. Qed.

Lemma NoDup_fmap_List_filter {A B} (g : A → B) (f : A → bool) l :
  NoDup (g <$> l) → NoDup (g <$> List.filter f l).
Proof.
  induction l as [|x l IH]; csimpl; [done|]. intros [Hx Hl]%NoDup_cons.
  destruct (f x); csimpl; [|by apply IH]. apply NoDup_cons. split; [|by apply IH].
  intros (y & Hy & Hin)%list_elem_of_fmap. apply elem_of_List_filter in Hin as [Hin _].
  apply Hx. apply list_elem_of_fmap. by exists y.
Qed.

(** ** Strings

    A Rust [String] is the list of its UTF-8 bytes, so [str::len] is
    [String.length] and the order of [BTreeMap<String, _>] is [String.le]. *)
Definition slen (s : string) : N := N.of_nat (String.length s).

(** The code of a byte. *)
Definition code (c : ascii) : N := N_of_ascii c.
Definition between (lo hi : N) (c : ascii) : bool := (lo <=? code c)%N && (code c <=? hi)%N.

Definition is_ascii_digit : ascii → bool := between 48 57.
Definition is_ascii_upper : ascii → bool := between 65 90.
Definition is_ascii_lower : ascii → bool := between 97 122.
Definition is_ascii_alphanumeric (c : ascii) : bool :=
  is_ascii_digit c || is_ascii_upper c || is_ascii_lower c.
Definition is_ascii_hexdigit (c : ascii) : bool :=
  is_ascii_digit c || between 65 70 c || between 97 102 c.

Fixpoint str_forall (f : ascii → bool) (s : string) : bool :=
  match s with EmptyString => true | String c s' => f c && str_forall f s' end.

Definition to_ascii_lowercase_char (c : ascii) : ascii :=
  if is_ascii_upper c then ascii_of_N (code c + 32) else c.
Fixpoint to_ascii_lowercase (s : string) : string :=
  match s with
  | EmptyString => EmptyString
  | String c s' => String (to_ascii_lowercase_char c) (to_ascii_lowercase s')
  end.

(** [s.starts_with(p)] and [s.strip_prefix(p)]. *)
Fixpoint strip_prefix (p s : string) : option string :=
  match p, s with
  | EmptyString, _ => Some s
  | String a p', String b s' => if decide (a = b) then strip_prefix p' s' else None
  | String _ _, EmptyString => None
  end.
Definition starts_with (p s : string) : bool := bool_decide (is_Some (strip_prefix p s)).

(** [s.split(sep)]: always at least one piece. *)
Fixpoint split (sep : ascii) (s : string) : list string :=
  match s with
  | EmptyString => [EmptyString]
  | String c s' =>
      if decide (c = sep) then EmptyString :: split sep s'
      else match split sep s' with
           | [] => [String c EmptyString]
           | w :: ws => String c w :: ws
           end
  end.

(** [s.split_once(sep)]. *)
Fixpoint split_once (sep : ascii) (s : string) : option (string * string) :=
  match s with
  | EmptyString => None
  | String c s' =>
      if decide (c = sep) then Some (EmptyString, s')
      else '(a, b) ← split_once sep s'; Some (String c a, b)
  end.

Definition no_char (c : ascii) (s : string) : bool := str_forall (λ d, bool_decide (d ≠ c)) s.

Lemma string_app_nil_r s : s +:+ EmptyString = s.
Proof. induction s as [|c s IH]; [done|]. unfold String.app in *; simpl. by rw IH. Qed.

Lemma string_app_cons c s t : String c s +:+ t = String c (s +:+ t).
Proof. done. Qed.

Lemma string_app_nil_l t : EmptyString +:+ t = t.
Proof. done. Qed.

Lemma string_app_assoc (s t u : string) : (s +:+ t) +:+ u = s +:+ (t +:+ u).
Proof. induction s as [|c s IH]; [done|]. rw !string_app_cons. by rw IH. Qed.

Lemma strip_prefix_app p s : strip_prefix p (p +:+ s) = Some s.
Proof.
  induction p as [|c p IH]; [done|]. rw string_app_cons /=.
  by rw decide_True.
Qed.

Lemma strip_prefix_Some p s t : strip_prefix p s = Some t ↔ s = p +:+ t.
Proof.
  split; [|intros ->; apply strip_prefix_app].
  revert s; induction p as [|c p IH]; intros s; simpl.
  - intros [= ->]. done.
  - destruct s as [|d s]; [done|]. case_decide; [|done]. subst. intros ->%IH. done.
Qed.

Lemma starts_with_spec p s : starts_with p s ↔ ∃ t, s = p +:+ t.
Proof.
  unfold starts_with. rw bool_decide_spec. unfold is_Some.
  setoid_rewrite strip_prefix_Some. done.
Qed.

Lemma no_char_cons c d s : no_char c (String d s) ↔ d ≠ c ∧ no_char c s.
Proof. unfold no_char; simpl. rw andb_True bool_decide_spec. done. Qed.

Lemma split_no_char sep s : no_char sep s → split sep s = [s].
Proof.
  induction s as [|c s IH]; [done|]. intros [Hc Hs]%no_char_cons; simpl.
  rw decide_False //. by rw IH.
Qed.

Lemma split_app sep s t :
  no_char sep s → split sep (s +:+ String sep t) = s :: split sep t.
Proof.
  induction s as [|c s IH].
  - intros _. rw string_app_nil_l /=. by rw decide_True.
  - intros [Hc Hs]%no_char_cons. rw string_app_cons /= decide_False //. by rw IH.
Qed.

Lemma split_pieces_no_char sep s : Forall (no_char sep) (split sep s).
Proof.
  induction s as [|c s IH]; simpl; [by repeat constructor|].
  case_decide as Hc; [by constructor|].
  destruct (split sep s) as [|w ws]; inversion IH; subst; repeat constructor; try done.
  all: apply no_char_cons; done.
Qed.

Lemma split_once_app sep s t :
  no_char sep s → split_once sep (s +:+ String sep t) = Some (s, t).
Proof.
  induction s as [|c s IH].
  - intros _. rw string_app_nil_l /=. by rw decide_True.
  - intros [Hc Hs]%no_char_cons. rw string_app_cons /= decide_False //. by rw IH.
Qed.

Lemma str_forall_app f s t : str_forall f (s +:+ t) = str_forall f s && str_forall f t.
Proof.
  induction s as [|c s IH]; [done|]. rw string_app_cons /= IH. by rw andb_assoc.
Qed.

(** *** Whitespace: [char::is_whitespace] on UTF-8 bytes, [str::trim]. *)

(** [s] without its first character, when that character is white space. *)
Definition strip_ws (s : string) : option string :=
  match s with
  | EmptyString => None
  | String a s1 =>
      if between 9 13 a || (code a =? 32)%N then Some s1 else
      match s1 with
      | EmptyString => None
      | String b s2 =>
          if ((code a =? 0xC2) && ((code b =? 0x85) || (code b =? 0xA0)))%N then Some s2 else
          match s2 with
          | EmptyString => None
          | String c s3 =>
              if ((code a =? 0xE1) && (code b =? 0x9A) && (code c =? 0x80)
                  || (code a =? 0xE2) && (code b =? 0x80)
                     && (between 0x80 0x8A c || (code c =? 0xA8) || (code c =? 0xA9)
                         || (code c =? 0xAF))
                  || (code a =? 0xE2) && (code b =? 0x81) && (code c =? 0x9F)
                  || (code a =? 0xE3) && (code b =? 0x80) && (code c =? 0x80))%N
              then Some s3 else None
          end
      end
  end.

Fixpoint trim_start_fuel (n : nat) (s : string) : string :=
  match n with
  | 0 => s
  | S n' => match strip_ws s with Some s' => trim_start_fuel n' s' | None => s end
  end.
(** One character goes per round, so the length is enough fuel. *)
Definition trim_start (s : string) : string := trim_start_fuel (String.length s) s.

(** [s.trim().is_empty()]. *)
Definition is_blank (s : string) : bool := bool_decide (trim_start s = EmptyString).

Fixpoint trim_end (s : string) : string :=
  if is_blank s then EmptyString else
  match s with EmptyString => EmptyString | String c s' => String c (trim_end s') end.

Definition trim (s : string) : string := trim_end (trim_start s).

(** A byte that starts no white-space character. *)
Definition not_ws_byte (c : ascii) : bool :=
  negb (between 9 13 c || (code c =? 32)%N || (code c =? 0xC2)%N
        || (code c =? 0xE1)%N || (code c =? 0xE2)%N || (code c =? 0xE3)%N).

Lemma strip_ws_not_ws c s : not_ws_byte c → strip_ws (String c s) = None.
Proof.
  unfold not_ws_byte; intros H; simpl.
  destruct (between 9 13 c); [done|]. destruct (code c =? 32)%N; [done|].
  destruct (code c =? 0xC2)%N; [done|]. destruct (code c =? 0xE1)%N; [done|].
  destruct (code c =? 0xE2)%N; [done|]. destruct (code c =? 0xE3)%N; [done|].
  simpl. destruct s as [|b s]; [done|]. by destruct s.
Qed.

Lemma trim_start_not_ws c s : not_ws_byte c → trim_start (String c s) = String c s.
Proof. intros H. unfold trim_start. cbn -[strip_ws]. by rw strip_ws_not_ws. Qed.

Lemma trim_not_ws s : str_forall not_ws_byte s → trim s = s.
Proof.
  intros H. unfold trim.
  assert (trim_start s = s) as ->.
  { destruct s; [done|]. apply andb_True in H as [??]. by apply trim_start_not_ws. }
  induction s as [|c s IH]; [done|]. apply andb_True in H as [Hc Hs].
  cbn -[is_blank]. unfold is_blank. rw trim_start_not_ws //=. by rw IH.
Qed.

(** *** Decimal numbers *)

Definition digit_value (c : ascii) : option N :=
  if is_ascii_digit c then Some (code c - 48)%N else None.

Fixpoint parse_digits (max acc : N) (s : string) : option N :=
  match s with
  | EmptyString => Some acc
  | String c s' =>
      d ← digit_value c;
      let acc' := (acc * 10 + d)%N in
      if (max <? acc')%N then None else parse_digits max acc' s'
  end.

(** [s.parse::<uN>().ok()]: an optional [+], then at least one digit, and no
    value above [max]. *)
Definition parse_uint (max : N) (s : string) : option N :=
  match s with
  | EmptyString => None
  | String c s' =>
      if decide (c = "+"%char) then
        match s' with EmptyString => None | _ => parse_digits max 0 s' end
      else parse_digits max 0 s
  end.

Definition u32_max : N := 2 ^ 32 - 1.
Definition u64_max : N := 2 ^ 64 - 1.

Lemma digit_char_value x : (x < 10)%N → digit_value (pretty_N_char x) = Some x.
Proof.
  intros Hx.
  assert (x = 0 ∨ x = 1 ∨ x = 2 ∨ x = 3 ∨ x = 4 ∨ x = 5 ∨ x = 6 ∨ x = 7 ∨ x = 8 ∨ x = 9)%N
    by lia.
  by destruct_or!; subst.
Qed.

Lemma parse_digits_pretty max x s :
  (x ≤ max)%N → parse_digits max 0 (pretty_N_go x s) = parse_digits max x s.
Proof.
  revert s. induction (N.lt_wf_0 x) as [x _ IH]; intros s Hmax.
  destruct (decide (x = 0)%N) as [->|Hx]; [by rw pretty_N_go_0|].
  rw pretty_N_go_step; [|lia].
  rw IH; [|apply N.div_lt; lia|etrans; [|exact Hmax]; apply N.Div0.div_le_upper_bound; lia].
  cbn [parse_digits]. rw digit_char_value; [|by apply N.mod_upper_bound]. cbn.
  rw (N.mul_comm _ 10) -N.div_mod'. by rw (proj2 (N.ltb_ge _ _)).
Qed.

Lemma pretty_N_go_digits x s :
  str_forall is_ascii_digit s → str_forall is_ascii_digit (pretty_N_go x s).
Proof.
  revert s. induction (N.lt_wf_0 x) as [x _ IH]; intros s Hs.
  destruct (decide (x = 0)%N) as [->|Hx]; [by rw pretty_N_go_0|].
  rw pretty_N_go_step; [|lia]. apply IH; [apply N.div_lt; lia|]. simpl.
  apply andb_True; split; [|done].
  pose proof (digit_char_value (x `mod` 10)%N (N.mod_upper_bound x 10 ltac:(lia))) as Hd.
  unfold digit_value in Hd. by destruct (is_ascii_digit _).
Qed.

Lemma pretty_N_digits (x : N) : str_forall is_ascii_digit (pretty x).
Proof.
  unfold pretty, pretty_N. case_decide; [done|]. by apply pretty_N_go_digits.
Qed.

Lemma pretty_N_go_nonempty x s : (0 < x)%N → pretty_N_go x s ≠ EmptyString.
Proof.
  revert s. induction (N.lt_wf_0 x) as [x _ IH]; intros s Hx.
  rw pretty_N_go_step //.
  destruct (decide (x `div` 10 = 0)%N) as [->|Hd]; [by rw pretty_N_go_0|].
  apply IH; [apply N.div_lt; lia|].
  by apply N.neq_0_lt_0.
Qed.

Lemma pretty_N_nonempty (x : N) : pretty x ≠ EmptyString.
Proof.
  unfold pretty, pretty_N. case_decide; [done|]. apply pretty_N_go_nonempty. lia.
Qed.

(** Printing then parsing a number gives it back. *)
Lemma parse_uint_pretty max (x : N) : (x ≤ max)%N → parse_uint max (pretty x) = Some x.
Proof.
  intros Hx. pose proof (pretty_N_digits x) as Hd. pose proof (pretty_N_nonempty x) as Hn.
  assert (parse_digits max 0 (pretty x) = Some x) as Hp.
  { unfold pretty, pretty_N. case_decide; subst.
    - cbn. by destruct max.
    - by rw parse_digits_pretty. }
  unfold parse_uint. destruct (pretty x) as [|c s]; [done|].
  apply andb_True in Hd as [Hc _]. rw decide_False //. by intros ->.
Qed.

Lemma parse_uint_bound max s n : parse_uint max s = Some n → (n ≤ max)%N.
Proof.
  assert (∀ s acc, (acc ≤ max)%N → parse_digits max acc s = Some n → (n ≤ max)%N) as Hd.
  { clear s. induction s as [|c s IH]; simpl; intros acc Hacc; [by intros [= <-]|].
    destruct (digit_value c); simpl; [|done].
    destruct (N.ltb_spec max (acc * 10 + n0)); [done|]. by apply IH. }
  destruct s as [|c s]; [done|]. unfold parse_uint.
  case_decide; [destruct s; [done|]|]; apply Hd; lia.
Qed.

Lemma digits_no_char c s : ¬ is_ascii_digit c → str_forall is_ascii_digit s → no_char c s.
Proof.
  intros Hc. induction s as [|d s IH]; [done|]; simpl. intros [Hd Hs]%andb_True.
  apply no_char_cons; split; [by intros ->|by apply IH].
Qed.

(** ** Floats

    An [f64] is its IEEE 754 bit pattern; [PartialEq] and [PartialOrd] are
    defined on the patterns: a NaN equals nothing, the two zeros are equal. *)
Definition f64_magnitude (b : Z) : Z := Z.land b (Z.ones 63).
Definition f64_negative (b : Z) : bool := Z.testbit b 63.
Definition f64_inf : Z := Z.shiftl 0x7FF 52.
Definition f64_is_nan (b : Z) : bool := (f64_inf <? f64_magnitude b)%Z.
(** Patterns other than NaN's, in the order of the numbers they stand for. *)
Definition f64_rank (b : Z) : Z :=
  if f64_negative b then (- f64_magnitude b)%Z else f64_magnitude b.
Definition f64_eqb (a b : Z) : bool :=
  negb (f64_is_nan a) && negb (f64_is_nan b) && (f64_rank a =? f64_rank b)%Z.
Definition f64_ltb (a b : Z) : bool :=
  negb (f64_is_nan a) && negb (f64_is_nan b) && (f64_rank a <? f64_rank b)%Z.
Definition f64_leb (a b : Z) : bool := f64_ltb a b || f64_eqb a b.
Definition f64_zero : Z := 0.
Definition f64_one : Z := Z.shiftl 0x3FF 52.
Definition f64_nan : Z := Z.shiftl 0xFFF 51.

(** [x.clamp(lo, hi)]. *)
Definition f64_clamp (x lo hi : Z) : Z :=
  let x := if f64_ltb x lo then lo else x in
  if f64_ltb hi x then hi else x.

Lemma f64_eqb_sym a b : f64_eqb a b = f64_eqb b a.
Proof. unfold f64_eqb. rw Z.eqb_sym. by destruct (f64_is_nan a), (f64_is_nan b). Qed.

Lemma f64_clamp_bounds x lo hi :
  f64_is_nan x = false → f64_is_nan lo = false → f64_is_nan hi = false →
  (f64_rank lo ≤ f64_rank hi)%Z →
  f64_leb lo (f64_clamp x lo hi) ∧ f64_leb (f64_clamp x lo hi) hi.
Proof.
  intros Hx Hlo Hhi Hle.
  assert (∀ a b, f64_is_nan a = false → f64_is_nan b = false →
    f64_leb a b ↔ (f64_rank a ≤ f64_rank b)%Z) as Hleb.
  { intros a b Ha Hb. unfold f64_leb, f64_ltb, f64_eqb. rw Ha Hb /= Is_true_true orb_true_iff.
    rw Z.ltb_lt Z.eqb_eq. lia. }
  assert (∀ a b, f64_is_nan a = false → f64_is_nan b = false →
    f64_ltb a b = (f64_rank a <? f64_rank b)%Z) as Hltb.
  { intros a b Ha Hb. unfold f64_ltb. by rw Ha Hb. }
  unfold f64_clamp. rw (Hltb x lo) //.
  destruct (Z.ltb_spec (f64_rank x) (f64_rank lo)); rw Hltb //;
    (case_match eqn:E; [apply Z.ltb_lt in E|apply Z.ltb_ge in E]); rw !Hleb //; lia.
Qed.

(** ** Sorted maps

    A [BTreeMap<String, _>] is a [gmap]; [entries] is its iteration order. *)
Definition sorted_keys {A} (m : gmap string A) : list string :=
  merge_sort String.le (map_to_list m).*1.

Definition entries {A} (m : gmap string A) : list (string * A) :=
  omap (λ k, (k,.) <$> m !! k) (sorted_keys m).

Lemma elem_of_sorted_keys {A} (m : gmap string A) k :
  k ∈ sorted_keys m ↔ is_Some (m !! k).
Proof.
  unfold sorted_keys. rw merge_sort_Permutation list_elem_of_fmap. split.
  - intros ([k' v] & -> & H%elem_of_map_to_list). eauto.
  - intros [v H%elem_of_map_to_list]. by exists (k, v).
Qed.

Lemma sorted_keys_NoDup {A} (m : gmap string A) : NoDup (sorted_keys m).
Proof. unfold sorted_keys. rw merge_sort_Permutation. apply NoDup_fst_map_to_list. Qed.

Lemma sorted_keys_Sorted {A} (m : gmap string A) : StronglySorted String.le (sorted_keys m).
Proof. unfold sorted_keys. apply StronglySorted_merge_sort; apply _. Qed.

Lemma elem_of_entries {A} (m : gmap string A) k v : (k, v) ∈ entries m ↔ m !! k = Some v.
Proof.
  unfold entries. rw list_elem_of_omap. split.
  - intros (k' & _ & H). destruct (m !! k') eqn:E; simplify_eq/=. done.
  - intros H. exists k. rw elem_of_sorted_keys H /=. eauto.
Qed.

Lemma entries_keys {A} (m : gmap string A) : (entries m).*1 = sorted_keys m.
Proof.
  unfold entries.
  assert (∀ k, k ∈ sorted_keys m → is_Some (m !! k)) as H by (intros; by apply elem_of_sorted_keys).
  induction (sorted_keys m) as [|k l IH]; [done|]; csimpl.
  destruct (H k) as [v Hv]; [by left|]. rw Hv. csimpl. rw IH //. intros; apply H. by right.
Qed.

Lemma entries_NoDup {A} (m : gmap string A) : NoDup (entries m).*1.
Proof. rw entries_keys. apply sorted_keys_NoDup. Qed.

(** The map an iteration of it rebuilds. *)
Lemma list_to_map_entries {A} (m : gmap string A) : list_to_map (entries m) = m.
Proof.
  apply map_eq. intros k. apply option_eq. intros v.
  rw -elem_of_list_to_map; [apply elem_of_entries|apply entries_NoDup].
Qed.

Lemma sorted_list_unique (l1 l2 : list string) :
  NoDup l1 → NoDup l2 → StronglySorted String.le l1 → StronglySorted String.le l2 →
  (∀ x, x ∈ l1 ↔ x ∈ l2) → l1 = l2.
Proof.
  intros Hn1 Hn2 H1 H2 Hin. apply (StronglySorted_unique String.le); [done|done|].
  by apply NoDup_Permutation.
Qed.

Lemma sorted_keys_dom {A B} (m : gmap string A) (m' : gmap string B) :
  dom m = dom m' → sorted_keys m = sorted_keys m'.
Proof.
  intros Hd. apply sorted_list_unique; auto using sorted_keys_NoDup, sorted_keys_Sorted.
  intros k. setoid_rewrite elem_of_sorted_keys. setoid_rewrite <-elem_of_dom. by rw Hd.
Qed.

Lemma entries_fmap {A B} (f : A → B) (m : gmap string A) :
  entries (f <$> m) = prod_map id f <$> entries m.
Proof.
  unfold entries. rw (sorted_keys_dom (f <$> m) m); [|apply dom_fmap_L].
  induction (sorted_keys m) as [|k l IH]; [done|]; csimpl.
  rw lookup_fmap. destruct (m !! k); csimpl; by rw IH.
Qed.

(** A list of distinct keys in order is the iteration of the map it makes. *)
Lemma entries_list_to_map {A} (l : list (string * A)) :
  NoDup l.*1 → StronglySorted String.le l.*1 →
  entries (list_to_map l : gmap string A) = l.
Proof.
  intros Hn Hs.
  assert (sorted_keys (list_to_map l : gmap string A) = l.*1) as Hk.
  { apply sorted_list_unique; auto using sorted_keys_NoDup, sorted_keys_Sorted.
    intros k. rw elem_of_sorted_keys. split.
    - intros [v Hv%elem_of_list_to_map_2]. apply list_elem_of_fmap. by exists (k, v).
    - intros ([k' v] & -> & Hin)%list_elem_of_fmap. exists v.
      by apply elem_of_list_to_map_1. }
  unfold entries. rw Hk. clear Hk Hs.
  assert (∀ k v, (k, v) ∈ l → (list_to_map l : gmap string A) !! k = Some v) as Hl
    by (intros; by apply elem_of_list_to_map_1).
  revert Hl. generalize (list_to_map l : gmap string A) as m. clear Hn.
  induction l as [|[k v] l IH]; intros m Hl; [done|]; csimpl.
  rw (Hl k v); [|by left]. csimpl. rw IH //. intros; apply Hl. by right.
Qed.

(** ** What is left to visit

    The weight of the entries of a map outside a set: the measure by which a
    walk that marks what it visits terminates. *)
Definition weight {K A} `{Countable K} (w : A → nat) (m : gmap K A) (seen : gset K) : nat :=
  sum_list_with (λ kv, w kv.2) (map_to_list (filter (λ kv, kv.1 ∉ seen) m)).

Lemma weight_seen {K A} `{Countable K} (w : A → nat) (m : gmap K A) seen i x :
  m !! i = Some x → i ∉ seen → weight w m seen = w x + weight w m ({[i]} ∪ seen).
Proof.
  intros Hi Hs. unfold weight.
  assert (filter (λ kv, kv.1 ∉ seen) m =
    <[i:=x]> (filter (λ kv, kv.1 ∉ {[i]} ∪ seen) m)) as ->.
  { apply map_eq. intros j. destruct (decide (i = j)) as [<-|Hij].
    - rw lookup_insert_eq. apply map_lookup_filter_Some. done.
    - rw lookup_insert_ne //. apply option_eq. intros y.
      rw !map_lookup_filter_Some. set_solver. }
  rw map_to_list_insert; [done|].
  apply map_lookup_filter_None. right. intros ? _. set_solver.
Qed.

Lemma weight_skip {K A} `{Countable K} (w : A → nat) (m : gmap K A) seen i :
  m !! i = None → weight w m ({[i]} ∪ seen) = weight w m seen.
Proof.
  intros Hi. unfold weight. f_equal. f_equal. apply map_filter_ext.
  intros j x Hj. simpl. set_solver.
Qed.

Lemma weight_ext {K A} `{Countable K} (w : A → nat) (m : gmap K A) seen seen' :
  (∀ i, i ∈ seen ↔ i ∈ seen') → weight w m seen = weight w m seen'.
Proof. intros Hs. unfold weight. f_equal. f_equal. apply map_filter_ext. intros j x _. simpl. by rw Hs. Qed.

Lemma weight_empty {K A} `{Countable K} (w : A → nat) seen : weight w (∅ : gmap K A) seen = 0.
Proof. unfold weight. by rw map_filter_empty map_to_list_empty. Qed.

Lemma weight_insert {K A} `{Countable K} (w : A → nat) (m : gmap K A) i x :
  m !! i = None → weight w (<[i:=x]> m) ∅ = w x + weight w m ∅.
Proof.
  intros Hi. rw (weight_seen w (<[i:=x]> m) ∅ i x); [|apply lookup_insert_eq|set_solver].
  f_equal. unfold weight. f_equal. f_equal. apply map_eq. intros j. apply option_eq. intros y.
  rw !map_lookup_filter_Some lookup_insert_Some. set_solver.
Qed.

(** A map whose entries weigh no more than those of another at the same keys. *)
Lemma weight_le {K A B} `{Countable K} (w : A → nat) (w' : B → nat) (m : gmap K A) (m' : gmap K B) :
  (∀ i x, m !! i = Some x → w x ≤ match m' !! i with Some y => w' y | None => 0 end) →
  weight w m ∅ ≤ weight w' m' ∅.
Proof.
  revert m'. induction m as [|i x m Hi IH] using map_ind; intros m' Hle; [rw weight_empty; lia|].
  rw weight_insert //. specialize (Hle i x) as Hx. rewrite lookup_insert_eq in Hx. specialize (Hx eq_refl).
  assert (weight w m ∅ ≤ weight w' (delete i m') ∅) as Hrec.
  { apply IH. intros j y Hj. assert (i ≠ j) as Hij by (intros ->; congruence).
    rw lookup_delete_ne //. apply Hle. by rw lookup_insert_ne. }
  destruct (m' !! i) as [y|] eqn:Hy.
  - rw -(insert_delete_id m' i y Hy) weight_insert; [lia|apply lookup_delete_eq].
  - rewrite delete_id in Hrec; [lia|done].
Qed.

Lemma weight_anti {K A} `{Countable K} (w : A → nat) (m : gmap K A) (seen seen' : gset K) :
  seen ⊆ seen' → weight w m seen' ≤ weight w m seen.
Proof.
  intros Hsub.
  assert (∀ s : gset K, weight w m s = weight w (filter (λ kv, kv.1 ∉ s) m) ∅) as Hw.
  { intros s. unfold weight. f_equal. f_equal. apply map_eq. intros j. apply option_eq. intros y.
    rw !map_lookup_filter_Some. set_solver. }
  rw !Hw. apply weight_le. intros i x [Hi Hn]%map_lookup_filter_Some.
  assert (filter (λ kv, kv.1 ∉ seen) m !! i = Some x) as ->; [|done].
  apply map_lookup_filter_Some. set_solver.
Qed.

Lemma weight_scale {K A} `{Countable K} n (w : A → nat) (m : gmap K A) seen :
  weight (λ x, n * w x) m seen = n * weight w m seen.
Proof. unfold weight. induction (map_to_list _) as [|x l IH]; simpl; lia. Qed.
