(* ===== verification/Objects.v ===== *)
(** * Objects: content-addressed values

    Models [agentstategraph-core/src/object.rs]: object ids and their
    hexadecimal forms, atoms, nodes, objects, the derived [PartialEq], the
    constructors, and the content address. [blake3] and [serde_json] are not
    part of the repository: the address of an object goes through the class
    [ContentHash], whose law [collision_free] is that distinct serialisable
    objects have distinct addresses. *)
From S2P Require Import Prelude.

(** ** Object ids *)

(** [ObjectId([u8; 32])]; the length is [valid_oid]. *)
Record ObjectId := Oid { oid_bytes : string }.

#[export] Instance ObjectId_eq_dec : EqDecision ObjectId.
Proof. solve_decision. Defined.
#[export] Instance ObjectId_countable : Countable ObjectId.
Proof. apply (inj_countable' oid_bytes Oid). by intros []. Defined.

#[export] Instance oid_bytes_inj : Inj (=) (=) oid_bytes.
Proof. by intros [] [] [= ->]. Qed.

Definition valid_oid (id : ObjectId) : Prop := slen (oid_bytes id) = 32%N.

(** The order of the derived [Ord]: bytewise. *)
Definition oid_le (a b : ObjectId) : Prop := String.le (oid_bytes a) (oid_bytes b).
#[export] Instance oid_le_dec : RelDecision oid_le := λ a b, String.le_dec _ _.
#[export] Instance oid_le_total : Total oid_le.
Proof. intros a b. apply (total String.le). Qed.
#[export] Instance oid_le_trans : Transitive oid_le.
Proof. intros a b c. apply (transitivity (R := String.le)). Qed.
#[export] Instance oid_le_antisymm : AntiSymm (=) oid_le.
Proof. intros [a] [b] H1 H2. f_equal. by apply (anti_symm String.le). Qed.

Definition hex_digit (n : N) : ascii :=
  ascii_of_N (if n <? 10 then 48 + n else 87 + n)%N.

(** [format!("{:02x}", b)]. *)
Definition hex_byte (c : ascii) (rest : string) : string :=
  String (hex_digit (code c / 16)%N) (String (hex_digit (code c mod 16)%N) rest).

Fixpoint to_hex (bytes : string) : string :=
  match bytes with
  | EmptyString => EmptyString
  | String c s => hex_byte c (to_hex s)
  end.

Definition oid_to_hex (id : ObjectId) : string := to_hex (oid_bytes id).

(** [impl Display for ObjectId]. *)
Definition oid_display (id : ObjectId) : string := "sg_" +:+ to_hex (oid_bytes id).

Definition oid_short (id : ObjectId) : string :=
  "sg_" +:+ to_hex (String.substring 0 6 (oid_bytes id)).

(** [char::to_digit(16)]. *)
Definition to_digit16 (c : ascii) : option N :=
  if is_ascii_digit c then Some (code c - 48)%N
  else if between 97 102 c then Some (code c - 87)%N
  else if between 65 70 c then Some (code c - 55)%N
  else None.

(** The loop over [hex.as_bytes().chunks(2)]. *)
Fixpoint hex_chunks (s : string) : option string :=
  match s with
  | EmptyString => Some EmptyString
  | String _ EmptyString => None
  | String a (String b s') =>
      hi ← to_digit16 a; lo ← to_digit16 b;
      rest ← hex_chunks s';
      Some (String (ascii_of_N (hi * 16 + lo)%N) rest)
  end.

Definition hex_fragment (s : string) : string :=
  default (trim s) (strip_prefix "sg_" (trim s)).

Definition from_hex (s : string) : option ObjectId :=
  let hex := hex_fragment s in
  if negb (slen hex =? 64)%N || negb (str_forall is_ascii_hexdigit hex) then None
  else Oid <$> hex_chunks hex.

Definition normalize_hex_prefix (s : string) : option string :=
  let frag := hex_fragment s in
  if bool_decide (frag = EmptyString) || negb (str_forall is_ascii_hexdigit frag) then None
  else Some (to_ascii_lowercase frag).

(** *** Hexadecimal lemmas *)

Lemma code_bound c : (code c < 256)%N.
Proof. apply N_ascii_bounded. Qed.

Lemma code_ascii n : (n < 256)%N → code (ascii_of_N n) = n.
Proof. intros. by apply N_ascii_embedding. Qed.

(** Every property of one byte is decided by looking at the 256 of them. *)
Lemma all_bytes (P : ascii → bool) :
  forallb (λ n, P (ascii_of_nat n)) (seq 0 256) = true → ∀ c, P c.
Proof.
  rw forallb_forall. intros H c.
  rewrite -(ascii_nat_embedding c). apply Is_true_true, H, in_seq.
  split; [lia|]. pose proof (nat_ascii_bounded c). lia.
Qed.

Lemma to_digit16_hex_digit n : (n < 16)%N → to_digit16 (hex_digit n) = Some n.
Proof.
  intros Hn. rewrite -(N2Nat.id n).
  assert (N.to_nat n < 16) as Hlt by lia. revert Hlt. generalize (N.to_nat n). clear.
  intros n Hn. do 16 (destruct n as [|n]; [done|]). lia.
Qed.

Lemma hex_digit_inj a b : (a < 16)%N → (b < 16)%N → hex_digit a = hex_digit b → a = b.
Proof.
  intros Ha Hb H. apply (f_equal to_digit16) in H.
  rewrite !to_digit16_hex_digit in H; [|done..]. by injection H.
Qed.

Lemma to_digit16_Some c n :
  to_digit16 c = Some n ↔
  is_ascii_hexdigit c ∧ to_ascii_lowercase_char c = hex_digit n ∧ (n < 16)%N.
Proof.
  set (P := λ c, match to_digit16 c with
     | Some n => is_ascii_hexdigit c && (n <? 16)%N &&
                 bool_decide (to_ascii_lowercase_char c = hex_digit n)
     | None => negb (is_ascii_hexdigit c) end).
  assert (P c) as H by (apply all_bytes; by vm_compute).
  revert H. unfold P. destruct (to_digit16 c) as [m|].
  - intros [[Hh Hm%Is_true_true%N.ltb_lt]%andb_True Hl%bool_decide_unpack]%andb_True.
    rw Hl. split; [intros [= ->]; done|]. intros (_ & H & Hn). f_equal. by apply hex_digit_inj.
  - intros Hn. split; [done|]. intros [? _]. by destruct (is_ascii_hexdigit c).
Qed.

Lemma hex_byte_ascii a b r :
  (a < 16)%N → (b < 16)%N →
  hex_byte (ascii_of_N (a * 16 + b)) r = String (hex_digit a) (String (hex_digit b) r).
Proof.
  intros Ha Hb. unfold hex_byte. rw code_ascii; [|lia].
  rw N.div_add_l // N.div_small // N.add_0_r.
  by rw N.add_comm N.Div0.mod_add N.mod_small.
Qed.

Lemma hex_byte_code c r :
  ∃ a b, (a < 16)%N ∧ (b < 16)%N ∧ c = ascii_of_N (a * 16 + b) ∧
    hex_byte c r = String (hex_digit a) (String (hex_digit b) r).
Proof.
  exists (code c / 16)%N, (code c mod 16)%N. pose proof (code_bound c). split_and!; [| | |done].
  - apply N.Div0.div_lt_upper_bound. lia.
  - by apply N.mod_upper_bound.
  - rewrite N.mul_comm -N.div_mod' /code. by rewrite ascii_N_embedding.
Qed.

Lemma hexdigit_not_ws c : is_ascii_hexdigit c → not_ws_byte c.
Proof.
  assert (implb (is_ascii_hexdigit c) (not_ws_byte c)) as H; [|by destruct (is_ascii_hexdigit c)].
  apply (all_bytes (λ c, implb (is_ascii_hexdigit c) (not_ws_byte c))). by vm_compute.
Qed.

(** Decoding and encoding are inverse up to the case of the digits. *)
Lemma hex_chunks_to_hex s b :
  hex_chunks s = Some b ↔ str_forall is_ascii_hexdigit s ∧ to_ascii_lowercase s = to_hex b.
Proof.
  revert s b. assert (∀ n s b, String.length s < n → hex_chunks s = Some b ↔
    str_forall is_ascii_hexdigit s ∧ to_ascii_lowercase s = to_hex b) as H; [|naive_solver].
  induction n as [|n IH]; [lia|]. intros [|a1 [|a2 s]] b Hn; simpl in *.
  - split; [intros [= <-]; done|]. by intros [_ Hb]; destruct b.
  - split; [done|]. intros [_ H]. by destruct b.
  - split.
    + intros (x & (Hx & Ex & ?)%to_digit16_Some & (y & (Hy & Ey & ?)%to_digit16_Some &
        (r & (Hr & Er)%IH & [= <-])%bind_Some)%bind_Some)%bind_Some; [|lia].
      rw /= Ex Ey Er hex_byte_ascii // !andb_True. done.
    + rw !andb_True. intros [(H1 & H2 & Hs) H].
      destruct b as [|c b]; [done|]. rw /= in H.
      destruct (hex_byte_code c (to_hex b)) as (x & y & Hx & Hy & -> & Eb).
      rewrite Eb in H. injection H as Ex Ey Er.
      rewrite (proj2 (to_digit16_Some a1 x)) // (proj2 (to_digit16_Some a2 y)) //=.
      by rewrite (proj2 (IH s b _)) //; lia.
Qed.

Lemma hex_chunks_length s b : hex_chunks s = Some b → slen s = (2 * slen b)%N.
Proof.
  unfold slen. revert s. assert (∀ n s b, String.length s < n → hex_chunks s = Some b →
    N.of_nat (String.length s) = (2 * N.of_nat (String.length b))%N) as H; [|naive_solver].
  clear. induction n as [|n IH]; [lia|]. intros [|a1 [|a2 s]] b Hn; simpl in *; [by intros [= <-]|done|].
  intros (? & _ & (? & _ & (r & Hr%IH & [= <-])%bind_Some)%bind_Some)%bind_Some; simpl; lia.
Qed.

Lemma to_hex_length b : String.length (to_hex b) = 2 * String.length b.
Proof. induction b as [|c b IH]; simpl; lia. Qed.

Lemma to_hex_lowercase b :
  str_forall is_ascii_hexdigit (to_hex b) ∧ to_ascii_lowercase (to_hex b) = to_hex b.
Proof.
  assert (∀ n, (n < 16)%N → is_ascii_hexdigit (hex_digit n) ∧
    to_ascii_lowercase_char (hex_digit n) = hex_digit n) as Hd.
  { intros n Hn%to_digit16_hex_digit%to_digit16_Some. naive_solver. }
  induction b as [|c b [IH1 IH2]]; [done|]. cbn [to_hex].
  destruct (hex_byte_code c (to_hex b)) as (x & y & Hx%Hd & Hy%Hd & _ & ->).
  destruct Hx as [Hx1 Hx2], Hy as [Hy1 Hy2]. cbn [str_forall to_ascii_lowercase].
  rw Hx2 Hy2 IH2 !andb_True. done.
Qed.

Lemma to_hex_inj a b : to_hex a = to_hex b → a = b.
Proof.
  intros H. destruct (to_hex_lowercase a) as [Ha La].
  assert (hex_chunks (to_hex a) = Some a) as E1 by by apply hex_chunks_to_hex.
  assert (hex_chunks (to_hex a) = Some b) as E2.
  { apply hex_chunks_to_hex. split; [done|]. by rw La. }
  congruence.
Qed.

(** ** Values *)

(** [Atom]: integers at their width ([i64], [u64]), floats as bit patterns. *)
Inductive Atom : Type :=
  | ANull
  | ABool (b : bool)
  | AInt (i : Z)
  | AFloat (f : Z)
  | AString (s : string)
  | ABytes (b : string)
  | AUInt (u : N).

(** [Node]: children are referenced by id. *)
Inductive Node : Type :=
  | NMap (entries : gmap string ObjectId)
  | NList (items : list ObjectId)
  | NSet (items : list ObjectId).

Inductive Object : Type :=
  | OAtom (a : Atom)
  | ONode (n : Node).

#[export] Instance Atom_eq_dec : EqDecision Atom.
Proof. solve_decision. Defined.
#[export] Instance Node_eq_dec : EqDecision Node.
Proof. solve_decision. Defined.
#[export] Instance Object_eq_dec : EqDecision Object.
Proof. solve_decision. Defined.

(** The derived [PartialEq]: floats compare as IEEE numbers. *)
Definition atom_eqb (a b : Atom) : bool :=
  match a, b with
  | ANull, ANull => true
  | ABool x, ABool y => Bool.eqb x y
  | AInt x, AInt y => (x =? y)%Z
  | AFloat x, AFloat y => f64_eqb x y
  | AString x, AString y => bool_decide (x = y)
  | ABytes x, ABytes y => bool_decide (x = y)
  | AUInt x, AUInt y => (x =? y)%N
  | _, _ => false
  end.

Definition object_eqb (a b : Object) : bool :=
  match a, b with
  | OAtom x, OAtom y => atom_eqb x y
  | ONode x, ONode y => bool_decide (x = y)
  | _, _ => false
  end.

Lemma atom_eqb_sym a b : atom_eqb a b = atom_eqb b a.
Proof.
  destruct a, b; simpl; try done.
  - by destruct b0, b.
  - apply Z.eqb_sym.
  - apply f64_eqb_sym.
  - apply bool_decide_ext. naive_solver.
  - apply bool_decide_ext. naive_solver.
  - apply N.eqb_sym.
Qed.

Lemma object_eqb_sym a b : object_eqb a b = object_eqb b a.
Proof.
  destruct a, b; simpl; try done; [apply atom_eqb_sym|].
  apply bool_decide_ext. naive_solver.
Qed.

(** Only floats make [PartialEq] differ from equality. *)
Definition is_float (o : Object) : bool :=
  match o with OAtom (AFloat _) => true | _ => false end.

Lemma object_eqb_exact a b : ¬ is_float a → object_eqb a b ↔ a = b.
Proof.
  destruct a as [a|n], b as [b|m]; simpl; try (by intros; split); [|].
  - destruct a, b; simpl; intros Hf; try (by split); try (by destruct Hf).
    + destruct b0, b; simpl; by split.
    + rw Is_true_true Z.eqb_eq. naive_solver.
    + rw bool_decide_spec. naive_solver.
    + rw bool_decide_spec. naive_solver.
    + rw Is_true_true N.eqb_eq. naive_solver.
  - intros _. rw bool_decide_spec. naive_solver.
Qed.

(** *** Constructors *)

Definition i64_min : Z := - 2 ^ 63.
Definition i64_max : Z := 2 ^ 63 - 1.

Definition mk_null : Object := OAtom ANull.
Definition mk_bool (v : bool) : Object := OAtom (ABool v).
Definition mk_int (v : Z) : Object := OAtom (AInt v).
Definition mk_float (v : Z) : Object := OAtom (AFloat v).

(** [Object::uint]: one representation for each number. *)
Definition mk_uint (v : N) : Object :=
  if (Z.of_N v <=? i64_max)%Z then OAtom (AInt (Z.of_N v)) else OAtom (AUInt v).

(** [serde_json::Number]: a [u64], a negative [i64] or a float. *)
Inductive JsonNumber : Type :=
  | PosInt (n : N)
  | NegInt (i : Z)
  | FloatNum (f : Z).

Definition num_as_i64 (n : JsonNumber) : option Z :=
  match n with
  | PosInt n => if (Z.of_N n <=? i64_max)%Z then Some (Z.of_N n) else None
  | NegInt i => Some i
  | FloatNum _ => None
  end.
Definition num_as_u64 (n : JsonNumber) : option N :=
  match n with PosInt n => Some n | _ => None end.
Definition num_as_f64 (n : JsonNumber) : option Z :=
  match n with FloatNum f => Some f | _ => None end.

Definition from_json_number (n : JsonNumber) : Object :=
  match num_as_i64 n with
  | Some i => mk_int i
  | None =>
      match num_as_u64 n with
      | Some u => mk_uint u
      | None => mk_float (default f64_nan (num_as_f64 n))
      end
  end.

Definition mk_string (v : string) : Object := OAtom (AString v).
Definition mk_bytes (v : string) : Object := OAtom (ABytes v).
Definition mk_map (entries : gmap string ObjectId) : Object := ONode (NMap entries).
Definition empty_map : Object := ONode (NMap ∅).
Definition mk_list (items : list ObjectId) : Object := ONode (NList items).

(** [Vec::dedup]: consecutive repetitions go. *)
Fixpoint dedup {A} `{EqDecision A} (l : list A) : list A :=
  match l with
  | [] => []
  | x :: l' =>
      match dedup l' with
      | [] => [x]
      | y :: l'' => if decide (x = y) then y :: l'' else x :: y :: l''
      end
  end.

(** [Object::set]: sorted, without repetitions. *)
Definition mk_set (items : list ObjectId) : Object :=
  ONode (NSet (dedup (merge_sort oid_le items))).

(** ** Content addresses *)

Class ContentHash := {
  canonical_bytes : Object → string;   (* [serde_json::to_vec] of an object *)
  blake3 : string → string;
}.

Definition oid_hash `{CH : ContentHash} (data : string) : ObjectId := Oid (blake3 data).
Definition oid_of `{CH : ContentHash} (o : Object) : ObjectId := oid_hash (canonical_bytes o).

(** Objects [serde_json] writes faithfully: a JSON number is finite. *)
Definition f64_finite (f : Z) : bool := (f64_magnitude f <? f64_inf)%Z.
Definition finite (o : Object) : bool :=
  match o with OAtom (AFloat f) => f64_finite f | _ => true end.

Class CollisionFree `{CH : ContentHash} :=
  collision_free o1 o2 : finite o1 → finite o2 → oid_of o1 = oid_of o2 → o1 = o2.

(** ** Sets are canonical *)

Lemma elem_of_dedup {A} `{EqDecision A} (l : list A) x : x ∈ dedup l ↔ x ∈ l.
Proof.
  induction l as [|y l IH]; [done|]. simpl. rw elem_of_cons -IH.
  destruct (dedup l) as [|z l']; [by rw !elem_of_cons|].
  case_decide; subst; rw !elem_of_cons; tauto.
Qed.

Lemma dedup_cons_sorted {A} (R : relation A) `{EqDecision A, !AntiSymm (=) R} (x : A) l :
  Forall (R x) l → StronglySorted R (dedup l) → NoDup (dedup l) →
  StronglySorted R (dedup (x :: l)) ∧ NoDup (dedup (x :: l)).
Proof.
  intros Hx Hs Hn. assert (Forall (R x) (dedup l)) as Hx'.
  { apply list.Forall_forall. intros y. rw elem_of_dedup. revert y. by apply list.Forall_forall. }
  simpl. destruct (dedup l) as [|y l'] eqn:E.
  - split; [by repeat constructor|apply NoDup_singleton].
  - case_decide as Hxy; [done|]. split; [by constructor|].
    apply NoDup_cons; split; [|done]. rw elem_of_cons. intros [?|Hin]; [done|].
    apply Hxy. apply (anti_symm R).
    + by apply Forall_cons in Hx' as [??].
    + inversion_clear Hs as [|?? _ Hy]. revert Hin. by apply list.Forall_forall.
Qed.

Lemma dedup_sorted {A} (R : relation A) `{EqDecision A, !AntiSymm (=) R} (l : list A) :
  StronglySorted R l → StronglySorted R (dedup l) ∧ NoDup (dedup l).
Proof.
  induction 1 as [|x l Hl IH Hx]; [split; constructor|].
  destruct IH. by apply dedup_cons_sorted.
Qed.

Lemma dedup_sort_ext (l1 l2 : list ObjectId) :
  dedup (merge_sort oid_le l1) = dedup (merge_sort oid_le l2) ↔ (∀ x, x ∈ l1 ↔ x ∈ l2).
Proof.
  assert (∀ l x, x ∈ dedup (merge_sort oid_le l) ↔ x ∈ l) as Hin.
  { intros l x. by rw elem_of_dedup merge_sort_Permutation. }
  split.
  - intros H x. by rw -(Hin l1) -(Hin l2) H.
  - intros H.
    destruct (dedup_sorted oid_le (merge_sort oid_le l1)) as [S1 N1];
      [apply StronglySorted_merge_sort; apply _|].
    destruct (dedup_sorted oid_le (merge_sort oid_le l2)) as [S2 N2];
      [apply StronglySorted_merge_sort; apply _|].
    apply (StronglySorted_unique oid_le); [done|done|].
    apply NoDup_Permutation; [done|done|]. intros x. by rw !Hin.
Qed.

(** ** A concrete content address

    The laws of [ContentHash] can hold: netstring framing is an injective
    serialisation, and the address may be the serialisation itself. The
    witnesses of the development compute with it. *)
Module Plain.

Definition frame (s : string) : string := pretty (slen s) +:+ String ":" s.

Definition frames (l : list string) : string := foldr (λ s r, frame s +:+ r) EmptyString l.

Definition signed (z : Z) : string :=
  if (z <? 0)%Z then String "-" (pretty (Z.abs_N z)) else String "+" (pretty (Z.abs_N z)).

Definition bytes_of_atom (a : Atom) : string :=
  match a with
  | ANull => "n"
  | ABool b => if b then "t" else "f"
  | AInt i => String "i" (signed i)
  | AFloat f => String "d" (signed f)
  | AString s => String "s" s
  | ABytes b => String "b" b
  | AUInt u => String "u" (pretty u)
  end.

Definition bytes_of_node (n : Node) : string :=
  match n with
  | NMap m => String "M" (frames (entries m ≫= λ kv, [kv.1; oid_bytes kv.2]))
  | NList l => String "L" (frames (oid_bytes <$> l))
  | NSet l => String "S" (frames (oid_bytes <$> l))
  end.

Definition bytes_of (o : Object) : string :=
  match o with
  | OAtom a => bytes_of_atom a
  | ONode n => bytes_of_node n
  end.

#[export] Instance plain_hash : ContentHash :=
  {| canonical_bytes := bytes_of; blake3 := λ s, s |}.

Lemma app_length_inj s t u v :
  String.length s = String.length t → s +:+ u = t +:+ v → s = t ∧ u = v.
Proof.
  revert t. induction s as [|c s IH]; intros [|d t] Hl H; try done.
  rewrite !string_app_cons in H. injection H as -> H. simpl in Hl.
  destruct (IH t) as [-> ->]; [lia|done|done].
Qed.

Lemma frame_inj s t u v : frame s +:+ u = frame t +:+ v → s = t ∧ u = v.
Proof.
  unfold frame. rewrite !string_app_assoc !string_app_cons. intros H.
  assert (∀ s, no_char ":" (pretty (slen s))) as Hn.
  { intros. apply digits_no_char; [by vm_compute|apply pretty_N_digits]. }
  apply (f_equal (split_once ":")) in H. rewrite !split_once_app // in H.
  injection H as Hp H. apply (inj pretty) in Hp. unfold slen in Hp.
  apply app_length_inj; [lia|done].
Qed.

Lemma frames_inj l1 l2 : frames l1 = frames l2 → l1 = l2.
Proof.
  assert (∀ s r, frame s +:+ r ≠ EmptyString) as Hne.
  { intros s r. unfold frame. rw string_app_assoc.
    pose proof (pretty_N_nonempty (slen s)). by destruct (pretty (slen s)). }
  revert l2. induction l1 as [|s l1 IH]; intros [|t l2] H; simpl in H.
  - done.
  - by destruct (Hne t (frames l2)).
  - by destruct (Hne s (frames l1)).
  - apply frame_inj in H as [-> H]. f_equal. by apply IH.
Qed.

Lemma signed_inj z1 z2 : signed z1 = signed z2 → z1 = z2.
Proof.
  unfold signed. destruct (Z.ltb_spec z1 0), (Z.ltb_spec z2 0); intros [= E];
    apply (inj pretty) in E; lia.
Qed.

Lemma pairs_inj (l1 l2 : list (string * ObjectId)) :
  (l1 ≫= λ kv, [kv.1; oid_bytes kv.2]) = (l2 ≫= λ kv, [kv.1; oid_bytes kv.2]) → l1 = l2.
Proof.
  revert l2. induction l1 as [|[k [i]] l1 IH]; intros [|[k' [i']] l2] H; csimpl in *; [done..|].
  injection H as -> -> H. f_equal. by apply IH.
Qed.

Lemma ids_inj (l1 l2 : list ObjectId) : oid_bytes <$> l1 = oid_bytes <$> l2 → l1 = l2.
Proof. apply (inj (fmap oid_bytes)). Qed.

#[export] Instance plain_collision_free : CollisionFree.
Proof.
  intros o1 o2 _ _ H. apply (f_equal oid_bytes) in H. simpl in H.
  destruct o1 as [[| [] | | | | |]|[]], o2 as [[| [] | | | | |]|[]];
    simpl in H; try discriminate H; repeat f_equal; try (injection H as H; done);
    injection H as H; auto using signed_inj, frames_inj, ids_inj.
  - by apply (inj pretty).
  - rewrite -(list_to_map_entries entries) -(list_to_map_entries entries0).
    f_equal. by apply pairs_inj, frames_inj.
Qed.

(** A store of the given objects, for the witnesses. *)
Definition sample (l : list Object) : gmap ObjectId Object :=
  list_to_map ((λ o, (oid_of o, o)) <$> l).

Lemma sample_lookup l i o : sample l !! i = Some o → oid_of o = i ∧ o ∈ l.
Proof.
  intros (o' & [= -> ->] & Hin)%elem_of_list_to_map_2%list_elem_of_fmap. done.
Qed.
End Plain.

(** ** Properties *)

(** Parsing a commit id accepts exactly the spellings whose normalised
    prefix is the full lowercase hexadecimal form of a 32-byte id, so the two
    ways the repository reads a user-supplied id never disagree. *)
Theorem from_hex_normalize s id :
  from_hex s = Some id ↔
  normalize_hex_prefix s = Some (oid_to_hex id) ∧ valid_oid id.
Proof.
  unfold from_hex, normalize_hex_prefix, oid_to_hex, valid_oid.
  destruct id as [b]; simpl. set (hex := hex_fragment s).
  destruct (str_forall is_ascii_hexdigit hex) eqn:Hh; [|rw !orb_true_r /=; naive_solver].
  rw /= !orb_false_r. pose proof (hex_chunks_to_hex hex b) as Hc. rewrite Hh in Hc.
  destruct (N.eqb_spec (slen hex) 64) as [Hl|Hl]; simpl.
  - rw bool_decide_eq_false_2; [|by intros E; rewrite E in Hl]. split.
    + intros (b' & Hb & [= <-])%fmap_Some. pose proof (hex_chunks_length _ _ Hb).
      apply Hc in Hb as [_ ->]. split; [done|lia].
    + intros [[= Hb] _]. assert (hex_chunks hex = Some b) as -> by by apply Hc. done.
  - split; [done|]. case_bool_decide; [naive_solver|]. intros [[= Hb] Hb'].
    assert (hex_chunks hex = Some b) as E%hex_chunks_length by by apply Hc. lia.
Qed.

(** The printed form of an id parses back to it, with surrounding white
    space and any case of the digits tolerated by the normalisation. *)
Theorem from_hex_display id :
  valid_oid id → from_hex (oid_display id) = Some id ∧ from_hex (oid_to_hex id) = Some id.
Proof.
  intros Hv. destruct (to_hex_lowercase (oid_bytes id)) as [Hh Hl].
  assert (∀ s, hex_fragment s = to_hex (oid_bytes id) → from_hex s = Some id) as Hs.
  { intros s E. unfold from_hex. rw E (Is_true_true_1 _ Hh) /= orb_false_r.
    rw (proj2 (N.eqb_eq _ _)); [|unfold valid_oid, slen in *; rw to_hex_length; lia].
    rw /= (proj2 (hex_chunks_to_hex _ (oid_bytes id))) //. by destruct id. }
  assert (str_forall not_ws_byte (to_hex (oid_bytes id))) as Hw.
  { revert Hh. clear. induction (to_hex (oid_bytes id)) as [|c s IH]; [done|].
    cbn [str_forall]. intros [Hc Hs]%andb_True. apply andb_True; split; [|by apply IH].
    by apply hexdigit_not_ws. }
  split; apply Hs; unfold hex_fragment.
  - unfold oid_display. rw trim_not_ws; [|by rw str_forall_app; apply andb_True].
    by rw strip_prefix_app.
  - unfold oid_to_hex. rw trim_not_ws //. destruct (strip_prefix "sg_" _) eqn:E; [|done].
    apply strip_prefix_Some in E. by rewrite E string_app_cons /= in Hh.
Qed.

Lemma from_hex_display_witness :
  valid_oid (Oid "0123456789abcdef0123456789abcdef") ∧
  from_hex (oid_display (Oid "0123456789abcdef0123456789abcdef")) =
    Some (Oid "0123456789abcdef0123456789abcdef").
Proof.
  split; [by vm_compute|].
  apply (from_hex_display (Oid "0123456789abcdef0123456789abcdef")); by vm_compute.
Defined.

(** A set's address depends only on its elements: whatever the order and
    the repetitions the caller lists them with, the sets built are one object,
    and different element sets have different addresses. *)
Theorem set_address `{CH : ContentHash, CF : !CollisionFree} l1 l2 :
  oid_of (mk_set l1) = oid_of (mk_set l2) ↔ ∀ x, x ∈ l1 ↔ x ∈ l2.
Proof.
  rw -dedup_sort_ext. split; [|unfold mk_set; by intros ->].
  intros E. apply collision_free in E; [|done|done]. by injection E.
Qed.

(** [PartialEq] on objects is equality of content, except on floats. *)
Theorem object_eqb_address `{CH : ContentHash, CF : !CollisionFree} o1 o2 :
  finite o1 → finite o2 → ¬ is_float o1 →
  object_eqb o1 o2 ↔ oid_of o1 = oid_of o2.
Proof.
  intros H1 H2 Hf. rw object_eqb_exact //. split; [by intros ->|by apply collision_free].
Qed.

Section witnesses.
  Import Plain.

Lemma object_eqb_address_witness :
  object_eqb (mk_string "a") (mk_int 1) = false ∧ oid_of (mk_string "a") ≠ oid_of (mk_int 1).
Proof. split; [done|]. rewrite -object_eqb_address; by vm_compute. Defined.

Lemma set_address_witness :
  oid_of (mk_set [Oid "b"; Oid "a"; Oid "b"]) = oid_of (mk_set [Oid "a"; Oid "b"]).
Proof. apply set_address. intros x. rw !elem_of_cons. tauto. Defined.
End witnesses.
