(* ===== verification/Paths.v ===== *)
(** * Paths: addressing into a state tree

    Models [agentstategraph-core/src/path.rs]: path components, the bounds a
    user-supplied path is held to, parsing, printing and the path operations. *)
From S2P Require Import Prelude.

Definition MAX_PATH_DEPTH : N := 64.
Definition MAX_SEGMENT_LEN : N := 4096.

Inductive PathComponent : Type :=
  | Key (k : string)
  | Index (i : N).

(** [StatePath { components }]. *)
Definition StatePath : Type := list PathComponent.

#[export] Instance PathComponent_eq_dec : EqDecision PathComponent.
Proof. solve_decision. Defined.
#[export] Instance PathComponent_countable : Countable PathComponent.
Proof.
  apply (inj_countable'
    (λ c, match c with Key k => inl k | Index i => inr i end)
    (λ c, match c with inl k => Key k | inr i => Index i end)).
  by intros [].
Defined.

Inductive PathError : Type :=
  | MustStartWithSlash
  | EmptySegment
  | TooDeep (depth : N)
  | SegmentTooLong (index : N) (len : N).

#[export] Instance PathError_eq_dec : EqDecision PathError.
Proof. solve_decision. Defined.

(** [Display], the error's message. *)
Definition path_error_to_string (e : PathError) : string :=
  match e with
  | MustStartWithSlash => "path must start with '/'"
  | EmptySegment => "path contains an empty segment"
  | TooDeep depth =>
      "path is too deep: " +:+ pretty depth +:+ " components (max " +:+ pretty MAX_PATH_DEPTH +:+ ")"
  | SegmentTooLong index len =>
      "path segment at index " +:+ pretty index +:+ " is too long: " +:+ pretty len +:+
      " bytes (max " +:+ pretty MAX_SEGMENT_LEN +:+ ")"
  end.

Definition path_root : StatePath := [].

(** The closure over one enumerated segment. *)
Definition parse_segment (i : N) (segment : string) : result PathError PathComponent :=
  if decide (segment = EmptyString) then Err EmptySegment
  else if (MAX_SEGMENT_LEN <? slen segment)%N then Err (SegmentTooLong i (slen segment))
  else match parse_uint u64_max segment with
       | Some index => Ok (Index index)
       | None => Ok (Key segment)
       end.

Fixpoint parse_segments (i : N) (segments : list string) : result PathError (list PathComponent) :=
  match segments with
  | [] => Ok []
  | s :: rest => c ← parse_segment i s; cs ← parse_segments (i + 1)%N rest; Ok (c :: cs)
  end.

Definition parse (s : string) : result PathError StatePath :=
  if bool_decide (s = EmptyString) || bool_decide (s = "/") then Ok path_root else
  s' ← ok_or MustStartWithSlash (strip_prefix "/" s);
  components ← parse_segments 0 (split "/" s');
  if (MAX_PATH_DEPTH <? N.of_nat (length components))%N
  then Err (TooDeep (N.of_nat (length components)))
  else Ok components.

Definition is_root (p : StatePath) : bool := match p with [] => true | _ => false end.

Definition parent (p : StatePath) : option StatePath :=
  if is_root p then None else Some (take (length p - 1) p).

Definition path_last (p : StatePath) : option PathComponent := list.last p.

Definition push_key (p : StatePath) (key : string) : StatePath := p ++ [Key key].
Definition push_index (p : StatePath) (index : N) : StatePath := p ++ [Index index].
Definition depth (p : StatePath) : N := N.of_nat (length p).

Definition display_component (c : PathComponent) : string :=
  match c with Key k => k | Index i => pretty i end.

Fixpoint display_components (p : StatePath) : string :=
  match p with
  | [] => EmptyString
  | c :: p' => String "/" (display_component c +:+ display_components p')
  end.

(** [impl Display for StatePath]. *)
Definition display (p : StatePath) : string :=
  match p with [] => "/" | _ => display_components p end.

(** ** Well-formed paths

    What [parse] guarantees of the path it returns. *)
Definition wf_component (c : PathComponent) : Prop :=
  match c with
  | Key k => k ≠ EmptyString ∧ no_char "/" k ∧ (slen k ≤ MAX_SEGMENT_LEN)%N ∧
             parse_uint u64_max k = None
  | Index i => (i ≤ u64_max)%N
  end.

Definition wf_path (p : StatePath) : Prop :=
  Forall wf_component p ∧ (depth p ≤ MAX_PATH_DEPTH)%N.

Lemma pretty_N_go_length x s k :
  (x < 10 ^ N.of_nat k)%N → String.length (pretty_N_go x s) ≤ k + String.length s.
Proof.
  revert x s. induction k as [|k IH]; intros x s Hx.
  - assert (x = 0)%N as -> by (simpl in Hx; lia). by rw pretty_N_go_0.
  - destruct (decide (x = 0)%N) as [->|Hx0]; [rw pretty_N_go_0; lia|].
    rw pretty_N_go_step; [|lia]. etrans; [apply IH|simpl; lia].
    apply N.Div0.div_lt_upper_bound.
    by rewrite Nat2N.inj_succ N.pow_succ_r' in Hx.
Qed.

Lemma pretty_u64_length i : (i ≤ u64_max)%N → (slen (pretty i) ≤ 20)%N.
Proof.
  intros Hi. unfold slen, pretty, pretty_N. case_decide; [done|].
  pose proof (pretty_N_go_length i EmptyString 20) as Hg.
  assert (i < 10 ^ N.of_nat 20)%N as Hb; [|specialize (Hg Hb); simpl in Hg; lia].
  apply (N.le_lt_trans _ _ _ Hi). by vm_compute.
Qed.

Lemma display_component_parses i c :
  wf_component c → parse_segment i (display_component c) = Ok c ∧
    no_char "/" (display_component c).
Proof.
  unfold parse_segment. destruct c as [k|n]; simpl.
  - intros (Hk & Hc & Hl & Hp). rw decide_False // Hp.
    by rw (proj2 (N.ltb_ge _ _)).
  - intros Hn. pose proof (pretty_u64_length n Hn) as Hl.
    rw decide_False; [|apply pretty_N_nonempty].
    rw (proj2 (N.ltb_ge _ _)); [|unfold MAX_SEGMENT_LEN; lia].
    rw parse_uint_pretty //. split; [done|].
    apply digits_no_char; [by vm_compute|apply pretty_N_digits].
Qed.

Lemma display_components_split c p i :
  Forall wf_component (c :: p) →
  parse_segments i (split "/" (display_component c +:+ display_components p)) = Ok (c :: p).
Proof.
  revert c i. induction p as [|d p IH]; intros c i [Hc Hp]%Forall_cons;
    destruct (display_component_parses i c Hc) as [Hs Hn].
  - simpl. rw string_app_nil_r split_no_char //= Hs. done.
  - cbn [display_components]. rw split_app //= Hs /= IH //.
Qed.

Lemma parse_segment_wf i s c :
  no_char "/" s → parse_segment i s = Ok c → wf_component c.
Proof.
  unfold parse_segment. intros Hs. case_decide; [done|].
  destruct (N.ltb_spec MAX_SEGMENT_LEN (slen s)); [done|].
  destruct (parse_uint u64_max s) eqn:Hp; intros [= <-]; [|done].
  simpl. by eapply parse_uint_bound.
Qed.

Lemma parse_segments_wf i l p :
  Forall (no_char "/") l → parse_segments i l = Ok p → Forall wf_component p.
Proof.
  intros Hl. revert i p. induction Hl as [|s l Hs Hl IH]; intros i p H; simpl in H.
  - by injection H as <-.
  - inv_ok. subst. constructor; [by eapply parse_segment_wf|by eapply IH].
Qed.

(** A segment [parse_segment] accepts. *)
Definition good_segment (s : string) : Prop :=
  s ≠ EmptyString ∧ (slen s ≤ MAX_SEGMENT_LEN)%N.

Lemma parse_segment_good i s : good_segment s ↔ ∃ c, parse_segment i s = Ok c.
Proof.
  unfold good_segment, parse_segment. case_decide; [naive_solver|].
  destruct (N.ltb_spec MAX_SEGMENT_LEN (slen s)).
  - split; [lia|naive_solver].
  - destruct (parse_uint u64_max s); naive_solver.
Qed.

Lemma parse_segment_err i s e :
  parse_segment i s = Err e ↔
  e = EmptySegment ∧ s = EmptyString ∨
  e = SegmentTooLong i (slen s) ∧ (MAX_SEGMENT_LEN < slen s)%N.
Proof.
  unfold parse_segment. case_decide as Hs.
  - subst. split; [intros [= <-]; auto|]. intros [[-> _]|[_ H]]; [done|]. by vm_compute in H.
  - destruct (N.ltb_spec MAX_SEGMENT_LEN (slen s)) as [Hl|Hl].
    + split; [intros [= <-]; auto|]. intros [[_ ?]|[-> _]]; done.
    + destruct (parse_uint u64_max s); (split; [done|]); intros [[_ ?]|[_ ?]]; (done || lia).
Qed.

(** The first offending segment is the one reported. *)
Lemma parse_segments_err i l e :
  parse_segments i l = Err e ↔
  ∃ pre s post, l = pre ++ s :: post ∧ Forall good_segment pre ∧
    parse_segment (i + N.of_nat (length pre)) s = Err e.
Proof.
  revert i. induction l as [|s l IH]; intros i; simpl.
  - split; [done|]. by intros ([|??] & ? & ? & ? & _).
  - rw result_bind_err. split.
    + intros [H|(c & Hc & H)].
      * exists [], s, l. simpl. by rw N.add_0_r.
      * assert (parse_segments (i + 1) l = Err e) as (pre & s' & post & -> & Hpre & He)%IH
          by by destruct (parse_segments (i + 1) l).
        exists (s :: pre), s', post. split_and!; [done| |].
        -- constructor; [|done]. apply (parse_segment_good i). eauto.
        -- rewrite <-He. f_equal. simpl. lia.
    + intros ([|s' pre] & s'' & post & [= <- ->] & Hpre & He); simpl in *.
      * left. by rewrite N.add_0_r in He.
      * right. apply Forall_cons in Hpre as [[c Hc]%(parse_segment_good i) Hpre].
        exists c. split; [done|].
        assert (parse_segments (i + 1) (pre ++ s'' :: post) = Err e) as ->; [|done].
        apply IH. exists pre, s'', post. split_and!; [done..|]. rewrite <-He. f_equal. lia.
Qed.

Lemma parse_segments_length i l p : parse_segments i l = Ok p → length p = length l.
Proof.
  revert i p. induction l as [|s l IH]; intros i p H; simpl in H; inv_ok; subst; [done|].
  simpl. f_equal. by eapply IH.
Qed.

Lemma parse_segments_good i l : Forall good_segment l ↔ ∃ p, parse_segments i l = Ok p.
Proof.
  revert i. induction l as [|s l IH]; intros i; simpl; [naive_solver|].
  rw Forall_cons (parse_segment_good i) (IH (i + 1)%N). split.
  - intros [[c Hc] [p Hp]]. rw Hc /= Hp /=. eauto.
  - intros [p H]. inv_ok. eauto.
Qed.

Lemma parse_segments_first_error l e :
  parse_segments 0 l = Err e ↔
  ∃ pre seg post, l = pre ++ seg :: post ∧ Forall good_segment pre ∧
    (seg = EmptyString ∧ e = EmptySegment ∨
     (MAX_SEGMENT_LEN < slen seg)%N ∧ e = SegmentTooLong (N.of_nat (length pre)) (slen seg)).
Proof.
  rw parse_segments_err. split.
  - intros (pre & s & post & -> & Hp & He). rewrite parse_segment_err N.add_0_l in He.
    exists pre, s, post. naive_solver.
  - intros (pre & s & post & -> & Hp & He). exists pre, s, post.
    rw parse_segment_err N.add_0_l. naive_solver.
Qed.

(** ** Properties *)

(** A path that parses is within the bounds of the parser (at most 64
    components, segments of at most 4096 bytes, indices that fit the machine
    word), and its printed form parses to the same path. *)
Theorem parse_sound s p :
  parse s = Ok p → wf_path p ∧ parse (display p) = Ok p.
Proof.
  assert (∀ p, wf_path p → parse (display p) = Ok p) as Hr.
  { intros [|c q] [Hw Hd]; [done|]. unfold parse, display. cbn [display_components].
    rewrite bool_decide_eq_false_2 // bool_decide_eq_false_2; [|intros [= E]].
    - simpl. rw display_components_split //=. by rw (proj2 (N.ltb_ge _ _)).
    - apply Forall_cons in Hw as [Hc _]. destruct c as [k|n]; simpl in *.
      + destruct Hc as [Hk _]. by destruct k.
      + pose proof (pretty_N_nonempty n). by destruct (pretty n). }
  intros H. assert (wf_path p) as Hw; [|auto].
  unfold parse in H. destruct (_ || _); [injection H as <-; by split; [|vm_compute]|].
  inv_ok. destruct (N.ltb_spec MAX_PATH_DEPTH (N.of_nat (length x0))); inv_ok; subst.
  split; [|done]. eapply parse_segments_wf; [apply split_pieces_no_char|done].
Qed.

Lemma parse_sound_witness : parse "/nodes/+07/host" = Ok [Key "nodes"; Index 7; Key "host"] ∧
  parse (display [Key "nodes"; Index 7; Key "host"]) = Ok [Key "nodes"; Index 7; Key "host"].
Proof. split; [by vm_compute|]. by apply (parse_sound "/nodes/+07/host"). Defined.

(** Exactly which inputs [parse] refuses, and with which error: the first
    segment that is empty or too long is the one reported, by its index, and
    the depth is only checked once every segment is accepted. *)
Theorem parse_errors s e :
  parse s = Err e ↔
  s ≠ EmptyString ∧ s ≠ "/" ∧
  match strip_prefix "/" s with
  | None => e = MustStartWithSlash
  | Some t =>
      (∃ pre seg post, split "/" t = pre ++ seg :: post ∧ Forall good_segment pre ∧
        (seg = EmptyString ∧ e = EmptySegment ∨
         (MAX_SEGMENT_LEN < slen seg)%N ∧
         e = SegmentTooLong (N.of_nat (length pre)) (slen seg))) ∨
      (Forall good_segment (split "/" t) ∧
       (MAX_PATH_DEPTH < N.of_nat (length (split "/" t)))%N ∧
       e = TooDeep (N.of_nat (length (split "/" t))))
  end.
Proof.
  unfold parse. case_bool_decide; [split; [discriminate|intros (? & _); done]|].
  case_bool_decide; [split; [discriminate|intros (_ & ? & _); done]|]. cbn [orb].
  destruct (strip_prefix "/" s) as [t|]; simpl.
  2: { split; [intros Ht; injection Ht as <-; done|]. by intros (_ & _ & ->). }
  rw -parse_segments_first_error (parse_segments_good 0).
  destruct (parse_segments 0 (split "/" t)) as [p|e'] eqn:E; simpl.
  2: { split; [intros Ht; auto|]. intros (_ & _ & [Ht|([? ?] & _)]); [done|discriminate]. }
  rw (parse_segments_length _ _ _ E).
  destruct (N.ltb_spec MAX_PATH_DEPTH (N.of_nat (length (split "/" t)))) as [Hl|Hl].
  - split; [intros Ht; injection Ht as <-; split_and!; [done..|right; eauto]|].
    intros (_ & _ & [Ht|(_ & _ & ->)]); [discriminate|done].
  - split; [discriminate|]. intros (_ & _ & [Ht|(_ & ? & _)]); [discriminate|lia].
Qed.
