(* ===== verification/Json.v ===== *)
(** * JSON values

    The data type the code exchanges with [serde_json]. A [serde_json::Map] is
    a [BTreeMap] here (the workspace does not enable [preserve_order]): its
    entries are a list of pairs, [json_wf] says they are in strict key order. *)
From S2P Require Import Prelude Objects.

Inductive Json : Type :=
  | JNull
  | JBool (b : bool)
  | JNumber (n : JsonNumber)
  | JString (s : string)
  | JArray (l : list Json)
  | JObject (m : list (string * Json)).

(** Induction with a hypothesis for every element of a container. *)
Definition Json_rect_nested (P : Json → Type)
  (P1 : list Json → Type) (P2 : list (string * Json) → Type)
  (Hnull : P JNull) (Hbool : ∀ b, P (JBool b)) (Hnum : ∀ n, P (JNumber n))
  (Hstr : ∀ s, P (JString s))
  (Harr : ∀ l, P1 l → P (JArray l)) (Hobj : ∀ m, P2 m → P (JObject m))
  (Hn1 : P1 []) (Hc1 : ∀ j l, P j → P1 l → P1 (j :: l))
  (Hn2 : P2 []) (Hc2 : ∀ k j m, P j → P2 m → P2 ((k, j) :: m)) : ∀ j, P j :=
  fix go j : P j :=
    match j with
    | JNull => Hnull
    | JBool b => Hbool b
    | JNumber n => Hnum n
    | JString s => Hstr s
    | JArray l => Harr l
        ((fix go1 l : P1 l := match l with [] => Hn1 | j :: l' => Hc1 j l' (go j) (go1 l') end) l)
    | JObject m => Hobj m
        ((fix go2 m : P2 m :=
            match m with [] => Hn2 | (k, j) :: m' => Hc2 k j m' (go j) (go2 m') end) m)
    end.

Lemma Json_nested_ind (P : Json → Prop) :
  P JNull → (∀ b, P (JBool b)) → (∀ n, P (JNumber n)) → (∀ s, P (JString s)) →
  (∀ l, Forall P l → P (JArray l)) →
  (∀ m, Forall (λ kv, P kv.2) m → P (JObject m)) → ∀ j, P j.
Proof.
  intros. apply (Json_rect_nested P (Forall P) (Forall (λ kv, P kv.2))); auto.
Qed.

#[export] Instance JsonNumber_eq_dec : EqDecision JsonNumber.
Proof. solve_decision. Defined.

#[export] Instance Json_eq_dec : EqDecision Json.
Proof.
  refine (Json_rect_nested (λ j, ∀ k, Decision (j = k)) (λ l, ∀ l', Decision (l = l'))
    (λ m, ∀ m', Decision (m = m')) _ _ _ _ _ _ _ _ _ _).
  - intros []; (by left) || (by right).
  - intros b []; try (by right). destruct (decide (b = b0)); [left|right]; congruence.
  - intros n []; try (by right). destruct (decide (n = n0)); [left|right]; congruence.
  - intros s []; try (by right). destruct (decide (s = s0)); [left|right]; congruence.
  - intros l IH []; try (by right). destruct (IH l0); [left|right]; congruence.
  - intros m IH []; try (by right). destruct (IH m0); [left|right]; congruence.
  - intros []; (by left) || (by right).
  - intros j l IHj IHl [|j' l']; [by right|].
    destruct (IHj j'), (IHl l'); (by left; congruence) || (by right; congruence).
  - intros []; (by left) || (by right).
  - intros k j m IHj IHm [|[k' j'] m']; [by right|].
    destruct (decide (k = k')), (IHj j'), (IHm m');
      (by left; congruence) || (by right; congruence).
Defined.

(** Values [serde_json] can hold: keys in strict order, numbers in range. *)
Definition json_number_wf (n : JsonNumber) : bool :=
  match n with
  | PosInt n => (n <=? u64_max)%N
  | NegInt i => (i64_min <=? i)%Z && (i <? 0)%Z
  | FloatNum f => f64_finite f && (0 <=? f)%Z && (f <? 2 ^ 64)%Z
  end.

Fixpoint json_wf (j : Json) : Prop :=
  match j with
  | JNull | JBool _ | JString _ => True
  | JNumber n => json_number_wf n
  | JArray l => foldr (λ j P, json_wf j ∧ P) True l
  | JObject m =>
      NoDup m.*1 ∧ StronglySorted String.le m.*1 ∧ foldr (λ kv P, json_wf kv.2 ∧ P) True m
  end.

Lemma foldr_and_Forall {A} (P : A → Prop) l : foldr (λ x Q, P x ∧ Q) True l ↔ Forall P l.
Proof. induction l; simpl; [by split|]. rw Forall_cons. naive_solver. Qed.

(** A [serde_json::Map] as a map, and back. *)
Definition json_map (m : list (string * Json)) : gmap string Json := list_to_map m.
