(* ===== verification/Intents.v ===== *)
(** * Intents: provenance metadata and the intent lifecycle

    Models [agentstategraph-core/src/intent.rs] (the types and the
    convenience constructors) and [agentstategraph-core/src/lifecycle.rs] (the
    lifecycle state machine). Times are instants in [Z]; fresh identifiers
    and the clock are arguments. *)
From S2P Require Import Prelude Objects Json.

Definition IntentId : Type := string.
Definition AgentId : Type := string.
Definition SessionId : Type := string.
Definition Principal : Type := string.
Definition Time : Type := Z.

Definition TAG_PIN_STATE : string := "asg:pin-state".
Definition TAG_GIT_REVISION : string := "git:".

(** ** Types of [intent.rs] *)

Inductive IntentCategory : Type :=
  | Explore | Refine | Fix | Rollback | Checkpoint | MergeCategory | Migrate | Plan
  | Taint | Untaint | Quarantine | Unquarantine | Watch | Unwatch
  | PolicyPropose | PolicyRatify | PolicySupersede | PolicySign
  | CustomCategory (s : string).

Inductive IntentStatus : Type :=
  | Proposed | Authorized | InProgress | Completed | Failed | Blocked.

Inductive DeviationImpact : Type := Low | Medium | High.

Inductive Outcome : Type := Fulfilled | PartiallyFulfilled | OutcomeFailed | Deferred.

Record Deviation := {
  dev_description : string;
  dev_reason : string;
  dev_impact : DeviationImpact;
  dev_follow_up : option IntentId;
}.

Record Resolution := {
  res_summary : string;
  res_deviations : list Deviation;
  res_commits : list string;
  res_branches_explored : list string;
  res_outcome : Outcome;
  res_confidence : Z;
}.

Inductive Urgency : Type := Routine | Priority | Critical.
Inductive FormatHint : Type := Summary | Detailed | DiffOnly.

Record NotificationPolicy := {
  np_urgency : Urgency;
  np_audience : list Principal;
  np_format_hint : FormatHint;
}.

Record IntentLifecycle := {
  status : IntentStatus;
  assigned_to : list AgentId;
  resolution : option Resolution;
  notification : option NotificationPolicy;
}.

Record Intent := {
  intent_id : IntentId;
  category : IntentCategory;
  description : string;
  tags : list string;
  parent_intent : option IntentId;
  lifecycle : IntentLifecycle;
}.

Inductive AuthScope : Type :=
  | ScopeIntent (i : IntentId)
  | ScopeBranch (b : string)
  | ScopePath (p : string)
  | ScopeWildcard
  | ScopeCustom (s : string).

Record DelegationLink := {
  link_from : Principal;
  link_to : Principal;
  link_scope : AuthScope;
  link_granted_at : Time;
  link_expires : option Time;
}.

Record Authority := {
  principal : Principal;
  scope : AuthScope;
  granted_at : Time;
  expires : option Time;
  delegation_chain : list DelegationLink;
}.

Record ToolCall := {
  tool_name : string;
  arguments : Json;
  tool_result : option string;
  tool_timestamp : Time;
}.

#[export] Instance IntentCategory_eq_dec : EqDecision IntentCategory.
Proof. solve_decision. Defined.
#[export] Instance IntentStatus_eq_dec : EqDecision IntentStatus.
Proof. solve_decision. Defined.
#[export] Instance DeviationImpact_eq_dec : EqDecision DeviationImpact.
Proof. solve_decision. Defined.
#[export] Instance Outcome_eq_dec : EqDecision Outcome.
Proof. solve_decision. Defined.
#[export] Instance Deviation_eq_dec : EqDecision Deviation.
Proof. solve_decision. Defined.
#[export] Instance Resolution_eq_dec : EqDecision Resolution.
Proof. solve_decision. Defined.
#[export] Instance Urgency_eq_dec : EqDecision Urgency.
Proof. solve_decision. Defined.
#[export] Instance FormatHint_eq_dec : EqDecision FormatHint.
Proof. solve_decision. Defined.
#[export] Instance NotificationPolicy_eq_dec : EqDecision NotificationPolicy.
Proof. solve_decision. Defined.
#[export] Instance IntentLifecycle_eq_dec : EqDecision IntentLifecycle.
Proof. solve_decision. Defined.
#[export] Instance Intent_eq_dec : EqDecision Intent.
Proof. solve_decision. Defined.
#[export] Instance AuthScope_eq_dec : EqDecision AuthScope.
Proof. solve_decision. Defined.
#[export] Instance DelegationLink_eq_dec : EqDecision DelegationLink.
Proof. solve_decision. Defined.
#[export] Instance Authority_eq_dec : EqDecision Authority.
Proof. solve_decision. Defined.
#[export] Instance ToolCall_eq_dec : EqDecision ToolCall.
Proof. solve_decision. Defined.

(** ** Constructors *)

(** [Intent::new]; [id] is the fresh UUID. *)
Definition new_intent (id : IntentId) (cat : IntentCategory) (descr : string) : Intent := {|
  intent_id := id;
  category := cat;
  description := descr;
  tags := [];
  parent_intent := None;
  lifecycle := {| status := Proposed; assigned_to := []; resolution := None;
                  notification := None |};
|}.

Definition with_tags (i : Intent) (t : list string) : Intent := {|
  intent_id := intent_id i; category := category i; description := description i;
  tags := t; parent_intent := parent_intent i; lifecycle := lifecycle i |}.

Definition with_parent (i : Intent) (parent_id : IntentId) : Intent := {|
  intent_id := intent_id i; category := category i; description := description i;
  tags := tags i; parent_intent := Some parent_id; lifecycle := lifecycle i |}.

Definition with_description (i : Intent) (d : string) : Intent := {|
  intent_id := intent_id i; category := category i; description := d;
  tags := tags i; parent_intent := parent_intent i; lifecycle := lifecycle i |}.

Definition simple_authority (p : Principal) (now : Time) : Authority := {|
  principal := p; scope := ScopeWildcard; granted_at := now; expires := None;
  delegation_chain := [] |}.

Definition authority_for_intent (p : Principal) (i : IntentId) (now : Time) : Authority := {|
  principal := p; scope := ScopeIntent i; granted_at := now; expires := None;
  delegation_chain := [] |}.

(** ** The lifecycle state machine *)

Inductive LifecycleError : Type :=
  | InvalidTransition (from to : IntentStatus)
  | ResolutionRequired (s : IntentStatus).

Definition is_valid_transition (from to : IntentStatus) : bool :=
  match from, to with
  | Proposed, Authorized
  | Proposed, InProgress
  | Authorized, InProgress
  | InProgress, Completed
  | InProgress, Failed
  | InProgress, Blocked
  | Blocked, InProgress
  | Blocked, Failed => true
  | _, _ => false
  end.

Definition is_terminal (s : IntentStatus) : bool :=
  match s with Completed | Failed => true | _ => false end.

(** [transition(&mut lifecycle, to, resolution)]: the mutated lifecycle, or
    the error, which leaves it as it was. *)
Definition transition (lc : IntentLifecycle) (to : IntentStatus) (res : option Resolution) :
    result LifecycleError IntentLifecycle :=
  if negb (is_valid_transition (status lc) to) then Err (InvalidTransition (status lc) to) else
  let set_status r := {| status := to; assigned_to := assigned_to lc; resolution := r;
                         notification := notification lc |} in
  match to with
  | Completed | Failed =>
      match res, resolution lc with
      | None, None => Err (ResolutionRequired to)
      | Some r, _ => Ok (set_status (Some r))
      | None, Some r => Ok (set_status (Some r))
      end
  | _ => Ok (set_status (resolution lc))
  end.

(** A run of transitions: refused ones leave the lifecycle unchanged, as
    [transition] does. *)
Definition apply_transition (lc : IntentLifecycle) (req : IntentStatus * option Resolution) :
    IntentLifecycle :=
  match transition lc req.1 req.2 with Ok lc' => lc' | Err _ => lc end.

Inductive reachable_lifecycle (cat : IntentCategory) (descr : string) : IntentLifecycle → Prop :=
  | reach_new id : reachable_lifecycle cat descr (lifecycle (new_intent id cat descr))
  | reach_step lc to res lc' :
      reachable_lifecycle cat descr lc → transition lc to res = Ok lc' →
      reachable_lifecycle cat descr lc'.

(** ** Properties *)

Lemma transition_ok lc to res lc' :
  transition lc to res = Ok lc' →
  is_valid_transition (status lc) to ∧ status lc' = to ∧
  assigned_to lc' = assigned_to lc ∧ notification lc' = notification lc ∧
  (is_terminal to → is_Some (resolution lc')) ∧
  (¬ is_terminal to → resolution lc' = resolution lc).
Proof.
  unfold transition. destruct (is_valid_transition (status lc) to); [|done]. simpl.
  destruct to; [|..]; try (intros [= <-]; simpl; naive_solver).
  all: destruct res, (resolution lc) eqn:E; intros [= <-]; simpl; naive_solver.
Qed.

(** Whatever transitions are requested, in whatever order, an intent in a
    terminal state always carries a resolution, its resolution never goes away
    and an intent that is not terminal has none: a resolution is only filed by
    reaching a terminal state. *)
Theorem lifecycle_terminal_iff_resolved cat descr lc :
  reachable_lifecycle cat descr lc → is_terminal (status lc) ↔ is_Some (resolution lc).
Proof.
  induction 1 as [id|lc to res lc' _ IH Ht]; [split; [done|by intros [??]]|].
  pose proof (transition_ok _ _ _ _ Ht) as (Hv & <- & _ & _ & Hterm & Hnot).
  destruct (is_terminal (status lc')) eqn:E; [naive_solver|].
  rw Hnot; [|by intros []]. rw -IH. destruct (status lc), (status lc'); done.
Qed.

Example lifecycle_terminal_iff_resolved_witness :
  let r := {| res_summary := "done"; res_deviations := []; res_commits := [];
              res_branches_explored := []; res_outcome := Fulfilled; res_confidence := f64_one |} in
  is_Some (resolution {| status := Completed; assigned_to := []; resolution := Some r;
                         notification := None |}).
Proof.
  intros r. apply (lifecycle_terminal_iff_resolved Fix "x"); [|done].
  apply (reach_step _ _ {| status := InProgress; assigned_to := []; resolution := None;
                           notification := None |} Completed (Some r)); [|done].
  apply (reach_step _ _ (lifecycle (new_intent "i" Fix "x")) InProgress None); [|done].
  apply reach_new.
Defined.

(** The outcome of a requested transition, on every branch: it is refused
    with [InvalidTransition] exactly when the pair is not an edge of the state
    machine, with [ResolutionRequired] exactly when the edge is terminal and
    neither the request nor the record has a resolution, and otherwise only
    the status and (with a new report) the resolution change. *)
Theorem transition_spec lc to res :
  match transition lc to res with
  | Err (InvalidTransition f t) =>
      f = status lc ∧ t = to ∧ is_valid_transition (status lc) to = false
  | Err (ResolutionRequired t) =>
      t = to ∧ is_valid_transition (status lc) to ∧ is_terminal to ∧ res = None ∧
      resolution lc = None
  | Ok lc' =>
      is_valid_transition (status lc) to ∧
      lc' = {| status := to; assigned_to := assigned_to lc;
               resolution := if is_terminal to then match res with Some r => Some r | None => resolution lc end
                             else resolution lc;
               notification := notification lc |}
  end.
Proof.
  unfold transition. destruct (is_valid_transition (status lc) to) eqn:Hv; [|done]. simpl.
  destruct to; [done|done|done| | |done];
    destruct res, (resolution lc) eqn:Hr; (by rw /= ?Hv) || by (split_and!; rewrite ?Hv).
Qed.

(** A terminal state is final. *)
Theorem terminal_is_final lc to res :
  is_terminal (status lc) → transition lc to res = Err (InvalidTransition (status lc) to).
Proof. unfold transition. by destruct (status lc), to. Qed.
