(* ===== verification/Sessions.v ===== *)
(** * Namespaces and sessions

    Models [agentstategraph-core/src/namespace.rs] (validated namespace names),
    [agentstategraph-core/src/session.rs] (session records and the wire form of
    their status) and [check_scope] of [agentstategraph/src/session.rs]. *)
From S2P Require Import Prelude Objects Json Intents.

(** ** Namespaces *)

Definition MAX_NAMESPACE_LEN : N := 64.
Definition DEFAULT_NAMESPACE : string := "default".

(** [Namespace(String)]; [Namespace::new] is the only way to make one from a
    name the program did not choose. *)
Record Namespace := Ns { ns_name : string }.

#[export] Instance Namespace_eq_dec : EqDecision Namespace.
Proof. solve_decision. Defined.

Inductive NamespaceError : Type :=
  | NsEmpty
  | NsTooLong (n : N)
  | NsInvalidChars (s : string).

Definition ns_char (c : ascii) : bool :=
  is_ascii_alphanumeric c || bool_decide (c = "-"%char) || bool_decide (c = "_"%char).

Definition namespace_new (name : string) : result NamespaceError Namespace :=
  if bool_decide (name = EmptyString) then Err NsEmpty
  else if (MAX_NAMESPACE_LEN <? slen name)%N then Err (NsTooLong (slen name))
  else if negb (str_forall ns_char name) then Err (NsInvalidChars name)
  else Ok (Ns name).

Definition default_ns : Namespace := Ns DEFAULT_NAMESPACE.

(** What a stored namespace name satisfies. *)
Definition valid_namespace (ns : Namespace) : Prop := namespace_new (ns_name ns) = Ok ns.

(** ** Sessions *)

Inductive SessionStatus : Type :=
  | SessionActive | SessionCompleted | SessionAbandoned.

#[export] Instance SessionStatus_eq_dec : EqDecision SessionStatus.
Proof. solve_decision. Defined.

Definition session_status_as_str (s : SessionStatus) : string :=
  match s with
  | SessionActive => "Active"
  | SessionCompleted => "Completed"
  | SessionAbandoned => "Abandoned"
  end.

Definition session_status_from_wire (s : string) : SessionStatus :=
  if decide (s = "Active") then SessionActive
  else if decide (s = "Completed") then SessionCompleted
  else SessionAbandoned.

Record Session := {
  session_id : SessionId;
  session_agent : AgentId;
  working_branch : string;
  session_head : ObjectId;
  parent_session : option SessionId;
  delegated_intent : option IntentId;
  report_to : option string;
  path_scope : option string;
  scope_tenant : option string;
  scope_namespace : option Namespace;
  session_status : SessionStatus;
  session_created_at : Time;
  session_ended_at : option Time;
}.

#[export] Instance Session_eq_dec : EqDecision Session.
Proof. solve_decision. Defined.

Definition session_with_head (s : Session) (h : ObjectId) : Session := {|
  session_id := session_id s; session_agent := session_agent s;
  working_branch := working_branch s; session_head := h;
  parent_session := parent_session s; delegated_intent := delegated_intent s;
  report_to := report_to s; path_scope := path_scope s; scope_tenant := scope_tenant s;
  scope_namespace := scope_namespace s; session_status := session_status s;
  session_created_at := session_created_at s; session_ended_at := session_ended_at s |}.

(** The two fields [end_session] writes. *)
Definition session_end (s : Session) (st : SessionStatus) (at_ : Time) : Session := {|
  session_id := session_id s; session_agent := session_agent s;
  working_branch := working_branch s; session_head := session_head s;
  parent_session := parent_session s; delegated_intent := delegated_intent s;
  report_to := report_to s; path_scope := path_scope s; scope_tenant := scope_tenant s;
  scope_namespace := scope_namespace s; session_status := st;
  session_created_at := session_created_at s; session_ended_at := Some at_ |}.

Record CreateSessionParams := {
  param_parent : option SessionId;
  param_intent : option IntentId;
  param_report_to : option string;
  param_path_scope : option string;
  param_namespace : option Namespace;
}.

(** The record [SessionManager::create] builds; [id] is the fresh UUID. *)
Definition make_session (id agent branch : string) (head : ObjectId)
    (params : CreateSessionParams) (now : Time) : Session := {|
  session_id := id;
  session_agent := agent;
  working_branch := branch;
  session_head := head;
  parent_session := param_parent params;
  delegated_intent := param_intent params;
  report_to := param_report_to params;
  path_scope := param_path_scope params;
  scope_tenant := None;
  scope_namespace := param_namespace params;
  session_status := SessionActive;
  session_created_at := now;
  session_ended_at := None;
|}.

(** [check_scope]: [None] when the path is in scope, the error's fields
    otherwise. *)
Definition check_scope (s : Session) (path : string) : result (string * string) unit :=
  match path_scope s with
  | Some sc => if starts_with sc path then Ok tt else Err (path, sc)
  | None => Ok tt
  end.

(** ** Properties *)

(** The namespaces [Namespace::new] makes are exactly the nonempty names
    of at most 64 bytes over ASCII letters, digits, hyphen and underscore; the
    name is kept as given, and the first failing check names the error. *)
Theorem namespace_new_spec name :
  (∀ ns, namespace_new name = Ok ns ↔
    ns_name ns = name ∧ name ≠ EmptyString ∧ (slen name ≤ 64)%N ∧ str_forall ns_char name) ∧
  (namespace_new name = Err NsEmpty ↔ name = EmptyString) ∧
  (∀ n, namespace_new name = Err (NsTooLong n) ↔ n = slen name ∧ (64 < slen name)%N) ∧
  valid_namespace default_ns.
Proof.
  assert (valid_namespace default_ns) by by vm_compute.
  unfold namespace_new, MAX_NAMESPACE_LEN. case_bool_decide as Hn.
  { subst. split_and!; [..|done]; try (intros [ns]; split; naive_solver); [done|].
    intros n. split; [done|]. by intros [_ ?]. }
  destruct (N.ltb_spec 64 (slen name)) as [Hl|Hl].
  { split_and!; [..|done]; try done; intros n; split; try done.
    - intros (_ & _ & ? & _). lia.
    - by intros [= <-].
    - by intros [-> _]. }
  destruct (str_forall ns_char name) eqn:Hc; simpl; (split_and!; [..|done]); try done.
  - intros [ns]. split; [by intros [= <-]|]. by intros [<- _].
  - intros n. split; [done|]. intros [_ ?]. lia.
  - intros [ns]. split; [done|]. by intros (_ & _ & _ & []).
  - intros n. split; [done|]. intros [_ ?]. lia.
Qed.

(** A session status survives its wire form, and an unknown wire value
    reads as [Abandoned], never as a live session. *)
Theorem session_status_roundtrip :
  (∀ st, session_status_from_wire (session_status_as_str st) = st) ∧
  (∀ s, session_status_from_wire s = SessionActive ↔ s = session_status_as_str SessionActive) ∧
  (∀ s, (∀ st, s ≠ session_status_as_str st) → session_status_from_wire s = SessionAbandoned).
Proof.
  split_and!.
  - by intros [].
  - intros s. unfold session_status_from_wire. repeat case_decide; naive_solver.
  - intros s H. unfold session_status_from_wire.
    pose proof (H SessionActive). pose proof (H SessionCompleted). by repeat case_decide.
Qed.

(** The scope check is a byte prefix test, so a scope without a trailing
    slash also admits the sibling paths its last segment is a prefix of. *)
Theorem check_scope_prefix s path :
  (check_scope s path = Ok tt ↔
    match path_scope s with None => True | Some sc => ∃ rest, path = sc +:+ rest end) ∧
  (∀ sc suffix, path_scope s = Some sc → check_scope s (sc +:+ suffix) = Ok tt).
Proof.
  assert (∀ path, check_scope s path = Ok tt ↔
    match path_scope s with None => True | Some sc => ∃ rest, path = sc +:+ rest end) as H.
  { intros p. unfold check_scope. destruct (path_scope s) as [sc|]; [|done].
    rw -starts_with_spec. by destruct (starts_with sc p). }
  split; [done|]. intros sc suffix E. apply H. rw E. eauto.
Qed.
