(* ===== verification/Commits.v ===== *)
(** * Commits: records, caps, identity and filtering

    Models [agentstategraph-core/src/commit.rs] and
    [agentstategraph-core/src/query.rs]. The serialisation of the hashed
    fields is [serde_json]'s and a parameter ([CommitSerial]); so are Unicode
    lower-casing and the [Debug] form of a string, of which filtering only
    needs that they are functions. *)
From S2P Require Import Prelude Objects Json Intents Sessions.

(** ** Characters

    A [char] of a UTF-8 string is a byte that is not a continuation byte,
    with the continuation bytes after it. *)
Definition is_continuation (c : ascii) : bool := between 0x80 0xBF c.

Fixpoint char_count (s : string) : N :=
  match s with
  | EmptyString => 0
  | String c s' => ((if is_continuation c then 0 else 1) + char_count s')%N
  end.

(** [s.chars().take(max).collect()]. *)
Fixpoint take_chars (max : N) (s : string) : string :=
  match s with
  | EmptyString => EmptyString
  | String c s' =>
      if is_continuation c then String c (take_chars max s')
      else if (max =? 0)%N then EmptyString
      else String c (take_chars (max - 1) s')
  end.

Definition truncate_chars (s : string) (max : N) : string :=
  if (char_count s <=? max)%N then s else take_chars max s.

(** ** Commits *)

Definition MAX_DESCRIPTION_LEN : N := 1024.
Definition MAX_REASONING_LEN : N := 8192.
Definition MAX_AGENT_ID_LEN : N := 128.
Definition MAX_TOOL_CALLS : N := 256.

Record Commit := {
  commit_id : ObjectId;
  state_root : ObjectId;
  parents : list ObjectId;
  timestamp : Time;
  agent_id : AgentId;
  authority : Authority;
  intent : Intent;
  reasoning : option string;
  confidence : option Z;
  tool_calls : list ToolCall;
}.

#[export] Instance Commit_eq_dec : EqDecision Commit.
Proof. solve_decision. Defined.

(** [CommitHashInput]: every field but the id. *)
Record CommitHashInput := {
  hi_state_root : ObjectId;
  hi_parents : list ObjectId;
  hi_timestamp : Time;
  hi_agent_id : AgentId;
  hi_authority : Authority;
  hi_intent : Intent;
  hi_reasoning : option string;
  hi_confidence : option Z;
  hi_tool_calls : list ToolCall;
}.

Definition hash_input (c : Commit) : CommitHashInput := {|
  hi_state_root := state_root c; hi_parents := parents c; hi_timestamp := timestamp c;
  hi_agent_id := agent_id c; hi_authority := authority c; hi_intent := intent c;
  hi_reasoning := reasoning c; hi_confidence := confidence c; hi_tool_calls := tool_calls c |}.

(** [serde_json::to_vec] of the hashed fields. *)
Class CommitSerial := commit_canonical : CommitHashInput → string.

Definition compute_id `{CH : ContentHash, CS : CommitSerial} (c : Commit) : ObjectId :=
  oid_hash (commit_canonical (hash_input c)).

Definition truncate_list {A} (l : list A) (max : N) : list A :=
  if (max <? N.of_nat (length l))%N then take (N.to_nat max) l else l.

Definition cap_string (s : string) (max : N) : string :=
  if (max <? char_count s)%N then truncate_chars s max else s.

Definition enforce_caps (c : Commit) : Commit := {|
  commit_id := commit_id c;
  state_root := state_root c;
  parents := parents c;
  timestamp := timestamp c;
  agent_id := cap_string (agent_id c) MAX_AGENT_ID_LEN;
  authority := authority c;
  intent := with_description (intent c)
              (cap_string (description (intent c)) MAX_DESCRIPTION_LEN);
  reasoning := match reasoning c with
               | Some r => Some (cap_string r MAX_REASONING_LEN)
               | None => None
               end;
  confidence := confidence c;
  tool_calls := truncate_list (tool_calls c) MAX_TOOL_CALLS;
|}.

Record CommitBuilder := {
  b_state_root : ObjectId;
  b_parents : list ObjectId;
  b_agent_id : AgentId;
  b_authority : Authority;
  b_intent : Intent;
  b_reasoning : option string;
  b_confidence : option Z;
  b_tool_calls : list ToolCall;
}.

Definition builder_new (root : ObjectId) (agent : AgentId) (auth : Authority) (i : Intent) :
    CommitBuilder := {|
  b_state_root := root; b_parents := []; b_agent_id := agent; b_authority := auth;
  b_intent := i; b_reasoning := None; b_confidence := None; b_tool_calls := [] |}.

Definition builder_parents (b : CommitBuilder) (ps : list ObjectId) : CommitBuilder := {|
  b_state_root := b_state_root b; b_parents := ps; b_agent_id := b_agent_id b;
  b_authority := b_authority b; b_intent := b_intent b; b_reasoning := b_reasoning b;
  b_confidence := b_confidence b; b_tool_calls := b_tool_calls b |}.

Definition builder_parent (b : CommitBuilder) (p : ObjectId) : CommitBuilder :=
  builder_parents b [p].

Definition builder_reasoning (b : CommitBuilder) (r : string) : CommitBuilder := {|
  b_state_root := b_state_root b; b_parents := b_parents b; b_agent_id := b_agent_id b;
  b_authority := b_authority b; b_intent := b_intent b; b_reasoning := Some r;
  b_confidence := b_confidence b; b_tool_calls := b_tool_calls b |}.

Definition builder_confidence (b : CommitBuilder) (c : Z) : CommitBuilder := {|
  b_state_root := b_state_root b; b_parents := b_parents b; b_agent_id := b_agent_id b;
  b_authority := b_authority b; b_intent := b_intent b; b_reasoning := b_reasoning b;
  b_confidence := Some (f64_clamp c f64_zero f64_one); b_tool_calls := b_tool_calls b |}.

Definition builder_tool_calls (b : CommitBuilder) (calls : list ToolCall) : CommitBuilder := {|
  b_state_root := b_state_root b; b_parents := b_parents b; b_agent_id := b_agent_id b;
  b_authority := b_authority b; b_intent := b_intent b; b_reasoning := b_reasoning b;
  b_confidence := b_confidence b; b_tool_calls := calls |}.

Definition with_id (c : Commit) (id : ObjectId) : Commit := {|
  commit_id := id; state_root := state_root c; parents := parents c;
  timestamp := timestamp c; agent_id := agent_id c; authority := authority c;
  intent := intent c; reasoning := reasoning c; confidence := confidence c;
  tool_calls := tool_calls c |}.

(** [ObjectId::from_bytes([0u8; 32])]. *)
Definition zero_oid : ObjectId :=
  Oid (Nat.iter 32 (String Ascii.zero) EmptyString).

(** [CommitBuilder::build] at the instant [now]. *)
Definition build `{CH : ContentHash, CS : CommitSerial} (b : CommitBuilder) (now : Time) :
    Commit :=
  let commit := {|
    commit_id := zero_oid;
    state_root := b_state_root b;
    parents := b_parents b;
    timestamp := now;
    agent_id := truncate_chars (b_agent_id b) MAX_AGENT_ID_LEN;
    authority := b_authority b;
    intent := with_description (b_intent b)
                (truncate_chars (description (b_intent b)) MAX_DESCRIPTION_LEN);
    reasoning := (λ r, truncate_chars r MAX_REASONING_LEN) <$> b_reasoning b;
    confidence := b_confidence b;
    tool_calls := truncate_list (b_tool_calls b) MAX_TOOL_CALLS;
  |} in
  with_id commit (compute_id commit).

(** ** Filtering *)

(** The library functions filtering uses: [str::to_lowercase] and [Debug] of
    a string (for [IntentCategory::Custom]). *)
Class Text := {
  to_lowercase : string → string;
  debug_str : string → string;
}.

Definition eq_ignore_ascii_case (a b : string) : bool :=
  bool_decide (to_ascii_lowercase a = to_ascii_lowercase b).

(** [haystack.contains(needle)]. *)
Fixpoint contains (needle haystack : string) : bool :=
  starts_with needle haystack ||
  match haystack with EmptyString => false | String _ h => contains needle h end.

Section filtering.
Context `{Text}.

(** [format!("{:?}", category)]. *)
Definition debug_category (c : IntentCategory) : string :=
  match c with
  | Explore => "Explore" | Refine => "Refine" | Fix => "Fix" | Rollback => "Rollback"
  | Checkpoint => "Checkpoint" | MergeCategory => "Merge" | Migrate => "Migrate"
  | Plan => "Plan" | Taint => "Taint" | Untaint => "Untaint" | Quarantine => "Quarantine"
  | Unquarantine => "Unquarantine" | Watch => "Watch" | Unwatch => "Unwatch"
  | PolicyPropose => "PolicyPropose" | PolicyRatify => "PolicyRatify"
  | PolicySupersede => "PolicySupersede" | PolicySign => "PolicySign"
  | CustomCategory s => "Custom(" +:+ debug_str s +:+ ")"
  end.

Definition debug_status (s : IntentStatus) : string :=
  match s with
  | Proposed => "Proposed" | Authorized => "Authorized" | InProgress => "InProgress"
  | Completed => "Completed" | Failed => "Failed" | Blocked => "Blocked"
  end.

Record QueryFilters := {
  f_path : option string;
  f_agent_id : option string;
  f_intent_category : option string;
  f_tags : option (list string);
  f_authority_principal : option string;
  f_reasoning_contains : option string;
  f_confidence_range : option (Z * Z);
  f_intent_status : option string;
  f_outcome : option string;
  f_date_from : option Time;
  f_date_to : option Time;
  f_has_deviations : option bool;
}.

Definition no_filters : QueryFilters := {|
  f_path := None; f_agent_id := None; f_intent_category := None; f_tags := None;
  f_authority_principal := None; f_reasoning_contains := None; f_confidence_range := None;
  f_intent_status := None; f_outcome := None; f_date_from := None; f_date_to := None;
  f_has_deviations := None |}.

Definition has_deviations (c : Commit) : bool :=
  match resolution (lifecycle (intent c)) with
  | Some r => match res_deviations r with [] => false | _ => true end
  | None => false
  end.

Definition mentions (query : string) (c : Commit) : bool :=
  let q := to_lowercase query in
  match reasoning c with Some r => contains q (to_lowercase r) | None => false end
  || contains q (to_lowercase (description (intent c))).

(** [matches_filters]: one early return after the other. *)
Definition matches_filters (c : Commit) (f : QueryFilters) : bool :=
  if match f_agent_id f with
     | Some a => bool_decide (agent_id c ≠ a) | None => false end then false else
  if match f_intent_category f with
     | Some cat => negb (eq_ignore_ascii_case (debug_category (category (intent c))) cat)
     | None => false end then false else
  if match f_tags f with
     | Some ts => existsb (λ t, bool_decide (t ∉ tags (intent c))) ts
     | None => false end then false else
  if match f_authority_principal f with
     | Some p => bool_decide (principal (authority c) ≠ p) | None => false end then false else
  if match f_reasoning_contains f with
     | Some q => negb (mentions q c) | None => false end then false else
  if match f_confidence_range f with
     | Some (lo, hi) =>
         match confidence c with
         | Some x => negb (f64_leb lo x && f64_leb x hi)
         | None => true
         end
     | None => false end then false else
  if match f_intent_status f with
     | Some st => negb (eq_ignore_ascii_case (debug_status (status (lifecycle (intent c)))) st)
     | None => false end then false else
  if match f_date_from f with
     | Some from => (timestamp c <? from)%Z | None => false end then false else
  if match f_date_to f with
     | Some to => (to <? timestamp c)%Z | None => false end then false else
  if match f_has_deviations f with
     | Some true => negb (has_deviations c) | _ => false end then false
  else true.

Definition filter_commits (commits : list Commit) (f : QueryFilters) : list Commit :=
  List.filter (λ c, matches_filters c f) commits.
End filtering.

(** ** Caps *)

Lemma take_chars_count m s : (char_count (take_chars m s) ≤ m)%N.
Proof.
  revert m. induction s as [|c s IH]; intros m; cbn [take_chars char_count]; [lia|].
  destruct (is_continuation c) eqn:Hc; cbn [char_count]; [rw Hc; apply IH|].
  destruct (N.eqb_spec m 0); cbn [char_count]; [lia|]. rw Hc. specialize (IH (m - 1)%N). lia.
Qed.

Lemma truncate_chars_count s m : (char_count (truncate_chars s m) ≤ m)%N.
Proof.
  unfold truncate_chars. destruct (N.leb_spec (char_count s) m); [done|apply take_chars_count].
Qed.

Lemma truncate_chars_id s m : (char_count s ≤ m)%N → truncate_chars s m = s.
Proof. intros H. unfold truncate_chars. by rw (proj2 (N.leb_le _ _)). Qed.

Lemma cap_string_truncate s m : cap_string s m = truncate_chars s m.
Proof.
  unfold cap_string. destruct (N.ltb_spec m (char_count s)); [done|].
  by rw truncate_chars_id.
Qed.

Lemma truncate_list_length {A} (l : list A) m : (N.of_nat (length (truncate_list l m)) ≤ m)%N.
Proof.
  unfold truncate_list. destruct (N.ltb_spec m (N.of_nat (length l))); [|done].
  rw length_take. lia.
Qed.

Lemma truncate_list_id {A} (l : list A) m :
  (N.of_nat (length l) ≤ m)%N → truncate_list l m = l.
Proof. intros H. unfold truncate_list. by rw (proj2 (N.ltb_ge _ _)). Qed.

(** The bounds on what a reader is shown. *)
Definition within_caps (c : Commit) : Prop :=
  (char_count (agent_id c) ≤ MAX_AGENT_ID_LEN)%N ∧
  (char_count (description (intent c)) ≤ MAX_DESCRIPTION_LEN)%N ∧
  (∀ r, reasoning c = Some r → char_count r ≤ MAX_REASONING_LEN)%N ∧
  (N.of_nat (length (tool_calls c)) ≤ MAX_TOOL_CALLS)%N.

Lemma enforce_caps_within c : within_caps (enforce_caps c).
Proof.
  unfold within_caps. destruct c; simpl. rw !cap_string_truncate.
  split_and!; try apply truncate_chars_count; [|apply truncate_list_length].
  intros r. destruct reasoning0; intros [= <-]. rw cap_string_truncate.
  apply truncate_chars_count.
Qed.

Lemma enforce_caps_id c : within_caps c → enforce_caps c = c.
Proof.
  intros (H1 & H2 & H3 & H4). destruct c as [id root ps t ag au [] re co tc]; simpl in *.
  unfold enforce_caps; simpl.
  rw !cap_string_truncate (truncate_chars_id _ _ H1) (truncate_chars_id _ _ H2).
  rw (truncate_list_id _ _ H4).
  destruct re as [r|]; [|done]. by rw cap_string_truncate (truncate_chars_id _ _ (H3 r eq_refl)).
Qed.

(** ** Properties *)

(** Reading a commit back bounds what a reader is shown, changes nothing
    of a commit already within the bounds (so it is idempotent), and never
    touches the id, the state root or the parents. *)
Theorem enforce_caps_spec c :
  within_caps (enforce_caps c) ∧ (enforce_caps c = c ↔ within_caps c) ∧
  commit_id (enforce_caps c) = commit_id c ∧
  state_root (enforce_caps c) = state_root c ∧ parents (enforce_caps c) = parents c.
Proof.
  split_and!; [apply enforce_caps_within| |done..].
  split; [intros <-; apply enforce_caps_within|apply enforce_caps_id].
Qed.

(** A built commit is intact (its id is the content address of its
    fields), within the caps, so reading it back returns it unchanged, and its
    confidence is a number of the unit interval unless it was NaN. *)
Theorem build_intact `{CH : ContentHash, CS : CommitSerial} b x now :
  let c := build (builder_confidence b x) now in
  commit_id c = compute_id c ∧ enforce_caps c = c ∧
  (f64_is_nan x = false → ∃ y, confidence c = Some y ∧ f64_leb f64_zero y ∧ f64_leb y f64_one) ∧
  state_root c = b_state_root b ∧ parents c = b_parents b ∧ timestamp c = now.
Proof.
  intros c. split_and!; [done| | |done..].
  - apply enforce_caps_id. unfold within_caps. simpl.
    split_and!; try apply truncate_chars_count; [|apply truncate_list_length].
    intros r. destruct (b_reasoning b); intros [= <-]. apply truncate_chars_count.
  - intros Hx. eexists; split; [done|]. apply f64_clamp_bounds; [done|by vm_compute..].
Qed.

Lemma reject_filter (x r : bool) (P Q : Prop) :
  (x = false ↔ P) → (Is_true r ↔ Q) → Is_true (if x then false else r) ↔ P ∧ Q.
Proof. destruct x; naive_solver. Qed.

Lemma reject_last (x : bool) (P : Prop) :
  (x = false ↔ P) → Is_true (if x then false else true) ↔ P.
Proof. destruct x; naive_solver. Qed.

(** Filtering keeps exactly the commits that satisfy every filter given;
    the [path] and [outcome] filters are accepted but never consulted. *)
Theorem matches_filters_spec `{Text} c f :
  matches_filters c f ↔
  (∀ a, f_agent_id f = Some a → agent_id c = a) ∧
  (∀ cat, f_intent_category f = Some cat →
     to_ascii_lowercase (debug_category (category (intent c))) = to_ascii_lowercase cat) ∧
  (∀ ts, f_tags f = Some ts → ts ⊆ tags (intent c)) ∧
  (∀ p, f_authority_principal f = Some p → principal (authority c) = p) ∧
  (∀ q, f_reasoning_contains f = Some q → mentions q c) ∧
  (∀ lo hi, f_confidence_range f = Some (lo, hi) →
     ∃ x, confidence c = Some x ∧ f64_leb lo x ∧ f64_leb x hi) ∧
  (∀ st, f_intent_status f = Some st →
     to_ascii_lowercase (debug_status (status (lifecycle (intent c)))) = to_ascii_lowercase st) ∧
  (∀ from, f_date_from f = Some from → (from ≤ timestamp c)%Z) ∧
  (∀ to, f_date_to f = Some to → (timestamp c ≤ to)%Z) ∧
  (f_has_deviations f = Some true → has_deviations c).
Proof.
  unfold matches_filters. repeat (apply reject_filter); [..|apply reject_last].
  - destruct (f_agent_id f) as [a|]; [|naive_solver]. rw bool_decide_eq_false.
    destruct (decide (agent_id c = a)); naive_solver.
  - destruct (f_intent_category f); [|naive_solver]. unfold eq_ignore_ascii_case.
    rw negb_false_iff bool_decide_eq_true. naive_solver.
  - destruct (f_tags f) as [ts|]; [|naive_solver].
    rw -not_true_iff_false existsb_exists. setoid_rewrite bool_decide_eq_true. split.
    + intros Hno ? [= <-] t Ht. destruct (decide (t ∈ tags (intent c))); [done|].
      destruct Hno. exists t. by rw -list_elem_of_In.
    + intros Hall (t & Ht & Hn). rewrite -list_elem_of_In in Ht. by apply Hn, (Hall ts).
  - destruct (f_authority_principal f) as [p|]; [|naive_solver].
    rw bool_decide_eq_false. destruct (decide (principal (authority c) = p)); naive_solver.
  - destruct (f_reasoning_contains f) as [q|]; [|naive_solver].
    rw negb_false_iff -Is_true_true. naive_solver.
  - destruct (f_confidence_range f) as [[lo hi]|]; [|naive_solver].
    destruct (confidence c) as [x|]; [|naive_solver].
    rw negb_false_iff -Is_true_true andb_True. naive_solver.
  - destruct (f_intent_status f); [|naive_solver]. unfold eq_ignore_ascii_case.
    rw negb_false_iff bool_decide_eq_true. naive_solver.
  - destruct (f_date_from f); [|naive_solver]. rw Z.ltb_ge. naive_solver.
  - destruct (f_date_to f); [|naive_solver]. rw Z.ltb_ge. naive_solver.
  - destruct (f_has_deviations f) as [[]|]; destruct (has_deviations c); naive_solver.
Qed.

(** A commit with the given id, root and parents and nothing else of note, for
    the examples of the development. *)
Definition sample_commit (id root : ObjectId) (ps : list ObjectId) : Commit := {|
  commit_id := id; state_root := root; parents := ps; timestamp := 0%Z; agent_id := "agent";
  authority := simple_authority "agent" 0%Z; intent := new_intent "i" Refine "change";
  reasoning := None; confidence := None; tool_calls := [] |}.
