(* ===== verification/Epochs.v ===== *)
(** * Epochs: sealable segments of work

    Models [agentstategraph-core/src/epoch.rs]: the scope of a seal and its
    storage form, the epoch record and its state machine, and the index entry
    of the registry. *)
From S2P Require Import Prelude Objects Json Intents.

(** ** Scopes *)

Inductive EpochScope : Type :=
  | ScopeAll
  | ScopeOfBranch (b : string)
  | ScopeOfPlan (p : string)
  | ScopeOfWorkspace (w : string).

#[export] Instance EpochScope_eq_dec : EqDecision EpochScope.
Proof. solve_decision. Defined.

Definition as_storage_str (s : EpochScope) : string :=
  match s with
  | ScopeAll => "all"
  | ScopeOfBranch b => "branch:" +:+ b
  | ScopeOfPlan p => "plan:" +:+ p
  | ScopeOfWorkspace w => "workspace:" +:+ w
  end.

Definition from_storage_str (s : string) : EpochScope :=
  match split_once ":" s with
  | None => ScopeAll
  | Some (k, v) =>
      if decide (k = "branch") then ScopeOfBranch v
      else if decide (k = "plan") then ScopeOfPlan v
      else if decide (k = "workspace") then ScopeOfWorkspace v
      else ScopeAll
  end.

Definition seal_ref (s : EpochScope) : option string :=
  match s with
  | ScopeAll | ScopeOfWorkspace _ => Some "main"
  | ScopeOfBranch b => Some b
  | ScopeOfPlan _ => None
  end.

(** ** Epochs *)

Inductive EpochStatus : Type := EpochActive | EpochSealed | EpochArchived.

#[export] Instance EpochStatus_eq_dec : EqDecision EpochStatus.
Proof. solve_decision. Defined.

Record Epoch := {
  epoch_id : string;
  epoch_description : string;
  root_intents : list IntentId;
  epoch_status : EpochStatus;
  epoch_created_at : Time;
  sealed_at : option Time;
  seal_summary : option string;
  seal_hash : option ObjectId;
  epoch_commits : list ObjectId;
  epoch_agents : list string;
  epoch_branches : list string;
  epoch_tags : list string;
  sealed_commits : list ObjectId;
  epoch_scope : EpochScope;
  epoch_namespace : option string;
}.

#[export] Instance Epoch_eq_dec : EqDecision Epoch.
Proof. solve_decision. Defined.

Inductive CrossRefType : Type := FollowUp | Dependency | Related | Reverts.

Record CrossReference := {
  from_epoch : string;
  to_epoch : string;
  relationship : CrossRefType;
  xref_description : string;
}.

Record EpochEntry := {
  entry_id : string;
  entry_description : string;
  entry_status : EpochStatus;
  entry_created_at : Time;
  entry_sealed_at : option Time;
  entry_root_intents : list IntentId;
  entry_agents : list string;
  commit_count_of : N;
  entry_seal_hash : option ObjectId;
  entry_scope : EpochScope;
  entry_namespace : option string;
  entry_tags : list string;
}.

(** The registry: the index of all epochs. *)
Record Registry := {
  reg_epochs : list EpochEntry;
  cross_references : list CrossReference;
}.

Inductive EpochError : Type :=
  | NotActive (id : string)
  | NotSealed (id : string)
  | EpochNotFound (id : string).

(** An epoch with the fields the operations write replaced. *)
Definition epoch_set_status (e : Epoch) (st : EpochStatus) : Epoch := {|
  epoch_id := epoch_id e; epoch_description := epoch_description e;
  root_intents := root_intents e; epoch_status := st;
  epoch_created_at := epoch_created_at e; sealed_at := sealed_at e;
  seal_summary := seal_summary e; seal_hash := seal_hash e;
  epoch_commits := epoch_commits e; epoch_agents := epoch_agents e;
  epoch_branches := epoch_branches e; epoch_tags := epoch_tags e;
  sealed_commits := sealed_commits e; epoch_scope := epoch_scope e;
  epoch_namespace := epoch_namespace e |}.

Definition epoch_set_seal (e : Epoch) (at_ : Time) (summary : string) (h : ObjectId) : Epoch := {|
  epoch_id := epoch_id e; epoch_description := epoch_description e;
  root_intents := root_intents e; epoch_status := epoch_status e;
  epoch_created_at := epoch_created_at e; sealed_at := Some at_;
  seal_summary := Some summary; seal_hash := Some h;
  epoch_commits := epoch_commits e; epoch_agents := epoch_agents e;
  epoch_branches := epoch_branches e; epoch_tags := epoch_tags e;
  sealed_commits := sealed_commits e; epoch_scope := epoch_scope e;
  epoch_namespace := epoch_namespace e |}.

Definition epoch_set_work (e : Epoch) (cs : list ObjectId) (ags : list string) : Epoch := {|
  epoch_id := epoch_id e; epoch_description := epoch_description e;
  root_intents := root_intents e; epoch_status := epoch_status e;
  epoch_created_at := epoch_created_at e; sealed_at := sealed_at e;
  seal_summary := seal_summary e; seal_hash := seal_hash e;
  epoch_commits := cs; epoch_agents := ags;
  epoch_branches := epoch_branches e; epoch_tags := epoch_tags e;
  sealed_commits := sealed_commits e; epoch_scope := epoch_scope e;
  epoch_namespace := epoch_namespace e |}.

Definition epoch_set_sealed_commits (e : Epoch) (cs : list ObjectId) : Epoch := {|
  epoch_id := epoch_id e; epoch_description := epoch_description e;
  root_intents := root_intents e; epoch_status := epoch_status e;
  epoch_created_at := epoch_created_at e; sealed_at := sealed_at e;
  seal_summary := seal_summary e; seal_hash := seal_hash e;
  epoch_commits := epoch_commits e; epoch_agents := epoch_agents e;
  epoch_branches := epoch_branches e; epoch_tags := epoch_tags e;
  sealed_commits := cs; epoch_scope := epoch_scope e;
  epoch_namespace := epoch_namespace e |}.

Definition with_scope (e : Epoch) (s : EpochScope) : Epoch := {|
  epoch_id := epoch_id e; epoch_description := epoch_description e;
  root_intents := root_intents e; epoch_status := epoch_status e;
  epoch_created_at := epoch_created_at e; sealed_at := sealed_at e;
  seal_summary := seal_summary e; seal_hash := seal_hash e;
  epoch_commits := epoch_commits e; epoch_agents := epoch_agents e;
  epoch_branches := epoch_branches e; epoch_tags := epoch_tags e;
  sealed_commits := sealed_commits e; epoch_scope := s;
  epoch_namespace := epoch_namespace e |}.

Definition with_namespace (e : Epoch) (ns : string) : Epoch := {|
  epoch_id := epoch_id e; epoch_description := epoch_description e;
  root_intents := root_intents e; epoch_status := epoch_status e;
  epoch_created_at := epoch_created_at e; sealed_at := sealed_at e;
  seal_summary := seal_summary e; seal_hash := seal_hash e;
  epoch_commits := epoch_commits e; epoch_agents := epoch_agents e;
  epoch_branches := epoch_branches e; epoch_tags := epoch_tags e;
  sealed_commits := sealed_commits e; epoch_scope := epoch_scope e;
  epoch_namespace := Some ns |}.

(** [Epoch::new] at the instant [now]. *)
Definition epoch_new (id descr : string) (roots : list IntentId) (now : Time) : Epoch := {|
  epoch_id := id; epoch_description := descr; root_intents := roots;
  epoch_status := EpochActive; epoch_created_at := now; sealed_at := None;
  seal_summary := None; seal_hash := None; epoch_commits := []; epoch_agents := [];
  epoch_branches := []; epoch_tags := []; sealed_commits := []; epoch_scope := ScopeAll;
  epoch_namespace := None |}.

Definition seal (e : Epoch) (summary : string) (h : ObjectId) (now : Time) :
    result EpochError Epoch :=
  if negb (bool_decide (epoch_status e = EpochActive)) then Err (NotActive (epoch_id e))
  else Ok (epoch_set_seal (epoch_set_status e EpochSealed) now summary h).

Definition archive (e : Epoch) : result EpochError Epoch :=
  if negb (bool_decide (epoch_status e = EpochSealed)) then Err (NotSealed (epoch_id e))
  else Ok (epoch_set_status e EpochArchived).

Definition add_commit (e : Epoch) (c : ObjectId) (agent : string) : result EpochError Epoch :=
  if negb (bool_decide (epoch_status e = EpochActive)) then Err (NotActive (epoch_id e))
  else Ok (epoch_set_work e (epoch_commits e ++ [c])
             (if decide (agent ∈ epoch_agents e) then epoch_agents e
              else epoch_agents e ++ [agent])).

Definition commit_count (e : Epoch) : N :=
  match epoch_commits e with
  | [] => N.of_nat (length (sealed_commits e))
  | _ => N.of_nat (length (epoch_commits e))
  end.

Definition to_entry (e : Epoch) : EpochEntry := {|
  entry_id := epoch_id e; entry_description := epoch_description e;
  entry_status := epoch_status e; entry_created_at := epoch_created_at e;
  entry_sealed_at := sealed_at e; entry_root_intents := root_intents e;
  entry_agents := epoch_agents e; commit_count_of := commit_count e;
  entry_seal_hash := seal_hash e; entry_scope := epoch_scope e;
  entry_namespace := epoch_namespace e; entry_tags := epoch_tags e |}.

(** ** The state machine *)

Inductive EpochOp : Type :=
  | OpSeal (summary : string) (h : ObjectId) (now : Time)
  | OpArchive
  | OpAddCommit (c : ObjectId) (agent : string).

Definition epoch_step (e : Epoch) (op : EpochOp) : result EpochError Epoch :=
  match op with
  | OpSeal summary h now => seal e summary h now
  | OpArchive => archive e
  | OpAddCommit c agent => add_commit e c agent
  end.

Fixpoint epoch_run (e : Epoch) (ops : list EpochOp) : Epoch :=
  match ops with
  | [] => e
  | op :: ops' =>
      epoch_run (match epoch_step e op with Ok e' => e' | Err _ => e end) ops'
  end.

(** The seal fields go together with the status. *)
Definition epoch_inv (e : Epoch) : Prop :=
  (epoch_status e = EpochActive ↔ seal_hash e = None) ∧
  (seal_hash e = None ↔ sealed_at e = None) ∧
  (seal_hash e = None ↔ seal_summary e = None) ∧
  NoDup (epoch_agents e).

Lemma epoch_step_inv e op e' : epoch_inv e → epoch_step e op = Ok e' → epoch_inv e'.
Proof.
  intros (H1 & H2 & H3 & H4). destruct op as [su h now| |c ag]; simpl.
  - unfold seal. case_bool_decide; [|done]. intros [= <-]. by split_and!.
  - unfold archive. case_bool_decide; [|done]. intros [= <-].
    split_and!; [|done..]. simpl. split; [done|]. intros Hh%H1. congruence.
  - unfold add_commit. case_bool_decide; [|done]. intros [= <-].
    split_and!; [done..|]. simpl. case_decide; [done|].
    apply NoDup_app. split_and!; [done| |apply NoDup_singleton]. set_solver.
Qed.

Lemma epoch_run_inv e ops : epoch_inv e → epoch_inv (epoch_run e ops).
Proof.
  revert e. induction ops as [|op ops IH]; intros e He; [done|]; simpl.
  apply IH. destruct (epoch_step e op) eqn:E; [|done]. by eapply epoch_step_inv.
Qed.

(** What a seal fixes for good. *)
Definition sealed_view (e : Epoch) :=
  (epoch_id e, (sealed_at e, seal_summary e, seal_hash e),
   (epoch_commits e, epoch_agents e, sealed_commits e, epoch_scope e, epoch_namespace e)).

Lemma epoch_step_sealed e op e' :
  epoch_status e ≠ EpochActive → epoch_step e op = Ok e' →
  sealed_view e' = sealed_view e ∧ epoch_status e' = EpochArchived.
Proof.
  intros He. destruct op as [su h now| |c ag]; simpl.
  - unfold seal. by case_bool_decide.
  - unfold archive. case_bool_decide; [|done]. by intros [= <-].
  - unfold add_commit. by case_bool_decide.
Qed.

(** ** Properties *)

(** A seal is forever: whatever operations are attempted afterwards, a
    sealed epoch never becomes active again and its commits, agents, summary,
    seal hash and time are the ones it was sealed with. *)
Theorem sealed_epoch_frozen e ops :
  epoch_status e ≠ EpochActive →
  epoch_status (epoch_run e ops) ≠ EpochActive ∧
  sealed_view (epoch_run e ops) = sealed_view e.
Proof.
  revert e. induction ops as [|op ops IH]; intros e He; [done|]; simpl.
  destruct (epoch_step e op) as [e'|] eqn:E; [|by apply IH].
  apply epoch_step_sealed in E as [Hv Hs]; [|done]. rw -Hv. apply IH. by rw Hs.
Qed.

(** From its creation on, an epoch is active exactly while it has no seal
    hash (nor seal time, nor summary), it never lists an agent twice, and its
    entry in the registry counts the commits tagged to it. *)
Theorem epoch_lifecycle id descr roots now ops :
  let e := epoch_run (epoch_new id descr roots now) ops in
  (epoch_status e = EpochActive ↔ seal_hash e = None) ∧
  (seal_hash e = None ↔ sealed_at e = None ∧ seal_summary e = None) ∧
  NoDup (epoch_agents e) ∧
  epoch_id e = id ∧
  commit_count_of (to_entry e) = N.of_nat (length (epoch_commits e)).
Proof.
  intros e. assert (epoch_inv e) as (H1 & H2 & H3 & H4).
  { apply epoch_run_inv. split_and!; [done..|]. constructor. }
  assert (epoch_id e = id ∧ sealed_commits e = []) as [Hid Hsc].
  { assert (∀ e0, epoch_id (epoch_run e0 ops) = epoch_id e0 ∧
      sealed_commits (epoch_run e0 ops) = sealed_commits e0) as H; [|apply H].
    clear. induction ops as [|op ops IH]; intros e0; [done|]; simpl.
    destruct (IH match epoch_step e0 op with Ok e' => e' | Err _ => e0 end) as [-> ->].
    destruct op; simpl; unfold seal, archive, add_commit; by case_bool_decide. }
  split_and!; [done|tauto|done|done|].
  unfold to_entry, commit_count; simpl. rw Hsc. by destruct (epoch_commits e).
Qed.

(** The scope of an epoch survives its storage form, whatever the branch,
    plan or workspace is called. *)
Theorem scope_roundtrip s : from_storage_str (as_storage_str s) = s.
Proof.
  destruct s; simpl; [done|..]; unfold from_storage_str.
  - change "branch:" with ("branch" +:+ ":"). rw string_app_assoc split_once_app //.
  - change "plan:" with ("plan" +:+ ":"). rw string_app_assoc split_once_app //.
  - change "workspace:" with ("workspace" +:+ ":"). rw string_app_assoc split_once_app //.
Qed.

Lemma sealed_epoch_frozen_witness :
  let e := epoch_run (epoch_new "e1" "first" [] 0%Z)
    [OpAddCommit (Oid "c") "a"; OpSeal "done" (Oid "h") 1%Z] in
  epoch_commits (epoch_run e [OpArchive; OpAddCommit (Oid "d") "b"]) = [Oid "c"].
Proof.
  intros e. destruct (sealed_epoch_frozen e [OpArchive; OpAddCommit (Oid "d") "b"]) as [_ Hv].
  - by vm_compute.
  - change [Oid "c"] with (epoch_commits e). unfold sealed_view in Hv. congruence.
Defined.
