(* ===== verification/Taints.v ===== *)
(** * Taints: the access check

    Models the [agentstategraph-taint] crate: the taint record of
    [types.rs] and the pure check algorithm of [check.rs]. *)
From S2P Require Import Prelude Objects Json Intents.

Inductive TaintKind : Type := KTaint | KQuarantine | KWatch.
Inductive TaintEffect : Type := Warn | Block | Review | Isolate | Advisory.
Inductive TaintSeverity : Type := SevLow | SevMedium | SevHigh | SevCritical.

#[export] Instance TaintKind_eq_dec : EqDecision TaintKind.
Proof. solve_decision. Defined.
#[export] Instance TaintEffect_eq_dec : EqDecision TaintEffect.
Proof. solve_decision. Defined.
#[export] Instance TaintSeverity_eq_dec : EqDecision TaintSeverity.
Proof. solve_decision. Defined.

Record Taint := {
  taint_id : string;
  taint_path : string;
  taint_name : string;
  kind : TaintKind;
  effect : TaintEffect;
  severity : TaintSeverity;
  taint_reason : string;
  taint_agent : string;
  taint_commit_id : string;
  taint_created_at : Time;
  expires_at : option Time;
  resolved_at : option Time;
  resolved_by : option string;
  resolved_reason : option string;
  resolved_proof : option string;
  propagate : bool;
  metadata : gmap string Json;
}.

#[export] Instance Taint_eq_dec : EqDecision Taint.
Proof. solve_decision. Defined.

Definition is_active (t : Taint) (now : Time) : bool :=
  match resolved_at t with
  | Some _ => false
  | None => match expires_at t with Some e => (now <? e)%Z | None => true end
  end.

Definition as_str (j : Json) : option string :=
  match j with JString s => Some s | _ => None end.
Definition as_array (j : Json) : option (list Json) :=
  match j with JArray l => Some l | _ => None end.

Definition authorized_agents (t : Taint) : list string :=
  match metadata t !! "authorized_agents" ≫= as_array with
  | Some l => omap as_str l
  | None => []
  end.

Record TaintCheck := {
  tainted : bool;
  quarantined : bool;
  watched : bool;
  taints : list Taint;
  quarantines : list Taint;
  watches : list Taint;
  can_write : bool;
  required_confidence : Z;
  check_agents : list string;
  isolated : bool;
}.

Definition check_clear : TaintCheck := {|
  tainted := false; quarantined := false; watched := false; taints := [];
  quarantines := []; watches := []; can_write := true; required_confidence := f64_zero;
  check_agents := []; isolated := false |}.

(** [REVIEW_CONFIDENCE_THRESHOLD], the double 0.9. *)
Definition REVIEW_CONFIDENCE_THRESHOLD : Z := 0x3FECCCCCCCCCCCCD.

Fixpoint ends_with_slash (s : string) : bool :=
  match s with
  | EmptyString => false
  | String c EmptyString => bool_decide (c = "/"%char)
  | String _ s' => ends_with_slash s'
  end.

(** The taint's path with a boundary, so [/a/b] does not match [/a/banana]. *)
Definition boundary_prefix (p : string) : string :=
  if ends_with_slash p then p else p +:+ "/".

(** The filter closure of [ancestor_candidates] and of [Storage::check_taint]. *)
Definition applies (request_path : string) (now : Time) (t : Taint) : bool :=
  is_active t now &&
  (bool_decide (taint_path t = request_path)
   || propagate t && starts_with (boundary_prefix (taint_path t)) request_path).

Definition ancestor_candidates (request_path : string) (candidates : list Taint) (now : Time) :
    list Taint :=
  List.filter (applies request_path now) candidates.

Definition push_agents (acc new : list string) : list string :=
  fold_left (λ acc a, if decide (a ∈ acc) then acc else acc ++ [a]) new acc.

(** One turn of the loop of [evaluate_access]. *)
Definition check_one (agent_id : string) (out : TaintCheck) (t : Taint) : TaintCheck :=
  match kind t with
  | KTaint => {|
      tainted := true; quarantined := quarantined out; watched := watched out;
      taints := taints out ++ [t]; quarantines := quarantines out; watches := watches out;
      can_write := match effect t with Block => false | _ => can_write out end;
      required_confidence :=
        match effect t with
        | Review => if f64_ltb (required_confidence out) REVIEW_CONFIDENCE_THRESHOLD
                    then REVIEW_CONFIDENCE_THRESHOLD else required_confidence out
        | _ => required_confidence out
        end;
      check_agents := check_agents out;
      isolated := match effect t with Isolate => true | _ => isolated out end |}
  | KQuarantine => {|
      tainted := tainted out; quarantined := true; watched := watched out;
      taints := taints out; quarantines := quarantines out ++ [t]; watches := watches out;
      can_write := if decide (agent_id ∈ authorized_agents t) then can_write out else false;
      required_confidence := required_confidence out;
      check_agents := push_agents (check_agents out) (authorized_agents t);
      isolated := isolated out |}
  | KWatch => {|
      tainted := tainted out; quarantined := quarantined out; watched := true;
      taints := taints out; quarantines := quarantines out; watches := watches out ++ [t];
      can_write := can_write out; required_confidence := required_confidence out;
      check_agents := check_agents out; isolated := isolated out |}
  end.

Definition set_can_write (c : TaintCheck) (b : bool) : TaintCheck := {|
  tainted := tainted c; quarantined := quarantined c; watched := watched c;
  taints := taints c; quarantines := quarantines c; watches := watches c;
  can_write := b; required_confidence := required_confidence c;
  check_agents := check_agents c; isolated := isolated c |}.

Definition evaluate_access (request_path agent_id : string) (confidence : Z)
    (candidates : list Taint) (now : Time) : TaintCheck :=
  let out := fold_left (check_one agent_id)
               (ancestor_candidates request_path candidates now) check_clear in
  if can_write out && f64_ltb confidence (required_confidence out)
  then set_can_write out false else out.

(** ** The specification of the check *)

(** What each applicable record asks of a write. *)
Definition blocks (agent : string) (t : Taint) : bool :=
  match kind t with
  | KTaint => match effect t with Block => true | _ => false end
  | KQuarantine => bool_decide (agent ∉ authorized_agents t)
  | KWatch => false
  end.

Definition needs_review (t : Taint) : bool :=
  match kind t, effect t with KTaint, Review => true | _, _ => false end.

Lemma push_agents_elem acc new a : a ∈ push_agents acc new ↔ a ∈ acc ∨ a ∈ new.
Proof.
  revert acc. induction new as [|b new IH]; intros acc; simpl; [set_solver|].
  rw IH. case_decide; set_solver.
Qed.

Lemma push_agents_NoDup acc new : NoDup acc → NoDup (push_agents acc new).
Proof.
  revert acc. induction new as [|b new IH]; intros acc H; [done|]. simpl. apply IH.
  case_decide; [done|]. apply NoDup_app. split_and!; [done|set_solver|apply NoDup_singleton].
Qed.

Lemma exists_elem_cons {A} (P : A → Prop) x l :
  (∃ y, y ∈ x :: l ∧ P y) ↔ P x ∨ ∃ y, y ∈ l ∧ P y.
Proof. setoid_rewrite elem_of_cons. naive_solver. Qed.

(** The loop accumulates, whatever it starts from. *)
Lemma check_loop agent l out :
  let r := fold_left (check_one agent) l out in
  can_write r = can_write out && negb (existsb (blocks agent) l) ∧
  (required_confidence out = f64_zero ∨ required_confidence out = REVIEW_CONFIDENCE_THRESHOLD →
   required_confidence r = if existsb needs_review l then REVIEW_CONFIDENCE_THRESHOLD
                           else required_confidence out) ∧
  taints r = taints out ++ List.filter (λ t, bool_decide (kind t = KTaint)) l ∧
  quarantines r = quarantines out ++ List.filter (λ t, bool_decide (kind t = KQuarantine)) l ∧
  watches r = watches out ++ List.filter (λ t, bool_decide (kind t = KWatch)) l ∧
  (∀ a, a ∈ check_agents r ↔
     a ∈ check_agents out ∨ ∃ t, t ∈ l ∧ kind t = KQuarantine ∧ a ∈ authorized_agents t).
Proof.
  revert out. induction l as [|t l IH]; intros out; cbn [fold_left].
  - simpl. rw !app_nil_r andb_true_r. split_and!; try done. intros a. set_solver.
  - destruct (IH (check_one agent out t)) as (-> & Hr & -> & -> & -> & Ha). clear IH.
    unfold check_one, blocks, needs_review in *. cbn [existsb List.filter].
    destruct (kind t) eqn:Hk; simpl in *; split_and!.
    (* a taint *)
    + destruct (effect t); simpl; by rw ?andb_false_r.
    + intros H0. destruct (effect t); simpl in *; try by apply Hr.
      rw Hr; [|right; by destruct H0 as [-> | ->]; vm_compute].
      destruct H0 as [-> | ->]; by destruct (existsb _ _).
    + by rw -app_assoc.
    + done.
    + done.
    + intros a. rw Ha exists_elem_cons Hk. naive_solver.
    (* a quarantine *)
    + case_decide; [rw bool_decide_eq_false_2; [done|tauto]|].
      rw bool_decide_eq_true_2 //=. by rw andb_false_r.
    + done.
    + done.
    + by rw -app_assoc.
    + done.
    + intros a. rw Ha push_agents_elem exists_elem_cons Hk. naive_solver.
    (* a watch *)
    + done.
    + done.
    + done.
    + done.
    + by rw -app_assoc.
    + intros a. rw Ha exists_elem_cons Hk. naive_solver.
Qed.

(** The applicable records, as the storage layer filters them. *)
Lemma applies_spec p now t :
  applies p now t ↔
  is_active t now ∧
  (taint_path t = p ∨ propagate t ∧ ∃ rest, p = boundary_prefix (taint_path t) +:+ rest).
Proof. unfold applies. by rw andb_True orb_True andb_True bool_decide_spec starts_with_spec. Qed.

Lemma List_filter_idem {A} (f : A → bool) l : List.filter f (List.filter f l) = List.filter f l.
Proof.
  induction l as [|x l IH]; [done|]; simpl. destruct (f x) eqn:E; [|done].
  simpl. by rw E IH.
Qed.

(** The check, field by field. *)
Lemma evaluate_access_fields p agent conf cands now :
  let l := ancestor_candidates p cands now in
  let c := evaluate_access p agent conf cands now in
  let req := if existsb needs_review l then REVIEW_CONFIDENCE_THRESHOLD else f64_zero in
  can_write c = negb (existsb (blocks agent) l) && negb (f64_ltb conf req) ∧
  required_confidence c = req ∧
  taints c = List.filter (λ t, bool_decide (kind t = KTaint)) l ∧
  quarantines c = List.filter (λ t, bool_decide (kind t = KQuarantine)) l ∧
  watches c = List.filter (λ t, bool_decide (kind t = KWatch)) l ∧
  (∀ a, a ∈ check_agents c ↔ ∃ t, t ∈ l ∧ kind t = KQuarantine ∧ a ∈ authorized_agents t).
Proof.
  intros l c req. destruct (check_loop agent l check_clear) as (Hw & Hr & Ht & Hq & Hwa & Ha).
  specialize (Hr (or_introl eq_refl)). unfold c, evaluate_access. fold l.
  set (out := fold_left _ _ _) in *. simpl in *.
  assert (required_confidence out = req) as Hreq by done.
  assert (∀ a, a ∈ check_agents out ↔
    ∃ t, t ∈ l ∧ kind t = KQuarantine ∧ a ∈ authorized_agents t) as Ha' by (intros a; rw Ha; set_solver).
  rw Hreq. destruct (can_write out) eqn:Hc, (f64_ltb conf req); simpl; rw -?Hw ?Hc; split_and!; done.
Qed.

(** ** Properties *)

(** A write is allowed exactly when no applicable taint blocks, every
    applicable quarantine authorises the agent, and the confidence is not
    below the threshold in force: 0.9 when a review taint applies and 0.0
    otherwise (so a NaN confidence passes a review taint, and a negative one
    is refused on a path without any taint). *)
Theorem evaluate_access_can_write p agent conf cands now :
  can_write (evaluate_access p agent conf cands now) ↔
  (∀ t, t ∈ cands → applies p now t → ¬ blocks agent t) ∧
  ¬ f64_ltb conf (if existsb needs_review (ancestor_candidates p cands now)
                  then REVIEW_CONFIDENCE_THRESHOLD else f64_zero).
Proof.
  destruct (evaluate_access_fields p agent conf cands now) as (-> & _). rw andb_True. f_equiv.
  - unfold ancestor_candidates. rw Is_true_true negb_true_iff.
    rw -not_true_iff_false existsb_exists. setoid_rewrite filter_In. split.
    + intros H t Hin Ha Hb. apply H. exists t. rw -list_elem_of_In.
      split_and!; [done|by apply Is_true_true..].
    + intros H (t & [Hin%list_elem_of_In Ha] & Hb). apply (H t); [done|by apply Is_true_true..].
  - by rw negb_True.
Qed.

(** The check reports every applicable record under its kind, and the
    allowlist it shows is the union over the applicable quarantines. *)
Theorem evaluate_access_reports p agent conf cands now :
  let c := evaluate_access p agent conf cands now in
  (∀ t, t ∈ taints c ↔ t ∈ cands ∧ applies p now t ∧ kind t = KTaint) ∧
  (∀ t, t ∈ quarantines c ↔ t ∈ cands ∧ applies p now t ∧ kind t = KQuarantine) ∧
  (∀ t, t ∈ watches c ↔ t ∈ cands ∧ applies p now t ∧ kind t = KWatch) ∧
  (∀ a, a ∈ check_agents c ↔ ∃ t, t ∈ cands ∧ applies p now t ∧ kind t = KQuarantine ∧
     a ∈ authorized_agents t).
Proof.
  intros c. destruct (evaluate_access_fields p agent conf cands now) as (_ & _ & Ht & Hq & Hw & Ha).
  fold c in Ht, Hq, Hw, Ha.
  assert (∀ K t, t ∈ List.filter (λ t, bool_decide (kind t = K)) (ancestor_candidates p cands now)
    ↔ t ∈ cands ∧ applies p now t ∧ kind t = K) as Hf.
  { intros K t. unfold ancestor_candidates. rw !list_elem_of_In !filter_In.
    rw bool_decide_eq_true Is_true_true. tauto. }
  rw Ht Hq Hw. split_and!; [apply Hf..|].
  intros a. rw Ha. unfold ancestor_candidates. setoid_rewrite elem_of_List_filter. set_solver.
Qed.
