(* ===== verification/Stores.v ===== *)
(** * Stores: the storage interface

    Models the part of [agentstategraph-storage/src/traits.rs] the rest of the
    program is written against: the error type, the content-addressed object
    store as a class with its laws, and the default commit walk. *)
From S2P Require Import Prelude Objects Json Intents Commits.

(** ** Errors *)

Inductive StorageError : Type :=
  | ObjectNotFound (s : string)
  | CommitNotFound (s : string)
  | RefNotFound (s : string)
  | NamespaceNotFound (s : string)
  | NamespaceAlreadyExists (s : string)
  | CasConflict (name expected actual : string)
  | DuplicateRef (s : string)
  | Backend (s : string)
  | Serialization (s : string)
  | EpochAlreadySealed (id : string)
  | SessionEnded (id : string)
  | InvalidOperation (s : string)
  | SchemaTooNew (backend : string) (found compatible_from supported : Z).

#[export] Instance StorageError_eq_dec : EqDecision StorageError.
Proof. solve_decision. Defined.

Definition storage_error_code (e : StorageError) : string :=
  match e with
  | ObjectNotFound _ => "object_not_found"
  | CommitNotFound _ => "commit_not_found"
  | RefNotFound _ => "ref_not_found"
  | NamespaceNotFound _ => "namespace_not_found"
  | NamespaceAlreadyExists _ => "namespace_already_exists"
  | CasConflict _ _ _ => "write_conflict"
  | DuplicateRef _ => "ref_already_exists"
  | Backend _ => "storage_error"
  | Serialization _ => "serialization_error"
  | EpochAlreadySealed _ => "epoch_sealed"
  | SessionEnded _ => "session_ended"
  | InvalidOperation _ => "invalid_operation"
  | SchemaTooNew _ _ _ _ => "schema_too_new"
  end.

(** ** Object stores *)

Section object_store.
Context `{CH : ContentHash}.

(** [trait ObjectStore] over a store state; a store is shared and mutable, so
    [put_object] passes the state on. *)
Class ObjectStore (S : Type) := {
  get_object : S → ObjectId → result StorageError (option Object);
  put_object : Object → stateful S StorageError ObjectId;
  has_object : S → ObjectId → result StorageError bool;
}.

(** What every store promises, through the map it holds: a read that succeeds
    is of that map, and a successful write files the object under its address
    unless something is filed there already. Any operation may fail. *)
Class ObjectStoreLaws (S : Type) `{ObjectStore S} := {
  contents : S → gmap ObjectId Object;
  get_object_law s i r : get_object s i = Ok r → r = contents s !! i;
  put_object_law s o i s' :
    put_object o s = (Ok i, s') →
    i = oid_of o ∧ contents s' = contents s ∪ {[ oid_of o := o ]};
  put_object_err s o e s' : put_object o s = (Err e, s') → contents s' = contents s;
  has_object_law s i b : has_object s i = Ok b → b = bool_decide (is_Some (contents s !! i));
}.

(** A store whose reads and writes never fail, as an in-memory one. *)
Class Reliable (S : Type) `{ObjectStoreLaws S} : Prop := {
  get_total s i : get_object s i = Ok (contents s !! i);
  put_total o s : ∃ s', put_object o s = (Ok (oid_of o), s');
  has_total s i : has_object s i = Ok (bool_decide (is_Some (contents s !! i)));
}.

(** A content-addressed map: everything under its own address. *)
Definition addressed (m : gmap ObjectId Object) : Prop :=
  ∀ i o, m !! i = Some o → oid_of o = i ∧ finite o.

Context `{CF : !CollisionFree}.

(** Storing in an addressed map: the object is there afterwards, whatever was
    there stays, and the map is still addressed. *)
Lemma addressed_put m o :
  addressed m → finite o →
  addressed (m ∪ {[ oid_of o := o ]}) ∧ (m ∪ {[ oid_of o := o ]}) !! oid_of o = Some o ∧
  m ⊆ m ∪ {[ oid_of o := o ]}.
Proof.
  intros Hm Ho. split_and!.
  - intros i o'. rw lookup_union_Some_raw lookup_singleton_Some.
    intros [?|[_ [<- <-]]]; [by apply Hm|done].
  - rw lookup_union_Some_raw lookup_singleton_Some.
    destruct (m !! oid_of o) as [o'|] eqn:E; [|naive_solver].
    left. f_equal. destruct (Hm _ _ E). by apply collision_free.
  - apply map_union_subseteq_l.
Qed.
End object_store.

Arguments ObjectStoreLaws {_} S {_}.
Arguments Reliable {_} S {_ _}.

(** ** The default commit walk *)

Record CommitWalk := {
  walk_commits : list Commit;
  truncated : bool;
}.

(** The loop of [list_commits_dag]: [seen] and [frontier] as the code keeps
    them, [acc] the commits so far. Every turn pops the frontier. *)
Fixpoint walk_loop (fuel : nat) (get : ObjectId → result StorageError (option Commit))
    (limit : nat) (seen : gset ObjectId) (frontier : list ObjectId) (acc : list Commit) :
    result (stop StorageError) CommitWalk :=
  match fuel with
  | 0 => Err OutOfFuel
  | S fuel' =>
      match frontier with
      | [] => Ok {| walk_commits := acc; truncated := false |}
      | id :: frontier' =>
          if decide (limit ≤ length acc) then Ok {| walk_commits := acc; truncated := true |}
          else if decide (id ∈ seen) then walk_loop fuel' get limit seen frontier' acc
          else
            let seen' := {[ id ]} ∪ seen in
            match get id with
            | Err e => Err (Fail e)
            | Ok (Some commit) =>
                walk_loop fuel' get limit seen'
                  (frontier' ++ filter (λ p, p ∉ seen') (parents commit)) (acc ++ [commit])
            | Ok None => walk_loop fuel' get limit seen' frontier' acc
            end
      end
  end.

Definition list_commits_dag (fuel : nat) (get : ObjectId → result StorageError (option Commit))
    (from : ObjectId) (limit : nat) : result (stop StorageError) CommitWalk :=
  walk_loop fuel get limit ∅ [from] [].

(** The first-parent walk of [list_commits]. *)
Fixpoint list_commits (get : ObjectId → option Commit) (current : option ObjectId) (limit : nat) :
    list Commit :=
  match limit, current with
  | 0, _ | _, None => []
  | S limit', Some id =>
      match get id with
      | Some commit => commit :: list_commits get (head (parents commit)) limit'
      | None => []
      end
  end.

(** ** Reachability in a commit graph *)

Definition parent_edge (m : gmap ObjectId Commit) (i j : ObjectId) : Prop :=
  ∃ c, m !! i = Some c ∧ j ∈ parents c.

(** [j] is [i] or an ancestor of it, through commits [m] holds. *)
Definition ancestor_of (m : gmap ObjectId Commit) : ObjectId → ObjectId → Prop :=
  rtc (parent_edge m).

(** Every commit is stored under its own id. *)
Definition keyed (m : gmap ObjectId Commit) : Prop := ∀ i c, m !! i = Some c → commit_id c = i.

(** The parent slots of the commits not in [seen]. *)
Definition open_slots : gmap ObjectId Commit → gset ObjectId → nat :=
  weight (λ c, length (parents c)).

(** Pops of the walk: the start and every parent slot at most once. *)
Definition walk_fuel (m : gmap ObjectId Commit) : nat := S (S (open_slots m ∅)).

Section walk.
Context (m : gmap ObjectId Commit) (from : ObjectId) (limit : nat).
Context (Hm : keyed m).

Record walk_inv (seen : gset ObjectId) (frontier : list ObjectId) (acc : list Commit) : Prop := {
  wi_acc : ∀ c, c ∈ acc → m !! commit_id c = Some c ∧ commit_id c ∈ seen;
  wi_nodup : NoDup (commit_id <$> acc);
  wi_reach : ∀ i, i ∈ seen ∨ i ∈ frontier → ancestor_of m from i;
  wi_from : from ∈ seen ∨ from ∈ frontier;
  wi_closed : ∀ i c, i ∈ seen → m !! i = Some c →
    c ∈ acc ∧ ∀ p, p ∈ parents c → p ∈ seen ∨ p ∈ frontier;
  wi_limit : length acc ≤ limit;
}.

Lemma walk_inv_skip seen i frontier acc :
  i ∈ seen ∨ m !! i = None → walk_inv seen (i :: frontier) acc →
  walk_inv ({[i]} ∪ seen) frontier acc.
Proof.
  intros Hi [Ha Hn Hr Hf Hc Hl]. split; [|done| | | |done].
  - intros c Hin. destruct (Ha c Hin). set_solver.
  - set_solver.
  - set_solver.
  - intros j c Hj Hjc. assert (j ∈ seen) as Hs.
    { destruct Hi; [set_solver|]. apply elem_of_union in Hj as [Hj|]; [|done].
      set_solver. }
    destruct (Hc j c Hs Hjc) as [? Hp]. split; [done|]. intros p Hpp.
    specialize (Hp p Hpp). set_solver.
Qed.

Lemma walk_inv_visit seen i frontier acc c :
  m !! i = Some c → i ∉ seen → length acc < limit → walk_inv seen (i :: frontier) acc →
  walk_inv ({[i]} ∪ seen)
    (frontier ++ filter (λ p, p ∉ {[i]} ∪ seen) (parents c)) (acc ++ [c]).
Proof.
  intros Hi Hs Hlim [Ha Hn Hr Hf Hc Hl]. pose proof (Hm _ _ Hi) as Hid. split.
  - intros c' [Hin| ->%list_elem_of_singleton]%elem_of_app; [|rw Hid; set_solver].
    destruct (Ha c' Hin). set_solver.
  - rw fmap_app. apply NoDup_app. split_and!; [done| |apply NoDup_singleton].
    intros x (c' & -> & Hin)%list_elem_of_fmap. csimpl. rw list_elem_of_singleton Hid.
    intros <-. by destruct (Ha c' Hin).
  - intros j Hj. assert (ancestor_of m from i) as Hri by (apply Hr; set_solver).
    rewrite elem_of_app list_elem_of_filter in Hj.
    destruct Hj as [Hj|[Hj|[_ Hj]]]; [set_solver..|].
    eapply rtc_r; [done|]. by exists c.
  - set_solver.
  - intros j c' Hj Hjc. destruct (decide (i = j)) as [<-|Hji].
    + assert (c' = c) as -> by congruence. split; [set_solver|]. intros p Hp.
      destruct (decide (p ∈ {[i]} ∪ seen)); [by left|right].
      apply elem_of_app. right. by apply list_elem_of_filter.
    + destruct (Hc j c') as [? Hp]; [set_solver|done|]. split; [set_solver|].
      intros p Hpp. specialize (Hp p Hpp). set_solver.
  - rw length_app /=. lia.
Qed.

Lemma walk_loop_spec fuel seen frontier acc :
  length frontier + open_slots m seen < fuel → walk_inv seen frontier acc →
  ∃ w seen' frontier', walk_loop fuel (λ i, Ok (m !! i)) limit seen frontier acc = Ok w ∧
    walk_inv seen' frontier' (walk_commits w) ∧
    (truncated w = false → frontier' = []) ∧
    (truncated w → length (walk_commits w) = limit).
Proof.
  revert seen frontier acc. induction fuel as [|fuel IH]; [lia|].
  intros seen [|i frontier] acc Hf Hinv; simpl in *.
  { by eexists _, seen, []. }
  pose proof (wi_limit _ _ _ Hinv) as Hl.
  case_decide as Hlim.
  { eexists _, seen, (i :: frontier). split_and!; [done|done|done|]. simpl. intros _. lia. }
  case_decide as Hs.
  { apply IH; [lia|]. replace seen with ({[i]} ∪ seen) by set_solver.
    apply walk_inv_skip; [by left|done]. }
  destruct (m !! i) as [c|] eqn:Hi.
  - apply IH; [|apply walk_inv_visit; [done..|lia|done]].
    unfold open_slots in *. rewrite (weight_seen _ m seen i c) //= in Hf.
    rw length_app. pose proof (length_filter (λ p, p ∉ {[i]} ∪ seen) (parents c)). lia.
  - apply IH; [unfold open_slots in *; rw weight_skip //; lia|]. apply walk_inv_skip; [by right|done].
Qed.
End walk.

Lemma list_commits_dag_ok m from limit :
  keyed m →
  ∃ w, list_commits_dag (walk_fuel m) (λ i, Ok (m !! i)) from limit = Ok w ∧
    NoDup (commit_id <$> walk_commits w) ∧ length (walk_commits w) ≤ limit ∧
    (∀ c, c ∈ walk_commits w → m !! commit_id c = Some c ∧ ancestor_of m from (commit_id c)) ∧
    (truncated w = false → ∀ i c, ancestor_of m from i → m !! i = Some c →
       c ∈ walk_commits w) ∧
    (truncated w → length (walk_commits w) = limit).
Proof.
  intros Hm.
  destruct (walk_loop_spec m from limit Hm (walk_fuel m) ∅ [from] [])
    as (w & seen & frontier & Hw & [Ha Hn Hr Hf Hc Hl] & Ht & Htr).
  { unfold walk_fuel. simpl. lia. }
  { split; try done; [by intros ? ?%elem_of_nil|constructor|set_solver|set_solver|simpl; lia]. }
  exists w. split_and!; [done..| | |done].
  - intros c Hin. destruct (Ha c Hin). split; [done|]. apply Hr. by left.
  - intros ->%Ht.
    assert (∀ i, ancestor_of m from i → i ∈ seen) as Hs; [|naive_solver].
    apply rtc_ind_r; [set_solver|]. intros i j _ (c' & Hc' & Hp) IH.
    destruct (Hc _ _ IH Hc') as [_ Hcl]. specialize (Hcl _ Hp). set_solver.
Qed.

(** ** Properties *)

(** C40: the full-graph walk terminates on any commit graph (cycles included)
    after one pop per parent slot, lists each commit once, only ancestors of
    the start and at most [limit] of them; when it does not report truncation
    it lists every ancestor the store holds, and when it does it has listed
    exactly [limit] commits. *)
Theorem list_commits_dag_spec m from limit :
  keyed m →
  ∃ w, list_commits_dag (walk_fuel m) (λ i, Ok (m !! i)) from limit = Ok w ∧
    NoDup (commit_id <$> walk_commits w) ∧ length (walk_commits w) ≤ limit ∧
    (∀ c, c ∈ walk_commits w → m !! commit_id c = Some c ∧ ancestor_of m from (commit_id c)) ∧
    (truncated w = false → ∀ i c, ancestor_of m from i → m !! i = Some c →
       c ∈ walk_commits w) ∧
    (truncated w → length (walk_commits w) = limit).
Proof. apply list_commits_dag_ok. Qed.

(** A diamond: two branches from [base] merged at [tip]. *)
Definition diamond : gmap ObjectId Commit :=
  let c id ps := (Oid id, sample_commit (Oid id) (Oid "root") (Oid <$> ps)) in
  list_to_map [c "base" []; c "left" ["base"]; c "right" ["base"]; c "tip" ["left"; "right"]].

Lemma keyed_list (l : list Commit) :
  NoDup (commit_id <$> l) →
  keyed (list_to_map ((λ c, (commit_id c, c)) <$> l)).
Proof.
  intros _ i c H%elem_of_list_to_map_2%list_elem_of_fmap.
  by destruct H as (c' & [= -> ->] & _).
Qed.

Lemma list_commits_dag_spec_witness :
  ∃ w, list_commits_dag (walk_fuel diamond) (λ i, Ok (diamond !! i)) (Oid "tip") 10 = Ok w ∧
    NoDup (commit_id <$> walk_commits w).
Proof.
  destruct (list_commits_dag_spec diamond (Oid "tip") 10) as (w & H & Hn & _); [|eauto].
  intros i c H%elem_of_list_to_map_2. set_unfold. by destruct_or!; simplify_eq.
Defined.

(** The [truncated] flag may be raised on a complete walk: when the limit
    is the number of commits and a merge base was queued from both sides, the
    leftover duplicate counts as an unexplored parent. *)
Theorem list_commits_dag_false_truncation :
  ∃ m from limit w, keyed m ∧
    list_commits_dag (walk_fuel m) (λ i, Ok (m !! i)) from limit = Ok w ∧
    truncated w = true ∧ (∀ i c, m !! i = Some c → c ∈ walk_commits w).
Proof.
  exists diamond, (Oid "tip"), 4. eexists. split_and!.
  - intros i c H%elem_of_list_to_map_2. set_unfold. by destruct_or!; simplify_eq.
  - by vm_compute.
  - done.
  - intros i c H%elem_of_list_to_map_2. set_unfold.
    destruct_or!; simplify_eq; vm_compute; tauto.
Qed.
