(* ===== verification/Memory.v ===== *)
(** * Memory: the in-memory storage backend

    Models [agentstategraph-storage/src/memory.rs]: the whole state of
    [MemoryStorage] and each operation of its object, commit, ref, epoch,
    session and taint stores, as state-passing functions. Locks cannot be
    poisoned in the model, so the object and commit operations do not fail. An
    operation is one step, also where the code looks at the namespaces under one
    lock and at the refs under another. *)
From S2P Require Import Prelude Objects Json Intents Sessions Commits Epochs Taints Stores.

Record CommitTrace := { trace_id : string; span_id : string }.

Record MemoryStorage := {
  objects : gmap ObjectId Object;
  commits : gmap ObjectId Commit;
  refs : gmap (string * string) ObjectId;
  namespaces : gset string;
  epochs : list Epoch;
  sessions : gmap string Session;
  commit_epoch : list (ObjectId * string);
  commit_session : list (ObjectId * string);
  commit_traces : gmap ObjectId CommitTrace;
  mem_taints : list Taint;
}.

Definition mem_new : MemoryStorage := {|
  objects := ∅; commits := ∅; refs := ∅; namespaces := {[ DEFAULT_NAMESPACE ]};
  epochs := []; sessions := ∅; commit_epoch := []; commit_session := [];
  commit_traces := ∅; mem_taints := [] |}.

(** Field updates. *)
Definition set_objects (s : MemoryStorage) x := {|
  objects := x; commits := commits s; refs := refs s; namespaces := namespaces s;
  epochs := epochs s; sessions := sessions s; commit_epoch := commit_epoch s;
  commit_session := commit_session s; commit_traces := commit_traces s;
  mem_taints := mem_taints s |}.
Definition set_commits (s : MemoryStorage) x := {|
  objects := objects s; commits := x; refs := refs s; namespaces := namespaces s;
  epochs := epochs s; sessions := sessions s; commit_epoch := commit_epoch s;
  commit_session := commit_session s; commit_traces := commit_traces s;
  mem_taints := mem_taints s |}.
Definition set_refs (s : MemoryStorage) x := {|
  objects := objects s; commits := commits s; refs := x; namespaces := namespaces s;
  epochs := epochs s; sessions := sessions s; commit_epoch := commit_epoch s;
  commit_session := commit_session s; commit_traces := commit_traces s;
  mem_taints := mem_taints s |}.
Definition set_namespaces (s : MemoryStorage) x := {|
  objects := objects s; commits := commits s; refs := refs s; namespaces := x;
  epochs := epochs s; sessions := sessions s; commit_epoch := commit_epoch s;
  commit_session := commit_session s; commit_traces := commit_traces s;
  mem_taints := mem_taints s |}.
Definition set_epochs (s : MemoryStorage) x := {|
  objects := objects s; commits := commits s; refs := refs s; namespaces := namespaces s;
  epochs := x; sessions := sessions s; commit_epoch := commit_epoch s;
  commit_session := commit_session s; commit_traces := commit_traces s;
  mem_taints := mem_taints s |}.
Definition set_sessions (s : MemoryStorage) x := {|
  objects := objects s; commits := commits s; refs := refs s; namespaces := namespaces s;
  epochs := epochs s; sessions := x; commit_epoch := commit_epoch s;
  commit_session := commit_session s; commit_traces := commit_traces s;
  mem_taints := mem_taints s |}.
Definition set_commit_epochs (s : MemoryStorage) x := {|
  objects := objects s; commits := commits s; refs := refs s; namespaces := namespaces s;
  epochs := epochs s; sessions := sessions s; commit_epoch := x;
  commit_session := commit_session s; commit_traces := commit_traces s;
  mem_taints := mem_taints s |}.
Definition set_commit_sessions (s : MemoryStorage) x := {|
  objects := objects s; commits := commits s; refs := refs s; namespaces := namespaces s;
  epochs := epochs s; sessions := sessions s; commit_epoch := commit_epoch s;
  commit_session := x; commit_traces := commit_traces s; mem_taints := mem_taints s |}.
Definition set_traces (s : MemoryStorage) x := {|
  objects := objects s; commits := commits s; refs := refs s; namespaces := namespaces s;
  epochs := epochs s; sessions := sessions s; commit_epoch := commit_epoch s;
  commit_session := commit_session s; commit_traces := x; mem_taints := mem_taints s |}.
Definition set_taints (s : MemoryStorage) x := {|
  objects := objects s; commits := commits s; refs := refs s; namespaces := namespaces s;
  epochs := epochs s; sessions := sessions s; commit_epoch := commit_epoch s;
  commit_session := commit_session s; commit_traces := commit_traces s; mem_taints := x |}.

(** ** Objects and commits *)

Section memory.
Context `{CH : ContentHash}.

Definition mem_get_object (s : MemoryStorage) (id : ObjectId) :
    result StorageError (option Object) := Ok (objects s !! id).

(** [store.entry(id).or_insert_with(..)]. *)
Definition mem_put_object (o : Object) : stateful MemoryStorage StorageError ObjectId := λ s,
  let id := oid_of o in
  match objects s !! id with
  | Some _ => (Ok id, s)
  | None => (Ok id, set_objects s (<[id:=o]> (objects s)))
  end.

Definition mem_has_object (s : MemoryStorage) (id : ObjectId) : result StorageError bool :=
  Ok (bool_decide (is_Some (objects s !! id))).

#[export] Instance memory_object_store : ObjectStore MemoryStorage := {|
  get_object := mem_get_object;
  put_object := mem_put_object;
  has_object := mem_has_object;
|}.

#[export] Program Instance memory_object_laws : ObjectStoreLaws MemoryStorage := {|
  contents := objects;
|}.
Next Obligation. by intros s i r [= <-]. Qed.
Next Obligation.
  intros s o i s'. simpl. unfold mem_put_object.
  destruct (objects s !! oid_of o) as [o'|] eqn:E; intros [= <- <-]; (split; [done|]); simpl.
  - apply map_eq. intros j. apply option_eq. intros x.
    rw lookup_union_Some_raw lookup_singleton_Some. naive_solver.
  - by rw insert_union_singleton_r.
Qed.
Next Obligation.
  intros s o e s'. simpl. unfold mem_put_object. by destruct (objects s !! oid_of o).
Qed.
Next Obligation. by intros s i b [= <-]. Qed.

#[export] Instance memory_reliable : Reliable MemoryStorage.
Proof.
  split; [done| |done]. intros o s. simpl. unfold mem_put_object.
  destruct (objects s !! oid_of o); by eexists.
Qed.
End memory.

Definition get_commit (s : MemoryStorage) (id : ObjectId) : option Commit := commits s !! id.
Definition put_commit (s : MemoryStorage) (c : Commit) : MemoryStorage :=
  set_commits s (<[commit_id c := c]> (commits s)).
Definition has_commit (s : MemoryStorage) (id : ObjectId) : bool :=
  bool_decide (is_Some (commits s !! id)).
Definition all_commit_ids (s : MemoryStorage) : list ObjectId := (map_to_list (commits s)).*1.
Definition mem_list_commits (s : MemoryStorage) (from : ObjectId) (limit : nat) : list Commit :=
  list_commits (get_commit s) (Some from) limit.

Definition set_commit_trace (s : MemoryStorage) (id : ObjectId) (t : CommitTrace) :
    MemoryStorage :=
  match commit_traces s !! id with
  | Some _ => s
  | None => set_traces s (<[id:=t]> (commit_traces s))
  end.
Definition get_commit_trace (s : MemoryStorage) (id : ObjectId) : option CommitTrace :=
  commit_traces s !! id.

(** The object and commit counts of [store_totals]. *)
Definition store_totals (s : MemoryStorage) : Z * Z :=
  (Z.of_nat (size (objects s)), Z.of_nat (size (commits s))).

(** ** Refs *)

Definition require_namespace (s : MemoryStorage) (ns : Namespace) : result StorageError () :=
  if decide (ns_name ns ∈ namespaces s) then Ok () else Err (NamespaceNotFound (ns_name ns)).

Definition create_namespace (ns : Namespace) : stateful MemoryStorage StorageError () := λ s,
  if decide (ns_name ns ∈ namespaces s)
  then (Err (NamespaceAlreadyExists (ns_name ns)), s)
  else (Ok (), set_namespaces s ({[ ns_name ns ]} ∪ namespaces s)).

Definition list_namespaces (s : MemoryStorage) : list Namespace :=
  Ns <$> merge_sort String.le (elements (namespaces s)).

Definition get_ref (s : MemoryStorage) (ns : Namespace) (name : string) :
    result StorageError (option ObjectId) :=
  _ ← require_namespace s ns; Ok (refs s !! (ns_name ns, name)).

Definition set_ref (ns : Namespace) (name : string) (target : ObjectId) :
    stateful MemoryStorage StorageError () :=
  _ ← reading (λ s, require_namespace s ns);
  action (λ s, (Ok (), set_refs s (<[(ns_name ns, name) := target]> (refs s)))).

Definition cas_ref (ns : Namespace) (name : string) (expected new : ObjectId) :
    stateful MemoryStorage StorageError bool :=
  _ ← reading (λ s, require_namespace s ns);
  action (λ s, match refs s !! (ns_name ns, name) with
       | Some current =>
           if decide (current = expected)
           then (Ok true, set_refs s (<[(ns_name ns, name) := new]> (refs s)))
           else (Ok false, s)
       | None => (Ok false, s)
       end).

Definition create_ref (ns : Namespace) (name : string) (target : ObjectId) :
    stateful MemoryStorage StorageError bool :=
  _ ← reading (λ s, require_namespace s ns);
  action (λ s, match refs s !! (ns_name ns, name) with
       | Some _ => (Ok false, s)
       | None => (Ok true, set_refs s (<[(ns_name ns, name) := target]> (refs s)))
       end).

Definition cas_delete_ref (ns : Namespace) (name : string) (expected : ObjectId) :
    stateful MemoryStorage StorageError bool :=
  _ ← reading (λ s, require_namespace s ns);
  action (λ s, if decide (refs s !! (ns_name ns, name) = Some expected)
       then (Ok true, set_refs s (delete (ns_name ns, name) (refs s)))
       else (Ok false, s)).

(** The refs of a namespace by name. *)
Definition refs_of (s : MemoryStorage) (ns : string) : gmap string ObjectId :=
  list_to_map (omap (λ kv, if decide (kv.1.1 = ns) then Some (kv.1.2, kv.2) else None)
                    (map_to_list (refs s))).

Definition list_refs (s : MemoryStorage) (ns : Namespace) (prefix : string) :
    result StorageError (list (string * ObjectId)) :=
  _ ← require_namespace s ns;
  Ok (List.filter (λ kv, starts_with prefix kv.1) (entries (refs_of s (ns_name ns)))).

Definition delete_ref (ns : Namespace) (name : string) :
    stateful MemoryStorage StorageError bool :=
  _ ← reading (λ s, require_namespace s ns);
  action (λ s, (Ok (bool_decide (is_Some (refs s !! (ns_name ns, name)))),
        set_refs s (delete (ns_name ns, name) (refs s)))).

Definition delete_namespace (ns : Namespace) : stateful MemoryStorage StorageError bool := λ s,
  if decide (ns_name ns = DEFAULT_NAMESPACE)
  then (Err (InvalidOperation "cannot delete the 'default' namespace"), s)
  else if decide (ns_name ns ∈ namespaces s)
  then (Ok true,
        set_refs (set_namespaces s (namespaces s ∖ {[ ns_name ns ]}))
                 (filter (λ kv, kv.1.1 ≠ ns_name ns) (refs s)))
  else (Ok false, s).

(** ** Epochs *)

Definition epoch_is (id : string) (e : Epoch) : bool := bool_decide (epoch_id e = id).

Definition find_epoch (s : MemoryStorage) (id : string) : option Epoch :=
  List.find (epoch_is id) (epochs s).

Definition epoch_not_found (id : string) : StorageError := Backend ("epoch not found: " +:+ id).

Definition is_closed (e : Epoch) : bool :=
  bool_decide (epoch_status e = EpochSealed) || bool_decide (epoch_status e = EpochArchived).

Definition create_epoch (e : Epoch) : stateful MemoryStorage StorageError () := λ s,
  if existsb (epoch_is (epoch_id e)) (epochs s)
  then (Err (Backend ("epoch '" +:+ epoch_id e +:+ "' already exists")), s)
  else (Ok (), set_epochs s (epochs s ++ [e])).

(** Find the epoch, check it, and write it in place. *)
Definition update_epoch {A} (id : string)
    (f : Epoch → result StorageError (A * Epoch)) : stateful MemoryStorage StorageError A := λ s,
  match find_epoch s id with
  | None => (Err (epoch_not_found id), s)
  | Some e =>
      match f e with
      | Err err => (Err err, s)
      | Ok (a, e') => (Ok a, set_epochs s (update_first (epoch_is id) (λ _, e') (epochs s)))
      end
  end.

Definition mem_seal_epoch (id summary : string) (at_ : Time) (sealed : list ObjectId)
    (h : ObjectId) : stateful MemoryStorage StorageError () :=
  update_epoch id (λ e,
    if is_closed e then Err (EpochAlreadySealed id)
    else Ok ((), epoch_set_sealed_commits
                   (epoch_set_seal (epoch_set_status e EpochSealed) at_ summary h) sealed)).

Definition assign_epoch_namespace (id ns : string) : stateful MemoryStorage StorageError bool :=
  update_epoch id (λ e,
    match epoch_namespace e with
    | Some _ => Ok (false, e)
    | None => Ok (true, with_namespace e ns)
    end).

Definition mem_archive_epoch (id : string) : stateful MemoryStorage StorageError () :=
  update_epoch id (λ e,
    if negb (bool_decide (epoch_status e = EpochSealed))
    then Err (Backend ("epoch '" +:+ id +:+ "' is not sealed"))
    else Ok ((), epoch_set_status e EpochArchived)).

Definition newer_epoch (a b : Epoch) : Prop := (epoch_created_at b ≤ epoch_created_at a)%Z.
#[export] Instance newer_epoch_dec : RelDecision newer_epoch := λ a b, Z.le_dec _ _.

Definition list_epochs (s : MemoryStorage) : list Epoch := stable_sort newer_epoch (epochs s).

(** The commits tagged to an epoch, from the association list. *)
Definition tagged (s : MemoryStorage) (id : string) : list ObjectId :=
  (List.filter (λ ce, bool_decide (ce.2 = id)) (commit_epoch s)).*1.

Definition get_epoch (s : MemoryStorage) (id : string) : option Epoch :=
  e ← find_epoch s id; Some (epoch_set_work e (tagged s id) (epoch_agents e)).

(** [retain(|(c, _)| c != commit_id)], then [push]. *)
Definition associate (l : list (ObjectId * string)) (c : ObjectId) (id : string) :
    list (ObjectId * string) :=
  List.filter (λ ce, bool_decide (ce.1 ≠ c)) l ++ [(c, id)].

Definition set_commit_epoch (c : ObjectId) (id : string) :
    stateful MemoryStorage StorageError () := λ s,
  match find_epoch s id with
  | None => (Err (epoch_not_found id), s)
  | Some e =>
      if is_closed e then (Err (EpochAlreadySealed id), s)
      else (Ok (), set_commit_epochs s (associate (commit_epoch s) c id))
  end.

(** ** Sessions *)

Definition session_not_found (id : string) : StorageError :=
  Backend ("session not found: " +:+ id).

Definition create_session (x : Session) (s : MemoryStorage) : MemoryStorage :=
  set_sessions s (<[session_id x := x]> (sessions s)).

Definition end_session (id : string) (st : SessionStatus) (at_ : Time) :
    stateful MemoryStorage StorageError () := λ s,
  match sessions s !! id with
  | None => (Err (session_not_found id), s)
  | Some x =>
      if negb (bool_decide (session_status x = SessionActive)) then (Err (SessionEnded id), s)
      else (Ok (), set_sessions s (<[id := session_end x st at_]> (sessions s)))
  end.

(** In the iteration order of a [HashMap], which is unspecified. *)
Definition list_sessions (s : MemoryStorage) (agent_filter : option string) : list Session :=
  List.filter (λ x, match agent_filter with
                    | Some f => bool_decide (session_agent x = f) | None => true end)
    (map_to_list (sessions s)).*2.

Definition get_session (s : MemoryStorage) (id : string) : option Session := sessions s !! id.

Definition set_commit_session (c : ObjectId) (id : string) :
    stateful MemoryStorage StorageError () := λ s,
  match sessions s !! id with
  | None => (Err (session_not_found id), s)
  | Some x =>
      if negb (bool_decide (session_status x = SessionActive)) then (Err (SessionEnded id), s)
      else (Ok (), set_commit_sessions s (associate (commit_session s) c id))
  end.

(** ** Taints *)

Definition same_taint (a b : Taint) : bool :=
  bool_decide (taint_path a = taint_path b) && bool_decide (taint_name a = taint_name b)
  && bool_decide (kind a = kind b).

Definition unresolved (t : Taint) : bool :=
  match resolved_at t with None => true | Some _ => false end.

(** [kind_debug] is the [Debug] form the error message embeds. *)
Definition kind_debug (k : TaintKind) : string :=
  match k with KTaint => "Taint" | KQuarantine => "Quarantine" | KWatch => "Watch" end.

Definition create_taint (t : Taint) : stateful MemoryStorage StorageError () := λ s,
  if existsb (λ e, unresolved e && same_taint e t) (mem_taints s)
  then (Err (Backend ("duplicate active taint (" +:+ taint_path t +:+ ", " +:+ taint_name t
                      +:+ ", " +:+ kind_debug (kind t) +:+ ")")), s)
  else (Ok (), set_taints s (mem_taints s ++ [t])).

Definition taint_is (id : string) (t : Taint) : bool := bool_decide (taint_id t = id).

Definition taint_resolve (t : Taint) (by_ reason : string) (proof : option string) (at_ : Time) :
    Taint := {|
  taint_id := taint_id t; taint_path := taint_path t; taint_name := taint_name t;
  kind := kind t; effect := effect t; severity := severity t; taint_reason := taint_reason t;
  taint_agent := taint_agent t; taint_commit_id := taint_commit_id t;
  taint_created_at := taint_created_at t; expires_at := expires_at t;
  resolved_at := Some at_; resolved_by := Some by_; resolved_reason := Some reason;
  resolved_proof := proof; propagate := propagate t; metadata := metadata t |}.

Definition taint_set_commit (t : Taint) (c : string) : Taint := {|
  taint_id := taint_id t; taint_path := taint_path t; taint_name := taint_name t;
  kind := kind t; effect := effect t; severity := severity t; taint_reason := taint_reason t;
  taint_agent := taint_agent t; taint_commit_id := c;
  taint_created_at := taint_created_at t; expires_at := expires_at t;
  resolved_at := resolved_at t; resolved_by := resolved_by t;
  resolved_reason := resolved_reason t; resolved_proof := resolved_proof t;
  propagate := propagate t; metadata := metadata t |}.

Definition resolve_taint (id by_ reason : string) (proof : option string) (at_ : Time) :
    stateful MemoryStorage StorageError () := λ s,
  match List.find (taint_is id) (mem_taints s) with
  | None => (Err (Backend ("taint " +:+ id +:+ " not found")), s)
  | Some t =>
      if negb (unresolved t) then (Err (Backend ("taint " +:+ id +:+ " is already resolved")), s)
      else (Ok (), set_taints s
              (update_first (taint_is id) (λ t, taint_resolve t by_ reason proof at_)
                 (mem_taints s)))
  end.

(** [s.trim_end_matches('/')]. *)
Fixpoint trim_end_slashes (s : string) : string :=
  match s with
  | EmptyString => EmptyString
  | String c s' =>
      match trim_end_slashes s' with
      | EmptyString => if decide (c = "/"%char) then EmptyString else String c EmptyString
      | r => String c r
      end
  end.

Definition newer_taint (a b : Taint) : Prop := (taint_created_at b ≤ taint_created_at a)%Z.
#[export] Instance newer_taint_dec : RelDecision newer_taint := λ a b, Z.le_dec _ _.

Definition list_taints (s : MemoryStorage) (path_prefix : option string)
    (k : option TaintKind) (include_resolved : bool) : list Taint :=
  stable_sort newer_taint (List.filter (λ t,
    (include_resolved || unresolved t)
    && match path_prefix with
       | None => true
       | Some p => bool_decide (taint_path t = p)
                   || starts_with (trim_end_slashes p +:+ "/") (taint_path t)
       end
    && match k with None => true | Some k => bool_decide (k = kind t) end) (mem_taints s)).

Definition check_taint (s : MemoryStorage) (request_path : string) (now : Time) : list Taint :=
  List.filter (applies request_path now) (mem_taints s).

Definition get_taint (s : MemoryStorage) (id : string) : option Taint :=
  List.find (taint_is id) (mem_taints s).

Definition set_taint_commit_id (id c : string) : stateful MemoryStorage StorageError () := λ s,
  match List.find (taint_is id) (mem_taints s) with
  | None => (Err (Backend ("taint " +:+ id +:+ " not found")), s)
  | Some _ => (Ok (), set_taints s
      (update_first (taint_is id) (λ t, taint_set_commit t c) (mem_taints s)))
  end.

(** ** Session manager

    [agentstategraph/src/session.rs]: a thin wrapper over the session store. *)
Inductive SessionError : Type :=
  | SessionNotFound (id : string)
  | OutOfScope (path scope : string)
  | SessionStorage (e : StorageError).

Definition manager_create (id agent branch : string) (head : ObjectId)
    (params : CreateSessionParams) (now : Time) : stateful MemoryStorage SessionError Session := λ s,
  let session := make_session id agent branch head params now in
  (Ok session, create_session session s).

Definition manager_update_head (id : string) (head : ObjectId) :
    stateful MemoryStorage SessionError () := λ s,
  match get_session s id with
  | None => (Err (SessionNotFound id), s)
  | Some x => (Ok (), create_session (session_with_head x head) s)
  end.

Definition manager_children (s : MemoryStorage) (parent_id : string) : list Session :=
  List.filter (λ x, bool_decide (parent_session x = Some parent_id)) (list_sessions s None).

Definition manager_end (id : string) (st : SessionStatus) (now : Time) :
    stateful MemoryStorage SessionError () := map_err_st SessionStorage (end_session id st now).

Definition manager_count (s : MemoryStorage) : nat := length (list_sessions s None).

(** ** Runs

    One constructor per operation that writes; a failed operation leaves the
    state it reached. *)
Inductive MemOp : Type :=
  | PutObject (o : Object)
  | PutCommit (c : Commit)
  | SetCommitTrace (c : ObjectId) (t : CommitTrace)
  | CreateNamespace (ns : Namespace)
  | SetRef (ns : Namespace) (name : string) (target : ObjectId)
  | CasRef (ns : Namespace) (name : string) (expected new : ObjectId)
  | CreateRef (ns : Namespace) (name : string) (target : ObjectId)
  | CasDeleteRef (ns : Namespace) (name : string) (expected : ObjectId)
  | DeleteRef (ns : Namespace) (name : string)
  | DeleteNamespace (ns : Namespace)
  | CreateEpoch (e : Epoch)
  | SealEpoch (id summary : string) (at_ : Time) (sealed : list ObjectId) (h : ObjectId)
  | AssignEpochNamespace (id ns : string)
  | ArchiveEpoch (id : string)
  | SetCommitEpoch (c : ObjectId) (id : string)
  | CreateSession (x : Session)
  | EndSession (id : string) (st : SessionStatus) (at_ : Time)
  | SetCommitSession (c : ObjectId) (id : string)
  | CreateTaint (t : Taint)
  | ResolveTaint (id by_ reason : string) (proof : option string) (at_ : Time)
  | SetTaintCommitId (id c : string).

Section runs.
Context `{CH : ContentHash}.

Definition mem_apply (s : MemoryStorage) (op : MemOp) : MemoryStorage :=
  match op with
  | PutObject o => (mem_put_object o s).2
  | PutCommit c => put_commit s c
  | SetCommitTrace c t => set_commit_trace s c t
  | CreateNamespace ns => (create_namespace ns s).2
  | SetRef ns name t => (set_ref ns name t s).2
  | CasRef ns name e n => (cas_ref ns name e n s).2
  | CreateRef ns name t => (create_ref ns name t s).2
  | CasDeleteRef ns name e => (cas_delete_ref ns name e s).2
  | DeleteRef ns name => (delete_ref ns name s).2
  | DeleteNamespace ns => (delete_namespace ns s).2
  | CreateEpoch e => (create_epoch e s).2
  | SealEpoch id su at_ cs h => (mem_seal_epoch id su at_ cs h s).2
  | AssignEpochNamespace id ns => (assign_epoch_namespace id ns s).2
  | ArchiveEpoch id => (mem_archive_epoch id s).2
  | SetCommitEpoch c id => (set_commit_epoch c id s).2
  | CreateSession x => create_session x s
  | EndSession id st at_ => (end_session id st at_ s).2
  | SetCommitSession c id => (set_commit_session c id s).2
  | CreateTaint t => (create_taint t s).2
  | ResolveTaint id b r p at_ => (resolve_taint id b r p at_ s).2
  | SetTaintCommitId id c => (set_taint_commit_id id c s).2
  end.

Definition mem_run (s : MemoryStorage) (ops : list MemOp) : MemoryStorage :=
  fold_left mem_apply ops s.
End runs.

(** What identifies a taint among the unresolved ones. *)
Definition taint_key (t : Taint) : string * string * TaintKind :=
  (taint_path t, taint_name t, kind t).

(** The invariant of the backend. *)
Record mem_inv (s : MemoryStorage) : Prop := {
  inv_default : DEFAULT_NAMESPACE ∈ namespaces s;
  inv_refs : ∀ ns name, is_Some (refs s !! (ns, name)) → ns ∈ namespaces s;
  inv_commits : keyed (commits s);
  inv_epochs : NoDup (epoch_id <$> epochs s);
  inv_tags : NoDup (commit_epoch s).*1;
  inv_tagged : ∀ c id, (c, id) ∈ commit_epoch s → id ∈ epoch_id <$> epochs s;
  inv_sessions : ∀ id x, sessions s !! id = Some x → session_id x = id;
  inv_session_tags : NoDup (commit_session s).*1;
  inv_taints : NoDup (taint_key <$> List.filter unresolved (mem_taints s));
}.

Lemma mem_new_inv : mem_inv mem_new.
Proof.
  split; simpl; try (by constructor); try set_solver.
  - intros ns name. rw lookup_empty. by intros [].
  - intros id x. by rw lookup_empty.
Qed.

(** *** Each store's operations preserve the invariant *)

Lemma inv_set_refs s r :
  mem_inv s → (∀ ns name, is_Some (r !! (ns, name)) → ns ∈ namespaces s) →
  mem_inv (set_refs s r).
Proof. intros [] H. by split. Qed.

Lemma inv_set_epochs s l :
  mem_inv s → epoch_id <$> l = epoch_id <$> epochs s → mem_inv (set_epochs s l).
Proof. intros [] H. split; try done; simpl; by rw H. Qed.

Lemma inv_set_taints s l :
  mem_inv s → NoDup (taint_key <$> List.filter unresolved l) → mem_inv (set_taints s l).
Proof. intros [] H. by split. Qed.

Lemma associate_NoDup l c id : NoDup l.*1 → NoDup (associate l c id).*1.
Proof.
  intros H. unfold associate. rw fmap_app. apply NoDup_app. split_and!.
  - by apply NoDup_fmap_List_filter.
  - intros x (ce & -> & [_ Hc%bool_decide_unpack]%elem_of_List_filter)%list_elem_of_fmap.
    csimpl. by rw list_elem_of_singleton.
  - apply NoDup_singleton.
Qed.

Lemma elem_of_associate l c id c' id' :
  (c', id') ∈ associate l c id ↔ (c', id') ∈ l ∧ c' ≠ c ∨ c' = c ∧ id' = id.
Proof.
  unfold associate. rw elem_of_app elem_of_List_filter list_elem_of_singleton bool_decide_spec.
  naive_solver.
Qed.

(** The refs operations, once their namespace check is taken. *)
Lemma with_namespace_check {A} s ns (k : stateful MemoryStorage StorageError A) :
  (_ ← reading (λ s, require_namespace s ns); k) s =
  if decide (ns_name ns ∈ namespaces s) then k s else (Err (NamespaceNotFound (ns_name ns)), s).
Proof.
  unfold mbind, stateful_bind, reading, require_namespace. by case_decide.
Qed.

Lemma ref_op_inv {A} s ns (f : MemoryStorage → result StorageError A * MemoryStorage) :
  mem_inv s →
  ((f s).2 = s ∨ ∃ name t, (f s).2 = set_refs s (<[(ns_name ns, name) := t]> (refs s)) ∨
                           (f s).2 = set_refs s (delete (ns_name ns, name) (refs s))) →
  mem_inv ((_ ← reading (λ s, require_namespace s ns); action f) s).2.
Proof.
  intros Hs H. rw with_namespace_check. unfold action. case_decide as Hns; [|done].
  destruct H as [->|(name & t & [->| ->])]; [done|apply inv_set_refs; [done|]..].
  - intros ns' name'. rw lookup_insert_is_Some. intros [[= <- _]|[_ ?]]; [done|].
    by eapply inv_refs.
  - intros ns' name'. rw lookup_delete_is_Some. intros [_ ?]. by eapply inv_refs.
Qed.

Lemma update_epoch_inv {A} s id (f : Epoch → result StorageError (A * Epoch)) :
  mem_inv s → (∀ e a e', f e = Ok (a, e') → epoch_id e' = epoch_id e) →
  mem_inv (update_epoch id f s).2.
Proof.
  intros Hs Hf. unfold update_epoch. destruct (find_epoch s id) as [e|] eqn:He; [|done].
  destruct (f e) as [[a e']|] eqn:E; [|done]. simpl. apply inv_set_epochs; [done|].
  apply List_find_Some in He as [_ Hid%bool_decide_unpack].
  apply update_first_fmap. intros x Hx%bool_decide_unpack _. rw (Hf _ _ _ E). congruence.
Qed.

Lemma create_taint_inv s t : mem_inv s → mem_inv (create_taint t s).2.
Proof.
  intros Hs. unfold create_taint. destruct (existsb _ _) eqn:E; [done|]. simpl.
  apply inv_set_taints; [done|]. rw List.filter_app fmap_app. simpl.
  destruct (unresolved t) eqn:Ht; [|rw app_nil_r; apply inv_taints, Hs].
  apply NoDup_app. split_and!; [apply inv_taints, Hs| |apply NoDup_singleton].
  intros k (t' & -> & [Hin Hu]%elem_of_List_filter)%list_elem_of_fmap.
  rw list_elem_of_singleton. unfold taint_key. intros [= Hp Hn Hk].
  rewrite -not_true_iff_false in E. apply E. apply existsb_exists. exists t'.
  rw -list_elem_of_In. split; [done|]. unfold same_taint. rw Hp Hn Hk.
  rw !bool_decide_eq_true_2 //. by rw !andb_true_r -Is_true_true.
Qed.

Lemma resolve_taint_inv s id b r p a : mem_inv s → mem_inv (resolve_taint id b r p a s).2.
Proof.
  intros Hs. unfold resolve_taint. destruct (List.find _ _) as [t|]; [|done].
  destruct (negb (unresolved t)); [done|]. apply inv_set_taints; [done|].
  pose proof (inv_taints _ Hs) as H. revert H. induction (mem_taints s) as [|x l IH]; [done|].
  simpl. destruct (taint_is id x) eqn:E; simpl.
  - destruct (unresolved x); [|done]. csimpl. by intros [_ ?]%NoDup_cons.
  - destruct (unresolved x); [|done]. csimpl. intros [Hn Hl]%NoDup_cons.
    apply NoDup_cons. split; [|by apply IH].
    intros (y & Hy & [Hin Hu]%elem_of_List_filter)%list_elem_of_fmap. apply Hn.
    apply list_elem_of_fmap. exists y. split; [done|]. apply elem_of_List_filter. split; [|done].
    apply elem_of_update_first in Hin as [?|(z & _ & _ & ->)]; done.
Qed.

Lemma set_taint_commit_id_inv s id c : mem_inv s → mem_inv (set_taint_commit_id id c s).2.
Proof.
  intros Hs. unfold set_taint_commit_id. destruct (List.find _ _) as [t|]; [|done].
  apply inv_set_taints; [done|]. pose proof (inv_taints _ Hs) as H.
  assert (taint_key <$> List.filter unresolved
    (update_first (taint_is id) (λ t, taint_set_commit t c) (mem_taints s)) =
    taint_key <$> List.filter unresolved (mem_taints s)) as ->; [|done].
  clear H. induction (mem_taints s) as [|x l IH]; [done|]. simpl.
  destruct (taint_is id x); simpl.
  - rw (_ : unresolved (taint_set_commit x c) = unresolved x) //. by destruct (unresolved x).
  - destruct (unresolved x); csimpl; by rw IH.
Qed.

Lemma mem_apply_inv `{CH : ContentHash} s op : mem_inv s → mem_inv (mem_apply s op).
Proof.
  intros Hs. destruct op; simpl.
  - unfold mem_put_object. destruct (objects s !! _); [done|]. destruct Hs. by split.
  - destruct Hs. split; try done. intros i c'. simpl.
    rw lookup_insert_Some. naive_solver.
  - unfold set_commit_trace. destruct (commit_traces s !! c); [done|]. destruct Hs. by split.
  - unfold create_namespace. case_decide; [done|]. destruct Hs. split; try done; set_solver.
  - apply ref_op_inv; [done|]. right. exists name, target. by left.
  - apply ref_op_inv; [done|]. destruct (refs s !! _); [|by left].
    case_decide; [|by left]. right. exists name, new. by left.
  - apply ref_op_inv; [done|]. destruct (refs s !! _); [by left|].
    right. exists name, target. by left.
  - apply ref_op_inv; [done|]. case_decide; [|by left]. right. exists name, expected. by right.
  - apply ref_op_inv; [done|]. right. exists name, zero_oid. by right.
  - unfold delete_namespace. case_decide; [done|]. case_decide; [|done].
    destruct Hs. split; try done; simpl; [set_solver|].
    intros ns' name [t [Ht Hn]%map_lookup_filter_Some]. simpl in Hn.
    apply elem_of_difference. split; [eauto|set_solver].
  - unfold create_epoch. destruct (existsb _ _) eqn:E; [done|].
    destruct Hs. split; try done; simpl; rw fmap_app.
    + apply NoDup_app. split_and!; [done| |apply NoDup_singleton].
      intros x (e' & -> & Hin)%list_elem_of_fmap. csimpl. rw list_elem_of_singleton.
      intros Hid. rewrite -not_true_iff_false in E. apply E, existsb_exists. exists e'.
      rw -list_elem_of_In. split; [done|]. by apply bool_decide_eq_true.
    + set_solver.
  - apply update_epoch_inv; [done|]. intros e [] e'.
    destruct (is_closed e); [done|]. by intros [= <-].
  - apply update_epoch_inv; [done|]. intros e b e'.
    destruct (epoch_namespace e); by intros [= _ <-].
  - apply update_epoch_inv; [done|]. intros e [] e'.
    destruct (negb _); [done|]. by intros [= <-].
  - unfold set_commit_epoch. destruct (find_epoch s id) as [e|] eqn:He; [|done].
    destruct (is_closed e); [done|]. destruct Hs. split; try done; simpl.
    + by apply associate_NoDup.
    + intros c' id'. rw elem_of_associate. intros [[? _]|[-> ->]]; [eauto|].
      apply List_find_Some in He as [Hin Hid%bool_decide_unpack].
      apply list_elem_of_fmap. by exists e.
  - destruct Hs. split; try done. intros id x'. simpl. rw lookup_insert_Some. naive_solver.
  - unfold end_session. destruct (sessions s !! id) as [x|] eqn:Hx; [|done].
    destruct (negb _); [done|]. destruct Hs. split; try done. intros id' x'. simpl.
    rw lookup_insert_Some. naive_solver.
  - unfold set_commit_session. destruct (sessions s !! id) as [x|]; [|done].
    destruct (negb _); [done|]. destruct Hs. split; try done. by apply associate_NoDup.
  - by apply create_taint_inv.
  - by apply resolve_taint_inv.
  - by apply set_taint_commit_id_inv.
Qed.

(** ** Properties *)

(** Every operation of the in-memory backend, whatever its arguments,
    keeps the backend consistent: refs live only in existing namespaces and
    the default namespace never goes, commits and sessions are filed under
    their ids, epoch ids are unique, a commit is tagged to at most one epoch
    (an existing one) and at most one session, and no two unresolved taints
    share path, name and kind. *)
Theorem memory_invariant `{CH : ContentHash} ops : mem_inv (mem_run mem_new ops).
Proof.
  unfold mem_run. pose proof mem_new_inv as H. revert H. generalize mem_new.
  induction ops as [|op ops IH]; intros s Hs; [done|]; simpl. by apply IH, mem_apply_inv.
Qed.

(** What sealing an epoch records: it must never change again. *)
Definition seal_record (e : Epoch) :=
  (epoch_id e, sealed_at e, seal_summary e, seal_hash e, sealed_commits e, epoch_scope e).

Definition frozen (e e' : Epoch) : Prop :=
  is_closed e' ∧ seal_record e' = seal_record e ∧
  (∀ ns, epoch_namespace e = Some ns → epoch_namespace e' = Some ns).

Lemma update_epoch_frozen {A} s id id' (f : Epoch → result StorageError (A * Epoch)) e :
  find_epoch s id = Some e → is_closed e →
  (∀ x a x', f x = Ok (a, x') → epoch_id x' = epoch_id x ∧ (is_closed x → frozen x x')) →
  ∃ e', find_epoch (update_epoch id' f s).2 id = Some e' ∧ frozen e e'.
Proof.
  intros He Hc Hf. assert (frozen e e) as Hrefl by done.
  unfold update_epoch. destruct (find_epoch s id') as [x|] eqn:Hx; [|by exists e].
  destruct (f x) as [[a x']|] eqn:E; [|by exists e]. destruct (Hf _ _ _ E) as [Hid Hfr].
  apply List_find_Some in Hx as Hx'. destruct Hx' as [_ Hxid%bool_decide_unpack].
  simpl. unfold find_epoch; simpl. destruct (decide (id = id')) as [<-|Hne].
  - assert (x = e) as -> by congruence. exists x'. split; [|by apply Hfr].
    rw update_first_find; [by rewrite /find_epoch in He; rw He|].
    intros y _. apply bool_decide_pack. congruence.
  - exists e. split; [|done]. rw update_first_find_ne; [done|].
    intros y Hy%bool_decide_unpack. split; apply bool_decide_eq_false; congruence.
Qed.

Lemma mem_apply_frozen `{CH : ContentHash} s op id e :
  find_epoch s id = Some e → is_closed e →
  ∃ e', find_epoch (mem_apply s op) id = Some e' ∧ frozen e e'.
Proof.
  intros He Hc. assert (frozen e e) as Hrefl by done.
  assert (∀ s', epochs s' = epochs s → ∃ e', find_epoch s' id = Some e' ∧ frozen e e') as Hsame.
  { intros s' E. exists e. unfold find_epoch. by rw E. }
  destruct op; simpl; try (by apply Hsame).
  - apply Hsame. unfold mem_put_object. by destruct (objects s !! _).
  - apply Hsame. unfold set_commit_trace. by destruct (commit_traces s !! c).
  - apply Hsame. unfold create_namespace. by case_decide.
  - apply Hsame. unfold set_ref. rw with_namespace_check. by case_decide.
  - apply Hsame. unfold cas_ref. rw with_namespace_check. unfold action.
    case_decide; [|done]. destruct (refs s !! _); [|done]. by case_decide.
  - apply Hsame. unfold create_ref. rw with_namespace_check. unfold action.
    case_decide; [|done]. by destruct (refs s !! _).
  - apply Hsame. unfold cas_delete_ref. rw with_namespace_check. unfold action.
    case_decide; [|done]. by case_decide.
  - apply Hsame. unfold delete_ref. rw with_namespace_check. by case_decide.
  - apply Hsame. unfold delete_namespace. case_decide; [done|]. by case_decide.
  - exists e. split; [|done]. unfold create_epoch. destruct (existsb _ _); [done|].
    unfold find_epoch in *. simpl. by rw List_find_app He.
  - apply update_epoch_frozen; [done..|]. intros x [] x'.
    destruct (is_closed x) eqn:Hx; [done|]. by intros [= <-].
  - apply update_epoch_frozen; [done..|]. intros x b x'.
    destruct (epoch_namespace x) eqn:Hx; intros [= _ <-]; [done|].
    split; [done|]. intros Hcx. split_and!; [done..|]. congruence.
  - apply update_epoch_frozen; [done..|]. intros x [] x'.
    destruct (negb _); [done|]. by intros [= <-].
  - apply Hsame. unfold set_commit_epoch. by repeat case_match.
  - apply Hsame. unfold end_session. destruct (sessions s !! _); [|done]. by destruct (negb _).
  - apply Hsame. unfold set_commit_session. destruct (sessions s !! _); [|done].
    by destruct (negb _).
  - apply Hsame. unfold create_taint. by destruct (existsb _ _).
  - apply Hsame. unfold resolve_taint. destruct (List.find _ _); [|done]. by destruct (negb _).
  - apply Hsame. unfold set_taint_commit_id. by destruct (List.find _ _).
Qed.

(** In the backend a seal is forever too: after any further operations
    the epoch is still there and closed, with the seal time, summary, hash,
    sealed commits and scope it was sealed with, and in the workspace it was
    assigned to if it was assigned one. *)
Theorem memory_seal_frozen `{CH : ContentHash} s ops id e :
  find_epoch s id = Some e → is_closed e →
  ∃ e', find_epoch (mem_run s ops) id = Some e' ∧ is_closed e' ∧
    seal_record e' = seal_record e ∧
    (∀ ns, epoch_namespace e = Some ns → epoch_namespace e' = Some ns).
Proof.
  intros He Hc. assert (∃ e', find_epoch (mem_run s ops) id = Some e' ∧ frozen e e')
    as (e' & ? & ?); [|by exists e'].
  unfold mem_run. revert s e He Hc. induction ops as [|op ops IH]; intros s e He Hc; simpl.
  - by exists e.
  - destruct (mem_apply_frozen s op id e He Hc) as (e1 & He1 & Hc1 & Hr1 & Hn1).
    destruct (IH _ _ He1 Hc1) as (e2 & ? & ? & Hr2 & Hn2). exists e2. split; [done|].
    split_and!; [done|by rw Hr2|naive_solver].
Qed.

(** An epoch with one tagged commit, sealed. *)
Definition sealed_store : MemoryStorage :=
  (mem_seal_epoch "done" "summary" 2%Z [Oid "c"] (Oid "h")
    (set_commit_epoch (Oid "c") "done"
      (create_epoch (epoch_new "next" "later work" [] 1%Z)
        (create_epoch (epoch_new "done" "work" [] 0%Z) mem_new).2).2).2).2.

Lemma memory_seal_frozen_witness :
  ∃ e e', find_epoch sealed_store "done" = Some e ∧
    find_epoch (mem_run (CH := Plain.plain_hash) sealed_store [SetCommitEpoch (Oid "c") "next"])
      "done" = Some e' ∧ seal_record e' = seal_record e.
Proof.
  assert (∃ e, find_epoch sealed_store "done" = Some e ∧ is_closed e) as (e & He & Hc).
  { eexists. split; by vm_compute. }
  destruct (memory_seal_frozen (CH := Plain.plain_hash) sealed_store
    [SetCommitEpoch (Oid "c") "next"] "done" e He Hc) as (e' & H1 & _ & H2 & _).
  by exists e, e'.
Defined.

(** The commits tagged to a sealed epoch are not frozen: tagging one of
    them to another, active epoch is accepted and takes it out of the sealed
    epoch's list, although tagging to the sealed epoch itself is refused. *)
Theorem sealed_epoch_loses_commit :
  ∃ s id other c e e', find_epoch s id = Some e ∧ is_closed e ∧
    (get_epoch s id = Some e' ∧ epoch_commits e' = [c]) ∧
    (set_commit_epoch c id s).1 = Err (EpochAlreadySealed id) ∧
    (set_commit_epoch c other s).1 = Ok () ∧
    (epoch_commits <$> get_epoch (set_commit_epoch c other s).2 id) = Some [].
Proof.
  exists sealed_store, "done", "next", (Oid "c"). eexists _, _.
  split_and!; by vm_compute.
Qed.
