(* ===== verification/Diffs.v ===== *)
(** * Diffs: the structured diff of two state trees

    Models [agentstategraph-core/src/diff.rs]. A resolver is a partial function
    from ids to objects. The recursion descends through stored objects, so the
    functions carry fuel; [bounded] trees say how much is enough. *)
From S2P Require Import Prelude Objects Paths.

(** [trait ObjectResolver], for a resolver without state. *)
Definition Resolver : Type := ObjectId → option Object.

Inductive DiffValue : Type :=
  | DNull
  | DBool (b : bool)
  | DInt (i : Z)
  | DUInt (u : N)
  | DFloat (f : Z)
  | DString (s : string)
  | DBytes (b : string)
  | DComplex (s : string).

Inductive DiffOp : Type :=
  | SetValue (path : string) (old new : DiffValue)
  | AddKey (path key : string) (value : DiffValue)
  | RemoveKey (path key : string) (old_value : DiffValue)
  | AddElement (path : string) (index : N) (value : DiffValue)
  | RemoveElement (path : string) (index : N) (old_value : DiffValue)
  | AddToSet (path : string) (value : DiffValue)
  | RemoveFromSet (path : string) (old_value : DiffValue)
  | ChangeType (path old_type new_type : string).

#[export] Instance DiffValue_eq_dec : EqDecision DiffValue.
Proof. solve_decision. Defined.
#[export] Instance DiffOp_eq_dec : EqDecision DiffOp.
Proof. solve_decision. Defined.

Definition count (n : nat) : string := pretty (N.of_nat n).

Definition diff_value_of_atom (a : Atom) : DiffValue :=
  match a with
  | ANull => DNull
  | ABool b => DBool b
  | AInt i => DInt i
  | AUInt u => DUInt u
  | AFloat f => DFloat f
  | AString s => DString s
  | ABytes b => DBytes b
  end.

Definition diff_value_of_node (n : Node) : DiffValue :=
  match n with
  | NMap m => DComplex ("{map: " +:+ count (size m) +:+ " keys}")
  | NList l => DComplex ("[list: " +:+ count (length l) +:+ " items]")
  | NSet l => DComplex ("{set: " +:+ count (length l) +:+ " items}")
  end.

Definition diff_value_of (o : Object) : DiffValue :=
  match o with
  | OAtom a => diff_value_of_atom a
  | ONode n => diff_value_of_node n
  end.

Definition type_name (o : Object) : string :=
  match o with
  | OAtom ANull => "null"
  | OAtom (ABool _) => "bool"
  | OAtom (AInt _) | OAtom (AUInt _) => "int"
  | OAtom (AFloat _) => "float"
  | OAtom (AString _) => "string"
  | OAtom (ABytes _) => "bytes"
  | ONode (NMap _) => "map"
  | ONode (NList _) => "list"
  | ONode (NSet _) => "set"
  end.

(** Distinct ids in order: the iteration of a [BTreeSet<&ObjectId>]. *)
Definition oid_set (l : list ObjectId) : list ObjectId := dedup (merge_sort oid_le l).

(** [a.difference(&b)] of two such sets. *)
Definition oid_difference (a b : list ObjectId) : list ObjectId :=
  filter (λ id, id ∉ oid_set b) (oid_set a).

(** What the diff does with each child it descends into. *)
Abbreviation diff_result := (result (stop Empty_set) (list DiffOp)).

Section diff.
Context (resolve : Resolver).

(** The summary of a child, [Null] when it does not resolve. *)
Definition child_value (id : ObjectId) : DiffValue :=
  match resolve id with Some o => diff_value_of o | None => DNull end.

(** A child present on both sides under different ids. *)
Definition diff_child (rec : StatePath → Object → Object → diff_result)
    (child_path : StatePath) (old_id new_id : ObjectId) : diff_result :=
  if decide (old_id = new_id) then Ok [] else
  match resolve old_id, resolve new_id with
  | Some old_child, Some new_child => rec child_path old_child new_child
  | _, _ => Ok [SetValue (display child_path) DNull DNull]
  end.

Definition diff_maps (rec : StatePath → Object → Object → diff_result) (path : StatePath)
    (old_entries new_entries : gmap string ObjectId) : diff_result :=
  let removed := (λ kv, RemoveKey (display path) kv.1 (child_value kv.2)) <$>
    entries (old_entries ∖ new_entries) in
  let added := (λ kv, AddKey (display path) kv.1 (child_value kv.2)) <$>
    entries (new_entries ∖ old_entries) in
  modified ← traverse (λ kv, diff_child rec (push_key path kv.1) kv.2.1 kv.2.2)
    (entries (map_zip old_entries new_entries));
  Ok (removed ++ added ++ concat modified).

(** One index of the loop [for i in 0..max_len]. *)
Definition diff_item (rec : StatePath → Object → Object → diff_result) (path : StatePath)
    (old_items new_items : list ObjectId) (i : nat) : diff_result :=
  match old_items !! i, new_items !! i with
  | Some old_id, Some new_id => diff_child rec (push_index path (N.of_nat i)) old_id new_id
  | None, Some new_id => Ok [AddElement (display path) (N.of_nat i) (child_value new_id)]
  | Some old_id, None => Ok [RemoveElement (display path) (N.of_nat i) (child_value old_id)]
  | None, None => Ok []   (* [unreachable!()] *)
  end.

Definition diff_lists (rec : StatePath → Object → Object → diff_result) (path : StatePath)
    (old_items new_items : list ObjectId) : diff_result :=
  ops ← traverse (diff_item rec path old_items new_items)
    (seq 0 (length old_items `max` length new_items));
  Ok (concat ops).

Definition diff_sets (path : StatePath) (old_items new_items : list ObjectId) : list DiffOp :=
  ((λ id, RemoveFromSet (display path) (child_value id)) <$>
     oid_difference old_items new_items) ++
  ((λ id, AddToSet (display path) (child_value id)) <$>
     oid_difference new_items old_items).

Fixpoint diff_objects (fuel : nat) (path : StatePath) (old new : Object) : diff_result :=
  match fuel with
  | 0 => Err OutOfFuel
  | S fuel' =>
      if object_eqb old new then Ok [] else
      match old, new with
      | OAtom a, OAtom b =>
          Ok [SetValue (display path) (diff_value_of_atom a) (diff_value_of_atom b)]
      | ONode (NMap a), ONode (NMap b) => diff_maps (diff_objects fuel') path a b
      | ONode (NList a), ONode (NList b) => diff_lists (diff_objects fuel') path a b
      | ONode (NSet a), ONode (NSet b) => Ok (diff_sets path a b)
      | _, _ => Ok [ChangeType (display path) (type_name old) (type_name new)]
      end
  end.

Definition diff (fuel : nat) (old_root new_root : ObjectId) : diff_result :=
  if decide (old_root = new_root) then Ok [] else
  match resolve old_root, resolve new_root with
  | Some old, Some new => diff_objects fuel path_root old new
  | _, _ => Ok []
  end.
End diff.

(** ** Trees of bounded height *)

Definition node_children (n : Node) : list ObjectId :=
  match n with
  | NMap m => (entries m).*2
  | NList l => l
  | NSet l => l
  end.

Definition children (o : Object) : list ObjectId :=
  match o with OAtom _ => [] | ONode n => node_children n end.

Section trees.
Context (resolve : Resolver).

(** No path of more than [n] objects leads down from [o]. Children that do not
    resolve end a path. *)
Fixpoint bounded (n : nat) (o : Object) : Prop :=
  match n with
  | 0 => False
  | S n' => ∀ id c, id ∈ children o → resolve id = Some c → bounded n' c
  end.

(** Additionally every child resolves: the whole tree can be read. *)
Fixpoint readable (n : nat) (o : Object) : Prop :=
  match n with
  | 0 => False
  | S n' => ∀ id, id ∈ children o → ∃ c, resolve id = Some c ∧ readable n' c
  end.

(** Readability is decided by reading. *)
Fixpoint readableb (n : nat) (o : Object) : bool :=
  match n with
  | 0 => false
  | S n' => forallb (λ id, match resolve id with Some c => readableb n' c | None => false end)
              (children o)
  end.

Lemma readableb_spec n o : readableb n o → readable n o.
Proof.
  revert o. induction n as [|n IH]; intros o; [done|]. simpl.
  rw Is_true_true forallb_forall. intros H id Hin%list_elem_of_In.
  specialize (H id Hin). destruct (resolve id) as [c|]; [|done].
  exists c. split; [done|]. apply IH. by rw H.
Qed.

Lemma readable_bounded n o : readable n o → bounded n o.
Proof.
  revert o. induction n as [|n IH]; intros o; [done|]. simpl. intros H id c Hin Hc.
  destruct (H id Hin) as (c' & Hc' & ?). apply IH. congruence.
Qed.

Lemma bounded_S n o : bounded n o → bounded (S n) o.
Proof.
  revert o. induction n as [|n IH]; intros o; [done|]. intros H id c Hin Hc.
  apply IH. by apply (H id).
Qed.

Lemma bounded_le n m o : n ≤ m → bounded n o → bounded m o.
Proof. induction 1; [done|]. intros. by apply bounded_S, IHle. Qed.

Lemma readable_S n o : readable n o → readable (S n) o.
Proof.
  revert o. induction n as [|n IH]; intros o; [done|]. intros H id Hin.
  destruct (H id Hin) as (c & ? & ?). exists c. auto.
Qed.

Lemma readable_le n m o : n ≤ m → readable n o → readable m o.
Proof. induction 1; [done|]. intros. by apply readable_S, IHle. Qed.
End trees.

Lemma elem_of_map_children m id : id ∈ children (ONode (NMap m)) ↔ ∃ k, m !! k = Some id.
Proof.
  simpl. rw list_elem_of_fmap. split.
  - intros ([k i] & -> & H%elem_of_entries). eauto.
  - intros [k H]. exists (k, id). by rw elem_of_entries.
Qed.

Lemma elem_of_oid_set l x : x ∈ oid_set l ↔ x ∈ l.
Proof. unfold oid_set. by rw elem_of_dedup merge_sort_Permutation. Qed.

(** ** When a diff is empty *)

Section same.
Context (resolve : Resolver).

(** Equal content as the diff sees it: [PartialEq] on values, key by key,
    index by index, and sets by their elements. *)
Fixpoint same_tree (n : nat) (a b : Object) : Prop :=
  match n with
  | 0 => False
  | S n' =>
      let same_child i j := i = j ∨ ∃ x y, resolve i = Some x ∧ resolve j = Some y ∧
                              same_tree n' x y in
      object_eqb a b ∨
      match a, b with
      | ONode (NMap m), ONode (NMap m') =>
          (∀ k, is_Some (m !! k) ↔ is_Some (m' !! k)) ∧
          ∀ k i j, m !! k = Some i → m' !! k = Some j → same_child i j
      | ONode (NList l), ONode (NList l') => Forall2 same_child l l'
      | ONode (NSet l), ONode (NSet l') => ∀ x, x ∈ l ↔ x ∈ l'
      | _, _ => False
      end
  end.

Definition same_child (n : nat) (i j : ObjectId) : Prop :=
  i = j ∨ ∃ x y, resolve i = Some x ∧ resolve j = Some y ∧ same_tree n x y.

Lemma traverse_nil {A} (f : A → diff_result) l :
  (∃ opss, traverse f l = Ok opss ∧ concat opss = []) ↔ Forall (λ x, f x = Ok []) l.
Proof.
  induction l as [|x l IH]; simpl.
  - split; [constructor|]. intros _. by exists [].
  - rw Forall_cons -IH. split.
    + intros (opss & H & Hc). inv_ok. subst. apply app_eq_nil in Hc as [-> Hc]. eauto.
    + intros [-> (opss & -> & Hc)]. simpl. by exists ([] :: opss).
Qed.

Lemma diff_child_nil rec n path i j :
  (∀ p a b, rec p a b = Ok [] ↔ same_tree n a b) →
  diff_child resolve rec path i j = Ok [] ↔ same_child n i j.
Proof.
  intros Hrec. unfold diff_child, same_child. case_decide as Hij; [naive_solver|].
  destruct (resolve i), (resolve j); rw ?Hrec; naive_solver.
Qed.

Lemma map_difference_entries_nil (m m' : gmap string ObjectId) {B} (f : string * ObjectId → B) :
  f <$> entries (m ∖ m') = [] ↔ ∀ k, is_Some (m !! k) → is_Some (m' !! k).
Proof.
  split.
  - intros H%fmap_nil_inv k [i Hi]. apply not_eq_None_Some. intros Hn.
    assert ((k, i) ∈ entries (m ∖ m')) as Hin; [|rewrite H in Hin; by apply elem_of_nil in Hin].
    apply elem_of_entries. by apply lookup_difference_Some.
  - intros H. destruct (entries (m ∖ m')) as [|[k i] l] eqn:E; [done|].
    assert ((k, i) ∈ entries (m ∖ m')) as Hin by (rw E; left).
    apply elem_of_entries, lookup_difference_Some in Hin as [Hi Hn].
    destruct (H k) as [? ?]; [eauto|congruence].
Qed.

Lemma diff_maps_nil rec n path m m' :
  (∀ p a b, rec p a b = Ok [] ↔ same_tree n a b) →
  diff_maps resolve rec path m m' = Ok [] ↔
  (∀ k, is_Some (m !! k) ↔ is_Some (m' !! k)) ∧
  ∀ k i j, m !! k = Some i → m' !! k = Some j → same_child n i j.
Proof.
  intros Hrec. unfold diff_maps.
  pose proof (traverse_nil (λ kv : string * (ObjectId * ObjectId),
    diff_child resolve rec (push_key path kv.1) kv.2.1 kv.2.2)
    (entries (map_zip m m'))) as Ht.
  assert (Forall (λ kv : string * (ObjectId * ObjectId),
    diff_child resolve rec (push_key path kv.1) kv.2.1 kv.2.2 = Ok [])
    (entries (map_zip m m')) ↔
    ∀ k i j, m !! k = Some i → m' !! k = Some j → same_child n i j) as Hc.
  { rw Forall_forall. split.
    - intros H k i j Hi Hj. apply (diff_child_nil rec n (push_key path k)); [done|].
      apply (H (k, (i, j))). apply elem_of_entries, map_lookup_zip_Some. done.
    - intros H [k [i j]] Hin%elem_of_entries%map_lookup_zip_Some. simpl in *.
      apply diff_child_nil with n; [done|]. naive_solver. }
  rewrite -Hc -Ht. split.
  - intros H. inv_ok. apply app_nil in H as [Hr [Ha Hm]%app_nil].
    pose proof (proj1 (map_difference_entries_nil m m' _) Hr).
    pose proof (proj1 (map_difference_entries_nil m' m _) Ha).
    split; [naive_solver|eauto].
  - intros [Hd (opss & -> & Hn)]. simpl. rw Hn app_nil_r.
    rw (proj2 (map_difference_entries_nil m m' _)); [|naive_solver].
    by rw (proj2 (map_difference_entries_nil m' m _)); [|naive_solver].
Qed.

Lemma diff_lists_nil rec n path l l' :
  (∀ p a b, rec p a b = Ok [] ↔ same_tree n a b) →
  diff_lists resolve rec path l l' = Ok [] ↔ Forall2 (same_child n) l l'.
Proof.
  intros Hrec. unfold diff_lists.
  pose proof (traverse_nil (diff_item resolve rec path l l')
    (seq 0 (length l `max` length l'))) as Ht.
  trans (Forall (λ i, diff_item resolve rec path l l' i = Ok [])
    (seq 0 (length l `max` length l'))).
  { rewrite -Ht. split.
    - intros H. inv_ok. eauto.
    - intros (opss & -> & Hn). simpl. by rw Hn. }
  clear Ht. rw Forall_forall Forall2_same_length_lookup. setoid_rewrite elem_of_seq.
  split.
  - intros H. assert (length l = length l') as Hl.
    { destruct (decide (length l = length l')); [done|]. exfalso.
      specialize (H (length l `min` length l')). unfold diff_item in H.
      destruct (Nat.lt_ge_cases (length l) (length l')) as [Hlt|Hge].
      - rewrite Nat.min_l in H; [|lia]. destruct (lookup_lt_is_Some_2 l' (length l)) as [x Hx]; [done|].
        rewrite (lookup_ge_None_2 l) // Hx in H. by specialize (H ltac:(lia)).
      - rewrite Nat.min_r in H; [|lia].
        destruct (lookup_lt_is_Some_2 l (length l')) as [x Hx]; [lia|].
        rewrite (lookup_ge_None_2 l') // Hx in H. by specialize (H ltac:(lia)). }
    split; [done|]. intros i x y Hx Hy. apply (diff_child_nil rec n (push_index path (N.of_nat i)));
      [done|]. pose proof (lookup_lt_Some _ _ _ Hx).
    specialize (H i ltac:(lia)). unfold diff_item in H. by rewrite Hx Hy in H.
  - intros [Hl H] i Hi. unfold diff_item.
    destruct (lookup_lt_is_Some_2 l i) as [x Hx]; [lia|].
    destruct (lookup_lt_is_Some_2 l' i) as [y Hy]; [lia|].
    rw Hx Hy. apply diff_child_nil with n; eauto.
Qed.

Lemma elem_of_oid_difference k k' x : x ∈ oid_difference k k' ↔ x ∈ k ∧ x ∉ k'.
Proof. unfold oid_difference. rw list_elem_of_filter !elem_of_oid_set. tauto. Qed.

Lemma oid_difference_nil k k' : oid_difference k k' = [] ↔ ∀ x, x ∈ k → x ∈ k'.
Proof.
  split.
  - intros H x Hx. destruct (decide (x ∈ k')) as [|Hn]; [done|].
    assert (x ∈ oid_difference k k') as Hin by by apply elem_of_oid_difference.
    rewrite H in Hin. by apply elem_of_nil in Hin.
  - intros H. destruct (oid_difference k k') as [|x r] eqn:E; [done|].
    assert (x ∈ oid_difference k k') as [Hx Hn]%elem_of_oid_difference by (rw E; left).
    naive_solver.
Qed.

Lemma diff_sets_nil path l l' : diff_sets resolve path l l' = [] ↔ ∀ x, x ∈ l ↔ x ∈ l'.
Proof.
  unfold diff_sets.
  split.
  - intros [H1%fmap_nil_inv H2%fmap_nil_inv]%app_nil.
    pose proof (proj1 (oid_difference_nil _ _) H1). pose proof (proj1 (oid_difference_nil _ _) H2).
    naive_solver.
  - intros H. rw (proj2 (oid_difference_nil l l')); [|naive_solver].
    by rw (proj2 (oid_difference_nil l' l)); [|naive_solver].
Qed.

Lemma diff_objects_nil n path a b :
  diff_objects resolve n path a b = Ok [] ↔ same_tree n a b.
Proof.
  revert path a b. induction n as [|n IH]; intros path a b; [done|]. simpl.
  destruct (object_eqb a b); [naive_solver|].
  assert (∀ P : Prop, (False ∨ P) ↔ P) as Hor by naive_solver.
  destruct a as [a|[m|l|l]], b as [b|[m'|l'|l']]; rw Hor; try done.
  - by apply diff_maps_nil.
  - by apply diff_lists_nil.
  - rewrite -(diff_sets_nil path). split; [by intros [= H]|by intros ->].
Qed.
End same.

(** ** Fuel *)

Section total.
Context (resolve : Resolver).

Lemma diff_child_total rec n path i j :
  (∀ p a b, bounded resolve n a → ∃ ops, rec p a b = Ok ops) →
  (∀ a, resolve i = Some a → bounded resolve n a) →
  ∃ ops, diff_child resolve rec path i j = Ok ops.
Proof.
  intros Hrec Hi. unfold diff_child. case_decide; [eauto|].
  destruct (resolve i) as [a|], (resolve j) as [b|]; eauto.
Qed.

(** As many rounds as the old tree is high. *)
Lemma diff_objects_total n path a b :
  bounded resolve n a → ∃ ops, diff_objects resolve n path a b = Ok ops.
Proof.
  revert path a b. induction n as [|n IH]; intros path a b Ha; [done|]. simpl.
  destruct (object_eqb a b); [eauto|].
  destruct a as [a|[m|l|l]], b as [b|[m'|l'|l']]; eauto.
  - unfold diff_maps.
    destruct (traverse_total (λ kv : string * (ObjectId * ObjectId),
      diff_child resolve (diff_objects resolve n) (push_key path kv.1) kv.2.1 kv.2.2)
      (entries (map_zip m m'))) as [opss ->]; [|simpl; eauto].
    intros [k [i j]] [Hi Hj]%elem_of_entries%map_lookup_zip_Some.
    apply diff_child_total with n; [done|]. intros x Hx. apply (Ha i); [|done].
    apply elem_of_map_children. eauto.
  - unfold diff_lists.
    destruct (traverse_total (diff_item resolve (diff_objects resolve n) path l l')
      (seq 0 (length l `max` length l'))) as [opss ->]; [|simpl; eauto].
    intros i _. unfold diff_item. destruct (l !! i) as [x|] eqn:Hx, (l' !! i); eauto.
    apply diff_child_total with n; [done|]. intros y Hy. apply (Ha x); [|done].
    by eapply list_elem_of_lookup_2.
Qed.
End total.

(** ** Stores without surprises: every object under its address, sets in
    canonical order, and no float in sight. *)
Definition exact_object (o : Object) : Prop :=
  ¬ is_float o ∧ match o with ONode (NSet l) => l = oid_set l | _ => True end.

Definition exact_store `{CH : ContentHash} (resolve : Resolver) : Prop :=
  ∀ i o, resolve i = Some o → oid_of o = i ∧ finite o ∧ exact_object o.

Lemma same_tree_exact `{CH : ContentHash, CF : !CollisionFree} resolve n a b :
  exact_store resolve → exact_object a → exact_object b → same_tree resolve n a b → a = b.
Proof.
  intros Hst. revert a b. induction n as [|n IH]; intros a b Ha Hb; [done|].
  intros [He|Hcase]; [apply object_eqb_exact in He; [done|apply Ha]|].
  assert (∀ i j, same_child resolve n i j → i = j) as Hc.
  { intros i j [?|(x & y & Hx & Hy & Hxy)]; [done|].
    destruct (Hst _ _ Hx) as (<- & _ & Hex), (Hst _ _ Hy) as (<- & _ & Hey).
    f_equal. by apply IH. }
  destruct a as [a|[m|l|l]], b as [b|[m'|l'|l']]; try done.
  - destruct Hcase as [Hd Hk]. do 2 f_equal. apply map_eq. intros k.
    destruct (m !! k) as [i|] eqn:Hi, (m' !! k) as [j|] eqn:Hj; [| | |done].
    + f_equal. by apply Hc, (Hk k).
    + destruct (proj1 (Hd k)); [eauto|congruence].
    + destruct (proj2 (Hd k)); [eauto|congruence].
  - do 2 f_equal. induction Hcase as [|i j l l' Hij Hl IHl]; [done|]. f_equal; [by apply Hc|].
    apply IHl; (split; [by intros []|done]).
  - do 2 f_equal. destruct Ha as [_ ->], Hb as [_ ->]. by apply dedup_sort_ext.
Qed.

(** ** Properties *)

(** With fuel for the height of the old tree the diff always has a result,
    and it is empty exactly when the two trees hold the same values, key by
    key and element by element; over a store with no float in it, only when
    the two roots are the same id. *)
Theorem diff_empty_iff `{CH : ContentHash, CF : !CollisionFree} resolve n r1 r2 a b :
  resolve r1 = Some a → resolve r2 = Some b → bounded resolve n a →
  ∃ ops, diff resolve n r1 r2 = Ok ops ∧
    (ops = [] ↔ r1 = r2 ∨ same_tree resolve n a b) ∧
    (exact_store resolve → ops = [] ↔ r1 = r2).
Proof.
  intros Ha Hb Hn. unfold diff. case_decide as Hr; [exists []; naive_solver|].
  rw Ha Hb. destruct (diff_objects_total resolve n path_root a b Hn) as [ops Hops].
  exists ops. split; [done|].
  assert (ops = [] ↔ same_tree resolve n a b) as Hs.
  { rewrite -(diff_objects_nil resolve n path_root) Hops. naive_solver. }
  split; [naive_solver|]. intros Hst. rw Hs. split; [|done]. intros Hsame.
  destruct (Hst _ _ Ha) as (<- & _ & Hea), (Hst _ _ Hb) as (<- & _ & Heb).
  f_equal. by apply (same_tree_exact resolve n).
Qed.

(** The diff cannot see a zero change its sign: two trees with different
    roots, one holding 0.0 and the other -0.0, have an empty diff. *)
Theorem diff_blind_to_zero_sign `{CH : ContentHash, CF : !CollisionFree} n path :
  let pos := mk_float f64_zero in let neg := mk_float (2 ^ 63) in
  oid_of pos ≠ oid_of neg ∧ ∀ resolve, diff_objects resolve (S n) path pos neg = Ok [].
Proof.
  intros pos neg. split; [|done]. intros He%collision_free; by vm_compute.
Qed.

Section witnesses.
  Import Plain.

Definition old_tree : Object := mk_map {[ "a" := oid_of (mk_int 1) ]}.
Definition new_tree : Object := mk_map {[ "a" := oid_of (mk_int 2) ]}.
Definition two_trees : gmap ObjectId Object :=
  sample [mk_int 1; mk_int 2; old_tree; new_tree].

Lemma diff_empty_iff_witness :
  ∃ ops, diff (λ i, two_trees !! i) 2 (oid_of old_tree) (oid_of new_tree) = Ok ops ∧ ops ≠ [].
Proof.
  destruct (diff_empty_iff (λ i, two_trees !! i) 2 (oid_of old_tree) (oid_of new_tree)
    old_tree new_tree) as (ops & Hops & _ & Hiff).
  - by vm_compute.
  - by vm_compute.
  - intros id c Hin%elem_of_map_children Hc i d Hd _.
    destruct Hin as [k [_ <-]%lookup_singleton_Some].
    assert (c = mk_int 1) as -> by (apply (inj Some); rewrite -Hc; by vm_compute).
    by apply elem_of_nil in Hd.
  - exists ops. split; [done|]. rw Hiff; [by vm_compute|].
    intros i o Ho. unfold two_trees in Ho. apply sample_lookup in Ho as [<- Hin].
    split; [done|]. set_unfold in Hin. destruct_or!; subst; (split; [done|split; [by intros []|done]]).
Defined.

Lemma diff_blind_to_zero_sign_witness :
  oid_of (mk_float f64_zero) ≠ oid_of (mk_float (2 ^ 63)) ∧
  diff_objects (λ _, None) 1 path_root (mk_float f64_zero) (mk_float (2 ^ 63)) = Ok [].
Proof. destruct (diff_blind_to_zero_sign 0 path_root) as [Hne He]. split; [done|apply He]. Defined.
End witnesses.
