(* ===== verification/Merges.v ===== *)
(** * Merges: the three-way merge of state trees

    Models [agentstategraph-core/src/merge.rs]. The merge runs in a state of
    its own: the conflicts and the created objects it accumulates, and the
    state of the resolver, since [TrackingResolver] records what it could not
    find. *)
From S2P Require Import Prelude Objects Diffs.

Inductive ConflictValue : Type :=
  | CNull
  | CBool (b : bool)
  | CInt (i : Z)
  | CUInt (u : N)
  | CFloat (f : Z)
  | CString (s : string)
  | CComplex (s : string).

Record Conflict := {
  conflict_path : string;
  conflict_ours : option ConflictValue;
  conflict_theirs : option ConflictValue;
  conflict_base : option ConflictValue;
  suggested_resolution : option ConflictValue;
}.

Inductive MergeResult : Type :=
  | Success (o : Object)
  | Conflicts (partial : Object) (conflicts : list Conflict)
  | FastForward (id : ObjectId).

#[export] Instance ConflictValue_eq_dec : EqDecision ConflictValue.
Proof. solve_decision. Defined.
#[export] Instance Conflict_eq_dec : EqDecision Conflict.
Proof. solve_decision. Defined.
#[export] Instance MergeResult_eq_dec : EqDecision MergeResult.
Proof. solve_decision. Defined.

Definition complex_map (n : nat) : ConflictValue := CComplex ("{map: " +:+ count n +:+ " keys}").
Definition complex_list (n : nat) : ConflictValue :=
  CComplex ("[list: " +:+ count n +:+ " items]").
Definition complex_set (n : nat) : ConflictValue :=
  CComplex ("{set: " +:+ count n +:+ " items}").

Definition conflict_value_of (o : Object) : ConflictValue :=
  match o with
  | OAtom ANull => CNull
  | OAtom (ABool b) => CBool b
  | OAtom (AInt i) => CInt i
  | OAtom (AUInt u) => CUInt u
  | OAtom (AFloat f) => CFloat f
  | OAtom (AString s) => CString s
  | OAtom (ABytes _) => CString "[bytes]"
  | ONode (NMap m) => complex_map (size m)
  | ONode (NList l) => complex_list (length l)
  | ONode (NSet l) => complex_set (length l)
  end.

(** ** The merge *)

Section merge.
Context `{CH : ContentHash} {R : Type}.
(** [&dyn ObjectResolver]: resolving may change the resolver's own state. *)
Context (resolve : ObjectId → R → option Object * R).

Record MergeState := {
  conflicts : list Conflict;
  created : list Object;
  resolver : R;
}.

Definition M (A : Type) : Type := stateful MergeState (stop Empty_set) A.

Definition resolve_id (id : ObjectId) : M (option Object) := action (λ st,
  match resolve id (resolver st) with
  | (o, r) => (Ok o, {| conflicts := conflicts st; created := created st; resolver := r |})
  end).

Definition push_conflict (c : Conflict) : M () := action (λ st,
  (Ok (), {| conflicts := conflicts st ++ [c]; created := created st;
             resolver := resolver st |})).

Definition push_created (o : Object) : M () := action (λ st,
  (Ok (), {| conflicts := conflicts st; created := created st ++ [o];
             resolver := resolver st |})).

Definition child_conflict (path : string) (ours theirs base : option Object) : Conflict := {|
  conflict_path := path;
  conflict_ours := conflict_value_of <$> ours;
  conflict_theirs := conflict_value_of <$> theirs;
  conflict_base := conflict_value_of <$> base;
  suggested_resolution := None |}.

(** [format!("{}{}{}", path, if path == "/" { "" } else { "/" }, key)]. *)
Definition merge_child_path (path key : string) : string :=
  path +:+ (if decide (path = "/") then EmptyString else "/") +:+ key.

(** The loop body of [merge_maps] for one key: what it inserts under the key. *)
Definition merge_key (rec : string → Object → Object → Object → M Object) (path : string)
    (base_entries our_entries their_entries : gmap string ObjectId) (key : string) :
    M (option ObjectId) :=
  let child_path := merge_child_path path key in
  match base_entries !! key, our_entries !! key, their_entries !! key with
  | Some b, Some o, Some t =>
      if decide (o = t) then mret (Some o)
      else if decide (b = o) then mret (Some t)
      else if decide (b = t) then mret (Some o)
      else
        base_obj ← resolve_id b;
        our_obj ← resolve_id o;
        their_obj ← resolve_id t;
        match base_obj, our_obj, their_obj with
        | Some bo, Some oo, Some to =>
            merged_child ← rec child_path bo oo to;
            mret (Some (oid_of merged_child))
        | _, _, _ =>
            _ ← push_conflict (child_conflict child_path None None None);
            mret (Some o)
        end
  | None, Some o, None => mret (Some o)
  | None, None, Some t => mret (Some t)
  | None, Some o, Some t =>
      if decide (o = t) then mret (Some o) else
      oo ← resolve_id o;
      to ← resolve_id t;
      match oo, to with
      | Some (ONode (NMap om)), Some (ONode (NMap tm)) =>
          merged_child ← rec child_path empty_map (ONode (NMap om)) (ONode (NMap tm));
          mret (Some (oid_of merged_child))
      | _, _ =>
          co ← resolve_id o;
          ct ← resolve_id t;
          _ ← push_conflict (child_conflict child_path co ct None);
          mret (Some o)
      end
  | Some b, None, Some t =>
      if decide (b = t) then mret None else
      ct ← resolve_id t;
      cb ← resolve_id b;
      _ ← push_conflict (child_conflict child_path None ct cb);
      mret None
  | Some b, Some o, None =>
      if decide (b = o) then mret None else
      co ← resolve_id o;
      cb ← resolve_id b;
      _ ← push_conflict (child_conflict child_path co None cb);
      mret (Some o)
  | Some _, None, None => mret None
  | None, None, None => mret None
  end.

Fixpoint merge_keys (body : string → M (option ObjectId)) (keys : list string)
    (merged : gmap string ObjectId) : M (gmap string ObjectId) :=
  match keys with
  | [] => mret merged
  | key :: keys' =>
      v ← body key;
      merge_keys body keys'
        (match v with Some id => <[key := id]> merged | None => merged end)
  end.

Definition merge_maps (rec : string → Object → Object → Object → M Object) (path : string)
    (base_entries our_entries their_entries : gmap string ObjectId) : M Object :=
  let all_keys := sorted_keys (base_entries ∪ our_entries ∪ their_entries) in
  merged ← merge_keys (merge_key rec path base_entries our_entries their_entries) all_keys ∅;
  let obj := mk_map merged in
  _ ← push_created obj;
  mret obj.

Definition merge_lists (path : string) (base_items our_items their_items : list ObjectId) :
    M Object :=
  let obj := mk_list our_items in
  if decide (our_items = their_items) then
    _ ← push_created obj;
    mret obj
  else
    _ ← push_conflict {|
      conflict_path := path;
      conflict_ours := Some (complex_list (length our_items));
      conflict_theirs := Some (complex_list (length their_items));
      conflict_base := Some (complex_list (length base_items));
      suggested_resolution := None |};
    _ ← push_created obj;
    mret obj.

Definition merge_sets (our_items their_items : list ObjectId) : M Object :=
  let obj := mk_set (oid_set (our_items ++ their_items)) in
  _ ← push_created obj;
  mret obj.

Fixpoint merge_objects (fuel : nat) (path : string) (base ours theirs : Object) : M Object :=
  match fuel with
  | 0 => throw OutOfFuel
  | S fuel' =>
      if object_eqb ours theirs then mret ours
      else if object_eqb base ours then mret theirs
      else if object_eqb base theirs then mret ours
      else
        match base, ours, theirs with
        | ONode (NMap b), ONode (NMap o), ONode (NMap t) =>
            merge_maps (merge_objects fuel') path b o t
        | ONode (NList b), ONode (NList o), ONode (NList t) => merge_lists path b o t
        | ONode (NSet _), ONode (NSet o), ONode (NSet t) => merge_sets o t
        | _, _, _ =>
            _ ← push_conflict (child_conflict path (Some ours) (Some theirs) (Some base));
            mret ours
        end
  end.

(** [three_way_merge_collect], with the state the resolver is left in. *)
Definition merge_collect (fuel : nat) (base ours theirs : ObjectId) (r : R) :
    result (stop Empty_set) (MergeResult * list Object) * R :=
  if decide (base = ours) then (Ok (FastForward theirs, []), r)
  else if decide (base = theirs) then (Ok (FastForward ours, []), r)
  else if decide (ours = theirs) then (Ok (FastForward ours, []), r)
  else
    match resolve base r with
    | (None, r) => (Ok (FastForward theirs, []), r)
    | (Some base_obj, r) =>
        match resolve ours r with
        | (None, r) => (Ok (FastForward theirs, []), r)
        | (Some ours_obj, r) =>
            match resolve theirs r with
            | (None, r) => (Ok (FastForward ours, []), r)
            | (Some theirs_obj, r) =>
                match merge_objects fuel "/" base_obj ours_obj theirs_obj
                        {| conflicts := []; created := []; resolver := r |} with
                | (Err e, st) => (Err e, resolver st)
                | (Ok merged, st) =>
                    let result := match conflicts st with
                                  | [] => Success merged
                                  | cs => Conflicts merged cs
                                  end in
                    (Ok (result, created st), resolver st)
                end
            end
        end
    end.
End merge.

Arguments MergeState : clear implicits.

(** A resolver without state, and [TrackingResolver], whose state is the first
    id it could not resolve. *)
Definition plain (f : Resolver) : ObjectId → () → option Object * () := λ id r, (f id, r).

Definition tracking (f : Resolver) : ObjectId → option ObjectId → option Object * option ObjectId :=
  λ id missing,
    let found := f id in
    (found, match found, missing with None, None => Some id | _, _ => missing end).

Definition three_way_merge_collect `{CH : ContentHash} (f : Resolver) (fuel : nat)
    (base ours theirs : ObjectId) : result (stop Empty_set) (MergeResult * list Object) :=
  (merge_collect (plain f) fuel base ours theirs ()).1.

Definition three_way_merge `{CH : ContentHash} (f : Resolver) (fuel : nat)
    (base ours theirs : ObjectId) : result (stop Empty_set) MergeResult :=
  fst <$> three_way_merge_collect f fuel base ours theirs.

(** [Fail id] is the id the merge needed and could not resolve. *)
Definition try_three_way_merge_collect `{CH : ContentHash} (f : Resolver) (fuel : nat)
    (base ours theirs : ObjectId) : result (stop ObjectId) (MergeResult * list Object) :=
  match merge_collect (tracking f) fuel base ours theirs None with
  | (Err _, _) => Err OutOfFuel
  | (Ok _, Some id) => Err (Fail id)
  | (Ok out, None) => Ok out
  end.

(** ** What a run of the merge does *)

Definition is_node (o : Object) : Prop := match o with ONode _ => True | OAtom _ => False end.

Section runs.
Context `{CH : ContentHash} {R : Type}.
Context (resolve : ObjectId → R → option Object * R) (f : Resolver).
Context (Hf : ∀ id r, (resolve id r).1 = f id).

Abbreviation state := (MergeState R).

(** The accumulators only grow, and what is created are nodes. *)
Definition grows (st st' : state) : Prop :=
  conflicts st `prefix_of` conflicts st' ∧
  ∃ os, created st' = created st ++ os ∧ Forall is_node os.

#[export] Instance grows_preorder : PreOrder grows.
Proof.
  split.
  - intros st. split; [done|]. exists []. by rw app_nil_r.
  - intros s1 s2 s3 [H1 (o1 & E1 & F1)] [H2 (o2 & E2 & F2)]. split; [by trans (conflicts s2)|].
    exists (o1 ++ o2). rw E2 E1 app_assoc. split; [done|]. by apply Forall_app.
Qed.

Lemma grows_created st st' o : grows st st' → o ∈ created st → o ∈ created st'.
Proof. intros [_ (os & -> & _)] H. apply elem_of_app. by left. Qed.

Lemma grows_same_conflicts st1 st2 st3 st4 :
  grows st1 st2 → grows st2 st3 → grows st3 st4 → conflicts st4 = conflicts st1 →
  conflicts st3 = conflicts st2.
Proof.
  intros [H1 _] [H2 _] [H3 _] E. apply prefix_length in H1, H3.
  destruct H2 as [k Hk]. rewrite Hk length_app in H3. rewrite E in H3.
  destruct k; [by rewrite app_nil_r in Hk|]. simpl in H3. lia.
Qed.

Lemma resolve_id_run id st :
  ∃ r, resolve_id resolve id st =
    (Ok (f id), {| conflicts := conflicts st; created := created st; resolver := r |}).
Proof.
  unfold resolve_id, action. pose proof (Hf id (resolver st)) as H.
  destruct (resolve id (resolver st)) as [o r]. simpl in H. subst. by exists r.
Qed.

(** A bind whose first step only resolves. *)
Lemma resolve_bind {B} id (k : option Object → M B) st b st' :
  (resolve_id resolve id ≫= k) st = (Ok b, st') →
  ∃ r, k (f id) {| conflicts := conflicts st; created := created st; resolver := r |} =
    (Ok b, st').
Proof.
  intros (o & s & Hr & Hk)%stateful_bind_ok. destruct (resolve_id_run id st) as [r E].
  exists r. congruence.
Qed.

(** The three-way rule on one slot. *)
Definition pick3 {A} (b o t v : A) : Prop :=
  o = t ∧ v = o ∨ b = o ∧ v = t ∨ b = t ∧ v = o.

(** The three outcomes of a key: decided by the ids, a conflict that keeps
    ours, or the merge of the three children. *)
Lemma merge_key_cases rec path be oe te key st v st' :
  merge_key resolve rec path be oe te key st = (Ok v, st') →
  (st' = st ∧ pick3 (be !! key) (oe !! key) (te !! key) v) ∨
  (v = oe !! key ∧ created st' = created st ∧ ∃ c, conflicts st' = conflicts st ++ [c]) ∨
  (∃ bo oo to o t r sr, oe !! key = Some o ∧ te !! key = Some t ∧ o ≠ t ∧
    f o = Some oo ∧ f t = Some to ∧
    (be !! key = None ∧ bo = empty_map ∨
     ∃ b, be !! key = Some b ∧ b ≠ o ∧ b ≠ t ∧ f b = Some bo) ∧
    rec (merge_child_path path key) bo oo to
      {| conflicts := conflicts st; created := created st; resolver := sr |} = (Ok r, st') ∧
    v = Some (oid_of r)).
Proof.
  unfold merge_key, pick3.
  destruct (be !! key) as [b|], (oe !! key) as [o|], (te !! key) as [t|]; intros H.
  - case_decide; [inv_st; naive_solver|]. case_decide; [inv_st; naive_solver|].
    case_decide; [inv_st; naive_solver|].
    apply resolve_bind in H as [r1 H]. apply resolve_bind in H as [r2 H].
    apply resolve_bind in H as [r3 H]. simpl in H.
    destruct (f b) as [bo|] eqn:Hb, (f o) as [oo|] eqn:Ho, (f t) as [to|] eqn:Ht;
      inv_st; (right; right; by eexists bo, oo, to, o, t, _, _; split_and!; eauto 10) ||
      (unfold push_conflict in *; inv_st; simplify_eq/=; right; left; eauto).
  - case_decide; [inv_st; naive_solver|].
    apply resolve_bind in H as [r1 H]. apply resolve_bind in H as [r2 H]. unfold push_conflict in H.
    inv_st. simplify_eq/=. right; left. eauto.
  - case_decide; [inv_st; naive_solver|].
    apply resolve_bind in H as [r1 H]. apply resolve_bind in H as [r2 H]. unfold push_conflict in H.
    inv_st. simplify_eq/=. right; left. eauto.
  - inv_st. naive_solver.
  - case_decide; [inv_st; naive_solver|].
    apply resolve_bind in H as [r1 H]. apply resolve_bind in H as [r2 H]. simpl in H.
    destruct (f o) as [[a|[om|ol|os]]|] eqn:Ho, (f t) as [[a'|[tm|tl|ts]]|] eqn:Ht;
      try (apply resolve_bind in H as [r3 H]; apply resolve_bind in H as [r4 H];
           unfold push_conflict in H; inv_st; simplify_eq/=; right; left; by eauto).
    inv_st. right; right. eexists empty_map, _, _, o, t, _, _. split_and!; eauto 10.
  - inv_st. naive_solver.
  - inv_st. naive_solver.
  - inv_st. naive_solver.
Qed.

(** A key that is nowhere: the loop may as well have visited it. *)
Lemma merge_key_absent rec path be oe te key st :
  be !! key = None → oe !! key = None → te !! key = None →
  merge_key resolve rec path be oe te key st = (Ok None, st).
Proof. intros Hb Ho Ht. unfold merge_key. by rw Hb Ho Ht. Qed.

(** The loop over the keys, along any order on states its body keeps to: every
    key of the merged map was decided in a state between the ends. *)
Section loop.
Context (G : relation state) `{HG : !PreOrder G}.

Lemma merge_keys_run (body : string → M (option ObjectId)) keys merged st merged' st' :
  (∀ k st v st', body k st = (Ok v, st') → G st st') →
  NoDup keys → merge_keys body keys merged st = (Ok merged', st') →
  G st st' ∧
  (∀ k, k ∉ keys → merged' !! k = merged !! k) ∧
  (∀ k, k ∈ keys → merged !! k = None → ∃ s1 s2, G st s1 ∧ G s1 s2 ∧ G s2 st' ∧
     body k s1 = (Ok (merged' !! k), s2)).
Proof.
  intros Hbody Hn. revert merged st. induction Hn as [|k keys Hk Hn IH]; intros merged st H; simpl in H.
  - inv_st. split_and!; [done|done|]. by intros ? ?%elem_of_nil.
  - inv_st. rename x into v, x0 into s1.
    match goal with H : body k st = _ |- _ => rename H into Hkey; pose proof (Hbody _ _ _ _ Hkey) as Hg end.
    destruct (IH _ _ H) as (Hg' & Hout & Hin). split_and!.
    + by trans s1.
    + intros j [Hjk Hj]%not_elem_of_cons. rw Hout //. destruct v; [|done].
      by rw lookup_insert_ne.
    + intros j [-> |Hj]%elem_of_cons Hnone.
      * exists st, s1. split_and!; [done..|]. rw Hkey. do 2 f_equal.
        rw Hout //. destruct v; [by rw lookup_insert_eq|done].
      * destruct (Hin j) as (s2 & s3 & ? & ? & ? & ?); [done| |].
        { assert (j ≠ k) by (by intros ->). destruct v; [by rw lookup_insert_ne|done]. }
        exists s2, s3. split_and!; [by trans s1|done..].
Qed.

Lemma merge_maps_between rec path be oe te st r st' :
  (∀ k st v st', merge_key resolve rec path be oe te k st = (Ok v, st') → G st st') →
  merge_maps resolve rec path be oe te st = (Ok r, st') →
  ∃ merged s, r = mk_map merged ∧ G st s ∧ conflicts st' = conflicts s ∧
    created st' = created s ++ [r] ∧ resolver st' = resolver s ∧
    ∀ k, ∃ s1 s2, G st s1 ∧ G s1 s2 ∧ G s2 s ∧
      merge_key resolve rec path be oe te k s1 = (Ok (merged !! k), s2).
Proof.
  unfold merge_maps. intros Hbody H. inv_st. rename x into merged, x0 into s.
  unfold push_created in *. inv_st. simplify_eq/=.
  match goal with H : merge_keys _ _ _ _ = _ |- _ =>
    apply merge_keys_run in H as (Hg & Hout & Hin); [|done|apply sorted_keys_NoDup] end.
  exists merged, s. split_and!; [done..|].
  intros k. destruct (decide (k ∈ sorted_keys (be ∪ oe ∪ te))) as [Hk|Hk].
  - destruct (Hin k Hk) as (s1 & s2 & ?); [by rw lookup_empty|]. by exists s1, s2.
  - exists st, st. split_and!; [done..|]. rw Hout // lookup_empty.
    rewrite elem_of_sorted_keys -eq_None_not_Some !lookup_union_None in Hk.
    destruct Hk as [[??]?]. by apply merge_key_absent.
Qed.
End loop.

Lemma merge_key_grows rec path be oe te key st v st' :
  (∀ path b o t st r st', rec path b o t st = (Ok r, st') → grows st st') →
  merge_key resolve rec path be oe te key st = (Ok v, st') → grows st st'.
Proof.
  intros Hrec H. apply merge_key_cases in H
    as [[-> _]|[(_ & Hc & c & Hcs)|(bo & oo & to & o & t & r & sr & _ & _ & _ & _ & _ & _ & H & _)]].
  - done.
  - split; [rw Hcs; by eexists|]. exists []. by rw Hc app_nil_r.
  - by apply Hrec in H.
Qed.

Lemma merge_maps_run rec path be oe te st r st' :
  merge_maps resolve rec path be oe te st = (Ok r, st') →
  (∀ path b o t st r st', rec path b o t st = (Ok r, st') → grows st st') →
  ∃ merged s, r = mk_map merged ∧ grows st s ∧ grows s st' ∧
    conflicts st' = conflicts s ∧ created st' = created s ++ [r] ∧
    ∀ k, ∃ s1 s2, grows st s1 ∧ grows s1 s2 ∧ grows s2 s ∧
      merge_key resolve rec path be oe te k s1 = (Ok (merged !! k), s2).
Proof.
  intros H Hrec. apply (merge_maps_between grows) in H as (merged & s & -> & Hg & Hc & Hcr & _ & Hk).
  - exists merged, s. split_and!; [done..| |done|done|done]. split; [by rw Hc|]. rw Hcr.
    eexists. split; [done|]. by apply Forall_singleton.
  - intros k s1 v s2. by apply merge_key_grows.
Qed.

Lemma merge_objects_grows n path b o t st r st' :
  merge_objects resolve n path b o t st = (Ok r, st') → grows st st'.
Proof.
  revert path b o t st r st'. induction n as [|n IH]; intros path b o t st r st' H; simpl in H;
    [done|].
  do 3 (case_match; [by inv_st|]).
  assert (∀ st c, grows st {| conflicts := conflicts st ++ [c]; created := created st;
    resolver := resolver st |}) as Hc.
  { intros s c. split; [by eexists|]. exists []. by rw app_nil_r. }
  assert (∀ st o, is_node o → grows st {| conflicts := conflicts st; created := created st ++ [o];
    resolver := resolver st |}) as Hn.
  { intros s x Hx. split; [done|]. eexists. split; [done|]. by apply Forall_singleton. }
  destruct b as [b|[b|b|b]], o as [o|[o|o|o]], t as [t|[t|t|t]];
    try (unfold push_conflict in H; inv_st; simplify_eq/=; by apply Hc).
  - apply merge_maps_run in H as (merged & s & _ & Hg1 & Hg2 & _); [by trans s|done].
  - unfold merge_lists in H. case_decide; unfold push_conflict, push_created in *;
      inv_st; simplify_eq/=; [by apply Hn|]. etrans; [apply Hc|]. by apply (Hn {| conflicts := _ |}).
  - unfold merge_sets, push_created in H. inv_st. simplify_eq/=. by apply Hn.
Qed.
End runs.

(** ** The merged tree, read back from a store that has what was created *)

(** [f] with the objects of [l] persisted. *)
Definition with_created `{CH : ContentHash} (f : Resolver) (l : list Object) : Resolver := λ id,
  match f id with
  | Some o => Some o
  | None => List.find (λ o, bool_decide (oid_of o = id)) l
  end.

Definition addressed_resolver `{CH : ContentHash} (f : Resolver) : Prop :=
  ∀ i o, f i = Some o → oid_of o = i ∧ finite o.

(** The object a path of keys leads to. *)
Fixpoint lookup_path (f : Resolver) (o : Object) (p : list string) : option Object :=
  match p with
  | [] => Some o
  | k :: p' =>
      match o with
      | ONode (NMap m) => id ← m !! k; c ← f id; lookup_path f c p'
      | _ => None
      end
  end.

Section readback.
Context `{CH : ContentHash, CF : !CollisionFree} (f : Resolver) (Hf : addressed_resolver f).

Lemma with_created_old l i o : f i = Some o → with_created f l i = Some o.
Proof. unfold with_created. by intros ->. Qed.

Lemma with_created_new l o :
  Forall is_node l → o ∈ l → with_created f l (oid_of o) = Some o.
Proof.
  intros Hl Ho. assert (∀ x, is_node x → finite x) as Hn by by intros [].
  rewrite Forall_forall in Hl. unfold with_created. destruct (f (oid_of o)) as [o'|] eqn:E.
  - destruct (Hf _ _ E). f_equal. apply collision_free; auto.
  - destruct (List.find _ l) as [o'|] eqn:Ef.
    + apply List_find_Some in Ef as [Hin Hid%bool_decide_unpack].
      f_equal. apply collision_free; auto.
    + apply list_elem_of_In, (List.find_none _ _ Ef) in Ho.
      by apply bool_decide_eq_false in Ho.
Qed.

Lemma with_created_resolves l o :
  Forall is_node l → f (oid_of o) = Some o ∨ o ∈ l → with_created f l (oid_of o) = Some o.
Proof. intros Hl [H|H]; [by apply with_created_old|by apply with_created_new]. Qed.

Lemma readable_with_created l n o : readable f n o → readable (with_created f l) n o.
Proof.
  revert o. induction n as [|n IH]; intros o; [done|]. intros H id Hin.
  destruct (H id Hin) as (c & Hc & Hr). exists c. split; [by apply with_created_old|auto].
Qed.

Lemma lookup_path_eqb g a b p :
  object_eqb a b → p ≠ [] → lookup_path g a p = lookup_path g b p.
Proof.
  destruct a as [a|a], b as [b|b]; [by destruct p|done|done|].
  intros ->%bool_decide_unpack. done.
Qed.
End readback.

Section semantics.
Context `{CH : ContentHash, CF : !CollisionFree} {R : Type}.
Context (resolve : ObjectId → R → option Object * R) (f : Resolver).
Context (Hres : ∀ id r, (resolve id r).1 = f id) (Hf : addressed_resolver f).

(** The result is one of the sides or was recorded as created. *)
Lemma merge_objects_result n path b o t st r st' :
  merge_objects resolve n path b o t st = (Ok r, st') → r = o ∨ r = t ∨ r ∈ created st'.
Proof.
  destruct n as [|n]; [done|]. intros H. simpl in H.
  do 3 (case_match; [inv_st; naive_solver|]).
  destruct b as [b|[b|b|b]], o as [o|[o|o|o]], t as [t|[t|t|t]];
    try (unfold push_conflict in H; inv_st; simplify_eq/=; by left).
  - apply (merge_maps_run resolve f Hres) in H as (merged & s & -> & _ & _ & _ & -> & _).
    + set_solver.
    + intros *. by apply (merge_objects_grows resolve f).
  - unfold merge_lists, push_conflict, push_created in H. case_decide; inv_st; simplify_eq/=; by left.
  - unfold merge_sets, push_created in H. inv_st. simplify_eq/=. set_solver.
Qed.

Lemma merge_child_resolves n path b o t st r st' l :
  merge_objects resolve n path b o t st = (Ok r, st') →
  f (oid_of o) = Some o → f (oid_of t) = Some t → created st' ⊆ l → Forall is_node l →
  with_created f l (oid_of r) = Some r.
Proof.
  intros H Ho Ht Hl Hn. apply with_created_resolves; [done..|].
  apply merge_objects_result in H as [->|[->|Hr]]; [by left..|]. right. by apply Hl.
Qed.

Lemma self_resolves i o : f i = Some o → f (oid_of o) = Some o.
Proof. intros H. destruct (Hf _ _ H) as [-> _]. done. Qed.

(** Nothing in the merged tree dangles. *)
Lemma merge_objects_readable n path b o t st r st' l m :
  merge_objects resolve n path b o t st = (Ok r, st') →
  readable f m o → readable f m t → created st' ⊆ l → Forall is_node l →
  readable (with_created f l) m r.
Proof.
  revert path b o t st r st' m. induction n as [|n IH];
    intros path b o t st r st' m H Ho Ht Hl Hn; [done|]. simpl in H.
  assert (readable (with_created f l) m o) as Ho' by by apply readable_with_created.
  assert (readable (with_created f l) m t) as Ht' by by apply readable_with_created.
  do 3 (case_match; [inv_st; naive_solver|]).
  destruct b as [b|[b|b|b]], o as [o|[o|o|o]], t as [t|[t|t|t]];
    try (unfold push_conflict in H; inv_st; simplify_eq/=; exact Ho').
  - apply (merge_maps_run resolve f Hres) in H as (merged & s & -> & _ & Hg & _ & _ & Hk);
      [|intros *; by apply (merge_objects_grows resolve f)].
    destruct m as [|m]; [done|]. intros id [k Hid]%elem_of_map_children.
    destruct (Hk k) as (s1 & s2 & _ & _ & Hs2 & Hkey). rewrite Hid in Hkey.
    assert (∀ id, o !! k = Some id ∨ t !! k = Some id →
      ∃ c, with_created f l id = Some c ∧ readable (with_created f l) m c) as Hside.
    { intros id' [Hi|Hi]; [apply Ho'|apply Ht']; apply elem_of_map_children; eauto. }
    apply (merge_key_cases resolve f Hres) in Hkey
      as [[_ Hp]|[(Hv & _)|(bo & oo & to & oi & ti & c & sr & Hoi & Hti & _ & Hoo & Hto & _ & Hrec & Hv)]].
    + apply Hside. unfold pick3 in Hp. naive_solver.
    + apply Hside. naive_solver.
    + injection Hv as ->. exists c.
      assert (created s2 ⊆ l) as Hl2.
      { intros x Hx. apply Hl. by eapply grows_created, grows_created. }
      split; [eapply merge_child_resolves; eauto using self_resolves|].
      eapply IH; [done| | |done..].
      * destruct (Ho oi) as (c' & ? & ?); [apply elem_of_map_children; eauto|by simplify_eq].
      * destruct (Ht ti) as (c' & ? & ?); [apply elem_of_map_children; eauto|by simplify_eq].
  - unfold merge_lists, push_conflict, push_created in H.
    case_decide; inv_st; simplify_eq/=; exact Ho'.
  - unfold merge_sets, push_created in H. inv_st. simplify_eq/=.
    destruct m as [|m]; [done|]. intros id Hid. simpl in Hid.
    rewrite elem_of_dedup merge_sort_Permutation elem_of_oid_set elem_of_app in Hid.
    destruct Hid as [Hid|Hid]; [by apply Ho'|by apply Ht'].
Qed.

(** What a merge without conflicts owes each path: one side unchanged there
    gives the other side, agreement gives the agreed value. *)
Definition path_merged (g : Resolver) (p : list string) (b o t r : Object) : Prop :=
  let at_ x := lookup_path g x p in
  (at_ o = at_ b → at_ r = at_ t) ∧ (at_ t = at_ b → at_ r = at_ o) ∧
  (at_ o = at_ t → at_ r = at_ o).

Lemma pick3_paths g k p (be oe te re : gmap string ObjectId) :
  pick3 (be !! k) (oe !! k) (te !! k) (re !! k) →
  path_merged g (k :: p) (mk_map be) (mk_map oe) (mk_map te) (mk_map re).
Proof.
  unfold pick3, path_merged. simpl.
  intros [[E ->]|[[E ->]|[E ->]]]; rewrite ?E; split_and!; congruence.
Qed.

(** A child on both sides, under different ids, that is merged in turn. *)
Lemma child_paths g k p (be oe te re : gmap string ObjectId) oi ti bo oo to r :
  oe !! k = Some oi → te !! k = Some ti → re !! k = Some (oid_of r) → oi ≠ ti →
  g oi = Some oo → g ti = Some to → g (oid_of r) = Some r →
  oid_of oo = oi → oid_of to = ti →
  (be !! k = None ∧ bo = empty_map ∨
   ∃ bi, be !! k = Some bi ∧ bi ≠ oi ∧ bi ≠ ti ∧ g bi = Some bo ∧ oid_of bo = bi) →
  (p ≠ [] → path_merged g p bo oo to r) →
  path_merged g (k :: p) (mk_map be) (mk_map oe) (mk_map te) (mk_map re).
Proof.
  intros Ho Ht Hr Hne Hgo Hgt Hgr Io It Hb Hp. unfold path_merged in *. simpl.
  rw Ho Ht Hr /= Hgo Hgt Hgr /=.
  assert (∀ x : Object, p = [] → (be !! k ≫= λ id, g id ≫= λ c, lookup_path g c p) = Some x →
    oid_of x ≠ oi ∧ oid_of x ≠ ti) as Hroot.
  { intros x -> E. destruct Hb as [[Hb _]|(bi & Hb & ? & ? & Hgb & <-)];
      rewrite Hb /= ?Hgb /= in E; [done|]. by injection E as <-. }
  assert (p ≠ [] → (be !! k ≫= λ id, g id ≫= λ c, lookup_path g c p) = lookup_path g bo p) as Hsub.
  { intros Hn. destruct Hb as [[-> ->]|(bi & -> & _ & _ & Hgb & _)]; simpl; [by destruct p|].
    by rw Hgb. }
  destruct p as [|k' p].
  - simpl in *. split_and!; intros E; exfalso.
    + symmetry in E. by destruct (Hroot _ eq_refl E) as [? _].
    + symmetry in E. by destruct (Hroot _ eq_refl E) as [_ ?].
    + injection E as ->. congruence.
  - rw !Hsub //. by apply Hp.
Qed.

Lemma merge_objects_paths n path b o t st r st' l p :
  merge_objects resolve n path b o t st = (Ok r, st') → conflicts st' = conflicts st →
  created st' ⊆ l → Forall is_node l → p ≠ [] →
  path_merged (with_created f l) p b o t r.
Proof.
  revert path b o t st r st' p. induction n as [|n IH];
    intros path b o t st r st' p H Hc Hl Hn Hp; [done|]. simpl in H.
  assert (∀ x y, object_eqb x y → lookup_path (with_created f l) x p =
    lookup_path (with_created f l) y p) as Heqb by (intros; by apply lookup_path_eqb).
  unfold path_merged.
  destruct (object_eqb o t) eqn:E1; [inv_st; rewrite (Heqb r t); [naive_solver|by rw E1]|].
  destruct (object_eqb b o) eqn:E2; [inv_st; rewrite (Heqb b o); [naive_solver|by rw E2]|].
  destruct (object_eqb b t) eqn:E3; [inv_st; rewrite (Heqb b t); [naive_solver|by rw E3]|].
  assert (∀ c : Conflict, conflicts st ++ [c] ≠ conflicts st) as Hne.
  { intros c E. apply (f_equal length) in E. rewrite length_app /= in E. lia. }
  destruct b as [b|[b|b|b]], o as [o|[o|o|o]], t as [t|[t|t|t]];
    try (unfold push_conflict in H; inv_st; simplify_eq/=; by destruct (Hne _ Hc)).
  - apply (merge_maps_run resolve f Hres) in H as (merged & s & -> & Hg1 & Hg2 & Hcs & _ & Hk);
      [|intros *; by apply (merge_objects_grows resolve f)].
    destruct p as [|k p]; [done|]. destruct (Hk k) as (s1 & s2 & Hs1 & Hs12 & Hs2 & Hkey).
    assert (conflicts s2 = conflicts s1) as Hsame.
    { eapply grows_same_conflicts; [exact Hs1|exact Hs12|exact Hs2|congruence]. }
    apply (merge_key_cases resolve f Hres) in Hkey
      as [[_ Hp3]|[(_ & _ & c & Hcc)|(bo & oo & to & oi & ti & r & sr & Hoi & Hti & Hne' & Hoo &
        Hto & Hb & Hrec & Hv)]].
    + by apply pick3_paths.
    + exfalso. rewrite Hcc in Hsame. apply (f_equal length) in Hsame.
      rewrite length_app /= in Hsame. lia.
    + assert (created s2 ⊆ l) as Hl2.
      { intros x Hx. apply Hl. by eapply grows_created, grows_created. }
      destruct (Hf _ _ Hoo) as [Io _], (Hf _ _ Hto) as [It _].
      eapply (child_paths _ k p b o t merged oi ti bo oo to r);
        eauto using with_created_old, merge_child_resolves, self_resolves.
      destruct Hb as [?|(bi & ? & ? & ? & Hbi)]; [by left|right].
      exists bi. destruct (Hf _ _ Hbi). split_and!; auto using with_created_old.
  - unfold merge_lists, push_conflict, push_created in H.
    case_decide; inv_st; simplify_eq/=; [by destruct p|by destruct (Hne _ Hc)].
  - unfold merge_sets, push_created in H. inv_st. simplify_eq/=. by destruct p.
Qed.
End semantics.

(** ** Fuel, and what the resolver sees *)

Section total.
Context `{CH : ContentHash} {R : Type}.
Context (resolve : ObjectId → R → option Object * R) (f : Resolver).
Context (Hres : ∀ id r, (resolve id r).1 = f id).

Definition runs {A} (m : M (R := R) A) : Prop := ∀ st, ∃ a st', m st = (Ok a, st').

Lemma runs_ret {A} (a : A) : runs (mret a).
Proof. intros st. by exists a, st. Qed.

Lemma runs_bind {A B} (m : M A) (k : A → M B) : runs m → (∀ a, runs (k a)) → runs (m ≫= k).
Proof.
  intros Hm Hk st. destruct (Hm st) as (a & s & E). destruct (Hk a s) as (b & s' & E').
  exists b, s'. apply stateful_bind_ok. eauto.
Qed.

Lemma runs_resolve {B} id (k : option Object → M B) :
  runs (k (f id)) → runs (resolve_id resolve id ≫= k).
Proof.
  intros Hk st. destruct (resolve_id_run resolve f Hres id st) as [r E].
  destruct (Hk {| conflicts := conflicts st; created := created st; resolver := r |})
    as (b & s & E'). exists b, s. apply stateful_bind_ok. eauto.
Qed.

Lemma runs_push_conflict c : runs (push_conflict c).
Proof. intros st. by eexists _, _. Qed.
Lemma runs_push_created c : runs (push_created c).
Proof. intros st. by eexists _, _. Qed.

Lemma merge_key_runs rec path be oe te key :
  (∀ p b o t oi, oe !! key = Some oi → f oi = Some o → runs (rec p b o t)) →
  runs (merge_key resolve rec path be oe te key).
Proof.
  intros Hrec. unfold merge_key.
  destruct (be !! key) as [b|], (oe !! key) as [o|] eqn:Ho, (te !! key) as [t|];
    repeat case_decide; try apply runs_ret; repeat (apply runs_resolve);
    repeat case_match; repeat (apply runs_resolve);
    repeat (apply runs_bind; [first [by eapply Hrec | apply runs_push_conflict]|intros ?]);
    apply runs_ret.
Qed.

Lemma merge_keys_runs (body : string → M (option ObjectId)) keys merged :
  (∀ k, runs (body k)) → runs (merge_keys body keys merged).
Proof.
  intros Hb. revert merged. induction keys as [|k keys IH]; intros merged; [apply runs_ret|].
  apply runs_bind; [apply Hb|]. intros v. apply IH.
Qed.

(** The height of our side is enough fuel. *)
Lemma merge_objects_runs n path b o t :
  bounded f n o → runs (merge_objects resolve n path b o t).
Proof.
  revert path b o t. induction n as [|n IH]; intros path b o t Ho; [done|]. simpl.
  do 3 (case_match; [apply runs_ret|]).
  assert (∀ c x, runs (_ ← push_conflict c; mret x : M Object)) as Hc.
  { intros. apply runs_bind; [apply runs_push_conflict|intros; apply runs_ret]. }
  assert (∀ x, runs (_ ← push_created x; mret x : M Object)) as Hcr.
  { intros. apply runs_bind; [apply runs_push_created|intros; apply runs_ret]. }
  destruct b as [b|[b|b|b]], o as [o|[o|o|o]], t as [t|[t|t|t]]; try apply Hc.
  - unfold merge_maps. apply runs_bind; [|intros merged; apply Hcr].
    apply merge_keys_runs. intros k. apply merge_key_runs.
    intros p x y z oi Hoi Hy. apply IH. apply (Ho oi); [|done].
    apply elem_of_map_children. eauto.
  - unfold merge_lists. case_decide; [apply Hcr|].
    apply runs_bind; [apply runs_push_conflict|]. intros. apply Hcr.
  - apply Hcr.
Qed.
End total.

(** ** Two resolvers of the same objects

    Whatever state a resolver keeps, the merge only depends on what it
    resolves. *)
Section simulation.
Context `{CH : ContentHash} {R1 R2 : Type}.
Context (resolve1 : ObjectId → R1 → option Object * R1).
Context (resolve2 : ObjectId → R2 → option Object * R2).
Context (Hsim : ∀ id r1 r2, (resolve1 id r1).1 = (resolve2 id r2).1).

Definition same_state (s1 : MergeState R1) (s2 : MergeState R2) : Prop :=
  conflicts s1 = conflicts s2 ∧ created s1 = created s2.

Definition sim {A} (m1 : M (R := R1) A) (m2 : M (R := R2) A) : Prop :=
  ∀ s1 s2, same_state s1 s2 → (m1 s1).1 = (m2 s2).1 ∧ same_state (m1 s1).2 (m2 s2).2.

Lemma sim_ret {A} (a : A) : sim (mret a) (mret a).
Proof. by intros s1 s2 H. Qed.

Lemma sim_bind {A B} (m1 m2 : _) (k1 k2 : A → _) :
  sim m1 m2 → (∀ a, sim (k1 a) (k2 a)) → @sim B (m1 ≫= k1) (m2 ≫= k2).
Proof.
  intros Hm Hk s1 s2 Hs. destruct (Hm s1 s2 Hs) as [H1 H2].
  unfold mbind, stateful_bind. destruct (m1 s1) as [r1 t1], (m2 s2) as [r2 t2].
  simpl in *. subst. destruct r2 as [a|e]; [by apply Hk|done].
Qed.

Lemma sim_resolve id : sim (resolve_id resolve1 id) (resolve_id resolve2 id).
Proof.
  intros s1 s2 Hs. unfold resolve_id, action. pose proof (Hsim id (resolver s1) (resolver s2)).
  destruct (resolve1 id (resolver s1)), (resolve2 id (resolver s2)). simpl in *. by subst.
Qed.

Lemma sim_push_conflict c : sim (push_conflict c) (push_conflict c).
Proof. intros s1 s2 [H1 H2]. split; [done|]. split; [|done]. simpl. by rw H1. Qed.
Lemma sim_push_created c : sim (push_created c) (push_created c).
Proof. intros s1 s2 [H1 H2]. split; [done|]. split; [done|]. simpl. by rw H2. Qed.

#[local] Hint Resolve sim_ret sim_resolve sim_push_conflict sim_push_created : core.

Lemma sim_merge_key rec1 rec2 path be oe te key :
  (∀ p b o t, sim (rec1 p b o t) (rec2 p b o t)) →
  sim (merge_key resolve1 rec1 path be oe te key) (merge_key resolve2 rec2 path be oe te key).
Proof.
  intros Hrec. unfold merge_key.
  destruct (be !! key), (oe !! key), (te !! key); repeat case_decide; auto;
    repeat (apply sim_bind; [by auto|intros ?]); repeat case_match; auto;
    repeat (apply sim_bind; [by auto|intros ?]); auto.
Qed.

Lemma sim_merge_keys b1 b2 keys merged :
  (∀ k, sim (b1 k) (b2 k)) → sim (merge_keys b1 keys merged) (merge_keys b2 keys merged).
Proof.
  intros Hb. revert merged. induction keys as [|k keys IH]; intros merged; [apply sim_ret|].
  apply sim_bind; [apply Hb|]. intros v. apply IH.
Qed.

Lemma sim_merge_objects n path b o t :
  sim (merge_objects resolve1 n path b o t) (merge_objects resolve2 n path b o t).
Proof.
  revert path b o t. induction n as [|n IH]; intros path b o t; simpl; [by intros s1 s2 Hs|].
  do 3 (case_match; [auto|]).
  destruct b as [b|[b|b|b]], o as [o|[o|o|o]], t as [t|[t|t|t]];
    try (apply sim_bind; auto).
  - apply sim_merge_keys. intros k. by apply sim_merge_key.
  - intros merged. apply sim_bind; auto.
  - unfold merge_lists. case_decide; repeat (apply sim_bind; [by auto|intros ?]); auto.
Qed.

Lemma sim_merge_collect n base ours theirs r1 r2 :
  (merge_collect resolve1 n base ours theirs r1).1 =
  (merge_collect resolve2 n base ours theirs r2).1.
Proof.
  unfold merge_collect. repeat (case_decide; [done|]).
  pose proof (Hsim base r1 r2) as Hb.
  destruct (resolve1 base r1) as [x1 q1], (resolve2 base r2) as [x2 q2]; simpl in Hb; subst.
  destruct x2 as [bo|]; [|done]. pose proof (Hsim ours q1 q2) as Ho.
  destruct (resolve1 ours q1) as [y1 u1], (resolve2 ours q2) as [y2 u2]; simpl in Ho; subst.
  destruct y2 as [oo|]; [|done]. pose proof (Hsim theirs u1 u2) as Ht.
  destruct (resolve1 theirs u1) as [z1 v1], (resolve2 theirs u2) as [z2 v2]; simpl in Ht; subst.
  destruct z2 as [to|]; [|done].
  destruct (sim_merge_objects n "/" bo oo to
    {| conflicts := []; created := []; resolver := v1 |}
    {| conflicts := []; created := []; resolver := v2 |}) as [Hr [Hc Hcr]]; [done|].
  destruct (merge_objects resolve1 _ _ _ _ _ _) as [r s], (merge_objects resolve2 _ _ _ _ _ _) as [r' s'].
  simpl in *. subst. rw Hc Hcr. by destruct r'.
Qed.
End simulation.

(** ** The ids a merge asks for

    An invariant [I] of the resolver's state that resolving an id of [P]
    keeps is kept by the merge of trees whose ids are all in [P]. *)
Section keeping.
Context `{CH : ContentHash} {R : Type}.
Context (resolve : ObjectId → R → option Object * R) (f : Resolver).
Context (Hres : ∀ id r, (resolve id r).1 = f id).
Context (I : R → Prop) (P : ObjectId → Prop).
Context (Hkeep : ∀ id r, P id → I r → I (resolve id r).2).

Fixpoint touches (n : nat) (o : Object) : Prop :=
  match n with
  | 0 => True
  | S n' => ∀ id, id ∈ children o → P id ∧ ∀ c, f id = Some c → touches n' c
  end.

Definition keeps {A} (m : M (R := R) A) : Prop :=
  ∀ st, I (resolver st) → I (resolver (m st).2).

Lemma keeps_ret {A} (a : A) : keeps (mret a).
Proof. by intros st. Qed.

Lemma keeps_bind {A B} (m : M A) (k : A → M B) : keeps m → (∀ a, keeps (k a)) → keeps (m ≫= k).
Proof.
  intros Hm Hk st Hst. unfold mbind, stateful_bind. specialize (Hm st Hst).
  destruct (m st) as [[a|e] s]; [|done]. by apply Hk.
Qed.

Lemma keeps_resolve {B} id (k : option Object → M B) :
  P id → keeps (k (f id)) → keeps (resolve_id resolve id ≫= k).
Proof.
  intros Hid Hk st Hst. unfold mbind, stateful_bind, resolve_id, action.
  pose proof (Hkeep id (resolver st) Hid Hst) as Hi. pose proof (Hres id (resolver st)) as Hr.
  destruct (resolve id (resolver st)) as [x r]. simpl in *. subst. by apply Hk.
Qed.

Lemma keeps_push_conflict c : keeps (push_conflict c).
Proof. by intros st. Qed.
Lemma keeps_push_created c : keeps (push_created c).
Proof. by intros st. Qed.

Lemma keeps_merge_key n rec path be oe te key :
  (∀ p b o t, touches n b → touches n o → touches n t → keeps (rec p b o t)) →
  touches (S n) (mk_map be) → touches (S n) (mk_map oe) → touches (S n) (mk_map te) →
  keeps (merge_key resolve rec path be oe te key).
Proof.
  intros Hrec Hb Ho Ht.
  assert (∀ m id, touches (S n) (mk_map m) → m !! key = Some id →
    P id ∧ ∀ c, f id = Some c → touches n c) as Hch.
  { intros m id Hm Hid. apply Hm, elem_of_map_children. eauto. }
  assert (touches n empty_map) as He by (destruct n; [done|]; by intros id ?%elem_of_nil).
  unfold merge_key.
  destruct (be !! key) as [b|] eqn:Eb, (oe !! key) as [o|] eqn:Eo, (te !! key) as [t|] eqn:Et;
    repeat match goal with
    | E : ?m !! key = Some ?id, H : touches (S n) (mk_map ?m) |- _ =>
        destruct (Hch m id H E); clear H
    end;
    repeat case_decide; try apply keeps_ret;
    repeat (apply keeps_resolve; [done|]); repeat case_match;
    repeat (apply keeps_resolve; [done|]);
    repeat (apply keeps_bind; [first [by apply Hrec; auto | apply keeps_push_conflict]|intros ?]);
    apply keeps_ret.
Qed.

Lemma keeps_merge_objects n path b o t :
  touches n b → touches n o → touches n t → keeps (merge_objects resolve n path b o t).
Proof.
  revert path b o t. induction n as [|n IH]; intros path b o t Hb Ho Ht; [by intros st|].
  cbn [merge_objects]. do 3 (case_match; [apply keeps_ret|]).
  assert (∀ c x, keeps (_ ← push_conflict c; mret x : M Object)) as Hc.
  { intros. apply keeps_bind; [apply keeps_push_conflict|intros; apply keeps_ret]. }
  assert (∀ x, keeps (_ ← push_created x; mret x : M Object)) as Hcr.
  { intros. apply keeps_bind; [apply keeps_push_created|intros; apply keeps_ret]. }
  destruct b as [b|[b|b|b]], o as [o|[o|o|o]], t as [t|[t|t|t]]; try apply Hc.
  - unfold merge_maps. apply keeps_bind; [|intros merged; apply Hcr].
    generalize (∅ : gmap string ObjectId).
    induction (sorted_keys (b ∪ o ∪ t)) as [|k keys IHk]; intros merged; [apply keeps_ret|].
    apply keeps_bind; [|intros v; apply IHk]. by apply (keeps_merge_key n).
  - unfold merge_lists. case_decide; [apply Hcr|].
    apply keeps_bind; [apply keeps_push_conflict|]. intros. apply Hcr.
  - apply Hcr.
Qed.
End keeping.

Lemma readable_touches (f : Resolver) m n o :
  readable f m o → touches f (λ id, is_Some (f id)) n o.
Proof.
  revert m o. induction n as [|n IH]; intros [|m] o H; [done..|]. intros id Hid.
  destruct (H id Hid) as (c & Hc & Hr). rw Hc. split; [eauto|]. intros c' [= <-]. by eapply IH.
Qed.

(** ** Properties *)

Lemma merge_collect_success `{CH : ContentHash} f n base ours theirs bo oo to r cr :
  f base = Some bo → f ours = Some oo → f theirs = Some to →
  three_way_merge_collect f n base ours theirs = Ok (r, cr) →
  (∃ id, r = FastForward id ∧ (base = ours ∨ base = theirs ∨ ours = theirs)) ∨
  ∃ o st, merge_objects (plain f) n "/" bo oo to
      {| conflicts := []; created := []; resolver := () |} = (Ok o, st) ∧ cr = created st ∧
    (r = Success o ∧ conflicts st = [] ∨ r = Conflicts o (conflicts st) ∧ conflicts st ≠ []).
Proof.
  intros Hb Ho Ht. unfold three_way_merge_collect, merge_collect.
  repeat (case_decide; [intros [= <- <-]; left; naive_solver|]).
  unfold plain at 1. rw Hb. unfold plain at 1. rw Ho. unfold plain at 1. rw Ht.
  destruct (merge_objects _ _ _ _ _ _ _) as [[o|e] st] eqn:E; [|done]. intros [= <- <-].
  right. exists o, st. split_and!; [done..|]. destruct (conflicts st); [by left|by right].
Qed.

(** What a merge makes can be stored. *)
Lemma merge_result_finite `{CH : ContentHash, CF : !CollisionFree} f n base ours theirs bo oo to r cr o :
  addressed_resolver f → f base = Some bo → f ours = Some oo → f theirs = Some to →
  three_way_merge_collect f n base ours theirs = Ok (r, cr) →
  r = Success o ∨ (∃ cs, r = Conflicts o cs) → Forall finite (cr ++ [o]).
Proof.
  intros Hf Hb Ho Ht H Hr.
  destruct (merge_collect_success _ _ _ _ _ _ _ _ _ _ Hb Ho Ht H)
    as [(? & -> & _)|(o' & st & Hm & -> & Ho')]; [by destruct Hr as [|[??]]|].
  assert (o' = o) as -> by naive_solver.
  assert (∀ id r, (plain f id r).1 = f id) as Hres by done.
  assert (Forall is_node (created st)) as Hn.
  { by destruct (merge_objects_grows _ f Hres _ _ _ _ _ _ _ _ Hm) as [_ (os & -> & ?)]. }
  assert (∀ x, is_node x → finite x) as Hfin by by intros [].
  apply Forall_app. split; [by eapply Forall_impl|]. apply Forall_singleton.
  apply (merge_objects_result (plain f) f Hres Hf) in Hm as [->|[->|Hin]];
    [by apply (Hf _ _ Ho)|by apply (Hf _ _ Ht)|].
  rewrite Forall_forall in Hn. by apply Hfin, Hn.
Qed.

Lemma merge_success_ok `{CH : ContentHash, CF : !CollisionFree}
    f n base ours theirs bo oo to r cr p :
  addressed_resolver f → f base = Some bo → f ours = Some oo → f theirs = Some to →
  three_way_merge_collect f n base ours theirs = Ok (Success r, cr) → p ≠ [] →
  let g := with_created f cr in
  g (oid_of r) = Some r ∧
  (lookup_path g oo p = lookup_path g bo p → lookup_path g r p = lookup_path g to p) ∧
  (lookup_path g to p = lookup_path g bo p → lookup_path g r p = lookup_path g oo p) ∧
  (lookup_path g oo p = lookup_path g to p → lookup_path g r p = lookup_path g oo p).
Proof.
  intros Hf Hb Ho Ht H Hp g.
  destruct (merge_collect_success _ _ _ _ _ _ _ _ _ _ Hb Ho Ht H)
    as [(? & ? & _)|(o & st & Hm & -> & [[[= <-] Hc]|[? _]])]; [done| |done].
  assert (∀ id r, (plain f id r).1 = f id) as Hres by done.
  assert (Forall is_node (created st)) as Hn.
  { by destruct (merge_objects_grows _ f Hres _ _ _ _ _ _ _ _ Hm) as [_ (os & -> & ?)]. }
  split.
  - eapply (merge_child_resolves (plain f) f Hres Hf); eauto using self_resolves.
  - by apply (merge_objects_paths (plain f) f Hres Hf _ _ _ _ _ _ _ _ _ _ Hm).
Qed.

(** C14: a merge without conflicts combines the two sides path by path: where
    our side is unchanged from the base the merged tree has their value, where
    their side is unchanged it has ours, and where the sides agree it has the
    common value; all read back from the store once what the merge created is
    persisted in it. *)
Theorem merge_success_paths `{CH : ContentHash, CF : !CollisionFree}
    f n base ours theirs bo oo to r cr p :
  addressed_resolver f → f base = Some bo → f ours = Some oo → f theirs = Some to →
  three_way_merge_collect f n base ours theirs = Ok (Success r, cr) → p ≠ [] →
  let g := with_created f cr in
  g (oid_of r) = Some r ∧
  (lookup_path g oo p = lookup_path g bo p → lookup_path g r p = lookup_path g to p) ∧
  (lookup_path g to p = lookup_path g bo p → lookup_path g r p = lookup_path g oo p) ∧
  (lookup_path g oo p = lookup_path g to p → lookup_path g r p = lookup_path g oo p).
Proof. apply merge_success_ok. Qed.

(** C15: no merge result dangles: if both sides can be read down to the leaves,
    then so can the merged tree, conflicts or not, in the store extended with
    the objects the merge reports as created. *)
Theorem merge_result_readable `{CH : ContentHash, CF : !CollisionFree}
    f n m base ours theirs bo oo to r cr o :
  addressed_resolver f → f base = Some bo → f ours = Some oo → f theirs = Some to →
  readable f m oo → readable f m to →
  three_way_merge_collect f n base ours theirs = Ok (r, cr) →
  r = Success o ∨ (∃ cs, r = Conflicts o cs) →
  with_created f cr (oid_of o) = Some o ∧ readable (with_created f cr) m o.
Proof.
  intros Hf Hb Ho Ht Hro Hrt H Hr.
  destruct (merge_collect_success _ _ _ _ _ _ _ _ _ _ Hb Ho Ht H)
    as [(? & -> & _)|(o' & st & Hm & -> & Ho')]; [by destruct Hr as [|[??]]|].
  assert (o' = o) as -> by naive_solver.
  assert (∀ id r, (plain f id r).1 = f id) as Hres by done.
  assert (Forall is_node (created st)) as Hn.
  { by destruct (merge_objects_grows _ f Hres _ _ _ _ _ _ _ _ Hm) as [_ (os & -> & ?)]. }
  split.
  - eapply (merge_child_resolves (plain f) f Hres Hf); eauto using self_resolves.
  - by eapply (merge_objects_readable (plain f) f Hres Hf).
Qed.

Lemma tracking_keeps (f : Resolver) id r :
  (∀ i, r = Some i → f i = None) → ∀ i, (tracking f id r).2 = Some i → f i = None.
Proof. intros Hr i. unfold tracking. destruct (f id) eqn:E, r; simpl; naive_solver. Qed.

Lemma tracking_present (f : Resolver) id r : is_Some (f id) → (tracking f id r).2 = r.
Proof. intros [o Ho]. unfold tracking. by rw Ho. Qed.

(** Equal roots are fast-forwarded, and nothing else is. *)
Lemma merge_fast_forward `{CH : ContentHash} f n base ours theirs r cr :
  three_way_merge_collect f n base ours theirs = Ok (r, cr) →
  (base = ours ∨ base = theirs ∨ ours = theirs) ∧ (∃ id, r = FastForward id) ∧ cr = [] ∨
  base ≠ ours ∧ base ≠ theirs ∧ ours ≠ theirs.
Proof.
  unfold three_way_merge_collect, merge_collect.
  repeat (case_decide; [intros [= <- <-]; left; split_and!; eauto|]). by right.
Qed.

(** When the tracking merge returns a result, it is the plain merge's. *)
Lemma try_merge_result `{CH : ContentHash} f n base ours theirs out :
  try_three_way_merge_collect f n base ours theirs = Ok out →
  three_way_merge_collect f n base ours theirs = Ok out ∧
  (base = ours ∨ base = theirs ∨ ours = theirs ∨
   is_Some (f base) ∧ is_Some (f ours) ∧ is_Some (f theirs)).
Proof.
  unfold try_three_way_merge_collect, three_way_merge_collect.
  rw (sim_merge_collect (plain f) (tracking f) (λ _ _ _, eq_refl) n base ours theirs () None).
  destruct (merge_collect (tracking f) n base ours theirs None) as [res miss] eqn:E.
  simpl. destruct res as [out'|]; [|done]. destruct miss; [done|]. intros [= ->]. split; [done|].
  revert E. unfold merge_collect. repeat (case_decide; [by intros _; tauto|]). intros E.
  assert (∀ id, f id = None → tracking f id None = (None, Some id)) as Hnone.
  { intros id Hid. unfold tracking. by rw Hid. }
  assert (∀ id o, f id = Some o → tracking f id None = (Some o, None)) as Hsome.
  { intros id o Hid. unfold tracking. by rw Hid. }
  right; right; right.
  destruct (f base) as [bo|] eqn:Hb; [rewrite (Hsome _ _ Hb) in E|by rewrite (Hnone _ Hb) in E].
  destruct (f ours) as [oo|] eqn:Ho; [rewrite (Hsome _ _ Ho) in E|by rewrite (Hnone _ Ho) in E].
  destruct (f theirs) as [to|] eqn:Ht; [|by rewrite (Hnone _ Ht) in E]. by split_and!.
Qed.

Lemma try_merge_ok `{CH : ContentHash} f n m base ours theirs :
  (∀ oo, f ours = Some oo → bounded f n oo) →
  match try_three_way_merge_collect f n base ours theirs with
  | Ok out => three_way_merge_collect f n base ours theirs = Ok out ∧
      (base = ours ∨ base = theirs ∨ ours = theirs ∨
       is_Some (f base) ∧ is_Some (f ours) ∧ is_Some (f theirs))
  | Err (Fail id) => f id = None ∧
      ¬ (∃ bo oo to, f base = Some bo ∧ f ours = Some oo ∧ f theirs = Some to ∧
         readable f m bo ∧ readable f m oo ∧ readable f m to)
  | Err OutOfFuel => False
  end.
Proof.
  intros Hbd. unfold try_three_way_merge_collect, three_way_merge_collect.
  rw (sim_merge_collect (plain f) (tracking f) (λ _ _ _, eq_refl) n base ours theirs () None).
  destruct (merge_collect (tracking f) n base ours theirs None) as [res miss] eqn:E.
  simpl. unfold merge_collect in E.
  repeat (case_decide; [injection E as <- <-; tauto|]).
  assert (∀ id, f id = None → tracking f id None = (None, Some id)) as Hnone.
  { intros id Hid. unfold tracking. by rw Hid. }
  assert (∀ id o, f id = Some o → tracking f id None = (Some o, None)) as Hsome.
  { intros id o Hid. unfold tracking. by rw Hid. }
  destruct (f base) as [bo|] eqn:Hb;
    [rewrite (Hsome _ _ Hb) in E|rewrite (Hnone _ Hb) in E; injection E as <- <-;
      split; [done|intros (? & ? & ? & ? & ? & ? & _); congruence]].
  destruct (f ours) as [oo|] eqn:Ho;
    [rewrite (Hsome _ _ Ho) in E|rewrite (Hnone _ Ho) in E; injection E as <- <-;
      split; [done|intros (? & ? & ? & ? & ? & ? & _); congruence]].
  destruct (f theirs) as [to|] eqn:Ht;
    [rewrite (Hsome _ _ Ht) in E|rewrite (Hnone _ Ht) in E; injection E as <- <-;
      split; [done|intros (? & ? & ? & ? & ? & ? & _); congruence]].
  revert E. set (st0 := {| conflicts := []; created := []; resolver := None |}).
  destruct (merge_objects_runs (tracking f) f (λ _ _, eq_refl) n "/" bo oo to (Hbd _ eq_refl) st0)
    as (o & st & Hm). rw Hm. intros [= <- <-].
  destruct (resolver st) as [id|] eqn:Hr; [|split; [done|right; right; right; eauto]]. split.
  - assert (∀ i, resolver st = Some i → f i = None) as HI; [|by apply HI].
    pose proof (keeps_merge_objects (tracking f) f (λ _ _, eq_refl)
      (λ r, ∀ i, r = Some i → f i = None) (λ _, True) (λ i r _, tracking_keeps f i r)
      n "/" bo oo to) as Hk.
    assert (∀ n o, touches f (λ _, True) n o) as Hto.
    { clear. induction n as [|n IH]; intros o; [done|]. intros id _. split; [done|]. auto. }
    specialize (Hk (Hto _ _) (Hto _ _) (Hto _ _) st0). rewrite Hm in Hk. by apply Hk.
  - intros (bo' & oo' & to' & [= <-] & [= <-] & [= <-] & Rb & Ro & Rt).
    pose proof (keeps_merge_objects (tracking f) f (λ _ _, eq_refl)
      (λ r, r = None) (λ i, is_Some (f i))
      (λ i r Hi Hr, eq_trans (tracking_present f i r Hi) Hr) n "/" bo oo to
      (readable_touches f m n bo Rb) (readable_touches f m n oo Ro)
      (readable_touches f m n to Rt) st0 eq_refl) as Hk.
    rewrite Hm /= in Hk. congruence.
Qed.

(** C16: the merge that lands results never guesses: with fuel for the height
    of our side it returns, an id it reports missing is one the store does not
    resolve, when it returns a result that is the plain merge's result and
    every root it needed resolved, and over three readable trees it always
    returns a result. *)
Theorem try_merge_spec `{CH : ContentHash} f n m base ours theirs :
  (∀ oo, f ours = Some oo → bounded f n oo) →
  match try_three_way_merge_collect f n base ours theirs with
  | Ok out => three_way_merge_collect f n base ours theirs = Ok out ∧
      (base = ours ∨ base = theirs ∨ ours = theirs ∨
       is_Some (f base) ∧ is_Some (f ours) ∧ is_Some (f theirs))
  | Err (Fail id) => f id = None ∧
      ¬ (∃ bo oo to, f base = Some bo ∧ f ours = Some oo ∧ f theirs = Some to ∧
         readable f m bo ∧ readable f m oo ∧ readable f m to)
  | Err OutOfFuel => False
  end.
Proof. apply try_merge_ok. Qed.

Section witnesses.
  Import Plain.

(** Two sides that add a key each under a common directory. *)
Definition one : Object := mk_int 1.
Definition two : Object := mk_int 2.
Definition dir (l : list (string * Object)) : Object :=
  mk_map (list_to_map ((λ kv, (kv.1, oid_of kv.2)) <$> l)).
Definition base_dir := dir [("k", one)].
Definition our_dir := dir [("k", one); ("o", two)].
Definition their_dir := dir [("k", two)].
Definition base_root := dir [("d", base_dir)].
Definition our_root := dir [("d", our_dir)].
Definition their_root := dir [("d", their_dir)].
Definition merged_dir := dir [("k", two); ("o", two)].
Definition merged_root := dir [("d", merged_dir)].
Definition merge_store : Resolver := λ i,
  sample [one; two; base_dir; our_dir; their_dir; base_root; our_root; their_root] !! i.

Lemma merge_store_addressed : addressed_resolver merge_store.
Proof.
  intros i o [<- Hin]%sample_lookup. split; [done|].
  set_unfold in Hin. by destruct_or!; subst.
Qed.

Lemma merge_store_run :
  three_way_merge_collect merge_store 3 (oid_of base_root) (oid_of our_root) (oid_of their_root) =
  Ok (Success merged_root, [merged_dir; merged_root]).
Proof. by vm_compute. Qed.

Lemma merge_success_paths_witness :
  lookup_path (with_created merge_store [merged_dir; merged_root]) merged_root ["d"; "k"] =
  Some two.
Proof.
  destruct (merge_success_paths merge_store 3 (oid_of base_root) (oid_of our_root)
    (oid_of their_root) base_root our_root their_root merged_root [merged_dir; merged_root]
    ["d"; "k"] merge_store_addressed) as (_ & H & _ & _).
  - by vm_compute.
  - by vm_compute.
  - by vm_compute.
  - apply merge_store_run.
  - done.
  - rw H; by vm_compute.
Defined.

Lemma merge_result_readable_witness :
  readable (with_created merge_store [merged_dir; merged_root]) 3 merged_root.
Proof.
  apply (merge_result_readable merge_store 3 3 (oid_of base_root) (oid_of our_root)
    (oid_of their_root) base_root our_root their_root (Success merged_root)
    [merged_dir; merged_root] merged_root merge_store_addressed).
  - by vm_compute.
  - by vm_compute.
  - by vm_compute.
  - apply readableb_spec. by vm_compute.
  - apply readableb_spec. by vm_compute.
  - apply merge_store_run.
  - by left.
Defined.

Lemma try_merge_spec_witness :
  try_three_way_merge_collect merge_store 3 (oid_of base_root) (oid_of our_root)
    (oid_of their_root) = Ok (Success merged_root, [merged_dir; merged_root]) ∧
  three_way_merge_collect merge_store 3 (oid_of base_root) (oid_of our_root)
    (oid_of their_root) = Ok (Success merged_root, [merged_dir; merged_root]).
Proof.
  assert (∀ oo, merge_store (oid_of our_root) = Some oo → bounded merge_store 3 oo) as Hb.
  { intros oo Hoo. assert (oo = our_root) as -> by (apply (inj Some); rewrite -Hoo; by vm_compute).
    apply readable_bounded, readableb_spec. by vm_compute. }
  pose proof (try_merge_spec merge_store 3 3 (oid_of base_root) (oid_of our_root)
    (oid_of their_root) Hb) as H.
  assert (try_three_way_merge_collect merge_store 3 (oid_of base_root) (oid_of our_root)
    (oid_of their_root) = Ok (Success merged_root, [merged_dir; merged_root])) as E
    by by vm_compute.
  rewrite E in H. split; [done|apply H].
Defined.
End witnesses.
