(* ===== verification/Clashes.v ===== *)
(** * Clashes: what a merge with conflicts keeps

    A landing that must not fail takes the partial result of a merge with
    conflicts ([commit_speculation] in [agentstategraph/src/repo.rs] does), so
    what that result is matters as much as what a clean merge is. This file
    says where [agentstategraph-core/src/merge.rs] lets our side win: at the
    paths where both sides changed the value in ways that do not merge. *)
From S2P Require Import Prelude Objects Paths Diffs Merges.

(** Values that are merged further rather than chosen between. *)
Definition mergeable (b o t : option Object) : bool :=
  match b, o, t with
  | (None | Some (ONode (NMap _))), Some (ONode (NMap _)), Some (ONode (NMap _)) => true
  | Some (ONode (NSet _)), Some (ONode (NSet _)), Some (ONode (NSet _)) => true
  | _, _, _ => false
  end.

Lemma mergeable_ours b o : mergeable b o None = false.
Proof. by destruct b as [[|[]]|], o as [[|[]]|]. Qed.
Lemma mergeable_theirs b t : mergeable b None t = false.
Proof. by destruct b as [[|[]]|]. Qed.

(** Both sides changed the value, differently, and not in a way that merges. *)
Definition clash (b o t : option Object) : Prop := o ≠ t ∧ b ≠ o ∧ b ≠ t ∧ mergeable b o t = false.

(** What a merge owes each path, conflicts or not: where one side left the base
    alone the result has the other's value, and where the sides agree theirs;
    the exception is our side's leaving alone what lies at or below a clash,
    where the result is ours. *)
Definition path_overrides (b o t r : list string → option Object) (p : list string) : Prop :=
  (o p = b p → r p = t p ∨ ∃ p1, p1 `prefix_of` p ∧ clash (b p1) (o p1) (t p1) ∧ r p1 = o p1) ∧
  (t p = b p → r p = o p) ∧
  (o p = t p → r p = o p).

(** Our value all the way down. *)
Lemma overrides_ours (b o t r : list string → option Object) p p1 :
  p1 `prefix_of` p → clash (b p1) (o p1) (t p1) → (∀ q, r (p1 ++ q) = o (p1 ++ q)) → path_overrides b o t r p.
Proof.
  intros [q ->] Hc Hr. split_and!; [|by rw Hr..]. intros _. right. exists p1.
  split_and!; [by eexists|done|]. by rewrite -(app_nil_r p1) Hr.
Qed.

(** What holds of a child's paths holds below its key. *)
Lemma overrides_below (b o t r b' o' t' r' : list string → option Object) k p :
  (∀ q, o (k :: q) = o' q) → (∀ q, t (k :: q) = t' q) → (∀ q, r (k :: q) = r' q) →
  (∀ q, q ≠ [] → b (k :: q) = b' q) → p ≠ [] →
  (clash (b' []) (o' []) (t' []) → b [k] = b' []) →
  path_overrides b' o' t' r' p → path_overrides b o t r (k :: p).
Proof.
  intros Ho Ht Hr Hb Hp H0 (H1 & H2 & H3). unfold path_overrides. rw Ho Ht Hr (Hb p Hp).
  split_and!; [|done..]. intros He. destruct (H1 He) as [?|(p1 & Hpre & Hc & Hv)]; [by left|right].
  exists (k :: p1). rw Ho Ht Hr. split_and!; [by apply prefix_cons| |done].
  destruct p1 as [|k1 p1]; [by rw H0|by rw Hb].
Qed.

(** ** The run of a merge that finds everything *)

Section clashes.
Context `{CH : ContentHash, CF : !CollisionFree}.
Context (f : Resolver) (Hf : addressed_resolver f).

Abbreviation state := (MergeState (option ObjectId)).

Lemma tracking_None id r : (tracking f id r).2 = None → r = None ∧ is_Some (f id).
Proof. unfold tracking. destruct (f id), r; naive_solver. Qed.

Lemma tracked_bind {B} id (k : option Object → M B) (st : state) b st' :
  (resolve_id (tracking f) id ≫= k) st = (Ok b, st') →
  k (f id) {| conflicts := conflicts st; created := created st;
              resolver := (tracking f id (resolver st)).2 |} = (Ok b, st').
Proof. done. Qed.

(** Once something was missing it stays so. *)
Lemma tracking_stays id r : True → is_Some r → is_Some (tracking f id r).2.
Proof. intros _ [x ->]. unfold tracking. destruct (f id); by exists x. Qed.

Lemma touches_all n o : touches f (λ _, True) n o.
Proof. revert o. induction n as [|n IH]; intros o; [done|]. intros id _. split; [done|]. auto. Qed.

Lemma keeps_back {A} (m : M A) (st : state) a st' :
  keeps (R := option ObjectId) is_Some m → m st = (Ok a, st') → resolver st' = None → resolver st = None.
Proof. intros Hk Hm Hn. specialize (Hk st). rewrite Hm /= Hn in Hk. destruct (resolver st); [|done]. by destruct Hk. Qed.

Lemma keeps_objects n path b o t : keeps (R := option ObjectId) is_Some (merge_objects (tracking f) n path b o t).
Proof.
  apply (keeps_merge_objects (tracking f) f (λ _ _, eq_refl) is_Some (λ _, True) tracking_stays); apply touches_all.
Qed.

(** Steps of a run: it only grows, and what was missing stays missing. *)
Definition tracks (s s' : state) : Prop := grows s s' ∧ (resolver s' = None → resolver s = None).

#[local] Instance tracks_preorder : PreOrder tracks.
Proof. split; [by intros s; split|]. intros s1 s2 s3 [H1 N1] [H2 N2]. split; [by trans s2|auto]. Qed.

Lemma merge_key_tracks n path be oe te key (st : state) v st' :
  merge_key (tracking f) (merge_objects (tracking f) n) path be oe te key st = (Ok v, st') → tracks st st'.
Proof.
  intros H. split.
  - eapply (merge_key_grows (tracking f) f (λ _ _, eq_refl)); [|exact H].
    intros p b o t s r s'. by apply (merge_objects_grows (tracking f) f (λ _ _, eq_refl)).
  - intros Hn. eapply keeps_back; [|exact H|exact Hn].
    apply (keeps_merge_key (tracking f) f (λ _ _, eq_refl) is_Some (λ _, True) tracking_stays n);
      [intros; apply keeps_objects|apply touches_all..].
Qed.

(** Ids of different objects. *)
Lemma objects_differ i j x y : f i = Some x → f j = Some y → i ≠ j → x ≠ y.
Proof. intros Hx Hy Hne ->. apply Hne. destruct (Hf _ _ Hx) as [<- _]. by destruct (Hf _ _ Hy). Qed.

(** The outcomes of a key when nothing was missing: the ids decide, or our
    side wins a clash, or the children merge. *)
Lemma merge_key_found rec path be oe te key (st : state) v st' :
  merge_key (tracking f) rec path be oe te key st = (Ok v, st') → resolver st' = None →
  pick3 (be !! key) (oe !! key) (te !! key) v ∨
  (v = oe !! key ∧ clash (be !! key ≫= f) (oe !! key ≫= f) (te !! key ≫= f) ∧
   ∀ m i, m = be ∨ m = oe ∨ m = te → m !! key = Some i → is_Some (f i)) ∨
  ∃ bo oo to o t r s, oe !! key = Some o ∧ te !! key = Some t ∧ o ≠ t ∧
    f o = Some oo ∧ f t = Some to ∧
    (be !! key = None ∧ bo = empty_map ∧ (∃ m, oo = mk_map m) ∧ (∃ m, to = mk_map m) ∨
     ∃ b, be !! key = Some b ∧ b ≠ o ∧ b ≠ t ∧ f b = Some bo) ∧
    rec (merge_child_path path key) bo oo to s = (Ok r, st') ∧ v = Some (oid_of r).
Proof.
  intros H Hn. unfold merge_key, pick3 in *.
  assert (∀ c o' (s s' : state), (_ ← push_conflict c; mret o') s = (Ok v, s') → resolver s' = None →
    v = o' ∧ resolver s = None) as Hconf by (intros c o' s s' Hc; unfold push_conflict in Hc; by inv_st).
  destruct (be !! key) as [b|] eqn:Eb, (oe !! key) as [o|] eqn:Eo, (te !! key) as [t|] eqn:Et.
  - repeat (case_decide; [inv_st; naive_solver|]). do 3 apply tracked_bind in H. cbn [resolver] in H.
    destruct (f b) as [bo|] eqn:Hb, (f o) as [oo|] eqn:Ho, (f t) as [to|] eqn:Ht;
      try (destruct (Hconf _ _ _ _ H Hn) as [_ (((_ & [? ?])%tracking_None & [? ?])%tracking_None & [? ?])%tracking_None];
           congruence).
    inv_st. right; right. eexists bo, oo, to, o, t, _, _. split_and!; eauto 10.
  - case_decide as Hne; [inv_st; naive_solver|]. do 2 apply tracked_bind in H. cbn [resolver] in H.
    destruct (Hconf _ _ _ _ H Hn) as [-> ((_ & [oo Ho])%tracking_None & [bo Hb])%tracking_None].
    right; left. split_and!; [done| |]; simpl.
    + unfold clash. rw Hb Ho. split_and!; [done| |done|apply mergeable_ours]. intros [= ->]. by eapply objects_differ in Hne.
    + intros m i [-> |[-> | ->]]; rewrite ?Eb ?Eo ?Et; naive_solver.
  - case_decide as Hne; [inv_st; naive_solver|]. do 2 apply tracked_bind in H. cbn [resolver] in H.
    destruct (Hconf _ _ _ _ H Hn) as [-> ((_ & [to Ht])%tracking_None & [bo Hb])%tracking_None].
    right; left. split_and!; [done| |]; simpl.
    + unfold clash. rw Hb Ht. split_and!; [done..| |apply mergeable_theirs]. intros [= ->]. by eapply objects_differ in Hne.
    + intros m i [-> |[-> | ->]]; rewrite ?Eb ?Eo ?Et; naive_solver.
  - inv_st. naive_solver.
  - case_decide as Hne; [inv_st; naive_solver|]. do 2 apply tracked_bind in H. cbn [resolver] in H.
    assert (∀ (s : state), (co ← resolve_id (tracking f) o; ct ← resolve_id (tracking f) t;
        _ ← push_conflict (child_conflict (merge_child_path path key) co ct None); mret (Some o)) s = (Ok v, st') →
      mergeable None (f o) (f t) = false →
      v = Some o ∧ clash None (f o) (f t) ∧ ∀ m i, m = be ∨ m = oe ∨ m = te → m !! key = Some i → is_Some (f i)) as Hcl.
    { intros s Hs Hm. do 2 apply tracked_bind in Hs. cbn [resolver] in Hs.
      destruct (Hconf _ _ _ _ Hs Hn) as [-> ((_ & [to Ht])%tracking_None & [oo Ho])%tracking_None].
      split_and!; [done| |intros m i [-> |[-> | ->]]; rewrite ?Eb ?Eo ?Et; naive_solver].
      unfold clash in *. rewrite Ho Ht in Hm |- *. split_and!; [|done..]. intros [= ->].
      by eapply objects_differ in Hne. }
    destruct (f o) as [[a|[om|ol|os]]|] eqn:Ho, (f t) as [[a'|[tm|tl|ts]]|] eqn:Ht;
      try (right; left; rewrite /= Ho Ht; by apply (Hcl _ H)).
    inv_st. right; right. eexists empty_map, _, _, o, t, _, _. split_and!; eauto 10.
  - inv_st. naive_solver.
  - inv_st. naive_solver.
  - inv_st. naive_solver.
Qed.
(** A slot the ids decide. *)
Lemma pick3_overrides g k p (be oe te re : gmap string ObjectId) :
  pick3 (be !! k) (oe !! k) (te !! k) (re !! k) →
  path_overrides (lookup_path g (mk_map be)) (lookup_path g (mk_map oe)) (lookup_path g (mk_map te))
    (lookup_path g (mk_map re)) (k :: p).
Proof. intros H. destruct (pick3_paths g k p _ _ _ _ H) as (? & ? & ?). split_and!; [intros; left; auto|done..]. Qed.

(** Any store that has what [f] has. *)
Context (g : Resolver) (Hg : ∀ i c, f i = Some c → g i = Some c).

(** Three values the ids of which differ, or a base that is not there. *)
Definition distinct (b o t : Object) : Prop :=
  o ≠ t ∧ b ≠ o ∧ b ≠ t ∨ mergeable (Some b) (Some o) (Some t).

Lemma distinct_clash b o t :
  distinct b o t → mergeable (Some b) (Some o) (Some t) = false → clash (Some b) (Some o) (Some t).
Proof. intros [(? & ? & ?)|H] Hm; [split_and!; congruence|by rewrite Hm in H]. Qed.

Lemma at_key k (m : gmap string ObjectId) :
  (∀ i, m !! k = Some i → is_Some (f i)) → lookup_path g (mk_map m) [k] = m !! k ≫= f.
Proof.
  intros Hm. simpl. destruct (m !! k) as [i|]; [|done]. simpl. destruct (Hm i eq_refl) as [c Hc].
  by rw (Hg i c Hc) Hc.
Qed.

(** A child on both sides, under different ids, that is merged in turn. *)
Lemma child_overrides k p (be oe te re : gmap string ObjectId) oi ti bo oo to r :
  oe !! k = Some oi → te !! k = Some ti → oi ≠ ti → f oi = Some oo → f ti = Some to →
  (be !! k = None ∧ bo = empty_map ∧ (∃ m, oo = mk_map m) ∧ (∃ m, to = mk_map m) ∨
   ∃ bi, be !! k = Some bi ∧ bi ≠ oi ∧ bi ≠ ti ∧ f bi = Some bo) →
  re !! k = Some (oid_of r) → g (oid_of r) = Some r →
  (p ≠ [] → distinct bo oo to →
     path_overrides (lookup_path g bo) (lookup_path g oo) (lookup_path g to) (lookup_path g r) p) →
  path_overrides (lookup_path g (mk_map be)) (lookup_path g (mk_map oe)) (lookup_path g (mk_map te))
    (lookup_path g (mk_map re)) (k :: p).
Proof.
  intros Ho Ht Hne Hoo Hto Hb Hr Hgr Hp.
  assert (∀ m i c q, m !! k = Some i → g i = Some c →
    lookup_path g (mk_map m) (k :: q) = lookup_path g c q) as Hat by (intros m i c q Hi Hc; by rw /= Hi /= Hc).
  pose proof (objects_differ oi ti oo to Hoo Hto Hne) as Hd.
  destruct p as [|k' p].
  - unfold path_overrides. rw (Hat oe oi oo) ?(Hat te ti to) //; [|by apply Hg..].
    destruct Hb as [(Hb & _)|(bi & Hb & Ho' & Ht' & Hbo)].
    + rw /= Hb. split_and!; intros [=]; congruence.
    + rw (Hat be bi bo) //; [|by apply Hg]. apply (objects_differ _ _ bo oo) in Ho'; [|done..].
      apply (objects_differ _ _ bo to) in Ht'; [|done..]. split_and!; intros [=]; congruence.
  - eapply overrides_below; [..|apply Hp; [done|]]; try done.
    + intros q. by apply (Hat _ oi); [|apply Hg].
    + intros q. by apply (Hat _ ti); [|apply Hg].
    + intros q. by apply (Hat _ (oid_of r)).
    + intros q Hq. destruct Hb as [(Hb & -> & _)|(bi & Hb & _ & _ & Hbo)].
      * rw /= Hb. by destruct q.
      * by apply (Hat _ bi); [|apply Hg].
    + destruct Hb as [(_ & -> & (m1 & ->) & (m2 & ->))|(bi & Hb & _ & _ & Hbo)]; [by intros (_ & _ & _ & ?)|].
      intros _. by apply (Hat _ bi); [|apply Hg].
    + destruct Hb as [(_ & -> & (m1 & ->) & (m2 & ->))|(bi & _ & Ho' & Ht' & Hbo)]; [by right|left].
      split_and!; [done|by eapply objects_differ..].
Qed.

(** What a merge returns can be read where its children can. *)
Lemma merged_resolves n path b o t (st : state) r st' :
  merge_objects (tracking f) n path b o t st = (Ok r, st') → f (oid_of o) = Some o → f (oid_of t) = Some t →
  (∀ x, x ∈ created st' → g (oid_of x) = Some x) → g (oid_of r) = Some r.
Proof.
  intros H Ho Ht Hcr. apply (merge_objects_result (tracking f) f (λ _ _, eq_refl) Hf) in H as [->|[->|Hr]]; auto.
Qed.

Lemma merge_objects_overrides n path b o t (st : state) r st' p :
  merge_objects (tracking f) n path b o t st = (Ok r, st') → resolver st' = None →
  distinct b o t → (∀ x, x ∈ created st' → g (oid_of x) = Some x) → p ≠ [] →
  path_overrides (lookup_path g b) (lookup_path g o) (lookup_path g t) (lookup_path g r) p.
Proof.
  revert path b o t st r st' p. induction n as [|n IH];
    intros path b o t st r st' p H Hm Hd Hl Hp; [done|]. simpl in H.
  assert (∀ x y, object_eqb x y → lookup_path g x p =
    lookup_path g y p) as Heqb by (intros; by apply lookup_path_eqb).
  destruct (object_eqb o t) eqn:E1.
  { inv_st. unfold path_overrides. rewrite (Heqb r t); [|by rw E1]. split_and!; [intros; by left|congruence|done]. }
  destruct (object_eqb b o) eqn:E2.
  { inv_st. unfold path_overrides. rewrite (Heqb b o); [|by rw E2]. split_and!; [intros; by left|congruence|congruence]. }
  destruct (object_eqb b t) eqn:E3.
  { inv_st. unfold path_overrides. rewrite (Heqb b t); [|by rw E3]. split_and!; [intros; left; congruence|congruence|congruence]. }
  assert (∀ c (s s' : state), (_ ← push_conflict c; mret o) s = (Ok r, s') →
    mergeable (Some b) (Some o) (Some t) = false →
    path_overrides (lookup_path g b) (lookup_path g o)
      (lookup_path g t) (lookup_path g r) p) as Hconf.
  { intros c s s' Hc Hmg. unfold push_conflict in Hc. inv_st.
    apply (overrides_ours _ _ _ _ p []); [apply prefix_nil|by apply distinct_clash|done]. }
  destruct b as [b|[b|b|b]], o as [o|[o|o|o]], t as [t|[t|t|t]];
    try (by eapply Hconf); clear Hconf Heqb.
  - destruct p as [|k p]; [done|].
    apply (merge_maps_between _ tracks) in H as (merged & s & -> & _ & _ & Hcr & Hrs & Hk);
      [|intros *; apply merge_key_tracks].
    destruct (Hk k) as (s1 & s2 & _ & _ & Hs2 & Hkey). rewrite Hrs in Hm.
    pose proof (proj2 Hs2 Hm) as Hm2.
    assert (∀ x, x ∈ created s2 → g (oid_of x) = Some x) as Hl2.
    { intros x Hx. apply Hl. rw Hcr. apply elem_of_app. left. by eapply grows_created; [apply Hs2|]. }
    apply merge_key_found in Hkey as [Hp3|[(Hv & Hc & Hin)|
      (bo & oo & to & oi & ti & rc & sr & Hoi & Hti & Hne & Hoo & Hto & Hbo & Hrec & Hv)]]; [..|done].
    + by apply pick3_overrides.
    + apply (overrides_ours _ _ _ _ _ [k]); [by exists p| |intros q; simpl; by rw Hv].
      rw !at_key; [done|..]; intros i; apply Hin; tauto.
    + apply (child_overrides k p b o t merged oi ti bo oo to rc); [done..| |].
      * eapply merged_resolves; eauto using self_resolves.
      * intros Hp' Hd'. by eapply IH.
  - unfold merge_lists, push_conflict, push_created in H.
    destruct p as [|k p]; [done|]. assert (r = mk_list o) as -> by (case_decide; by inv_st).
    split_and!; [intros; by left|done..].
  - unfold merge_sets, push_created in H. destruct p as [|k p]; [done|]. inv_st. split_and!; [intros; by left|done..].
Qed.
End clashes.

(** The landing merge, read in any store that has the trees and what it created. *)
Lemma try_merge_overrides `{CH : ContentHash, CF : !CollisionFree}
    f g n base ours theirs bo oo to result cr r p :
  addressed_resolver f → f base = Some bo → f ours = Some oo → f theirs = Some to →
  try_three_way_merge_collect f n base ours theirs = Ok (result, cr) →
  result = Success r ∨ (∃ cs, result = Conflicts r cs) →
  (∀ i c, f i = Some c → g i = Some c) → (∀ x, x ∈ cr → g (oid_of x) = Some x) → p ≠ [] →
  g (oid_of r) = Some r ∧
  path_overrides (lookup_path g bo) (lookup_path g oo) (lookup_path g to) (lookup_path g r) p.
Proof.
  intros Hf Hb Ho Ht H Hr Hg Hcr Hp.
  assert (base ≠ ours ∧ base ≠ theirs ∧ ours ≠ theirs) as (H1 & H2 & H3).
  { apply try_merge_result in H as [H _]. apply merge_fast_forward in H as [(_ & [i ->] & _)|?]; [|done].
    by destruct Hr as [|[??]]. }
  unfold try_three_way_merge_collect, merge_collect in H. do 3 (rewrite decide_False in H; [|done]).
  assert (∀ i x, f i = Some x → tracking f i None = (Some x, None)) as Htr
    by (intros i x Hx; unfold tracking; by rw Hx).
  rewrite Hb (Htr _ _ Ho) (Htr _ _ Ht) in H.
  destruct (merge_objects (tracking f) n "/" bo oo to _) as [[o|e] st] eqn:Hm; [|done].
  destruct (resolver st) eqn:Hres; [done|]. injection H as Hresult <-.
  assert (o = r) as -> by (destruct (conflicts st); naive_solver).
  split.
  - eapply (merged_resolves f Hf g Hg); eauto using self_resolves.
  - eapply merge_objects_overrides; try done. left. split_and!; by eapply objects_differ.
Qed.

(** ** Properties *)

(** C17: what a landing merge with conflicts comes to. Over three trees that
    differ the partial result, like the clean one, is in any store that has the
    trees and what the merge created, and path by path: where their side left the base alone
    it has our value, where the sides agree the common one, and where our side
    left the base alone it has theirs, unless at the path or above it both
    sides changed the value differently in a way that does not merge, and there
    it has ours. Our side loses nothing, theirs only what clashes. *)
Theorem partial_merge_paths `{CH : ContentHash, CF : !CollisionFree}
    f g n base ours theirs bo oo to result cr r p :
  addressed_resolver f → f base = Some bo → f ours = Some oo → f theirs = Some to →
  try_three_way_merge_collect f n base ours theirs = Ok (result, cr) →
  result = Success r ∨ (∃ cs, result = Conflicts r cs) →
  (∀ i c, f i = Some c → g i = Some c) → (∀ x, x ∈ cr → g (oid_of x) = Some x) → p ≠ [] →
  let b := lookup_path g bo in let o := lookup_path g oo in
  let t := lookup_path g to in let m := lookup_path g r in
  g (oid_of r) = Some r ∧
  (o p = b p → m p = t p ∨ ∃ p1, p1 `prefix_of` p ∧ clash (b p1) (o p1) (t p1) ∧ m p1 = o p1) ∧
  (t p = b p → m p = o p) ∧
  (o p = t p → m p = o p).
Proof. apply try_merge_overrides. Qed.

Section witnesses.
Import Plain.

(** Our side changes [x] and adds [d/o]; theirs changes [x] too, and [d/k]. *)
Definition text : Object := mk_string "s".
Definition base_state := dir [("d", base_dir); ("x", one)].
Definition our_state := dir [("d", our_dir); ("x", two)].
Definition their_state := dir [("d", their_dir); ("x", text)].
Definition merged_state := dir [("d", merged_dir); ("x", two)].
Definition clash_store : Resolver := λ i,
  sample [one; two; text; base_dir; our_dir; their_dir; base_state; our_state; their_state] !! i.

Lemma clash_store_addressed : addressed_resolver clash_store.
Proof.
  intros i o [<- Hin]%sample_lookup. split; [done|]. set_unfold in Hin. by destruct_or!; subst.
Qed.

Definition clash_on_x : Conflict := {|
  conflict_path := "/x"; conflict_ours := Some (CInt 2); conflict_theirs := Some (CString "s");
  conflict_base := Some (CInt 1); suggested_resolution := None |}.

Lemma clash_run :
  try_three_way_merge_collect clash_store 3 (oid_of base_state) (oid_of our_state) (oid_of their_state) =
  Ok (Conflicts merged_state [clash_on_x], [merged_dir; merged_state]).
Proof. by vm_compute. Qed.

(** Our addition of [d/o] is kept beside the clash on [x]. *)
Lemma partial_merge_paths_witness :
  lookup_path (with_created clash_store [merged_dir; merged_state]) merged_state ["d"; "o"] = Some two.
Proof.
  destruct (partial_merge_paths clash_store (with_created clash_store [merged_dir; merged_state]) 3 (oid_of base_state) (oid_of our_state)
    (oid_of their_state) base_state our_state their_state _ _ merged_state
    ["d"; "o"] clash_store_addressed ltac:(by vm_compute) ltac:(by vm_compute) ltac:(by vm_compute)
    clash_run ltac:(by right; eexists) (with_created_old _ _)
    (λ x, with_created_new _ clash_store_addressed [merged_dir; merged_state] x ltac:(by repeat constructor)) ltac:(done)) as (_ & _ & H & _).
  rw H; by vm_compute.
Defined.
End witnesses.
