(* ===== verification/Trees.v ===== *)
(** * Trees: reading and writing values by path

    Models [agentstategraph/src/tree.rs], over any store of the class
    [ObjectStore]. Writes run in the store's state; walks that descend by a
    depth limit recurse on what is left of it, [to_json] on fuel. *)
From S2P Require Import Prelude Objects Paths Json Intents Commits Stores Diffs Memory.

Definition PREFETCH_BATCH : nat := 1000.

Inductive TreeError : Type :=
  | TObjectNotFound (id : ObjectId)
  | PathNotFound (p : string)
  | IndexOutOfBounds (index length : N)
  | TypeMismatch (path expected found : string)
  | CannotNavigateAtom (p : string)
  | InvalidJson (s : string)
  | TStorage (e : StorageError).

#[export] Instance TreeError_eq_dec : EqDecision TreeError.
Proof. solve_decision. Defined.

Definition tree_error_code (e : TreeError) : string :=
  match e with
  | TObjectNotFound _ => "object_not_found"
  | PathNotFound _ => "path_not_found"
  | IndexOutOfBounds _ _ => "index_out_of_bounds"
  | TypeMismatch _ _ _ => "type_mismatch"
  | CannotNavigateAtom _ => "not_a_container"
  | InvalidJson _ => "invalid_json"
  | TStorage e => storage_error_code e
  end.

(** An element of a list by a machine-word index. *)
Definition nth_id (items : list ObjectId) (idx : N) : option ObjectId := items !! N.to_nat idx.

Definition len (items : list ObjectId) : N := N.of_nat (length items).

(** The id a component names in an object, by [navigate]'s rules. *)
Definition child_id_at (o : Object) (c : PathComponent) : option ObjectId :=
  match o, c with
  | ONode (NMap m), Key key => m !! key
  | ONode (NList items), Index idx => nth_id items idx
  | _, _ => None
  end.

Definition atom_kind (a : Atom) : string :=
  match a with
  | ANull => "null"
  | ABool _ => "boolean"
  | AInt _ | AUInt _ | AFloat _ => "number"
  | AString _ => "string"
  | ABytes _ => "bytes"
  end.

(** ** Reading and writing by path *)

Section tree.
Context `{CH : ContentHash} {S : Type} `{OS : !ObjectStore S}.

Abbreviation T := (stateful S TreeError).

(** [get_object], a missing object an [ObjectNotFound]. *)
Definition load_object (s : S) (id : ObjectId) : result TreeError Object :=
  o ← map_err TStorage (get_object s id);
  ok_or (TObjectNotFound id) o.

Definition store_object (o : Object) : T ObjectId := map_err_st TStorage (put_object o).

Definition navigate (s : S) (path : StatePath) (current : Object) (component : PathComponent) :
    result TreeError Object :=
  match current, component with
  | ONode (NMap m), Key key =>
      child_id ← ok_or (PathNotFound (display path)) (m !! key);
      load_object s child_id
  | ONode (NList items), Index idx =>
      child_id ← ok_or (IndexOutOfBounds idx (len items)) (nth_id items idx);
      load_object s child_id
  | ONode (NMap _), Index _ => Err (TypeMismatch (display path) "list" "map")
  | ONode (NList _), Key _ => Err (TypeMismatch (display path) "map" "list")
  | OAtom _, _ => Err (CannotNavigateAtom (display path))
  | _, _ => Err (PathNotFound (display path))
  end.

Fixpoint navigate_all (s : S) (path : StatePath) (current : Object)
    (components : list PathComponent) : result TreeError Object :=
  match components with
  | [] => Ok current
  | c :: cs => next ← navigate s path current c; navigate_all s path next cs
  end.

Definition tree_get (s : S) (root : ObjectId) (path : StatePath) : result TreeError Object :=
  root_obj ← load_object s root;
  navigate_all s path root_obj path.

(** [set_recursive] on the components from [depth] on. *)
Fixpoint set_recursive (current : Object) (components : list PathComponent) (depth : N)
    (value_id : ObjectId) : T Object :=
  match components with
  | [] => reading (λ s, load_object s value_id)
  | component :: rest =>
      let descend child :=
        new_child ← set_recursive child rest (depth + 1)%N value_id;
        store_object new_child in
      match current, component with
      | ONode (NMap m), Key key =>
          child_value_id ←
            match rest with
            | [] => mret value_id
            | _ =>
                child ← match m !! key with
                        | Some child_id => reading (λ s, load_object s child_id)
                        | None => mret empty_map
                        end;
                descend child
            end;
          mret (mk_map (<[key := child_value_id]> m))
      | ONode (NList items), Index idx =>
          match nth_id items idx with
          | None => throw (IndexOutOfBounds idx (len items))
          | Some item =>
              child_value_id ←
                match rest with
                | [] => mret value_id
                | _ =>
                    child ← reading (λ s, load_object s item);
                    descend child
                end;
              mret (mk_list (<[N.to_nat idx := child_value_id]> items))
          end
      | OAtom ANull, Key key =>
          match rest with
          | [] => mret (mk_map {[ key := value_id ]})
          | _ =>
              child_id ← descend empty_map;
              mret (mk_map {[ key := child_id ]})
          end
      | OAtom a, _ =>
          throw (TypeMismatch ("at depth " +:+ pretty depth) "map or list"
                   ("a " +:+ atom_kind a +:+ " value"))
      | _, _ =>
          throw (TypeMismatch ("at depth " +:+ pretty depth) "map or list" "incompatible type")
      end
  end.

Definition tree_set (root : ObjectId) (path : StatePath) (value : Object) : T ObjectId :=
  value_id ← store_object value;
  if is_root path then mret value_id else
  root_obj ← reading (λ s, load_object s root);
  new_root ← set_recursive root_obj path 0 value_id;
  store_object new_root.

(** [delete_recursive] on the components from [depth] on; it is never called
    on none. *)
Fixpoint delete_recursive (current : Object) (components : list PathComponent) (depth : N) :
    T Object :=
  match components with
  | [] => throw (PathNotFound ("cannot navigate at depth " +:+ pretty depth))
  | component :: rest =>
      match current, component with
      | ONode (NMap m), Key key =>
          match m !! key with
          | None => throw (PathNotFound ("key '" +:+ key +:+ "' not found"))
          | Some child_id =>
              match rest with
              | [] => mret (mk_map (delete key m))
              | _ =>
                  child ← reading (λ s, load_object s child_id);
                  new_child ← delete_recursive child rest (depth + 1)%N;
                  new_child_id ← store_object new_child;
                  mret (mk_map (<[key := new_child_id]> m))
              end
          end
      | ONode (NList items), Index idx =>
          match nth_id items idx with
          | None => throw (IndexOutOfBounds idx (len items))
          | Some item =>
              match rest with
              | [] => mret (mk_list (delete (N.to_nat idx) items))
              | _ =>
                  child ← reading (λ s, load_object s item);
                  new_child ← delete_recursive child rest (depth + 1)%N;
                  new_child_id ← store_object new_child;
                  mret (mk_list (<[N.to_nat idx := new_child_id]> items))
              end
          end
      | _, _ => throw (PathNotFound ("cannot navigate at depth " +:+ pretty depth))
      end
  end.

Definition tree_delete (root : ObjectId) (path : StatePath) : T ObjectId :=
  if is_root path then store_object empty_map else
  root_obj ← reading (λ s, load_object s root);
  new_root ← delete_recursive root_obj path 0;
  store_object new_root.
End tree.

(** ** What a path denotes

    The position a path leads to from a root, in a map of objects, and the
    changes of one object the two writers are made of. *)

Fixpoint locate (m : gmap ObjectId Object) (id : ObjectId) (p : StatePath) : option ObjectId :=
  match p with
  | [] => Some id
  | c :: p' => o ← m !! id; i ← child_id_at o c; locate m i p'
  end.

Definition value_at (m : gmap ObjectId Object) (id : ObjectId) (p : StatePath) : option Object :=
  i ← locate m id p; m !! i.

(** A path taken from inside an object. *)
Definition locate_in (m : gmap ObjectId Object) (o : Object) (p : StatePath) : option ObjectId :=
  match p with
  | [] => None
  | c :: p' => i ← child_id_at o c; locate m i p'
  end.

Definition object_in (m : gmap ObjectId Object) (o : Object) (p : StatePath) : option Object :=
  match p with [] => Some o | _ => i ← locate_in m o p; m !! i end.

(** The path stops at [o], reached by [q], which has nothing at [c]. *)
Definition stuck (m : gmap ObjectId Object) (root : ObjectId) (p q : StatePath)
    (c : PathComponent) (o : Object) : Prop :=
  (∃ r, p = q ++ c :: r) ∧ value_at m root q = Some o ∧ child_id_at o c = None.

(** Neither path leads through the other. *)
Definition diverge (p q : StatePath) : Prop := ¬ p `prefix_of` q ∧ ¬ q `prefix_of` p.

(** The objects a write may put a child into. *)
Definition accepts (o : Object) (c : PathComponent) : bool :=
  match o, c with
  | ONode (NMap _), Key _ => true
  | ONode (NList items), Index idx => bool_decide (idx < len items)%N
  | OAtom ANull, Key _ => true
  | _, _ => false
  end.

Definition update_child (o : Object) (c : PathComponent) (i : ObjectId) : Object :=
  match o, c with
  | ONode (NMap m), Key key => mk_map (<[key := i]> m)
  | ONode (NList items), Index idx => mk_list (<[N.to_nat idx := i]> items)
  | _, Key key => mk_map {[ key := i ]}
  | _, _ => o
  end.

Definition remove_child (o : Object) (c : PathComponent) : Object :=
  match o, c with
  | ONode (NMap m), Key key => mk_map (delete key m)
  | ONode (NList items), Index idx => mk_list (delete (N.to_nat idx) items)
  | _, _ => o
  end.

Definition is_key (c : PathComponent) : bool := match c with Key _ => true | _ => false end.

Lemma accepts_child o c i : child_id_at o c = Some i → accepts o c.
Proof.
  destruct o as [[]|[m|items|]], c as [k|idx]; simpl; try done.
  unfold nth_id. intros Hl%lookup_lt_Some. apply bool_decide_pack. unfold len. lia.
Qed.

Lemma child_of_update o c i : accepts o c → child_id_at (update_child o c i) c = Some i.
Proof.
  destruct o as [[]|[m|items|]], c as [k|idx]; simpl; try done; intros Ha.
  - by rw lookup_insert_eq.
  - by rw lookup_insert_eq.
  - apply bool_decide_unpack in Ha. unfold nth_id.
    rw list_lookup_insert_eq; [done|]. unfold len in Ha. lia.
Qed.

Lemma child_of_update_ne o c c' i :
  accepts o c → c ≠ c' → child_id_at (update_child o c i) c' = child_id_at o c'.
Proof.
  destruct o as [[]|[m|items|]], c as [k|idx], c' as [k'|idx']; simpl; try done; intros _ Hne.
  - by rw lookup_insert_ne; [|congruence].
  - by rw lookup_insert_ne; [|congruence].
  - unfold nth_id. rw list_lookup_insert_ne; [done|]. intros ?%N2Nat.inj. congruence.
Qed.

Lemma update_child_finite o c i : accepts o c → finite (update_child o c i).
Proof. by destruct o as [[]|[]], c. Qed.

Lemma remove_child_finite o c i : child_id_at o c = Some i → finite (remove_child o c).
Proof. by destruct o as [[]|[]], c. Qed.

Lemma locate_app m id p q : locate m id (p ++ q) = i ← locate m id p; locate m i q.
Proof.
  revert id. induction p as [|c p IH]; intros id; [done|]; simpl.
  destruct (m !! id) as [o|]; [|done]; simpl. by destruct (child_id_at o c); simpl.
Qed.

Lemma locate_in_loaded m id o p : m !! id = Some o → p ≠ [] → locate m id p = locate_in m o p.
Proof. intros Ho. destruct p; [done|]. simpl. by rw Ho. Qed.

Lemma value_at_loaded m id o p : m !! id = Some o → value_at m id p = object_in m o p.
Proof. intros Ho. unfold value_at. destruct p; simpl; [done|]. by rw Ho. Qed.

Lemma value_at_inv m id p x :
  value_at m id p = Some x → ∃ o, m !! id = Some o ∧ object_in m o p = Some x.
Proof.
  intros Hx. destruct (m !! id) as [o|] eqn:Ho.
  - exists o. by rewrite (value_at_loaded _ _ _ _ Ho) in Hx.
  - unfold value_at in Hx. destruct p; simpl in Hx; by rewrite Ho in Hx.
Qed.

Lemma object_in_cons m o c p : object_in m o (c :: p) = i ← child_id_at o c; value_at m i p.
Proof. simpl. unfold value_at. by destruct (child_id_at o c). Qed.

Lemma object_in_empty_map m q x : object_in m empty_map q = Some x → q = [] ∧ x = empty_map.
Proof. destruct q as [|[k|i] q]; simpl; [by intros [= <-]| |done]. by rw lookup_empty. Qed.

Lemma locate_mono m m' id p i : m ⊆ m' → locate m id p = Some i → locate m' id p = Some i.
Proof.
  intros Hm. revert id. induction p as [|c p IH]; intros id; [done|]; simpl.
  destruct (m !! id) as [o|] eqn:Ho; [|done]. rw (lookup_weaken _ _ _ _ Ho Hm); simpl.
  destruct (child_id_at o c); [|done]. apply IH.
Qed.

Lemma diverge_cons c p q : diverge (c :: p) (c :: q) ↔ diverge p q.
Proof.
  assert (∀ a b : StatePath, c :: a `prefix_of` c :: b ↔ a `prefix_of` b) as H.
  { intros a b. split; [apply prefix_cons_inv_2|apply prefix_cons]. }
  unfold diverge. by rw !H.
Qed.

Lemma diverge_not_nil p q : diverge p q → q ≠ [].
Proof. intros [_ H] ->. by apply H, prefix_nil. Qed.

(** ** The operations, one step at a time *)

Section steps.
Context `{CH : ContentHash} {S : Type} `{OS : !ObjectStore S, !ObjectStoreLaws S}.

Lemma load_object_ok (s : S) id o : load_object s id = Ok o → contents s !! id = Some o.
Proof. unfold load_object. intros Hl. inv_ok. subst. by apply get_object_law in H. Qed.

Lemma navigate_ok (s : S) path o c o' :
  navigate s path o c = Ok o' ↔ ∃ i, child_id_at o c = Some i ∧ load_object s i = Ok o'.
Proof.
  destruct o as [|[]], c; simpl; try (by split; [|naive_solver]);
    (rw result_bind_ok; setoid_rewrite ok_or_ok; done).
Qed.

Lemma load_object_err (s : S) id e :
  load_object s id = Err e →
  (∃ i e', e = TStorage e' ∧ get_object s i = Err e') ∨
  e = TObjectNotFound id ∧ contents s !! id = None.
Proof.
  unfold load_object. destruct (get_object s id) as [[o|]|e'] eqn:Hg; simpl; intros [= <-].
  - right. by apply get_object_law in Hg.
  - left. by exists id, e'.
Qed.

(** What the result of a walk along [p] tells, errors included. *)
Definition get_report (s : S) (root : ObjectId) (p : StatePath) (r : result TreeError Object) : Prop :=
  let m := contents s in
  match r with
  | Ok o => value_at m root p = Some o
  | Err (TObjectNotFound i) => ∃ q q', p = q ++ q' ∧ locate m root q = Some i ∧ m !! i = None
  | Err (PathNotFound d) =>
      d = display p ∧ ∃ q c o, stuck m root p q c o ∧
        ((∃ k mm, c = Key k ∧ o = ONode (NMap mm)) ∨ ∃ l, o = ONode (NSet l))
  | Err (IndexOutOfBounds i n) =>
      ∃ q l, stuck m root p q (Index i) (ONode (NList l)) ∧ n = len l ∧ (n ≤ i)%N
  | Err (TypeMismatch d want found) =>
      d = display p ∧ ∃ q c o, stuck m root p q c o ∧
        ((∃ mm, is_key c = false ∧ o = ONode (NMap mm) ∧ want = "list" ∧ found = "map") ∨
         ∃ l, is_key c ∧ o = ONode (NList l) ∧ want = "map" ∧ found = "list")
  | Err (CannotNavigateAtom d) => d = display p ∧ ∃ q c a, stuck m root p q c (OAtom a)
  | Err (InvalidJson _) => False
  | Err (TStorage e) => ∃ i, get_object s i = Err e
  end.

(** Where a walk that started at the root and came as far as [o] ends. *)
Lemma navigate_all_spec (s : S) root path p : ∀ q o,
  path = q ++ p → value_at (contents s) root q = Some o →
  get_report s root path (navigate_all s path o p).
Proof.
  induction p as [|c p IH]; intros q o Hp Ho; cbn [navigate_all].
  { rewrite app_nil_r in Hp. by subst. }
  assert (child_id_at o c = None → stuck (contents s) root path q c o) as Hstuck.
  { intros Hc. split_and!; [by exists p|done..]. }
  destruct (child_id_at o c) as [i|] eqn:Hi.
  - assert (locate (contents s) root (q ++ [c]) = Some i) as Hq.
    { unfold value_at in Ho. rw locate_app. destruct (locate _ root q); [|done].
      simpl in *. by rw Ho /= Hi. }
    assert (navigate s path o c = load_object s i) as ->.
    { destruct o as [|[]], c; simpl in *; try done; by rw Hi. }
    destruct (load_object s i) as [o'|e] eqn:Hl; simpl.
    + apply load_object_ok in Hl. apply (IH (q ++ [c])); [by rw -app_assoc|].
      unfold value_at. by rw Hq.
    + apply load_object_err in Hl as [(j & e' & -> & He)|[-> Hn]]; [by exists j|].
      exists (q ++ [c]), p. by rw -app_assoc.
  - specialize (Hstuck eq_refl).
    destruct o as [a|[mm|l|l]], c as [k|idx]; simpl in *; rewrite ?Hi /=.
    + split; [done|]. by exists q, (Key k), a.
    + split; [done|]. by exists q, (Index idx), a.
    + split; [done|]. exists q, (Key k), (ONode (NMap mm)). split; [done|]. left. by exists k, mm.
    + split; [done|]. exists q, (Index idx), (ONode (NMap mm)). split; [done|]. left. by exists mm.
    + split; [done|]. exists q, (Key k), (ONode (NList l)). split; [done|]. right. by exists l.
    + exists q, l. split_and!; [done..|]. apply lookup_ge_None in Hi. unfold len. lia.
    + split; [done|]. exists q, (Key k), (ONode (NSet l)). split; [done|]. right. by exists l.
    + split; [done|]. exists q, (Index idx), (ONode (NSet l)). split; [done|]. right. by exists l.
Qed.

(** [set_recursive] on a node: the child is made, then put in its place. *)
Lemma set_recursive_cons o c rest depth vid (s : S) :
  accepts o c →
  set_recursive o (c :: rest) depth vid s =
  (i ← match rest with
       | [] => mret vid
       | _ =>
           child ← match child_id_at o c with
                   | Some i => reading (λ s, load_object s i)
                   | None => mret empty_map
                   end;
           new_child ← set_recursive child rest (depth + 1)%N vid;
           store_object new_child
       end;
   mret (update_child o c i)) s.
Proof.
  destruct o as [[]|[m|items|]], c as [k|idx]; try done; intros Ha.
  - by destruct rest.
  - apply bool_decide_unpack in Ha. destruct (nth_id items idx) as [i|] eqn:Hi.
    + cbn [set_recursive child_id_at]. rw Hi. by destruct rest.
    + unfold nth_id in Hi. apply lookup_ge_None in Hi. unfold len in Ha. lia.
Qed.

Lemma set_recursive_refused o c rest depth vid (s : S) :
  accepts o c = false → ∃ e, set_recursive o (c :: rest) depth vid s = (Err e, s).
Proof.
  destruct o as [[]|[m|items|]], c as [k|idx]; intros Ha; try discriminate Ha; try (by eexists).
  cbn [set_recursive]. destruct (nth_id items idx) as [i|] eqn:Hi; [|by eexists].
  apply bool_decide_eq_false in Ha. unfold nth_id in Hi. apply lookup_lt_Some in Hi.
  unfold len in Ha. lia.
Qed.

Lemma set_recursive_accepts o c rest depth vid (s s' : S) o' :
  set_recursive o (c :: rest) depth vid s = (Ok o', s') → accepts o c.
Proof.
  intros Hrun. destruct (accepts o c) eqn:Ha; [done|].
  destruct (set_recursive_refused o c rest depth vid s Ha) as [e He]. congruence.
Qed.

(** [delete_recursive] on a node: the child goes, or is rebuilt in its place. *)
Lemma delete_recursive_cons o c i rest depth (s : S) :
  child_id_at o c = Some i →
  delete_recursive o (c :: rest) depth s =
  match rest with
  | [] => mret (remove_child o c)
  | _ =>
      child ← reading (λ s, load_object s i);
      new_child ← delete_recursive child rest (depth + 1)%N;
      new_child_id ← store_object new_child;
      mret (update_child o c new_child_id)
  end s.
Proof.
  destruct o as [[]|[m|items|]], c as [k|idx]; simpl; try done; intros ->; by destruct rest.
Qed.

Lemma delete_recursive_refused o c rest depth (s : S) :
  child_id_at o c = None → ∃ e, delete_recursive o (c :: rest) depth s = (Err e, s).
Proof.
  destruct o as [[]|[m|items|]], c as [k|idx]; simpl; try (by eexists); intros ->; by eexists.
Qed.

Lemma delete_recursive_child o c rest depth (s s' : S) o' :
  delete_recursive o (c :: rest) depth s = (Ok o', s') → ∃ i, child_id_at o c = Some i.
Proof.
  intros Hrun. destruct (child_id_at o c) as [i|] eqn:Hi; [by exists i|].
  destruct (delete_recursive_refused o c rest depth s Hi) as [e He]. congruence.
Qed.

Context `{CF : !CollisionFree}.

(** What a write leaves behind, whatever was there. *)
Definition extends (s s' : S) : Prop :=
  addressed (contents s') ∧ contents s ⊆ contents s'.

Lemma store_object_ok o (s s' : S) i :
  addressed (contents s) → finite o → store_object o s = (Ok i, s') →
  extends s s' ∧ i = oid_of o ∧ contents s' = contents s ∪ {[ oid_of o := o ]} ∧
  contents s' !! i = Some o.
Proof.
  intros Hs Ho. unfold store_object. intros Hp. inv_st.
  apply put_object_law in Hp as [-> Hc].
  destruct (addressed_put (contents s) o Hs Ho) as (? & ? & ?).
  unfold extends. by rw Hc.
Qed.

(** Replacing a child by a rebuilt one changes nothing a diverging path sees. *)
Lemma update_child_diverge m o c rest i' o1 o1' :
  accepts o c → m !! i' = Some o1' →
  match child_id_at o c with Some i => m !! i = Some o1 | None => o1 = empty_map end →
  (∀ q, diverge rest q → locate_in m o1' q = locate_in m o1 q) →
  ∀ q, diverge (c :: rest) q → locate_in m (update_child o c i') q = locate_in m o q.
Proof.
  intros Ha Hi' Hchild IH [|c' q] Hd; [by apply diverge_not_nil in Hd|].
  destruct (decide (c = c')) as [<-|Hne]; simpl; [|by rw child_of_update_ne].
  apply diverge_cons in Hd. pose proof (diverge_not_nil _ _ Hd) as Hq.
  rw child_of_update //=. rw (locate_in_loaded _ _ _ _ Hi' Hq) IH //.
  destruct (child_id_at o c) as [i|]; simpl; [by rw (locate_in_loaded _ _ _ _ Hchild Hq)|].
  subst. destruct q as [|[k|idx] q]; [done|..]; simpl; [|done]. by rw lookup_empty.
Qed.

Lemma extends_refl (s : S) : addressed (contents s) → extends s s.
Proof. by split. Qed.

Lemma extends_trans (s1 s2 s3 : S) : extends s1 s2 → extends s2 s3 → extends s1 s3.
Proof. intros [_ H1] [? H2]. split; [done|by trans (contents s2)]. Qed.

Section grows.
Context (R : relation S) `{HR : !PreOrder R}.
Context (Hput : ∀ o s r s', put_object o s = (r, s') → R s s').

(** Whatever its outcome, a computation only adds to an addressed store, does
    nothing else that storing an object does not do ([R]), and a result
    satisfies [P]. *)
Definition grows {E A} (m : stateful S E A) (P : A → Prop) : Prop := ∀ s r s',
  addressed (contents s) → m s = (r, s') → extends s s' ∧ R s s' ∧ ∀ a, r = Ok a → P a.

Lemma grows_ret {E A} (a : A) (P : A → Prop) : P a → grows (E := E) (mret a) P.
Proof. intros Ha s r s' Hs [= <- <-]. split_and!; [by apply extends_refl|done|]. by intros ? [= <-]. Qed.

Lemma grows_throw {E A} (e : E) (P : A → Prop) : grows (throw e) P.
Proof. intros s r s' Hs [= <- <-]. split_and!; [by apply extends_refl|done|done]. Qed.

Lemma grows_bind {E A B} (m : stateful S E A) (f : A → stateful S E B) P Q :
  grows m P → (∀ a, P a → grows (f a) Q) → grows (m ≫= f) Q.
Proof.
  intros Hm Hf s r s' Hs. unfold mbind, stateful_bind.
  destruct (m s) as [[a|e] s1] eqn:E1; intros Hr; destruct (Hm _ _ _ Hs E1) as (He & HR1 & Ha).
  - destruct (Hf a (Ha a eq_refl) s1 r s') as (He' & HR2 & Hb); [apply He|done|].
    split_and!; [by eapply extends_trans|by trans s1|done].
  - injection Hr as <- <-. done.
Qed.

Lemma grows_reading {E A} (f : S → result E A) (P : A → Prop) :
  (∀ s a, addressed (contents s) → f s = Ok a → P a) → grows (reading f) P.
Proof. intros Hf s r s' Hs [= <- <-]. split_and!; [by apply extends_refl|done|]. eauto. Qed.

Lemma grows_lift {E A} (r : result E A) : grows (lift r) (λ _, True).
Proof. intros s r' s' Hs [= <- <-]. split_and!; [by apply extends_refl|done|done]. Qed.

Lemma grows_weaken {E A} (m : stateful S E A) (P Q : A → Prop) :
  grows m P → (∀ a, P a → Q a) → grows m Q.
Proof. intros Hm H s r s' Hs Hr. destruct (Hm s r s' Hs Hr) as (? & ? & ?). eauto. Qed.

Lemma grows_store_object o : finite o → grows (store_object o) (λ _, True).
Proof.
  intros Ho s r s' Hs. unfold store_object, map_err_st.
  destruct (put_object o s) as [[i|e] s1] eqn:Hp; intros [= <- <-];
    (split_and!; [|by eapply Hput|done]).
  - apply put_object_law in Hp as [-> Hc]. unfold extends. rw Hc.
    destruct (addressed_put (contents s) o Hs Ho) as (? & ? & ?). done.
  - unfold extends. by rw (put_object_err _ _ _ _ Hp).
Qed.

Lemma grows_load_object i : grows (reading (λ s, load_object s i)) finite.
Proof. apply grows_reading. intros s o Hs Ho%load_object_ok. by apply (Hs i). Qed.

Lemma set_recursive_grows cs o depth vid : grows (set_recursive o cs depth vid) finite.
Proof.
  revert o depth. induction cs as [|c rest IH]; intros o depth; [apply grows_load_object|].
  intros s r s' Hs. destruct (accepts o c) eqn:Ha.
  - rw (set_recursive_cons o c rest depth vid s); [|by rw Ha]. revert s r s' Hs.
    change (grows (i ← match rest with
       | [] => mret vid
       | _ =>
           child ← match child_id_at o c with
                   | Some i => reading (λ s, load_object s i)
                   | None => mret empty_map
                   end;
           new_child ← set_recursive child rest (depth + 1)%N vid;
           store_object new_child
       end;
       mret (update_child o c i)) finite).
    apply (grows_bind _ _ (λ _, True)).
    + destruct rest as [|c1 rest]; [by apply grows_ret|].
      apply (grows_bind _ _ finite).
      { destruct (child_id_at o c); [apply grows_load_object|by apply grows_ret]. }
      intros child _. apply (grows_bind _ _ finite); [apply IH|]. apply grows_store_object.
    + intros i _. apply grows_ret, update_child_finite. by rw Ha.
  - destruct (set_recursive_refused o c rest depth vid s Ha) as [e ->].
    intros [= <- <-]. split_and!; [by apply extends_refl|done|done].
Qed.

Lemma delete_recursive_grows cs o depth : grows (delete_recursive o cs depth) finite.
Proof.
  revert o depth. induction cs as [|c rest IH]; intros o depth; [apply grows_throw|].
  intros s r s' Hs. destruct (child_id_at o c) as [i|] eqn:Hi.
  - rw (delete_recursive_cons o c i rest depth s Hi). revert s r s' Hs.
    change (grows match rest with
       | [] => mret (remove_child o c)
       | _ =>
           child ← reading (λ s, load_object s i);
           new_child ← delete_recursive child rest (depth + 1)%N;
           new_child_id ← store_object new_child;
           mret (update_child o c new_child_id)
       end finite).
    destruct rest as [|c1 rest]; [by apply grows_ret; eapply remove_child_finite|].
    apply (grows_bind _ _ finite); [apply grows_load_object|]. intros child _.
    apply (grows_bind _ _ finite); [apply IH|]. intros new_child Hf.
    apply (grows_bind _ _ (λ _, True)); [by apply grows_store_object|]. intros i' _.
    apply grows_ret, update_child_finite. by eapply accepts_child.
  - destruct (delete_recursive_refused o c rest depth s Hi) as [e ->].
    intros [= <- <-]. split_and!; [by apply extends_refl|done|done].
Qed.

Lemma tree_set_grows root p v : finite v → grows (tree_set root p v) (λ _, True).
Proof.
  intros Hv. apply (grows_bind _ _ (λ _, True)); [by apply grows_store_object|]. intros vid _.
  case_match; [by apply grows_ret|].
  apply (grows_bind _ _ finite); [apply grows_load_object|]. intros o _.
  apply (grows_bind _ _ finite); [apply set_recursive_grows|]. apply grows_store_object.
Qed.

Lemma tree_delete_grows root p : grows (tree_delete root p) (λ _, True).
Proof.
  unfold tree_delete. case_match; [by apply grows_store_object|].
  apply (grows_bind _ _ finite); [apply grows_load_object|]. intros o _.
  apply (grows_bind _ _ finite); [apply delete_recursive_grows|]. apply grows_store_object.
Qed.
End grows.

Lemma set_recursive_ok rest o c depth vid (s s' : S) o' :
  addressed (contents s) → set_recursive o (c :: rest) depth vid s = (Ok o', s') →
  extends s s' ∧ finite o' ∧ ∀ m, contents s' ⊆ m →
    (∀ q, locate_in m o' (c :: rest ++ q) = locate m vid q) ∧
    (∀ q, diverge (c :: rest) q → locate_in m o' q = locate_in m o q).
Proof.
  revert o c depth s s' o'. induction rest as [|c1 rest IH]; intros o c depth s s' o' Hs Hrun;
    pose proof (set_recursive_accepts _ _ _ _ _ _ _ _ Hrun) as Ha; rewrite set_recursive_cons // in Hrun;
    apply stateful_bind_ok in Hrun as (i' & s2 & Hrun & [= <- <-]).
  - injection Hrun as <- <-. split_and!; [by apply extends_refl|by apply update_child_finite|].
    intros m Hm. split; [intros q; simpl; by rw child_of_update|].
    intros [|c' q] Hd; [by apply diverge_not_nil in Hd|]. simpl.
    destruct (decide (c = c')) as [<-|Hne]; [|by rw child_of_update_ne].
    apply diverge_cons in Hd as [[] _]. by exists q.
  - apply stateful_bind_ok in Hrun as (child & s1 & Hload & Hrun).
    apply stateful_bind_ok in Hrun as (new_child & s0 & Hrec & Hput).
    assert (s1 = s ∧ match child_id_at o c with
      Some i => contents s !! i = Some child | None => child = empty_map end) as [-> Hchild].
    { destruct (child_id_at o c); inv_st; [|done]. split; [done|by apply load_object_ok]. }
    apply IH in Hrec as (He0 & Hf & Hloc); [|done].
    apply store_object_ok in Hput as (He2 & -> & _ & Hi'); [|apply He0|done].
    split_and!; [by eapply extends_trans|by apply update_child_finite|].
    intros m Hm. destruct (Hloc m) as [Hvid Hdiv]; [by trans (contents s2); [apply He2|]|].
    pose proof (lookup_weaken _ _ _ _ Hi' Hm) as Hi''. split.
    + intros q. simpl. rw child_of_update //=. rw Hi'' /=. apply (Hvid q).
    + apply (update_child_diverge m o c (c1 :: rest) _ child new_child Ha Hi''); [|done].
      destruct (child_id_at o c); [|done].
      eapply lookup_weaken; [done|]. trans (contents s2); [|done]. by apply (extends_trans s s0 s2).
Qed.

Lemma delete_recursive_ok rest o c depth (s s' : S) o' :
  addressed (contents s) → delete_recursive o (c :: rest) depth s = (Ok o', s') →
  extends s s' ∧ finite o' ∧ ∃ q c1 x,
    c :: rest = q ++ [c1] ∧ is_Some (child_id_at x c1) ∧ ∀ m, contents s' ⊆ m →
      object_in m o q = Some x ∧ object_in m o' q = Some (remove_child x c1) ∧
      ∀ q', diverge q q' → locate_in m o' q' = locate_in m o q'.
Proof.
  revert o c depth s s' o'. induction rest as [|c1 rest IH]; intros o c depth s s' o' Hs Hrun;
    destruct (delete_recursive_child _ _ _ _ _ _ _ Hrun) as [i Hi];
    erewrite delete_recursive_cons in Hrun by done.
  - injection Hrun as <- <-. split_and!; [by apply extends_refl|by eapply remove_child_finite|].
    exists [], c, o. split_and!; [done|by eexists|]. intros m _.
    split_and!; [done..|]. intros q' [[] _]. apply prefix_nil.
  - apply stateful_bind_ok in Hrun as (child & s1 & [Hchild ->]%reading_ok & Hrun).
    apply load_object_ok in Hchild.
    apply stateful_bind_ok in Hrun as (new_child & s0 & Hrec & Hrun).
    apply stateful_bind_ok in Hrun as (i' & s2 & Hput & [= <- <-]).
    apply IH in Hrec as (He0 & Hf & q & c2 & x & -> & Hx & Hloc); [|done].
    apply store_object_ok in Hput as (He2 & -> & _ & Hi'); [|apply He0|done].
    pose proof (accepts_child _ _ _ Hi) as Ha.
    split_and!; [by eapply extends_trans|by apply update_child_finite|].
    exists (c :: q), c2, x. split_and!; [done..|]. intros m Hm.
    destruct (Hloc m) as (Hox & Hox' & Hdiv); [by trans (contents s2); [apply He2|]|].
    pose proof (lookup_weaken _ _ _ _ Hi' Hm) as Hi''.
    assert (m !! i = Some child) as Hc.
    { eapply lookup_weaken; [done|]. trans (contents s2); [|done]. by apply (extends_trans s s0 s2). }
    rw !object_in_cons child_of_update // Hi /=.
    rw (value_at_loaded _ _ _ _ Hc) (value_at_loaded _ _ _ _ Hi'').
    split_and!; [done..|]. apply (update_child_diverge m o c q _ child new_child Ha Hi''); [|done].
    by rw Hi.
Qed.

Lemma tree_set_ok (s s' : S) root p v r :
  addressed (contents s) → finite v → tree_set root p v s = (Ok r, s') →
  extends s s' ∧ ∀ m, contents s' ⊆ m →
  value_at m r p = Some v ∧
  (∀ q, locate m r (p ++ q) = locate m (oid_of v) q) ∧
  (∀ q, diverge p q → locate m r q = locate m root q).
Proof.
  intros Hs Hv Hrun. apply stateful_bind_ok in Hrun as (vid & s1 & Hput & Hrun).
  apply store_object_ok in Hput as (He1 & -> & _ & Hv1); [|done..].
  destruct p as [|c p]; simpl in Hrun.
  { injection Hrun as <- <-. split; [done|]. intros m Hm.
    split_and!; [by eapply lookup_weaken|done|]. intros q [[] _]. apply prefix_nil. }
  apply stateful_bind_ok in Hrun as (o & s2 & [Ho%load_object_ok ->]%reading_ok & Hrun).
  apply stateful_bind_ok in Hrun as (o' & s2 & Hrec & Hput).
  apply set_recursive_ok in Hrec as (He2 & Hf & Hloc); [|apply He1].
  apply store_object_ok in Hput as (He3 & -> & _ & Ho'); [|apply He2|done].
  assert (extends s1 s') as He by by eapply extends_trans.
  split; [by eapply extends_trans|]. intros m Hm.
  destruct (Hloc m) as [Hat Hdiv]; [by trans (contents s'); [apply He3|]|].
  pose proof (lookup_weaken _ _ _ _ Ho' Hm) as Ho1'.
  assert (contents s1 ⊆ m) as Hm1 by (trans (contents s'); [apply He|done]).
  pose proof (lookup_weaken _ _ _ _ Ho Hm1) as Ho1.
  pose proof (lookup_weaken _ _ _ _ Hv1 Hm1) as Hv'.
  assert (∀ q, locate m (oid_of o') ((c :: p) ++ q) = locate m (oid_of v) q) as Hl.
  { intros q. rw (locate_in_loaded _ _ _ _ Ho1'); [apply (Hat q)|done]. }
  split_and!; [|done|].
  - pose proof (Hl []) as Hl0. rewrite app_nil_r in Hl0. unfold value_at. by rw Hl0.
  - intros q Hq. pose proof (diverge_not_nil _ _ Hq).
    by rw (locate_in_loaded _ _ _ _ Ho1') // (locate_in_loaded _ _ _ _ Ho1) // Hdiv.
Qed.


Lemma tree_delete_ok (s s' : S) root p r :
  addressed (contents s) → tree_delete root p s = (Ok r, s') →
  extends s s' ∧ ∀ m, contents s' ⊆ m →
  (p = [] ∧ value_at m r [] = Some empty_map ∨
   ∃ q c x, p = q ++ [c] ∧ is_Some (child_id_at x c) ∧
     value_at m root q = Some x ∧
     value_at m r q = Some (remove_child x c) ∧
     ∀ q', diverge q q' → locate m r q' = locate m root q').
Proof.
  intros Hs Hrun. unfold tree_delete in Hrun. destruct p as [|c p]; simpl in Hrun.
  { apply store_object_ok in Hrun as (He & -> & _ & Ho); [|done..]. split; [done|].
    intros m Hm. left. split; [done|]. by eapply lookup_weaken. }
  apply stateful_bind_ok in Hrun as (o & s1 & [Ho%load_object_ok ->]%reading_ok & Hrun).
  apply stateful_bind_ok in Hrun as (o' & s1 & Hrec & Hput).
  apply delete_recursive_ok in Hrec as (He & Hf & q & c1 & x & -> & Hx & Hloc); [|done].
  apply store_object_ok in Hput as (He' & -> & _ & Ho'); [|apply He|done].
  assert (extends s s') as Hes by by eapply extends_trans.
  split; [done|]. intros m Hm. right. exists q, c1, x.
  destruct (Hloc m) as (Hox & Hox' & Hdiv); [by trans (contents s'); [apply He'|]|].
  pose proof (lookup_weaken _ _ _ _ Ho' Hm) as Ho1'.
  assert (contents s ⊆ m) as Hms by (trans (contents s'); [apply Hes|done]).
  pose proof (lookup_weaken _ _ _ _ Ho Hms) as Ho1.
  rw (value_at_loaded _ _ _ _ Ho1) (value_at_loaded _ _ _ _ Ho1').
  split_and!; [done..|]. intros q' Hq. pose proof (diverge_not_nil _ _ Hq).
  by rw (locate_in_loaded _ _ _ _ Ho1') // (locate_in_loaded _ _ _ _ Ho1) // Hdiv.
Qed.


Lemma tree_get_ok (s : S) root p o : tree_get s root p = Ok o → value_at (contents s) root p = Some o.
Proof.
  unfold tree_get. intros Hg. inv_ok. apply load_object_ok in H.
  pose proof (navigate_all_spec s root p p [] x eq_refl) as Hn. rewrite Hg in Hn.
  apply Hn. by rw (value_at_loaded _ _ _ _ H).
Qed.

Context `{RS : !Reliable S}.

Lemma load_object_total (s : S) i : load_object s i = ok_or (TObjectNotFound i) (contents s !! i).
Proof. unfold load_object. by rw get_total. Qed.

Lemma navigate_all_total (s : S) path p o x :
  object_in (contents s) o p = Some x → navigate_all s path o p = Ok x.
Proof.
  revert o. induction p as [|c p IH]; intros o; [by intros [= ->]|].
  rw object_in_cons. destruct (child_id_at o c) as [i|] eqn:Hi; [simpl|done].
  intros (o1 & Ho1 & Hx)%value_at_inv.
  assert (navigate s path o c = Ok o1) as ->; [|by apply IH].
  apply navigate_ok. exists i. split; [done|]. by rw load_object_total Ho1.
Qed.

Lemma tree_get_total (s : S) root p o :
  tree_get s root p = Ok o ↔ value_at (contents s) root p = Some o.
Proof.
  split; [apply tree_get_ok|]. intros (x & Hx & Ho)%value_at_inv.
  unfold tree_get. rw load_object_total Hx /=. by apply navigate_all_total.
Qed.

Lemma store_object_total o (s : S) : ∃ s', store_object o s = (Ok (oid_of o), s').
Proof.
  destruct (put_total o s) as [s' Hp]. exists s'. unfold store_object, map_err_st. by rw Hp.
Qed.

(** The writes that have somewhere to go: the path ends on an existing
    position, or leaves the tree at a map or null and goes on by keys. *)
Definition settable (at_path : StatePath → option Object) (p : StatePath) : Prop :=
  ∃ q c rest x, p = q ++ c :: rest ∧ at_path q = Some x ∧ accepts x c ∧
    (rest = [] ∨ child_id_at x c = None ∧ Forall is_key rest).

Lemma settable_loaded m root o p :
  m !! root = Some o → settable (object_in m o) p → settable (value_at m root) p.
Proof.
  intros Ho (q & c & r & x & Hp & Hx & Hr). exists q, c, r, x.
  by rw (value_at_loaded _ _ _ _ Ho).
Qed.

Lemma settable_loaded_inv m root p :
  settable (value_at m root) p → ∃ o, m !! root = Some o ∧ settable (object_in m o) p.
Proof.
  intros (q & c & r & x & Hp & Hx & Hr). apply value_at_inv in Hx as (o & Ho & Hx).
  exists o. split; [done|]. by exists q, c, r, x.
Qed.

Lemma settable_empty_map m c rest :
  settable (object_in m empty_map) (c :: rest) ↔ Forall is_key (c :: rest).
Proof.
  split.
  - intros (q & c' & r & x & Hp & [-> ->]%object_in_empty_map & Ha & Hr).
    injection Hp as -> ->. constructor; [by destruct c'|]. destruct Hr as [->|[_ Hr]]; [constructor|done].
  - inversion 1 as [|? ? Hc Hr]; subst. exists [], c, rest, empty_map.
    destruct c; [|done]. split_and!; [done..|]. right. split; [apply lookup_empty|done].
Qed.

Lemma settable_cons m o c rest :
  settable (object_in m o) (c :: rest) ↔
  accepts o c ∧ match rest with
    | [] => True
    | _ => match child_id_at o c with
           | Some i => ∃ child, m !! i = Some child ∧ settable (object_in m child) rest
           | None => Forall is_key rest
           end
    end.
Proof.
  split.
  - intros ([|c1 q] & c' & r & x & Hp & Hx & Ha & Hr).
    + simplify_list_eq. split; [done|].
      destruct Hr as [->|[-> Hr]]; [done|by destruct r].
    + injection Hp as <- ->. rewrite object_in_cons in Hx.
      destruct (child_id_at o c) as [i|] eqn:Hi; [|done]. simpl in Hx.
      split; [by eapply accepts_child|]. apply value_at_inv in Hx as (child & Hc & Hx).
      assert (∃ child0, m !! i = Some child0 ∧ settable (object_in m child0) (q ++ c' :: r)) as H.
      { exists child. split; [done|]. by exists q, c', r, x. }
      by destruct q.
  - intros [Ha Hr]. destruct rest as [|c1 r]; [exists [], c, [], o; split_and!; auto|].
    destruct (child_id_at o c) as [i|] eqn:Hi; [|exists [], c, (c1 :: r), o; split_and!; auto].
    destruct Hr as (child & Hc & q & c' & r' & x & -> & Hx & Ha' & Hr).
    exists (c :: q), c', r', x. split_and!; [done| |done..].
    by rw object_in_cons Hi /= (value_at_loaded _ _ _ _ Hc).
Qed.

Lemma set_recursive_total rest o c depth vid (s : S) :
  (∃ o' s', set_recursive o (c :: rest) depth vid s = (Ok o', s')) ↔
  settable (object_in (contents s) o) (c :: rest).
Proof.
  revert o c depth. induction rest as [|c1 rest IH]; intros o c depth;
    rw settable_cons; (split;
      [intros (o' & s' & Hrun); pose proof (set_recursive_accepts _ _ _ _ _ _ _ _ Hrun) as Ha;
       split; [done|]; rewrite set_recursive_cons // in Hrun
      |intros [Ha Hr]; setoid_rewrite set_recursive_cons; [|done]]).
  - by eexists _, _.
  - apply stateful_bind_ok in Hrun as (i' & s2 & Hrun & _).
    apply stateful_bind_ok in Hrun as (child & s1 & Hload & Hrun).
    apply stateful_bind_ok in Hrun as (new_child & s0 & Hrec & _).
    destruct (child_id_at o c) as [i|].
    + apply reading_ok in Hload as [Hc%load_object_ok ->]. exists child. split; [done|].
      eapply IH; eauto.
    + injection Hload as <- <-. apply (settable_empty_map (contents s)). eapply IH; eauto.
  - assert (∃ child, (match child_id_at o c with
        | Some i => reading (λ s, load_object s i) | None => mret empty_map end : stateful S _ _) s
        = (Ok child, s) ∧ settable (object_in (contents s) child) (c1 :: rest)) as (child & Hl & Hset).
    { destruct (child_id_at o c) as [i|].
      - destruct Hr as (child & Hc & Hset). exists child. split; [|done].
        unfold reading. by rw load_object_total Hc.
      - exists empty_map. split; [done|]. by apply settable_empty_map. }
    apply (IH child c1 (depth + 1)%N) in Hset as (o' & s1 & Hrec).
    destruct (store_object_total o' s1) as [s2 Hput].
    exists (update_child o c (oid_of o')), s2.
    apply stateful_bind_ok. exists (oid_of o'), s2. split; [|done].
    apply stateful_bind_ok. exists child, s. split; [done|].
    apply stateful_bind_ok. by exists o', s1.
Qed.

Lemma tree_set_total_ok root p v (s : S) :
  addressed (contents s) → finite v →
  (∃ r s', tree_set root p v s = (Ok r, s')) ↔
  p = [] ∨ settable (value_at (contents s ∪ {[ oid_of v := v ]}) root) p.
Proof.
  intros Hs Hv. unfold tree_set. destruct (store_object_total v s) as [s1 Hput].
  destruct (store_object_ok v s s1 _ Hs Hv Hput) as (He1 & _ & Hc & _).
  destruct p as [|c p].
  { split; [by left|]. intros _. exists (oid_of v), s1. apply stateful_bind_ok. by exists (oid_of v), s1. }
  rw -Hc. split.
  - intros (r & s' & Hrun). right.
    apply stateful_bind_ok in Hrun as (vid & s1' & Hput' & Hrun).
    rewrite Hput in Hput'. injection Hput' as <- <-.
    apply stateful_bind_ok in Hrun as (o & s2 & [Ho%load_object_ok ->]%reading_ok & Hrun).
    apply stateful_bind_ok in Hrun as (o' & s2 & Hrec & _).
    apply (settable_loaded _ _ o); [done|]. by eapply set_recursive_total; eexists _, _.
  - intros [?|Hset]; [done|]. apply settable_loaded_inv in Hset as (o & Ho & Hset).
    apply (set_recursive_total _ _ _ 0%N (oid_of v)) in Hset as (o' & s2 & Hrec).
    destruct (store_object_total o' s2) as [s3 Hput3]. exists (oid_of o'), s3.
    apply stateful_bind_ok. exists (oid_of v), s1. split; [done|].
    apply stateful_bind_ok. exists o, s1. split; [unfold reading; by rw load_object_total Ho|].
    apply stateful_bind_ok. by exists o', s2.
Qed.

Lemma delete_recursive_total rest o c depth (s : S) :
  (∃ o' s', delete_recursive o (c :: rest) depth s = (Ok o', s')) ↔
  is_Some (locate_in (contents s) o (c :: rest)).
Proof.
  revert o c depth. induction rest as [|c1 rest IH]; intros o c depth; cbn [locate_in];
    (destruct (child_id_at o c) as [i|] eqn:Hi; cbn [mbind option_bind locate];
     [setoid_rewrite (delete_recursive_cons o c i); [|done]
     |split; [intros (? & ? & Hrun); apply delete_recursive_child in Hrun as [? ?]; congruence
             |by intros []]]).
  - split; [by eexists|by eexists _, _].
  - split.
    + intros (o' & s' & Hrun).
      apply stateful_bind_ok in Hrun as (child & s1 & [Hc ->]%reading_ok & Hrun).
      apply stateful_bind_ok in Hrun as (new_child & s0 & Hrec & _).
      apply load_object_ok in Hc. rw Hc /=. apply (IH child c1 (depth + 1)%N). eauto.
    + destruct (contents s !! i) as [child|] eqn:Hc; [|by intros []].
      intros (o' & s1 & Hrec)%(IH child c1 (depth + 1)%N).
      destruct (store_object_total o' s1) as [s2 Hput].
      exists (update_child o c (oid_of o')), s2.
      apply stateful_bind_ok. exists child, s. split; [unfold reading; by rw load_object_total Hc|].
      apply stateful_bind_ok. exists o', s1. split; [done|].
      apply stateful_bind_ok. by exists (oid_of o'), s2.
Qed.
End steps.

(** ** Properties *)

(** A read by path on every branch: success is the value the path leads
    to, and each error names what stopped it: a dangling id, a missing key, an
    index past the end, a container of the other kind, an atom in the way, or
    a failing store. *)
Theorem tree_get_spec `{CH : ContentHash} {S : Type} `{OS : !ObjectStore S, !ObjectStoreLaws S}
    (s : S) root p :
  let m := contents s in
  match tree_get s root p with
  | Ok o => value_at m root p = Some o
  | Err (TObjectNotFound i) => ∃ q q', p = q ++ q' ∧ locate m root q = Some i ∧ m !! i = None
  | Err (PathNotFound d) =>
      d = display p ∧ ∃ q c o, stuck m root p q c o ∧
        ((∃ k mm, c = Key k ∧ o = ONode (NMap mm)) ∨ ∃ l, o = ONode (NSet l))
  | Err (IndexOutOfBounds i n) =>
      ∃ q l, stuck m root p q (Index i) (ONode (NList l)) ∧ n = len l ∧ (n ≤ i)%N
  | Err (TypeMismatch d want found) =>
      d = display p ∧ ∃ q c o, stuck m root p q c o ∧
        ((∃ mm, is_key c = false ∧ o = ONode (NMap mm) ∧ want = "list" ∧ found = "map") ∨
         ∃ l, is_key c ∧ o = ONode (NList l) ∧ want = "map" ∧ found = "list")
  | Err (CannotNavigateAtom d) => d = display p ∧ ∃ q c a, stuck m root p q c (OAtom a)
  | Err (InvalidJson _) => False
  | Err (TStorage e) => ∃ i, get_object s i = Err e
  end.
Proof.
  intros m. unfold tree_get. destruct (load_object s root) as [o|e] eqn:Hroot; simpl.
  - apply load_object_ok in Hroot. by apply (navigate_all_spec s root p p []).
  - apply load_object_err in Hroot as [(i & e' & -> & Hg) | [-> Hr]]; [by exists i|].
    by exists [], p.
Qed.

(** C18: a successful write puts exactly the value at its path, with what lies
    below it, and every path that does not lead through that position finds
    the very same objects as before; nothing stored is lost, so the old root
    still reads as it did. *)
Theorem tree_set_spec `{CH : ContentHash} {S : Type} `{OS : !ObjectStore S, !ObjectStoreLaws S}
    `{CF : !CollisionFree} (s s' : S) root p v r :
  addressed (contents s) → finite v → tree_set root p v s = (Ok r, s') →
  extends s s' ∧
  value_at (contents s') r p = Some v ∧
  (∀ q, locate (contents s') r (p ++ q) = locate (contents s') (oid_of v) q) ∧
  (∀ q, diverge p q → locate (contents s') r q = locate (contents s') root q).
Proof. intros Hs Hv [He Hm]%tree_set_ok; [|done..]. split; [done|]. by apply Hm. Qed.

(** On a store that does not fail, a write succeeds exactly when it has
    somewhere to go: the root, a position that exists, a new key of a map or
    null, or new maps below one, made of keys only; in particular it never
    turns an existing value other than null into a container. *)
Theorem tree_set_total `{CH : ContentHash} {S : Type} `{OS : !ObjectStore S, !ObjectStoreLaws S}
    `{CF : !CollisionFree, RS : !Reliable S} (s : S) root p v :
  addressed (contents s) → finite v →
  (∃ r s', tree_set root p v s = (Ok r, s')) ↔
  p = [] ∨ settable (value_at (contents s ∪ {[ oid_of v := v ]}) root) p.
Proof. by apply tree_set_total_ok. Qed.

(** C30: a successful deletion removes one child of the node its path ends in
    (later elements of a list move up) and leaves every path that does not
    lead through that node as it was; deleting the root leaves an empty map. *)
Theorem tree_delete_spec `{CH : ContentHash} {S : Type} `{OS : !ObjectStore S, !ObjectStoreLaws S}
    `{CF : !CollisionFree} (s s' : S) root p r :
  addressed (contents s) → tree_delete root p s = (Ok r, s') →
  extends s s' ∧
  (p = [] ∧ value_at (contents s') r [] = Some empty_map ∨
   ∃ q c x, p = q ++ [c] ∧ is_Some (child_id_at x c) ∧
     value_at (contents s') root q = Some x ∧
     value_at (contents s') r q = Some (remove_child x c) ∧
     ∀ q', diverge q q' → locate (contents s') r q' = locate (contents s') root q').
Proof. intros Hs [He Hm]%tree_delete_ok; [|done]. split; [done|]. by apply Hm. Qed.

(** On a store that does not fail, a deletion succeeds exactly when its
    path leads to a position of the tree, whether or not the value there is
    still stored. *)
Theorem tree_delete_total `{CH : ContentHash} {S : Type} `{OS : !ObjectStore S, !ObjectStoreLaws S}
    `{RS : !Reliable S} (s : S) root p :
  (∃ r s', tree_delete root p s = (Ok r, s')) ↔ is_Some (locate (contents s) root p).
Proof.
  unfold tree_delete. destruct p as [|c p]; simpl.
  { split; [by eexists|]. intros _. destruct (store_object_total empty_map s) as [s' ?]. eauto. }
  split.
  - intros (r & s' & Hrun).
    apply stateful_bind_ok in Hrun as (o & s1 & [Ho%load_object_ok ->]%reading_ok & Hrun).
    apply stateful_bind_ok in Hrun as (o' & s1 & Hrec & _). rw Ho /=.
    apply (delete_recursive_total p o c 0%N). eauto.
  - destruct (contents s !! root) as [o|] eqn:Ho; [|by intros []].
    intros (o' & s1 & Hrec)%(delete_recursive_total p o c 0%N).
    destruct (store_object_total o' s1) as [s2 Hput]. exists (oid_of o'), s2.
    apply stateful_bind_ok. exists o, s. split; [unfold reading; by rw load_object_total Ho|].
    apply stateful_bind_ok. by exists o', s1.
Qed.

Section witnesses.
Import Plain.

Definition leaf := mk_string "v".
Definition inner := mk_map {[ "x" := oid_of leaf ]}.
Definition tree_root := mk_map {[ "a" := oid_of inner; "n" := oid_of leaf ]}.
Definition tree_store : MemoryStorage := set_objects mem_new (sample [leaf; inner; tree_root]).
Definition written := mk_int 7.
Definition at_ab : StatePath := [Key "a"; Key "b"; Key "c"].

Lemma tree_store_addressed : addressed (contents tree_store).
Proof.
  intros i o Ho. change (sample [leaf; inner; tree_root] !! i = Some o) in Ho.
  apply sample_lookup in Ho as [<- Hin]. split; [done|]. set_unfold in Hin. by destruct_or!; subst.
Qed.

Lemma tree_set_spec_witness :
  ∃ r s', tree_set (oid_of tree_root) at_ab written tree_store = (Ok r, s') ∧
    value_at (contents s') r at_ab = Some written ∧
    locate (contents s') r [Key "a"; Key "x"] = Some (oid_of leaf).
Proof.
  destruct (tree_set (oid_of tree_root) at_ab written tree_store) as [[r|e] s'] eqn:Hrun;
    [|exfalso; revert Hrun; by vm_compute].
  exists r, s'. destruct (tree_set_spec tree_store s' (oid_of tree_root) at_ab written r
    tree_store_addressed I Hrun) as ([_ Hsub] & Hv & _ & Hd).
  split_and!; [done..|]. rw Hd.
  - apply (locate_mono (contents tree_store)); [done|by vm_compute].
  - split; by intros [k [=]].
Defined.

Lemma tree_set_total_witness :
  (∃ r s', tree_set (oid_of tree_root) at_ab written tree_store = (Ok r, s')) ∧
  ¬ ∃ r s', tree_set (oid_of tree_root) [Key "n"; Key "b"] written tree_store = (Ok r, s').
Proof.
  split.
  - apply (tree_set_total tree_store _ at_ab written tree_store_addressed I). right.
    exists [Key "a"], (Key "b"), [Key "c"], inner. split_and!; [done|by vm_compute|done|].
    right. split; [by vm_compute|]. by repeat constructor.
  - rw (tree_set_total tree_store _ _ written tree_store_addressed I).
    intros [?|(q & c & r & x & Hp & Hx & Ha & Hr)]; [done|].
    destruct q as [|c1 [|c2 [|? ?]]]; simplify_list_eq.
    + assert (value_at (contents tree_store ∪ {[ oid_of written := written ]}) (oid_of tree_root) []
        = Some tree_root) as Ht by by vm_compute.
      simpl in Ht. rewrite Hx in Ht. injection Ht as ->.
      destruct Hr as [?|[Hr _]]; [done|]. revert Hr. by vm_compute.
    + assert (value_at (contents tree_store ∪ {[ oid_of written := written ]}) (oid_of tree_root)
        [Key "n"] = Some leaf) as Ht by by vm_compute.
      simpl in Ht. rewrite Hx in Ht. by injection Ht as ->.
Defined.

Lemma tree_delete_spec_witness :
  ∃ r s', tree_delete (oid_of tree_root) [Key "a"; Key "x"] tree_store = (Ok r, s') ∧
    value_at (contents s') r [Key "a"] = Some empty_map ∧
    locate (contents s') r [Key "n"] = Some (oid_of leaf).
Proof.
  destruct (tree_delete (oid_of tree_root) [Key "a"; Key "x"] tree_store) as [[r|e] s'] eqn:Hrun;
    [|exfalso; revert Hrun; by vm_compute].
  exists r, s'. split; [done|].
  destruct (tree_delete_spec tree_store s' (oid_of tree_root) _ r tree_store_addressed Hrun)
    as ([_ Hsub] & [[? _]|(q & c & x & Hp & _ & Hx & Hr & Hd)]); [done|].
  assert (q = [Key "a"] ∧ c = Key "x") as [-> ->].
  { destruct q as [|c1 [|c2 q]]; [done| |by destruct q]. by injection Hp as <- <-. }
  assert (x = inner) as ->.
  { unfold value_at in Hx. rewrite (locate_mono (contents tree_store) _ _ _ (oid_of inner)) in Hx;
      [|done|by vm_compute]. simpl in Hx.
    rewrite (lookup_weaken (contents tree_store) _ _ inner) in Hx; [|by vm_compute|done].
    by injection Hx as <-. }
  split; [rw Hr; by vm_compute|]. rw Hd.
  - apply (locate_mono (contents tree_store)); [done|by vm_compute].
  - split; by intros [k [=]].
Defined.

Lemma tree_delete_total_witness :
  ∃ r s', tree_delete (oid_of tree_root) [Key "a"; Key "x"] tree_store = (Ok r, s').
Proof. rw tree_delete_total. by exists (oid_of leaf). Defined.
End witnesses.
