(* ===== verification/TreeJson.v ===== *)
(** * TreeJson: trees to JSON and back

    Models the JSON half of [agentstategraph/src/tree.rs]: building a tree
    from a JSON value, rendering a tree, whole or down to a depth, and the
    level-at-a-time overlay both renderings read through; with the batch
    defaults of [agentstategraph-storage/src/traits.rs]. Readers take the
    store's [get_object] as a function. [to_json] and the loading of an
    unbounded number of levels run on fuel. *)
From S2P Require Import Prelude Objects Paths Json Intents Commits Stores Diffs Memory Trees.

Abbreviation Reads := (ObjectId → result StorageError (option Object)).

(** ** Batches *)

Definition batch_get_objects (get : Reads) (ids : list ObjectId) :
    result StorageError (list (option Object)) := traverse get ids.

Fixpoint batch_put_objects `{CH : ContentHash} {S : Type} `{OS : !ObjectStore S}
    (objs : list Object) : stateful S StorageError (list ObjectId) :=
  match objs with
  | [] => mret []
  | obj :: objs' => id ← put_object obj; ids ← batch_put_objects objs'; mret (id :: ids)
  end.

(** [slice::chunks]. *)
Fixpoint chunks_go {A} (fuel n : nat) (l : list A) : list (list A) :=
  match fuel, l with
  | 0, _ | _, [] => []
  | S fuel', _ => take n l :: chunks_go fuel' n (drop n l)
  end.
Definition chunks {A} (n : nat) (l : list A) : list (list A) := chunks_go (length l) n l.

(** [retain] with a set of what was seen: first occurrences, in order. *)
Fixpoint retain_new (seen : gset ObjectId) (l : list ObjectId) : list ObjectId :=
  match l with
  | [] => []
  | x :: l' => if decide (x ∈ seen) then retain_new seen l' else x :: retain_new ({[ x ]} ∪ seen) l'
  end.

(** ** The prefetched overlay *)

Definition child_ids (o : Object) : list ObjectId :=
  match o with
  | OAtom _ => []
  | ONode (NMap m) => (entries m).*2
  | ONode (NList items) | ONode (NSet items) => items
  end.

(** The objects of a chunk, filed, and the ids they point at. *)
Fixpoint file_chunk (chunk : list (ObjectId * option Object))
    (acc : gmap ObjectId Object * list ObjectId) : gmap ObjectId Object * list ObjectId :=
  match chunk with
  | [] => acc
  | (id, Some obj) :: chunk' => file_chunk chunk' (<[id := obj]> acc.1, acc.2 ++ child_ids obj)
  | (_, None) :: chunk' => file_chunk chunk' acc
  end.

Fixpoint load_chunks (get : Reads) (cs : list (list ObjectId))
    (acc : gmap ObjectId Object * list ObjectId) :
    result StorageError (gmap ObjectId Object * list ObjectId) :=
  match cs with
  | [] => Ok acc
  | chunk :: cs' =>
      objs ← batch_get_objects get chunk;
      load_chunks get cs' (file_chunk (zip chunk objs) acc)
  end.

(** [usize::MAX] levels, on a 64-bit machine. *)
Definition ALL_LEVELS : N := 2 ^ 64 - 1.

Fixpoint load_loop (fuel : nat) (get : Reads) (levels level : N)
    (objects : gmap ObjectId Object) (frontier : list ObjectId) :
    result (stop TreeError) (gmap ObjectId Object) :=
  match fuel with
  | 0 => Err OutOfFuel
  | S fuel' =>
      if bool_decide (frontier = []) || (levels <=? level)%N then Ok objects else
      let frontier' := retain_new (dom objects) frontier in
      '(objects', next) ← map_err (Fail ∘ TStorage)
        (load_chunks get (chunks PREFETCH_BATCH frontier') (objects, []));
      load_loop fuel' get levels (level + 1)%N objects' next
  end.

Definition load_many (fuel : nat) (get : Reads) (roots : list Object) (levels : N) :
    result (stop TreeError) (gmap ObjectId Object) :=
  load_loop fuel get levels 0 ∅ (mjoin (child_ids <$> roots)).

Definition load (fuel : nat) (get : Reads) (root : Object) (levels : N) :
    result (stop TreeError) (gmap ObjectId Object) := load_many fuel get [root] levels.

(** Reading through the overlay. *)
Definition prefetched_get (objects : gmap ObjectId Object) (get : Reads) : Reads := λ id,
  match objects !! id with Some o => Ok (Some o) | None => get id end.

Definition prefetched_has (objects : gmap ObjectId Object)
    (has : ObjectId → result StorageError bool) (id : ObjectId) : result StorageError bool :=
  if bool_decide (is_Some (objects !! id)) then Ok true else has id.

(** ** Rendering *)

Definition base64_char (n : N) : ascii :=
  default "="%char (String.get (N.to_nat n)
    "ABCDEFGHIJKLMNOPQRSTUVWXYZabcdefghijklmnopqrstuvwxyz0123456789+/").

Fixpoint base64_encode (data : string) : string :=
  match data with
  | EmptyString => EmptyString
  | String c0 EmptyString =>
      let triple := N.shiftl (code c0) 16 in
      String (base64_char (N.land (N.shiftr triple 18) 63))
        (String (base64_char (N.land (N.shiftr triple 12) 63)) "==")
  | String c0 (String c1 EmptyString) =>
      let triple := N.lor (N.shiftl (code c0) 16) (N.shiftl (code c1) 8) in
      String (base64_char (N.land (N.shiftr triple 18) 63))
        (String (base64_char (N.land (N.shiftr triple 12) 63))
          (String (base64_char (N.land (N.shiftr triple 6) 63)) "="))
  | String c0 (String c1 (String c2 rest)) =>
      let triple := N.lor (N.lor (N.shiftl (code c0) 16) (N.shiftl (code c1) 8)) (code c2) in
      String (base64_char (N.land (N.shiftr triple 18) 63))
        (String (base64_char (N.land (N.shiftr triple 12) 63))
          (String (base64_char (N.land (N.shiftr triple 6) 63))
            (String (base64_char (N.land triple 63)) (base64_encode rest))))
  end.

(** [serde_json::json!] of an [i64] and of an [f64]. *)
Definition json_i64 (i : Z) : Json :=
  if (0 <=? i)%Z then JNumber (PosInt (Z.to_N i)) else JNumber (NegInt i).
Definition json_f64 (f : Z) : Json := if f64_finite f then JNumber (FloatNum f) else JNull.

Definition atom_to_json (a : Atom) : Json :=
  match a with
  | ANull => JNull
  | ABool b => JBool b
  | AInt i => json_i64 i
  | AUInt u => JNumber (PosInt u)
  | AFloat f => json_f64 f
  | AString s => JString s
  | ABytes b => JString ("base64:" +:+ base64_encode b)
  end.

Definition read_child (get : Reads) (id : ObjectId) : result (stop TreeError) Object :=
  o ← map_err (Fail ∘ TStorage) (get id);
  ok_or (Fail (TObjectNotFound id)) o.

Fixpoint to_json (fuel : nat) (get : Reads) (o : Object) : result (stop TreeError) Json :=
  match fuel with
  | 0 => Err OutOfFuel
  | S fuel' =>
      match o with
      | OAtom a => Ok (atom_to_json a)
      | ONode (NMap m) =>
          JObject <$> traverse (λ kv,
            child ← read_child get kv.2; j ← to_json fuel' get child; Ok (kv.1, j)) (entries m)
      | ONode (NList items) | ONode (NSet items) =>
          JArray <$> traverse (λ id, child ← read_child get id; to_json fuel' get child) items
      end
  end.

Definition tree_to_json (fuel : nat) (get : Reads) (o : Object) : result (stop TreeError) Json :=
  objects ← load fuel get o ALL_LEVELS;
  to_json fuel (prefetched_get objects get) o.

Definition trees_to_json (fuel : nat) (get : Reads) (objs : list (option Object)) :
    result (stop TreeError) (list (option Json)) :=
  objects ← load_many fuel get (omap id objs) ALL_LEVELS;
  traverse (λ obj, match obj with
    | Some o => Some <$> to_json fuel (prefetched_get objects get) o
    | None => Ok None
    end) objs.

(** [remaining] is [max_depth - depth]. *)
Fixpoint to_json_capped (get : Reads) (o : Object) (remaining : nat) :
    result (stop TreeError) Json :=
  match o, remaining with
  | OAtom a, _ => Ok (atom_to_json a)
  | ONode (NMap m), 0 =>
      Ok (JObject [("_keys", JArray (JString <$> sorted_keys m)); ("_truncated", JBool true)])
  | ONode (NList items), 0 | ONode (NSet items), 0 =>
      Ok (JObject [("_len", JNumber (PosInt (len items))); ("_truncated", JBool true)])
  | ONode (NMap m), S remaining' =>
      JObject <$> traverse (λ kv,
        child ← read_child get kv.2; j ← to_json_capped get child remaining'; Ok (kv.1, j))
        (entries m)
  | ONode (NList items), S remaining' | ONode (NSet items), S remaining' =>
      JArray <$> traverse (λ id, child ← read_child get id; to_json_capped get child remaining') items
  end.

Definition tree_to_json_capped (fuel : nat) (get : Reads) (o : Object) (max_depth : nat) :
    result (stop TreeError) Json :=
  objects ← load fuel get o (N.of_nat max_depth);
  to_json_capped (prefetched_get objects get) o max_depth.

(** ** Building *)

(** The object of a value, and what was pushed for the values below it. *)
Fixpoint json_to_objects `{CH : ContentHash} (j : Json) : Object * list Object :=
  match j with
  | JNull => (mk_null, [])
  | JBool b => (mk_bool b, [])
  | JNumber n => (from_json_number n, [])
  | JString s => (mk_string s, [])
  | JArray l =>
      let cs := (fix go l := match l with [] => [] | j :: l' => json_to_objects j :: go l' end) l in
      (mk_list ((λ c, oid_of c.1) <$> cs), mjoin ((λ c, c.2 ++ [c.1]) <$> cs))
  | JObject m =>
      let cs := (fix go m := match m with
                 | [] => [] | (k, j) :: m' => (k, json_to_objects j) :: go m' end) m in
      (mk_map (foldl (λ m kc, <[kc.1 := oid_of kc.2.1]> m) ∅ cs),
       mjoin ((λ kc, kc.2.2 ++ [kc.2.1]) <$> cs))
  end.

Definition json_to_tree `{CH : ContentHash} {S : Type} `{OS : !ObjectStore S} (j : Json) :
    stateful S TreeError ObjectId :=
  let '(root, out) := json_to_objects j in
  _ ← map_err_st TStorage (batch_put_objects (out ++ [root]));
  mret (oid_of root).

(** ** Many reads at once *)

(** What one path does at a level: it is done, it has lost its way, or it
    wants an object. *)
Inductive Step : Type :=
  | Done
  | Lost
  | Wants (id : ObjectId).

Definition step_at (level : nat) (path : StatePath) (cur : option Object) : Step :=
  match path !! level with
  | None => Done
  | Some c =>
      match cur ≫= λ o, child_id_at o c with
      | Some id => Wants id
      | None => Lost
      end
  end.

Definition wanted (steps : list Step) : list ObjectId :=
  omap (λ st, match st with Wants id => Some id | _ => None end) steps.

(** One chunk; a missing object is an error here. *)
Fixpoint fetch_chunk (chunk : list (ObjectId * option Object)) (fetched : gmap ObjectId Object) :
    result TreeError (gmap ObjectId Object) :=
  match chunk with
  | [] => Ok fetched
  | (id, o) :: chunk' => obj ← ok_or (TObjectNotFound id) o; fetch_chunk chunk' (<[id := obj]> fetched)
  end.

Fixpoint fetch_chunks (get : Reads) (cs : list (list ObjectId)) (fetched : gmap ObjectId Object) :
    result TreeError (gmap ObjectId Object) :=
  match cs with
  | [] => Ok fetched
  | chunk :: cs' =>
      objs ← map_err TStorage (batch_get_objects get chunk);
      fetched' ← fetch_chunk (zip chunk objs) fetched;
      fetch_chunks get cs' fetched'
  end.

Definition take_step (fetched : gmap ObjectId Object) (st : Step) (cur : option Object) :
    option Object :=
  match st with Done => cur | Lost => None | Wants id => fetched !! id end.

Fixpoint get_levels (get : Reads) (paths : list StatePath) (n level : nat)
    (current : list (option Object)) : result TreeError (list (option Object)) :=
  match n with
  | 0 => Ok current
  | S n' =>
      let steps := zip_with (step_at level) paths current in
      fetched ← fetch_chunks get (chunks PREFETCH_BATCH (retain_new ∅ (wanted steps))) ∅;
      get_levels get paths n' (S level) (zip_with (take_step fetched) steps current)
  end.

Definition deepest (paths : list StatePath) : nat := foldr (λ p n, length p `max` n) 0 paths.

Definition tree_get_many (get : Reads) (root : ObjectId) (paths : list StatePath) :
    result TreeError (list (option Object)) :=
  o ← map_err TStorage (get root);
  root_obj ← ok_or (TObjectNotFound root) o;
  get_levels get paths (deepest paths) 0 (replicate (length paths) (Some root_obj)).

(** ** The overlay is the store *)

(** The reads of a store that answers from [m]. *)
Definition reads_of (m : gmap ObjectId Object) : Reads := λ i, Ok (m !! i).

Lemma chunks_go_join {A} fuel n (l : list A) :
  length l ≤ fuel → mjoin (chunks_go fuel (S n) l) = l.
Proof.
  revert l. induction fuel as [|fuel IH]; intros [|x l] Hl; try done; [by inversion Hl|].
  cbn [chunks_go mjoin list_join]. change (take (S n) (x :: l)) with (x :: take n l).
  change (drop (S n) (x :: l)) with (drop n l). rewrite IH.
  - simpl. by rw take_drop.
  - rw length_drop. simpl in Hl. lia.
Qed.

Lemma chunks_join {A} n (l : list A) : mjoin (chunks (S n) l) = l.
Proof. by apply chunks_go_join. Qed.

Lemma elem_of_retain_new seen l i : i ∈ retain_new seen l ↔ i ∈ l ∧ i ∉ seen.
Proof.
  revert seen. induction l as [|x l IH]; intros seen; simpl; [set_solver|].
  case_decide; [rw IH; set_solver|]. rw elem_of_cons IH.
  destruct (decide (i = x)); set_solver.
Qed.

Lemma batch_get_reads m ids : batch_get_objects (reads_of m) ids = Ok ((m !!.) <$> ids).
Proof. induction ids as [|i ids IH]; [done|]. unfold batch_get_objects in *. simpl. by rw IH. Qed.

(** One more object of the store. *)
Definition file_id (m : gmap ObjectId Object) (acc : gmap ObjectId Object * list ObjectId)
    (id : ObjectId) : gmap ObjectId Object * list ObjectId :=
  match m !! id with
  | Some o => (<[id := o]> acc.1, acc.2 ++ child_ids o)
  | None => acc
  end.

Lemma file_chunk_ids m ids acc :
  file_chunk (zip ids ((m !!.) <$> ids)) acc = foldl (file_id m) acc ids.
Proof.
  revert acc. induction ids as [|i ids IH]; intros acc; [done|]; csimpl.
  unfold file_id at 2. by destruct (m !! i); rw IH.
Qed.

Lemma load_chunks_reads m cs acc :
  load_chunks (reads_of m) cs acc = Ok (foldl (file_id m) acc (mjoin cs)).
Proof.
  revert acc. induction cs as [|c cs IH]; intros acc; [done|].
  cbn [load_chunks]. rw batch_get_reads /=. by rw IH file_chunk_ids foldl_app.
Qed.

(** Filing keeps to the store, loses nothing, and adds whatever made it ask
    for more. *)
Lemma file_ids_spec m ids acc acc' :
  acc.1 ⊆ m → foldl (file_id m) acc ids = acc' →
  acc'.1 ⊆ m ∧ acc.1 ⊆ acc'.1 ∧
  (acc'.2 = acc.2 ∨ ∃ i, i ∈ ids ∧ is_Some (acc'.1 !! i)).
Proof.
  revert acc. induction ids as [|i ids IH]; intros acc Hm Hf; simpl in Hf; [by subst; auto|].
  assert ((file_id m acc i).1 ⊆ m ∧ acc.1 ⊆ (file_id m acc i).1 ∧
    (file_id m acc i = acc ∨ is_Some ((file_id m acc i).1 !! i))) as (H1 & H2 & H3).
  { unfold file_id. destruct (m !! i) as [o|] eqn:Ho; [|by auto]. simpl. split_and!.
    - by apply insert_subseteq_l.
    - apply map_subseteq_spec. intros j x Hj. destruct (decide (i = j)) as [<-|]; [|by simpl_map].
      rw lookup_insert_eq. rewrite -Ho. symmetry. by eapply lookup_weaken in Hj.
    - right. rw lookup_insert_eq. by eexists. }
  destruct (IH _ H1 Hf) as (H4 & H5 & H6).
  split_and!; [done|by trans (file_id m acc i).1|].
  destruct H3 as [H3|[o Ho]]; [rewrite H3 in H6|].
  - destruct H6 as [?|(j & ? & ?)]; [by left|right]. exists j. split; [by right|done].
  - right. exists i. split; [by left|]. exists o. by eapply lookup_weaken.
Qed.

(** Loading always ends, inside the store. *)
Lemma load_loop_reads m fuel levels level objects frontier :
  objects ⊆ m → size m < fuel + size objects - 1 →
  ∃ objects', load_loop fuel (reads_of m) levels level objects frontier = Ok objects' ∧
    objects' ⊆ m.
Proof.
  revert level objects frontier. induction fuel as [|fuel IH]; intros level objects frontier Ho Hf.
  { apply map_subseteq_size in Ho. lia. }
  cbn [load_loop]. destruct (bool_decide (frontier = []) || (levels <=? level)%N) eqn:Hc;
    [by exists objects|].
  rw load_chunks_reads chunks_join /=.
  destruct (foldl _ _ _) as [objects' next] eqn:Hfold.
  apply file_ids_spec in Hfold as (H1 & H2 & H3); [|done]; simpl in *.
  destruct H3 as [->|(i & Hi & Hi')].
  - destruct fuel as [|fuel]; [apply map_subseteq_size in Ho; lia|].
    cbn [load_loop]. by exists objects'.
  - apply IH; [done|]. apply elem_of_retain_new in Hi as [_ Hi].
    assert (size objects < size objects'); [|lia].
    apply map_subset_size. apply map_subset_alt. split; [done|].
    exists i. apply not_elem_of_dom in Hi. by rw Hi.
Qed.

Lemma load_reads m roots levels fuel :
  size m + 1 < fuel → ∃ objects, load_many fuel (reads_of m) roots levels = Ok objects ∧ objects ⊆ m.
Proof. intros Hf. apply load_loop_reads; [apply map_empty_subseteq|]. rw map_size_empty. lia. Qed.

Lemma prefetched_reads m objects i :
  objects ⊆ m → prefetched_get objects (reads_of m) i = reads_of m i.
Proof.
  intros Hs. unfold prefetched_get, reads_of. destruct (objects !! i) as [o|] eqn:Ho; [|done].
  by rw (lookup_weaken _ _ _ _ Ho Hs).
Qed.

Lemma traverse_ext {E A B} (f g : A → result E B) l : (∀ x, f x = g x) → traverse f l = traverse g l.
Proof. intros H. induction l as [|x l IH]; simpl; [done|]. by rw H IH. Qed.

Lemma to_json_ext fuel (get1 get2 : Reads) o :
  (∀ i, get1 i = get2 i) → to_json fuel get1 o = to_json fuel get2 o.
Proof.
  intros H. revert o. induction fuel as [|fuel IH]; intros o; [done|].
  destruct o as [a|[m|l|l]]; cbn [to_json]; [done|..]; f_equal; apply traverse_ext; intros x;
    unfold read_child; rw H; destruct (get2 _) as [[]|]; simpl; by rewrite ?IH.
Qed.

Lemma tree_to_json_reads (m : gmap ObjectId Object) fuel o :
  size m + 1 < fuel → tree_to_json fuel (reads_of m) o = to_json fuel (reads_of m) o.
Proof.
  intros Hf. unfold tree_to_json, load. destruct (load_reads m [o] ALL_LEVELS fuel Hf) as (objects & -> & Ho). simpl.
  apply to_json_ext. intros i. by apply prefetched_reads.
Qed.

(** A tree renders the same in a larger store, with more fuel. *)
Lemma to_json_mono (m m' : gmap ObjectId Object) fuel fuel' o j :
  m ⊆ m' → fuel ≤ fuel' → to_json fuel (reads_of m) o = Ok j → to_json fuel' (reads_of m') o = Ok j.
Proof.
  intros Hm. revert fuel' o j. induction fuel as [|fuel IH]; intros [|fuel'] o j Hf; [done|done|lia|].
  assert (∀ i child, read_child (reads_of m) i = Ok child → read_child (reads_of m') i = Ok child) as Hc.
  { intros i child. unfold read_child, reads_of. simpl. rewrite !ok_or_ok. intros. by eapply lookup_weaken. }
  destruct o as [a|[l|l|l]]; cbn [to_json]; [done|..]; rewrite !result_fmap_ok.
  all: intros (js & Hjs%traverse_ok & ->); eexists; split; [apply traverse_ok|done].
  all: eapply Forall2_impl; [done|]; intros x y Hxy; simpl in *; inv_ok.
  - rewrite (Hc _ _ H) /=. by rewrite (IH fuel' _ _ _ H0); [subst|lia].
  - rewrite (Hc _ _ H) /=. apply IH; [lia|done].
  - rewrite (Hc _ _ H) /=. apply IH; [lia|done].
Qed.

Lemma load_chunks_ext (get1 get2 : Reads) cs acc :
  (∀ i, get1 i = get2 i) → load_chunks get1 cs acc = load_chunks get2 cs acc.
Proof.
  intros H. revert acc. induction cs as [|c cs IH]; intros acc; [done|]. simpl.
  unfold batch_get_objects. rw (traverse_ext get1 get2) //. destruct (traverse _ _); simpl; [apply IH|done].
Qed.

Lemma load_many_ext fuel (get1 get2 : Reads) roots levels :
  (∀ i, get1 i = get2 i) → load_many fuel get1 roots levels = load_many fuel get2 roots levels.
Proof.
  intros H. unfold load_many. generalize 0%N (∅ : gmap ObjectId Object) (mjoin (child_ids <$> roots)).
  induction fuel as [|fuel IH]; intros level objects frontier; [done|]. cbn [load_loop].
  case_match; [done|]. rw (load_chunks_ext _ _ _ _ H).
  destruct (load_chunks _ _ _) as [[objects' next]|]; simpl; [apply IH|done].
Qed.

Lemma to_json_capped_ext (get1 get2 : Reads) o n :
  (∀ i, get1 i = get2 i) → to_json_capped get1 o n = to_json_capped get2 o n.
Proof.
  intros H. revert o. induction n as [|n IH]; intros o; [by destruct o as [a|[m|l|l]]|].
  destruct o as [a|[m|l|l]]; cbn [to_json_capped]; [done|..]; f_equal; apply traverse_ext; intros x;
    unfold read_child; rw H; destruct (get2 _) as [[]|]; simpl; by rewrite ?IH.
Qed.

(** ** What building stores *)

Fixpoint json_height (j : Json) : nat :=
  match j with
  | JArray l => S (foldr (λ j n, json_height j `max` n) 0 l)
  | JObject m => S (foldr (λ kv n, json_height kv.2 `max` n) 0 m)
  | _ => 1
  end.

(** A value as it comes back when rendering stops [n] levels down. *)
Fixpoint cap_json (n : nat) (j : Json) : Json :=
  match n, j with
  | 0, JObject m => JObject [("_keys", JArray (JString <$> m.*1)); ("_truncated", JBool true)]
  | 0, JArray l => JObject [("_len", JNumber (PosInt (N.of_nat (length l)))); ("_truncated", JBool true)]
  | S n', JObject m => JObject (prod_map id (cap_json n') <$> m)
  | S n', JArray l => JArray (cap_json n' <$> l)
  | _, _ => j
  end.

Lemma to_json_cap fuel (get : Reads) o j n :
  to_json fuel get o = Ok j → to_json_capped get o n = Ok (cap_json n j).
Proof.
  revert o j n. induction fuel as [|fuel IH]; intros o j n Hj; [done|].
  destruct o as [a|[m|l|l]]; cbn [to_json] in Hj.
  { injection Hj as <-. destruct n, a; simpl; unfold json_i64, json_f64; by repeat case_match. }
  all: apply result_fmap_ok in Hj as (js & Hjs%traverse_ok & ->).
  - assert (js.*1 = sorted_keys m) as Hk.
    { rw -(entries_keys m). clear IH. induction Hjs as [|kv j l js Hx _ IHl]; [done|]. csimpl.
      inv_ok. subst. by f_equal. }
    destruct n as [|n]; cbn [to_json_capped cap_json]; [by rw Hk|].
    apply result_fmap_ok. eexists. split; [apply traverse_ok|done].
    clear Hk. induction Hjs as [|kv j l js Hx _ IHl]; csimpl; constructor; [|done].
    apply result_bind_ok in Hx as (child & -> & Hx). inv_ok. subst. simpl.
    by rw (IH _ _ n H) /=.
  - destruct n as [|n]; cbn [to_json_capped cap_json].
    { unfold len. by rw (Forall2_length _ _ _ Hjs). }
    apply result_fmap_ok. eexists. split; [apply traverse_ok|done].
    induction Hjs as [|i j l js Hx _ IHl]; csimpl; constructor; [|done].
    apply result_bind_ok in Hx as (child & -> & Hx). simpl. by apply IH.
  - destruct n as [|n]; cbn [to_json_capped cap_json].
    { unfold len. by rw (Forall2_length _ _ _ Hjs). }
    apply result_fmap_ok. eexists. split; [apply traverse_ok|done].
    induction Hjs as [|i j l js Hx _ IHl]; csimpl; constructor; [|done].
    apply result_bind_ok in Hx as (child & -> & Hx). simpl. by apply IH.
Qed.

Section building.
Context `{CH : ContentHash}.

Lemma json_to_objects_array l :
  json_to_objects (JArray l) =
  (mk_list ((λ j, oid_of (json_to_objects j).1) <$> l),
   mjoin ((λ j, (json_to_objects j).2 ++ [(json_to_objects j).1]) <$> l)).
Proof.
  cbn [json_to_objects]. set (go := fix go l := match l with [] => [] | _ => _ end).
  assert (go l = json_to_objects <$> l) as ->.
  { induction l as [|j l IH]; [done|]. csimpl. by f_equal. }
  by rw -!list_fmap_compose.
Qed.

Lemma json_to_objects_object m :
  json_to_objects (JObject m) =
  (mk_map (foldl (λ m kc, <[kc.1 := oid_of kc.2.1]> m) ∅ (prod_map id json_to_objects <$> m)),
   mjoin ((λ kv, (json_to_objects kv.2).2 ++ [(json_to_objects kv.2).1]) <$> m)).
Proof.
  cbn [json_to_objects]. set (go := fix go m := match m with [] => [] | _ => _ end).
  assert (go m = prod_map id json_to_objects <$> m) as ->.
  { induction m as [|[k j] m IH]; [done|]. csimpl. by f_equal. }
  by rw -!list_fmap_compose.
Qed.

(** Inserting distinct keys one by one. *)
Lemma foldl_insert_list_to_map {A} (l : list (string * A)) (m : gmap string A) :
  NoDup l.*1 → foldl (λ m kv, <[kv.1 := kv.2]> m) m l = list_to_map l ∪ m.
Proof.
  revert m. induction l as [|[k x] l IH]; intros m; csimpl; [by rw left_id_L|].
  intros [Hk Hl]%NoDup_cons. rw IH //. rw -insert_union_l insert_union_r //.
  by apply not_elem_of_list_to_map.
Qed.

(** The entries of the map built for an object, in its order. *)
Lemma built_entries m :
  NoDup m.*1 → StronglySorted String.le m.*1 →
  entries (foldl (λ m kc, <[kc.1 := oid_of kc.2.1]> m) ∅ (prod_map id json_to_objects <$> m)) =
  prod_map id (λ j, oid_of (json_to_objects j).1) <$> m.
Proof.
  intros Hn Hs. set (l := prod_map id (λ j, oid_of (json_to_objects j).1) <$> m).
  assert (l.*1 = m.*1) as Hl by (unfold l; by rw -list_fmap_compose).
  assert (∀ acc, foldl (λ m kc, <[kc.1 := oid_of kc.2.1]> m) acc (prod_map id json_to_objects <$> m)
    = foldl (λ m kv, <[kv.1 := kv.2]> m) acc l) as ->.
  { unfold l. clear. induction m as [|[k j] m IH]; intros acc; [done|]. csimpl. apply IH. }
  rw foldl_insert_list_to_map ?Hl // right_id_L. by rw entries_list_to_map ?Hl.
Qed.

(** The store has every object of a list. *)
Definition held (m : gmap ObjectId Object) (l : list Object) : Prop :=
  ∀ x, x ∈ l → m !! oid_of x = Some x.

Lemma from_json_number_back n :
  json_number_wf n → ∃ a, from_json_number n = OAtom a ∧ atom_to_json a = JNumber n ∧ finite (OAtom a).
Proof.
  unfold from_json_number, mk_uint. destruct n as [n|i|f]; simpl; intros Hw.
  - destruct (Z.of_N n <=? i64_max)%Z eqn:Hn; [|by eexists]. eexists. split_and!; [done| |done].
    simpl. unfold json_i64. assert ((0 <=? Z.of_N n)%Z = true) as -> by (apply Z.leb_le; lia).
    by rw N2Z.id.
  - eexists. split_and!; [done| |done]. simpl. unfold json_i64. apply andb_True in Hw as [_ Hi].
    apply Is_true_true, Z.ltb_lt in Hi. assert ((0 <=? i)%Z = false) as ->; [|done].
    by apply Z.leb_gt.
  - apply andb_True in Hw as [[Hf _]%andb_True _]. eexists. split_and!; [done| |done].
    simpl. unfold json_f64. by rw (Is_true_true_1 _ Hf).
Qed.

Lemma json_to_objects_finite j :
  json_wf j → Forall finite ((json_to_objects j).2 ++ [(json_to_objects j).1]).
Proof.
  induction j as [|b|n|s|l IH|m IH] using Json_nested_ind; intros Hj; try by repeat constructor.
  - destruct (from_json_number_back n Hj) as (a & Ha & _ & Hf). simpl. rw Ha. by repeat constructor.
  - rw json_to_objects_array. apply Forall_app. split; [|by repeat constructor].
    apply foldr_and_Forall in Hj. apply Forall_join, Forall_fmap.
    rewrite Forall_forall in Hj. rewrite Forall_forall in IH.
    apply Forall_forall. intros j Hin. by apply IH, Hj.
  - rw json_to_objects_object. apply Forall_app. split; [|by repeat constructor].
    destruct Hj as (_ & _ & Hj%foldr_and_Forall). apply Forall_join, Forall_fmap.
    rewrite Forall_forall in Hj. rewrite Forall_forall in IH.
    apply Forall_forall. intros kv Hin. by apply IH, Hj.
Qed.

Lemma foldr_max_le {A} (f : A → nat) l n x : foldr (λ x n, f x `max` n) 0 l ≤ n → x ∈ l → f x ≤ n.
Proof.
  intros Hl. induction 1 as [x l|x y l _ IH]; simpl in Hl; [lia|]. apply IH. lia.
Qed.

Lemma json_to_objects_back m j n :
  json_wf j → held m (json_to_objects j).2 → json_height j ≤ n →
  to_json n (reads_of m) (json_to_objects j).1 = Ok j.
Proof.
  revert n. induction j as [|b|x|s|l IH|l IH] using Json_nested_ind; intros [|n] Hj Hm Hn;
    try (simpl in Hn; lia); try done.
  - simpl. by destruct (from_json_number_back x Hj) as (a & -> & -> & _).
  - rewrite json_to_objects_array in Hm. rw json_to_objects_array. cbn [fst to_json mk_list].
    apply result_fmap_ok. exists l. split; [|done].
    rw -{2}(list_fmap_id l). apply traverse_map_ok. apply Forall_forall. intros j Hin.
    apply foldr_and_Forall in Hj. rewrite Forall_forall in Hj. rewrite Forall_forall in IH.
    assert (∀ x, x ∈ (json_to_objects j).2 ++ [(json_to_objects j).1] → m !! oid_of x = Some x) as Hx.
    { intros x Hx. apply Hm, list_elem_of_join. exists ((json_to_objects j).2 ++ [(json_to_objects j).1]).
      split; [done|]. apply list_elem_of_fmap. by exists j. }
    unfold read_child, reads_of. rw Hx; [|set_solver]. simpl. apply IH; [done|by apply Hj| |].
    + intros x Hin'. apply Hx. set_solver.
    + apply (foldr_max_le json_height l); [simpl in Hn; lia|done].
  - rewrite json_to_objects_object in Hm. rw json_to_objects_object. cbn [fst to_json mk_map].
    destruct Hj as (Hnd & Hs & Hj%foldr_and_Forall). rw built_entries //.
    apply result_fmap_ok. exists l. split; [|done].
    rw -{2}(list_fmap_id l). apply traverse_map_ok. apply Forall_forall. intros [k j] Hin. simpl.
    rewrite Forall_forall in Hj. rewrite Forall_forall in IH.
    assert (∀ x, x ∈ (json_to_objects j).2 ++ [(json_to_objects j).1] → m !! oid_of x = Some x) as Hx.
    { intros x Hx. apply Hm, list_elem_of_join. exists ((json_to_objects j).2 ++ [(json_to_objects j).1]).
      split; [done|]. apply list_elem_of_fmap. by exists (k, j). }
    unfold read_child, reads_of. rw Hx; [|set_solver]. simpl.
    rw (IH (k, j) Hin) /=; [done|by apply (Hj (k, j))| |].
    + intros x Hin'. apply Hx. set_solver.
    + apply (foldr_max_le (λ kv, json_height kv.2) l n (k, j)); [simpl in Hn; lia|done].
Qed.

Context {S : Type} `{OS : !ObjectStore S, !ObjectStoreLaws S} `{CF : !CollisionFree}.

Lemma batch_put_ok objs (s s' : S) ids :
  addressed (contents s) → Forall finite objs → batch_put_objects objs s = (Ok ids, s') →
  extends s s' ∧ held (contents s') objs ∧ ids = oid_of <$> objs.
Proof.
  revert s ids. induction objs as [|o objs IH]; intros s ids Hs Hf Hrun.
  { injection Hrun as <- <-. split_and!; [done|by intros x ?%elem_of_nil|done]. }
  apply Forall_cons in Hf as [Ho Hf].
  apply stateful_bind_ok in Hrun as (i & s1 & Hput & Hrun).
  apply stateful_bind_ok in Hrun as (is' & s2 & Hrun & [= <- <-]).
  assert (store_object o s = (Ok i, s1)) as Hst by (unfold store_object, map_err_st; by rw Hput).
  apply store_object_ok in Hst as (He1 & -> & _ & Ho1); [|done..].
  destruct (IH s1 is') as (He2 & Hh & ->); [apply He1|done..|].
  split_and!; [by eapply extends_trans| |done].
  intros x [->|Hx]%elem_of_cons; [|by apply Hh]. eapply lookup_weaken; [done|apply He2].
Qed.

Lemma batch_put_total `{RS : !Reliable S} objs (s : S) :
  ∃ ids s', batch_put_objects objs s = (Ok ids, s').
Proof.
  revert s. induction objs as [|o objs IH]; intros s; [by eexists _, _|].
  destruct (put_total o s) as [s1 Hput], (IH s1) as (ids & s2 & Hrun).
  exists (oid_of o :: ids), s2. apply stateful_bind_ok. exists (oid_of o), s1. split; [done|].
  apply stateful_bind_ok. by exists ids, s2.
Qed.
End building.

(** ** Reading level by level is reading path by path *)

(** A fetch brings every id it was asked for, or names a missing one. *)
Definition fetches (m : gmap ObjectId Object) (ids : list ObjectId)
    (fetched : gmap ObjectId Object) (r : result TreeError (gmap ObjectId Object)) : Prop :=
  match r with
  | Ok f' => (∀ i, i ∈ ids → f' !! i = m !! i ∧ is_Some (m !! i)) ∧
             (∀ i, i ∉ ids → f' !! i = fetched !! i)
  | Err e => ∃ i, i ∈ ids ∧ e = TObjectNotFound i ∧ m !! i = None
  end.

Lemma fetch_chunk_reads m ids fetched :
  fetches m ids fetched (fetch_chunk (zip ids ((m !!.) <$> ids)) fetched).
Proof.
  revert fetched. induction ids as [|i ids IH]; intros fetched; csimpl.
  { by split; [intros i ?%elem_of_nil|]. }
  destruct (m !! i) as [o|] eqn:Ho; simpl; [|exists i; by repeat constructor].
  specialize (IH (<[i := o]> fetched)). destruct (fetch_chunk _ _) as [f'|e]; simpl in *.
  - destruct IH as [H1 H2]. split.
    + intros j [->|Hj]%elem_of_cons; [|by apply H1].
      destruct (decide (i ∈ ids)) as [Hi|Hi]; [by apply H1|]. rw H2 // lookup_insert_eq Ho. eauto.
    + intros j [Hj Hj']%not_elem_of_cons. by rw H2 // lookup_insert_ne.
  - destruct IH as (j & Hj & He). exists j. split; [by right|done].
Qed.

Lemma fetch_chunks_reads m cs fetched :
  fetches m (mjoin cs) fetched (fetch_chunks (reads_of m) cs fetched).
Proof.
  revert fetched. induction cs as [|ids cs IH]; intros fetched.
  { by split; [intros i ?%elem_of_nil|]. }
  cbn [fetch_chunks]. rw batch_get_reads /=. pose proof (fetch_chunk_reads m ids fetched) as Hc.
  destruct (fetch_chunk _ _) as [f1|e]; simpl in *.
  - destruct Hc as [H1 H2]. specialize (IH f1).
    destruct (fetch_chunks _ _ _) as [f2|e]; simpl in *.
    + destruct IH as [H3 H4]. split.
      * intros i [Hi|Hi]%elem_of_app; [|by apply H3].
        destruct (decide (i ∈ mjoin cs)); [by apply H3|]. rw H4 //. by apply H1.
      * intros i [Hi Hi']%not_elem_of_app. by rw H4 // H2.
    + destruct IH as (i & Hi & He). exists i. split; [apply elem_of_app; by right|done].
  - destruct Hc as (i & Hi & He). exists i. split; [apply elem_of_app; by left|done].
Qed.

(** A position one step further. *)
Lemma locate_take_S m root p k c :
  p !! k = Some c →
  locate m root (take (S k) p) = value_at m root (take k p) ≫= λ o, child_id_at o c.
Proof.
  intros Hc. rw (take_S_r _ _ _ Hc) locate_app. unfold value_at.
  destruct (locate m root (take k p)) as [i|]; simpl; [|done].
  destruct (m !! i) as [o|]; simpl; [|done]. by destruct (child_id_at o c).
Qed.

Lemma step_at_spec m root p k :
  match step_at k p (value_at m root (take k p)) with
  | Done => take (S k) p = take k p
  | Lost => locate m root (take (S k) p) = None
  | Wants i => locate m root (take (S k) p) = Some i
  end.
Proof.
  unfold step_at. destruct (p !! k) as [c|] eqn:Hc.
  - pose proof (locate_take_S m root p k c Hc) as Hl.
    destruct (value_at m root (take k p) ≫= _) as [i|]; done.
  - apply lookup_ge_None in Hc. rw !take_ge; [done|lia|lia].
Qed.

(** The objects along the paths, down to a level, are all stored. *)
Definition stored_to (m : gmap ObjectId Object) (root : ObjectId) (paths : list StatePath) (k : nat) : Prop :=
  ∀ p j i, p ∈ paths → j ≤ k → locate m root (take j p) = Some i → is_Some (m !! i).

Definition missing_on (m : gmap ObjectId Object) (root : ObjectId) (paths : list StatePath) (e : TreeError) : Prop :=
  ∃ p j i, p ∈ paths ∧ locate m root (take j p) = Some i ∧ e = TObjectNotFound i ∧ m !! i = None.

Lemma get_levels_reads m root paths n k :
  stored_to m root paths k →
  match get_levels (reads_of m) paths n k ((λ p, value_at m root (take k p)) <$> paths) with
  | Ok rs => rs = (λ p, value_at m root (take (k + n) p)) <$> paths ∧ stored_to m root paths (k + n)
  | Err e => missing_on m root paths e
  end.
Proof.
  revert k. induction n as [|n IH]; intros k Hk; [by rw Nat.add_0_r|].
  cbn [get_levels].
  set (steps := zip_with (step_at k) paths ((λ p, value_at m root (take k p)) <$> paths)).
  assert (steps = (λ p, step_at k p (value_at m root (take k p))) <$> paths) as Hsteps.
  { unfold steps. clear. induction paths as [|p paths IH]; [done|]. csimpl. by rw IH. }
  pose proof (fetch_chunks_reads m (chunks PREFETCH_BATCH (retain_new ∅ (wanted steps))) ∅) as Hf.
  rewrite chunks_join in Hf.
  assert (∀ i, i ∈ retain_new ∅ (wanted steps) ↔
    ∃ p, p ∈ paths ∧ step_at k p (value_at m root (take k p)) = Wants i) as Hw.
  { intros i. rw elem_of_retain_new list_elem_of_omap Hsteps. setoid_rewrite list_elem_of_fmap. split.
    - intros [(st & (p & -> & Hp) & Hst) _]. exists p. split; [done|]. by case_match; simplify_eq.
    - intros (p & Hp & Hst). split; [|set_solver]. exists (Wants i). split; [|done]. by exists p. }
  destruct (fetch_chunks _ _ _) as [f|e]; simpl in *.
  - destruct Hf as [Hf _].
    assert (stored_to m root paths (S k)) as HSk.
    { intros p j i Hp Hj Hi. destruct (decide (j = S k)) as [->|]; [|eapply (Hk p j); [done|lia|done]].
      pose proof (step_at_spec m root p k) as Hs.
      destruct (step_at k p _) as [| |i'] eqn:Hst; rewrite ?Hs in Hi; [|done|].
      - eapply (Hk p k); [done|lia|done].
      - injection Hi as ->. apply Hf, Hw. eauto. }
    replace (k + S n) with (S k + n) by lia.
    replace (zip_with (take_step f) steps _) with ((λ p, value_at m root (take (S k) p)) <$> paths);
      [by apply IH|].
    assert (∀ p, p ∈ paths → value_at m root (take (S k) p) =
      take_step f (step_at k p (value_at m root (take k p))) (value_at m root (take k p))) as Hstep.
    { intros p Hp. pose proof (step_at_spec m root p k) as Hs.
      destruct (step_at k p _) as [| |i'] eqn:Hst; simpl.
      - by rw Hs.
      - unfold value_at. by rw Hs.
      - unfold value_at at 1. rw Hs /=. symmetry. apply Hf, Hw. eauto. }
    rw Hsteps. clear -Hstep. induction paths as [|p paths IH]; [done|]. csimpl.
    rw Hstep; [|by left]. f_equal. apply IH. intros q Hq. apply Hstep. by right.
  - destruct Hf as (i & (p & Hp & Hst)%Hw & He & Hi). exists p, (S k), i.
    pose proof (step_at_spec m root p k) as Hs. by rewrite Hst in Hs.
Qed.

Lemma deepest_le paths p : p ∈ paths → length p ≤ deepest paths.
Proof. intros Hp. by apply (foldr_max_le length paths). Qed.

(** ** Properties *)

(** C36: importing a JSON value and rendering the tree it made, through the
    overlay, gives back the same value, for every value [serde_json] can hold;
    the import is total on a store that does not fail and loses nothing. *)
Theorem json_roundtrip `{CH : ContentHash} {S : Type} `{OS : !ObjectStore S, !ObjectStoreLaws S}
    `{CF : !CollisionFree, RS : !Reliable S} (s : S) j :
  addressed (contents s) → json_wf j →
  ∃ r s' o, json_to_tree j s = (Ok r, s') ∧ extends s s' ∧ contents s' !! r = Some o ∧
    ∀ n, json_height j ≤ n → size (contents s') + 1 < n → tree_to_json n (get_object s') o = Ok j.
Proof.
  intros Hs Hj. unfold json_to_tree. pose proof (json_to_objects_finite j Hj) as Hf.
  destruct (json_to_objects j) as [o out] eqn:Hjo; simpl in Hf.
  destruct (batch_put_total (out ++ [o]) s) as (ids & s' & Hput).
  destruct (batch_put_ok (out ++ [o]) s s' ids) as (He & Hh & _); [done..|].
  exists (oid_of o), s', o. split_and!; [|done|apply Hh; set_solver|].
  - apply stateful_bind_ok. exists ids, s'. split; [|done]. by apply map_err_st_ok.
  - intros n Hn Hsize. unfold tree_to_json, load.
    assert (∀ i, get_object s' i = reads_of (contents s') i) as Hg by (intros; apply get_total).
    rewrite (load_many_ext n (get_object s') (reads_of (contents s'))) //.
    destruct (load_reads (contents s') [o] ALL_LEVELS n Hsize) as (objects & -> & Ho). simpl.
    rw (to_json_ext n _ (reads_of (contents s'))).
    + replace o with (json_to_objects j).1 by by rw Hjo. apply json_to_objects_back; [done| |done].
      rw Hjo. intros x Hx. apply Hh. set_solver.
    + intros i. rw -(prefetched_reads (contents s') objects i Ho). unfold prefetched_get.
      by case_match; [|apply Hg].
Qed.

(** The level-at-a-time overlay is invisible: with fuel for the objects
    stored, loading terminates and rendering through it, whole or capped, is
    rendering straight from the store, errors for missing objects included. *)
Theorem overlay_equivalence m fuel o depth :
  size m + 1 < fuel →
  tree_to_json fuel (reads_of m) o = to_json fuel (reads_of m) o ∧
  tree_to_json_capped fuel (reads_of m) o depth = to_json_capped (reads_of m) o depth.
Proof.
  intros Hf. unfold tree_to_json, tree_to_json_capped, load.
  split.
  - destruct (load_reads m [o] ALL_LEVELS fuel Hf) as (objects & -> & Ho). simpl.
    apply to_json_ext. intros i. by apply prefetched_reads.
  - destruct (load_reads m [o] (N.of_nat depth) fuel Hf) as (objects & -> & Ho). simpl.
    apply to_json_capped_ext. intros i. by apply prefetched_reads.
Qed.

(** A capped rendering is the full rendering with every container at the
    cap replaced by the summary of its keys or its length. *)
Theorem capped_is_truncated m fuel o j depth :
  size m + 1 < fuel → tree_to_json fuel (reads_of m) o = Ok j →
  tree_to_json_capped fuel (reads_of m) o depth = Ok (cap_json depth j).
Proof.
  intros Hf. destruct (load_reads m [o] ALL_LEVELS fuel Hf) as (objects & Hl & Ho).
  destruct (load_reads m [o] (N.of_nat depth) fuel Hf) as (objects' & Hl' & Ho').
  unfold tree_to_json, tree_to_json_capped, load. rw Hl Hl' /=.
  rw (to_json_ext _ _ (reads_of m)); [|by intros; apply prefetched_reads].
  rw (to_json_capped_ext _ (reads_of m)); [|by intros; apply prefetched_reads].
  apply to_json_cap.
Qed.

(** C37: reading many paths a level at a time is reading each by itself: the
    value of every path that leads somewhere, nothing for the others, and an
    error exactly when an object along one of the paths is missing. *)
Theorem tree_get_many_spec m root root_obj paths :
  m !! root = Some root_obj →
  match tree_get_many (reads_of m) root paths with
  | Ok rs => rs = value_at m root <$> paths ∧ stored_to m root paths (deepest paths)
  | Err e => missing_on m root paths e
  end.
Proof.
  intros Hr. unfold tree_get_many.
  change (map_err TStorage (reads_of m root)) with (Ok (m !! root) : result TreeError (option Object)).
  rw Hr. cbn [mbind result_bind ok_or].
  assert (stored_to m root paths 0) as H0.
  { intros p j i _ Hj. assert (j = 0) as -> by lia. rw take_0. intros [= <-]. eauto. }
  pose proof (get_levels_reads m root paths (deepest paths) 0 H0) as Hl.
  assert ((λ p, value_at m root (take 0 p)) <$> paths = replicate (length paths) (Some root_obj)) as <-.
  { clear -Hr. induction paths as [|p paths IH]; [done|]. csimpl. unfold value_at at 1.
    by rw take_0 /= Hr IH. }
  destruct (get_levels _ _ _ _ _) as [rs|e]; [|done]. destruct Hl as [-> Hs]. split; [|done].
  simpl. clear -paths. assert (∀ p, p ∈ paths → length p ≤ deepest paths) as Hd by apply deepest_le.
  revert Hd. generalize (deepest paths). intros n Hd.
  induction paths as [|p paths IH]; [done|]. csimpl.
  rw take_ge; [|apply Hd; by left]. f_equal. apply IH. intros q Hq. apply Hd. by right.
Qed.

Section witnesses.
Import Plain.

Definition sample_json : Json :=
  JObject [("a", JArray [JNumber (PosInt 7); JNull]); ("b", JObject [("c", JString "x")])].

Lemma json_roundtrip_witness :
  ∃ r s' o, json_to_tree sample_json mem_new = (Ok r, s') ∧ contents s' !! r = Some o ∧
    tree_to_json 20 (get_object s') o = Ok sample_json.
Proof.
  destruct (json_roundtrip mem_new sample_json) as (r & s' & o & Hrun & _ & Ho & Hback).
  - intros i x Hx. simpl in Hx. by rewrite lookup_empty in Hx.
  - simpl. split_and!; try done; repeat (constructor || set_solver).
  - exists r, s', o. split_and!; [done..|]. apply Hback; [simpl; lia|].
    assert (s' = (json_to_tree sample_json mem_new).2) as -> by by rw Hrun.
    apply Nat.ltb_lt. by vm_compute.
Defined.

Definition deep_store : gmap ObjectId Object := sample [leaf; inner; tree_root].

Lemma overlay_equivalence_witness :
  tree_to_json 6 (reads_of deep_store) tree_root = to_json 6 (reads_of deep_store) tree_root ∧
  to_json 6 (reads_of deep_store) tree_root =
    Ok (JObject [("a", JObject [("x", JString "v")]); ("n", JString "v")]).
Proof.
  split; [|by vm_compute].
  apply (overlay_equivalence deep_store 6 tree_root 0). apply Nat.ltb_lt. by vm_compute.
Defined.

Lemma capped_is_truncated_witness :
  tree_to_json_capped 6 (reads_of deep_store) tree_root 1 =
  Ok (JObject [("a", JObject [("_keys", JArray [JString "x"]); ("_truncated", JBool true)]);
               ("n", JString "v")]).
Proof.
  rw (capped_is_truncated deep_store 6 tree_root
    (JObject [("a", JObject [("x", JString "v")]); ("n", JString "v")]) 1); [done| |by vm_compute].
  apply Nat.ltb_lt. by vm_compute.
Defined.

Lemma tree_get_many_spec_witness :
  tree_get_many (reads_of deep_store) (oid_of tree_root)
    [[Key "a"; Key "x"]; [Key "z"]; []] = Ok [Some leaf; None; Some tree_root].
Proof.
  pose proof (tree_get_many_spec deep_store (oid_of tree_root) tree_root
    [[Key "a"; Key "x"]; [Key "z"]; []]) as H.
  destruct (tree_get_many _ _ _) as [rs|e] eqn:Hrun; [|exfalso; revert Hrun; by vm_compute].
  destruct H as [-> _]; [by vm_compute|]. by vm_compute.
Defined.
End witnesses.
