(* ===== verification/Walks.v ===== *)
(** * Walks: listing, searching and indexing the leaves of a tree

    Models the whole-tree walks of [agentstategraph/src/tree.rs]: the path
    listing and the value search with their depth and result limits, and the
    two walks that seed and maintain a leaf-value index. Each is structural in
    the depth it may still descend, which the code bounds by
    [LIST_PATHS_HARD_CEILING]; a [&mut Vec] is the list so far. *)
From S2P Require Import Prelude Objects Paths Json Intents Commits Stores Diffs Memory Trees TreeJson.

Definition LIST_PATHS_HARD_CEILING : N := 128.
Definition LIST_PATHS_MAX_RESULTS : N := 10000.

(** [Display] of an [f64], by its bits. *)
Class FloatText := { f64_to_string : Z → string }.

(** A [for] loop that threads what it collects, and may break. *)
Fixpoint fold_until {A B E} (stop_at : B → bool) (f : B → A → result E B) (acc : B) (l : list A) :
    result E B :=
  match l with
  | [] => Ok acc
  | x :: l' => if stop_at acc then Ok acc else acc' ← f acc x; fold_until stop_at f acc' l'
  end.

Definition fold_all {A B E} : (B → A → result E B) → B → list A → result E B :=
  fold_until (λ _, false).

(** The children of a node with their paths, in the order of the loops. *)
Definition child_path (cur segment : string) : string := cur +:+ "/" +:+ segment.
Definition rows_map (cur : string) (m : gmap string ObjectId) : list (string * ObjectId) :=
  prod_map (child_path cur) id <$> entries m.
Definition rows_list (cur : string) (items : list ObjectId) : list (string * ObjectId) :=
  imap (λ i id, (child_path cur (pretty (N.of_nat i)), id)) items.
Definition rows (cur : string) (o : Object) : list (string * ObjectId) :=
  match o with
  | OAtom _ => []
  | ONode (NMap m) => rows_map cur m
  | ONode (NList items) | ONode (NSet items) => rows_list cur items
  end.

(** The path of the root is [/], of any other node the path so far. *)
Definition leaf_path (cur : string) : string := if bool_decide (cur = EmptyString) then "/" else cur.

(** ** Listing *)

(** [n] levels may still be visited: [max_depth + 1 - depth]. *)
Fixpoint collect_paths (n : nat) (get : Reads) (o : Object) (cur : string) (paths : list string) :
    result (stop TreeError) (list string) :=
  match n with
  | 0 => Ok paths
  | S n' =>
      if (LIST_PATHS_MAX_RESULTS <=? N.of_nat (length paths))%N then Ok paths else
      let visit paths row :=
        child ← read_child get row.2; collect_paths n' get child row.1 paths in
      match o with
      | OAtom _ => Ok (paths ++ [leaf_path cur])
      | ONode (NMap m) =>
          if bool_decide (m = ∅) then Ok (paths ++ [leaf_path cur])
          else fold_all visit paths (rows_map cur m)
      | ONode (NList items) | ONode (NSet items) => fold_all visit paths (rows_list cur items)
      end
  end.

(** Loading [levels] levels takes one turn per level and one to stop. *)
Definition load_depth (get : Reads) (o : Object) (levels : N) :
    result (stop TreeError) (gmap ObjectId Object) := load (S (N.to_nat levels)) get o levels.

Definition load_root (get : Reads) (root : ObjectId) : result (stop TreeError) Object :=
  read_child get root.

Definition tree_list_paths `{CH : ContentHash} {S : Type} `{OS : !ObjectStore S} (s : S)
    (root : ObjectId) (prefix : string) (max_depth : N) : result (stop TreeError) (list string) :=
  root_obj ← load_root (get_object s) root;
  '(start_obj, base_path) ←
    (if bool_decide (prefix = EmptyString) || bool_decide (prefix = "/")
     then Ok (root_obj, EmptyString)
     else map_err Fail (
       path ← map_err (PathNotFound ∘ path_error_to_string) (parse prefix);
       obj ← tree_get s root path;
       Ok (obj, prefix)));
  let depth := N.min max_depth LIST_PATHS_HARD_CEILING in
  objects ← load_depth (get_object s) start_obj (depth + 1);
  paths ← collect_paths (N.to_nat (depth + 1)) (prefetched_get objects (get_object s))
            start_obj base_path [];
  Ok (if (LIST_PATHS_MAX_RESULTS <? N.of_nat (length paths))%N
      then take (N.to_nat LIST_PATHS_MAX_RESULTS) paths else paths).

(** ** Searching *)

Section text.
Context `{FT : FloatText}.

(** Null and bytes are not searched or indexed. *)
Definition atom_value_string (a : Atom) : option string :=
  match a with
  | AString s => Some s
  | AInt i => Some (pretty i)
  | AUInt u => Some (pretty u)
  | AFloat f => Some (f64_to_string f)
  | ABool b => Some (if b then "true" else "false")
  | ANull | ABytes _ => None
  end.

Definition key_match `{Text} (cur query key : string) : list (string * string) :=
  if contains query (to_lowercase key)
  then [(child_path cur key, "[key match: " +:+ key +:+ "]")] else [].

Definition value_match `{Text} (cur query : string) (a : Atom) : list (string * string) :=
  match atom_value_string a with
  | Some v => if contains query (to_lowercase v) then [(leaf_path cur, v)] else []
  | None => []
  end.

Fixpoint search_recursive `{Text} (n : nat) (get : Reads) (o : Object) (cur query : string)
    (max_results : N) (results : list (string * string)) :
    result (stop TreeError) (list (string * string)) :=
  let full (results : list (string * string)) := (max_results <=? N.of_nat (length results))%N in
  if full results then Ok results else
  match n with
  | 0 => Ok results
  | S n' =>
      match o with
      | OAtom a => Ok (results ++ value_match cur query a)
      | ONode (NMap m) =>
          fold_until full (λ results kv,
            let results' := results ++ key_match cur query kv.1 in
            child ← read_child get kv.2;
            search_recursive n' get child (child_path cur kv.1) query max_results results')
            results (entries m)
      | ONode (NList items) | ONode (NSet items) =>
          fold_until full (λ results row,
            child ← read_child get row.2;
            search_recursive n' get child row.1 query max_results results)
            results (rows_list cur items)
      end
  end.

Definition tree_search_values `{Text} (get : Reads) (root : ObjectId) (query : string)
    (max_results : N) : result (stop TreeError) (list (string * string)) :=
  root_obj ← load_root get root;
  let query_lower := to_lowercase query in
  let limit := N.min max_results LIST_PATHS_MAX_RESULTS in
  objects ← load_depth get root_obj (LIST_PATHS_HARD_CEILING + 1);
  search_recursive (N.to_nat (LIST_PATHS_HARD_CEILING + 1)) (prefetched_get objects get)
    root_obj EmptyString query_lower limit [].

(** ** The leaf-value index *)

Fixpoint collect_leaves_recursive (n : nat) (get : Reads) (o : Object) (cur : string)
    (out : list (string * string)) : result (stop TreeError) (list (string * string)) :=
  match n with
  | 0 => Ok out
  | S n' =>
      let visit out row :=
        child ← read_child get row.2; collect_leaves_recursive n' get child row.1 out in
      match o with
      | OAtom a =>
          match atom_value_string a with
          | Some v => Ok (out ++ [(leaf_path cur, v)])
          | None => Ok out
          end
      | ONode (NMap m) => fold_all visit out (rows_map cur m)
      | ONode (NList items) | ONode (NSet items) => fold_all visit out (rows_list cur items)
      end
  end.

Definition collect_leaves (n : nat) (get : Reads) (o : Object) (cur : string)
    (out : list (string * string)) : result (stop TreeError) (list (string * string)) :=
  objects ← load_depth get o (N.of_nat n);
  collect_leaves_recursive n (prefetched_get objects get) o cur out.

Definition tree_collect_leaves (get : Reads) (root : ObjectId) :
    result (stop TreeError) (list (string * string)) :=
  root_obj ← load_root get root;
  collect_leaves (N.to_nat (LIST_PATHS_HARD_CEILING + 1)) get root_obj EmptyString [].

Fixpoint collect_leaf_paths (n : nat) (get : Reads) (o : Object) (cur : string)
    (out : list string) : result (stop TreeError) (list string) :=
  match n with
  | 0 => Ok out
  | S n' =>
      match o with
      | OAtom a =>
          match atom_value_string a with
          | Some _ => Ok (out ++ [leaf_path cur])
          | None => Ok out
          end
      | ONode _ =>
          fold_all (λ out row,
            child ← read_child get row.2; collect_leaf_paths n' get child row.1 out)
            out (rows cur o)
      end
  end.

Definition collect_paths_of (n : nat) (get : Reads) (o : Object) (cur : string)
    (out : list string) : result (stop TreeError) (list string) :=
  objects ← load_depth get o (N.of_nat n);
  collect_leaf_paths n (prefetched_get objects get) o cur out.

(** What a change of tree removes and adds. *)
Abbreviation Changes := (list string * list (string * string))%type.

Definition read_opt (get : Reads) (id : option ObjectId) : result (stop TreeError) (option Object) :=
  match id with
  | Some id => map_err (Fail ∘ TStorage) (get id)
  | None => Ok None
  end.

Definition drop_paths (n : nat) (get : Reads) (o : Object) (path : string) (c : Changes) :
    result (stop TreeError) Changes :=
  removed ← collect_paths_of n get o path c.1; Ok (removed, c.2).

Definition add_leaves (n : nat) (get : Reads) (o : Object) (path : string) (c : Changes) :
    result (stop TreeError) Changes :=
  added ← collect_leaves n get o path c.2; Ok (c.1, added).

Definition add_atom (path : string) (a : Atom) (c : Changes) : Changes :=
  match atom_value_string a with
  | Some v => (c.1, c.2 ++ [(leaf_path path, v)])
  | None => c
  end.

Definition drop_leaf (path : string) (c : Changes) : Changes := (c.1 ++ [leaf_path path], c.2).

(** The elements of a node that is not a map. *)
Definition node_items (n : Node) : list ObjectId :=
  match n with NMap _ => [] | NList items | NSet items => items end.

(** [n] is [LIST_PATHS_HARD_CEILING + 1 - depth]. *)
Fixpoint diff_recursive (n : nat) (get : Reads) (old_id new_id : option ObjectId) (path : string)
    (c : Changes) : result (stop TreeError) Changes :=
  if bool_decide (old_id = new_id) then Ok c else
  match n with
  | 0 => Ok c
  | S n' =>
      old_obj ← read_opt get old_id;
      new_obj ← read_opt get new_id;
      match old_obj, new_obj with
      | None, None => Ok c
      | Some o, None => drop_paths n get o path c
      | None, Some o => add_leaves n get o path c
      | Some (OAtom _), Some (OAtom a) => Ok (add_atom path a (drop_leaf path c))
      | Some (ONode on), Some (OAtom a) =>
          c' ← drop_paths n get (ONode on) path c; Ok (add_atom path a c')
      | Some (OAtom _), Some (ONode nn) => add_leaves n get (ONode nn) path (drop_leaf path c)
      | Some (ONode (NMap oe)), Some (ONode (NMap ne)) =>
          fold_all (λ c k, diff_recursive n' get (oe !! k) (ne !! k) (child_path path k) c)
            c (sorted_keys (oe ∪ ne))
      | Some (ONode (NMap oe)), Some (ONode nn) =>
          c' ← drop_paths n get (ONode (NMap oe)) path c; add_leaves n get (ONode nn) path c'
      | Some (ONode on), Some (ONode (NMap ne)) =>
          c' ← drop_paths n get (ONode on) path c; add_leaves n get (ONode (NMap ne)) path c'
      | Some (ONode on), Some (ONode nn) =>
          fold_all (λ c i, diff_recursive n' get (node_items on !! i) (node_items nn !! i)
            (child_path path (pretty (N.of_nat i))) c)
            c (seq 0 (length (node_items on) `max` length (node_items nn)))
      end
  end.

Definition tree_diff_leaves (get : Reads) (old_root : option ObjectId) (new_root : ObjectId) :
    result (stop TreeError) Changes :=
  diff_recursive (N.to_nat (LIST_PATHS_HARD_CEILING + 1)) get old_root (Some new_root) EmptyString ([], []).
End text.

(** ** One traversal behind the walks

    The nodes a walk visits, in its order, each with its path. *)

Abbreviation Visit := (string * Object)%type.

Fixpoint visits (n : nat) (m : gmap ObjectId Object) (o : Object) (cur : string) : list Visit :=
  match n with
  | 0 => []
  | S n' =>
      (cur, o) ::
      mjoin ((λ row, match m !! row.2 with Some c => visits n' m c row.1 | None => [] end)
             <$> rows cur o)
  end.

(** What the listing and the index report of a visit. *)
Definition listed (v : Visit) : list string :=
  match v.2 with
  | OAtom _ => [leaf_path v.1]
  | ONode (NMap m) => if bool_decide (m = ∅) then [leaf_path v.1] else []
  | ONode _ => []
  end.

Definition indexed `{FloatText} (v : Visit) : list (string * string) :=
  match v.2 with
  | OAtom a => match atom_value_string a with Some s => [(leaf_path v.1, s)] | None => [] end
  | ONode _ => []
  end.

(** Everything a search may report: values, and the keys of maps, each before
    what is below it. *)
Fixpoint matches `{FloatText, Text} (n : nat) (m : gmap ObjectId Object) (query : string)
    (o : Object) (cur : string) : list (string * string) :=
  match n with
  | 0 => []
  | S n' =>
      let below id path := match m !! id with Some c => matches n' m query c path | None => [] end in
      match o with
      | OAtom a => value_match cur query a
      | ONode (NMap mm) =>
          mjoin ((λ kv, key_match cur query kv.1 ++ below kv.2 (child_path cur kv.1)) <$> entries mm)
      | ONode (NList items) | ONode (NSet items) =>
          mjoin ((λ row, below row.2 row.1) <$> rows_list cur items)
      end
  end.

(** Every object within [n] levels is stored. *)
Fixpoint intact (n : nat) (m : gmap ObjectId Object) (o : Object) : Prop :=
  match n with
  | 0 => True
  | S n' => ∀ id, id ∈ child_ids o → ∃ c, m !! id = Some c ∧ intact n' m c
  end.

Lemma rows_list_ids cur l row : row ∈ rows_list cur l → row.2 ∈ l.
Proof.
  intros [i Hi]%list_elem_of_lookup.
  apply list_lookup_imap_Some in Hi as (id & Hid & ->). by apply list_elem_of_lookup_2 in Hid.
Qed.

Lemma rows_ids cur o row : row ∈ rows cur o → row.2 ∈ child_ids o.
Proof.
  destruct o as [a|[m|l|l]]; simpl; [by intros ?%elem_of_nil| |apply rows_list_ids..].
  intros (x & -> & Hx)%list_elem_of_fmap; simpl. by apply list_elem_of_fmap_2.
Qed.

(** Loading to a depth always ends, inside the store. *)
Lemma load_loop_levels (m : gmap ObjectId Object) (get : Reads) fuel levels level objects frontier :
  (∀ i, get i = Ok (m !! i)) → objects ⊆ m → N.to_nat (levels - level) < fuel →
  ∃ objects', load_loop fuel get levels level objects frontier = Ok objects' ∧ objects' ⊆ m.
Proof.
  intros Hg. revert level objects frontier.
  induction fuel as [|fuel IH]; intros level objects frontier Ho Hf; [lia|].
  cbn [load_loop]. destruct (bool_decide (frontier = []) || (levels <=? level)%N) eqn:Hc;
    [by exists objects|].
  rw (load_chunks_ext get (reads_of m)) // load_chunks_reads chunks_join /=.
  destruct (foldl _ _ _) as [objects' next] eqn:Hfold.
  apply file_ids_spec in Hfold as (H1 & H2 & H3); [|done].
  apply IH; [done|]. apply orb_false_iff in Hc as [_ Hc%N.leb_gt]. lia.
Qed.

Lemma load_depth_reads (m : gmap ObjectId Object) (get : Reads) o levels :
  (∀ i, get i = Ok (m !! i)) →
  ∃ objects, load_depth get o levels = Ok objects ∧
    ∀ i, prefetched_get objects get i = Ok (m !! i).
Proof.
  intros Hg. destruct (load_loop_levels m get (S (N.to_nat levels)) levels 0 ∅
    (mjoin (child_ids <$> [o])) Hg) as (objects & Hl & Ho); [apply map_empty_subseteq|lia|].
  exists objects. split; [done|]. intros i. unfold prefetched_get.
  destruct (objects !! i) as [x|] eqn:Hx; [|done]. by rw (lookup_weaken _ _ _ _ Hx Ho).
Qed.

(** A loop that caps what it collects takes a prefix of all there is. *)
Lemma take_app_take {A} n (l k : list A) : take n (take n l ++ k) = take n (l ++ k).
Proof.
  destruct (decide (length l ≤ n)) as [Hl|Hl]; [by rw (take_ge l)|].
  rw (take_app_le l); [|lia]. rw take_app_le; [by rw take_idemp|]. rw length_take. lia.
Qed.

Lemma fold_until_capped {A B E} (L : nat) (stop_at : list B → bool) (f : list B → A → result E (list B))
    (g : A → list B) acc l :
  (∀ acc, stop_at acc → L ≤ length acc) →
  (∀ acc x, x ∈ l → stop_at acc = false → length acc ≤ L → f acc x = Ok (take L (acc ++ g x))) →
  length acc ≤ L →
  fold_until stop_at f acc l = Ok (take L (acc ++ mjoin (g <$> l))).
Proof.
  intros Hstop. revert acc. induction l as [|x l IH]; intros acc Hf Hacc; csimpl.
  { by rw app_nil_r take_ge. }
  destruct (stop_at acc) eqn:Hs.
  - assert (L ≤ length acc) as HL by (apply Hstop; by rw Hs). rw take_app_le // take_ge //.
  - rw Hf //; [|by left]. simpl. rw IH.
    + by rw take_app_take -app_assoc.
    + intros acc' y Hy. apply Hf. by right.
    + rw length_take. lia.
Qed.

(** Everything a report finds in a subtree. *)
Definition gather {B} (h : Visit → list B) (n : nat) (m : gmap ObjectId Object)
    (o : Object) (cur : string) : list B := mjoin (h <$> visits n m o cur).

Definition gather_child {B} (h : Visit → list B) (n : nat) (m : gmap ObjectId Object)
    (row : string * ObjectId) : list B :=
  match m !! row.2 with Some c => gather h n m c row.1 | None => [] end.

Lemma join_fmap_join {A B} (h : A → list B) (ls : list (list A)) :
  mjoin (h <$> mjoin ls) = mjoin ((λ l, mjoin (h <$> l)) <$> ls).
Proof. induction ls as [|l ls IH]; [done|]. csimpl. by rw fmap_app join_app IH. Qed.

Lemma gather_S {B} (h : Visit → list B) n m o cur :
  gather h (S n) m o cur = h (cur, o) ++ mjoin (gather_child h n m <$> rows cur o).
Proof.
  unfold gather at 1. cbn [visits]. csimpl. f_equal.
  rw join_fmap_join -list_fmap_compose. f_equal. apply list_fmap_ext. intros i row _. simpl.
  unfold gather_child. by destruct (m !! row.2).
Qed.

Lemma gather_fmap {B C} (g : B → C) (h : Visit → list B) n m o cur :
  g <$> gather h n m o cur = gather (λ v, g <$> h v) n m o cur.
Proof.
  unfold gather. induction (visits n m o cur) as [|v l IH]; [done|]. csimpl. by rw fmap_app IH.
Qed.

Lemma intact_row n m cur o row :
  intact (S n) m o → row ∈ rows cur o → ∃ c, m !! row.2 = Some c ∧ intact n m c.
Proof. intros Hi Hr. apply Hi. by eapply rows_ids. Qed.

Lemma read_child_ok (get : Reads) (m : gmap ObjectId Object) i c :
  get i = Ok (m !! i) → m !! i = Some c → read_child get i = Ok c.
Proof. unfold read_child. by intros -> ->. Qed.

Definition MAX_RESULTS : nat := N.to_nat LIST_PATHS_MAX_RESULTS.

Section walks.
Context (m : gmap ObjectId Object) (get : Reads) (Hget : ∀ i, get i = Ok (m !! i)).

Lemma collect_paths_gather n o cur acc :
  intact n m o → length acc ≤ MAX_RESULTS →
  collect_paths n get o cur acc = Ok (take MAX_RESULTS (acc ++ gather listed n m o cur)).
Proof.
  revert o cur acc. induction n as [|n IH]; intros o cur acc Hi Hacc.
  { cbn [collect_paths gather visits]. unfold gather. simpl. by rw app_nil_r take_ge. }
  cbn [collect_paths]. rw gather_S. destruct (LIST_PATHS_MAX_RESULTS <=? _)%N eqn:Hfull.
  { apply N.leb_le in Hfull. unfold MAX_RESULTS in *. rw take_app_le; [|lia]. rw take_ge //. }
  apply N.leb_gt in Hfull.
  assert (∀ x, Ok (acc ++ [x]) = Ok (take MAX_RESULTS (acc ++ [x])) :> result (stop TreeError) _) as Hone.
  { intros x. rw take_ge //. rw length_app. unfold MAX_RESULTS. simpl. lia. }
  assert (fold_all (λ paths row, child ← read_child get row.2;
      collect_paths n get child row.1 paths) acc (rows cur o) =
    Ok (take MAX_RESULTS (acc ++ mjoin (gather_child listed n m <$> rows cur o)))) as Hfold.
  { apply fold_until_capped; [done| |done].
    intros acc' row Hrow _ Hacc'. destruct (intact_row _ _ _ _ _ Hi Hrow) as (c & Hc & Hic).
    rw (read_child_ok _ _ _ _ (Hget _) Hc) /= IH //. unfold gather_child. by rw Hc. }
  destruct o as [a|[mm|l|l]]; simpl.
  - apply Hone.
  - unfold listed; simpl. case_bool_decide as Hm; [|apply Hfold]. subst. apply Hone.
  - apply Hfold.
  - apply Hfold.
Qed.

Context `{FT : FloatText}.

Lemma fold_all_gather {B} (h : Visit → list B) n o cur acc
    (f : list B → string * ObjectId → result (stop TreeError) (list B)) :
  intact (S n) m o →
  (∀ acc row c, row ∈ rows cur o → m !! row.2 = Some c → intact n m c →
    f acc row = Ok (acc ++ gather h n m c row.1)) →
  fold_all f acc (rows cur o) = Ok (acc ++ mjoin (gather_child h n m <$> rows cur o)).
Proof.
  intros Hi Hf.
  assert (∀ row, row ∈ rows cur o → ∃ c, m !! row.2 = Some c ∧ intact n m c) as Hrows
    by (intros row; by apply intact_row).
  revert acc. induction (rows cur o) as [|row l IH]; intros acc; csimpl.
  { by rw app_nil_r. }
  destruct (Hrows row) as (c & Hc & Hic); [by left|]. unfold fold_all in *. cbn [fold_until].
  rw (Hf acc row c) //; [|by left]. simpl. rw IH.
  - unfold gather_child at 2. simpl. by rw Hc app_assoc.
  - intros acc' r c' Hr. apply Hf. by right.
  - intros r Hr. apply Hrows. by right.
Qed.

Lemma collect_leaves_gather n o cur acc :
  intact n m o →
  collect_leaves_recursive n get o cur acc = Ok (acc ++ gather indexed n m o cur).
Proof.
  revert o cur acc. induction n as [|n IH]; intros o cur acc Hi.
  { cbn [collect_leaves_recursive]. unfold gather. simpl. by rw app_nil_r. }
  rw gather_S. assert (fold_all (λ out row, child ← read_child get row.2;
      collect_leaves_recursive n get child row.1 out) acc (rows cur o) =
    Ok (acc ++ mjoin (gather_child indexed n m <$> rows cur o))) as Hfold.
  { apply fold_all_gather; [done..|]. intros acc' row c _ Hc Hic.
    rw (read_child_ok _ _ _ _ (Hget _) Hc) /=. by apply IH. }
  destruct o as [a|[mm|l|l]]; cbn [collect_leaves_recursive]; [|apply Hfold..].
  unfold indexed; simpl. destruct (atom_value_string a); simpl; by rw ?app_nil_r.
Qed.

Lemma collect_leaf_paths_gather n o cur acc :
  intact n m o →
  collect_leaf_paths n get o cur acc = Ok (acc ++ (gather indexed n m o cur).*1).
Proof.
  revert o cur acc. induction n as [|n IH]; intros o cur acc Hi.
  { cbn [collect_leaf_paths]. unfold gather. simpl. by rw app_nil_r. }
  rw gather_fmap gather_S.
  assert (fold_all (λ out row, child ← read_child get row.2;
      collect_leaf_paths n get child row.1 out) acc (rows cur o) =
    Ok (acc ++ mjoin (gather_child (λ v, (indexed v).*1) n m <$> rows cur o))) as Hfold.
  { apply fold_all_gather; [done..|]. intros acc' row c _ Hc Hic.
    rw (read_child_ok _ _ _ _ (Hget _) Hc) /= -gather_fmap. by apply IH. }
  destruct o as [a|node]; cbn [collect_leaf_paths]; [|by destruct node].
  unfold indexed; simpl. destruct (atom_value_string a); simpl; by rw ?app_nil_r.
Qed.

Context `{TX : Text}.

Lemma search_matches n o cur query limit acc :
  intact n m o → length acc ≤ N.to_nat limit →
  search_recursive n get o cur query limit acc =
  Ok (take (N.to_nat limit) (acc ++ matches n m query o cur)).
Proof.
  revert o cur acc. induction n as [|n IH]; intros o cur acc Hi Hacc; cbn [search_recursive matches];
    (destruct (limit <=? _)%N eqn:Hfull;
      [apply N.leb_le in Hfull; rw take_app_le; [by rw take_ge|lia]|apply N.leb_gt in Hfull]).
  { by rw app_nil_r take_ge. }
  assert (∀ acc (x : list (string * string)), length x ≤ 1 → (N.of_nat (length acc) < limit)%N →
    take (N.to_nat limit) (acc ++ x) = acc ++ x) as Hone.
  { intros acc' x Hx Hl. rw take_ge //. rw length_app. lia. }
  assert (∀ acc : list (string * string), (limit <=? N.of_nat (length acc))%N → N.to_nat limit ≤ length acc) as Hstop.
  { intros acc' Hl%Is_true_true%N.leb_le. lia. }
  destruct o as [a|[mm|l|l]].
  - rw Hone //. unfold value_match. by repeat case_match; simpl; lia.
  - apply fold_until_capped; [done| |done]. intros acc' [k id] Hin Hf Hacc'.
    apply N.leb_gt in Hf. simpl.
    destruct (Hi id) as (c & Hc & Hic); [by apply (list_elem_of_fmap_2 snd _ _ Hin)|].
    rw (read_child_ok _ _ _ _ (Hget _) Hc) /= IH // ?Hc ?app_assoc //.
    rw length_app. unfold key_match. case_match; simpl; lia.
  - apply fold_until_capped; [done| |done]. intros acc' row Hin Hf Hacc'.
    destruct (Hi row.2) as (c & Hc & Hic); [by eapply rows_list_ids|].
    by rw (read_child_ok _ _ _ _ (Hget _) Hc) /= IH // Hc.
  - apply fold_until_capped; [done| |done]. intros acc' row Hin Hf Hacc'.
    destruct (Hi row.2) as (c & Hc & Hic); [by eapply rows_list_ids|].
    by rw (read_child_ok _ _ _ _ (Hget _) Hc) /= IH // Hc.
Qed.
End walks.

(** *** The incremental index *)

Section index.
Context (m : gmap ObjectId Object) (get : Reads) (Hget : ∀ i, get i = Ok (m !! i)).
Context `{FT : FloatText}.

(** The tree can be read to the limit and no key holds a slash, so that a
    path names one position. *)
Fixpoint indexable (n : nat) (o : Object) : Prop :=
  match n with
  | 0 => True
  | S n' =>
      match o with
      | ONode (NMap mm) => ∀ k, is_Some (mm !! k) → no_char "/" k
      | _ => True
      end ∧ ∀ id, id ∈ child_ids o → ∃ c, m !! id = Some c ∧ indexable n' c
  end.

Definition indexable_opt (n : nat) (id : option ObjectId) : Prop :=
  match id with Some i => ∃ o, m !! i = Some o ∧ indexable n o | None => True end.

Lemma indexable_intact n o : indexable n o → intact n m o.
Proof.
  revert o. induction n as [|n IH]; intros o; [done|]. intros [_ H] id Hid.
  destruct (H id Hid) as (c & Hc & Hi). exists c. auto.
Qed.

Definition leaves_at (n : nat) (id : option ObjectId) (path : string) : list (string * string) :=
  match id ≫= λ i, m !! i with Some o => gather indexed n m o path | None => [] end.

(** [q] is the path [p] or leads through it. *)
Definition under (p q : string) : Prop := ∃ s, q = p +:+ s ∧ (s = EmptyString ∨ ∃ r, s = "/" +:+ r).

Lemma under_refl p : under p p.
Proof. exists EmptyString. by rw string_app_nil_r; auto. Qed.

Lemma under_child cur k q : under (child_path cur k) q → under cur q.
Proof.
  intros (s & -> & _). exists ("/" +:+ (k +:+ s)). split; [|by right; eexists].
  unfold child_path. by rw !string_app_assoc.
Qed.

Lemma child_path_nonempty cur k : child_path cur k ≠ EmptyString.
Proof. unfold child_path. by destruct cur. Qed.

Lemma rows_child_path cur o row : row ∈ rows cur o → ∃ k, row.1 = child_path cur k.
Proof.
  destruct o as [a|[mm|l|l]]; simpl; [by intros ?%elem_of_nil|..].
  - intros (x & -> & _)%list_elem_of_fmap. by eexists.
  - intros [i Hi]%list_elem_of_lookup. apply list_lookup_imap_Some in Hi as (id & _ & ->). by eexists.
  - intros [i Hi]%list_elem_of_lookup. apply list_lookup_imap_Some in Hi as (id & _ & ->). by eexists.
Qed.

Lemma elem_of_gather_S {B} (h : Visit → list B) n o cur x :
  x ∈ gather h (S n) m o cur ↔
  x ∈ h (cur, o) ∨ ∃ row c, row ∈ rows cur o ∧ m !! row.2 = Some c ∧ x ∈ gather h n m c row.1.
Proof.
  rw gather_S elem_of_app list_elem_of_join. setoid_rewrite list_elem_of_fmap. split.
  - intros [?|(l & Hx & row & -> & Hrow)]; [by left|right]. unfold gather_child in Hx.
    destruct (m !! row.2) as [c|] eqn:Hc; [|by apply elem_of_nil in Hx]. by exists row, c.
  - intros [?|(row & c & Hrow & Hc & Hx)]; [by left|right].
    exists (gather_child h n m row). split; [unfold gather_child; by rw Hc|by exists row].
Qed.

Lemma indexed_leaf cur o q v : (q, v) ∈ indexed (cur, o) → q = leaf_path cur.
Proof.
  unfold indexed; simpl. destruct o as [a|]; [|by intros ?%elem_of_nil].
  destruct (atom_value_string a); [|by intros ?%elem_of_nil]. intros [=]%list_elem_of_singleton. done.
Qed.

Lemma leaf_path_child cur : cur ≠ EmptyString → leaf_path cur = cur.
Proof. intros H. unfold leaf_path. by rw bool_decide_eq_false_2. Qed.

Lemma leaves_under n o cur q v :
  (q, v) ∈ gather indexed n m o cur → cur ≠ EmptyString → under cur q.
Proof.
  revert o cur. induction n as [|n IH]; intros o cur Hq Hcur; [by apply elem_of_nil in Hq|].
  apply elem_of_gather_S in Hq as [->%indexed_leaf|(row & c & Hrow & _ & Hq)].
  - rw leaf_path_child //. apply under_refl.
  - destruct (rows_child_path _ _ _ Hrow) as [k Hk]. apply (under_child _ k). rw -Hk.
    apply (IH c); [done|]. rw Hk. apply child_path_nonempty.
Qed.

Lemma leaves_at_under n id cur q v :
  (q, v) ∈ leaves_at n id cur → cur ≠ EmptyString → under cur q.
Proof.
  unfold leaves_at. destruct (id ≫= _); [apply leaves_under|by intros ?%elem_of_nil].
Qed.

(** Two siblings have no path in common. *)
Lemma under_sibling cur k k' q :
  no_char "/" k → no_char "/" k' →
  under (child_path cur k) q → under (child_path cur k') q → k = k'.
Proof.
  intros Hk Hk' (s & -> & Hs) (s' & Heq & Hs'). unfold child_path in Heq.
  rewrite !string_app_assoc in Heq. apply (inj (String.app cur)) in Heq.
  apply (inj (String.app "/")) in Heq.
  assert (∀ k s, no_char "/" k → s = EmptyString ∨ (∃ r, s = "/" +:+ r) →
    head (split "/" (k +:+ s)) = Some k) as Hh.
  { clear. intros k s Hk [->|[r ->]]; [by rw string_app_nil_r split_no_char|].
    change ("/" +:+ r) with (String "/" r). by rw split_app. }
  pose proof (Hh k s Hk Hs) as H1. rewrite Heq Hh // in H1. by injection H1.
Qed.

(** What a diff of two subtrees at [path] owes the index: removals that stay
    below [path], additions that are new leaves, and together the new leaves. *)
Definition diff_ok (path : string) (lo ln : list (string * string)) (R : list string)
    (A : list (string * string)) : Prop :=
  (path ≠ EmptyString → ∀ q, q ∈ R → under path q) ∧
  (∀ q v, (q, v) ∈ A → (q, v) ∈ ln) ∧
  ∀ q v, (q, v) ∈ ln ↔ ((q, v) ∈ lo ∧ q ∉ R) ∨ (q, v) ∈ A.

Lemma diff_ok_refl path l : diff_ok path l l [] [].
Proof.
  split_and!; [by intros _ q ?%elem_of_nil|by intros ?? ?%elem_of_nil|]. intros q v. split.
  - left. split; [done|]. by intros ?%elem_of_nil.
  - by intros [[]|?%elem_of_nil].
Qed.

Lemma diff_siblings {K} (n : nat) (seg : K → string) (fo fn : K → option ObjectId) path l c :
  NoDup l → (∀ k k', k ∈ l → k' ∈ l → seg k = seg k' → k = k') →
  (∀ k, k ∈ l → no_char "/" (seg k)) →
  (∀ k c, k ∈ l → ∃ R A,
    diff_recursive n get (fo k) (fn k) (child_path path (seg k)) c = Ok (c.1 ++ R, c.2 ++ A) ∧
    diff_ok (child_path path (seg k)) (leaves_at n (fo k) (child_path path (seg k)))
      (leaves_at n (fn k) (child_path path (seg k))) R A) →
  ∃ R A,
    fold_all (λ c k, diff_recursive n get (fo k) (fn k) (child_path path (seg k)) c) c l =
      Ok (c.1 ++ R, c.2 ++ A) ∧
    (∀ q, q ∈ R → ∃ k, k ∈ l ∧ under (child_path path (seg k)) q) ∧
    (∀ q v, (q, v) ∈ A → ∃ k, k ∈ l ∧ (q, v) ∈ leaves_at n (fn k) (child_path path (seg k))) ∧
    ∀ q v, (∃ k, k ∈ l ∧ (q, v) ∈ leaves_at n (fn k) (child_path path (seg k))) ↔
      ((∃ k, k ∈ l ∧ (q, v) ∈ leaves_at n (fo k) (child_path path (seg k))) ∧ q ∉ R) ∨ (q, v) ∈ A.
Proof.
  intros Hnd Hinj Hseg Hone. revert c. induction l as [|k l IH]; intros c.
  { exists [], []. rw !app_nil_r. split_and!; [by destruct c|set_solver..]. }
  apply NoDup_cons in Hnd as [Hk Hnd].
  destruct (Hone k c) as (R1 & A1 & Hrun & HR1 & HA1 & Heq1); [by left|].
  destruct (IH Hnd) with (c := (c.1 ++ R1, c.2 ++ A1)) as (R2 & A2 & Hrun2 & HR2 & HA2 & Heq2).
  { intros k1 k2 ??. apply Hinj; by right. }
  { intros k' ?. apply Hseg. by right. }
  { intros k' c' ?. apply Hone. by right. }
  exists (R1 ++ R2), (A1 ++ A2). unfold fold_all in *. cbn [fold_until]. rw Hrun /= Hrun2 /= -!app_assoc.
  specialize (HR1 (child_path_nonempty _ _)).
  assert (∀ k' q, k' ∈ l → under (child_path path (seg k)) q → ¬ under (child_path path (seg k')) q) as Hdis.
  { intros k' q Hk' H1 H2. assert (k = k') as ->; [|done]. apply Hinj; [by left|by right|].
    apply (under_sibling path _ _ q); [apply Hseg; by left|apply Hseg; by right|done..]. }
  split_and!; [done| | |].
  - intros q [Hq|Hq]%elem_of_app; [exists k; split; [by left|auto]|].
    destruct (HR2 q Hq) as (k' & ? & ?). exists k'. split; [by right|done].
  - intros q v [Hq|Hq]%elem_of_app; [exists k; split; [by left|auto]|].
    destruct (HA2 q v Hq) as (k' & ? & ?). exists k'. split; [by right|done].
  - intros q v. specialize (Heq1 q v). specialize (Heq2 q v). rw !elem_of_app. split.
    + intros (k' & [->|Hk']%elem_of_cons & Hq).
      * apply Heq1 in Hq as Hc. destruct Hc as [[Hlo HqR]|]; [left|by right; left].
        split; [exists k; split; [by left|done]|]. intros [?|Hq2]; [done|].
        destruct (HR2 q Hq2) as (k2 & Hk2 & Hu). apply (Hdis k2 q Hk2); [|done].
        by eapply leaves_at_under; [|apply child_path_nonempty].
      * destruct (proj1 Heq2) as [[(k2 & Hk2 & Hlo) HqR]|]; [by exists k'| |by right; right].
        left. split; [exists k2; split; [by right|done]|]. intros [Hq1|?]; [|done].
        apply (Hdis k2 q Hk2); [by apply HR1|].
        by eapply leaves_at_under; [|apply child_path_nonempty].
    + intros [[(k' & [->|Hk']%elem_of_cons & Hq) HqR]|[Hq|Hq]].
      * exists k. split; [by left|]. apply Heq1. left. split; [done|]. tauto.
      * destruct (proj2 Heq2) as (k2 & ? & ?); [left; split; [by exists k'|tauto]|].
        exists k2. split; [by right|done].
      * exists k. split; [by left|]. by apply HA1.
      * destruct (HA2 q v Hq) as (k' & ? & ?). exists k'. split; [by right|done].
Qed.

Lemma drop_paths_ok n o path c :
  indexable n o → drop_paths n get o path c = Ok (c.1 ++ (gather indexed n m o path).*1, c.2).
Proof.
  intros Hi. unfold drop_paths, collect_paths_of.
  destruct (load_depth_reads m get o (N.of_nat n) Hget) as (objects & -> & Hp). simpl.
  rw (collect_leaf_paths_gather m) //. by apply indexable_intact.
Qed.

Lemma add_leaves_ok n o path c :
  indexable n o → add_leaves n get o path c = Ok (c.1, c.2 ++ gather indexed n m o path).
Proof.
  intros Hi. unfold add_leaves, collect_leaves.
  destruct (load_depth_reads m get o (N.of_nat n) Hget) as (objects & -> & Hp). simpl.
  rw (collect_leaves_gather m) //. by apply indexable_intact.
Qed.

(** Replacing everything at a path. *)
Lemma replace_ok path lo ln R :
  (∀ q v, (q, v) ∈ lo → q ∈ R) → (path ≠ EmptyString → ∀ q, q ∈ R → under path q) →
  diff_ok path lo ln R ln.
Proof.
  intros Hlo HR. split_and!; [done|done|]. intros q v. split; [by right|].
  intros [[Hq Hn]|?]; [|done]. by destruct (Hn (Hlo q v Hq)).
Qed.

Lemma add_atom_eq path a c n :
  add_atom path a c = (c.1, c.2 ++ gather indexed (S n) m (OAtom a) path).
Proof.
  unfold add_atom. rw gather_S /= app_nil_r. unfold indexed; simpl.
  destruct c as [R A]. by destruct (atom_value_string a); simpl; rw ?app_nil_r.
Qed.

Lemma leaf_under path : path ≠ EmptyString → ∀ q, q ∈ [leaf_path path] → under path q.
Proof. intros Hp q ->%list_elem_of_singleton. rw leaf_path_child //. apply under_refl. Qed.

Lemma atom_leaves n a path q v :
  (q, v) ∈ gather indexed n m (OAtom a) path → q ∈ [leaf_path path].
Proof.
  destruct n as [|n]; [by intros ?%elem_of_nil|]. intros Hq.
  apply elem_of_gather_S in Hq as [->%indexed_leaf|(row & c & Hr & _)]; [by left|].
  by apply elem_of_nil in Hr.
Qed.

Lemma fst_leaves_under n o path q :
  path ≠ EmptyString → q ∈ (gather indexed n m o path).*1 → under path q.
Proof. intros Hp ([q' v] & -> & Hq)%list_elem_of_fmap. by eapply leaves_under. Qed.

Lemma elem_of_fst {A B} (l : list (A * B)) a b : (a, b) ∈ l → a ∈ l.*1.
Proof. intros H. by apply (list_elem_of_fmap_2 fst _ _ H). Qed.

Lemma leaves_of_map n mm path q v :
  (q, v) ∈ gather indexed (S n) m (ONode (NMap mm)) path ↔
  ∃ k, (q, v) ∈ leaves_at n (mm !! k) (child_path path k).
Proof.
  rw elem_of_gather_S. simpl. unfold rows_map. setoid_rewrite list_elem_of_fmap. split.
  - intros [?%elem_of_nil|(row & c & ([k i] & -> & Hk%elem_of_entries) & Hc & Hq)]; [done|].
    exists k. unfold leaves_at. rw Hk /=. simpl in Hc. by rw Hc.
  - intros [k Hq]. right. unfold leaves_at in Hq. destruct (mm !! k) as [i|] eqn:Hk; simpl in Hq;
      [|by apply elem_of_nil in Hq].
    destruct (m !! i) as [c|] eqn:Hc; [|by apply elem_of_nil in Hq].
    exists (child_path path k, i), c. split_and!; [|done..]. exists (k, i). by rw elem_of_entries.
Qed.

Lemma elem_of_rows_list path l row :
  row ∈ rows_list path l ↔
  ∃ i id, l !! i = Some id ∧ row = (child_path path (pretty (N.of_nat i)), id).
Proof.
  unfold rows_list. rw list_elem_of_lookup. setoid_rewrite list_lookup_imap_Some. naive_solver.
Qed.

Lemma leaves_of_items n node path q v :
  match node with NMap _ => False | _ => True end →
  (q, v) ∈ gather indexed (S n) m (ONode node) path ↔
  ∃ i, (q, v) ∈ leaves_at n (node_items node !! i) (child_path path (pretty (N.of_nat i))).
Proof.
  intros Hnode. rw elem_of_gather_S.
  assert (rows path (ONode node) = rows_list path (node_items node)) as -> by by destruct node.
  setoid_rewrite elem_of_rows_list. split.
  - intros [?%elem_of_nil|(row & c & (i & id & Hi & ->) & Hc & Hq)]; [done|].
    exists i. unfold leaves_at. rw Hi /=. simpl in Hc. by rw Hc.
  - intros [i Hq]. right. unfold leaves_at in Hq.
    destruct (node_items node !! i) as [id|] eqn:Hi; simpl in Hq; [|by apply elem_of_nil in Hq].
    destruct (m !! id) as [c|] eqn:Hc; [|by apply elem_of_nil in Hq].
    eexists _, c. split_and!; [by exists i, id|done|done].
Qed.

(** Bringing the children of two nodes together. *)
Lemma node_ok {K} n (seg : K → string) (fo fn : K → option ObjectId) path l on nn c :
  NoDup l → (∀ k k', k ∈ l → k' ∈ l → seg k = seg k' → k = k') →
  (∀ k, k ∈ l → no_char "/" (seg k)) →
  (∀ q v, (q, v) ∈ gather indexed (S n) m on path ↔
    ∃ k, k ∈ l ∧ (q, v) ∈ leaves_at n (fo k) (child_path path (seg k))) →
  (∀ q v, (q, v) ∈ gather indexed (S n) m nn path ↔
    ∃ k, k ∈ l ∧ (q, v) ∈ leaves_at n (fn k) (child_path path (seg k))) →
  (∀ k c, k ∈ l → ∃ R A,
    diff_recursive n get (fo k) (fn k) (child_path path (seg k)) c = Ok (c.1 ++ R, c.2 ++ A) ∧
    diff_ok (child_path path (seg k)) (leaves_at n (fo k) (child_path path (seg k)))
      (leaves_at n (fn k) (child_path path (seg k))) R A) →
  ∃ R A,
    fold_all (λ c k, diff_recursive n get (fo k) (fn k) (child_path path (seg k)) c) c l =
      Ok (c.1 ++ R, c.2 ++ A) ∧
    diff_ok path (gather indexed (S n) m on path) (gather indexed (S n) m nn path) R A.
Proof.
  intros Hnd Hinj Hseg Hon Hnn Hone.
  destruct (diff_siblings n seg fo fn path l c Hnd Hinj Hseg Hone) as (R & A & Hrun & HR & HA & Heq).
  exists R, A. split; [done|]. split_and!.
  - intros _ q Hq. destruct (HR q Hq) as (k & _ & Hu). by eapply under_child.
  - intros q v Hq. by apply Hnn, HA.
  - intros q v. by rw Hnn Heq Hon.
Qed.

(** The part of [diff_recursive] for two nodes. *)
Abbreviation diff_nodes n on nn path c :=
  (match on, nn with
   | NMap oe, NMap ne =>
       fold_all (λ c k, diff_recursive n get (oe !! k) (ne !! k) (child_path path k) c)
         c (sorted_keys (oe ∪ ne))
   | NMap oe, _ =>
       c' ← drop_paths (S n) get (ONode (NMap oe)) path c; add_leaves (S n) get (ONode nn) path c'
   | _, NMap ne =>
       c' ← drop_paths (S n) get (ONode on) path c; add_leaves (S n) get (ONode (NMap ne)) path c'
   | _, _ =>
       fold_all (λ c i, diff_recursive n get (node_items on !! i) (node_items nn !! i)
         (child_path path (pretty (N.of_nat i))) c)
         c (seq 0 (length (node_items on) `max` length (node_items nn)))
   end).

(** Two nodes, given that diffs of their children are right. *)
Lemma node_diff_ok n on nn path c :
  (∀ old new path c, indexable_opt n old → indexable_opt n new →
    ∃ R A, diff_recursive n get old new path c = Ok (c.1 ++ R, c.2 ++ A) ∧
      diff_ok path (leaves_at n old path) (leaves_at n new path) R A) →
  indexable (S n) (ONode on) → indexable (S n) (ONode nn) →
  ∃ R A, diff_nodes n on nn path c = Ok (c.1 ++ R, c.2 ++ A) ∧
    diff_ok path (gather indexed (S n) m (ONode on) path) (gather indexed (S n) m (ONode nn) path) R A.
Proof.
  intros IH Ho Hn.
  assert ((∃ oe ne, on = NMap oe ∧ nn = NMap ne) ∨
    (∃ c', drop_paths (S n) get (ONode on) path c = Ok c' ∧
      diff_nodes n on nn path c = add_leaves (S n) get (ONode nn) path c') ∨
    (match on with NMap _ => False | _ => True end ∧ match nn with NMap _ => False | _ => True end))
    as [(oe & ne & -> & ->)|[(c' & Hd & ->)|[Hon Hnn]]].
  { rewrite drop_paths_ok //. destruct on, nn; simpl; rewrite ?drop_paths_ok //; naive_solver. }
  - apply (node_ok n id (λ k, oe !! k) (λ k, ne !! k)).
    + apply sorted_keys_NoDup.
    + done.
    + intros k Hk. apply elem_of_sorted_keys, lookup_union_is_Some in Hk as [Hk|Hk];
        [by apply Ho|by apply Hn].
    + intros q v. rw leaves_of_map. split; [|naive_solver]. intros [k Hq]. exists k. split; [|done].
      apply elem_of_sorted_keys, lookup_union_is_Some. left. unfold leaves_at in Hq.
      destruct (oe !! k); [done|]. by apply elem_of_nil in Hq.
    + intros q v. rw leaves_of_map. split; [|naive_solver]. intros [k Hq]. exists k. split; [|done].
      apply elem_of_sorted_keys, lookup_union_is_Some. right. unfold leaves_at in Hq.
      destruct (ne !! k); [done|]. by apply elem_of_nil in Hq.
    + intros k c' _. apply IH.
      * destruct (oe !! k) as [i|] eqn:Hk; [|done]. apply Ho. simpl.
        apply elem_of_entries in Hk. apply (list_elem_of_fmap_2 snd _ _ Hk).
      * destruct (ne !! k) as [i|] eqn:Hk; [|done]. apply Hn. simpl.
        apply elem_of_entries in Hk. apply (list_elem_of_fmap_2 snd _ _ Hk).
  - rewrite drop_paths_ok // in Hd. injection Hd as <-. rw add_leaves_ok //.
    exists (gather indexed (S n) m (ONode on) path).*1, (gather indexed (S n) m (ONode nn) path).
    split; [done|]. apply replace_ok; [apply elem_of_fst|]. intros Hp q. by apply fst_leaves_under.
  - replace (diff_nodes n on nn path c) with
      (fold_all (λ c i, diff_recursive n get (node_items on !! i) (node_items nn !! i)
        (child_path path (pretty (N.of_nat i))) c)
        c (seq 0 (length (node_items on) `max` length (node_items nn)))) by by destruct on, nn.
    apply (node_ok n (λ i, pretty (N.of_nat i)) (λ i, node_items on !! i) (λ i, node_items nn !! i)).
    + apply NoDup_seq.
    + intros i j _ _ Hij%(inj pretty)%Nat2N.inj. done.
    + intros i _. apply digits_no_char; [by vm_compute|apply pretty_N_digits].
    + intros q v. rw leaves_of_items //. split; [|naive_solver]. intros [i Hq]. exists i. split; [|done].
      apply elem_of_seq. unfold leaves_at in Hq. destruct (node_items on !! i) eqn:Hi.
      * apply lookup_lt_Some in Hi. lia.
      * by apply elem_of_nil in Hq.
    + intros q v. rw leaves_of_items //. split; [|naive_solver]. intros [i Hq]. exists i. split; [|done].
      apply elem_of_seq. unfold leaves_at in Hq. destruct (node_items nn !! i) eqn:Hi.
      * apply lookup_lt_Some in Hi. lia.
      * by apply elem_of_nil in Hq.
    + intros i c' _. apply IH.
      * destruct (node_items on !! i) as [id|] eqn:Hi; [|done].
        apply list_elem_of_lookup_2 in Hi. apply Ho. by destruct on.
      * destruct (node_items nn !! i) as [id|] eqn:Hi; [|done].
        apply list_elem_of_lookup_2 in Hi. apply Hn. by destruct nn.
Qed.

Lemma diff_recursive_ok n old new path c :
  indexable_opt n old → indexable_opt n new →
  ∃ R A, diff_recursive n get old new path c = Ok (c.1 ++ R, c.2 ++ A) ∧
    diff_ok path (leaves_at n old path) (leaves_at n new path) R A.
Proof.
  revert old new path c. induction n as [|n IH]; intros old new path c Hold Hnew.
  - exists [], []. rw !app_nil_r. assert (∀ id, leaves_at 0 id path = []) as Hnil.
    { intros id. unfold leaves_at. by destruct (id ≫= _). }
    cbn [diff_recursive]. split; [by destruct c; case_match|]. rw !Hnil. apply diff_ok_refl.
  - cbn [diff_recursive]. case_bool_decide as Heq.
    { subst. exists [], []. rw !app_nil_r. destruct c. split; [done|]. apply diff_ok_refl. }
    assert (∀ id, indexable_opt (S n) id → ∃ o, read_opt get id = Ok o ∧
      leaves_at (S n) id path = match o with Some o => gather indexed (S n) m o path | None => [] end ∧
      match o with Some o => indexable (S n) o | None => True end) as Hread.
    { intros [id|]; simpl; [intros (o & Ho & Hi)|intros _; by exists None].
      exists (Some o). rw Hget /=. unfold leaves_at. simpl. by rw Ho. }
    destruct (Hread old Hold) as (oo & -> & -> & Hio), (Hread new Hnew) as (no & -> & -> & Hin).
    cbn [mbind result_bind]. clear Hread Hold Hnew Heq.
    destruct oo as [o|], no as [o'|]; [| | |by exists [], []; rw !app_nil_r; destruct c; split; [|apply diff_ok_refl]].
    2:{ exists (gather indexed (S n) m o path).*1, []. rw app_nil_r.
        split; [by destruct o as [|[]]; rw drop_paths_ok|].
        apply replace_ok; [apply elem_of_fst|]. intros Hp q. by apply fst_leaves_under. }
    2:{ exists [], (gather indexed (S n) m o' path). rw app_nil_r.
        split; [by destruct o' as [|[]]; rw add_leaves_ok|].
        by apply replace_ok; [intros ?? ?%elem_of_nil|intros _ ? ?%elem_of_nil]. }
    destruct o as [a|on], o' as [a'|nn].
    + rw (add_atom_eq _ _ _ n). eexists [leaf_path path], _. split; [done|].
      apply replace_ok; [apply atom_leaves|apply leaf_under].
    + exists [leaf_path path], (gather indexed (S n) m (ONode nn) path).
      split; [by destruct nn; rw add_leaves_ok|].
      apply replace_ok; [apply atom_leaves|apply leaf_under].
    + exists (gather indexed (S n) m (ONode on) path).*1, (gather indexed (S n) m (OAtom a') path).
      split; [by destruct on; rw drop_paths_ok //= (add_atom_eq _ _ _ n)|].
      apply replace_ok; [apply elem_of_fst|]. intros Hp q. by apply fst_leaves_under.
    + by apply node_diff_ok.
Qed.
End index.

(** ** Listing a stored tree *)

Section listing.
Context `{CH : ContentHash} {S : Type} `{OS : !ObjectStore S, !ObjectStoreLaws S} `{RS : !Reliable S}.

Definition list_base (prefix : string) : string :=
  if bool_decide (prefix = EmptyString) || bool_decide (prefix = "/") then EmptyString else prefix.

(** Where a listing starts. *)
Lemma list_start (s : S) root prefix p o r :
  contents s !! root = Some r → parse prefix = Ok p → value_at (contents s) root p = Some o →
  (if bool_decide (prefix = EmptyString) || bool_decide (prefix = "/")
     then Ok (r, EmptyString)
     else map_err Fail (
       path ← map_err (PathNotFound ∘ path_error_to_string) (parse prefix);
       obj ← tree_get s root path;
       Ok (obj, prefix))) = Ok (o, list_base prefix) :> result (stop TreeError) _.
Proof.
  intros Hr Hp Ho. unfold list_base.
  destruct (bool_decide (prefix = EmptyString) || bool_decide (prefix = "/")) eqn:Hc.
  - unfold parse in Hp. rewrite Hc in Hp. injection Hp as <-.
    unfold value_at in Ho. simpl in Ho. congruence.
  - rw Hp /=. by rw (proj2 (tree_get_total s root p o)).
Qed.

(** What it collects from there. *)
Lemma list_from_start (s : S) o base max_depth :
  let n := N.to_nat (N.min max_depth LIST_PATHS_HARD_CEILING + 1) in
  intact n (contents s) o →
  (objects ← load_depth (get_object s) o (N.min max_depth LIST_PATHS_HARD_CEILING + 1);
   paths ← collect_paths n (prefetched_get objects (get_object s)) o base [];
   Ok (if (LIST_PATHS_MAX_RESULTS <? N.of_nat (length paths))%N
       then take (N.to_nat LIST_PATHS_MAX_RESULTS) paths else paths)) =
  Ok (take (N.to_nat LIST_PATHS_MAX_RESULTS) (gather listed n (contents s) o base)) :> result (stop TreeError) _.
Proof.
  intros n Hi. assert (∀ i, get_object s i = Ok (contents s !! i)) as Hg by (intros; apply get_total).
  destruct (load_depth_reads (contents s) (get_object s) o (N.min max_depth LIST_PATHS_HARD_CEILING + 1) Hg)
    as (objects & -> & Hpre). cbn [mbind result_bind].
  rw (collect_paths_gather (contents s) _ Hpre) //; [|simpl; lia]. cbn [mbind result_bind].
  rw (proj2 (N.ltb_ge _ _)); [done|]. rw length_take. unfold MAX_RESULTS. lia.
Qed.
End listing.

(** ** Properties *)

(** C38: on a store that does not fail, the listing is the first
    [LIST_PATHS_MAX_RESULTS] leaf paths, in traversal order, of the subtree
    the prefix names, cut at the depth asked for or at the hard ceiling,
    whichever is less; the limits never cause an error, and the overlay is
    invisible. *)
Theorem tree_list_paths_spec `{CH : ContentHash} {S : Type} `{OS : !ObjectStore S, !ObjectStoreLaws S}
    `{RS : !Reliable S} (s : S) root prefix p o max_depth :
  let m := contents s in
  let n := N.to_nat (N.min max_depth LIST_PATHS_HARD_CEILING + 1) in
  is_Some (m !! root) → parse prefix = Ok p → value_at m root p = Some o → intact n m o →
  tree_list_paths s root prefix max_depth =
    Ok (take (N.to_nat LIST_PATHS_MAX_RESULTS) (gather listed n m o (list_base prefix))).
Proof.
  intros m n [r Hr] Hp Ho Hi. assert (∀ i, get_object s i = Ok (m !! i)) as Hg by (intros; apply get_total).
  unfold tree_list_paths, load_root. rw (read_child_ok _ m root r) //. cbn [mbind result_bind].
  rw (list_start s root prefix p o r) //. cbn [mbind result_bind]. by apply list_from_start.
Qed.

(** On a store that does not fail, the search reports the first results,
    up to the limit asked for or the absolute one, whichever is less, of all
    matches in traversal order: every value whose lowercased text contains the
    lowercased query and every such key. *)
Theorem tree_search_values_spec `{FT : FloatText, TX : Text} (m : gmap ObjectId Object) root o query max_results :
  m !! root = Some o → intact (N.to_nat (LIST_PATHS_HARD_CEILING + 1)) m o →
  tree_search_values (reads_of m) root query max_results =
    Ok (take (N.to_nat (N.min max_results LIST_PATHS_MAX_RESULTS))
         (matches (N.to_nat (LIST_PATHS_HARD_CEILING + 1)) m (to_lowercase query) o EmptyString)).
Proof.
  intros Ho Hi. unfold tree_search_values, load_root.
  rw (read_child_ok _ m root o) //. cbn [mbind result_bind].
  destruct (load_depth_reads m (reads_of m) o (LIST_PATHS_HARD_CEILING + 1)) as (objects & -> & Hpre); [done|].
  cbn [mbind result_bind]. rw (search_matches m _ Hpre) //. simpl. lia.
Qed.

(** Maintaining the index is rebuilding it: for any two trees that can be
    read and whose keys hold no slash, dropping the removed paths from the old
    tree's leaves and adding the added ones gives exactly the leaves a full
    walk of the new tree collects. *)
Theorem tree_diff_leaves_spec `{FT : FloatText} (m : gmap ObjectId Object) old new :
  let n := N.to_nat (LIST_PATHS_HARD_CEILING + 1) in
  indexable_opt m n old → indexable_opt m n (Some new) →
  ∃ removed added leaves_old leaves_new,
    tree_diff_leaves (reads_of m) old new = Ok (removed, added) ∧
    match old with
    | Some r => tree_collect_leaves (reads_of m) r = Ok leaves_old
    | None => leaves_old = []
    end ∧
    tree_collect_leaves (reads_of m) new = Ok leaves_new ∧
    ∀ q v, (q, v) ∈ leaves_new ↔ ((q, v) ∈ leaves_old ∧ q ∉ removed) ∨ (q, v) ∈ added.
Proof.
  intros n Hold Hnew.
  destruct (diff_recursive_ok m (reads_of m) (λ _, eq_refl) n old (Some new) EmptyString ([], []) Hold Hnew)
    as (R & A & Hrun & _ & _ & Heq).
  assert (∀ r, indexable_opt m n (Some r) →
    tree_collect_leaves (reads_of m) r = Ok (leaves_at m n (Some r) EmptyString)) as Hleaves.
  { intros r (o & Ho & Hi). unfold tree_collect_leaves, load_root.
    rw (read_child_ok _ m r o) //. cbn [mbind result_bind]. unfold collect_leaves. fold n.
    destruct (load_depth_reads m (reads_of m) o (N.of_nat n)) as (objects & -> & Hpre); [done|].
    cbn [mbind result_bind]. rw (collect_leaves_gather m _ Hpre); [|by apply indexable_intact].
    unfold leaves_at. simpl. by rw Ho. }
  exists R, A, (leaves_at m n old EmptyString), (leaves_at m n (Some new) EmptyString).
  split_and!; [done| |by apply Hleaves|done].
  destruct old as [r|]; [by apply Hleaves|done].
Qed.

(** The hypotheses, decided by reading. *)
Fixpoint indexableb (n : nat) (m : gmap ObjectId Object) (o : Object) : bool :=
  match n with
  | 0 => true
  | S n' =>
      match o with
      | ONode (NMap mm) => forallb (no_char "/") (sorted_keys mm)
      | _ => true
      end &&
      forallb (λ id, match m !! id with Some c => indexableb n' m c | None => false end) (child_ids o)
  end.

Lemma indexableb_spec n m o : indexableb n m o → indexable m n o.
Proof.
  revert o. induction n as [|n IH]; intros o; [done|]. cbn [indexableb indexable].
  intros [Hk Hc]%andb_True. split.
  - destruct o as [a|[mm|l|l]]; try done. intros k Hkey%elem_of_sorted_keys%list_elem_of_In.
    apply Is_true_true, forallb_forall with (x := k) in Hk; [by rw Hk|done].
  - intros id Hid%list_elem_of_In. apply Is_true_true, forallb_forall with (x := id) in Hc; [|done].
    destruct (m !! id) as [c|]; [|done]. exists c. split; [done|]. apply IH. by rw Hc.
Qed.

Module PlainText.
#[export] Instance plain_text : Text := {| to_lowercase := to_ascii_lowercase; debug_str := λ s, s |}.
#[export] Instance plain_float_text : FloatText := {| f64_to_string := λ f, pretty f |}.
End PlainText.

Section witnesses.
Import Plain PlainText.

Lemma tree_list_paths_spec_witness :
  tree_list_paths tree_store (oid_of tree_root) "/a" 5 = Ok ["/a/x"].
Proof.
  rw (tree_list_paths_spec tree_store (oid_of tree_root) "/a" [Key "a"] inner 5).
  - by vm_compute.
  - by exists tree_root.
  - done.
  - by vm_compute.
  - apply indexable_intact, indexableb_spec. by vm_compute.
Defined.

Lemma tree_search_values_spec_witness :
  tree_search_values (reads_of (contents tree_store)) (oid_of tree_root) "V" 10 =
  Ok [("/a/x", "v"); ("/n", "v")].
Proof.
  rw (tree_search_values_spec _ (oid_of tree_root) tree_root "V" 10).
  - by vm_compute.
  - by vm_compute.
  - apply indexable_intact, indexableb_spec. by vm_compute.
Defined.

Definition edited_root : Object := mk_map {[ "a" := oid_of inner; "n" := oid_of inner ]}.
Definition two_versions : gmap ObjectId Object := sample [leaf; inner; tree_root; edited_root].

Lemma tree_diff_leaves_spec_witness :
  ∃ added leaves_new,
    tree_diff_leaves (reads_of two_versions) (Some (oid_of tree_root)) (oid_of edited_root) =
      Ok (["/n"], added) ∧
    tree_collect_leaves (reads_of two_versions) (oid_of edited_root) = Ok leaves_new ∧
    ("/n/x", "v") ∈ leaves_new ∧ ("/n", "v") ∉ leaves_new.
Proof.
  destruct (tree_diff_leaves_spec two_versions (Some (oid_of tree_root)) (oid_of edited_root))
    as (R & A & lo & ln & Hrun & Hlo & Hln & Heq).
  - exists tree_root. split; [by vm_compute|]. apply indexableb_spec. by vm_compute.
  - exists edited_root. split; [by vm_compute|]. apply indexableb_spec. by vm_compute.
  - assert (tree_collect_leaves (reads_of two_versions) (oid_of tree_root) =
      Ok [("/a/x", "v"); ("/n", "v")]) as Ho by by vm_compute.
    rewrite Ho in Hlo. injection Hlo as <-.
    assert (tree_diff_leaves (reads_of two_versions) (Some (oid_of tree_root)) (oid_of edited_root) =
      Ok (["/n"], [("/n/x", "v")])) as Hd by by vm_compute.
    rewrite Hd in Hrun. injection Hrun as <- <-.
    exists [("/n/x", "v")], ln. split_and!; [done..| |]; rw Heq.
    + right. by left.
    + intros [[_ HR]|HA]; [by apply HR; left|]. by apply list_elem_of_singleton in HA.
Defined.
End witnesses.
