(* ===== verification/Specs.v ===== *)
(** * Specs: speculative execution

    Models [agentstategraph/src/speculation.rs]: the manager of open
    speculations, each a fork of a state root whose objects go straight to the
    shared store, and the overlay a speculation reads through. The process-wide
    handle counter is part of the manager's state. *)
From S2P Require Import Prelude Objects Paths Json Intents Commits Stores Diffs Memory Trees.

Definition SpecHandle : Type := N.

Definition spec_handle_display (h : SpecHandle) : string := "spec-" +:+ pretty h.

Definition MAX_LIVE_SPECULATIONS : nat := 1024.

Record Speculation := {
  spec_label : option string;
  spec_base_ref : string;
  spec_base_root : ObjectId;
  spec_current_root : ObjectId;
  spec_overlay : gmap ObjectId Object;
}.

Record SpeculationManager := {
  specs : gmap SpecHandle Speculation;
  next_spec_id : N;
}.

Record SpecComparisonEntry := {
  entry_handle : SpecHandle;
  entry_label : option string;
  diff_from_base : list DiffOp;
}.

Record SpecComparison := {
  comparison_base_ref : string;
  comparison_entries : list SpecComparisonEntry;
}.

Inductive SpecError : Type :=
  | SpecNotFound (h : SpecHandle)
  | TooMany (live max : nat)
  | SpecTree (e : TreeError)
  | SpecStorage (e : StorageError).

#[export] Instance SpecError_eq_dec : EqDecision SpecError.
Proof. solve_decision. Defined.

Definition spec_error_code (e : SpecError) : string :=
  match e with
  | SpecNotFound _ => "speculation_not_found"
  | TooMany _ _ => "too_many_speculations"
  | SpecTree e => tree_error_code e
  | SpecStorage e => storage_error_code e
  end.

Definition specs_new : SpeculationManager := {| specs := ∅; next_spec_id := 1 |}.

Definition set_specs (mgr : SpeculationManager) (x : gmap SpecHandle Speculation) :
    SpeculationManager := {| specs := x; next_spec_id := next_spec_id mgr |}.

Definition spec_with_root (sp : Speculation) (root : ObjectId) : Speculation := {|
  spec_label := spec_label sp; spec_base_ref := spec_base_ref sp;
  spec_base_root := spec_base_root sp; spec_current_root := root;
  spec_overlay := spec_overlay sp |}.

Definition spec_create (base_ref : string) (base_root : ObjectId) (label : option string) :
    stateful SpeculationManager SpecError SpecHandle := λ mgr,
  if bool_decide (MAX_LIVE_SPECULATIONS ≤ size (specs mgr))
  then (Err (TooMany (size (specs mgr)) MAX_LIVE_SPECULATIONS), mgr)
  else
    let handle := next_spec_id mgr in
    let spec := {| spec_label := label; spec_base_ref := base_ref; spec_base_root := base_root;
                   spec_current_root := base_root; spec_overlay := ∅ |} in
    (Ok handle, {| specs := <[handle := spec]> (specs mgr);
                   next_spec_id := (handle + 1) mod 2 ^ 64 |}).

Definition find_spec (mgr : SpeculationManager) (h : SpecHandle) : result SpecError Speculation :=
  ok_or (SpecNotFound h) (specs mgr !! h).

Definition parse_spec_path (path : string) : result SpecError StatePath :=
  map_err (λ e, SpecTree (PathNotFound (path_error_to_string e))) (parse path).

(** ** Reading through the overlay *)

Record OverlayStore (S : Type) := { ov_overlay : gmap ObjectId Object; ov_store : S }.
Arguments ov_overlay {S}.
Arguments ov_store {S}.

Section operations.
Context `{CH : ContentHash} {S : Type} `{OS : !ObjectStore S}.

Definition resolve_to_object (o : OverlayStore S) (id : ObjectId) : option Object :=
  match ov_overlay o !! id with
  | Some x => Some x
  | None => match get_object (ov_store o) id with Ok r => r | Err _ => None end
  end.

#[export] Instance overlay_object_store : ObjectStore (OverlayStore S) := {|
  get_object o id := Ok (resolve_to_object o id);
  put_object obj o :=
    match put_object obj (ov_store o) with
    | (r, s') => (r, {| ov_overlay := ov_overlay o; ov_store := s' |})
    end;
  has_object o id :=
    Ok (bool_decide (is_Some (ov_overlay o !! id))
        || match has_object (ov_store o) id with Ok b => b | Err _ => false end);
|}.

Definition spec_get (mgr : SpeculationManager) (s : S) (h : SpecHandle) (path : string) :
    result SpecError Object :=
  spec ← find_spec mgr h;
  let resolver := {| ov_overlay := spec_overlay spec; ov_store := s |} in
  state_path ← parse_spec_path path;
  _ ← ok_or (SpecTree (PathNotFound "root not found"))
        (resolve_to_object resolver (spec_current_root spec));
  map_err SpecTree (tree_get resolver (spec_current_root spec) state_path).

(** A step on the store alone. *)
Definition on_store {A} (f : TreeError → SpecError) (m : stateful S TreeError A) :
    stateful (SpeculationManager * S) SpecError A := λ ms,
  match m ms.2 with (r, s') => (map_err f r, (ms.1, s')) end.

(** Writing back the root of a speculation that was looked up. *)
Definition update_root (h : SpecHandle) (spec : Speculation) (root : ObjectId) :
    stateful (SpeculationManager * S) SpecError () := λ ms,
  (Ok (), (set_specs ms.1 (<[h := spec_with_root spec root]> (specs ms.1)), ms.2)).

Definition spec_set (h : SpecHandle) (path : string) (value : Object) :
    stateful (SpeculationManager * S) SpecError () :=
  spec ← reading (λ ms, find_spec ms.1 h);
  state_path ← lift (parse_spec_path path);
  _ ← (λ ms, match put_object value ms.2 with
             | (r, s') => (map_err SpecStorage r, (ms.1, s')) end);
  new_root ← on_store SpecTree (tree_set (spec_current_root spec) state_path value);
  update_root h spec new_root.

Definition spec_delete (h : SpecHandle) (path : string) :
    stateful (SpeculationManager * S) SpecError () :=
  spec ← reading (λ ms, find_spec ms.1 h);
  state_path ← lift (parse_spec_path path);
  new_root ← on_store SpecTree (tree_delete (spec_current_root spec) state_path);
  update_root h spec new_root.

(** Reads of the store whose failures count as absent. *)
Definition store_resolver (s : S) : Resolver := λ id,
  match get_object s id with Ok r => r | Err _ => None end.

(** The loop of [compare], with the base ref so far; the diff runs on fuel. *)
Fixpoint compare_loop (fuel : nat) (mgr : SpeculationManager) (s : S) (handles : list SpecHandle)
    (base_ref : string) (entries : list SpecComparisonEntry) :
    result (stop SpecError) SpecComparison :=
  match handles with
  | [] => Ok {| comparison_base_ref := base_ref; comparison_entries := entries |}
  | h :: handles' =>
      spec ← map_err Fail (find_spec mgr h);
      ops ← map_err (λ _, OutOfFuel)
              (diff (store_resolver s) fuel (spec_base_root spec) (spec_current_root spec));
      compare_loop fuel mgr s handles' (spec_base_ref spec)
        (entries ++ [{| entry_handle := h; entry_label := spec_label spec; diff_from_base := ops |}])
  end.

Definition spec_compare (fuel : nat) (mgr : SpeculationManager) (s : S) (handles : list SpecHandle) :
    result (stop SpecError) SpecComparison := compare_loop fuel mgr s handles EmptyString [].
End operations.

Definition spec_remove (h : SpecHandle) : stateful SpeculationManager SpecError Speculation := λ mgr,
  match specs mgr !! h with
  | Some spec => (Ok spec, set_specs mgr (delete h (specs mgr)))
  | None => (Err (SpecNotFound h), mgr)
  end.

Definition spec_commit (h : SpecHandle) : stateful SpeculationManager SpecError (ObjectId * string) :=
  spec ← spec_remove h; mret (spec_current_root spec, spec_base_ref spec).

Definition spec_commit_with_base (h : SpecHandle) :
    stateful SpeculationManager SpecError (ObjectId * ObjectId * string) :=
  spec ← spec_remove h;
  mret (spec_current_root spec, spec_base_root spec, spec_base_ref spec).

Definition spec_discard (h : SpecHandle) : stateful SpeculationManager SpecError () :=
  _ ← spec_remove h; mret ().

Definition spec_current (mgr : SpeculationManager) (h : SpecHandle) : result SpecError ObjectId :=
  spec ← find_spec mgr h; Ok (spec_current_root spec).

(** In the iteration order of a [HashMap], which is unspecified. *)
Definition spec_list (mgr : SpeculationManager) : list (SpecHandle * option string) :=
  (λ hs, (hs.1, spec_label hs.2)) <$> map_to_list (specs mgr).

Definition spec_count (mgr : SpeculationManager) : nat := size (specs mgr).

(** ** The overlay is a store *)

Section overlay.
Context `{CH : ContentHash} {S : Type} `{OS : !ObjectStore S, !ObjectStoreLaws S, RS : !Reliable S}.

Lemma resolve_to_object_spec (o : OverlayStore S) i :
  resolve_to_object o i = (ov_overlay o ∪ contents (ov_store o)) !! i.
Proof.
  unfold resolve_to_object. rw lookup_union get_total.
  by destruct (ov_overlay o !! i), (contents (ov_store o) !! i).
Qed.

(** Over a store that does not fail, the overlay in front of it satisfies the
    store interface too, so that what is proved of trees holds through it. *)
#[export] Program Instance overlay_laws : ObjectStoreLaws (OverlayStore S) := {|
  contents o := ov_overlay o ∪ contents (ov_store o);
|}.
Next Obligation. intros o i r [= <-]. apply resolve_to_object_spec. Qed.
Next Obligation.
  intros o x i o'. simpl. destruct (put_object x (ov_store o)) as [r s'] eqn:Hp. intros [= -> <-].
  apply put_object_law in Hp as [-> Hc]. simpl. split; [done|]. by rw Hc map_union_assoc.
Qed.
Next Obligation.
  intros o x e o'. simpl. destruct (put_object x (ov_store o)) as [r s'] eqn:Hp. intros [= -> <-].
  apply put_object_err in Hp. simpl. by rw Hp.
Qed.
Next Obligation.
  intros o i b. simpl. rw has_total lookup_union. intros [= <-].
  by destruct (ov_overlay o !! i), (contents (ov_store o) !! i).
Qed.

#[export] Instance overlay_reliable : Reliable (OverlayStore S).
Proof.
  split.
  - intros o i. simpl. f_equal. apply resolve_to_object_spec.
  - intros x o. simpl. destruct (put_total x (ov_store o)) as [s' ->]. by eexists.
  - intros o i. simpl. rw has_total lookup_union.
    by destruct (ov_overlay o !! i), (contents (ov_store o) !! i).
Qed.
End overlay.

(** ** Speculations side by side *)

Section steps.
Context `{CH : ContentHash} {S : Type} `{OS : !ObjectStore S, !ObjectStoreLaws S}.
Context `{CF : !CollisionFree}.

Abbreviation world := (SpeculationManager * S)%type.

(** What may happen between two uses of a speculation, and the handle it is
    done to: the manager's operations, another manager of the process taking a
    handle, and anyone writing objects to the store. *)
Inductive spec_step : option SpecHandle → world → world → Prop :=
  | step_create base_ref base_root label mgr s :
      spec_step None (mgr, s) ((spec_create base_ref base_root label mgr).2, s)
  | step_set h path v ms : finite v → spec_step (Some h) ms (spec_set h path v ms).2
  | step_delete h path ms : spec_step (Some h) ms (spec_delete h path ms).2
  | step_commit h mgr s : spec_step (Some h) (mgr, s) ((spec_commit h mgr).2, s)
  | step_commit_with_base h mgr s :
      spec_step (Some h) (mgr, s) ((spec_commit_with_base h mgr).2, s)
  | step_discard h mgr s : spec_step (Some h) (mgr, s) ((spec_discard h mgr).2, s)
  | step_elsewhere mgr s :
      spec_step None (mgr, s)
        ({| specs := specs mgr; next_spec_id := (next_spec_id mgr + 1) mod 2 ^ 64 |}, s)
  | step_store mgr s s' : extends s s' → spec_step None (mgr, s) (mgr, s').

(** The manager's invariant: the bound on live speculations, handles all handed
    out already, and the overlay nothing writes to. *)
Definition specs_ok (mgr : SpeculationManager) : Prop :=
  size (specs mgr) ≤ MAX_LIVE_SPECULATIONS ∧
  map_Forall (λ h sp, (h < next_spec_id mgr)%N ∧ spec_overlay sp = ∅) (specs mgr).

(** Where a speculation came from. *)
Definition spec_origin (sp : Speculation) : option string * string * ObjectId :=
  (spec_label sp, spec_base_ref sp, spec_base_root sp).

(** An edit of speculation [h]: it fails and leaves the manager alone, or it
    moves the root of [h] as [Q] says; the store only grows. *)
Definition edited (h : SpecHandle) (Q : Speculation → ObjectId → S → Prop) (ms : world)
    (out : result SpecError () * world) : Prop :=
  extends ms.2 out.2.2 ∧
  match out.1 with
  | Err _ => out.2.1 = ms.1
  | Ok _ => ∃ sp root, specs ms.1 !! h = Some sp ∧ Q sp root out.2.2 ∧
      out.2.1 = set_specs ms.1 (<[h := spec_with_root sp root]> (specs ms.1))
  end.

Definition any_two : relation S := λ _ _, True.
#[local] Instance any_two_preorder : PreOrder any_two.
Proof. by split. Qed.
Lemma any_put o (s : S) r s' : put_object o s = (r, s') → any_two s s'.
Proof. done. Qed.

Lemma spec_set_edited h path v mgr s :
  addressed (contents s) → finite v →
  edited h (λ sp root s', ∃ p s1, parse path = Ok p ∧ extends s s1 ∧
      tree_set (spec_current_root sp) p v s1 = (Ok root, s')) (mgr, s) (spec_set h path v (mgr, s)).
Proof.
  intros Hs Hv. pose proof (extends_refl s Hs) as H0. unfold edited, spec_set, find_spec, parse_spec_path.
  unfold mbind, stateful_bind, reading, lift, on_store, update_root. simpl.
  destruct (specs mgr !! h) as [sp|] eqn:Hsp; simpl; [|done].
  destruct (parse path) as [p|e] eqn:Hp; simpl; [|done].
  pose proof (grows_store_object any_two any_put v Hv s) as Hg. unfold store_object, map_err_st in Hg.
  destruct (put_object v s) as [[i|e] s1] eqn:Hput; simpl; destruct (Hg _ _ Hs eq_refl) as [He1 _]; [|done].
  pose proof (tree_set_grows any_two any_put (spec_current_root sp) p v Hv s1) as Hg2.
  destruct (tree_set (spec_current_root sp) p v s1) as [[root|e] s2] eqn:Hset; simpl;
    destruct (Hg2 _ _ (proj1 He1) eq_refl) as [He2 _];
    (split; [by eapply extends_trans|]); [|done].
  exists sp, root. split_and!; [done| |done]. by exists p, s1.
Qed.

Lemma spec_delete_edited h path mgr s :
  addressed (contents s) →
  edited h (λ sp root s', ∃ p, parse path = Ok p ∧
      tree_delete (spec_current_root sp) p s = (Ok root, s')) (mgr, s) (spec_delete h path (mgr, s)).
Proof.
  intros Hs. pose proof (extends_refl s Hs) as H0. unfold edited, spec_delete, find_spec, parse_spec_path.
  unfold mbind, stateful_bind, reading, lift, on_store, update_root. simpl.
  destruct (specs mgr !! h) as [sp|] eqn:Hsp; simpl; [|done].
  destruct (parse path) as [p|e] eqn:Hp; simpl; [|done].
  pose proof (tree_delete_grows any_two any_put (spec_current_root sp) p s) as Hg2.
  destruct (tree_delete (spec_current_root sp) p s) as [[root|e] s2] eqn:Hset; simpl;
    destruct (Hg2 _ _ Hs eq_refl) as [He2 _]; (split; [done|]); [|done].
  exists sp, root. split_and!; [done| |done]. by exists p.
Qed.

(** What a step does to the speculations: it opens one under the next handle,
    moves the root of the one it is done to, closes it, or does nothing. *)
Definition spec_effect (t : option SpecHandle) (mgr mgr' : SpeculationManager) : Prop :=
  specs mgr' = specs mgr ∧
    (next_spec_id mgr' = next_spec_id mgr ∨ next_spec_id mgr' = (next_spec_id mgr + 1) mod 2 ^ 64)%N ∨
  (∃ sp, spec_overlay sp = ∅ ∧ (size (specs mgr) < MAX_LIVE_SPECULATIONS)%nat ∧
     specs mgr' = <[next_spec_id mgr := sp]> (specs mgr) ∧
     next_spec_id mgr' = (next_spec_id mgr + 1) mod 2 ^ 64)%N ∨
  (∃ h, t = Some h ∧ next_spec_id mgr' = next_spec_id mgr ∧
     ((∃ sp root, specs mgr !! h = Some sp ∧
         specs mgr' = <[h := spec_with_root sp root]> (specs mgr)) ∨
      specs mgr' = delete h (specs mgr))).

Lemma edited_effect h Q ms out : edited h Q ms out → spec_effect (Some h) ms.1 out.2.1.
Proof.
  intros [_ H]. destruct (out.1); [|rw H; left; auto].
  destruct H as (sp & root & Hsp & _ & ->). right; right. exists h. split_and!; [done..|].
  left. by exists sp, root.
Qed.

Lemma spec_remove_effect h (mgr : SpeculationManager) :
  spec_effect (Some h) mgr (spec_remove h mgr).2.
Proof.
  unfold spec_remove. destruct (specs mgr !! h); simpl; [|left; auto].
  right; right. exists h. split_and!; [done..|]. by right.
Qed.

Lemma spec_step_effect t ms ms' :
  addressed (contents ms.2) → spec_step t ms ms' →
  extends ms.2 ms'.2 ∧ spec_effect t ms.1 ms'.1.
Proof.
  intros Hs Hst. pose proof (extends_refl _ Hs).
  destruct Hst as [| h path v [mgr s] Hv | h path [mgr s] |h mgr s|h mgr s|h mgr s| |]; simpl in *.
  - split; [done|]. unfold spec_create. case_bool_decide; simpl; [left; auto|].
    right; left. eexists. split_and!; [|lia|done..]. done.
  - pose proof (spec_set_edited h path v mgr s Hs Hv) as He.
    split; [apply He|by eapply edited_effect in He].
  - pose proof (spec_delete_edited h path mgr s Hs) as He.
    split; [apply He|by eapply edited_effect in He].
  - split; [done|]. pose proof (spec_remove_effect h mgr) as He. unfold spec_commit, mbind, stateful_bind.
    destruct (spec_remove h mgr) as [[]]; done.
  - split; [done|]. pose proof (spec_remove_effect h mgr) as He.
    unfold spec_commit_with_base, mbind, stateful_bind. destruct (spec_remove h mgr) as [[]]; done.
  - split; [done|]. pose proof (spec_remove_effect h mgr) as He.
    unfold spec_discard, mbind, stateful_bind. destruct (spec_remove h mgr) as [[]]; done.
  - split; [done|]. left. auto.
  - split; [done|]. left. auto.
Qed.

Lemma spec_effect_ok t mgr mgr' :
  spec_effect t mgr mgr' → specs_ok mgr → (next_spec_id mgr + 1 < 2 ^ 64)%N →
  specs_ok mgr' ∧ (next_spec_id mgr ≤ next_spec_id mgr' ≤ next_spec_id mgr + 1)%N ∧
  ∀ h, (h < next_spec_id mgr)%N →
    (t ≠ Some h → specs mgr' !! h = specs mgr !! h) ∧
    ∀ sp', specs mgr' !! h = Some sp' → ∃ sp, specs mgr !! h = Some sp ∧ spec_origin sp = spec_origin sp'.
Proof.
  intros He [Hsz Hall] Hn. unfold specs_ok. destruct He as [[Hm He]|[He|He]].
  - rw Hm. rewrite N.mod_small // in He. split_and!; [lia| |lia|lia|].
    + intros h sp Hsp. destruct (Hall h sp Hsp). split; [lia|done].
    + intros h _. split; [done|]. eauto.
  - destruct He as (sp & Hov & Hlt & Hm & Hx). rewrite N.mod_small // in Hx. rw Hm Hx.
    split_and!; [| |lia|lia|].
    + rw map_size_insert. case_match; [done|lia].
    + intros h sp' [[<- <-]|[_ Hsp]]%lookup_insert_Some; [split; [lia|done]|].
      destruct (Hall h sp' Hsp). split; [lia|done].
    + intros h Hh. rw lookup_insert_ne; [|lia]. split; [done|]. eauto.
  - destruct He as (k & -> & Hx & He). rw Hx. destruct He as [(sp & root & Hsp & Hm)| Hm]; rw Hm.
    + split_and!; [| |lia|lia|].
      * rw map_size_insert Hsp. done.
      * intros h sp'. rw lookup_insert_Some. intros [[<- <-]|[_ Hsp']]; [|by apply Hall].
        apply (Hall _ _ Hsp).
      * intros h _. destruct (decide (k = h)) as [<-|Hne].
        { rw lookup_insert_eq. split; [done|]. intros ? [= <-]. by exists sp. }
        rw lookup_insert_ne //. eauto.
    + split_and!; [| |lia|lia|].
      * rw map_size_delete. unfold id. case_match; lia.
      * intros h sp' [_ Hsp]%lookup_delete_Some. by apply Hall.
      * intros h _. split; [intros Hne; rw lookup_delete_ne; [done|by intros ->]|].
        intros sp' [_ Hsp]%lookup_delete_Some. eauto.
Qed.

(** Runs of [n] steps, each with a handle that satisfies [P]. *)
Definition spec_run (P : option SpecHandle → Prop) : nat → world → world → Prop :=
  nsteps (λ ms ms', ∃ t, P t ∧ spec_step t ms ms').

Lemma spec_run_ok P n ms ms' :
  spec_run P n ms ms' → addressed (contents ms.2) → specs_ok ms.1 →
  (next_spec_id ms.1 + N.of_nat n < 2 ^ 64)%N →
  specs_ok ms'.1 ∧ extends ms.2 ms'.2 ∧ (next_spec_id ms.1 ≤ next_spec_id ms'.1)%N ∧
  ∀ h, (h < next_spec_id ms.1)%N →
    (¬ P (Some h) → specs ms'.1 !! h = specs ms.1 !! h) ∧
    ∀ sp', specs ms'.1 !! h = Some sp' →
      ∃ sp, specs ms.1 !! h = Some sp ∧ spec_origin sp = spec_origin sp'.
Proof.
  induction 1 as [ms|n ms ms1 ms' (t & Ht & Hstep) Hrun IH]; intros Hs Hok Hn.
  { split_and!; [done|by apply extends_refl|lia|]. eauto. }
  apply spec_step_effect in Hstep as [Hext Heff]; [|done].
  apply spec_effect_ok in Heff as (Hok1 & Hx & Hh); [|done|lia].
  destruct IH as (Hok' & Hext' & Hx' & Hh'); [apply Hext|done|lia|].
  split_and!; [done|by eapply extends_trans|lia|]. intros h Hlt.
  destruct (Hh h Hlt) as [Hsame Horig]. destruct (Hh' h) as [Hsame' Horig']; [lia|]. split.
  - intros HP. rw Hsame' // Hsame //. by intros ->.
  - intros sp' (sp1 & Hsp1 & <-)%Horig'. by apply Horig.
Qed.
End steps.

Lemma specs_new_ok : specs_ok specs_new.
Proof. split; [apply Nat.le_0_l|apply map_Forall_empty]. Qed.

Section reads.
Context `{CH : ContentHash} {S : Type} `{OS : !ObjectStore S, !ObjectStoreLaws S}.
Context `{CF : !CollisionFree, RS : !Reliable S}.

(** A read of a speculation whose overlay is empty is a read of the store. *)
Lemma spec_get_ok (mgr : SpeculationManager) (s : S) h path o :
  specs_ok mgr →
  spec_get mgr s h path = Ok o ↔
  ∃ sp p, specs mgr !! h = Some sp ∧ parse path = Ok p ∧
    value_at (contents s) (spec_current_root sp) p = Some o.
Proof.
  intros [_ Hall]. unfold spec_get, find_spec, parse_spec_path.
  destruct (specs mgr !! h) as [sp|] eqn:Hsp; simpl; [|naive_solver].
  destruct (Hall h sp Hsp) as [_ Hov]. destruct (parse path) as [p|e]; simpl; [|naive_solver].
  rw result_bind_ok. setoid_rewrite ok_or_ok. setoid_rewrite map_err_ok. setoid_rewrite tree_get_total.
  setoid_rewrite resolve_to_object_spec. simpl. rw Hov. rw map_empty_union. split.
  - intros (x & _ & Hv). by exists sp, p.
  - intros (? & ? & [= <-] & [= <-] & Hv). pose proof Hv as (x & Hx & _)%value_at_inv. by exists x.
Qed.
End reads.

(** ** Properties *)

(** C35: over any run of the operations on a manager, its speculations and the
    store (fewer than 2^64 steps, so that the handle counter does not wrap),
    there are never more live speculations than the cap, a handle once handed
    out and closed is never live again, a live one keeps the label, base ref
    and base root it was created with, and the store only grows. *)
Theorem spec_lifecycle `{CH : ContentHash} {S : Type} `{OS : !ObjectStore S, !ObjectStoreLaws S}
    `{CF : !CollisionFree} n (ms ms' : SpeculationManager * S) :
  spec_run (λ _, True) n ms ms' → addressed (contents ms.2) → specs_ok ms.1 →
  (next_spec_id ms.1 + N.of_nat n < 2 ^ 64)%N →
  specs_ok ms'.1 ∧ spec_count ms'.1 ≤ MAX_LIVE_SPECULATIONS ∧ extends ms.2 ms'.2 ∧
  ∀ h, (h < next_spec_id ms.1)%N →
    (specs ms.1 !! h = None → specs ms'.1 !! h = None) ∧
    ∀ sp sp', specs ms.1 !! h = Some sp → specs ms'.1 !! h = Some sp' → spec_origin sp' = spec_origin sp.
Proof.
  intros Hrun Hs Hok Hn. destruct (spec_run_ok _ _ _ _ Hrun Hs Hok Hn) as (Hok' & Hext & _ & Hh).
  split_and!; [done|apply Hok'|done|]. intros h Hlt. destruct (Hh h Hlt) as [_ Ho]. split.
  - intros Hnone. destruct (specs ms'.1 !! h) as [sp'|]; [|done].
    destruct (Ho sp' eq_refl) as (sp & Hsp & _). congruence.
  - intros sp sp' Hsp (sp0 & Hsp0 & He)%Ho. congruence.
Qed.

(** C34: isolation. Whatever other speculations do, and whatever is written to
    the store meanwhile, a speculation that is not itself operated on stays
    open with the same root and every value it could read it still reads. *)
Theorem spec_isolated `{CH : ContentHash} {S : Type} `{OS : !ObjectStore S, !ObjectStoreLaws S}
    `{CF : !CollisionFree, RS : !Reliable S} n h sp (ms ms' : SpeculationManager * S) :
  spec_run (λ t, t ≠ Some h) n ms ms' → addressed (contents ms.2) → specs_ok ms.1 →
  (next_spec_id ms.1 + N.of_nat n < 2 ^ 64)%N → specs ms.1 !! h = Some sp →
  specs ms'.1 !! h = Some sp ∧
  ∀ path o, spec_get ms.1 ms.2 h path = Ok o → spec_get ms'.1 ms'.2 h path = Ok o.
Proof.
  intros Hrun Hs Hok Hn Hsp.
  destruct (spec_run_ok _ _ _ _ Hrun Hs Hok Hn) as (Hok' & [_ Hext] & _ & Hh).
  destruct (Hh h) as [Hsame _]; [by apply (proj2 Hok h sp)|].
  assert (specs ms'.1 !! h = Some sp) as Hsp' by (rw Hsame; [done|naive_solver]).
  split; [done|]. intros path o. rw !spec_get_ok //.
  intros (? & p & Hsp0 & Hp & (i & Hl & Ho)%bind_Some). simplify_eq.
  exists sp, p. split_and!; [done..|]. apply bind_Some. exists i.
  split; [by eapply locate_mono|by eapply lookup_weaken].
Qed.

(** What a speculation writes it reads back, at the path written; all its
    paths that do not lead through that one find what they found before, the
    base root it will be compared to and merged from does not move, no other
    speculation does, and a failed write changes no speculation at all. *)
Theorem spec_set_reads_back `{CH : ContentHash} {S : Type} `{OS : !ObjectStore S, !ObjectStoreLaws S}
    `{CF : !CollisionFree, RS : !Reliable S} (mgr mgr' : SpeculationManager) (s s' : S) h path v r :
  addressed (contents s) → finite v → specs_ok mgr →
  spec_set h path v (mgr, s) = (r, (mgr', s')) →
  match r with
  | Err _ => mgr' = mgr
  | Ok _ => ∃ sp root, specs mgr !! h = Some sp ∧
      specs mgr' = <[h := spec_with_root sp root]> (specs mgr) ∧
      spec_get mgr' s' h path = Ok v ∧
      ∀ p q, parse path = Ok p → diverge p q →
        locate (contents s') root q = locate (contents s') (spec_current_root sp) q
  end.
Proof.
  intros Hs Hv Hok Hrun. pose proof (spec_set_edited h path v mgr s Hs Hv) as [_ He].
  rewrite Hrun in He. simpl in He. destruct r as [[]|e]; [|done].
  destruct He as (sp & root & Hsp & (p & s1 & Hp & He1 & Hset) & ->). exists sp, root.
  apply tree_set_ok in Hset as [_ Hm]; [|apply He1|done].
  destruct (Hm (contents s')) as (Hval & _ & Hdiv); [done|].
  split_and!; [done|done| |intros p' q Hp'; replace p' with p by congruence; apply Hdiv].
  apply spec_get_ok.
  { destruct Hok as [Hsz Hall]. split; simpl.
    - rw map_size_insert Hsp. done.
    - apply map_Forall_insert_2; [|done]. apply (Hall _ _ Hsp). }
  exists (spec_with_root sp root), p. split_and!; [apply lookup_insert_eq|done|done].
Qed.

Section witnesses.
Import Plain.

Definition two_specs : SpeculationManager :=
  (spec_create "main" (oid_of tree_root) None
     (spec_create "main" (oid_of tree_root) (Some "try") specs_new).2).2.

Lemma two_specs_ok : specs_ok two_specs.
Proof.
  split; [apply Nat.leb_le; by vm_compute|]. apply map_Forall_insert_2; [by vm_compute|].
  apply map_Forall_insert_2; [by vm_compute|apply map_Forall_empty].
Qed.

Definition first_spec : Speculation := {|
  spec_label := Some "try"; spec_base_ref := "main"; spec_base_root := oid_of tree_root;
  spec_current_root := oid_of tree_root; spec_overlay := ∅ |}.

(** The second speculation writes, is committed, and the first reads on. *)
Definition after_set : SpeculationManager * MemoryStorage :=
  (spec_set 2%N "/a/b/c" written (two_specs, tree_store)).2.
Definition after_commit : SpeculationManager * MemoryStorage :=
  ((spec_commit 2%N after_set.1).2, after_set.2).

Lemma two_steps P : P (Some 2%N) → spec_run P 2 (two_specs, tree_store) after_commit.
Proof.
  intros HP. apply (nsteps_l _ _ _ after_set); [|apply (nsteps_l _ _ _ after_commit); [|constructor]].
  - exists (Some 2%N). split; [done|]. by apply step_set.
  - exists (Some 2%N). split; [done|]. unfold after_commit.
    generalize after_set as ms. intros [mgr s]. apply step_commit.
Qed.

Lemma spec_lifecycle_witness : specs_ok after_commit.1 ∧ spec_count after_commit.1 = 1.
Proof.
  split; [|by vm_compute].
  refine (proj1 (spec_lifecycle 2 (two_specs, tree_store) after_commit (two_steps _ I) _ _ _)).
  - apply tree_store_addressed.
  - apply two_specs_ok.
  - by vm_compute.
Defined.

Lemma spec_isolated_witness :
  spec_get after_commit.1 after_commit.2 1%N "/a/x" = Ok leaf.
Proof.
  refine (proj2 (spec_isolated 2 1%N first_spec (two_specs, tree_store) after_commit
                   _ _ _ _ _) "/a/x" leaf _).
  - by apply two_steps.
  - apply tree_store_addressed.
  - apply two_specs_ok.
  - done.
  - by vm_compute.
  - by vm_compute.
Defined.

Lemma spec_set_reads_back_witness :
  spec_get after_set.1 after_set.2 2%N "/a/b/c" = Ok written.
Proof.
  destruct (spec_set 2%N "/a/b/c" written (two_specs, tree_store)) as [r [mgr' s']] eqn:Hrun.
  assert (r = Ok ()) as -> by (apply (f_equal fst) in Hrun; revert Hrun; vm_compute; congruence).
  assert (finite written) as Hv by done.
  pose proof (spec_set_reads_back _ _ _ _ _ _ _ _ tree_store_addressed Hv two_specs_ok Hrun)
    as (_ & _ & _ & _ & H & _).
  unfold after_set. by rw Hrun.
Defined.
End witnesses.
