(* ===== verification/Guards.v ===== *)
(** * Guards: what a write must pass before it is made

    Models the errors and the guards of [agentstategraph/src/repo.rs], and the
    pre-commit taint hook of [agentstategraph/src/taint.rs]: reserved paths and
    refs, the category of a commit, and the taints on the paths written. *)
From S2P Require Import Prelude Objects Paths Json Intents Commits Taints Stores Memory Diffs Merges.
From S2P Require Import Trees Specs.

(** ** Errors *)

Inductive TaintError : Type :=
  | BlockedBy (path taint reason : string)
  | NotAuthorized (path agent_id : string)
  | InsufficientConfidence (path taint : string) (required got : Z)
  | TaintNotFound (id : string)
  | AlreadyResolved (id : string)
  | TaintStorage (s : string)
  | InvalidTaint (s : string).

Inductive RepoError : Type :=
  | BranchNotFound (name : string)
  | BranchAlreadyExists (name : string)
  | RefMissing (name : string)
  | CommitMissing (id : string)
  | AmbiguousCommitPrefix (prefix : string) (count : nat)
  | NotInitialized
  | ReservedPath (path : string)
  | MergeConflicts (l : list Conflict)
  | MergeWouldDelete (keys : list string)
  | IntegrityViolation (root missing : ObjectId)
  | WriteConflict
  | SpeculationError (e : SpecError)
  | TreeErr (e : TreeError)
  | StorageErr (e : StorageError)
  | EpochSealViolated (epoch_id : string) (unreachable_commits : list ObjectId)
  | InvalidOp (msg : string)
  | CommitRefNotAllowed (name : string)
  | ReservedRef (name : string)
  | NamespaceMissing (name : string)
  | CrossNamespaceAccessDenied
  | TaintRefused (source : TaintError) (taint_id : option string).

Definition repo_error_code (e : RepoError) : string :=
  match e with
  | BranchNotFound _ => "branch_not_found"
  | BranchAlreadyExists _ => "branch_already_exists"
  | RefMissing _ => "ref_not_found"
  | CommitMissing _ => "commit_not_found"
  | AmbiguousCommitPrefix _ _ => "ambiguous_commit_prefix"
  | NotInitialized => "not_initialized"
  | ReservedPath _ => "reserved_path"
  | MergeConflicts _ => "merge_conflict"
  | MergeWouldDelete _ => "merge_would_delete"
  | IntegrityViolation _ _ => "integrity_violation"
  | WriteConflict => "write_conflict"
  | SpeculationError e => spec_error_code e
  | TreeErr e => tree_error_code e
  | StorageErr e => storage_error_code e
  | EpochSealViolated _ _ => "epoch_sealed"
  | InvalidOp _ => "invalid_operation"
  | CommitRefNotAllowed _ => "commit_ref_not_allowed"
  | ReservedRef _ => "reserved_ref"
  | NamespaceMissing _ => "namespace_not_found"
  | CrossNamespaceAccessDenied => "cross_namespace_denied"
  | TaintRefused _ _ => "taint_blocked"
  end.

(** ** Reserved paths and refs *)

Definition META_PATH_PREFIX : string := "/_meta".
Definition META_SECRET_PREFIX : string := "/_meta/_secret".
Definition META_SCHEMA_VERSION_PATH : string := "/_meta/schema_version".
Definition SCHEMA_VERSION : string := "0.4.0".
Definition TRACKING_PREFIX : string := "remotes/".
Definition CONTROL_REF : string := "_control".
Definition CONTROL_PREFIX : string := "_control".

Definition path_is_reserved (path : string) : bool :=
  bool_decide (path = META_PATH_PREFIX) || starts_with (META_PATH_PREFIX +:+ "/") path.

Definition path_is_secret (path : string) : bool :=
  bool_decide (path = META_SECRET_PREFIX) || starts_with (META_SECRET_PREFIX +:+ "/") path.

Definition is_taint_lifecycle_intent (category : IntentCategory) : bool :=
  match category with
  | Intents.Taint | Untaint | Quarantine | Unquarantine | Watch | Unwatch => true
  | _ => false
  end.

Definition is_migrate (c : IntentCategory) : bool := bool_decide (c = Migrate).

Definition check_meta_guard (path : string) (i : Intent) : result RepoError () :=
  if path_is_reserved path && negb (is_migrate (category i)) then Err (ReservedPath path) else Ok ().

Definition check_secret_read_guard (path : string) (i : Intent) : result RepoError () :=
  if path_is_secret path && negb (is_migrate (category i)) then Err (ReservedPath path) else Ok ().

Definition is_reserved_ref (name : string) : bool := starts_with CONTROL_PREFIX name.

Definition is_tracking_ref (name : string) : bool := starts_with TRACKING_PREFIX name.

Definition refuse_reserved_ref (name : string) : result RepoError () :=
  if is_reserved_ref name || is_tracking_ref name then Err (ReservedRef name) else Ok ().

Definition refuse_deleting_main (name : string) : result RepoError () :=
  if decide (name = "main")
  then Err (InvalidOp ("refusing to delete 'main': every branch forks from it, and the next "
                       +:+ "init() would replace it with an empty one"))
  else Ok ().

(** The path an operation of a diff touches. *)
Definition op_path (op : DiffOp) : string :=
  match op with
  | AddKey path key _ | RemoveKey path key _ =>
      if bool_decide (path = "/") || bool_decide (path = EmptyString)
      then "/" +:+ key else path +:+ "/" +:+ key
  | SetValue path _ _ | AddElement path _ _ | RemoveElement path _ _
  | AddToSet path _ | RemoveFromSet path _ | ChangeType path _ _ => path
  end.

Definition reserved_path_in_diff (diff : list DiffOp) : option string :=
  List.find path_is_reserved (op_path <$> diff).

(** ** Commit options *)

Record CommitOptions := {
  opt_agent_id : AgentId;
  opt_authority : Authority;
  opt_intent : Intent;
  opt_reasoning : option string;
  opt_confidence : option Z;
  opt_tool_calls : list ToolCall;
}.

(** ** The pre-commit taint hook *)

Definition is_authorized (agent : string) (q : Taint) : bool :=
  bool_decide (agent ∈ authorized_agents q).

Definition effect_is (e : TaintEffect) (t : Taint) : bool := bool_decide (effect t = e).

Definition taint_err_with_id (source : TaintError) (id : string) : RepoError :=
  TaintRefused source (Some id).

Definition taint_warning (t : Taint) : string :=
  "taint " +:+ taint_name t +:+ " on " +:+ taint_path t +:+ ": " +:+ taint_reason t.

(** The body of the loop for one path. *)
Definition taint_check_path (s : MemoryStorage) (now : Time) (agent : string) (conf : Z)
    (p : string) : result RepoError (list string) :=
  let check := evaluate_access p agent conf (check_taint s p now) now in
  let refusal :=
    if can_write check then None else
    match List.find (λ q, negb (is_authorized agent q)) (quarantines check) with
    | Some q => Some (taint_err_with_id (NotAuthorized p agent) (taint_id q))
    | None =>
        match List.find (effect_is Block) (taints check) with
        | Some t => Some (taint_err_with_id (BlockedBy p (taint_name t) (taint_reason t)) (taint_id t))
        | None =>
            match List.find (effect_is Review) (taints check) with
            | Some t => Some (taint_err_with_id
                (InsufficientConfidence p (taint_name t) (required_confidence check) conf) (taint_id t))
            | None => None
            end
        end
    end in
  match refusal with
  | Some e => Err e
  | None => Ok (taint_warning <$>
              List.filter (λ t, effect_is Warn t || effect_is Isolate t) (taints check))
  end.

Definition pre_commit_taint_check (s : MemoryStorage) (now : Time) (paths : list string)
    (options : CommitOptions) : result RepoError (list string) :=
  let confidence := default f64_one (opt_confidence options) in
  warnings ← traverse (taint_check_path s now (opt_agent_id options) confidence) paths;
  Ok (concat warnings).

(** ** What the guards let through *)

Definition low_confidence (conf : Z) (t : Taint) : bool :=
  needs_review t && f64_ltb conf REVIEW_CONFIDENCE_THRESHOLD.

(** Why a record refuses a write to [p], and the error that says so. *)
Definition refuses (agent : string) (conf : Z) (p : string) (t : Taint) (e : RepoError) : Prop :=
  (kind t = KQuarantine ∧ agent ∉ authorized_agents t ∧
     e = taint_err_with_id (NotAuthorized p agent) (taint_id t)) ∨
  (kind t = KTaint ∧ effect t = Block ∧
     e = taint_err_with_id (BlockedBy p (taint_name t) (taint_reason t)) (taint_id t)) ∨
  (needs_review t ∧ f64_ltb conf REVIEW_CONFIDENCE_THRESHOLD ∧
     e = taint_err_with_id (InsufficientConfidence p (taint_name t) REVIEW_CONFIDENCE_THRESHOLD conf)
           (taint_id t)).

Definition warns (t : Taint) : Prop := kind t = KTaint ∧ (effect t = Warn ∨ effect t = Isolate).

Lemma List_find_None {A} (p : A → bool) (l : list A) :
  List.find p l = None → ∀ x, x ∈ l → p x = false.
Proof. intros H x Hx. eapply List.find_none; [done|]. by apply list_elem_of_In. Qed.

Lemma needs_review_spec t : needs_review t ↔ kind t = KTaint ∧ effect t = Review.
Proof. unfold needs_review. destruct (kind t), (effect t); naive_solver. Qed.

Lemma blocks_spec agent t :
  blocks agent t ↔
  kind t = KTaint ∧ effect t = Block ∨ kind t = KQuarantine ∧ agent ∉ authorized_agents t.
Proof.
  unfold blocks. destruct (kind t); [destruct (effect t); naive_solver| |naive_solver].
  rw bool_decide_spec. naive_solver.
Qed.

(** What the check of a path reports, in terms of the records of the store. *)
Lemma hook_check_fields s now agent conf p :
  let l := check_taint s p now in
  let c := evaluate_access p agent conf l now in
  (can_write c →
     (∀ t, t ∈ l → ¬ blocks agent t) ∧ (∀ t, t ∈ l → needs_review t → ¬ low_confidence conf t)) ∧
  (∀ t, t ∈ taints c ↔ t ∈ l ∧ kind t = KTaint) ∧
  (∀ t, t ∈ quarantines c ↔ t ∈ l ∧ kind t = KQuarantine) ∧
  (∀ t, t ∈ l → needs_review t → required_confidence c = REVIEW_CONFIDENCE_THRESHOLD) ∧
  (can_write c = false → (∃ t, t ∈ l ∧ blocks agent t) ∨
     ¬ (∃ t, t ∈ l ∧ needs_review t) ∨ f64_ltb conf REVIEW_CONFIDENCE_THRESHOLD).
Proof.
  intros l c. destruct (evaluate_access_fields p agent conf l now) as (Hc & Hr & Ht & Hq & _).
  fold c in Hc, Hr, Ht, Hq.
  assert (ancestor_candidates p l now = l) as Hl by apply List_filter_idem. rewrite Hl in Hc Hr Ht Hq.
  assert (∀ f, existsb f l = true ↔ ∃ t, t ∈ l ∧ f t) as Hex.
  { intros f. rw existsb_exists. setoid_rewrite list_elem_of_In. by setoid_rewrite Is_true_true. }
  assert (∀ t, t ∈ l → needs_review t → existsb needs_review l = true) as Hn by (intros; apply Hex; eauto).
  split_and!.
  - rw Hc andb_True !negb_True. intros [Hb Hf]. split.
    + intros t Hin Hbl. apply Hb, Is_true_true, Hex. eauto.
    + intros t Hin Hnr. rewrite (Hn t Hin Hnr) in Hf. unfold low_confidence. rw andb_True. tauto.
  - intros t. by rw Ht elem_of_List_filter bool_decide_spec.
  - intros t. by rw Hq elem_of_List_filter bool_decide_spec.
  - intros t Hin Hnr. by rw Hr (Hn t Hin Hnr).
  - rw Hc. destruct (existsb (blocks agent) l) eqn:Eb; [left; by apply Hex|].
    destruct (existsb needs_review l) eqn:En; simpl; [right; right|right; left].
    + by destruct (f64_ltb conf _).
    + rw -Hex En. done.
Qed.

Lemma taint_check_path_spec s now agent conf p :
  match taint_check_path s now agent conf p with
  | Ok ws =>
      (∀ t, t ∈ mem_taints s → applies p now t → ¬ blocks agent t ∧ ¬ low_confidence conf t) ∧
      ∀ w, w ∈ ws ↔ ∃ t, t ∈ mem_taints s ∧ applies p now t ∧ warns t ∧ w = taint_warning t
  | Err e => ∃ t, t ∈ mem_taints s ∧ applies p now t ∧ refuses agent conf p t e
  end.
Proof.
  unfold taint_check_path. destruct (hook_check_fields s now agent conf p) as (Hcan & Ht & Hq & Hr & Hno).
  set (c := evaluate_access _ _ _ _ _) in *.
  assert (∀ t, t ∈ check_taint s p now ↔ t ∈ mem_taints s ∧ applies p now t) as Hl
    by (intros; apply elem_of_List_filter).
  assert (∀ w, w ∈ taint_warning <$> List.filter (λ t, effect_is Warn t || effect_is Isolate t) (taints c)
    ↔ ∃ t, t ∈ mem_taints s ∧ applies p now t ∧ warns t ∧ w = taint_warning t) as Hw.
  { intros w. rw list_elem_of_fmap. setoid_rewrite elem_of_List_filter. setoid_rewrite Ht.
    setoid_rewrite Hl. setoid_rewrite orb_True. unfold effect_is, warns.
    setoid_rewrite bool_decide_spec. naive_solver. }
  destruct (can_write c) eqn:Hc.
  { destruct (Hcan I) as [Hb Hlow]. split; [|done]. intros t Hin Ha.
    split; [apply Hb, Hl; done|]. intros Hlc. eapply (Hlow t); [by apply Hl| |done].
    unfold low_confidence in Hlc. by apply andb_True in Hlc as [? _]. }
  clear Hcan. specialize (Hno eq_refl).
  destruct (List.find _ (quarantines c)) as [q|] eqn:Eq.
  { apply List_find_Some in Eq as [Hin Hau]. apply Hq in Hin as [[Hin Ha]%Hl Hk].
    exists q. split_and!; [done..|]. left. split_and!; [done| |done].
    unfold is_authorized in Hau. by rewrite negb_True bool_decide_spec in Hau. }
  destruct (List.find (effect_is Block) (taints c)) as [t|] eqn:Eb.
  { apply List_find_Some in Eb as [Hin He]. apply Ht in Hin as [[Hin Ha]%Hl Hk].
    exists t. split_and!; [done..|]. right; left. unfold effect_is in He. by rewrite bool_decide_spec in He. }
  assert (∀ t, t ∈ check_taint s p now → ¬ blocks agent t) as Hnb.
  { intros t Hin. rw blocks_spec. intros [[Hk He]|[Hk Hn]].
    - pose proof (List_find_None _ _ Eb t (proj2 (Ht t) (conj Hin Hk))) as H.
      unfold effect_is in H. by rewrite bool_decide_eq_false in H.
    - pose proof (List_find_None _ _ Eq t (proj2 (Hq t) (conj Hin Hk))) as H.
      unfold is_authorized in H. by apply negb_false_iff, bool_decide_eq_true in H. }
  destruct (List.find (effect_is Review) (taints c)) as [t|] eqn:Er.
  { apply List_find_Some in Er as [Hin He]. apply Ht in Hin as [Hin Hk]. unfold effect_is in He.
    rewrite bool_decide_spec in He. pose proof (proj2 (needs_review_spec t) (conj Hk He)) as Hnr.
    exists t. pose proof Hin as [Hin' Ha]%Hl. split_and!; [done..|]. right; right.
    split_and!; [done| |by rw (Hr t Hin Hnr)].
    destruct Hno as [(t' & Ht' & Hb)|[Hno|Hno]]; [by destruct (Hnb t')| |done]. exfalso. eauto. }
  split; [|done]. intros t Hin Ha. assert (t ∈ check_taint s p now) as Hin' by by apply Hl.
  split; [by apply Hnb|]. unfold low_confidence. rw andb_True needs_review_spec. intros [[Hk He] _].
  pose proof (List_find_None _ _ Er t (proj2 (Ht t) (conj Hin' Hk))) as H.
  unfold effect_is in H. by rewrite bool_decide_eq_false in H.
Qed.

(** ** Properties *)

(** C39: the pre-commit hook, with confidence 1.0 when the commit states none.
    It passes exactly when no active taint that applies to a written path
    blocks it, no quarantine leaves the agent out and no review taint meets a
    confidence below 0.9, and then returns one warning per applicable warning
    or isolation taint; otherwise it refuses the first path that fails, naming
    a record that applies to it and why. *)
Theorem pre_commit_taint_check_spec s now paths options :
  let agent := opt_agent_id options in
  let conf := default f64_one (opt_confidence options) in
  let passes p := ∀ t, t ∈ mem_taints s → applies p now t →
    ¬ blocks agent t ∧ ¬ low_confidence conf t in
  match pre_commit_taint_check s now paths options with
  | Ok ws =>
      (∀ p, p ∈ paths → passes p) ∧
      ∀ w, w ∈ ws ↔ ∃ p t, p ∈ paths ∧ t ∈ mem_taints s ∧ applies p now t ∧ warns t ∧
        w = taint_warning t
  | Err e =>
      ∃ pre p post t, paths = pre ++ p :: post ∧ (∀ p', p' ∈ pre → passes p') ∧
        t ∈ mem_taints s ∧ applies p now t ∧ refuses agent conf p t e
  end.
Proof.
  intros agent conf passes. unfold pre_commit_taint_check. fold agent conf.
  assert (∀ ps yss, traverse (taint_check_path s now agent conf) ps = Ok yss →
    (∀ p, p ∈ ps → passes p) ∧
    ∀ w, w ∈ concat yss ↔ ∃ p t, p ∈ ps ∧ t ∈ mem_taints s ∧ applies p now t ∧ warns t ∧
      w = taint_warning t) as Hok.
  { intros ps yss Ht%traverse_ok. induction Ht as [|p ys ps yss Hp _ [IHp IHw]].
    { split; [set_solver|]. intros w. set_solver. }
    pose proof (taint_check_path_spec s now agent conf p) as Hs. rewrite Hp in Hs. split.
    - intros p' [->|Hin]%elem_of_cons; [exact (proj1 Hs)|by apply IHp].
    - intros w. simpl. rw elem_of_app IHw (proj2 Hs w). setoid_rewrite elem_of_cons. naive_solver. }
  destruct (traverse _ paths) as [yss|e] eqn:Ht; simpl; [by apply Hok|].
  apply traverse_err in Ht as (pre & p & post & ys & -> & [Hpre _]%Hok & Hp).
  pose proof (taint_check_path_spec s now agent conf p) as Hs. rewrite Hp in Hs.
  destruct Hs as (t & ? & ? & ?). by exists pre, p, post, t.
Qed.
