(* ===== verification/Ancestry.v ===== *)
(** * Ancestry: merge bases

    Models the commit-graph algorithms of [agentstategraph/src/repo.rs]: loading
    the ancestry of some heads, the generation of every commit in it, and the
    choice of the merge base. Stacks are lists with their top first; a
    [HashMap] is a [gmap], and where the code iterates over one, the order is
    an argument. Loops run on fuel. *)
From S2P Require Import Prelude Objects Json Intents Commits Stores Guards.

Abbreviation Parents := (gmap ObjectId (list ObjectId)).
Abbreviation CommitReads := (ObjectId → result StorageError (option Commit)).

(** ** The code *)

(** [Vec::extend] on a stack. *)
Definition push_all {A} (l stack : list A) : list A := rev l ++ stack.

Fixpoint load_ancestry_loop (fuel : nat) (get : CommitReads) (ps : Parents) (stack : list ObjectId) :
    result (stop StorageError) Parents :=
  match fuel with
  | 0 => Err OutOfFuel
  | S fuel' =>
      match stack with
      | [] => Ok ps
      | id :: stack' =>
          if bool_decide (is_Some (ps !! id)) then load_ancestry_loop fuel' get ps stack' else
          c ← map_err Fail (get id);
          let qs := match c with Some c => parents c | None => [] end in
          load_ancestry_loop fuel' get (<[id := qs]> ps)
            (push_all (filter (λ p, ps !! p = None) qs) stack')
      end
  end.

Definition load_ancestry (fuel : nat) (get : CommitReads) (roots : list ObjectId) :
    result (stop StorageError) Parents :=
  load_ancestry_loop fuel get ∅ (rev roots).

Fixpoint reachable_loop (fuel : nat) (ps : Parents) (seen : gset ObjectId) (stack : list ObjectId) :
    option (gset ObjectId) :=
  match fuel with
  | 0 => None
  | S fuel' =>
      match stack with
      | [] => Some seen
      | id :: stack' =>
          if decide (id ∈ seen) then reachable_loop fuel' ps seen stack' else
          let seen' := {[ id ]} ∪ seen in
          match ps !! id with
          | Some qs => reachable_loop fuel' ps seen' (push_all (filter (λ p, p ∉ seen') qs) stack')
          | None => reachable_loop fuel' ps seen' stack'
          end
      end
  end.

Definition reachable_in (fuel : nat) (ps : Parents) (start : ObjectId) : option (gset ObjectId) :=
  reachable_loop fuel ps ∅ [start].

(** [iter().map(|g| g + 1).max().unwrap_or(0)]. *)
Definition next_generation (gs : list N) : N := foldr (λ g m, N.max (g + 1) m) 0%N gs.

Abbreviation Generations := (gmap ObjectId N).

(** [ps.iter().filter_map(|p| generation.get(p))]. *)
Definition known_generations (generation : Generations) (ps : list ObjectId) : list N :=
  omap (λ p, generation !! p) ps.

(** One root of [generations]: the post-order pass. *)
Fixpoint generations_loop (fuel : nat) (ps : Parents) (stack : list (ObjectId * bool))
    (generation : Generations) (expanding : gset ObjectId) : option (Generations * gset ObjectId) :=
  match fuel with
  | 0 => None
  | S fuel' =>
      match stack with
      | [] => Some (generation, expanding)
      | (id, children_done) :: stack' =>
          if bool_decide (is_Some (generation !! id))
          then generations_loop fuel' ps stack' generation expanding else
          let qs := default [] (ps !! id) in
          if children_done : bool then
            let g := next_generation (known_generations generation qs) in
            generations_loop fuel' ps stack' (<[id := g]> generation) (expanding ∖ {[ id ]})
          else if decide (id ∈ expanding) then generations_loop fuel' ps stack' generation expanding
          else
            let expanding' := {[ id ]} ∪ expanding in
            let todo := filter (λ p, generation !! p = None ∧ p ∉ expanding') qs in
            generations_loop fuel' ps (push_all ((λ p, (p, false)) <$> todo) ((id, true) :: stack'))
              generation expanding'
      end
  end.

(** [order] is the order [parents.keys()] comes in. *)
Fixpoint generations_from (fuel : nat) (ps : Parents) (order : list ObjectId)
    (generation : Generations) (expanding : gset ObjectId) : option Generations :=
  match order with
  | [] => Some generation
  | root :: order' =>
      if bool_decide (is_Some (generation !! root))
      then generations_from fuel ps order' generation expanding else
      '(generation', expanding') ← generations_loop fuel ps [(root, false)] generation expanding;
      generations_from fuel ps order' generation' expanding'
  end.

Definition generations (fuel : nat) (ps : Parents) (order : list ObjectId) : option Generations :=
  generations_from fuel ps order ∅ ∅.

(** [Ord] of [(u64, ObjectId)], and [Iterator::max], which keeps the last of
    equal elements. *)
Definition rank_le (x y : N * ObjectId) : Prop := (x.1 < y.1)%N ∨ x.1 = y.1 ∧ oid_le x.2 y.2.
#[export] Instance rank_le_dec : RelDecision rank_le.
Proof. unfold rank_le. intros x y. apply _. Defined.

Definition max_of (l : list (N * ObjectId)) : option (N * ObjectId) :=
  foldl (λ best x, match best with
    | Some b => if decide (rank_le b x) then Some x else Some b
    | None => Some x
    end) None l.

(** [inter] is the order the intersection of the two sets is iterated in. *)
Definition deepest_common_ancestor (fuel : nat) (order : list ObjectId)
    (inter : gset ObjectId → list ObjectId) (ps : Parents) (a b : ObjectId) :
    option (option ObjectId) :=
  of_a ← reachable_in fuel ps a;
  of_b ← reachable_in fuel ps b;
  generation ← generations fuel ps order;
  Some (snd <$> max_of ((λ id, (default 0%N (generation !! id), id)) <$> inter (of_a ∩ of_b))).

(** [order] is the order [parents.keys()] of a map comes in. *)
Definition find_common_ancestor (fuel : nat) (order : Parents → list ObjectId)
    (inter : gset ObjectId → list ObjectId) (get : CommitReads) (a b : ObjectId) :
    result (stop RepoError) ObjectId :=
  if decide (a = b) then Ok a else
  match load_ancestry fuel get [a; b] with
  | Err OutOfFuel => Err OutOfFuel
  | Err (Fail e) => Err (Fail (StorageErr e))
  | Ok ps =>
      match deepest_common_ancestor fuel (order ps) inter ps a b with
      | None => Err OutOfFuel
      | Some (Some c) => Ok c
      | Some None => Err (Fail (RefMissing "no common ancestor between refs"))
      end
  end.

(** ** Walking a graph

    What [load_ancestry] and [reachable_in] share: a stack of ids to visit and
    a set of visited ones. [todo] may hold any successors as long as it holds
    the ones not visited. *)

Section walk.
Context (succ : ObjectId → list ObjectId) (roots : list ObjectId).

Definition succ_edge (i j : ObjectId) : Prop := j ∈ succ i.

Definition from_roots (i : ObjectId) : Prop := ∃ r, r ∈ roots ∧ rtc succ_edge r i.

Record visiting (seen : gset ObjectId) (stack : list ObjectId) : Prop := {
  vi_sound : ∀ i, i ∈ seen ∨ i ∈ stack → from_roots i;
  vi_roots : ∀ r, r ∈ roots → r ∈ seen ∨ r ∈ stack;
  vi_closed : ∀ i j, i ∈ seen → succ_edge i j → j ∈ seen ∨ j ∈ stack;
}.

Lemma visiting_start stack : (∀ i, i ∈ stack ↔ i ∈ roots) → visiting ∅ stack.
Proof.
  intros Hst. split; [|set_solver|set_solver].
  intros i [?|Hi%Hst]; [set_solver|]. by exists i.
Qed.

Lemma visiting_skip seen i stack : i ∈ seen → visiting seen (i :: stack) → visiting seen stack.
Proof. intros Hi [Hs Hr Hc]. split; [set_solver| |]; intros; [set_unfold; naive_solver|]. set_solver. Qed.

Lemma visiting_visit seen i stack todo :
  (∀ j, j ∈ todo → j ∈ succ i) → (∀ j, j ∈ succ i → j ∉ {[i]} ∪ seen → j ∈ todo) →
  visiting seen (i :: stack) → visiting ({[i]} ∪ seen) (push_all todo stack).
Proof.
  intros Hsub Hsup [Hs Hr Hc].
  assert (∀ j, j ∈ push_all todo stack ↔ j ∈ todo ∨ j ∈ stack) as Hpush.
  { intros j. unfold push_all. rw elem_of_app list_elem_of_In -in_rev -list_elem_of_In. done. }
  assert (from_roots i) as Hi by (apply Hs; set_solver). split.
  - intros j. rw Hpush. intros [Hj|[Hj%Hsub|Hj]]; [set_solver| |set_solver].
    destruct Hi as (r & Hr0 & Hri). exists r. split; [done|]. by eapply rtc_r.
  - intros r Hr0. rw Hpush. specialize (Hr r Hr0). set_solver.
  - intros j k Hj Hjk. rw Hpush. destruct (decide (k ∈ {[i]} ∪ seen)); [by left|right].
    destruct (decide (i = j)) as [<-|Hij]; [left; by apply Hsup|].
    specialize (Hc j k). set_solver.
Qed.

Lemma visiting_done seen i : visiting seen [] → i ∈ seen ↔ from_roots i.
Proof.
  intros [Hs Hr Hc]. split; [intros; apply Hs; by left|]. intros (r & Hin & Hri).
  revert i Hri. apply rtc_ind_r; [set_solver|]. intros j i _ Hji Hj. specialize (Hc j i). set_solver.
Qed.
End walk.

Lemma length_push_all {A} (l stack : list A) : length (push_all l stack) = length l + length stack.
Proof. unfold push_all. by rw length_app length_rev. Qed.

(** ** Loading the ancestry *)

(** The parents of an id, none when its commit is not stored. *)
Definition parents_of (m : gmap ObjectId Commit) (i : ObjectId) : list ObjectId :=
  match m !! i with Some c => parents c | None => [] end.

Lemma succ_edge_parents m i j : succ_edge (parents_of m) i j ↔ parent_edge m i j.
Proof.
  unfold succ_edge, parents_of, parent_edge. destruct (m !! i); [naive_solver|].
  split; [by intros ?%elem_of_nil|naive_solver].
Qed.

Lemma rtc_succ_ancestor m i j : rtc (succ_edge (parents_of m)) i j ↔ ancestor_of m i j.
Proof.
  split; apply rtc_subrel; intros ? ?; apply succ_edge_parents.
Qed.

Definition stored_reads (m : gmap ObjectId Commit) : CommitReads := λ i, Ok (m !! i).

(** The ancestry as [load_ancestry] returns it. *)
Definition is_ancestry (m : gmap ObjectId Commit) (roots : list ObjectId) (ps : Parents) : Prop :=
  (∀ i, is_Some (ps !! i) ↔ ∃ r, r ∈ roots ∧ ancestor_of m r i) ∧
  ∀ i qs, ps !! i = Some qs → qs = parents_of m i.

Lemma load_ancestry_loop_ok m roots fuel ps stack :
  length stack + open_slots m (dom ps) < fuel →
  visiting (parents_of m) roots (dom ps) stack →
  (∀ i qs, ps !! i = Some qs → qs = parents_of m i) →
  ∃ ps', load_ancestry_loop fuel (stored_reads m) ps stack = Ok ps' ∧ is_ancestry m roots ps'.
Proof.
  revert ps stack. induction fuel as [|fuel IH]; [lia|]. intros ps stack Hf Hv Hps.
  destruct stack as [|i stack]; cbn [load_ancestry_loop].
  { exists ps. split; [done|]. split; [|done]. intros i. rw -elem_of_dom (visiting_done _ _ _ i Hv).
    unfold from_roots. by setoid_rewrite rtc_succ_ancestor. }
  simpl in Hf. case_bool_decide as Hi.
  { apply IH; [lia| |done]. eapply visiting_skip; [by apply elem_of_dom|done]. }
  cbn [stored_reads map_err mbind result_bind]. fold (parents_of m i).
  apply eq_None_not_Some in Hi. pose proof Hi as Hd%not_elem_of_dom. apply IH.
  - rw dom_insert_L length_push_all. unfold open_slots, parents_of in *.
    pose proof (length_filter (λ p, ps !! p = None) (parents_of m i)) as Hle. unfold parents_of in Hle.
    destruct (m !! i) as [c|] eqn:Hc.
    + rewrite (weight_seen _ m (dom ps) i c) // in Hf. lia.
    + rw weight_skip //. simpl. lia.
  - rw dom_insert_L. apply visiting_visit; [by intros j [_ ?]%list_elem_of_filter| |done].
    intros j Hj Hn. apply list_elem_of_filter. split; [|done]. apply not_elem_of_dom. set_solver.
  - intros j qs. rw lookup_insert_Some. intros [[<- <-]|[_ ?]]; [done|by apply Hps].
Qed.

(** Enough fuel for every loop over the ancestry of two commits. *)
Definition ancestry_fuel (m : gmap ObjectId Commit) : nat := 3 + 2 * open_slots m ∅.

Lemma load_ancestry_ok m fuel a b :
  ancestry_fuel m ≤ fuel →
  ∃ ps, load_ancestry fuel (stored_reads m) [a; b] = Ok ps ∧ is_ancestry m [a; b] ps.
Proof.
  intros Hf. apply load_ancestry_loop_ok; [|rw dom_empty_L; apply visiting_start|done].
  - rw dom_empty_L. unfold ancestry_fuel in Hf. simpl. lia.
  - intros i. simpl. set_solver.
Qed.

(** ** Reachability in a loaded ancestry *)

Definition loaded (ps : Parents) (i : ObjectId) : list ObjectId := default [] (ps !! i).

Lemma reachable_loop_ok ps roots fuel seen stack :
  length stack + weight length ps seen < fuel → visiting (loaded ps) roots seen stack →
  ∃ s, reachable_loop fuel ps seen stack = Some s ∧ ∀ i, i ∈ s ↔ from_roots (loaded ps) roots i.
Proof.
  revert seen stack. induction fuel as [|fuel IH]; [lia|]. intros seen stack Hf Hv.
  destruct stack as [|i stack]; cbn [reachable_loop].
  { exists seen. split; [done|]. intros i. by apply visiting_done. }
  simpl in Hf. case_decide as Hi; [apply IH; [lia|by eapply visiting_skip]|].
  assert (match ps !! i with
    | Some qs => reachable_loop fuel ps ({[i]} ∪ seen)
                   (push_all (filter (λ p, p ∉ {[i]} ∪ seen) qs) stack)
    | None => reachable_loop fuel ps ({[i]} ∪ seen) stack end =
    reachable_loop fuel ps ({[i]} ∪ seen)
      (push_all (filter (λ p, p ∉ {[i]} ∪ seen) (loaded ps i)) stack)) as ->.
  { unfold loaded. by destruct (ps !! i). }
  apply IH.
  - rw length_push_all. pose proof (length_filter (λ p, p ∉ {[i]} ∪ seen) (loaded ps i)) as Hle.
    unfold loaded in *. destruct (ps !! i) as [qs|] eqn:Hq; simpl in *.
    + rewrite (weight_seen _ ps seen i qs) // in Hf. lia.
    + rw weight_skip //. lia.
  - apply visiting_visit; [by intros j [_ ?]%list_elem_of_filter| |done].
    intros j Hj Hn. by apply list_elem_of_filter.
Qed.

Lemma reachable_in_ok ps fuel a :
  2 + weight length ps ∅ ≤ fuel →
  ∃ s, reachable_in fuel ps a = Some s ∧ ∀ i, i ∈ s ↔ rtc (succ_edge (loaded ps)) a i.
Proof.
  intros Hf. destruct (reachable_loop_ok ps [a] fuel ∅ [a]) as (s & Hs & Hi);
    [simpl; lia|by apply visiting_start|].
  exists s. split; [done|]. intros i. rw Hi. unfold from_roots. set_solver.
Qed.

(** ** Generations *)

Section generations.
Context (ps : Parents) (rank : ObjectId → nat).
Context (Hrank : ∀ i j, succ_edge (loaded ps) i j → rank j < rank i).

(** Every generation is one more than the highest of the parents', all known. *)
Definition gen_ok (G : Generations) : Prop := ∀ i g, G !! i = Some g →
  (∀ j, j ∈ loaded ps i → is_Some (G !! j)) ∧
  g = next_generation (known_generations G (loaded ps i)).

Lemma known_generations_ext (G1 G2 : Generations) l :
  (∀ j, j ∈ l → G1 !! j = G2 !! j) → known_generations G1 l = known_generations G2 l.
Proof.
  unfold known_generations. induction l as [|j l IH]; intros H; csimpl; [done|].
  rw (H j); [|by left]. rw IH //. intros; apply H; by right.
Qed.

Lemma gen_ok_insert G i :
  gen_ok G → G !! i = None → (∀ j, j ∈ loaded ps i → is_Some (G !! j)) →
  gen_ok (<[i := next_generation (known_generations G (loaded ps i))]> G).
Proof.
  intros HG Hi Hps.
  assert (∀ l x, (∀ j, j ∈ l → is_Some (G !! j)) →
    known_generations (<[i := x]> G) l = known_generations G l) as Hext.
  { intros l x Hl. apply known_generations_ext. intros j Hj. rw lookup_insert_ne //.
    intros <-. destruct (Hl i Hj). congruence. }
  intros j g. rw lookup_insert_Some. intros [[<- <-]|[Hij Hj]].
  - split; [|by rw Hext]. intros k Hk. apply lookup_insert_is_Some'. right. by apply Hps.
  - destruct (HG j g Hj) as [Hpj ->]. split; [|by rw Hext].
    intros k Hk. apply lookup_insert_is_Some'. right. by apply Hpj.
Qed.

(** Generations are determined by the graph. *)
Lemma gen_ok_unique G1 G2 i g1 g2 :
  gen_ok G1 → gen_ok G2 → G1 !! i = Some g1 → G2 !! i = Some g2 → g1 = g2.
Proof.
  intros H1 H2. remember (rank i) as n eqn:Hn. revert i g1 g2 Hn.
  induction (lt_wf n) as [n _ IH]. intros i g1 g2 -> Hi1 Hi2.
  destruct (H1 i g1 Hi1) as [Hp1 ->], (H2 i g2 Hi2) as [Hp2 ->]. f_equal.
  apply known_generations_ext. intros j Hj. destruct (Hp1 j Hj) as [x Hx], (Hp2 j Hj) as [y Hy].
  rw Hx Hy. f_equal. eapply (IH (rank j)); [by apply Hrank|done..].
Qed.

Lemma next_generation_lt gs g : g ∈ gs → (g < next_generation gs)%N.
Proof.
  induction gs as [|x gs IH]; [by intros ?%elem_of_nil|]. simpl.
  intros [->|Hg%IH]%elem_of_cons; lia.
Qed.

(** Generations grow along every path of parents. *)
Lemma gen_ok_edge G i j g :
  gen_ok G → G !! i = Some g → succ_edge (loaded ps) i j → ∃ h, G !! j = Some h ∧ (h < g)%N.
Proof.
  intros HG Hi Hij. destruct (HG i g Hi) as [Hp ->]. destruct (Hp j Hij) as [h Hh].
  exists h. split; [done|]. apply next_generation_lt. apply list_elem_of_omap. by exists j.
Qed.

(** ** The post-order pass *)

Definition slots_left (G : Generations) : nat := weight (λ qs, 2 * length qs) ps (dom G).

(** The stack entries [xs] are worked off: [k] turns later they are gone and
    the ids in them have their generations. *)
Definition worked_off (xs : list ObjectId) (G : Generations) (E : gset ObjectId)
    (stack : list (ObjectId * bool)) : Prop := ∃ k G',
  (∀ f, generations_loop (k + f) ps (((λ p, (p, false)) <$> xs) ++ stack) G E =
        generations_loop f ps stack G' E) ∧
  k + slots_left G' ≤ 2 * length xs + slots_left G ∧ G ⊆ G' ∧ gen_ok G' ∧
  (∀ i, i ∈ xs → is_Some (G' !! i)) ∧
  (∀ j, is_Some (G' !! j) → G !! j = None → ∃ i, i ∈ xs ∧ rank j ≤ rank i).

(** [E] holds ids above [i] only: the nodes being expanded. *)
Definition below (i : ObjectId) (E : gset ObjectId) : Prop := ∀ e, e ∈ E → rank i < rank e.

Lemma worked_off_list xs G E stack :
  (∀ i G stack, i ∈ xs → gen_ok G → worked_off [i] G E stack) → gen_ok G → worked_off xs G E stack.
Proof.
  revert G. induction xs as [|i xs IH]; intros G Hone HG.
  { exists 0, G. split_and!; [done|simpl; lia|done|done|set_solver|]. intros j [? ?]. congruence. }
  destruct (Hone i G (((λ p, (p, false)) <$> xs) ++ stack)) as (k1 & G1 & Hk1 & Hp1 & Hs1 & HG1 & Hi1 & Hn1);
    [by left|done|].
  destruct (IH G1) as (k2 & G2 & Hk2 & Hp2 & Hs2 & HG2 & Hi2 & Hn2); [|done|].
  { intros; apply Hone; [by right|done]. }
  exists (k1 + k2), G2. split_and!; [|simpl in *; lia|by trans G1|done| |].
  - intros f. rw -Nat.add_assoc. specialize (Hk1 (k2 + f)). csimpl. csimpl in Hk1. rw Hk1. apply Hk2.
  - intros j [->|Hj]%elem_of_cons; [|by apply Hi2].
    destruct (Hi1 i) as [g Hg]; [by left|]. exists g. by eapply lookup_weaken.
  - intros j Hj HGj. destruct (G1 !! j) as [g|] eqn:Hg.
    + destruct (Hn1 j) as (i' & Hi' & ?); [by eexists|done|]. exists i'. set_solver.
    + destruct (Hn2 j Hj Hg) as (i' & Hi' & ?). exists i'. set_solver.
Qed.
(** What is pushed for a node: its parents without a generation. *)
Lemma todo_parents i (G : Generations) (E : gset ObjectId) :
  below i E → ∀ j, j ∈ filter (λ p, G !! p = None ∧ p ∉ {[i]} ∪ E) (loaded ps i) ↔
    j ∈ loaded ps i ∧ G !! j = None.
Proof.
  intros HE j. rw list_elem_of_filter. split; [naive_solver|]. intros [Hj Hg].
  split_and!; [done| |done]. pose proof (Hrank i j Hj). intros [->%elem_of_singleton|He]%elem_of_union; [lia|].
  specialize (HE j He). lia.
Qed.

Lemma worked_off_node n i G E stack :
  rank i < n → below i E → gen_ok G → worked_off [i] G E stack.
Proof.
  revert i G E stack. induction n as [|n IH]; [lia|]. intros i G E stack Hn HE HG.
  destruct (G !! i) as [g|] eqn:Hgi.
  { exists 1, G. split_and!; [|simpl; lia|done|done|set_solver|].
    - intros f. csimpl. cbn [generations_loop app Nat.add]. by rw bool_decide_true; [|by eexists].
    - intros j [? ?]. congruence. }
  set (todo := filter (λ p, G !! p = None ∧ p ∉ {[i]} ∪ E) (loaded ps i)).
  pose proof (todo_parents i G E HE) as Htodo. fold todo in Htodo.
  destruct (worked_off_list (rev todo) G ({[i]} ∪ E) ((i, true) :: stack)) as (k & G1 & Hk & Hp & Hs & HG1 & Hd & Hnew);
    [|done|].
  { intros j G0 stack0 Hj HG0. rewrite list_elem_of_In -in_rev -list_elem_of_In Htodo in Hj.
    destruct Hj as [Hj _]. pose proof (Hrank i j Hj). apply IH; [lia| |done].
    intros e [->%elem_of_singleton|He]%elem_of_union; [done|]. specialize (HE e He). lia. }
  setoid_rewrite list_elem_of_In in Hd. setoid_rewrite <-in_rev in Hd. setoid_rewrite <-list_elem_of_In in Hd.
  setoid_rewrite list_elem_of_In in Hnew. setoid_rewrite <-in_rev in Hnew.
  setoid_rewrite <-list_elem_of_In in Hnew.
  assert (i ∉ E) as HiE by (intros He; specialize (HE i He); lia).
  assert (G1 !! i = None) as HG1i.
  { destruct (G1 !! i) as [x|] eqn:Hx; [|done]. destruct (Hnew i) as (j & [Hj _]%Htodo & Hle); [by eexists|done|].
    pose proof (Hrank i j Hj). lia. }
  assert (∀ j, j ∈ loaded ps i → is_Some (G1 !! j)) as Hall.
  { intros j Hj. destruct (G !! j) as [x|] eqn:Hx; [exists x; by eapply lookup_weaken|].
    apply Hd, Htodo. done. }
  set (g := next_generation (known_generations G1 (loaded ps i))).
  exists (S (k + 1)), (<[i := g]> G1). split_and!.
  - intros f. csimpl. cbn [generations_loop app Nat.add].
    rw bool_decide_false; [|rw Hgi; by intros []]. rw decide_False //. fold (loaded ps i). fold todo.
    unfold push_all. rewrite -fmap_rev -Nat.add_assoc Hk. cbn [Nat.add generations_loop].
    rw bool_decide_false; [|rw HG1i; by intros []]. fold (loaded ps i). fold g.
    f_equal. set_solver.
  - unfold slots_left in *. rw dom_insert_L length_rev in Hp |- *.
    assert (length todo ≤ length (loaded ps i)) as Hlen by apply length_filter.
    assert (i ∉ dom G1) as HiG by by apply not_elem_of_dom.
    unfold loaded in Hlen. destruct (ps !! i) as [qs|] eqn:Hq; simpl in *.
    + rewrite (weight_seen _ ps (dom G1) i qs) // in Hp. lia.
    + rw weight_skip //. lia.
  - etrans; [exact Hs|]. by apply insert_subseteq.
  - by apply gen_ok_insert.
  - intros j ->%list_elem_of_singleton. rw lookup_insert_eq. by eexists.
  - intros j Hj HGj. exists i. split; [by left|]. destruct (decide (i = j)) as [->|Hij]; [done|].
    rewrite lookup_insert_ne // in Hj. destruct (Hnew j Hj HGj) as (j' & [Hj' _]%Htodo & Hle).
    pose proof (Hrank i j' Hj'). lia.
Qed.

Lemma generations_from_ok fuel order G E :
  3 + weight (λ qs, 2 * length qs) ps ∅ ≤ fuel → gen_ok G → E = ∅ →
  ∃ G', generations_from fuel ps order G E = Some G' ∧ gen_ok G' ∧ G ⊆ G' ∧
    ∀ i, i ∈ order → is_Some (G' !! i).
Proof.
  intros Hf. revert G E. induction order as [|i order IH]; intros G E HG ->; cbn [generations_from].
  { exists G. split_and!; [done..|]. set_solver. }
  case_bool_decide as Hi.
  { destruct (IH G ∅ HG eq_refl) as (G' & HG' & Hok & Hs & Hin). exists G'. split_and!; [done..|].
    intros j [->|Hj]%elem_of_cons; [|by apply Hin]. destruct Hi as [g Hg]. exists g. by eapply lookup_weaken. }
  destruct (worked_off_node (S (rank i)) i G ∅ []) as (k & G1 & Hk & Hp & Hs1 & HG1 & Hd & _);
    [lia|intros ?; set_solver|done|].
  assert (slots_left G ≤ weight (λ qs, 2 * length qs) ps ∅) as Hle by (apply weight_anti; set_solver).
  simpl in Hp. specialize (Hk (fuel - k)). csimpl in Hk. simpl in Hk.
  replace (k + (fuel - k)) with fuel in Hk by lia. rw Hk.
  assert (generations_loop (fuel - k) ps [] G1 ∅ = Some (G1, ∅)) as ->.
  { destruct (fuel - k) eqn:Hfk; [lia|done]. }
  cbn [mbind option_bind]. destruct (IH G1 ∅ HG1 eq_refl) as (G' & HG' & Hok & Hs & Hin).
  exists G'. split_and!; [done|done|by trans G1|].
  intros j [->|Hj]%elem_of_cons; [|by apply Hin].
  destruct (Hd i) as [g Hg]; [by left|]. exists g. by eapply lookup_weaken.
Qed.

Lemma generations_ok fuel order :
  3 + weight (λ qs, 2 * length qs) ps ∅ ≤ fuel →
  ∃ G, generations fuel ps order = Some G ∧ gen_ok G ∧ ∀ i, i ∈ order → is_Some (G !! i).
Proof.
  intros Hf. destruct (generations_from_ok fuel order ∅ ∅ Hf) as (G & ? & ? & _ & ?);
    [|done|by exists G].
  intros i g. by rw lookup_empty.
Qed.
End generations.

(** ** The best of a list *)

#[export] Instance rank_le_trans : Transitive rank_le.
Proof.
  intros x y z. unfold rank_le. intros [?|[Hxy ?]] [?|[Hyz ?]]; [left; lia..|].
  right. split; [congruence|]. by trans (y.2).
Qed.

#[export] Instance rank_le_total : Total rank_le.
Proof.
  intros x y. unfold rank_le. destruct (N.lt_trichotomy x.1 y.1) as [?|[?|?]]; [by left; left| |by right; left].
  destruct (total oid_le x.2 y.2); [left|right]; by right.
Qed.

#[export] Instance rank_le_antisymm : AntiSymm (=) rank_le.
Proof.
  intros [] []. unfold rank_le. simpl. intros [?|[? ?]] [?|[? ?]]; [lia..|].
  f_equal; [done|]. by apply (anti_symm oid_le).
Qed.

Lemma max_of_spec l :
  match max_of l with
  | Some x => x ∈ l ∧ ∀ y, y ∈ l → rank_le y x
  | None => l = []
  end.
Proof.
  induction l as [|x l IH] using rev_ind; [done|]. unfold max_of in *. rw foldl_app.
  destruct (foldl _ None l) as [b|]; simpl.
  - destruct IH as [Hb Hmax]. case_decide as Hbx.
    + split; [set_solver|]. intros y [Hy| ->%list_elem_of_singleton]%elem_of_app; [|by destruct (total rank_le x x)].
      trans b; [by apply Hmax|done].
    + split; [set_solver|]. intros y [Hy| ->%list_elem_of_singleton]%elem_of_app; [by apply Hmax|].
      by destruct (total rank_le b x).
  - subst. split; [set_solver|]. intros y ->%list_elem_of_singleton. by destruct (total rank_le x x).
Qed.

(** The maximum does not depend on the order. *)
Lemma max_of_unique l1 l2 : (∀ x, x ∈ l1 ↔ x ∈ l2) → max_of l1 = max_of l2.
Proof.
  intros H. pose proof (max_of_spec l1) as H1. pose proof (max_of_spec l2) as H2.
  destruct (max_of l1) as [x|], (max_of l2) as [y|]; [| | |done].
  - destruct H1 as [Hx H1], H2 as [Hy H2]. f_equal. apply (anti_symm rank_le).
    + by apply H2, H.
    + by apply H1, H.
  - destruct H1 as [Hx%H _]. subst. by apply elem_of_nil in Hx.
  - destruct H2 as [Hx%H _]. subst. by apply elem_of_nil in Hx.
Qed.

(** ** Merge bases *)

Section merge_base.
Context (m : gmap ObjectId Commit) (rank : ObjectId → nat).
Context (Hrank : ∀ i j, parent_edge m i j → rank j < rank i).

Lemma ancestor_rank i j : ancestor_of m i j → i = j ∨ rank j < rank i.
Proof.
  intros H. induction H as [i|i j k Hij _ [->|?]]; [by left|right; by apply Hrank|].
  apply Hrank in Hij. right. lia.
Qed.

Lemma ancestor_antisymm i j : ancestor_of m i j → ancestor_of m j i → i = j.
Proof. intros [?|?]%ancestor_rank [?|?]%ancestor_rank; [done..|]. lia. Qed.

Context (a b : ObjectId) (ps : Parents) (Hps : is_ancestry m [a; b] ps).

Lemma loaded_edge i j : succ_edge (loaded ps) i j → parent_edge m i j.
Proof.
  rw -succ_edge_parents. unfold succ_edge, loaded. destruct (ps !! i) as [qs|] eqn:Hi; simpl.
  - by rw (proj2 Hps i qs Hi).
  - by intros ?%elem_of_nil.
Qed.

Lemma loaded_reach r i : r = a ∨ r = b → rtc (succ_edge (loaded ps)) r i ↔ ancestor_of m r i.
Proof.
  intros Hr. split; [apply rtc_subrel; intros ? ?; apply loaded_edge|].
  revert i. apply rtc_ind_r; [done|]. intros j k Hj Hjk IH. eapply rtc_r; [done|].
  assert (is_Some (ps !! j)) as [qs Hq] by (apply Hps; exists r; set_solver).
  apply succ_edge_parents in Hjk. unfold succ_edge, loaded. by rw Hq /= (proj2 Hps j qs Hq).
Qed.

Lemma gen_path G i j g :
  gen_ok ps G → rtc (succ_edge (loaded ps)) i j → G !! i = Some g →
  ∃ h, G !! j = Some h ∧ (i = j ∨ (h < g)%N).
Proof.
  intros HG Hij. revert g. induction Hij as [i|i j k Hij _ IH]; intros g Hg; [by exists g; auto|].
  destruct (gen_ok_edge ps G i j g HG Hg Hij) as (h & Hh & Hlt).
  destruct (IH h Hh) as (x & Hx & Hle). exists x. split; [done|]. right. destruct Hle as [->|?]; [|lia].
  congruence.
Qed.

(** The ids an ancestry covers weigh no more than the store. *)
Lemma ancestry_slots : weight length ps ∅ ≤ open_slots m ∅.
Proof.
  apply weight_le. intros i qs Hi. rw (proj2 Hps i qs Hi). unfold parents_of. by destruct (m !! i).
Qed.

Definition common (c : ObjectId) : Prop := ancestor_of m a c ∧ ancestor_of m b c.

(** The ranks the candidates are compared by. *)
Definition ranked (G : Generations) (l : list ObjectId) : list (N * ObjectId) :=
  (λ id, (default 0%N (G !! id), id)) <$> l.

Lemma common_in_ancestry c : common c → is_Some (ps !! c).
Proof. intros [Ha _]. apply Hps. exists a. split; [by left|done]. Qed.

(** The best candidate has no other common ancestor below it. *)
Lemma deepest_best G l c :
  gen_ok ps G → (∀ i, is_Some (ps !! i) → is_Some (G !! i)) → (∀ i, i ∈ l ↔ common i) →
  snd <$> max_of (ranked G l) = Some c →
  common c ∧ ∀ d, common d → ancestor_of m d c → d = c.
Proof.
  intros HG Hdom Hl Hmax. pose proof (max_of_spec (ranked G l)) as Hspec.
  destruct (max_of (ranked G l)) as [[x c']|]; [|done]. simplify_eq/=. destruct Hspec as [Hx Hall].
  unfold ranked in *. apply list_elem_of_fmap in Hx as (c' & [= -> <-] & Hc%Hl). split; [done|].
  intros d Hd Hdc. pose proof (common_in_ancestry d Hd) as [gd Hgd]%Hdom.
  assert (rtc (succ_edge (loaded ps)) d c) as Hpath.
  { clear -Hps Hd Hdc. revert c Hdc. apply rtc_ind_r; [done|]. intros j k Hj Hjk IH.
    eapply rtc_r; [done|]. assert (is_Some (ps !! j)) as [qs Hq].
    { apply Hps. exists a. split; [set_solver|]. trans d; [apply Hd|done]. }
    apply succ_edge_parents in Hjk. unfold succ_edge, loaded. by rw Hq /= (proj2 Hps j qs Hq). }
  destruct (gen_path G d c gd HG Hpath Hgd) as (gc & Hgc & [?|Hlt]); [done|].
  specialize (Hall (default 0%N (G !! d), d)). rewrite Hgd Hgc /= in Hall.
  destruct Hall as [Hle|[Hle _]]; [|simpl in Hle; lia..].
  apply list_elem_of_fmap. exists d. rw Hgd. split; [done|by apply Hl].
Qed.
Context (fuel : nat) (Hfuel : ancestry_fuel m ≤ fuel).
Context (inter : gset ObjectId → list ObjectId) (Hinter : ∀ s i, i ∈ inter s ↔ i ∈ s).

(** The candidates are the common ancestors, ranked by some generations of the
    whole ancestry, and the result is the best of them. *)
Lemma deepest_candidates order :
  (∀ i, is_Some (ps !! i) → i ∈ order) →
  ∃ G l, gen_ok ps G ∧ (∀ i, is_Some (ps !! i) → is_Some (G !! i)) ∧ (∀ i, i ∈ l ↔ common i) ∧
    deepest_common_ancestor fuel order inter ps a b = Some (snd <$> max_of (ranked G l)).
Proof.
  intros Horder. pose proof ancestry_slots as Hslots. unfold ancestry_fuel in Hfuel.
  destruct (reachable_in_ok ps fuel a) as (sa & Hsa & Hia); [lia|].
  destruct (reachable_in_ok ps fuel b) as (sb & Hsb & Hib); [lia|].
  destruct (generations_ok ps rank) with (fuel := fuel) (order := order) as (G & HG & Hok & Hin).
  { intros i j ?%loaded_edge. by apply Hrank. }
  { rw weight_scale. lia. }
  exists G, (inter (sa ∩ sb)). split_and!; [done|by intros; apply Hin, Horder| |].
  - intros i. rw Hinter elem_of_intersection Hia Hib !loaded_reach; [done|by right|by left].
  - unfold deepest_common_ancestor. by rw Hsa /= Hsb /= HG.
Qed.
End merge_base.

(** The graph has no cycles: some measure shrinks from a commit to its parents. *)
Definition acyclic (m : gmap ObjectId Commit) : Prop :=
  ∃ rank : ObjectId → nat, ∀ i j, parent_edge m i j → rank j < rank i.

(** Every key of a map, in whatever order a [HashMap] gives them. *)
Definition lists_keys (order : Parents → list ObjectId) : Prop :=
  ∀ ps i, is_Some (ps !! i) → i ∈ order ps.
Definition lists_elements (inter : gset ObjectId → list ObjectId) : Prop :=
  ∀ s i, i ∈ inter s ↔ i ∈ s.

(** What the walk computes before it picks the best candidate. *)
Lemma find_common_ancestor_ok m fuel order inter a b :
  acyclic m → ancestry_fuel m ≤ fuel → lists_keys order → lists_elements inter → a ≠ b →
  ∃ ps G l, is_ancestry m [a; b] ps ∧ gen_ok ps G ∧ (∀ i, is_Some (ps !! i) → is_Some (G !! i)) ∧
    (∀ i, i ∈ l ↔ common m a b i) ∧
    find_common_ancestor fuel order inter (stored_reads m) a b =
      match max_of (ranked G l) with
      | Some (_, c) => Ok c
      | None => Err (Fail (RefMissing "no common ancestor between refs"))
      end.
Proof.
  intros [rank Hrank] Hf Ho Hi Hab. destruct (load_ancestry_ok m fuel a b Hf) as (ps & Hl & Hps).
  destruct (deepest_candidates m rank Hrank a b ps Hps fuel Hf inter Hi (order ps)) as (G & l & HG & Hd & Hin & He);
    [apply Ho|].
  exists ps, G, l. split_and!; [done..|]. unfold find_common_ancestor. rw decide_False // Hl He.
  by destruct (max_of _) as [[]|].
Qed.

Lemma is_ancestry_unique m roots1 roots2 ps1 ps2 :
  (∀ r, r ∈ roots1 ↔ r ∈ roots2) → is_ancestry m roots1 ps1 → is_ancestry m roots2 ps2 → ps1 = ps2.
Proof.
  intros Hr [H1 P1] [H2 P2]. apply map_eq. intros i.
  assert (is_Some (ps1 !! i) ↔ is_Some (ps2 !! i)) as Hi by (rw H1 H2; by setoid_rewrite Hr).
  destruct (ps1 !! i) as [q1|] eqn:E1, (ps2 !! i) as [q2|] eqn:E2.
  - f_equal. by rw (P1 i q1 E1) (P2 i q2 E2).
  - by destruct (proj1 Hi ltac:(by eexists)).
  - by destruct (proj2 Hi ltac:(by eexists)).
  - done.
Qed.

(** ** Properties *)

(** C31: on a commit graph without cycles the search for a merge base ends, on
    fuel linear in the graph and whatever order the hash maps iterate in. It
    fails exactly when the histories are disjoint; otherwise it returns a
    common ancestor with no other common ancestor below it, and when one head
    is an ancestor of the other, that head. *)
Theorem find_common_ancestor_spec m fuel order inter a b :
  acyclic m → ancestry_fuel m ≤ fuel → lists_keys order → lists_elements inter →
  match find_common_ancestor fuel order inter (stored_reads m) a b with
  | Ok c => common m a b c ∧ (∀ d, common m a b d → ancestor_of m d c → d = c) ∧
      (ancestor_of m a b → c = b) ∧ (ancestor_of m b a → c = a)
  | Err e => e = Fail (RefMissing "no common ancestor between refs") ∧ ∀ c, ¬ common m a b c
  end.
Proof.
  intros Hac Hf Ho Hi. pose proof Hac as [rank Hrank].
  assert (∀ c, common m a b c ∧ (∀ d, common m a b d → ancestor_of m d c → d = c) →
    common m a b c ∧ (∀ d, common m a b d → ancestor_of m d c → d = c) ∧
    (ancestor_of m a b → c = b) ∧ (ancestor_of m b a → c = a)) as Hff.
  { intros c [[Ha Hb] Hd]. split_and!; [done|done|..]; intros H; symmetry; apply Hd; by try split. }
  destruct (decide (a = b)) as [<-|Hab].
  { unfold find_common_ancestor. rw decide_True //. apply Hff. split; [by split|].
    intros d [Hd _] Hda. by eapply ancestor_antisymm. }
  destruct (find_common_ancestor_ok m fuel order inter a b Hac Hf Ho Hi Hab) as (ps & G & l & Hps & HG & Hd & Hl & ->).
  pose proof (deepest_best m a b ps Hps G l) as Hbest. pose proof (max_of_spec (ranked G l)) as Hspec.
  destruct (max_of (ranked G l)) as [[x c]|].
  - apply Hff. by apply Hbest.
  - split; [done|]. intros c Hc%Hl. apply fmap_nil_inv in Hspec. subst. by apply elem_of_nil in Hc.
Qed.

(** The merge base does not depend on which head comes first, nor on the
    order the hash maps are iterated in. *)
Theorem find_common_ancestor_symmetric m fuel order order' inter inter' a b :
  acyclic m → ancestry_fuel m ≤ fuel → lists_keys order → lists_keys order' →
  lists_elements inter → lists_elements inter' →
  find_common_ancestor fuel order inter (stored_reads m) a b =
  find_common_ancestor fuel order' inter' (stored_reads m) b a.
Proof.
  intros Hac Hf Ho Ho' Hi Hi'. destruct (decide (a = b)) as [<-|Hab].
  { unfold find_common_ancestor. by rw !decide_True. }
  destruct (find_common_ancestor_ok m fuel order inter a b Hac Hf Ho Hi Hab) as (ps & G & l & Hps & HG & Hd & Hl & ->).
  destruct (find_common_ancestor_ok m fuel order' inter' b a Hac Hf Ho' Hi') as (ps' & G' & l' & Hps' & HG' & Hd' & Hl' & ->);
    [done|].
  assert (ps' = ps) as -> by (eapply is_ancestry_unique; [|done|done]; set_solver).
  pose proof Hac as [rank Hrank].
  assert (∀ i, common m a b i → G !! i = G' !! i) as HGG.
  { intros i Hc. pose proof (common_in_ancestry m a b ps Hps i Hc) as His.
    destruct (Hd i His) as [x Hx], (Hd' i His) as [y Hy]. rw Hx Hy. f_equal.
    apply (gen_ok_unique ps rank) with (G1 := G) (G2 := G') (i := i); [|done..]. intros j k ?%(loaded_edge m a b ps Hps). by apply Hrank. }
  rewrite (max_of_unique (ranked G l) (ranked G' l')) //. intros x. unfold ranked.
  rw !list_elem_of_fmap. unfold common in *. split; intros (i & -> & Hin); exists i.
  - apply Hl in Hin. split; [by rw HGG|]. apply Hl'. tauto.
  - apply Hl' in Hin. split; [rw HGG; [done|tauto]|]. apply Hl. tauto.
Qed.

Section witnesses.
Definition key_order (ps : Parents) : list ObjectId := (map_to_list ps).*1.
Definition diamond_rank (i : ObjectId) : nat :=
  if decide (i = Oid "tip") then 2 else if decide (i = Oid "base") then 0 else 1.

Lemma key_order_ok : lists_keys key_order.
Proof.
  intros ps i [qs Hq]. apply list_elem_of_fmap. exists (i, qs). split; [done|]. by apply elem_of_map_to_list.
Qed.

Lemma elements_ok : lists_elements elements.
Proof. intros s i. apply elem_of_elements. Qed.

Lemma diamond_acyclic : acyclic diamond.
Proof.
  exists diamond_rank. intros i j (c & Hc%elem_of_list_to_map_2 & Hj). set_unfold.
  destruct_or!; simplify_eq; simpl in Hj; set_unfold; destruct_or!; subst; vm_compute; lia.
Qed.

Lemma find_common_ancestor_spec_witness :
  find_common_ancestor (ancestry_fuel diamond) key_order elements (stored_reads diamond)
    (Oid "left") (Oid "right") = Ok (Oid "base") ∧ common diamond (Oid "left") (Oid "right") (Oid "base").
Proof.
  assert (find_common_ancestor (ancestry_fuel diamond) key_order elements (stored_reads diamond)
    (Oid "left") (Oid "right") = Ok (Oid "base")) as He by by vm_compute.
  split; [exact He|].
  pose proof (find_common_ancestor_spec diamond (ancestry_fuel diamond) key_order elements
    (Oid "left") (Oid "right") diamond_acyclic ltac:(done) key_order_ok elements_ok) as H.
  rewrite He in H. apply H.
Defined.

Lemma find_common_ancestor_symmetric_witness :
  find_common_ancestor (ancestry_fuel diamond) key_order elements (stored_reads diamond)
    (Oid "left") (Oid "right") =
  find_common_ancestor (ancestry_fuel diamond) (λ ps, rev (key_order ps)) (λ s, rev (elements s))
    (stored_reads diamond) (Oid "right") (Oid "left").
Proof.
  apply (find_common_ancestor_symmetric diamond); [apply diamond_acyclic|done|apply key_order_ok| |apply elements_ok|].
  - intros ps i Hi. apply list_elem_of_In, in_rev. rewrite rev_involutive -list_elem_of_In. by apply key_order_ok.
  - intros s i. rewrite list_elem_of_In -in_rev -list_elem_of_In. apply elem_of_elements.
Defined.
End witnesses.
