(* ===== verification/Heights.v ===== *)
(** * Heights: content addresses have no cycles

    The recursions over stored trees end because no object contains its own
    address. This file states that of the hash, as a class beside collision
    freedom, and derives what the walks need: in a content-addressed store no
    tree is higher than there are objects, so that the number of objects is
    fuel enough for every one of them. *)
From S2P Require Import Prelude Objects Stores Diffs.

(** No hash chain leads from an object's address back to itself. *)
Class HashAcyclic `{CH : ContentHash} : Prop :=
  hash_acyclic : well_founded (λ c p, ∃ o, oid_of o = p ∧ finite o ∧ c ∈ children o).

(** Along a relation without cycles nothing is its own predecessor. *)
Lemma wf_irreflexive {A} (R : relation A) x : well_founded R → ¬ tc R x x.
Proof.
  intros Hwf. induction (Hwf x) as [x _ IH]. intros Hx.
  assert (∀ a b, tc R a b → ∃ y, R y b ∧ rtc R a y) as Hlast.
  { induction 1 as [a b Hab|a b c Hab _ (y & Hy & Hr)]; [by exists a|]. exists y. split; [done|by eapply rtc_l]. }
  destruct (Hlast x x Hx) as (y & Hy & Hr).
  apply (IH y Hy). exact (tc_rtc_r y x y (tc_once R y x Hy) Hr).
Qed.

Section heights.
Context `{CH : ContentHash, HA : !HashAcyclic}.

Definition below : relation ObjectId := λ c p, ∃ o, oid_of o = p ∧ finite o ∧ c ∈ children o.

(** Everything above an object is in [above]: what is left bounds its height. *)
Lemma height_left (m : gmap ObjectId Object) n i o (above : gset ObjectId) :
  addressed m → m !! i = Some o → above ⊆ dom m → (∀ j, j ∈ above → tc below i j) →
  size m ≤ n + size above → bounded (λ i, m !! i) (S n) o.
Proof.
  intros Ha. revert i o above. induction n as [|n IH]; intros i o above Hi Hab Htc Hsz.
  all: assert (i ∉ above) as Hn by (intros H; exact (wf_irreflexive _ _ hash_acyclic (Htc i H))).
  all: assert ({[ i ]} ∪ above ⊆ dom m) as Hab'
    by (apply union_subseteq; split; [apply singleton_subseteq_l, elem_of_dom; by exists o|done]).
  all: assert (size ({[ i ]} ∪ above) = S (size above)) as Hs
    by (rewrite size_union ?size_singleton; [done|set_solver]).
  all: pose proof (subseteq_size _ _ Hab') as Hle; rewrite Hs size_dom in Hle; try lia.
  destruct (Ha i o Hi) as [Hoid Hfin].
  intros j c Hj Hc. apply (IH j c ({[ i ]} ∪ above)); [done..| |lia].
  assert (below j i) as Hji by by exists o.
  intros k [->%elem_of_singleton|Hk]%elem_of_union; [by apply tc_once|].
  eapply tc_l; [done|by apply Htc].
Qed.

(** No stored tree is higher than there are objects. *)
Lemma tree_heights (m : gmap ObjectId Object) i o :
  addressed m → m !! i = Some o → bounded (λ i, m !! i) (S (size m)) o.
Proof.
  intros Ha Hi. apply (height_left m (size m) i o ∅); [done|done|apply empty_subseteq|set_solver|lia].
Qed.
End heights.

(** ** The example hash *)

Section plain.
Import Plain.

Lemma string_app_length s t : String.length (s +:+ t) = String.length s + String.length t.
Proof. induction s as [|c s IH]; [done|]. simpl. by f_equal. Qed.

Lemma frames_longer s l : s ∈ l → String.length s < String.length (frames l).
Proof.
  induction l as [|t l IH]; [by intros ?%elem_of_nil|]. simpl. unfold frame.
  rewrite !string_app_length /=. intros [->|Hs%IH]%elem_of_cons; lia.
Qed.

#[export] Instance plain_hash_acyclic : HashAcyclic.
Proof.
  refine (wf_projected Nat.lt (λ i, String.length (oid_bytes i)) _ Nat.lt_wf_0).
  intros c ? (o & <- & Hfin & Hc). destruct o as [a|[m|l|l]]; [by apply elem_of_nil in Hc|..]; simpl.
  - apply Nat.lt_lt_succ_r, frames_longer. apply elem_of_map_children in Hc as [k Hk].
    apply list_elem_of_bind. exists (k, c). split; [by right; left|]. by apply elem_of_entries.
  - apply Nat.lt_lt_succ_r, frames_longer. by apply list_elem_of_fmap_2.
  - apply Nat.lt_lt_succ_r, frames_longer. by apply list_elem_of_fmap_2.
Qed.
End plain.
