(* ===== verification/Integrity.v ===== *)
(** * Integrity: the walks that guard a ref before it moves

    Models the reachability walks of [agentstategraph/src/repo.rs]: the first
    object a state tree is missing, the same restricted to what a new tree adds
    over its base, the nearest ancestor that is readable, and the commits
    reachable from a head with the epoch seals they must cover. Each walk reads
    a snapshot of an append-only store, on fuel: one pop per child slot. *)
From S2P Require Import Prelude Objects Json Intents Sessions Commits Epochs Stores Memory Diffs Guards.
From S2P Require Import Ancestry.

(** ** The code *)

Abbreviation ObjectReads := (ObjectId → result StorageError (option Object)).

Fixpoint first_missing_loop (fuel : nat) (get : ObjectReads) (seen : gset ObjectId)
    (stack : list ObjectId) : result (stop StorageError) (option ObjectId) :=
  match fuel with
  | 0 => Err OutOfFuel
  | S fuel' =>
      match stack with
      | [] => Ok None
      | id :: stack' =>
          if decide (id ∈ seen) then first_missing_loop fuel' get seen stack' else
          o ← map_err Fail (get id);
          match o with
          | None => Ok (Some id)
          | Some o => first_missing_loop fuel' get ({[ id ]} ∪ seen) (push_all (children o) stack')
          end
      end
  end.

Definition first_missing_reachable (fuel : nat) (get : ObjectReads) (root : ObjectId) :
    result (stop StorageError) (option ObjectId) :=
  first_missing_loop fuel get ∅ [root].

(** The entries of the base's counterpart of a map, none when it is no map. *)
Definition base_entries (get : ObjectReads) (base : option ObjectId) :
    result (stop StorageError) (gmap string ObjectId) :=
  match base with
  | None => Ok ∅
  | Some b =>
      o ← map_err Fail (get b);
      Ok (match o with Some (ONode (NMap m)) => m | _ => ∅ end)
  end.

Fixpoint first_missing_new_loop (fuel : nat) (get : ObjectReads) (seen : gset ObjectId)
    (stack : list (ObjectId * option ObjectId)) : result (stop StorageError) (option ObjectId) :=
  match fuel with
  | 0 => Err OutOfFuel
  | S fuel' =>
      match stack with
      | [] => Ok None
      | (id, base) :: stack' =>
          if bool_decide (Some id = base) || bool_decide (id ∈ seen)
          then first_missing_new_loop fuel' get seen stack' else
          o ← map_err Fail (get id);
          match o with
          | None => Ok (Some id)
          | Some (OAtom _) => first_missing_new_loop fuel' get ({[ id ]} ∪ seen) stack'
          | Some (ONode (NMap m)) =>
              bs ← base_entries get base;
              first_missing_new_loop fuel' get ({[ id ]} ∪ seen)
                (push_all ((λ kc, (kc.2, bs !! kc.1)) <$> entries m) stack')
          | Some (ONode (NList l)) | Some (ONode (NSet l)) =>
              first_missing_new_loop fuel' get ({[ id ]} ∪ seen)
                (push_all ((λ c, (c, None)) <$> l) stack')
          end
      end
  end.

Definition first_missing_new (fuel : nat) (get : ObjectReads) (base_root new_root : ObjectId) :
    result (stop StorageError) (option ObjectId) :=
  first_missing_new_loop fuel get ∅ [(new_root, Some base_root)].

Section commits.
Context (get_object : ObjectReads) (get : CommitReads).

Definition first_missing_object (fuel : nat) (id : ObjectId) :
    result (stop RepoError) (option ObjectId) :=
  match get id with
  | Err e => Err (Fail (StorageErr e))
  | Ok None => Err (Fail (CommitMissing (oid_short id)))
  | Ok (Some c) =>
      match first_missing_reachable fuel get_object (state_root c) with
      | Ok r => Ok r
      | Err OutOfFuel => Err OutOfFuel
      | Err (Fail e) => Err (Fail (StorageErr e))
      end
  end.

(** [depth] bounds the first-parent chain, [fuel] each tree. *)
Fixpoint nearest_readable_ancestor (depth fuel : nat) (current : option ObjectId) :
    result (stop StorageError) (option ObjectId) :=
  match depth, current with
  | _, None => Ok None
  | 0, _ => Err OutOfFuel
  | S depth', Some id =>
      c ← map_err Fail (get id);
      match c with
      | None => Ok None
      | Some c =>
          missing ← first_missing_reachable fuel get_object (state_root c);
          match missing with
          | None => Ok (Some id)
          | Some _ => nearest_readable_ancestor depth' fuel (head (parents c))
          end
      end
  end.

Fixpoint reachable_commits_loop (fuel : nat) (seen : gset ObjectId) (stack : list ObjectId) :
    result (stop StorageError) (gset ObjectId) :=
  match fuel with
  | 0 => Err OutOfFuel
  | S fuel' =>
      match stack with
      | [] => Ok seen
      | id :: stack' =>
          if decide (id ∈ seen) then reachable_commits_loop fuel' seen stack' else
          let seen' := {[ id ]} ∪ seen in
          c ← map_err Fail (get id);
          match c with
          | None => reachable_commits_loop fuel' seen' stack'
          | Some c => reachable_commits_loop fuel' seen'
              (push_all (filter (λ p, p ∉ seen') (parents c)) stack')
          end
      end
  end.

(** A [HashSet] turned into a vector: the set. *)
Definition reachable_commits_from (fuel : nat) (head : ObjectId) :
    result (stop StorageError) (gset ObjectId) := reachable_commits_loop fuel ∅ [head].
End commits.

Record EpochViolation := {
  violation_epoch : string;
  unreachable_commits : list ObjectId;
}.

Definition epoch_binds_namespace (e : Epoch) (ns : Namespace) : bool :=
  match epoch_namespace e with
  | Some owner => bool_decide (owner = ns_name ns)
  | None => false
  end.

(** The epochs of a store that a ref move in [ns] must respect. *)
Definition binding_epochs (s : MemoryStorage) (ns : Namespace) : list Epoch :=
  List.filter (λ e, is_closed e && epoch_binds_namespace e ns) (list_epochs s).

Definition violation_of (reachable : gset ObjectId) (e : Epoch) : option EpochViolation :=
  match filter (λ c, c ∉ reachable) (sealed_commits e) with
  | [] => None
  | cs => Some {| violation_epoch := epoch_id e; unreachable_commits := cs |}
  end.

Definition check_epoch_seal_violations (fuel : nat) (s : MemoryStorage) (ns : Namespace)
    (new_ref_target : ObjectId) : result (stop StorageError) (list EpochViolation) :=
  match binding_epochs s ns with
  | [] => Ok []
  | binding =>
      reachable ← reachable_commits_from (λ i, Ok (get_commit s i)) fuel new_ref_target;
      Ok (omap (violation_of reachable) binding)
  end.

(** [enforce_epoch_seals]: the outcome of the check for a ref. *)
Definition enforce_epoch_seals (fuel : nat) (strict : bool) (s : MemoryStorage) (ns : Namespace)
    (ref_name : string) (new_target : ObjectId) : result (stop RepoError) () :=
  match check_epoch_seal_violations fuel s ns new_target with
  | Err OutOfFuel => Err OutOfFuel
  | Err (Fail e) => Err (Fail (StorageErr e))
  | Ok [] => Ok ()
  | Ok (v :: _) =>
      if negb (bool_decide (ref_name = "main")) then Ok ()
      else if strict
      then Err (Fail (EpochSealViolated (violation_epoch v) (unreachable_commits v)))
      else Ok ()
  end.

(** ** State trees as graphs *)

Section trees.
Context (m : gmap ObjectId Object).

(** The ids an id leads to. *)
Definition kids (i : ObjectId) : list ObjectId :=
  match m !! i with Some o => children o | None => [] end.

(** [i] is part of the tree of [root]. *)
Definition part_of (root : ObjectId) : ObjectId → Prop := rtc (succ_edge kids) root.

(** Nothing the tree refers to is missing. *)
Definition intact (root : ObjectId) : Prop := ∀ i, part_of root i → is_Some (m !! i).

Definition stored_objects : ObjectReads := λ i, Ok (m !! i).

(** One pop for the root and one for each child slot. *)
Definition tree_fuel : nat := 2 + weight (λ o, length (children o)) m ∅.

Definition slots (seen : gset ObjectId) : nat := weight (λ o, length (children o)) m seen.

Lemma slots_visit seen i o :
  m !! i = Some o → i ∉ seen → slots seen = length (children o) + slots ({[i]} ∪ seen).
Proof. apply (weight_seen (λ o, length (children o))). Qed.

(** *** The full walk *)

Lemma first_missing_loop_ok root fuel seen stack :
  length stack + slots seen < fuel → visiting kids [root] seen stack →
  (∀ i, i ∈ seen → is_Some (m !! i)) →
  match first_missing_loop fuel stored_objects seen stack with
  | Ok None => intact root
  | Ok (Some i) => part_of root i ∧ m !! i = None
  | Err _ => False
  end.
Proof.
  revert seen stack. induction fuel as [|fuel IH]; [lia|]. intros seen stack Hf Hv Hall.
  destruct stack as [|i stack]; cbn [first_missing_loop].
  { intros i Hi. apply Hall, (visiting_done _ _ _ _ Hv). exists root. set_solver. }
  simpl in Hf. case_decide as Hi; [apply IH; [lia|by eapply visiting_skip|done]|].
  cbn [stored_objects map_err mbind result_bind]. destruct (m !! i) as [o|] eqn:Ho.
  - assert (kids i = children o) as Hk by (unfold kids; by rw Ho).
    rewrite (slots_visit seen i o) // in Hf. apply IH.
    + rw length_push_all. lia.
    + apply visiting_visit; [by rw Hk|by rw Hk|done].
    + intros j [->%elem_of_singleton|Hj]%elem_of_union; [by eexists|by apply Hall].
  - split; [|done]. destruct (vi_sound _ _ _ _ Hv i) as (r & ->%list_elem_of_singleton & ?); [|done].
    right. by left.
Qed.

Lemma first_missing_reachable_ok fuel root :
  tree_fuel ≤ fuel →
  match first_missing_reachable fuel stored_objects root with
  | Ok None => intact root
  | Ok (Some i) => part_of root i ∧ m !! i = None
  | Err _ => False
  end.
Proof.
  intros Hf. apply first_missing_loop_ok; [unfold tree_fuel in Hf; unfold slots; simpl; lia| |set_solver].
  by apply visiting_start.
Qed.

(** *** The walk of what is new *)

Section new.
Context (base new : ObjectId).

Record new_inv (seen : gset ObjectId) (stack : list (ObjectId * option ObjectId)) : Prop := {
  ni_stored : ∀ i, i ∈ seen → is_Some (m !! i);
  ni_closed : ∀ i j, i ∈ seen → succ_edge kids i j → j ∈ seen ∨ j ∈ stack.*1 ∨ part_of base j;
  ni_new : new ∈ seen ∨ new ∈ stack.*1 ∨ part_of base new;
  ni_sound : ∀ i, i ∈ seen ∨ i ∈ stack.*1 → part_of new i;
  ni_base : ∀ i b, (i, Some b) ∈ stack → part_of base b;
}.

Lemma new_inv_skip seen i b stack :
  Some i = b ∨ i ∈ seen → new_inv seen ((i, b) :: stack) → new_inv seen stack.
Proof.
  intros Hi [Hst Hc Hn Hs Hb].
  assert (i ∈ seen ∨ part_of base i) as Hskip.
  { destruct Hi as [<-|?]; [right|by left]. apply (Hb i). by left. }
  assert (∀ j, j ∈ seen ∨ j ∈ ((i, b) :: stack).*1 ∨ part_of base j →
    j ∈ seen ∨ j ∈ stack.*1 ∨ part_of base j) as Hdrop.
  { intros j [?|[Hj|?]]; [by left| |by right; right]. rewrite fmap_cons elem_of_cons in Hj.
    destruct Hj as [->|?]; [destruct Hskip; auto|by right; left]. }
  split; [done|by intros; apply Hdrop, (Hc i0)|by apply Hdrop| |].
  - intros j Hj. apply Hs. rw fmap_cons elem_of_cons. tauto.
  - intros j c Hj. apply (Hb j). by right.
Qed.

Lemma new_inv_visit seen i b stack (todo : list (ObjectId * option ObjectId)) :
  is_Some (m !! i) → todo.*1 = kids i → (∀ j c, (j, Some c) ∈ todo → part_of base c) →
  new_inv seen ((i, b) :: stack) → new_inv ({[i]} ∪ seen) (push_all todo stack).
Proof.
  intros Hi Hk Hbt [Hst Hc Hn Hs Hb].
  assert (∀ x, x ∈ push_all todo stack ↔ x ∈ todo ∨ x ∈ stack) as Hpush.
  { intros x. unfold push_all. rw elem_of_app list_elem_of_In -in_rev -list_elem_of_In. done. }
  assert (∀ j, j ∈ (push_all todo stack).*1 ↔ j ∈ kids i ∨ j ∈ stack.*1) as Hpush1.
  { intros j. unfold push_all. rewrite fmap_app fmap_rev elem_of_app list_elem_of_In -in_rev.
    by rewrite -list_elem_of_In Hk. }
  assert (∀ j, j ∈ seen ∨ j ∈ ((i, b) :: stack).*1 ∨ part_of base j →
    j ∈ {[i]} ∪ seen ∨ j ∈ (push_all todo stack).*1 ∨ part_of base j) as Hmove.
  { intros j. rw Hpush1 fmap_cons elem_of_cons elem_of_union elem_of_singleton /=. tauto. }
  split.
  - intros j [->%elem_of_singleton|Hj]%elem_of_union; [done|by apply Hst].
  - intros j k Hj Hjk. destruct (decide (i = j)) as [<-|Hij].
    + right; left. apply Hpush1. by left.
    + apply Hmove, (Hc j); [|done]. set_solver.
  - by apply Hmove.
  - assert (part_of new i) as Hni by (apply Hs; right; rw fmap_cons; by left).
    intros j. rw Hpush1. intros [[->%elem_of_singleton|Hj]%elem_of_union|[Hj|Hj]].
    + done.
    + apply Hs. by left.
    + eapply rtc_r; [exact Hni|done].
    + apply Hs. right. rw fmap_cons. by right.
  - intros j c [Hj|Hj]%Hpush; [by apply (Hbt j)|]. apply (Hb j). by right.
Qed.

(** Whatever of the new tree is missing is part of the base's. *)
Definition complete_over : Prop := ∀ i, part_of new i → is_Some (m !! i) ∨ part_of base i.

Lemma complete_intact : complete_over → intact base → intact new.
Proof. intros H Hb i [Hi|Hi]%H; [done|by apply Hb]. Qed.

Lemma new_inv_done seen : new_inv seen [] → complete_over.
Proof.
  intros [Hst Hc Hn Hs Hb].
  assert (∀ i, part_of new i → i ∈ seen ∨ part_of base i) as Hall.
  { apply rtc_ind_r; [set_solver|]. intros i j _ Hij [Hi|Hi].
    - specialize (Hc i j Hi Hij). set_solver.
    - right. by eapply rtc_r. }
  intros i [Hi|Hi]%Hall; [left; by apply Hst|by right].
Qed.

Lemma base_entries_ok b :
  (∀ c, b = Some c → part_of base c) →
  ∃ bs, base_entries stored_objects b = Ok bs ∧ ∀ k c, bs !! k = Some c → part_of base c.
Proof.
  intros Hb. unfold base_entries, stored_objects. destruct b as [c|]; [|exists ∅; by split].
  cbn [map_err mbind result_bind]. eexists. split; [done|].
  destruct (m !! c) as [[|[bs| |]]|] eqn:Hc; try by intros.
  intros k d Hk. eapply rtc_r; [by apply Hb|]. unfold succ_edge, kids. rw Hc /=.
  apply list_elem_of_fmap. exists (k, d). split; [done|]. by apply elem_of_entries.
Qed.

Lemma first_missing_new_loop_ok fuel seen stack :
  length stack + slots seen < fuel → new_inv seen stack →
  match first_missing_new_loop fuel stored_objects seen stack with
  | Ok None => complete_over
  | Ok (Some i) => part_of new i ∧ m !! i = None
  | Err _ => False
  end.
Proof.
  revert seen stack. induction fuel as [|fuel IH]; [lia|]. intros seen stack Hf Hv.
  destruct stack as [|[i b] stack]; cbn [first_missing_new_loop]; [by apply (new_inv_done seen)|].
  simpl in Hf. destruct (bool_decide (Some i = b) || bool_decide (i ∈ seen)) eqn:Hskip.
  { apply IH; [lia|]. eapply new_inv_skip; [|done].
    apply orb_true_iff in Hskip as [H|H]; apply bool_decide_eq_true in H; [by left|by right]. }
  apply orb_false_iff in Hskip as [_ Hi%bool_decide_eq_false].
  change (map_err Fail (stored_objects i)) with (Ok (E := stop StorageError) (m !! i)).
  cbn [mbind result_bind]. destruct (m !! i) as [o|] eqn:Ho.
  2: { split; [|done]. apply (ni_sound _ _ Hv). right. rw fmap_cons. by left. }
  assert (kids i = children o) as Hk by (unfold kids; by rw Ho).
  assert (∀ todo, todo.*1 = kids i → (∀ j c, (j, Some c) ∈ todo → part_of base c) →
    match first_missing_new_loop fuel stored_objects ({[i]} ∪ seen) (push_all todo stack) with
    | Ok None => complete_over
    | Ok (Some i) => part_of new i ∧ m !! i = None
    | Err _ => False
    end) as Hgo.
  { intros todo Ht Hbt. apply IH; [|eapply new_inv_visit; [by eexists|done..]].
    rewrite (slots_visit seen i o) // in Hf. rw length_push_all.
    rewrite -(length_fmap fst todo) Ht Hk. lia. }
  assert (∀ l, l = kids i → match first_missing_new_loop fuel stored_objects ({[i]} ∪ seen)
      (push_all ((λ c, (c, None)) <$> l) stack) with
    | Ok None => complete_over
    | Ok (Some i) => part_of new i ∧ m !! i = None
    | Err _ => False
    end) as Hlist.
  { intros l ->. apply Hgo.
    - rw -list_fmap_compose. apply list_fmap_id.
    - intros j c (? & [=] & _)%list_elem_of_fmap. }
  destruct o as [a|[bm|l|l]]; simpl in Hk.
  - apply (Hgo []); [by rw Hk|]. intros j c ?%elem_of_nil. done.
  - destruct (base_entries_ok b) as (bs & -> & Hbs).
    { intros c ->. apply (ni_base _ _ Hv i). by left. }
    cbn [mbind result_bind]. apply Hgo.
    + rw Hk -list_fmap_compose. done.
    + intros j c ([k d] & [= -> Hc] & _)%list_elem_of_fmap. by eapply Hbs.
  - by apply Hlist.
  - by apply Hlist.
Qed.
End new.

Lemma first_missing_new_ok fuel base new :
  tree_fuel ≤ fuel →
  match first_missing_new fuel stored_objects base new with
  | Ok None => complete_over base new
  | Ok (Some i) => part_of new i ∧ m !! i = None
  | Err _ => False
  end.
Proof.
  intros Hf. apply first_missing_new_loop_ok; [unfold tree_fuel in Hf; unfold slots; simpl; lia|].
  split; [set_solver|set_solver|right; left; by left| |].
  - intros i [?|Hi]; [set_solver|]. apply list_elem_of_singleton in Hi as ->. constructor.
  - intros i b [= -> ->]%list_elem_of_singleton. constructor.
Qed.
End trees.

(** Storing more keeps a tree intact. *)
Lemma intact_mono m m' root : m ⊆ m' → intact m root → intact m' root.
Proof.
  intros Hm Hi. assert (∀ i, part_of m' root i → part_of m root i) as Hpart.
  { apply (rtc_ind_r (part_of m root)); [constructor|]. intros i j _ Hij IH. eapply rtc_r; [exact IH|].
    destruct (Hi i IH) as [o Ho]. unfold succ_edge, kids in *.
    rewrite (lookup_weaken _ _ _ _ Ho Hm) in Hij. by rw Ho. }
  intros i Hp. destruct (Hi i (Hpart i Hp)) as [o Ho]. exists o. by eapply lookup_weaken.
Qed.

Lemma part_of_mono m m' root i : m ⊆ m' → part_of m root i → part_of m' root i.
Proof.
  intros Hm. apply rtc_subrel. intros x y. unfold succ_edge, kids.
  destruct (m !! x) as [o|] eqn:Ho; [by rewrite (lookup_weaken _ _ _ _ Ho Hm)|by intros ?%elem_of_nil].
Qed.

(** And complete over its base. *)
Lemma complete_over_mono m m' base new : m ⊆ m' → complete_over m base new → complete_over m' base new.
Proof.
  intros Hm Hc.
  assert (∀ i, part_of m' new i → part_of m new i ∧ is_Some (m !! i) ∨ part_of m' base i) as Hall.
  { assert (∀ i, part_of m new i → part_of m new i ∧ is_Some (m !! i) ∨ part_of m' base i) as Hm1.
    { intros i Hi. destruct (Hc i Hi) as [?|Hb]; [by left|right]. by eapply part_of_mono. }
    apply rtc_ind_r; [apply Hm1; constructor|]. intros i j _ Hij [[Hi [o Ho]]|Hi]; [|right; by eapply rtc_r].
    apply Hm1. eapply rtc_r; [exact Hi|]. revert Hij. unfold succ_edge, kids.
    by rewrite Ho (lookup_weaken _ _ _ _ Ho Hm). }
  intros i [[_ [o Ho]]|Hi]%Hall; [left; exists o; by eapply lookup_weaken|by right].
Qed.

(** ** Commits and epoch seals *)

(** One pop for the head and one for each parent slot. *)
Definition history_fuel (m : gmap ObjectId Commit) : nat := 2 + open_slots m ∅.

Lemma reachable_commits_loop_ok m head fuel seen stack :
  length stack + open_slots m seen < fuel → visiting (parents_of m) [head] seen stack →
  ∃ r, reachable_commits_loop (stored_reads m) fuel seen stack = Ok r ∧
    ∀ i, i ∈ r ↔ ancestor_of m head i.
Proof.
  revert seen stack. induction fuel as [|fuel IH]; [lia|]. intros seen stack Hf Hv.
  destruct stack as [|i stack]; cbn [reachable_commits_loop].
  { exists seen. split; [done|]. intros i. rw (visiting_done _ _ _ i Hv) -rtc_succ_ancestor.
    unfold from_roots. set_solver. }
  simpl in Hf. case_decide as Hi; [apply IH; [lia|by eapply visiting_skip]|].
  cbn [stored_reads map_err mbind result_bind].
  destruct (m !! i) as [c|] eqn:Hc.
  - assert (parents_of m i = parents c) as Hp by (unfold parents_of; by rw Hc).
    unfold open_slots in *. rewrite (weight_seen _ m seen i c) // in Hf. apply IH.
    + rw length_push_all. pose proof (length_filter (λ p, p ∉ {[i]} ∪ seen) (parents c)). lia.
    + apply visiting_visit; [rw Hp; by intros j [_ ?]%list_elem_of_filter| |done].
      rw Hp. intros j Hj Hn. by apply list_elem_of_filter.
  - unfold open_slots in *. apply IH; [rw weight_skip //; lia|].
    change stack with (push_all [] stack). apply visiting_visit; [set_solver| |done].
    intros j. unfold parents_of. rw Hc. by intros ?%elem_of_nil.
Qed.

Lemma reachable_commits_ok m fuel head :
  history_fuel m ≤ fuel →
  ∃ r, reachable_commits_from (stored_reads m) fuel head = Ok r ∧ ∀ i, i ∈ r ↔ ancestor_of m head i.
Proof.
  intros Hf. apply reachable_commits_loop_ok; [unfold history_fuel in Hf; simpl; lia|].
  by apply visiting_start.
Qed.

(** Deciding ancestry in a concrete store. *)
Lemma not_ancestor m head i :
  (λ r, bool_decide (i ∈ r)) <$> reachable_commits_from (stored_reads m) (history_fuel m) head = Ok false →
  ¬ ancestor_of m head i.
Proof.
  destruct (reachable_commits_ok m (history_fuel m) head (le_n _)) as (r & -> & Hin). simpl.
  intros [= Hf%bool_decide_eq_false]. by rw -Hin.
Qed.

(** A sealed or archived epoch of the namespace. *)
Definition binds (s : MemoryStorage) (ns : Namespace) (e : Epoch) : Prop :=
  e ∈ epochs s ∧ is_closed e ∧ epoch_namespace e = Some (ns_name ns).

(** Everything the epoch sealed can be reached from the commit. *)
Definition covers (s : MemoryStorage) (target : ObjectId) (e : Epoch) : Prop :=
  ∀ c, c ∈ sealed_commits e → ancestor_of (commits s) target c.

Lemma elem_of_binding_epochs s ns e : e ∈ binding_epochs s ns ↔ binds s ns e.
Proof.
  unfold binding_epochs, binds, list_epochs, epoch_binds_namespace.
  rw elem_of_List_filter andb_True stable_sort_Permutation.
  destruct (epoch_namespace e); [rw bool_decide_spec|]; naive_solver.
Qed.

Lemma violation_of_None r e : violation_of r e = None ↔ ∀ c, c ∈ sealed_commits e → c ∈ r.
Proof.
  unfold violation_of. assert (∀ c, c ∈ filter (λ c, c ∉ r) (sealed_commits e) ↔
    c ∉ r ∧ c ∈ sealed_commits e) as Hf by (intros c; by rw list_elem_of_filter).
  destruct (filter _ _) as [|c cs].
  - split; [|done]. intros _ c Hc. destruct (decide (c ∈ r)) as [?|Hn]; [done|].
    by pose proof (proj2 (Hf c) (conj Hn Hc)) as ?%elem_of_nil.
  - split; [done|]. intros H. destruct (proj1 (Hf c)) as [Hn Hc]; [by left|]. by destruct (Hn (H c Hc)).
Qed.

Lemma check_epoch_seal_violations_ok s ns target fuel :
  history_fuel (commits s) ≤ fuel →
  ∃ vs, check_epoch_seal_violations fuel s ns target = Ok vs ∧
    (∀ v, v ∈ vs ↔ ∃ e, binds s ns e ∧ ¬ covers s target e ∧
       ∃ r : gset ObjectId, (∀ i, i ∈ r ↔ ancestor_of (commits s) target i) ∧
         violation_of r e = Some v).
Proof.
  intros Hf. unfold check_epoch_seal_violations.
  destruct (reachable_commits_ok (commits s) fuel target Hf) as (r & Hr & Hin).
  unfold stored_reads in Hr. unfold get_commit. rw Hr.
  assert (∀ e v, violation_of r e = Some v → ¬ covers s target e) as Hnc.
  { intros e v Hv Hc. assert (violation_of r e = None); [|congruence]. apply violation_of_None.
    intros c Hcc. by apply Hin, Hc. }
  assert (∀ v, v ∈ omap (violation_of r) (binding_epochs s ns) ↔ ∃ e, binds s ns e ∧ ¬ covers s target e ∧
     ∃ r : gset ObjectId, (∀ i, i ∈ r ↔ ancestor_of (commits s) target i) ∧
         violation_of r e = Some v) as Hvs.
  { intros v. rw list_elem_of_omap. setoid_rewrite elem_of_binding_epochs. split.
    - intros (e & Hb & Hv). exists e. split_and!; [done|by eapply Hnc|]. by exists r.
    - intros (e & Hb & _ & r' & Hr' & Hv). exists e. split; [done|].
      replace r with r'; [done|]. apply set_eq. intros i. by rw Hin Hr'. }
  destruct (binding_epochs s ns) as [|e es]; eexists; split; [done| |done|]; [|exact Hvs].
  exact Hvs.
Qed.

(** On that fuel the seals are always settled. *)
Lemma enforce_epoch_seals_returns s ns strict name target fuel :
  history_fuel (commits s) ≤ fuel → enforce_epoch_seals fuel strict s ns name target ≠ Err OutOfFuel.
Proof.
  intros Hf. unfold enforce_epoch_seals.
  destruct (check_epoch_seal_violations_ok s ns target fuel Hf) as ([|v vs] & -> & _); simpl; [done|].
  case_bool_decide; simpl; [by destruct strict|done].
Qed.

(** ** Properties *)

(** C32: the cheap gate is as good as the full one. On fuel for one pop per
    child slot the walk of what a new tree adds over its base always returns;
    when it finds nothing missing, a new tree over an intact base is intact,
    and what it reports missing is part of the new tree and not stored. *)
Theorem first_missing_new_spec m fuel base new :
  tree_fuel m ≤ fuel →
  match first_missing_new fuel (stored_objects m) base new with
  | Ok None => intact m base → intact m new
  | Ok (Some i) => part_of m new i ∧ m !! i = None
  | Err _ => False
  end.
Proof.
  intros Hf. pose proof (first_missing_new_ok m fuel base new Hf) as H.
  destruct (first_missing_new _ _ _ _) as [[i|]|e]; [done| |done]. by apply complete_intact.
Qed.

(** C33: seals are enforced on [main] and in strict mode only: a move there
    passes exactly when every sealed or archived epoch of the namespace keeps
    all the commits it sealed reachable, and is refused with one such epoch
    and precisely its commits that would be orphaned. *)
Theorem enforce_epoch_seals_spec s ns strict name target fuel :
  history_fuel (commits s) ≤ fuel →
  match enforce_epoch_seals fuel strict s ns name target with
  | Ok _ => name = "main" → strict → ∀ e, binds s ns e → covers s target e
  | Err err => name = "main" ∧ strict ∧ ∃ e cs,
      err = Fail (EpochSealViolated (epoch_id e) cs) ∧ binds s ns e ∧ cs ≠ [] ∧
      ∀ c, c ∈ cs ↔ c ∈ sealed_commits e ∧ ¬ ancestor_of (commits s) target c
  end.
Proof.
  intros Hf. unfold enforce_epoch_seals.
  destruct (check_epoch_seal_violations_ok s ns target fuel Hf) as (vs & -> & Hvs).
  destruct vs as [|v vs].
  { intros _ _ e He c Hc.
    destruct (reachable_commits_ok (commits s) fuel target Hf) as (r & _ & Hr).
    apply Hr. destruct (violation_of r e) as [v|] eqn:Hv; [|by eapply violation_of_None].
    exfalso. apply (not_elem_of_nil v), Hvs. exists e. split_and!; [done| |by exists r].
    intros Hcov. assert (violation_of r e = None); [|congruence]. apply violation_of_None.
    intros c' Hc'. by apply Hr, Hcov. }
  case_bool_decide as Hname; simpl; [|by intros]. destruct strict; [|by intros]. split_and!; [done..|].
  destruct (proj1 (Hvs v)) as (e & He & _ & r & Hr & Hv); [by left|]. exists e, (unreachable_commits v).
  unfold violation_of in Hv.
  assert (∀ c, c ∈ filter (λ c, c ∉ r) (sealed_commits e) ↔
    c ∈ sealed_commits e ∧ ¬ ancestor_of (commits s) target c) as Hin.
  { intros c. rw list_elem_of_filter Hr. tauto. }
  destruct (filter _ _) as [|c cs]; [done|]. injection Hv as <-. by split_and!.
Qed.

Section witnesses.
Import Plain.

(** A base with one entry and a new tree that keeps it and adds another. *)
Definition kept := mk_string "kept".
Definition added := mk_string "added".
Definition old_tree := mk_map {[ "k" := oid_of kept ]}.
Definition new_tree := mk_map {[ "k" := oid_of kept; "n" := oid_of added ]}.
Definition tree_objects : gmap ObjectId Object := sample [kept; added; old_tree; new_tree].

Lemma first_missing_new_spec_witness :
  first_missing_new (tree_fuel tree_objects) (stored_objects tree_objects) (oid_of old_tree)
    (oid_of new_tree) = Ok None ∧
  (intact tree_objects (oid_of old_tree) → intact tree_objects (oid_of new_tree)) ∧
  ∃ i, first_missing_new (tree_fuel tree_objects) (stored_objects (delete (oid_of added) tree_objects))
    (oid_of old_tree) (oid_of new_tree) = Ok (Some i) ∧ delete (oid_of added) tree_objects !! i = None.
Proof.
  assert (first_missing_new (tree_fuel tree_objects) (stored_objects tree_objects) (oid_of old_tree)
    (oid_of new_tree) = Ok None) as He by by vm_compute.
  split; [exact He|]. split.
  - pose proof (first_missing_new_spec tree_objects (tree_fuel tree_objects) (oid_of old_tree)
      (oid_of new_tree) ltac:(done)) as H.
    rewrite He in H. exact H.
  - exists (oid_of added). split; by vm_compute.
Defined.

Definition sealed_epoch : Epoch :=
  epoch_set_sealed_commits
    (epoch_set_status (with_namespace (epoch_new "e1" "release" [] 0%Z) "default") EpochSealed)
    [Oid "left"].
Definition sealed_diamond : MemoryStorage :=
  set_epochs (set_commits mem_new diamond) [sealed_epoch].

Lemma enforce_epoch_seals_spec_witness :
  enforce_epoch_seals (history_fuel diamond) true sealed_diamond default_ns "main" (Oid "tip") = Ok () ∧
  covers sealed_diamond (Oid "tip") sealed_epoch ∧
  enforce_epoch_seals (history_fuel diamond) true sealed_diamond default_ns "main" (Oid "right") =
    Err (Fail (EpochSealViolated "e1" [Oid "left"])).
Proof.
  assert (enforce_epoch_seals (history_fuel diamond) true sealed_diamond default_ns "main" (Oid "tip")
    = Ok ()) as He by by vm_compute.
  split_and!; [exact He| |by vm_compute].
  pose proof (enforce_epoch_seals_spec sealed_diamond default_ns true "main" (Oid "tip")
    (history_fuel diamond) ltac:(done)) as H.
  rewrite He in H. apply H; [done..|]. unfold binds.
  split_and!; [by apply list_elem_of_singleton|by vm_compute|done].
Defined.
End witnesses.
