(* ===== verification/Programs.v ===== *)
(** * Programs: operations as sequences of atomic steps

    The repository is used by many threads and processes over one store, so
    its operations are not functions of the store: each is a tree of atomic
    steps, with whatever the others do in between. This file has the trees,
    running one alone, running a pool of them interleaved, and the proof rules
    of rely-guarantee reasoning that carry what one operation establishes to
    every interleaving. *)
From S2P Require Import Prelude.

(** [Op f k] applies [f] to the shared state in one step and goes on with what
    it returned. *)
Inductive Prog (W E A : Type) : Type :=
  | Ret (r : result E A)
  | Op {R : Type} (f : W → R * W) (k : R → Prog W E A).
Arguments Ret {W E A} r.
Arguments Op {W E A R} f k.

Fixpoint prog_bind {W E A B} (g : A → Prog W E B) (p : Prog W E A) : Prog W E B :=
  match p with
  | Ret (Ok a) => g a
  | Ret (Err e) => Ret (Err e)
  | Op f k => Op f (λ r, prog_bind g (k r))
  end.

#[export] Instance prog_ret {W E} : MRet (Prog W E) := λ A a, Ret (Ok a).
#[export] Instance prog_mbind {W E} : MBind (Prog W E) := λ A B, prog_bind.

Definition of_result {W E A} (r : result E A) : Prog W E A := Ret r.
Definition fail {W E A} (e : E) : Prog W E A := Ret (Err e).
(** One atomic step that may fail. *)
Definition step {W E A} (m : stateful W E A) : Prog W E A := Op m Ret.

(** A program run with nobody else about. *)
Fixpoint run {W E A} (p : Prog W E A) : stateful W E A := λ w,
  match p with
  | Ret r => (r, w)
  | Op f k => run (k (f w).1) (f w).2
  end.

(** A pool of programs: any of them takes the next step. *)
Inductive pool_step {W E A} : list (Prog W E A) * W → list (Prog W E A) * W → Prop :=
  | pool_one i R (f : W → R * W) k ps w :
      ps !! i = Some (Op f k) →
      pool_step (ps, w) (<[i := k (f w).1]> ps, (f w).2).

(** ** Rely-guarantee

    [I] is an invariant of the state, [G] what any step of anyone may do to
    it. *)
Section rely.
Context {W E : Type} (I : W → Prop) (G : W → W → Prop) `{HG : !PreOrder G}.

(** From [w] on, [p] keeps [I] and steps within [G], given that the others do,
    and ends in [Q]. *)
Fixpoint wp {A} (p : Prog W E A) (Q : result E A → W → Prop) (w : W) : Prop :=
  match p with
  | Ret r => Q r w
  | Op f k => ∀ w1, I w1 → G w w1 →
      I (f w1).2 ∧ G w1 (f w1).2 ∧ wp (k (f w1).1) Q (f w1).2
  end.

(** What the steps of others cannot undo. *)
Definition stable (P : W → Prop) : Prop := ∀ w w', I w' → G w w' → P w → P w'.

Lemma wp_stable {A} (p : Prog W E A) Q w w' :
  (∀ r, stable (Q r)) → I w' → G w w' → wp p Q w → wp p Q w'.
Proof.
  intros HQ Hi Hg. destruct p as [r|R f k]; simpl; [by apply HQ|].
  intros Hwp w1 Hi1 Hg1. apply Hwp; [done|by trans w'].
Qed.

Lemma wp_bind {A B} (p : Prog W E A) (g : A → Prog W E B) Q w :
  wp p (λ r w', match r with Ok a => wp (g a) Q w' | Err e => Q (Err e) w' end) w →
  wp (p ≫= g) Q w.
Proof.
  revert w. induction p as [[a|e]|R f k IH]; intros w; [done..|].
  intros Hwp w1 Hi Hg. destruct (Hwp w1 Hi Hg) as (? & ? & ?). split_and!; [done..|]. by apply IH.
Qed.

Lemma wp_mono {A} (p : Prog W E A) (Q Q' : result E A → W → Prop) w :
  (∀ r w', G w w' → Q r w' → Q' r w') → wp p Q w → wp p Q' w.
Proof.
  revert w. induction p as [r|R f k IH]; intros w HQ Hwp; [by apply HQ|].
  intros w1 Hi Hg. destruct (Hwp w1 Hi Hg) as (? & ? & ?). split_and!; [done..|].
  apply IH; [|done]. intros r w' Hg' Hr. apply HQ; [|done]. trans w1; [done|]. by trans (f w1).2.
Qed.

Lemma wp_inv {A} (p : Prog W E A) Q w : I w → wp p Q w → wp p (λ r w', I w' ∧ Q r w') w.
Proof.
  revert w. induction p as [r|R f k IH]; intros w Hw Hwp; [by split|].
  intros w1 Hi Hg. destruct (Hwp w1 Hi Hg) as (? & ? & ?). split_and!; [done..|]. by apply IH.
Qed.

Lemma wp_step {A} (m : stateful W E A) Q w :
  (∀ w1, I w1 → G w w1 → I (m w1).2 ∧ G w1 (m w1).2 ∧ Q (m w1).1 (m w1).2) → wp (step m) Q w.
Proof. done. Qed.

(** A step that only reads. *)
Lemma wp_read {A} (f : W → result E A) Q w :
  (∀ w1, I w1 → G w w1 → Q (f w1) w1) → wp (step (reading f)) Q w.
Proof. intros H w1 Hi Hg. split_and!; [done|by apply reflexivity|by apply H]. Qed.

(** A pool each of whose programs is on its way to its postcondition. *)
Definition pool_ok {A} (ps : list (Prog W E A)) (Qs : list (result E A → W → Prop)) (w : W) : Prop :=
  I w ∧ Forall2 (λ p Q, (∀ r, stable (Q r)) ∧ wp p Q w) ps Qs.

Lemma pool_step_ok {A} (ps ps' : list (Prog W E A)) Qs w w' :
  pool_step (ps, w) (ps', w') → pool_ok ps Qs w → pool_ok ps' Qs w' ∧ G w w'.
Proof.
  inversion 1 as [i R f k ? ? Hi]; subst. intros [Hinv Hall].
  destruct (Forall2_lookup_l _ _ _ _ _ Hall Hi) as (Q & HQi & HQ & Hwp).
  destruct (Hwp w Hinv) as (Hinv' & Hg & Hwp'); [by apply reflexivity|].
  split; [|done]. split; [done|]. rewrite -(list_insert_id Qs i Q HQi). apply Forall2_insert; [|done].
  eapply Forall2_impl; [exact Hall|]. simpl. intros p Q' [HQ' Hp]. split; [done|].
  eapply wp_stable; [done| | |exact Hp]; done.
Qed.

(** Whatever the interleaving, every program that has finished has established
    its postcondition, and it still holds. *)
Lemma pool_sound {A} (ps ps' : list (Prog W E A)) Qs w w' :
  rtc pool_step (ps, w) (ps', w') → pool_ok ps Qs w →
  I w' ∧ G w w' ∧ ∀ i r, ps' !! i = Some (Ret r) → ∃ Q, Qs !! i = Some Q ∧ Q r w'.
Proof.
  intros Hrtc. remember (ps, w) as x eqn:Hx. remember (ps', w') as y eqn:Hy.
  revert ps w Hx. induction Hrtc as [x|x [ps1 w1] y Hst Hrtc IH]; intros ps w -> Hok.
  - injection Hy as -> ->. destruct Hok as [Hi Hall]. split_and!; [done|by apply reflexivity|].
    intros i r Hr. destruct (Forall2_lookup_l _ _ _ _ _ Hall Hr) as (Q & ? & ? & ?). by exists Q.
  - apply pool_step_ok with (Qs := Qs) in Hst as [Hok1 Hg]; [|done].
    destruct (IH Hy ps1 w1 eq_refl Hok1) as (? & ? & ?). split_and!; [done|by trans w1|done].
Qed.

(** Alone, a program is the pool of one: it finishes, in its postcondition. *)
Lemma wp_run {A} (p : Prog W E A) Q w : I w → wp p Q w →
  I (run p w).2 ∧ G w (run p w).2 ∧ Q (run p w).1 (run p w).2.
Proof.
  revert w. induction p as [r|R f k IH]; intros w Hi Hwp; simpl in *.
  - split_and!; [done|by apply reflexivity|done].
  - destruct (Hwp w Hi) as (Hi' & Hg & Hwp'); [by apply reflexivity|].
    destruct (IH (f w).1 (f w).2 Hi' Hwp') as (? & ? & ?). split_and!; [done|by trans (f w).2|done].
Qed.
End rely.

Lemma run_bind {W E A B} (p : Prog W E A) (g : A → Prog W E B) w :
  run (p ≫= g) w = (run p ≫= λ a, run (g a)) w.
Proof.
  revert w. induction p as [[a|e]|R f k IH]; intros w; [done..|]. simpl. rewrite IH. done.
Qed.

(** ** Programs over other states and errors *)

Fixpoint map_error {W E F A} (f : E → F) (p : Prog W E A) : Prog W F A :=
  match p with
  | Ret r => Ret (map_err f r)
  | Op g k => Op g (λ r, map_error f (k r))
  end.

(** What a call returned, as a value. *)
Fixpoint caught {W E F A} (p : Prog W E A) : Prog W F (result E A) :=
  match p with
  | Ret r => Ret (Ok r)
  | Op g k => Op g (λ r, caught (k r))
  end.

(** A program over a part of the state. *)
Fixpoint zoom {V W E A} (get : V → W) (put : V → W → V) (p : Prog W E A) : Prog V E A :=
  match p with
  | Ret r => Ret r
  | Op g k => Op (λ v, match g (get v) with (r, w) => (r, put v w) end) (λ r, zoom get put (k r))
  end.

Lemma run_map_error {W E F A} (f : E → F) (p : Prog W E A) w :
  run (map_error f p) w = (map_err f (run p w).1, (run p w).2).
Proof. revert w. induction p as [r|R g k IH]; intros w; simpl; [done|]. by rewrite IH. Qed.

Lemma run_caught {W E F A} (p : Prog W E A) w :
  run (caught p : Prog W F (result E A)) w = (Ok (run p w).1, (run p w).2).
Proof. revert w. induction p as [r|R g k IH]; intros w; simpl; [done|]. by rewrite IH. Qed.

Lemma run_zoom {V W E A} (get : V → W) (put : V → W → V) (p : Prog W E A) v :
  (∀ v w, get (put v w) = w) → (∀ v w w', put (put v w) w' = put v w') → put v (get v) = v →
  run (zoom get put p) v = ((run p (get v)).1, put v (run p (get v)).2).
Proof.
  intros Hg Hp. revert v. induction p as [r|R g k IH]; intros v Hv; simpl; [by rewrite Hv|].
  destruct (g (get v)) as [r w]. simpl. rewrite IH; [by rewrite Hg Hp|by rewrite Hg Hp].
Qed.

(** ** Retry loops

    [for attempt in first..first + n { if let Some(a) = body(attempt)? { return
    Ok(a) } }], then an error. *)
Fixpoint attempts {W E A} (n first : nat) (gave_up : E) (body : nat → Prog W E (option A)) :
    Prog W E A :=
  match n with
  | 0 => fail gave_up
  | S n' =>
      r ← body first;
      match r with
      | Some a => Ret (Ok a)
      | None => attempts n' (S first) gave_up body
      end
  end.

(** A loop with what each lost attempt leaves behind: [J i] after [i] of them. *)
Lemma wp_attempts {W E A} (I : W → Prop) (G : W → W → Prop) `{HG : !PreOrder G} (J : nat → W → Prop)
    n first (gave_up : E) (body : nat → Prog W E (option A)) Q w :
  J first w →
  (∀ w', J (first + n) w' → Q (Err gave_up) w') →
  (∀ i w', G w w' → J i w' → wp I G (body i) (λ r w', match r with
     | Ok (Some a) => Q (Ok a) w' | Ok None => J (S i) w' | Err e => Q (Err e) w' end) w') →
  wp I G (attempts n first gave_up body) Q w.
Proof.
  intros Hj Hup Hbody.
  assert (∀ w', G w w' → J first w' → wp I G (attempts n first gave_up body) Q w') as H;
    [|by apply H; [apply reflexivity|]].
  clear Hj. revert first Hup. induction n as [|n IH]; intros first Hup w' Hw Hj.
  { apply Hup. by rewrite Nat.add_0_r. }
  cbn [attempts]. apply wp_bind. specialize (Hbody first w' Hw Hj). revert Hbody.
  assert (∀ w', J (S first + n) w' → Q (Err gave_up) w') as Hup' by (intros; apply Hup; by rw Nat.add_succ_r).
  generalize (body first) as p. intros p. clear Hj. revert w' Hw.
  induction p as [[[a|]|e]|R f k IHk]; intros w' Hw; simpl; [done|by intros ?; apply IH|done|].
  intros H w1 Hi Hg. destruct (H w1 Hi Hg) as (? & ? & ?). split_and!; [done..|].
  apply IHk; [|done]. trans w1; [by trans w'|done].
Qed.

(** A [for] loop. *)
Fixpoint each {W E A} (f : A → Prog W E ()) (l : list A) : Prog W E () :=
  match l with
  | [] => mret ()
  | x :: l' => _ ← f x; each f l'
  end.

(** ** Every schedule comes to an end *)

(** What is left of a program after a step. *)
Inductive continues {W E A} : Prog W E A → Prog W E A → Prop :=
  | continues_op R (f : W → R * W) k r : continues (k r) (Op f k).

Lemma continues_wf {W E A} (p : Prog W E A) : Acc continues p.
Proof.
  induction p as [r|R f k IH]; constructor; intros p' H.
  - destruct (match H in continues x y return match y with Ret _ => False | Op _ _ => True end
      with continues_op _ _ _ _ => I end).
  - exact (match H in continues x y return
        match y with Ret _ => True | Op f k => (∀ r, Acc continues (k r)) → Acc continues x end
      with continues_op _ _ _ r => λ H, H r end IH).
Qed.

(** One of the programs has gone on. *)
Definition one_continues {W E A} (qs ps : list (Prog W E A)) : Prop :=
  ∃ i p q, ps !! i = Some p ∧ continues q p ∧ qs = <[i := q]> ps.

Lemma one_continues_wf {W E A} (ps : list (Prog W E A)) : Acc one_continues ps.
Proof.
  induction ps as [|p ps IH]; [constructor; by intros qs (? & ? & ? & ? & _)|].
  revert ps IH. induction (continues_wf p) as [p _ IHp].
  intros ps Hps. pose proof Hps as Hps'. induction Hps' as [ps Hacc IHps].
  constructor. intros qs ([|i] & p0 & q & Hi & Hq & ->); simpl in *.
  - injection Hi as ->. by apply IHp.
  - assert (one_continues (<[i:=q]> ps) ps) as Hone by by exists i, p0, q.
    apply IHps; [done|by apply Hacc].
Qed.

Definition finished {W E A} (p : Prog W E A) : Prop := ∃ r, p = Ret r.

(** No schedule goes on for ever, and one that cannot go on has an answer from
    everyone. *)
Lemma pool_finishes {W E A} (x : list (Prog W E A) * W) :
  Acc (flip pool_step) x ∧ ((∀ y, ¬ pool_step x y) → Forall finished x.1).
Proof.
  destruct x as [ps w]. split.
  - revert w. induction (one_continues_wf ps) as [ps _ IH]. intros w. constructor.
    intros y Hy. inversion Hy as [i R f k ps0 w0 Hi]; subst. apply IH. exists i, (Op f k), (k (f w).1).
    by split_and!; [|constructor|].
  - intros Hstuck. apply Forall_lookup. intros i [r|R f k] Hi; [by exists r|].
    destruct (Hstuck (<[i := k (f w).1]> ps, (f w).2)). by constructor.
Qed.

(** *** Playing a schedule *)

Definition turn {W E A} (i : nat) (x : list (Prog W E A) * W) : list (Prog W E A) * W :=
  match x.1 !! i with
  | Some (Op f k) => (<[i := k (f x.2).1]> x.1, (f x.2).2)
  | _ => x
  end.

Definition play {W E A} (sched : list nat) (x : list (Prog W E A) * W) : list (Prog W E A) * W :=
  foldl (λ x i, turn i x) x sched.

Lemma play_steps {W E A} sched (x : list (Prog W E A) * W) : rtc pool_step x (play sched x).
Proof.
  revert x. induction sched as [|i sched IH]; intros [ps w]; [done|]. simpl. trans (turn i (ps, w)); [|apply IH].
  unfold turn. simpl. destruct (ps !! i) as [[r|R f k]|] eqn:Hi; [done| |done]. by apply rtc_once; constructor.
Qed.

Definition answer {W E A} (x : list (Prog W E A) * W) (i : nat) : option (result E A) :=
  match x.1 !! i with Some (Ret r) => Some r | _ => None end.

Lemma answer_ret {W E A} (x : list (Prog W E A) * W) i r : answer x i = Some r ↔ x.1 !! i = Some (Ret r).
Proof. unfold answer. destruct (x.1 !! i) as [[]|]; naive_solver. Qed.

(** ** Running alone *)

Section alone.
Context {W E : Type}.

Lemma run_bind_ok {A B} (p : Prog W E A) (g : A → Prog W E B) w b w' :
  run (p ≫= g) w = (Ok b, w') ↔ ∃ a w1, run p w = (Ok a, w1) ∧ run (g a) w1 = (Ok b, w').
Proof. rw run_bind. apply stateful_bind_ok. Qed.

Lemma run_step {A} (m : stateful W E A) w : run (step m) w = m w.
Proof. simpl. by destruct (m w). Qed.

(** A loop none of whose rounds fails, with what holds after each. *)
Lemma run_each {A} (f : A → Prog W E ()) (J : list A → W → Prop) l w :
  J [] w →
  (∀ l1 x l2 w', l = l1 ++ x :: l2 → J l1 w' → ∃ w2, run (f x) w' = (Ok (), w2) ∧ J (l1 ++ [x]) w2) →
  ∃ w', run (each f l) w = (Ok (), w') ∧ J l w'.
Proof.
  intros HJ Hf. assert (∀ l1 l2 w', l = l1 ++ l2 → J l1 w' → ∃ w2, run (each f l2) w' = (Ok (), w2) ∧ J l w2) as H;
    [|by apply (H [] l)].
  clear HJ w. intros l1 l2. revert l1. induction l2 as [|x l2 IH]; intros l1 w' Hl Hj.
  - exists w'. rewrite app_nil_r in Hl. by subst l1.
  - destruct (Hf l1 x l2 w' Hl Hj) as (w2 & Hrun & Hj2).
    destruct (IH (l1 ++ [x]) w2) as (w3 & Hrun3 & Hj3); [by rewrite -app_assoc|done|].
    exists w3. split; [|done]. cbn [each]. rewrite run_bind. by rewrite (stateful_seq _ _ _ _ _ Hrun).
Qed.

(** Nothing is left of [p] but to succeed with [Q], and [f] of the state stays. *)
Fixpoint settled {X A} (f : W → X) (Q : A → Prop) (p : Prog W E A) : Prop :=
  match p with
  | Ret (Ok a) => Q a
  | Ret (Err _) => False
  | Op g k => ∀ w, f (g w).2 = f w ∧ settled f Q (k (g w).1)
  end.

(** [p] leaves [f] of the state as it was, but when it succeeds with [Q]: once
    a step of its own has changed it, whatever others do, it can only succeed. *)
Fixpoint unless {X A} (f : W → X) (Q : A → Prop) (p : Prog W E A) : Prop :=
  match p with
  | Ret _ => True
  | Op g k => ∀ w, f (g w).2 = f w ∧ unless f Q (k (g w).1) ∨ settled f Q (k (g w).1)
  end.

Context {X : Type} (f : W → X).

Abbreviation keeps := (unless f (λ _, False)).

Lemma settled_run {A} (p : Prog W E A) Q w : settled f Q p → ∃ a, (run p w).1 = Ok a ∧ Q a.
Proof.
  revert w. induction p as [[a|e]|R g k IH]; intros w; simpl; [by exists a|done|]. intros H. apply IH, H.
Qed.

(** Alone, from the first state to the last. *)
Lemma unless_run {A} (p : Prog W E A) Q w :
  unless f Q p → f (run p w).2 = f w ∨ ∃ a, (run p w).1 = Ok a ∧ Q a.
Proof.
  revert w. induction p as [r|R g k IH]; intros w; simpl; [by left|]. intros H.
  destruct (H w) as [[Hw H']|H']; [rewrite -Hw; by apply IH|right; by apply settled_run].
Qed.

Lemma keeps_run {A} (p : Prog W E A) w : keeps p → f (run p w).2 = f w.
Proof. intros H. by destruct (unless_run p _ w H) as [?|(? & _ & [])]. Qed.

Lemma unless_ret {A} (r : result E A) Q : unless f Q (Ret r).
Proof. done. Qed.

Lemma settled_weaken {A} (p : Prog W E A) (Q Q' : A → Prop) :
  (∀ a, Q a → Q' a) → settled f Q p → settled f Q' p.
Proof.
  intros HQ. induction p as [[a|e]|R g k IH]; simpl; [by apply HQ|done|].
  intros H w. destruct (H w). split; [done|by apply IH].
Qed.

Lemma unless_weaken {A} (p : Prog W E A) (Q Q' : A → Prop) :
  (∀ a, Q a → Q' a) → unless f Q p → unless f Q' p.
Proof.
  intros HQ. induction p as [r|R g k IH]; simpl; [done|]. intros H w.
  destruct (H w) as [[Hw H']|H']; [left; split; [done|by apply IH]|right; by eapply settled_weaken].
Qed.

Lemma unless_step {A} (m : stateful W E A) Q :
  (∀ w, f (m w).2 = f w ∨ ∃ a, (m w).1 = Ok a ∧ Q a) → unless f Q (step m).
Proof. intros H w. destruct (H w) as [Hw|(a & Ha & HQ)]; [by left|right]. simpl. by rewrite Ha. Qed.

Lemma unless_read {A} (g : W → result E A) Q : unless f Q (step (reading g)).
Proof. by left. Qed.

(** What follows a part that may have changed the state only makes the answer. *)
Lemma unless_then {A B} (p : Prog W E A) (g : A → Prog W E B) (Q : A → Prop) (Q' : B → Prop) :
  unless f Q p → (∀ a, Q a → ∃ b, g a = Ret (Ok b) ∧ Q' b) → (∀ a, unless f Q' (g a)) →
  unless f Q' (p ≫= g).
Proof.
  intros Hp HQ Hg.
  assert (∀ p : Prog W E A, settled f Q p → settled f Q' (p ≫= g)) as Hs.
  { induction p0 as [[a|e]|R h k IH]; simpl; [|done|].
    - intros (b & Hb & HQb)%HQ. unfold mbind, prog_mbind. simpl. by rewrite Hb.
    - intros H w. destruct (H w). split; [done|by apply IH]. }
  induction p as [[a|e]|R h k IH]; simpl; [by apply Hg|done|]. intros w.
  destruct (Hp w) as [[Hw H]|H]; [left; split; [done|by apply IH]|right; by apply Hs].
Qed.

Lemma unless_bind {A B} (p : Prog W E A) (g : A → Prog W E B) Q :
  keeps p → (∀ a, unless f Q (g a)) → unless f Q (p ≫= g).
Proof. intros Hp. by apply unless_then with (Q := λ _, False). Qed.

(** The last step of a program: what follows only makes the answer. *)
Lemma unless_map {A B} (p : Prog W E A) (g : A → B) (Q : A → Prop) (Q' : B → Prop) :
  (∀ a, Q a → Q' (g a)) → unless f Q p → unless f Q' (a ← p; mret (g a)).
Proof. intros HQ Hp. eapply unless_then; [exact Hp| |done]. intros a Ha. exists (g a). auto. Qed.

Lemma unless_attempts {A} n first (gave_up : E) (body : nat → Prog W E (option A)) :
  (∀ i, unless f is_Some (body i)) → unless f (λ _, True) (attempts n first gave_up body).
Proof.
  intros Hb. revert first. induction n as [|n IH]; intros first; [done|]. cbn [attempts].
  eapply unless_then; [apply Hb| |]; [intros ? [a ->]; by exists a|]. intros [a|]; [done|apply IH].
Qed.

Lemma unless_each {A} (g : A → Prog W E ()) l : (∀ x, keeps (g x)) → keeps (each g l).
Proof.
  intros Hg. induction l as [|x l IH]; cbn [each]; [apply unless_ret|]. by apply unless_bind.
Qed.

(** A program that reads leaves everything as it was. *)
Lemma reads_keeps {A} (p : Prog W E A) : unless id (λ _, False) p → keeps p.
Proof.
  assert (∀ p : Prog W E A, W → ¬ settled id (λ _, False) p) as Hs.
  { induction p0 as [[a|e]|R g k IH]; intros w H; [done|done|]. eapply (IH (g w).1); [exact w|apply H]. }
  induction p as [r|R g k IH]; simpl; [done|]. intros H w.
  destruct (H w) as [[Hw H']|H']; [|by apply Hs in H']. left. unfold id in Hw. rewrite Hw. split; [done|by apply IH].
Qed.

(** *** In a pool, whatever the others do *)

(** The step of the [i]-th program. *)
Definition turn_of {A} (i : nat) (x y : list (Prog W E A) * W) : Prop :=
  ∃ R (g : W → R * W) k, x.1 !! i = Some (Op g k) ∧ y = (<[i := k (g x.2).1]> x.1, (g x.2).2).

Lemma pool_step_turn {A} (x y : list (Prog W E A) * W) : pool_step x y ↔ ∃ i, turn_of i x y.
Proof.
  split.
  - intros H. inversion H as [i R g k ps w Hi]; subst. exists i, R, g, k. done.
  - intros (i & R & g & k & Hi & ->). destruct x as [ps w]. by constructor.
Qed.

(** What the steps of a program preserve of it holds of it later. *)
Lemma pool_follow {A} (S : Prog W E A → Prop) i (x y : list (Prog W E A) * W) :
  (∀ R (g : W → R * W) k w, S (Op g k) → S (k (g w).1)) →
  rtc pool_step x y → (∃ p, x.1 !! i = Some p ∧ S p) → ∃ p, y.1 !! i = Some p ∧ S p.
Proof.
  intros HS. induction 1 as [x|x y z Hxy _ IH]; [done|]. intros (p & Hp & Hs). apply IH.
  inversion Hxy as [j R g k ps w Hj]; subst. simpl in *. destruct (decide (i = j)) as [<-|Hne].
  - assert (p = Op g k) as -> by congruence. exists (k (g w).1). split; [|by apply HS].
    apply list_lookup_insert_eq. by eapply lookup_lt_Some.
  - exists p. by rewrite list_lookup_insert_ne.
Qed.

Lemma unless_in_pool {A} Q i (p : Prog W E A) x0 x y z e :
  unless f Q p → x0.1 !! i = Some p → rtc pool_step x0 x → turn_of i x y → rtc pool_step y z →
  z.1 !! i = Some (Ret (Err e)) → f y.2 = f x.2.
Proof.
  intros Hp Hi Hx (R & g & k & Hik & ->) Hz Hend.
  destruct (pool_follow (λ q, unless f Q q ∨ settled f Q q) i x0 x) as (q & Hq & Hs); [|done|by exists p; split; [|left]|].
  { intros R' g' k' w [H|H]; [|right; by apply H]. destruct (H w) as [[_ ?]|?]; [by left|by right]. }
  assert (q = Op g k) as -> by congruence. simpl.
  destruct Hs as [H|H]; [|by apply H]. destruct (H x.2) as [[Hw _]|Hs]; [done|exfalso].
  destruct (pool_follow (settled f Q) i _ z (λ R g k w H, proj2 (H w)) Hz) as (r & Hr & Hsr).
  { exists (k (g x.2).1). split; [|done]. simpl. apply list_lookup_insert_eq. by eapply lookup_lt_Some. }
  assert (r = Ret (Err e)) as -> by congruence. done.
Qed.

(** [p] does not fail with [e] from [w]. *)
Definition never {A} (e : E) (p : Prog W E A) (w : W) : Prop := ∀ e' w',
  run p w = (Err e', w') → e' ≠ e.

Lemma never_bind {A B} e (p : Prog W E A) (g : A → Prog W E B) w :
  never e p w → (∀ a w1, run p w = (Ok a, w1) → never e (g a) w1) → never e (p ≫= g) w.
Proof.
  intros Hp Hg e' w'. rw run_bind. unfold mbind, stateful_bind.
  destruct (run p w) as [[a|e1] w1] eqn:Hr; [by apply Hg|]. intros [= <- <-]. by eapply Hp.
Qed.

Lemma never_step {A} e (m : stateful W E A) w : (∀ e', (m w).1 = Err e' → e' ≠ e) → never e (step m) w.
Proof. intros Hm e' w'. rw run_step. intros Hr. apply Hm. by rw Hr. Qed.

Lemma never_ret {A} e (a : A) w : never e (Ret (Ok a)) w.
Proof. by intros e' w' [=]. Qed.
End alone.
Global Arguments settled {W E X A} f Q p.
Global Arguments unless {W E X A} f Q p.
#[export] Hint Resolve unless_ret unless_read : core.

(** ** Moments

    What a rely-guarantee proof forgets is when things happened. [logs p Q h]
    says that [p], which has made the steps [h] so far, keeps [I], makes only
    steps in [S], and ends with an answer and its own steps in [Q], whatever the
    others do to the state between them. *)
Section moments.
Context {W E : Type} (I : W → Prop) (S : W → W → Prop).

Fixpoint logs {A} (p : Prog W E A) (Q : result E A → list (W * W) → Prop) (h : list (W * W)) : Prop :=
  match p with
  | Ret r => Q r h
  | Op f k => ∀ w, I w → I (f w).2 ∧ S w (f w).2 ∧ logs (k (f w).1) Q (h ++ [(w, (f w).2)])
  end.

Lemma logs_mono {A} (p : Prog W E A) (Q Q' : result E A → list (W * W) → Prop) h :
  (∀ r h, Q r h → Q' r h) → logs p Q h → logs p Q' h.
Proof.
  intros HQ. revert h. induction p as [r|R f k IH]; intros h; simpl; [by apply HQ|].
  intros H w Hw. destruct (H w Hw) as (? & ? & ?). split_and!; [done..|by apply IH].
Qed.

Lemma logs_bind {A B} (p : Prog W E A) (g : A → Prog W E B) Q h :
  logs p (λ r h, match r with Ok a => logs (g a) Q h | Err e => Q (Err e) h end) h → logs (p ≫= g) Q h.
Proof.
  revert h. induction p as [[a|e]|R f k IH]; intros h; [done..|]. simpl.
  intros H w Hw. destruct (H w Hw) as (? & ? & ?). split_and!; [done..|by apply IH].
Qed.

Lemma logs_attempts {A} n first (gave_up : E) (body : nat → Prog W E (option A)) Q h :
  (∀ h, Q (Err gave_up) h) →
  (∀ i h, logs (body i) (λ r h, match r with
     | Ok (Some a) => Q (Ok a) h | Ok None => True | Err e => Q (Err e) h end) h) →
  logs (attempts n first gave_up body) Q h.
Proof.
  intros Hup Hb. revert first h. induction n as [|n IH]; intros first h; [apply Hup|]. cbn [attempts].
  apply logs_bind. eapply logs_mono; [|apply Hb]. by intros [[a|]|e] h'.
Qed.

Lemma logs_each {A} (f : A → Prog W E ()) l (Q : result E () → list (W * W) → Prop) h :
  (∀ r h, Q r h) → (∀ x h, x ∈ l → logs (f x) (λ _ _, True) h) → logs (each f l) Q h.
Proof.
  intros HQ Hf. revert h. induction l as [|x l IH]; intros h; cbn [each]; [apply HQ|].
  apply logs_bind. eapply logs_mono; [|apply Hf; by left]. intros [[]|e] h' _; [|apply HQ].
  apply IH. intros y h2 Hy. apply Hf. by right.
Qed.

(** A step the [i]-th program made on the way from [x] to [z], from the state
    [a] to the state [b]. *)
Definition moment {A} (i : nat) (x z : list (Prog W E A) * W) (a b : W) : Prop :=
  ∃ y y', rtc pool_step x y ∧ turn_of i y y' ∧ rtc pool_step y' z ∧ y.2 = a ∧ y'.2 = b.

Lemma moment_later {A} i (x z z' : list (Prog W E A) * W) a b :
  rtc pool_step z z' → moment i x z a b → moment i x z' a b.
Proof. intros Hz (y & y' & H1 & H2 & H3 & H4). exists y, y'. split_and!; [done|done|by trans z|by apply H4..]. Qed.

(** The steps that were logged were made. *)
Lemma pool_logs {A} (ps : list (Prog W E A)) Qs w x :
  I w → Forall2 (λ p Q, logs p Q []) ps Qs → rtc pool_step (ps, w) x →
  I x.2 ∧ ∀ i p, x.1 !! i = Some p → ∃ Q h, Qs !! i = Some Q ∧ logs p Q h ∧
    ∀ a b, (a, b) ∈ h → moment i (ps, w) x a b.
Proof.
  intros Hw Hps. revert x. apply rtc_ind_r; [|intros y z Hy Hyz [Hi IH]].
  { split; [done|]. intros i p Hp. destruct (Forall2_lookup_l _ _ _ _ _ Hps Hp) as (Q & ? & ?).
    exists Q, []. split_and!; [done|done|]. intros a b Hab. by apply not_elem_of_nil in Hab. }
  pose proof Hyz as (j & R & f & k & Hj & ->)%pool_step_turn.
  destruct (IH j _ Hj) as (Q & h & HQ & Hl & Hh). destruct (Hl y.2 Hi) as (Hi' & HS & Hl').
  split; [done|]. intros i p Hp. simpl in Hp. destruct (decide (i = j)) as [->|Hne].
  - rewrite list_lookup_insert_eq in Hp; [|by eapply lookup_lt_Some]. injection Hp as <-.
    exists Q, (h ++ [(y.2, (f y.2).2)]). split_and!; [done|done|].
    intros a b [Hab|[= -> ->]%list_elem_of_singleton]%elem_of_app.
    + eapply moment_later; [by apply rtc_once|by apply Hh].
    + exists y. eexists. split_and!; [done|by exists R, f, k|done|done|done].
  - rewrite list_lookup_insert_ne // in Hp. destruct (IH i p Hp) as (Q' & h' & ? & ? & Hh').
    exists Q', h'. split_and!; [done|done|]. intros a b Hab. eapply moment_later; [by apply rtc_once|by apply Hh'].
Qed.

(** And every step of the run is one of [S]. *)
Lemma pool_logs_step {A} (ps : list (Prog W E A)) Qs w x y :
  I w → Forall2 (λ p Q, logs p Q []) ps Qs → rtc pool_step (ps, w) x → pool_step x y → S x.2 y.2.
Proof.
  intros Hw Hps Hrun (j & R & f & k & Hj & ->)%pool_step_turn.
  destruct (pool_logs ps Qs w x Hw Hps Hrun) as [Hi Hall]. destruct (Hall j _ Hj) as (Q & h & _ & Hl & _).
  by apply (Hl x.2 Hi).
Qed.
End moments.
