(* ===== verification/Repos.v ===== *)
(** * Repos: the repository's operations

    Models the operations of [agentstategraph/src/repo.rs] that read and move
    refs, as programs of atomic steps over a store other writers share: each
    call of the storage interface is one step, over the in-memory backend
    (which keeps no leaf index, so index upkeep does nothing, and no GC pins).
    The reads and writes of one walk over immutable objects and commits are
    taken as one step. What the code reads from the clock, from the tracing
    context and from the iteration order of a hash map is an argument. A
    repository has no active epoch here. *)
From S2P Require Import Prelude Objects Paths Json Intents Sessions Commits Epochs Taints Stores Memory.
From S2P Require Import Diffs Merges Trees Specs Guards Ancestry Integrity Programs.

(** What the repositories of all processes share, and the speculations each
    instance holds. *)
Record World := {
  w_store : MemoryStorage;
  w_specs : gmap string SpeculationManager;
}.

Definition with_store (w : World) (s : MemoryStorage) : World :=
  {| w_store := s; w_specs := w_specs w |}.

Record Repository := {
  instance : string;
  repo_namespace : Namespace;
  active_session : option string;
  active_session_namespace : option Namespace;
  epoch_seal_strict : bool;
  branch_refs_only : bool;
}.

Definition instance_specs (w : World) (r : Repository) : SpeculationManager :=
  default specs_new (w_specs w !! instance r).

Definition MAX_REF_CAS_ATTEMPTS : nat := 256.

Abbreviation RE := (stop RepoError).
Abbreviation P := (Prog World RE).

(** ** Steps *)

Definition throw_repo {A} (e : RepoError) : P A := fail (Fail e).
Definition lift_repo {A} (r : result RepoError A) : P A := of_result (map_err Fail r).

(** One call of the storage interface. *)
Definition storage {A} (m : stateful MemoryStorage StorageError A) : P A := step (λ w,
  match m (w_store w) with (r, s) => (map_err (λ e, Fail (StorageErr e)) r, with_store w s) end).

(** A tree operation on the store. *)
Definition on_tree {A} (m : stateful MemoryStorage TreeError A) : P A := step (λ w,
  match m (w_store w) with (r, s) => (map_err (λ e, Fail (TreeErr e)) r, with_store w s) end).

(** A read of the store. *)
Definition read_store {A} (f : MemoryStorage → result RE A) : P A :=
  step (reading (λ w, f (w_store w))).

Definition stop_storage {A} (r : result (stop StorageError) A) : result RE A :=
  match r with
  | Ok a => Ok a
  | Err OutOfFuel => Err OutOfFuel
  | Err (Fail e) => Err (Fail (StorageErr e))
  end.

Definition parse_repo_path (path : string) : P StatePath :=
  lift_repo (map_err (λ e, TreeErr (PathNotFound (path_error_to_string e))) (parse path)).

(** [get_commit(id)?.ok_or(e)]. *)
Definition require_commit (id : ObjectId) (e : RepoError) : P Commit :=
  read_store (λ s, ok_or (Fail e) (get_commit s id)).

Definition active_namespace (r : Repository) : Namespace :=
  default (repo_namespace r) (active_session_namespace r).

(** ** Resolving refs *)

Definition prefix_matches (prefix : string) (ids : list ObjectId) : list ObjectId :=
  dedup (merge_sort oid_le (List.filter (λ id, starts_with prefix (oid_to_hex id)) ids)).

Definition resolve_commit_ref (ref_name : string) : P ObjectId :=
  match from_hex ref_name with
  | Some id =>
      found ← read_store (λ s, Ok (has_commit s id));
      if found : bool then mret id else throw_repo (CommitMissing ref_name)
  | None =>
      match normalize_hex_prefix ref_name with
      | None => throw_repo (BranchNotFound ref_name)
      | Some prefix =>
          matches ← read_store (λ s, Ok (prefix_matches prefix (all_commit_ids s)));
          match matches with
          | [] => throw_repo (CommitMissing ref_name)
          | [id] => mret id
          | _ => throw_repo (AmbiguousCommitPrefix ref_name (length matches))
          end
      end
  end.

Definition is_some_of {A} (o : option A) : bool := match o with Some _ => true | None => false end.

Definition resolve_ref (r : Repository) (ref_name : string) : P ObjectId :=
  id ← storage (reading (λ s, get_ref s (active_namespace r) ref_name));
  match id with
  | Some id => mret id
  | None =>
      if branch_refs_only r then
        throw_repo (if is_some_of (from_hex ref_name) || is_some_of (normalize_hex_prefix ref_name)
                    then CommitRefNotAllowed ref_name else BranchNotFound ref_name)
      else resolve_commit_ref ref_name
  end.

Definition head_of (r : Repository) (ref_name : string) : P ObjectId := resolve_ref r ref_name.

(** ** Reading *)

Section reads.
Context `{CH : ContentHash}.

Definition get_inner (r : Repository) (ref_name path : string) : P Object :=
  if path_is_secret path then throw_repo (ReservedPath path) else
  commit_id ← resolve_ref r ref_name;
  commit ← require_commit commit_id (RefMissing ref_name);
  state_path ← parse_repo_path path;
  on_tree (reading (λ s, tree_get s (state_root commit) state_path)).

Definition get_with_intent_inner (r : Repository) (ref_name path : string) (i : Intent) : P Object :=
  _ ← lift_repo (check_secret_read_guard path i);
  commit_id ← resolve_ref r ref_name;
  commit ← require_commit commit_id (RefMissing ref_name);
  state_path ← parse_repo_path path;
  on_tree (reading (λ s, tree_get s (state_root commit) state_path)).

End reads.

(** ** Moving refs *)

Definition enforce_seals (r : Repository) (ref_name : string) (new_target : ObjectId) : P () :=
  read_store (λ s, enforce_epoch_seals (history_fuel (commits s)) (epoch_seal_strict r) s
                     (active_namespace r) ref_name new_target).

Definition guarded_set_ref (r : Repository) (ref_name : string) (new_target : ObjectId) : P () :=
  _ ← lift_repo (refuse_reserved_ref ref_name);
  _ ← enforce_seals r ref_name new_target;
  storage (set_ref (active_namespace r) ref_name new_target).

Definition advance_ref (r : Repository) (ref_name : string) (expected new_target : ObjectId) : P bool :=
  _ ← lift_repo (refuse_reserved_ref ref_name);
  _ ← enforce_seals r ref_name new_target;
  storage (cas_ref (active_namespace r) ref_name expected new_target).

Definition fast_forward_ref (ns : Namespace) (ref_name : string) (expected new_target : ObjectId) :
    P bool := storage (cas_ref ns ref_name expected new_target).

Definition head_for_write (r : Repository) (ref_name : string) : P (ObjectId * bool) :=
  _ ← lift_repo (refuse_reserved_ref ref_name);
  id ← storage (reading (λ s, get_ref s (active_namespace r) ref_name));
  match id with
  | Some id => mret (id, true)
  | None => id ← resolve_ref r ref_name; mret (id, false)
  end.

Definition move_ref (r : Repository) (ref_name : string) (expected : ObjectId) (is_branch : bool)
    (new_target : ObjectId) : P bool :=
  if is_branch then advance_ref r ref_name expected new_target
  else _ ← guarded_set_ref r ref_name new_target; mret true.

(** ** Making commits *)

Section writes.
Context `{CH : ContentHash, CS : CommitSerial}.

(** The builder chain of [create_commit]. *)
Definition commit_builder (root : ObjectId) (ps : list ObjectId) (o : CommitOptions) : CommitBuilder :=
  let b := builder_parents (builder_new root (opt_agent_id o) (opt_authority o) (opt_intent o)) ps in
  let b := match opt_reasoning o with Some x => builder_reasoning b x | None => b end in
  let b := match opt_confidence o with Some x => builder_confidence b x | None => b end in
  match opt_tool_calls o with [] => b | calls => builder_tool_calls b calls end.

Definition put_commit_step (c : Commit) : P () := storage (λ s, (Ok (), put_commit s c)).

(** [put_commit_traced], the default of the trait: one store, then the other. *)
Definition put_commit_traced (c : Commit) (trace : option CommitTrace) : P () :=
  _ ← put_commit_step c;
  match trace with
  | Some t => storage (λ s, (Ok (), set_commit_trace s (commit_id c) t))
  | None => mret ()
  end.

Definition create_commit (r : Repository) (now : Time) (trace : option CommitTrace)
    (root : ObjectId) (ps : list ObjectId) (o : CommitOptions) : P Commit :=
  let commit := build (commit_builder root ps o) now in
  _ ← put_commit_traced commit trace;
  _ ← match active_session r with
      | Some session_id => storage (set_commit_session (commit_id commit) session_id)
      | None => mret ()
      end;
  mret commit.

(** The checks a write makes before it looks at the ref. *)
Definition write_guards (now : Time) (path : string) (o : CommitOptions) : P StatePath :=
  _ ← lift_repo (check_meta_guard path (opt_intent o));
  _ ← (if is_taint_lifecycle_intent (category (opt_intent o)) then mret [] else
       read_store (λ s, map_err Fail (pre_commit_taint_check s now [path] o)));
  parse_repo_path path.

(** One turn of the retry loop: [edit] makes the new root from the head's. *)
Definition write_attempt (r : Repository) (now : Time) (trace : option CommitTrace) (ref_name : string)
    (o : CommitOptions) (edit : ObjectId → stateful MemoryStorage TreeError ObjectId) :
    P (option ObjectId) :=
  '(head_id, is_branch) ← head_for_write r ref_name;
  commit ← require_commit head_id (RefMissing ref_name);
  new_root ← on_tree (edit (state_root commit));
  new_commit ← create_commit r now trace new_root [head_id] o;
  landed ← move_ref r ref_name head_id is_branch (commit_id new_commit);
  mret (if landed : bool then Some (commit_id new_commit) else None).

(** [clock] is the time of each attempt. *)
Definition set_inner (r : Repository) (now : Time) (clock : nat → Time) (trace : option CommitTrace)
    (ref_name path : string) (value : Object) (o : CommitOptions) : P ObjectId :=
  state_path ← write_guards now path o;
  attempts MAX_REF_CAS_ATTEMPTS 0 (Fail WriteConflict) (λ attempt,
    write_attempt r (clock attempt) trace ref_name o (λ root, tree_set root state_path value)).

Definition delete_inner (r : Repository) (now : Time) (clock : nat → Time) (trace : option CommitTrace)
    (ref_name path : string) (o : CommitOptions) : P ObjectId :=
  state_path ← write_guards now path o;
  attempts MAX_REF_CAS_ATTEMPTS 0 (Fail WriteConflict) (λ attempt,
    write_attempt r (clock attempt) trace ref_name o (λ root, tree_delete root state_path)).

(** ** Branches *)

Definition branch (r : Repository) (name from : string) : P ObjectId :=
  _ ← lift_repo (refuse_reserved_ref name);
  taken ← storage (reading (λ s, get_ref s (active_namespace r) name));
  match taken with
  | Some _ => throw_repo (BranchAlreadyExists name)
  | None =>
      commit_id ← resolve_ref r from;
      created ← storage (create_ref (active_namespace r) name commit_id);
      if created : bool then mret commit_id else throw_repo (BranchAlreadyExists name)
  end.

Definition delete_branch (r : Repository) (name : string) : P bool :=
  _ ← lift_repo (refuse_deleting_main name);
  _ ← lift_repo (refuse_reserved_ref name);
  storage (Memory.delete_ref (active_namespace r) name).

Definition delete_branch_if (r : Repository) (name : string) (expected : ObjectId) : P bool :=
  _ ← lift_repo (refuse_deleting_main name);
  _ ← lift_repo (refuse_reserved_ref name);
  storage (cas_delete_ref (active_namespace r) name expected).

Definition list_branches (r : Repository) (prefix : option string) : P (list (string * ObjectId)) :=
  refs ← storage (reading (λ s, list_refs s (active_namespace r) (default EmptyString prefix)));
  mret (List.filter (λ kv, negb (is_reserved_ref kv.1) && negb (is_tracking_ref kv.1)) refs).
End writes.
