(* ===== verification/Rules.v ===== *)
(** * Rules: what operations of the repository may do to the shared store

    The invariant of the shared store, what any step may do to it (the
    relation [evolves]), and a proof rule for each step and each operation of
    [Repos]: that it stays within that relation whatever runs beside it, and
    what its answer then means. *)
From S2P Require Import Prelude Objects Paths Json Intents Sessions Commits Epochs Taints Stores Memory.
From S2P Require Import Diffs Merges Trees Specs Guards Ancestry Integrity Programs Repos.

(** A commit id determines the tree and the parents of the commit: what the
    content address is relied on for. *)
Class CommitCollisionFree `{CH : ContentHash, CS : CommitSerial} : Prop :=
  commit_collision_free c1 c2 : compute_id c1 = compute_id c2 →
    state_root c1 = state_root c2 ∧ parents c1 = parents c2.

(** ** Stores and how they evolve *)

(** Commits stay, with their tree and parents. *)
Definition commits_grow (m m' : gmap ObjectId Commit) : Prop := ∀ i c, m !! i = Some c →
  ∃ c', m' !! i = Some c' ∧ state_root c' = state_root c ∧ parents c' = parents c.

#[export] Instance commits_grow_preorder : PreOrder commits_grow.
Proof.
  split; [intros m i c Hc; by exists c|]. intros m1 m2 m3 H1 H2 i c Hc.
  destruct (H1 i c Hc) as (c1 & Hc1 & Hr1 & Hp1). destruct (H2 i c1 Hc1) as (c2 & Hc2 & Hr2 & Hp2).
  exists c2. split_and!; [done|congruence..].
Qed.

Lemma ancestor_grow m m' i j : commits_grow m m' → ancestor_of m i j → ancestor_of m' i j.
Proof.
  intros Hm. apply rtc_subrel. intros x y (c & Hc & Hy). destruct (Hm x c Hc) as (c' & Hc' & _ & Hp).
  exists c'. by rw Hp.
Qed.

(** [r] points at [h], or at a commit made since on top of it. *)
Definition at_or_past (s : MemoryStorage) (k : string * string) (h : ObjectId) : Prop :=
  ∃ h', refs s !! k = Some h' ∧ ancestor_of (commits s) h' h.

(** A speculation a repository instance holds. *)
Definition open_spec (w : World) (r : Repository) (h : SpecHandle) (sp : Speculation) : Prop :=
  specs (instance_specs w r) !! h = Some sp.

(** [K] are the refs under guard: those that exist when the writers start.
    They are neither deleted nor moved back. *)
Section evolution.
Context (K : string * string → Prop).

Record evolves (s s' : MemoryStorage) : Prop := {
  ev_objects : objects s ⊆ objects s';
  ev_commits : commits_grow (commits s) (commits s');
  ev_refs : ∀ k h, K k → refs s !! k = Some h → at_or_past s' k h;
}.

#[export] Instance evolves_preorder : PreOrder evolves.
Proof.
  split.
  - intros s. split; [done|done|]. intros k h _ Hh. by exists h.
  - intros s1 s2 s3 [O1 C1 R1] [O2 C2 R2]. split; [by trans (objects s2)|by trans (commits s2)|].
    intros k h Hn Hh. destruct (R1 k h Hn Hh) as (h2 & Hh2 & A2).
    destruct (R2 k h2 Hn Hh2) as (h3 & Hh3 & A3). exists h3. split; [done|].
    trans h2; [done|]. by eapply ancestor_grow.
Qed.
End evolution.

Section invariant.
Context `{CH : ContentHash, CS : CommitSerial}.
Context (K : string * string → Prop).

Record consistent (s : MemoryStorage) : Prop := {
  co_objects : addressed (objects s);
  co_ids : ∀ i c, commits s !! i = Some c → commit_id c = i ∧ compute_id c = i;
  co_refs : ∀ k i, refs s !! k = Some i → is_Some (commits s !! i);
}.

Record store_ok (s : MemoryStorage) : Prop := {
  so_consistent : consistent s;
  so_kept : ∀ k, K k → is_Some (refs s !! k);
}.

Lemma so_objects s : store_ok s → addressed (objects s).
Proof. intros H. apply H. Qed.

Lemma so_refs s k i : store_ok s → refs s !! k = Some i → is_Some (commits s !! i).
Proof. intros H. apply H. Qed.

Definition world_ok (w : World) : Prop := store_ok (w_store w).
(** The store evolves, and speculations are at most closed. *)
Record world_step (w w' : World) : Prop := {
  ws_store :> evolves K (w_store w) (w_store w');
  ws_specs : ∀ r h sp, open_spec w' r h sp → open_spec w r h sp;
}.

#[export] Instance world_step_preorder : PreOrder world_step.
Proof.
  split; [intros w; split; [apply (reflexivity (R := evolves K))|done]|].
  intros w1 w2 w3 [E1 S1] [E2 S2]. split; [by trans (w_store w2)|]. intros r h sp H. by apply S1, S2.
Qed.

Lemma with_store_step w s' : evolves K (w_store w) s' → world_step w (with_store w s').
Proof. by split. Qed.

Abbreviation wpw := (wp world_ok world_step).

(** *** What each kind of step keeps *)

(** Only objects change: the tree operations. *)
Definition objects_only (s s' : MemoryStorage) : Prop := s' = set_objects s (objects s').

#[export] Instance objects_only_preorder : PreOrder objects_only.
Proof.
  split; [by intros []|]. unfold objects_only. intros [] [] []; simpl. unfold set_objects. simpl. congruence.
Qed.

Lemma put_object_only o (s : MemoryStorage) r (s' : MemoryStorage) : put_object o s = (r, s') → objects_only s s'.
Proof.
  simpl. unfold mem_put_object, objects_only. destruct (objects s !! oid_of o); intros [= <- <-]; by destruct s.
Qed.

(** And no object goes away. *)
Definition objects_added (s s' : MemoryStorage) : Prop := objects_only s s' ∧ objects s ⊆ objects s'.

#[export] Instance objects_added_preorder : PreOrder objects_added.
Proof.
  split; [by intros s; split|]. intros s1 s2 s3 [O1 S1] [O2 S2]. split; [by trans s2|by trans (objects s2)].
Qed.

Lemma put_object_added o (s : MemoryStorage) r (s' : MemoryStorage) : put_object o s = (r, s') → objects_added s s'.
Proof.
  intros Hp. split; [by eapply put_object_only|]. revert Hp. simpl. unfold mem_put_object.
  destruct (objects s !! oid_of o) eqn:Ho; intros [= <- <-]; [done|]. by apply insert_subseteq.
Qed.

Lemma objects_only_step (s s' : MemoryStorage) :
  store_ok s → objects_only s s' → objects s ⊆ objects s' → addressed (objects s') →
  store_ok s' ∧ evolves K s s'.
Proof.
  intros [[So Si Sr] Sk] Ho Hsub Ha.
  assert (commits s' = commits s) as Hc by (rw Ho; done).
  assert (refs s' = refs s) as Hr by (rw Ho; done).
  split; [split; [split|]|split]; rw ?Hc ?Hr; try done. intros k h _ Hh. exists h. by rw Hr.
Qed.

Lemma same_step (s s' : MemoryStorage) :
  store_ok s → objects s' = objects s → commits s' = commits s → refs s' = refs s →
  store_ok s' ∧ evolves K s s'.
Proof.
  intros [[So Si Sr] Sk] Ho Hc Hr. split; [split; [split|]|split]; rw ?Ho ?Hc ?Hr; try done.
  intros k h _ Hh. exists h. by rw Hr.
Qed.

Context `{CCF : !CommitCollisionFree}.

Lemma put_commit_ok (s : MemoryStorage) c :
  store_ok s → commit_id c = compute_id c →
  store_ok (put_commit s c) ∧ evolves K s (put_commit s c) ∧
  commits (put_commit s c) !! commit_id c = Some c.
Proof.
  intros [[So Si Sr] Sk] Hid.
  assert (commits_grow (commits s) (<[commit_id c := c]> (commits s))) as Hg.
  { intros i c0 Hc0. destruct (decide (commit_id c = i)) as [<-|Hne].
    - exists c. split; [apply lookup_insert_eq|]. destruct (Si _ _ Hc0) as [_ Hc0id].
      apply commit_collision_free. congruence.
    - exists c0. by rw lookup_insert_ne. }
  split_and!; [split; [split|]|split|]; simpl; try done.
  - intros i c0 [[<- <-]|[_ Hc0]]%lookup_insert_Some; [done|by apply Si].
  - intros k i [c0 Hc0]%Sr. destruct (Hg i c0 Hc0) as (? & ? & _). by eexists.
  - intros k h _ Hh. by exists h.
  - apply lookup_insert_eq.
Qed.

(** A ref is created, or moved forward; one that is not guarded goes anywhere. *)
Lemma set_refs_ok (s : MemoryStorage) k i :
  store_ok s → is_Some (commits s !! i) →
  (K k → ∀ h, refs s !! k = Some h → ancestor_of (commits s) i h) →
  store_ok (set_refs s (<[k := i]> (refs s))) ∧ evolves K s (set_refs s (<[k := i]> (refs s))).
Proof.
  intros [[So Si Sr] Sk] Hi Hf. split; [split; [split|]|split]; simpl; try done.
  - intros k' j [[<- <-]|[_ ?]]%lookup_insert_Some; [done|by eapply Sr].
  - intros k' Hk. destruct (decide (k = k')) as [<-|Hne]; [rw lookup_insert_eq; by eexists|].
    rw lookup_insert_ne //. by apply Sk.
  - intros k' h Hn Hh. unfold at_or_past. simpl. destruct (decide (k = k')) as [<-|Hne].
    + exists i. split; [apply lookup_insert_eq|by apply Hf].
    + exists h. by rw lookup_insert_ne.
Qed.

(** *** Stability *)

Lemma stored_stable i :
  stable world_ok world_step (λ w, is_Some (commits (w_store w) !! i)).
Proof. intros w w' _ Hg [c Hc]. destruct (ev_commits _ _ _ Hg i c Hc) as (? & ? & _). by eexists. Qed.

Lemma at_or_past_stable k h :
  K k → stable world_ok world_step (λ w, at_or_past (w_store w) k h).
Proof.
  intros Hk w w' _ Hg (h1 & Hh1 & Ha). destruct (ev_refs _ _ _ Hg k h1 Hk Hh1) as (h2 & Hh2 & Ha2).
  exists h2. split; [done|]. trans h1; [done|]. eapply ancestor_grow; [apply Hg|done].
Qed.

(** ** Rules for the steps *)

(** The shape of every postcondition: what holds on success. No step fails for
    lack of fuel, and none but a retry loop gives up on a contended ref. *)
Definition ok_post {A} (Q : A → World → Prop) (r : result RE A) (w : World) : Prop :=
  match r with Ok a => Q a w | Err e => e ≠ OutOfFuel ∧ e ≠ Fail WriteConflict end.

Lemma wp_seq {A B} (p : P A) (k : A → P B) R Q w :
  wpw p (ok_post R) w →
  (∀ a w', world_step w w' → R a w' → wpw (k a) (ok_post Q) w') → wpw (p ≫= k) (ok_post Q) w.
Proof.
  intros Hp Hk. apply wp_bind. eapply wp_mono; [apply _| |exact Hp].
  intros [a|e] w' Hg Hr; [by apply Hk|exact Hr].
Qed.

Lemma wp_still_ok {A} (p : P A) Q w :
  world_ok w → wpw p (ok_post Q) w → wpw p (ok_post (λ a w', world_ok w' ∧ Q a w')) w.
Proof.
  intros Hw Hp. eapply wp_mono; [apply _| |exact (wp_inv _ _ _ _ _ Hw Hp)].
  intros [a|e] w' _ [? ?]; done.
Qed.

Lemma wp_lift {A} (r : result RepoError A) Q w :
  r ≠ Err WriteConflict → (∀ a, r = Ok a → Q a w) → wpw (lift_repo r) (ok_post Q) w.
Proof. intros Hw H. destruct r as [a|e]; simpl; [by apply H|split; congruence]. Qed.

Lemma wp_pure {A} (a : A) (Q : A → World → Prop) w : Q a w → wpw (mret a) (ok_post Q) w.
Proof. done. Qed.

Lemma wp_throw {A} e (Q : A → World → Prop) w : e ≠ WriteConflict → wpw (throw_repo e) (ok_post Q) w.
Proof. intros He. split; congruence. Qed.

Lemma wp_storage {A} (m : stateful MemoryStorage StorageError A) Q w :
  (∀ w1 s' r, world_ok w1 → world_step w w1 → m (w_store w1) = (r, s') →
     store_ok s' ∧ evolves K (w_store w1) s' ∧ ∀ a, r = Ok a → Q a (with_store w1 s')) →
  wpw (storage m) (ok_post Q) w.
Proof.
  intros H w1 Hi Hg. destruct (m (w_store w1)) as [r s'] eqn:E. destruct (H w1 s' r Hi Hg E) as (? & ? & Hr).
  simpl. split_and!; [done..|]. destruct r; simpl; [by apply Hr|done].
Qed.

Lemma wp_read_store {A} (f : MemoryStorage → result RE A) Q w :
  (∀ w1, world_ok w1 → world_step w w1 → ok_post Q (f (w_store w1)) w1) →
  wpw (read_store f) (ok_post Q) w.
Proof. intros H. by apply wp_read; [apply _|]. Qed.

Lemma wp_storage_read {A} (f : MemoryStorage → result StorageError A) Q w :
  (∀ w1 a, world_ok w1 → world_step w w1 → f (w_store w1) = Ok a → Q a w1) →
  wpw (storage (reading f)) (ok_post Q) w.
Proof.
  intros H. apply wp_storage. intros w1 s' r Hi Hg [= <- <-].
  split_and!; [done|by apply (reflexivity (R := evolves K))|]. intros a Ha. replace (with_store w1 (w_store w1)) with w1 by by destruct w1.
  by apply H.
Qed.

Lemma wp_on_tree {A} (m : stateful MemoryStorage TreeError A) (P : A → Prop) Q w :
  grows objects_only m P →
  (∀ w1 s' a, world_ok w1 → world_step w w1 → m (w_store w1) = (Ok a, s') → objects (w_store w1) ⊆ objects s' →
     addressed (objects s') → Q a (with_store w1 s')) →
  wpw (on_tree m) (ok_post Q) w.
Proof.
  intros Hm HQ w1 Hi Hg. simpl. destruct (m (w_store w1)) as [r s'] eqn:E.
  destruct (Hm (w_store w1) r s' (so_objects _ Hi) E) as ([Ha Hsub] & Ho & _).
  destruct (objects_only_step (w_store w1) s' Hi Ho Hsub Ha) as [Hok Hev].
  simpl. split_and!; [done..|]. destruct r; simpl; [|done]. by apply HQ.
Qed.

(** ** The operations *)

(** A commit with this id, of this tree on these parents. *)
Definition stored (s : MemoryStorage) (i root : ObjectId) (ps : list ObjectId) : Prop :=
  ∃ c, commits s !! i = Some c ∧ state_root c = root ∧ parents c = ps.

Lemma stored_grow (s s' : MemoryStorage) i root ps : evolves K s s' → stored s i root ps → stored s' i root ps.
Proof.
  intros Hev (c & Hc & <- & <-). destruct (ev_commits _ _ _ Hev i c Hc) as (c' & ? & ? & ?). by exists c'.
Qed.

Definition key (r : Repository) (name : string) : string * string := (ns_name (active_namespace r), name).

Lemma wp_refuse name w : wpw (lift_repo (refuse_reserved_ref name)) (ok_post (λ _ _, True)) w.
Proof. apply wp_lift; [|done]. unfold refuse_reserved_ref. by case_match. Qed.

Lemma get_ref_ok (s : MemoryStorage) ns name o : get_ref s ns name = Ok o → o = refs s !! (ns_name ns, name).
Proof. unfold get_ref, require_namespace. case_decide; by intros [= <-]. Qed.

Lemma prefix_matches_stored prefix (s : MemoryStorage) i :
  i ∈ prefix_matches prefix (all_commit_ids s) → is_Some (commits s !! i).
Proof.
  unfold prefix_matches. rw elem_of_dedup merge_sort_Permutation elem_of_List_filter.
  intros [([j c] & -> & Hc%elem_of_map_to_list)%list_elem_of_fmap _]. by exists c.
Qed.

Lemma wp_resolve_ref r name w :
  wpw (resolve_ref r name) (ok_post (λ i w', is_Some (commits (w_store w') !! i) ∧
    (K (key r name) → refs (w_store w') !! key r name = Some i))) w.
Proof.
  eapply wp_seq.
  { apply (wp_storage_read _ (λ o w', o = refs (w_store w') !! key r name ∧ world_ok w')).
    intros w1 o Hok _ Ho%get_ref_ok. done. }
  intros o w1 _ [-> Hok]. destruct (refs _ !! _) as [i|] eqn:Hi.
  { apply wp_pure. split; [by eapply so_refs|done]. }
  assert (¬ K (key r name)) as Hn.
  { intros Hk. destruct (so_kept _ Hok _ Hk) as [j Hj]. congruence. }
  destruct (branch_refs_only r); [apply wp_throw; by case_match|]. unfold resolve_commit_ref.
  destruct (from_hex name) as [id|].
  - apply (wp_seq _ _ (λ b w', b = true → is_Some (commits (w_store w') !! id))).
    { apply wp_read_store. intros w2 _ _. simpl. unfold has_commit. by rw bool_decide_eq_true. }
    intros [] w2 _ Hs; [|by apply wp_throw]. apply wp_pure. split; [by apply Hs|done].
  - destruct (normalize_hex_prefix name) as [prefix|]; [|by apply wp_throw].
    apply (wp_seq _ _ (λ l w', ∀ i, i ∈ l → is_Some (commits (w_store w') !! i))).
    { apply wp_read_store. intros w2 _ _ i. apply prefix_matches_stored. }
    intros [|id [|id' ids]] w2 _ Hs; [by apply wp_throw| |by apply wp_throw].
    apply wp_pure. split; [apply Hs; by left|done].
Qed.

Lemma wp_head_for_write r name w :
  wpw (head_for_write r name) (ok_post (λ ib w', world_ok w' ∧
    (ib.2 = true ∧ refs (w_store w') !! key r name = Some ib.1 ∨ ib.2 = false ∧ ¬ K (key r name)))) w.
Proof.
  apply (wp_seq _ _ (λ _ _, True)); [apply wp_refuse|]. intros _ w0 _ _.
  eapply wp_seq.
  { apply (wp_storage_read _ (λ o w', o = refs (w_store w') !! key r name ∧ world_ok w')).
    intros w1 o Hok _ Ho%get_ref_ok. done. }
  intros o w1 _ [-> Hok]. destruct (refs _ !! _) as [i|] eqn:Hi; [apply wp_pure; split; [done|by left]|].
  eapply wp_seq; [apply wp_still_ok, (wp_resolve_ref r name w1); done|]. intros id w2 _ [Hok2 _]. apply wp_pure. split; [done|].
  right. split; [done|].
  intros Hk. destruct (so_kept _ Hok _ Hk) as [j Hj]. congruence.
Qed.

Lemma wp_require_commit i e Q w :
  e ≠ WriteConflict →
  (∀ w1 c, world_step w w1 → commits (w_store w1) !! i = Some c → Q c w1) →
  wpw (require_commit i e) (ok_post Q) w.
Proof.
  intros He HQ. apply wp_read_store. intros w1 _ Hg. unfold get_commit.
  destruct (commits (w_store w1) !! i) as [c|] eqn:Hc; simpl; [by apply HQ|split; congruence].
Qed.

Lemma wp_create_commit r now trace root ps o w :
  wpw (create_commit r now trace root ps o)
    (ok_post (λ c w', stored (w_store w') (commit_id c) root ps)) w.
Proof.
  unfold create_commit. set (c := build _ _).
  assert (state_root c = root ∧ parents c = ps ∧ commit_id c = compute_id c) as (Hroot & Hps & Hid).
  { unfold c, commit_builder. by destruct (opt_reasoning o), (opt_confidence o), (opt_tool_calls o). }
  apply (wp_seq _ _ (λ _ w', stored (w_store w') (commit_id c) root ps)).
  - apply (wp_seq _ _ (λ _ w', stored (w_store w') (commit_id c) root ps)).
    + apply wp_storage. intros w1 s' r' Hok Hg [= <- <-].
      destruct (put_commit_ok (w_store w1) c Hok Hid) as (? & ? & ?). split_and!; [done..|].
      intros _ _. by exists c.
    + intros _ w1 Hg Hst. destruct trace as [t|]; [|by apply wp_pure].
      apply wp_storage. intros w2 s' r' Hok Hg2 [= <- <-].
      assert (store_ok (set_commit_trace (w_store w2) (commit_id c) t) ∧
        evolves K (w_store w2) (set_commit_trace (w_store w2) (commit_id c) t)) as [??]
        by (apply same_step; [done|..]; unfold set_commit_trace; by case_match).
      split_and!; [done..|]. intros _ _. eapply stored_grow; [|exact Hst]. simpl. trans (w_store w2); [apply Hg2|done].
  - intros _ w1 Hg Hst. apply (wp_seq _ _ (λ _ w', stored (w_store w') (commit_id c) root ps)).
    + destruct (active_session r) as [sid|]; [|by apply wp_pure].
      apply wp_storage. intros w2 s' r' Hok Hg2 Hrun.
      assert (store_ok s' ∧ evolves K (w_store w2) s') as [??].
      { apply same_step; [done|..]; revert Hrun; unfold set_commit_session; repeat case_match; by intros [= <- <-]. }
      split_and!; [done..|]. intros _ _. eapply stored_grow; [|exact Hst]. simpl. trans (w_store w2); [apply Hg2|done].
    + intros _ w2 _ ?. by apply wp_pure.
Qed.

Lemma wp_enforce_seals r name target w :
  wpw (enforce_seals r name target) (ok_post (λ _ _, True)) w.
Proof.
  apply wp_read_store. intros w1 _ _.
  pose proof (enforce_epoch_seals_returns (w_store w1) (active_namespace r) (epoch_seal_strict r) name target
    (history_fuel (commits (w_store w1))) (le_n _)) as H.
  unfold enforce_epoch_seals in *. repeat case_match; simpl; try done; split; congruence.
Qed.

Lemma cas_ref_cases (s s' : MemoryStorage) ns name expected new r :
  cas_ref ns name expected new s = (r, s') →
  r = Ok true ∧ refs s !! (ns_name ns, name) = Some expected ∧
    s' = set_refs s (<[(ns_name ns, name) := new]> (refs s)) ∨
  r ≠ Ok true ∧ s' = s ∧ (r = Ok false → refs s !! (ns_name ns, name) ≠ Some expected).
Proof.
  unfold cas_ref, mbind, stateful_bind, reading, action, require_namespace. simpl.
  case_decide; simpl; [|intros [= <- <-]; by right].
  destruct (refs s !! _) as [cur|] eqn:Hc; [|intros [= <- <-]; by right].
  case_decide; [subst|]; intros [= <- <-]; [by left|right]. split_and!; [done..|]. congruence.
Qed.

Lemma create_ref_cases (s s' : MemoryStorage) ns name i r :
  create_ref ns name i s = (r, s') → s' = s ∨ s' = set_refs s (<[(ns_name ns, name) := i]> (refs s)).
Proof.
  unfold create_ref, mbind, stateful_bind, reading, action, require_namespace. simpl.
  case_decide; simpl; [|intros [= <- <-]; by left].
  destruct (refs s !! _); intros [= <- <-]; [by left|by right].
Qed.

Lemma evolves_refl s : evolves K s s.
Proof. apply (reflexivity (R := evolves K)). Qed.

(** A commit on top of the head it was made from lands, or leaves the ref. *)
Lemma wp_advance_ref r name expected new w root :
  stored (w_store w) new root [expected] →
  wpw (advance_ref r name expected new)
    (ok_post (λ b w', if b : bool then refs (w_store w') !! key r name = Some new ∧
                        ∀ h, K (key r name) → refs (w_store w) !! key r name = Some h →
                          ancestor_of (commits (w_store w')) expected h
                      else refs (w_store w') !! key r name ≠ Some expected)) w.
Proof.
  intros Hst. apply (wp_seq _ _ (λ _ _, True)); [apply wp_refuse|]. intros _ w1 Hg1 _.
  apply (wp_seq _ _ (λ _ _, True)); [apply wp_enforce_seals|]. intros _ w2 Hg2 _.
  apply wp_storage. intros w3 s' res Hok Hg3 Hrun.
  assert (world_step w w3) as Hg by (trans w1; [done|]; by trans w2).
  apply cas_ref_cases in Hrun as [(-> & Hcur & ->)|(Hne & -> & Hf)].
  - destruct (stored_grow _ _ _ _ _ Hg Hst) as (c & Hc & _ & Hps).
    destruct (set_refs_ok (w_store w3) (key r name) new Hok) as [??]; [by exists c| |].
    { intros _ h Hh. assert (h = expected) as -> by (unfold key in Hh; congruence).
      apply rtc_once. exists c. split; [done|]. rw Hps. by left. }
    split_and!; [done..|]. intros _ [= <-]. simpl. split; [apply lookup_insert_eq|].
    intros h Hk Hh. destruct (ev_refs _ _ _ Hg _ _ Hk Hh) as (h1 & Hh1 & Hanc).
    assert (h1 = expected) as -> by (unfold key in Hh1; congruence). exact Hanc.
  - split_and!; [done|apply evolves_refl|]. intros [] ->; [by destruct Hne|by apply Hf].
Qed.

Lemma wp_guarded_set_ref r name new w root ps :
  ¬ K (key r name) → stored (w_store w) new root ps →
  wpw (guarded_set_ref r name new) (ok_post (λ _ _, True)) w.
Proof.
  intros Hn Hst. apply (wp_seq _ _ (λ _ _, True)); [apply wp_refuse|]. intros _ w1 Hg1 _.
  apply (wp_seq _ _ (λ _ _, True)); [apply wp_enforce_seals|]. intros _ w2 Hg2 _.
  apply wp_storage. intros w3 s' res Hok Hg3 Hrun.
  assert (world_step w w3) as Hg by (trans w1; [done|]; by trans w2).
  assert (s' = w_store w3 ∨ s' = set_refs (w_store w3) (<[key r name := new]> (refs (w_store w3)))) as [->| ->].
  { revert Hrun. unfold set_ref, mbind, stateful_bind, reading, action, require_namespace. simpl.
    case_decide; simpl; intros [= <- <-]; [by right|by left]. }
  - split_and!; [done|apply evolves_refl|done].
  - destruct (stored_grow _ _ _ _ _ Hg Hst) as (c & Hc & _ & _).
    destruct (set_refs_ok (w_store w3) (key r name) new Hok) as [??]; [by exists c|done|by split_and!].
Qed.

Lemma wp_move_ref r name expected b new w root :
  stored (w_store w) new root [expected] → (b = false → ¬ K (key r name)) →
  wpw (move_ref r name expected b new)
    (ok_post (λ l w', K (key r name) →
      if l : bool then refs (w_store w') !! key r name = Some new
      else refs (w_store w') !! key r name ≠ Some expected)) w.
Proof.
  intros Hst Hb. destruct b; simpl.
  - eapply wp_mono; [apply _| |by eapply wp_advance_ref]. intros [[]|e] w' _ H;
      [by intros _; apply H|by intros _|done].
  - eapply wp_seq; [eapply wp_guarded_set_ref; [by apply Hb|done]|].
    intros _ w' _ _. apply wp_pure. intros Hk. by destruct (Hb eq_refl).
Qed.

(** *** A write

    What an acknowledged write has done: its commit is the head of the ref or
    behind it; it stands on one commit, at or past the head the writer could
    have seen first; and its tree is [E] of the tree of that commit. *)
Definition landed (w0 : World) (k : string * string)
    (E : gmap ObjectId Object → ObjectId → ObjectId → Prop) (id : ObjectId) (w : World) : Prop :=
  at_or_past (w_store w) k id ∧
  ∃ base root ps root', stored (w_store w) base root ps ∧ stored (w_store w) id root' [base] ∧
    (∀ h, refs (w_store w0) !! k = Some h → ancestor_of (commits (w_store w)) base h) ∧
    ∀ m, objects (w_store w) ⊆ m → E m root root'.

Lemma landed_stable w0 k E id : K k → stable world_ok world_step (landed w0 k E id).
Proof.
  intros Hk w w' Hok Hg [Ha (base & root & ps & root' & Hb & Hi & Hh & He)].
  split; [by eapply at_or_past_stable|]. exists base, root, ps, root'.
  split_and!; [by eapply stored_grow; [apply Hg|]..| |].
  - intros h Hh0. eapply ancestor_grow; [apply Hg|by apply Hh].
  - intros m Hm. apply He. trans (objects (w_store w')); [apply Hg|done].
Qed.

(** The ref has been moved on at least [n] times since [w0]. *)
Definition outrun (w0 : World) (k : string * string) (n : nat) (w : World) : Prop :=
  K k → ∀ h, refs (w_store w0) !! k = Some h →
  ∃ h' m, refs (w_store w) !! k = Some h' ∧ n ≤ m ∧ nsteps (parent_edge (commits (w_store w))) m h' h.

Lemma outrun_later w0 k n w w' h :
  world_step w w' → refs (w_store w) !! k = Some h → outrun w0 k n w → 
  outrun w0 k (if decide (refs (w_store w') !! k = Some h) then n else S n) w'.
Proof.
  intros Hg Hh Ho Hk h0 Hh0. destruct (Ho Hk h0 Hh0) as (h1 & m & Hh1 & Hn & Hm).
  assert (h1 = h) as -> by congruence.
  destruct (ev_refs _ _ _ Hg k h Hk Hh) as (h' & Hh' & [m' Hm']%rtc_nsteps).
  exists h', (m' + m). split; [done|].
  split; [|eapply nsteps_trans; [exact Hm'|]; eapply nsteps_congruence with (f := id); [|exact Hm]].
  - destruct m' as [|m']; [inversion Hm'; subst; by rw decide_True|]. case_decide; lia.
  - intros x y (c & Hc & Hy). destruct (ev_commits _ _ _ Hg x c Hc) as (c' & Hc' & _ & Hp).
    exists c'. by rw Hp.
Qed.

Lemma outrun_stable w0 k n : stable world_ok world_step (outrun w0 k n).
Proof.
  intros w w' Hok Hg Ho Hk h Hh. destruct (Ho Hk h Hh) as (h1 & m & Hh1 & _).
  pose proof (outrun_later w0 k n w w' h1 Hg Hh1 Ho Hk h Hh) as (h2 & m2 & ? & ? & ?).
  exists h2, m2. split_and!; [done| |done]. case_decide; lia.
Qed.

(** What a write promises its caller. *)
Definition write_post (E : gmap ObjectId Object → ObjectId → ObjectId → Prop) (w0 : World)
    (k : string * string) (r : result RE ObjectId) (w : World) : Prop :=
  match r with
  | Ok id => K k → landed w0 k E id w
  | Err e => e ≠ OutOfFuel ∧ (e = Fail WriteConflict → outrun w0 k MAX_REF_CAS_ATTEMPTS w)
  end.

(** What one turn of a retry loop comes to: it landed, or someone else did. *)
Definition turn_post (E : gmap ObjectId Object → ObjectId → ObjectId → Prop) (w0 : World)
    (k : string * string) (n : nat) (l : option ObjectId) (w : World) : Prop :=
  match l with
  | Some id => K k → landed w0 k E id w
  | None => outrun w0 k (S n) w
  end.

(** The head a writer has read: of the ref, or of one that is not guarded. *)
Definition head_read (w : World) (k : string * string) (head : ObjectId) (b : bool) : Prop :=
  b = true ∧ refs (w_store w) !! k = Some head ∨ b = false ∧ ¬ K k.

(** A commit made on the head read in [w1] lands, or the ref has moved on. *)
Lemma wp_land E w0 w1 r now trace name o n head b root ps root' w :
  world_step w0 w1 → world_step w1 w → outrun w0 (key r name) n w1 → head_read w1 (key r name) head b →
  stored (w_store w) head root ps → (∀ m, objects (w_store w) ⊆ m → E m root root') →
  wpw (commit ← create_commit r now trace root' [head] o;
       landed ← move_ref r name head b (commit_id commit);
       mret (if landed : bool then Some (commit_id commit) else None))
    (ok_post (turn_post E w0 (key r name) n)) w.
Proof.
  intros Hg0 Hg1 Hn1 Hhead Hst He. eapply wp_seq; [apply wp_create_commit|]. intros nc w4 Hg4 Hnc.
  eapply wp_seq.
  { apply (wp_move_ref _ _ _ _ _ _ _ Hnc). intros ->. by destruct Hhead as [[? _]|[_ ?]]. }
  intros l w5 Hg5 Hl. apply wp_pure.
  assert (world_step w w5) as Hg by by trans w4. assert (world_step w1 w5) as Hg15 by by trans w.
  destruct l; intros Hk; (destruct Hhead as [[_ Hhead]|[_ ?]]; [|done]); specialize (Hl Hk).
  - split; [by exists (commit_id nc)|]. exists head, root, ps, root'.
    split_and!; [exact (stored_grow _ _ _ _ _ Hg Hst)|exact (stored_grow _ _ _ _ _ Hg5 Hnc)| |].
    + intros h Hh. destruct (ev_refs _ _ _ Hg0 _ _ Hk Hh) as (h1 & Hh1 & Hanc).
      assert (h1 = head) as -> by congruence. eapply ancestor_grow; [apply Hg15|exact Hanc].
    + intros m Hm. apply He. trans (objects (w_store w5)); [apply Hg|done].
  - pose proof (outrun_later _ _ _ _ _ _ Hg15 Hhead Hn1) as Ho. rewrite decide_False in Ho; [|exact Hl]. by apply Ho.
Qed.

(** A loop of such turns keeps the promise of a write. *)
Lemma wp_retry E w0 k body w :
  world_step w0 w →
  (∀ i w', world_step w0 w' → outrun w0 k i w' → wpw (body i) (ok_post (turn_post E w0 k i)) w') →
  wpw (attempts MAX_REF_CAS_ATTEMPTS 0 (Fail WriteConflict) body) (write_post E w0 k) w.
Proof.
  intros Hg0 Hbody. apply (wp_attempts _ _ (outrun w0 k)).
  - intros Hk h Hh. destruct (ev_refs _ _ _ Hg0 _ _ Hk Hh) as (h' & Hh' & [m Hm]%rtc_nsteps).
    exists h', m. split_and!; [done|lia|done].
  - intros w' Hw. split; [done|]. by intros _.
  - intros i w' Hg Hi. eapply wp_mono; [apply _| |apply Hbody; [by trans w|exact Hi]].
    intros [[id|]|e] w'' _ H; [exact H|exact H|]. destruct H as [H1 H2]. by split.
Qed.

Section write.
Context (edit : ObjectId → stateful MemoryStorage TreeError ObjectId).
Context (E : gmap ObjectId Object → ObjectId → ObjectId → Prop).
Context (edit_grows : ∀ root, grows objects_only (edit root) (λ _, True)).
Context (edit_ok : ∀ s root r s', addressed (objects s) → edit root s = (Ok r, s') →
  ∀ m, objects s' ⊆ m → E m root r).

Lemma wp_edit root w :
  wpw (on_tree (edit root)) (ok_post (λ r w', ∀ m, objects (w_store w') ⊆ m → E m root r)) w.
Proof.
  eapply wp_on_tree; [apply edit_grows|]. intros w1 s' r Hok Hg Hrun _ _.
  eapply edit_ok; [apply Hok|exact Hrun].
Qed.

Lemma wp_write_attempt w0 r now trace name o n w :
  world_step w0 w → outrun w0 (key r name) n w →
  wpw (write_attempt r now trace name o edit) (ok_post (turn_post E w0 (key r name) n)) w.
Proof.
  intros Hg0 Hn. eapply wp_seq; [apply wp_head_for_write|]. intros [head b] w1 Hg1 [Hok1 Hhead].
  eapply wp_seq.
  { apply (wp_require_commit _ _ (λ c w', stored (w_store w') head (state_root c) (parents c))); [done|].
    intros w' c _ Hc. by exists c. }
  intros c w2 Hg2 Hc. eapply wp_seq; [apply wp_edit|]. intros root' w3 Hg3 He.
  apply (wp_land E w0 w1 r now trace name o n head b (state_root c) (parents c)); [by trans w|by trans w2| |done| |done].
  - by eapply outrun_stable.
  - exact (stored_grow _ _ _ _ _ Hg3 Hc).
Qed.

End write.

Lemma pre_commit_taint_check_no_conflict s now paths o :
  pre_commit_taint_check s now paths o ≠ Err WriteConflict.
Proof.
  unfold pre_commit_taint_check. destruct (traverse _ paths) as [?|e] eqn:Ht; [done|]. simpl.
  apply traverse_err in Ht as (_ & p & _ & _ & _ & _ & Hp). revert Hp. unfold taint_check_path.
  repeat case_match; intros; simplify_eq; done.
Qed.

Lemma wp_write_guards now path o w :
  wpw (write_guards now path o) (ok_post (λ sp _, parse path = Ok sp)) w.
Proof.
  apply (wp_seq _ _ (λ _ _, True)).
  { apply wp_lift; [|done]. unfold check_meta_guard. by case_match. }
  intros _ w1 _ _.
  apply (wp_seq _ _ (λ _ _, True)).
  - case_match; [by apply wp_pure|]. apply wp_read_store. intros w2 _ _.
    pose proof (pre_commit_taint_check_no_conflict (w_store w2) now [path] o) as Hn.
    destruct (pre_commit_taint_check _ _ _ _); simpl; [done|split; congruence].
  - intros _ w2 _ _. apply wp_lift; [by destruct (parse path)|].
    intros sp. by destruct (parse path) as [sp'|e]; [intros [= <-]|].
Qed.

(** A write that passes its guards goes on with the parsed path. *)
Lemma wp_guarded E w0 k now path o (p : StatePath → P ObjectId) :
  (∀ sp w, world_step w0 w → parse path = Ok sp → wpw (p sp) (write_post E w0 k) w) →
  wpw (sp ← write_guards now path o; p sp) (write_post E w0 k) w0.
Proof.
  intros Hp. apply wp_bind. eapply wp_mono; [apply _| |apply wp_write_guards].
  intros [sp|e] w Hg H; [by apply Hp|]. destruct H as [? H]. by split.
Qed.

Context `{CF : !CollisionFree}.

Definition set_edit (path : string) (v : Object) (m : gmap ObjectId Object) (root root' : ObjectId) : Prop :=
  ∃ p, parse path = Ok p ∧ value_at m root' p = Some v ∧
    (∀ q, locate m root' (p ++ q) = locate m (oid_of v) q) ∧
    ∀ q, diverge p q → locate m root' q = locate m root q.

Lemma wp_set_inner w0 r now clock trace name path v o :
  finite v →
  wpw (set_inner r now clock trace name path v o)
    (write_post (set_edit path v) w0 (key r name)) w0.
Proof.
  intros Hv. apply wp_guarded. intros sp w Hg Hsp.
  apply wp_retry; [done|]. intros i w' Hg' Hn. apply wp_write_attempt; [| |done..].
  - intros root. by apply tree_set_grows; [apply _|apply put_object_only|].
  - intros s root r' s' Ha Hrun m Hm. exists sp. split; [done|].
    destruct (tree_set_ok (S := MemoryStorage) s s' root sp v r') as [_ Hset]; [done..|]. by apply Hset.
Qed.

Definition delete_edit (path : string) (m : gmap ObjectId Object) (root root' : ObjectId) : Prop :=
  ∃ p, parse path = Ok p ∧
    (p = [] ∧ value_at m root' [] = Some empty_map ∨
     ∃ q c x, p = q ++ [c] ∧ is_Some (child_id_at x c) ∧ value_at m root q = Some x ∧
       value_at m root' q = Some (remove_child x c) ∧
       ∀ q', diverge q q' → locate m root' q' = locate m root q').

Lemma wp_delete_inner w0 r now clock trace name path o :
  wpw (delete_inner r now clock trace name path o)
    (write_post (delete_edit path) w0 (key r name)) w0.
Proof.
  apply wp_guarded. intros sp w Hg Hsp.
  apply wp_retry; [done|]. intros i w' Hg' Hn. apply wp_write_attempt; [| |done..].
  - intros root. apply tree_delete_grows; [apply _|apply put_object_only].
  - intros s root r' s' Ha Hrun m Hm. exists sp. split; [done|].
    destruct (tree_delete_ok (S := MemoryStorage) s s' root sp r') as [_ Hdel]; [done..|]. by apply Hdel.
Qed.

Lemma wp_branch r name from w :
  wpw (branch r name from) (ok_post (λ _ _, ¬ K (key r name))) w.
Proof.
  apply (wp_seq _ _ (λ _ _, True)); [apply wp_refuse|]. intros _ w1 _ _.
  eapply wp_seq.
  { apply (wp_storage_read _ (λ o w', o = None → ¬ K (key r name))).
    intros w2 o Hok _ Ho%get_ref_ok -> Hk. destruct (so_kept _ Hok _ Hk) as [j Hj]. unfold key in Hj. congruence. }
  intros [x|] w2 _ Hn; [by apply wp_throw|]. specialize (Hn eq_refl).
  eapply wp_seq; [apply wp_resolve_ref|]. intros i w3 _ [Hi _].
  apply (wp_seq _ _ (λ _ _, True)); [|intros [] w4 _ _; [by apply wp_pure|by apply wp_throw]].
  apply wp_storage. intros w4 s' res Hok Hg Hrun. split_and!; [| |done];
    (apply create_ref_cases in Hrun as [->| ->];
      [done || apply evolves_refl
      |apply (set_refs_ok (w_store w4) (key r name) i Hok);
        [by eapply stored_stable|done]]).
Qed.
End invariant.

(** Consistency is decided by looking. *)
Definition consistentb `{CH : ContentHash, CS : CommitSerial} (s : MemoryStorage) : bool :=
  bool_decide (map_Forall (λ i o, oid_of o = i ∧ finite o) (objects s)) &&
  bool_decide (map_Forall (λ i c, commit_id c = i ∧ compute_id c = i) (commits s)) &&
  bool_decide (map_Forall (λ _ i, is_Some (commits s !! i)) (refs s)).

Lemma consistentb_spec `{CH : ContentHash, CS : CommitSerial} s : consistentb s → consistent s.
Proof. unfold consistentb. rw !andb_True !bool_decide_spec. intros [[Ho Hc] Hr]. by split. Qed.

(** ** A repository for examples *)

Module Samples.
Import Plain.

(** A serialisation that keeps what the hypotheses need. *)
#[export] Instance plain_commit : CommitSerial := λ c,
  frames [oid_bytes (hi_state_root c); frames (oid_bytes <$> hi_parents c);
          signed (hi_timestamp c); hi_agent_id c].

#[export] Instance plain_commit_free : CommitCollisionFree.
Proof.
  intros c1 c2 H. assert (commit_canonical (hash_input c1) = commit_canonical (hash_input c2)) as Hs
    by (by injection H).
  apply frames_inj in Hs. injection Hs as Hr Hp _ _.
  destruct c1 as [? [r1] ps1], c2 as [? [r2] ps2]; simpl in *. split; [by f_equal|].
  apply frames_inj in Hp. clear H. revert ps2 Hp. induction ps1 as [|[a] ps1 IH]; intros [|[b] ps2]; simpl; try done.
  intros [= -> Hp]. f_equal. by apply IH.
Qed.

Definition first_commit : Commit :=
  build (builder_new (oid_of tree_root) "system" (simple_authority "system" 0%Z)
           (new_intent "i0" Checkpoint "start")) 0%Z.

Definition start : World := {|
  w_store := set_refs (put_commit tree_store first_commit)
               {[ ("default", "main") := commit_id first_commit ]};
  w_specs := ∅ |}.

Lemma start_consistent : consistent (w_store start).
Proof.
  split; [apply tree_store_addressed|..]; simpl.
  - intros i c. rw insert_empty lookup_singleton_Some. by intros [<- <-].
  - intros k i. rw lookup_singleton_Some. intros [<- <-]. rw insert_empty lookup_singleton_eq. by eexists.
Qed.

Definition plain_repo : Repository := {|
  instance := "a"; repo_namespace := default_ns; active_session := None;
  active_session_namespace := None; epoch_seal_strict := true; branch_refs_only := false |}.

Definition options (agent : string) : CommitOptions := {|
  opt_agent_id := agent; opt_authority := simple_authority agent 0%Z;
  opt_intent := new_intent "i1" Refine "change"; opt_reasoning := None; opt_confidence := None;
  opt_tool_calls := [] |}.
End Samples.
