(* ===== verification/Alone.v ===== *)
(** * Alone: operations of the repository with nobody else about

    What an operation does to the refs when nothing runs beside it: which
    parts only read, which leave every ref as it was unless they succeed, and
    how the reads decompose. *)
From S2P Require Import Prelude Objects Paths Json Intents Sessions Commits Epochs Taints Stores Memory.
From S2P Require Import Diffs Merges Trees TreeJson Specs Guards Ancestry Integrity Programs Repos Rules.

Definition w_refs (w : World) : gmap (string * string) ObjectId := refs (w_store w).

Abbreviation keeps_refs := (unless w_refs (λ _, False)).

(** ** Tree operations change objects only *)

Section trees.
Context `{CH : ContentHash}.

Definition only_objects {E A} (m : stateful MemoryStorage E A) : Prop := ∀ s, objects_added s (m s).2.

Lemma only_objects_ret {E A} (a : A) : only_objects (E := E) (mret a).
Proof. intros s. apply (reflexivity (R := objects_added)). Qed.
Lemma only_objects_throw {E A} (e : E) : only_objects (A := A) (throw e).
Proof. intros s. apply (reflexivity (R := objects_added)). Qed.
Lemma only_objects_reading {E A} (f : MemoryStorage → result E A) : only_objects (reading f).
Proof. intros s. apply (reflexivity (R := objects_added)). Qed.

Lemma only_objects_bind {E A B} (m : stateful MemoryStorage E A) (k : A → stateful MemoryStorage E B) :
  only_objects m → (∀ a, only_objects (k a)) → only_objects (m ≫= k).
Proof.
  intros Hm Hk s. unfold mbind, stateful_bind. specialize (Hm s).
  destruct (m s) as [[a|e] s1]; simpl in *; [|done]. trans s1; [done|]. apply Hk.
Qed.

Lemma only_objects_store o : only_objects (store_object (S := MemoryStorage) o).
Proof.
  intros s. unfold store_object, map_err_st. destruct (put_object o s) as [r s'] eqn:Hp.
  by eapply put_object_added.
Qed.

Hint Resolve only_objects_ret only_objects_throw only_objects_reading only_objects_store : core.

Ltac only_objects := repeat first
  [ done | progress intros | apply only_objects_bind | case_match | by auto ].

Lemma only_objects_set_recursive o p d v : only_objects (set_recursive (S := MemoryStorage) o p d v).
Proof.
  revert o d. induction p as [|c p IH]; intros o d; cbn [set_recursive]; [by auto|]. only_objects.
Qed.

Lemma only_objects_delete_recursive o p d : only_objects (delete_recursive (S := MemoryStorage) o p d).
Proof.
  revert o d. induction p as [|c p IH]; intros o d; cbn [delete_recursive]; [by auto|]. only_objects.
Qed.

Lemma only_objects_set root p v : only_objects (tree_set (S := MemoryStorage) root p v).
Proof. pose proof only_objects_set_recursive. unfold tree_set. only_objects. Qed.

Lemma only_objects_delete root p : only_objects (tree_delete (S := MemoryStorage) root p).
Proof. pose proof only_objects_delete_recursive. unfold tree_delete. only_objects. Qed.

Lemma only_objects_batch objs : only_objects (batch_put_objects (S := MemoryStorage) objs).
Proof.
  induction objs as [|o objs IH]; cbn [batch_put_objects]; [by auto|].
  apply only_objects_bind; [|by only_objects]. intros s. simpl. by eapply put_object_added, surjective_pairing.
Qed.
End trees.

(** ** Steps *)

Section steps.
Context `{CH : ContentHash, CS : CommitSerial}.

Lemma keeps_storage {A} (m : stateful MemoryStorage StorageError A) :
  (∀ s, refs (m s).2 = refs s) → keeps_refs (storage m).
Proof. intros Hm. apply unless_step. intros w. left. specialize (Hm (w_store w)). by destruct (m (w_store w)). Qed.

Lemma keeps_read_storage {A} (f : MemoryStorage → result StorageError A) : keeps_refs (storage (reading f)).
Proof. by apply keeps_storage. Qed.

Lemma keeps_read_store {A} (f : MemoryStorage → result RE A) : keeps_refs (read_store f).
Proof. apply unless_read. Qed.

Lemma only_objects_refs {E A} (m : stateful MemoryStorage E A) s : only_objects m → refs (m s).2 = refs s.
Proof. intros Hm. by rw (proj1 (Hm s)). Qed.

Lemma keeps_on_tree {A} (m : stateful MemoryStorage TreeError A) : only_objects m → keeps_refs (on_tree m).
Proof.
  intros Hm. apply unless_step. intros w. left. pose proof (only_objects_refs m (w_store w) Hm) as Hr.
  by destruct (m (w_store w)).
Qed.

Lemma keeps_lift {A} (r : result RepoError A) : keeps_refs (lift_repo r).
Proof. apply unless_ret. Qed.

Hint Resolve keeps_read_storage keeps_read_store keeps_lift : core.

Ltac keeps_refs := repeat first
  [ done | progress intros | apply unless_ret | by auto | apply unless_bind | case_match ].

Lemma keeps_resolve_ref r name : keeps_refs (resolve_ref r name).
Proof. unfold resolve_ref, resolve_commit_ref, throw_repo, fail. keeps_refs. Qed.

Lemma keeps_require_commit i e : keeps_refs (require_commit i e).
Proof. apply keeps_read_store. Qed.

Lemma keeps_head_for_write r name : keeps_refs (head_for_write r name).
Proof. pose proof keeps_resolve_ref. unfold head_for_write. keeps_refs. Qed.

Lemma keeps_write_guards now path o : keeps_refs (write_guards now path o).
Proof. unfold write_guards, parse_repo_path. keeps_refs. Qed.

(** Making a commit changes commits and what is filed under them. *)
Lemma create_commit_keeps {X} (f : MemoryStorage → X) r now trace root ps o :
  (∀ s c, f (put_commit s c) = f s) → (∀ s c t, f (set_commit_trace s c t) = f s) →
  (∀ s c i, f (set_commit_session c i s).2 = f s) →
  unless (λ w, f (w_store w)) (λ _, False) (create_commit r now trace root ps o).
Proof.
  intros Hp Ht Hs. unfold create_commit, put_commit_traced, put_commit_step.
  assert (∀ A (m : stateful MemoryStorage StorageError A), (∀ s, f (m s).2 = f s) →
    unless (λ w, f (w_store w)) (λ _, False) (storage m)) as Hst.
  { intros A m Hm. apply unless_step. intros w. left. specialize (Hm (w_store w)). by destruct (m (w_store w)). }
  apply unless_bind.
  { apply unless_bind; [apply Hst; intros s; apply Hp|]. intros _.
    destruct trace; [apply Hst; intros st; apply Ht|apply unless_ret]. }
  intros _. apply unless_bind; [|intros _; apply unless_ret].
  destruct (active_session r); [apply Hst; intros st; apply Hs|apply unless_ret].
Qed.

Lemma keeps_create_commit r now trace root ps o : keeps_refs (create_commit r now trace root ps o).
Proof.
  apply (create_commit_keeps refs); [done|..].
  - intros s c t. unfold set_commit_trace. by case_match.
  - intros s c i. unfold set_commit_session. by repeat case_match.
Qed.

Lemma create_commit_objects r now trace root ps o w :
  objects (w_store (run (create_commit r now trace root ps o) w).2) = objects (w_store w).
Proof.
  refine (keeps_run (λ w, objects (w_store w)) _ w _). apply (create_commit_keeps objects); [done|..].
  - intros s c t. unfold set_commit_trace. by case_match.
  - intros s c i. unfold set_commit_session. by repeat case_match.
Qed.

(** Landing a commit moves the ref only when it says so. *)
Lemma move_ref_unless r name expected b new :
  unless w_refs (λ l, l = true) (move_ref r name expected b new).
Proof.
  assert (keeps_refs (enforce_seals r name new)) as Hseals by by unfold enforce_seals.
  assert (keeps_refs (lift_repo (refuse_reserved_ref name))) as Hres by by auto.
  destruct b; simpl.
  - unfold advance_ref. apply unless_bind; [done|]. intros _. apply unless_bind; [done|]. intros _.
    apply unless_step. intros w. unfold storage.
    destruct (cas_ref _ _ _ _ _) as [res s'] eqn:Hc. apply cas_ref_cases in Hc as [(-> & _ & ->)|(_ & -> & _)];
      [right; by exists true|left; by destruct w].
  - unfold guarded_set_ref.
    apply unless_map with (Q := λ _, True); [done|]. apply unless_bind; [done|]. intros _.
    apply unless_bind; [done|]. intros _. apply unless_step. intros w. unfold set_ref.
    unfold mbind, stateful_bind, reading, action, require_namespace. simpl.
    case_decide; simpl; [right; by exists ()|left; by destruct w].
Qed.

(** The tail of every write: land, and report the id if it landed. *)
Lemma land_unless {A} r name expected b new (a : A) :
  unless w_refs is_Some (landed ← move_ref r name expected b new;
                         mret (if landed : bool then Some a else None)).
Proof.
  apply unless_map with (Q := λ l, l = true); [|apply move_ref_unless]. intros ? ->. by eexists.
Qed.

Lemma write_attempt_unless r now trace name o edit :
  (∀ root, only_objects (edit root)) → unless w_refs is_Some (write_attempt r now trace name o edit).
Proof.
  intros He. apply unless_bind; [apply keeps_head_for_write|]. intros [i b].
  apply unless_bind; [apply keeps_require_commit|]. intros c.
  apply unless_bind; [by apply keeps_on_tree|]. intros root.
  apply unless_bind; [apply keeps_create_commit|]. intros nc. apply land_unless.
Qed.

Lemma set_inner_unless r now clock trace name path v o :
  unless w_refs (λ _, True) (set_inner r now clock trace name path v o).
Proof.
  apply unless_bind; [apply keeps_write_guards|]. intros p. apply unless_attempts. intros i.
  apply write_attempt_unless. intros root. apply only_objects_set.
Qed.

Lemma delete_inner_unless r now clock trace name path o :
  unless w_refs (λ _, True) (delete_inner r now clock trace name path o).
Proof.
  apply unless_bind; [apply keeps_write_guards|]. intros p. apply unless_attempts. intros i.
  apply write_attempt_unless. intros root. apply only_objects_delete.
Qed.

Lemma branch_unless r name from : unless w_refs (λ _, True) (branch r name from).
Proof.
  apply unless_bind; [by auto|]. intros _. apply unless_bind; [by auto|]. intros [?|]; [apply unless_ret|].
  apply unless_bind; [apply keeps_resolve_ref|]. intros i.
  assert (unless w_refs (λ b, b = true) (storage (create_ref (active_namespace r) name i))) as Hc.
  { apply unless_step. intros w. unfold create_ref, mbind, stateful_bind, reading, action, require_namespace.
    simpl. case_decide; simpl; [|left; by destruct w].
    destruct (refs _ !! _); [left; by destruct w|right; by exists true]. }
  eapply unless_then; [exact Hc| |]; [intros ? ->; by exists i|]. intros []; apply unless_ret.
Qed.
End steps.
