(* ===== verification/Mergers.v ===== *)
(** * Mergers: merging branches of a repository

    Models the merges of [agentstategraph/src/repo.rs]: the merge base of two
    refs, computing a merge without committing it, its preview, the guard
    against top-level deletions, and landing the merge by compare-and-swap,
    with the integrity check of the merged tree before the ref moves. The
    iteration orders of the hash maps of the merge-base search are arguments;
    recursions over stored trees run on fuel the store bounds. *)
From S2P Require Import Prelude Objects Paths Json Intents Sessions Commits Epochs Taints Stores Memory.
From S2P Require Import Diffs Merges Trees TreeJson Specs Guards Ancestry Integrity Programs Repos Rules Alone.

Record MergeComputation := {
  comp_source_commit_id : ObjectId;
  comp_target_commit_id : ObjectId;
  comp_source_state_root : ObjectId;
  comp_target_state_root : ObjectId;
  comp_result : MergeResult;
  comp_created : list Object;
}.

Inductive MergeResultKind : Type := KindSuccess | KindConflicts | KindFastForward.

Record MergePreview := {
  preview_fast_forward : bool;
  preview_added : list string;
  preview_changed : list string;
  preview_removed : list string;
  preview_conflicts : list Conflict;
}.

Definition has_deletions (p : MergePreview) : bool :=
  match preview_removed p with [] => false | _ => true end.

Definition map_entries (o : Object) : gmap string ObjectId :=
  match o with ONode (NMap m) => m | _ => ∅ end.

(** [StorageResolver]: a store that fails to read has no object. *)
Definition storage_resolver (s : MemoryStorage) : Resolver := λ id, objects s !! id.

(** Trees of a store are no higher than it has objects, unless they are cyclic. *)
Definition merge_fuel (s : MemoryStorage) : nat := S (size (objects s)).

Definition result_kind (c : MergeComputation) : MergeResultKind :=
  match comp_result c with
  | Success _ => KindSuccess
  | Conflicts _ _ => KindConflicts
  | FastForward _ => KindFastForward
  end.

Section merging.
Context `{CH : ContentHash, CS : CommitSerial}.
Context (order : Parents → list ObjectId) (inter : gset ObjectId → list ObjectId).

Definition common_ancestor (a b : ObjectId) : P ObjectId :=
  read_store (λ s, find_common_ancestor (ancestry_fuel (commits s)) order inter
                     (stored_reads (commits s)) a b).

Definition merge_base (r : Repository) (source target : string) : P ObjectId :=
  source_commit_id ← resolve_ref r source;
  target_commit_id ← resolve_ref r target;
  common_ancestor source_commit_id target_commit_id.

(** The merge of three roots; what it could not read is an integrity
    violation of the tree of [root]. *)
Definition merge_roots (root base ours theirs : ObjectId) : P (MergeResult * list Object) :=
  read_store (λ s,
    match try_three_way_merge_collect (storage_resolver s) (merge_fuel s) base ours theirs with
    | Ok out => Ok out
    | Err OutOfFuel => Err OutOfFuel
    | Err (Fail missing) => Err (Fail (IntegrityViolation root missing))
    end).

Definition compute_merge (r : Repository) (source target : string) : P MergeComputation :=
  source_commit_id ← resolve_ref r source;
  target_commit_id ← resolve_ref r target;
  source_commit ← require_commit source_commit_id (RefMissing source);
  target_commit ← require_commit target_commit_id (RefMissing target);
  base_commit_id ← common_ancestor source_commit_id target_commit_id;
  base_commit ← require_commit base_commit_id (RefMissing "base");
  '(result, created) ← merge_roots (state_root base_commit) (state_root base_commit)
                         (state_root target_commit) (state_root source_commit);
  mret {| comp_source_commit_id := source_commit_id;
          comp_target_commit_id := target_commit_id;
          comp_source_state_root := state_root source_commit;
          comp_target_state_root := state_root target_commit;
          comp_result := result;
          comp_created := created |}.

Definition top_level_entries (root : ObjectId) : P (gmap string ObjectId) :=
  read_store (λ s, Ok match objects s !! root with Some o => map_entries o | None => ∅ end).

Definition top_level_entries_of_obj (result : MergeResult) (fallback_root : ObjectId) :
    P (gmap string ObjectId) :=
  match result with
  | Success o | Conflicts o _ => mret (map_entries o)
  | FastForward _ => top_level_entries fallback_root
  end.

Definition result_root (result : MergeResult) : ObjectId :=
  match result with
  | Success o | Conflicts o _ => oid_of o
  | FastForward state_root => state_root
  end.

(** The keys in the order of a [BTreeMap], sorted again. *)
Definition sorted_keys (l : list (string * ObjectId)) : list string := merge_sort String.le l.*1.

Definition absent_from (m : gmap string ObjectId) (l : list (string * ObjectId)) :
    list (string * ObjectId) :=
  List.filter (λ kv, negb (bool_decide (is_Some (m !! kv.1)))) l.

Definition top_level_removals (comp : MergeComputation) : P (list string) :=
  target_entries ← top_level_entries (comp_target_state_root comp);
  merged_entries ← top_level_entries_of_obj (comp_result comp) (result_root (comp_result comp));
  mret (sorted_keys (absent_from merged_entries (entries target_entries))).

Definition preview_merge (r : Repository) (source target : string) : P MergePreview :=
  comp ← compute_merge r source target;
  target_entries ← top_level_entries (comp_target_state_root comp);
  merged_entries ← top_level_entries_of_obj (comp_result comp) (result_root (comp_result comp));
  mret {| preview_fast_forward := match result_kind comp with KindFastForward => true | _ => false end;
          preview_added := sorted_keys (absent_from target_entries (entries merged_entries));
          preview_changed := sorted_keys (List.filter (λ kv,
            match target_entries !! kv.1 with
            | Some tv => negb (bool_decide (tv = kv.2))
            | None => false
            end) (entries merged_entries));
          preview_removed := sorted_keys (absent_from merged_entries (entries target_entries));
          preview_conflicts := match comp_result comp with Conflicts _ cs => cs | _ => [] end |}.

(** The gate before a ref moves to a new tree. *)
Definition refuse_dangling (root : ObjectId) : P () :=
  missing ← read_store (λ s, stop_storage
    (first_missing_reachable (tree_fuel (objects s)) (stored_objects (objects s)) root));
  match missing with
  | Some missing => throw_repo (IntegrityViolation root missing)
  | None => mret ()
  end.

Definition batch_put (objs : list Object) : P (list ObjectId) := storage (batch_put_objects objs).

Definition try_merge_checked (r : Repository) (now : Time) (trace : option CommitTrace)
    (source target : string) (options : CommitOptions) (allow_deletions : bool) :
    P (option ObjectId) :=
  '(_, target_is_branch) ← head_for_write r target;
  comp ← compute_merge r source target;
  _ ← (if allow_deletions then mret () else
       removed ← top_level_removals comp;
       match removed with [] => mret () | _ => throw_repo (MergeWouldDelete removed) end);
  match comp_result comp with
  | Success merged_obj =>
      let merged_root := oid_of merged_obj in
      _ ← batch_put (comp_created comp ++ [merged_obj]);
      _ ← refuse_dangling merged_root;
      commit ← create_commit r now trace merged_root
                 [comp_target_commit_id comp; comp_source_commit_id comp] options;
      landed ← move_ref r target (comp_target_commit_id comp) target_is_branch (commit_id commit);
      mret (if landed : bool then Some (commit_id commit) else None)
  | FastForward ff_id =>
      let ff_commit := if decide (ff_id = comp_source_state_root comp)
                       then comp_source_commit_id comp else comp_target_commit_id comp in
      landed ← move_ref r target (comp_target_commit_id comp) target_is_branch ff_commit;
      mret (if landed : bool then Some ff_commit else None)
  | Conflicts _ conflicts => throw_repo (MergeConflicts conflicts)
  end.

Definition merge_checked (r : Repository) (clock : nat → Time) (trace : option CommitTrace)
    (source target : string) (options : CommitOptions) (allow_deletions : bool) : P ObjectId :=
  attempts MAX_REF_CAS_ATTEMPTS 0 (Fail WriteConflict) (λ attempt,
    try_merge_checked r (clock attempt) trace source target options allow_deletions).

Definition merge (r : Repository) (clock : nat → Time) (trace : option CommitTrace)
    (source target : string) (options : CommitOptions) : P ObjectId :=
  merge_checked r clock trace source target options true.

(** [tree_to_json] at the repository. *)
Definition render (o : Object) : P Json := read_store (λ s,
  match tree_to_json (2 + size (objects s)) (reads_of (objects s)) o with
  | Ok j => Ok j
  | Err OutOfFuel => Err OutOfFuel
  | Err (Fail e) => Err (Fail (TreeErr e))
  end).

(** Going on after an error. *)
Fixpoint prog_catch {A} (p : P A) (handler : RepoError → option (P A)) : P A :=
  match p with
  | Ret (Err (Fail e)) => match handler e with Some q => q | None => p end
  | Ret _ => p
  | Op f k => Op f (λ x, prog_catch (k x) handler)
  end.

Definition get_json_at_merge_base (r : Repository) (source target path : string) :
    P (option Json) :=
  if path_is_secret path then throw_repo (ReservedPath path) else
  base ← prog_catch (base ← merge_base r source target; mret (Some base))
           (λ e, match e with RefMissing _ => Some (mret None) | _ => None end);
  match base with
  | None => mret None
  | Some base =>
      commit ← require_commit base (CommitMissing (oid_display base));
      state_path ← parse_repo_path path;
      found ← read_store (λ s, Ok (tree_get s (state_root commit) state_path));
      match found with
      | Ok obj => j ← render obj; mret (Some j)
      | Err (PathNotFound _) => mret None
      | Err e => throw_repo (TreeErr e)
      end
  end.

Definition diff_inner (r : Repository) (ref_a ref_b : string) : P (list DiffOp) :=
  commit_a ← resolve_ref r ref_a;
  commit_b ← resolve_ref r ref_b;
  ca ← require_commit commit_a (RefMissing ref_a);
  cb ← require_commit commit_b (RefMissing ref_b);
  read_store (λ s, map_err (λ _, OutOfFuel)
    (diff (storage_resolver s) (merge_fuel s) (state_root ca) (state_root cb))).
End merging.

(** ** A merge with nobody else about *)

Abbreviation reads_only := (unless (id (A := World)) (λ _, False)).

Lemma reads_only_storage {A} (f : MemoryStorage → result StorageError A) : reads_only (storage (reading f)).
Proof. apply unless_step. intros w. left. by destruct w. Qed.

Lemma reads_only_run {A} (p : P A) w a w' : reads_only p → run p w = (Ok a, w') → w' = w.
Proof. intros Hp Hr. pose proof (keeps_run id p w Hp) as H. by rewrite Hr in H. Qed.

Lemma reads_only_read_store {A} (f : MemoryStorage → result RE A) : reads_only (read_store f).
Proof. apply unless_read. Qed.

Lemma reads_only_lift {A} (r : result RepoError A) : reads_only (lift_repo r).
Proof. apply unless_ret. Qed.

#[export] Hint Resolve reads_only_storage reads_only_read_store reads_only_lift : core.

Ltac reads_only := repeat first
  [ done | progress intros | apply unless_ret | by auto | apply unless_bind | case_match ].

Lemma reads_only_resolve r name : reads_only (resolve_ref r name).
Proof. unfold resolve_ref, resolve_commit_ref, throw_repo, fail. reads_only. Qed.

Lemma reads_only_head r name : reads_only (head_for_write r name).
Proof. pose proof reads_only_resolve. unfold head_for_write. reads_only. Qed.

(** The ref-spec names this commit here. *)
Definition resolves (w : World) (r : Repository) (name : string) (i : ObjectId) : Prop :=
  run (resolve_ref r name) w = (Ok i, w).

Lemma run_resolve_ok r name w i w' :
  run (resolve_ref r name) w = (Ok i, w') → w' = w ∧ resolves w r name i.
Proof.
  intros Hr. assert (w' = w) as -> by (eapply reads_only_run; [|done]; apply reads_only_resolve).
  by split.
Qed.

Lemma run_read_store {A} (f : MemoryStorage → result RE A) w : run (read_store f) w = (f (w_store w), w).
Proof. unfold read_store. by rw run_step. Qed.

Lemma run_require_commit_ok i e w c w' :
  run (require_commit i e) w = (Ok c, w') → w' = w ∧ commits (w_store w) !! i = Some c.
Proof. unfold require_commit. rw run_read_store. intros [= Hc%ok_or_ok ->]. done. Qed.

Lemma run_head_ok r name w i b w' :
  run (head_for_write r name) w = (Ok (i, b), w') →
  w' = w ∧ (b = true → w_refs w !! key r name = Some i) ∧ (b = false → w_refs w !! key r name = None).
Proof.
  intros Hr. assert (w' = w) as -> by (eapply reads_only_run; [|done]; apply reads_only_head).
  apply run_bind_ok in Hr as (u & w1 & H1 & Hr).
  injection H1 as H1 <-.
  apply run_bind_ok in Hr as (o & w1 & H2 & Hr).
  assert (w1 = w) as Hw1 by (by eapply reads_only_run; [apply reads_only_storage|exact H2]). subst w1.
  unfold storage in H2. rewrite run_step in H2. injection H2 as H2%map_err_ok _.
  apply get_ref_ok in H2 as ->. destruct (refs (w_store w) !! _) as [j|] eqn:Hj.
  - injection Hr as <- <-. by split_and!; [|intros _|].
  - apply run_bind_ok in Hr as (j & w1 & _ & [= <- <- _]). by split_and!; [| |intros _].
Qed.

Lemma run_storage {A} (m : stateful MemoryStorage StorageError A) w a w' :
  run (storage m) w = (Ok a, w') → ∃ s', m (w_store w) = (Ok a, s') ∧ w' = with_store w s'.
Proof.
  unfold storage. rw run_step. destruct (m (w_store w)) as [r s']. intros [= Hr%map_err_ok <-].
  exists s'. by subst.
Qed.

(** Alone, a head that was read is still the head: the commit lands. *)
Lemma run_move_ref_ok r name expected b new w l w' :
  (b = true → w_refs w !! key r name = Some expected) → run (move_ref r name expected b new) w = (Ok l, w') →
  l = true ∧ w' = with_store w (set_refs (w_store w) (<[key r name := new]> (w_refs w))).
Proof.
  intros Hb Hr. assert (∀ A (m : stateful MemoryStorage StorageError A) a w'',
    run (_ ← lift_repo (refuse_reserved_ref name); _ ← enforce_seals r name new; storage m) w = (Ok a, w'') →
    ∃ s', m (w_store w) = (Ok a, s') ∧ w'' = with_store w s') as Hseal.
  { intros A m a w'' H. apply run_bind_ok in H as (u & w1 & H1 & H). injection H1 as H1 <-.
    apply run_bind_ok in H as (u' & w1 & H2 & H). unfold enforce_seals in H2. rewrite run_read_store in H2.
    injection H2 as H2 <-. by apply run_storage. }
  destruct b; simpl in Hr.
  - apply Hseal in Hr as (s' & Hc & ->). apply cas_ref_cases in Hc as [([= ->] & _ & ->)|(Hne & -> & Hf)]; [done|].
    destruct l; [done|]. by destruct (Hf eq_refl (Hb eq_refl)).
  - apply run_bind_ok in Hr as (u & w1 & Hg & [= <- <-]). split; [done|].
    apply Hseal in Hg as (s' & Hset & ->). revert Hset.
    unfold set_ref, mbind, stateful_bind, reading, action, require_namespace. simpl.
    case_decide; simpl; by intros [= _ <-].
Qed.

Lemma resolves_head w r name i j : w_refs w !! key r name = Some i → resolves w r name j → j = i.
Proof.
  intros Hi Hr. apply run_bind_ok in Hr as (o & w1 & Ho & Hr). apply run_storage in Ho as (s' & Ho & ->).
  injection Ho as ->%get_ref_ok <-. unfold w_refs, key in Hi. rewrite Hi in Hr. by injection Hr as ->.
Qed.

Section merges.
Context `{CH : ContentHash, CS : CommitSerial}.
Context (order : Parents → list ObjectId) (inter : gset ObjectId → list ObjectId).

(** The commits a merge is made from, and what the merge of their trees is. *)
Record merging (w : World) (r : Repository) (source target : string) (sid tid : ObjectId)
    (cs ct cb : Commit) (result : MergeResult) (created : list Object) : Prop := {
  mg_source : resolves w r source sid;
  mg_target : resolves w r target tid;
  mg_source_commit : commits (w_store w) !! sid = Some cs;
  mg_target_commit : commits (w_store w) !! tid = Some ct;
  mg_base : ∃ bid, find_common_ancestor (ancestry_fuel (commits (w_store w))) order inter
      (stored_reads (commits (w_store w))) sid tid = Ok bid ∧ commits (w_store w) !! bid = Some cb;
  mg_result : try_three_way_merge_collect (storage_resolver (w_store w)) (merge_fuel (w_store w))
      (state_root cb) (state_root ct) (state_root cs) = Ok (result, created);
}.

Lemma compute_merge_ok r source target w comp w' :
  run (compute_merge order inter r source target) w = (Ok comp, w') →
  w' = w ∧ ∃ cs ct cb, merging w r source target (comp_source_commit_id comp) (comp_target_commit_id comp)
    cs ct cb (comp_result comp) (comp_created comp) ∧
    comp_source_state_root comp = state_root cs ∧ comp_target_state_root comp = state_root ct.
Proof.
  intros Hr. unfold compute_merge in Hr.
  apply run_bind_ok in Hr as (sid & w1 & [-> Hs]%run_resolve_ok & Hr).
  apply run_bind_ok in Hr as (tid & w1 & [-> Ht]%run_resolve_ok & Hr).
  apply run_bind_ok in Hr as (cs & w1 & [-> Hcs]%run_require_commit_ok & Hr).
  apply run_bind_ok in Hr as (ct & w1 & [-> Hct]%run_require_commit_ok & Hr).
  apply run_bind_ok in Hr as (bid & w1 & Hb & Hr).
  unfold common_ancestor in Hb. rewrite run_read_store in Hb. injection Hb as Hb <-.
  apply run_bind_ok in Hr as (cb & w1 & [-> Hcb]%run_require_commit_ok & Hr).
  apply run_bind_ok in Hr as ([result created] & w1 & Hm & Hr).
  unfold merge_roots in Hm. rewrite run_read_store in Hm. injection Hm as Hm <-.
  injection Hr as <- <-. split; [done|]. exists cs, ct, cb. split; [|done]. split; simpl; try done.
  - by exists bid.
  - destruct (try_three_way_merge_collect _ _ _ _ _) as [|[]]; [by injection Hm as ->|done..].
Qed.

Context `{CF : !CollisionFree, CCF : !CommitCollisionFree}.

Abbreviation free := (λ _, False).

Lemma free_ok w : consistent (w_store w) → world_ok free w.
Proof. by split. Qed.

Lemma run_create_commit_ok r now trace root ps o w c w' :
  consistent (w_store w) → run (create_commit r now trace root ps o) w = (Ok c, w') →
  consistent (w_store w') ∧ world_step free w w' ∧ w_refs w' = w_refs w ∧
  stored (w_store w') (commit_id c) root ps ∧ objects (w_store w') = objects (w_store w).
Proof.
  intros Hc Hr. pose proof (create_commit_objects r now trace root ps o w) as Hobj.
  destruct (wp_run (world_ok free) (world_step free) (create_commit r now trace root ps o) _ w
    (free_ok w Hc) (wp_create_commit free r now trace root ps o w))
    as (Hok & Hg & Hq).
  pose proof (keeps_run w_refs _ w (keeps_create_commit r now trace root ps o)) as Hrefs.
  rewrite Hr in Hok, Hg, Hq, Hrefs, Hobj. split_and!; [apply Hok|done..].
Qed.

Lemma with_created_cons (f : Resolver) o l i :
  with_created (with_created f [o]) l i = with_created f (o :: l) i.
Proof. unfold with_created. simpl. destruct (f i); [done|]. by case_bool_decide. Qed.

Lemma with_created_ext (f g : Resolver) l i : (∀ i, f i = g i) → with_created f l i = with_created g l i.
Proof. intros H. unfold with_created. by rw H. Qed.

Lemma batch_put_created objs (s s' : MemoryStorage) ids :
  batch_put_objects objs s = (Ok ids, s') → ∀ i, objects s' !! i = with_created (storage_resolver s) objs i.
Proof.
  revert s ids. induction objs as [|o objs IH]; intros s ids Hrun i.
  { injection Hrun as _ <-. unfold with_created, storage_resolver. by destruct (objects s !! i). }
  apply stateful_bind_ok in Hrun as (j & s1 & Hput & Hrun).
  apply stateful_bind_ok in Hrun as (js & s2 & Hrun & [= _ <-]).
  rw (IH _ _ Hrun) -with_created_cons. apply with_created_ext. intros k. revert Hput.
  simpl. unfold mem_put_object, with_created, storage_resolver. simpl.
  destruct (objects s !! oid_of o) eqn:Ho; intros [= _ <-]; simpl.
  - destruct (objects s !! k) eqn:Hk; [done|]. case_bool_decide; [congruence|done].
  - destruct (decide (oid_of o = k)) as [<-|Hne]; [by rw lookup_insert_eq Ho bool_decide_eq_true_2|].
    rw lookup_insert_ne // bool_decide_eq_false_2 //. by destruct (objects s !! k).
Qed.

Lemma run_batch_put_ok objs w ids w' :
  consistent (w_store w) → Forall finite objs → run (batch_put objs) w = (Ok ids, w') →
  consistent (w_store w') ∧ world_step free w w' ∧ w_refs w' = w_refs w ∧
  commits (w_store w') = commits (w_store w) ∧ held (objects (w_store w')) objs ∧
  ∀ i, objects (w_store w') !! i = with_created (storage_resolver (w_store w)) objs i.
Proof.
  intros Hc Hf (s' & Hput & ->)%run_storage.
  destruct (batch_put_ok (S := MemoryStorage) objs (w_store w) s' ids) as ([Ha Hsub] & Hh & _); [apply Hc|done..|].
  pose proof (proj1 (only_objects_batch objs (w_store w))) as Ho. rewrite Hput in Ho. simpl in Ho.
  destruct (objects_only_step free (w_store w) s') as [Hok Hev]; [by split|done..|].
  split_and!; [apply Hok|by split|by unfold w_refs; simpl; rw Ho|by simpl; rw Ho|done|by eapply batch_put_created].
Qed.

Lemma run_refuse_dangling_ok root w u w' :
  run (refuse_dangling root) w = (Ok u, w') → w' = w ∧ intact (objects (w_store w)) root.
Proof.
  intros Hr. apply run_bind_ok in Hr as (missing & w1 & Hm & Hr). rewrite run_read_store in Hm.
  injection Hm as Hm <-. pose proof (first_missing_reachable_ok (objects (w_store w)) _ root (le_n _)) as H.
  destruct (first_missing_reachable _ _ _) as [[i|]|[]]; simpl in Hm; try done; injection Hm as <-.
  - done.
  - by injection Hr as _ <-.
Qed.

(** Storing a merged tree and landing its commit. *)
Lemma run_land_merged r now trace name b head ps created o options w l w' :
  consistent (w_store w) → Forall finite (created ++ [o]) → (b = true → w_refs w !! key r name = Some head) →
  run (_ ← batch_put (created ++ [o]);
       _ ← refuse_dangling (oid_of o);
       commit ← create_commit r now trace (oid_of o) ps options;
       landed ← move_ref r name head b (commit_id commit);
       mret (if landed : bool then Some (commit_id commit) else None)) w = (Ok l, w') →
  ∃ id, l = Some id ∧ consistent (w_store w') ∧ world_step free w w' ∧
    w_refs w' = <[key r name := id]> (w_refs w) ∧ stored (w_store w') id (oid_of o) ps ∧
    intact (objects (w_store w')) (oid_of o) ∧
    ∀ i, objects (w_store w') !! i = with_created (storage_resolver (w_store w)) (created ++ [o]) i.
Proof.
  intros Hc Hf Hb Hr. apply run_bind_ok in Hr as (ids & w1 & Hput & Hr).
  apply run_batch_put_ok in Hput as (Hc1 & Hg1 & Hr1 & _ & Hh & Hobj); [|done..].
  apply run_bind_ok in Hr as (u & w2 & [-> Hi]%run_refuse_dangling_ok & Hr).
  apply run_bind_ok in Hr as (c & w3 & Hcc & Hr).
  apply run_create_commit_ok in Hcc as (Hc3 & Hg3 & Hr3 & Hst & Hobj3); [|done].
  apply run_bind_ok in Hr as (landed & w4 & Hm & [= <- <-]).
  apply run_move_ref_ok in Hm as [-> ->]; [|by rw Hr3 Hr1].
  destruct Hst as (c' & Hc' & Hroot & Hps).
  destruct (set_refs_ok free (w_store w3) (key r name) (commit_id c)) as [Hok Hev];
    [by split|by exists c'|done|].
  exists (commit_id c). split_and!; [done|apply Hok| |by unfold w_refs in *; simpl; rw Hr3 Hr1|by exists c'| |].
  - trans w1; [done|]. trans w3; [done|]. by split.
  - eapply intact_mono; [|exact Hi]. apply Hg3.
  - intros i. simpl. by rw Hobj3 Hobj.
Qed.

(** ** What a merge comes to *)

(** The object a path of keys leads to from a root. *)
Definition path_in (s : MemoryStorage) (root : ObjectId) (p : list string) : option Object :=
  o ← objects s !! root; lookup_path (storage_resolver s) o p.

(** The top-level entries of a root. *)
Definition top_entries (s : MemoryStorage) (root : ObjectId) : gmap string ObjectId :=
  match objects s !! root with Some o => map_entries o | None => ∅ end.

(** Path by path, a side that left the base alone takes the other's value. *)
Definition combines (s : MemoryStorage) (base ours theirs merged : ObjectId) : Prop :=
  ∀ p, p ≠ [] →
    (path_in s ours p = path_in s base p → path_in s merged p = path_in s theirs p) ∧
    (path_in s theirs p = path_in s base p → path_in s merged p = path_in s ours p) ∧
    (path_in s ours p = path_in s theirs p → path_in s merged p = path_in s ours p).

Lemma lookup_path_ext (f g : Resolver) o p :
  (∀ i, f i = g i) → lookup_path f o p = lookup_path g o p.
Proof.
  intros H. revert o. induction p as [|k p IH]; intros o; [done|]. simpl.
  destruct o as [|[m| |]]; try done. destruct (m !! k) as [i|]; [|done]. simpl. rw H.
  destruct (g i); [apply IH|done].
Qed.

Lemma find_app {A} (q : A → bool) (l1 l2 : list A) :
  List.find q (l1 ++ l2) = match List.find q l1 with Some x => Some x | None => List.find q l2 end.
Proof. induction l1 as [|x l1 IH]; [done|]. simpl. by destruct (q x). Qed.

Lemma with_created_self (f : Resolver) l o i :
  with_created f l (oid_of o) = Some o → with_created f (l ++ [o]) i = with_created f l i.
Proof.
  unfold with_created. rw find_app /=. intros Ho. destruct (f i) eqn:Hi; [done|].
  destruct (List.find (λ o0, bool_decide (oid_of o0 = i)) l) eqn:Hl; [done|]. case_bool_decide as Hoi; [|done].
  subst i. by rewrite Hi Hl in Ho.
Qed.

(** What [id], the new value of the target, is: a merge commit on both heads
    whose tree combines theirs and is complete, or one of the two heads. *)
Definition merge_outcome (w w' : World) (allow : bool) (sid tid : ObjectId) (cs ct cb : Commit)
    (result : MergeResult) (id : ObjectId) : Prop :=
  match result with
  | Success merged =>
      stored (w_store w') id (oid_of merged) [tid; sid] ∧ intact (objects (w_store w')) (oid_of merged) ∧
      combines (w_store w') (state_root cb) (state_root ct) (state_root cs) (oid_of merged) ∧
      (allow = false → ∀ k, is_Some (top_entries (w_store w') (state_root ct) !! k) →
         is_Some (top_entries (w_store w') (oid_of merged) !! k))
  | FastForward root =>
      id = (if decide (root = state_root cs) then sid else tid) ∧
      (state_root cb = state_root ct ∨ state_root cb = state_root cs ∨ state_root ct = state_root cs) ∧
      (allow = false → ∀ k, is_Some (top_entries (w_store w') (state_root ct) !! k) →
         is_Some (top_entries (w_store w') root !! k))
  | Conflicts _ _ => False
  end.

Lemma storage_resolver_addressed s : consistent s → addressed_resolver (storage_resolver s).
Proof. intros Hc i o Ho. by apply Hc. Qed.

Lemma elem_of_absent_from m l kv : kv ∈ absent_from m l ↔ kv ∈ l ∧ m !! kv.1 = None.
Proof.
  unfold absent_from. rw elem_of_List_filter negb_True bool_decide_spec -eq_None_not_Some. done.
Qed.

Definition result_entries (s : MemoryStorage) (result : MergeResult) : gmap string ObjectId :=
  match result with
  | Success o | Conflicts o _ => map_entries o
  | FastForward root => top_entries s root
  end.

Lemma run_top_level_removals_ok comp w removed w' :
  run (top_level_removals comp) w = (Ok removed, w') →
  w' = w ∧ (removed = [] → ∀ k, is_Some (top_entries (w_store w) (comp_target_state_root comp) !! k) →
    is_Some (result_entries (w_store w) (comp_result comp) !! k)).
Proof.
  intros Hr. apply run_bind_ok in Hr as (te & w1 & Ht & Hr). unfold top_level_entries in Ht.
  rewrite run_read_store in Ht. injection Ht as <- <-.
  apply run_bind_ok in Hr as (me & w1 & Hm & [= <- <-]).
  assert (w1 = w ∧ me = result_entries (w_store w) (comp_result comp)) as [-> ->].
  { unfold top_level_entries_of_obj, top_level_entries in Hm. destruct (comp_result comp); simpl in Hm.
    all: injection Hm as Hme Hw; by subst. }
  split; [done|]. intros Hnil k [i Hk]. set (me := result_entries (w_store w) (comp_result comp)) in *.
  destruct (me !! k) eqn:Hn; [done|]. exfalso.
  assert (k ∈ sorted_keys (absent_from me (entries (top_entries (w_store w) (comp_target_state_root comp))))) as Hin.
  { unfold sorted_keys. rw merge_sort_Permutation. apply list_elem_of_fmap. exists (k, i). split; [done|].
    apply elem_of_absent_from. split; [by apply elem_of_entries|done]. }
  unfold top_entries in Hin. rewrite Hnil in Hin. by apply elem_of_nil in Hin.
Qed.

Lemma combines_stored (s s' : MemoryStorage) created base ours theirs bo oo to merged n :
  consistent s → objects s !! base = Some bo → objects s !! ours = Some oo → objects s !! theirs = Some to →
  three_way_merge_collect (storage_resolver s) n base ours theirs = Ok (Success merged, created) →
  (∀ i, objects s' !! i = with_created (storage_resolver s) (created ++ [merged]) i) →
  combines s' base ours theirs (oid_of merged) ∧ objects s' !! oid_of merged = Some merged.
Proof.
  intros Hc Hb Ho Ht Hm Hs'. pose proof (storage_resolver_addressed s Hc) as Hf.
  assert (∀ p, p ≠ [] → _) as Hok
    by (intros p Hp; exact (merge_success_ok _ _ _ _ _ _ _ _ _ _ p Hf Hb Ho Ht Hm Hp)).
  assert (with_created (storage_resolver s) created (oid_of merged) = Some merged) as Hself
    by by destruct (Hok ["k"]).
  assert (∀ i, objects s' !! i = with_created (storage_resolver s) created i) as Hext.
  { intros i. by rw Hs' with_created_self. }
  assert (∀ root o p, objects s !! root = Some o → path_in s' root p =
    lookup_path (with_created (storage_resolver s) created) o p) as Hpath.
  { intros root o p Hr. unfold path_in. rw Hext (with_created_old (storage_resolver s) created root o) //=.
    apply lookup_path_ext. intros i. unfold storage_resolver at 1. by rw Hext. }
  assert (∀ p, path_in s' (oid_of merged) p =
    lookup_path (with_created (storage_resolver s) created) merged p) as Hmp.
  { intros p. unfold path_in. rw Hext Hself /=.
    apply lookup_path_ext. intros i. unfold storage_resolver at 1. by rw Hext. }
  split; [|by rw Hext]. intros p Hp. destruct (Hok p Hp) as (_ & H1 & H2 & H3).
  by rw (Hpath _ _ _ Hb) (Hpath _ _ _ Ho) (Hpath _ _ _ Ht) Hmp.
Qed.

Lemma try_merge_checked_ok r now trace source target options allow w l w' :
  consistent (w_store w) →
  run (try_merge_checked order inter r now trace source target options allow) w = (Ok l, w') →
  ∃ id sid tid cs ct cb result created, l = Some id ∧
    consistent (w_store w') ∧ world_step free w w' ∧ w_refs w' = <[key r target := id]> (w_refs w) ∧
    merging w r source target sid tid cs ct cb result created ∧
    merge_outcome w w' allow sid tid cs ct cb result id.
Proof.
  intros Hc Hr. unfold try_merge_checked in Hr.
  apply run_bind_ok in Hr as ([i b] & w1 & (-> & Hb & _)%run_head_ok & Hr).
  apply run_bind_ok in Hr as (comp & w1 & Hcomp & Hr).
  apply compute_merge_ok in Hcomp as (-> & cs & ct & cb & Hmg & Hsr & Htr).
  apply run_bind_ok in Hr as (u & w1 & Hrem & Hr).
  assert (w1 = w ∧ (allow = false → ∀ k, is_Some (top_entries (w_store w) (state_root ct) !! k) →
    is_Some (result_entries (w_store w) (comp_result comp) !! k))) as [-> Hkeys].
  { destruct allow; [by injection Hrem as _ <-|]. apply run_bind_ok in Hrem as (removed & w2 & Hrm & Hrem).
    apply run_top_level_removals_ok in Hrm as [-> Hrm]. rewrite Htr in Hrm.
    destruct removed; [|done]. injection Hrem as _ <-. split; [done|]. intros _. by apply Hrm. }
  assert (b = true → w_refs w !! key r target = Some (comp_target_commit_id comp)) as Hhead.
  { intros ->. rw (Hb eq_refl). f_equal. symmetry. eapply resolves_head; [by apply Hb|apply Hmg]. }
  pose proof Hmg as [_ _ Hcs Hct _ Hres]. destruct (try_merge_result _ _ _ _ _ _ Hres) as [Hplain Hroots].
  destruct (comp_result comp) as [merged|merged confl|root] eqn:Hresult; [|done|].
  - destruct (merge_fast_forward _ _ _ _ _ _ _ Hplain) as [(_ & [? ?] & _)|(N1 & N2 & N3)]; [done|].
    destruct Hroots as [?|[?|[?|([bo Hbo] & [oo Hoo] & [to Hto])]]]; [done..|].
    pose proof (storage_resolver_addressed _ Hc) as Hf.
    apply (run_land_merged r now trace target b (comp_target_commit_id comp)) in Hr
      as (id & -> & Hc' & Hg & Hrefs & Hst & Hint & Hobj); [|done| |done].
    + destruct (combines_stored (w_store w) (w_store w') (comp_created comp) _ _ _ bo oo to merged _ Hc Hbo Hoo Hto Hplain Hobj)
        as [Hcomb Hself].
      exists id, (comp_source_commit_id comp), (comp_target_commit_id comp), cs, ct, cb, (Success merged), (comp_created comp).
      unfold merge_outcome. split_and!; [done..|]. intros Hallow k. unfold top_entries at 2. rw Hself.
      intros Hk. apply (Hkeys Hallow). revert Hk. unfold top_entries.
      assert (objects (w_store w) !! state_root ct = Some oo) as Hoo' by done.
      by rw Hoo' (lookup_weaken _ _ _ _ Hoo' (ev_objects _ _ _ Hg)).
    + by apply (merge_result_finite _ _ _ _ _ bo oo to _ _ _ Hf Hbo Hoo Hto Hplain); left.
  - apply run_bind_ok in Hr as (landed & w1 & Hm & [= <- <-]).
    apply run_move_ref_ok in Hm as [-> ->]; [|done].
    assert (state_root cb = state_root ct ∨ state_root cb = state_root cs ∨ state_root ct = state_root cs) as Heq.
    { destruct Hroots as [?|[?|[?|([bo Hbo] & [oo Hoo] & [to Hto])]]]; [by auto..|].
      destruct (merge_collect_success _ _ _ _ _ _ _ _ _ _ Hbo Hoo Hto Hplain)
        as [(_ & _ & ?)|(? & ? & _ & _ & [[? _]|[? _]])]; [tauto|done..]. }
    rewrite Hsr. set (id := if decide (root = state_root cs) then _ else _).
    assert (is_Some (commits (w_store w) !! id)) as Hid by (unfold id; case_decide; by eexists).
    destruct (set_refs_ok free (w_store w) (key r target) id) as [Hok Hev]; [by split|done|done|].
    exists id, (comp_source_commit_id comp), (comp_target_commit_id comp), cs, ct, cb, (FastForward root), (comp_created comp).
    unfold merge_outcome. split_and!; [done|apply Hok|by split|done..|]. intros Hallow k. by apply (Hkeys Hallow).
Qed.

(** ** What a failed merge leaves *)

Lemma reads_only_compute r source target : reads_only (compute_merge order inter r source target).
Proof.
  pose proof reads_only_resolve. unfold compute_merge, require_commit, common_ancestor, merge_roots. reads_only.
Qed.

Lemma reads_only_removals comp : reads_only (top_level_removals comp).
Proof. unfold top_level_removals, top_level_entries_of_obj, top_level_entries. reads_only. Qed.

Lemma reads_only_refuse_dangling root : reads_only (refuse_dangling root).
Proof. unfold refuse_dangling, throw_repo, fail. reads_only. Qed.

Lemma try_merge_unless r now trace source target options allow :
  unless w_refs is_Some (try_merge_checked order inter r now trace source target options allow).
Proof.
  apply unless_bind; [apply reads_keeps, reads_only_head|]. intros [i b].
  apply unless_bind; [apply reads_keeps, reads_only_compute|]. intros comp. apply unless_bind.
  { destruct allow; [apply unless_ret|]. apply unless_bind; [apply reads_keeps, reads_only_removals|].
    intros [|]; apply unless_ret. }
  intros _. destruct (comp_result comp) as [merged| |root]; [|apply unless_ret|apply land_unless].
  apply unless_bind.
  { apply keeps_storage. intros s. apply only_objects_refs, only_objects_batch. }
  intros ids. apply unless_bind; [apply reads_keeps, reads_only_refuse_dangling|]. intros _.
  apply unless_bind; [apply keeps_create_commit|]. intros c. apply land_unless.
Qed.

(** *** Fuel *)

Abbreviation enough := (never (OutOfFuel (E := RepoError))).

Lemma enough_wp {A} (p : P A) Q w : consistent (w_store w) → wp (world_ok free) (world_step free) p (ok_post Q) w →
  enough p w.
Proof.
  intros Hc Hp e w' Hr. destruct (wp_run _ _ _ _ _ (free_ok w Hc) Hp) as (_ & _ & Hq). rewrite Hr in Hq. apply Hq.
Qed.

Lemma enough_storage {A} (m : stateful MemoryStorage StorageError A) w : enough (storage m) w.
Proof. apply never_step. intros e. destruct (m (w_store w)) as [[a|e'] s']; by intros [= <-]. Qed.

Lemma enough_resolve r name w : consistent (w_store w) → enough (resolve_ref r name) w.
Proof. intros Hc. eapply enough_wp; [done|]. apply wp_resolve_ref. Qed.

Lemma enough_require i e w : enough (require_commit i e) w.
Proof. apply never_step. intros e'. simpl. destruct (get_commit _ _); by intros [= <-]. Qed.

(** The stored trees and histories have no cycles, so that walks down them
    end, and the hash maps list their keys. *)
Record walkable (s : MemoryStorage) : Prop := {
  wk_acyclic : acyclic (commits s);
  wk_trees : ∀ i o, objects s !! i = Some o → bounded (storage_resolver s) (merge_fuel s) o;
  wk_order : lists_keys order;
  wk_inter : lists_elements inter;
}.

Lemma enough_compute r source target w :
  consistent (w_store w) → walkable (w_store w) → enough (compute_merge order inter r source target) w.
Proof.
  intros Hc Hw. apply never_bind; [by apply enough_resolve|]. intros sid w1 [-> _]%run_resolve_ok.
  apply never_bind; [by apply enough_resolve|]. intros tid w1 [-> _]%run_resolve_ok.
  apply never_bind; [apply enough_require|]. intros cs w1 [-> _]%run_require_commit_ok.
  apply never_bind; [apply enough_require|]. intros ct w1 [-> _]%run_require_commit_ok.
  apply never_bind.
  { apply never_step. intros e. simpl. unfold find_common_ancestor. case_decide as Hne; [done|].
    destruct (find_common_ancestor_ok (commits (w_store w)) _ order inter sid tid (wk_acyclic _ Hw) (le_n _)
      (wk_order _ Hw) (wk_inter _ Hw) Hne) as (ps & G & l & _ & _ & _ & _ & Hf).
    unfold find_common_ancestor in Hf. rewrite decide_False // in Hf. rw Hf.
    by destruct (max_of _) as [[]|]; intros [= <-]. }
  intros bid w1 Hb. unfold common_ancestor in Hb. rewrite run_read_store in Hb. injection Hb as _ <-.
  apply never_bind; [apply enough_require|]. intros cb w1 [-> _]%run_require_commit_ok.
  apply never_bind; [|intros [? ?] w1 _; apply never_ret].
  apply never_step. intros e. simpl.
  pose proof (try_merge_ok (storage_resolver (w_store w)) (merge_fuel (w_store w)) 0 (state_root cb)
    (state_root ct) (state_root cs) (λ oo Hoo, wk_trees _ Hw _ oo Hoo)) as Ht.
  destruct (try_three_way_merge_collect _ _ _ _ _) as [|[|]]; [done|done|]. by intros [= <-].
Qed.

Lemma enough_move_ref r name expected b new w : enough (move_ref r name expected b new) w.
Proof.
  assert (∀ A (m : stateful MemoryStorage StorageError A), enough
    (_ ← lift_repo (refuse_reserved_ref name); _ ← enforce_seals r name new; storage m) w) as Hs.
  { intros A m. apply never_bind; [intros e w'; simpl; by destruct (refuse_reserved_ref name); intros [= <-]|].
    intros _ w1 _. apply never_bind; [|intros _ w2 _; apply enough_storage].
    apply never_step. intros e He ->. exact (enforce_epoch_seals_returns _ _ _ _ _ _ (le_n _) He). }
  destruct b; [apply Hs|]. simpl. apply never_bind; [apply Hs|]. intros _ w1 _. apply never_ret.
Qed.

Lemma enough_create_commit r now trace root ps o w : enough (create_commit r now trace root ps o) w.
Proof.
  apply never_bind.
  { apply never_bind; [apply enough_storage|]. intros _ w1 _.
    destruct trace; [apply enough_storage|apply never_ret]. }
  intros _ w1 _. apply never_bind; [destruct (active_session r); [apply enough_storage|apply never_ret]|].
  intros _ w2 _. apply never_ret.
Qed.

Lemma enough_try_merge r now trace source target options allow w :
  consistent (w_store w) → walkable (w_store w) →
  enough (try_merge_checked order inter r now trace source target options allow) w.
Proof.
  intros Hc Hw. apply never_bind; [eapply enough_wp; [done|apply wp_head_for_write]|].
  intros [i b] w1 (-> & _ & _)%run_head_ok. apply never_bind; [by apply enough_compute|].
  intros comp w1 Hcomp. pose proof Hcomp as (-> & cs & ct & cb & Hmg & _)%compute_merge_ok.
  assert (∀ w1 head x, enough (landed ← move_ref r target head b x;
    mret (if landed : bool then Some x else None)) w1) as Hland.
  { intros w1 head x. apply never_bind; [apply enough_move_ref|]. intros l w2 _. apply never_ret. }
  apply never_bind.
  { destruct allow; [apply never_ret|]. apply never_bind; [|intros [|] w1 _ e w'; by intros [= <-]].
    unfold top_level_removals. apply never_bind; [by apply never_step|]. intros te w1 _.
    apply never_bind; [by destruct (comp_result comp); [..|apply never_step]|]. intros me w2 _. apply never_ret. }
  intros u w1 Hrem. assert (consistent (w_store w1)) as Hc1.
  { destruct allow; [by injection Hrem as _ <-|].
    apply run_bind_ok in Hrem as (removed & w2 & [-> _]%run_top_level_removals_ok & Hrem).
    destruct removed; [by injection Hrem as _ <-|done]. }
  destruct (comp_result comp) as [merged| |root] eqn:Hres; [|by intros e w' [= <-]|apply Hland].
  apply never_bind; [apply enough_storage|]. intros ids w2 _. apply never_bind.
  { apply never_bind; [|intros [?|] w3 _ e w'; by intros [= <-]].
    apply never_step. intros e. simpl.
    pose proof (first_missing_reachable_ok (objects (w_store w2)) _ (oid_of merged) (le_n _)) as H.
    destruct (first_missing_reachable _ _ _); [done|]. by destruct H. }
  intros u' w3 _. apply never_bind; [apply enough_create_commit|]. intros c w4 _. apply Hland.
Qed.

(** Alone, the first attempt decides. *)
Lemma run_merge_checked r clock trace source target options allow w :
  consistent (w_store w) →
  match run (try_merge_checked order inter r (clock 0) trace source target options allow) w with
  | (Ok (Some id), w') =>
      run (merge_checked order inter r clock trace source target options allow) w = (Ok id, w')
  | (Ok None, _) => False
  | (Err e, w') =>
      run (merge_checked order inter r clock trace source target options allow) w = (Err e, w')
  end.
Proof.
  intros Hc. unfold merge_checked. change MAX_REF_CAS_ATTEMPTS with (S 255). cbn [attempts]. rw run_bind.
  unfold mbind, stateful_bind.
  destruct (run (try_merge_checked _ _ _ _ _ _ _ _ _) w) as [[[id|]|e] w'] eqn:Hr; [done| |done].
  destruct (try_merge_checked_ok _ _ _ _ _ _ _ _ _ _ Hc Hr) as (? & ? & ? & ? & ? & ? & ? & ? & ? & _). done.
Qed.
End merges.

(** ** Properties *)

(** C3: a merge, with nobody else about. A success moves the target, and no
    other ref, and keeps the store consistent: to a new commit on both heads
    whose tree is complete and combines the two trees path by path over the
    merge base, or, when two of the three trees are equal, to one of the two
    heads; and unless deletions are allowed no top-level entry of the target
    is gone. A failure moves no ref. On acyclic stores it always ends. *)
Theorem merge_checked_spec `{CH : ContentHash, CS : CommitSerial, CF : !CollisionFree,
    CCF : !CommitCollisionFree} order inter r clock trace source target options allow w :
  consistent (w_store w) →
  match run (merge_checked order inter r clock trace source target options allow) w with
  | (Ok id, w') =>
      consistent (w_store w') ∧ w_refs w' = <[key r target := id]> (w_refs w) ∧
      objects (w_store w) ⊆ objects (w_store w') ∧
      ∃ sid tid cs ct cb result created,
        merging order inter w r source target sid tid cs ct cb result created ∧
        merge_outcome w w' allow sid tid cs ct cb result id
  | (Err e, w') => w_refs w' = w_refs w ∧ (walkable order inter (w_store w) → e ≠ OutOfFuel)
  end.
Proof.
  intros Hc. pose proof (run_merge_checked order inter r clock trace source target options allow w Hc) as Hrun.
  destruct (run (try_merge_checked order inter r (clock 0) trace source target options allow) w)
    as [[[id|]|e] w'] eqn:Hr; [| |]; [rw Hrun|done|rw Hrun].
  - destruct (try_merge_checked_ok _ _ _ _ _ _ _ _ _ _ _ _ Hc Hr)
      as (id' & sid & tid & cs & ct & cb & result & created & [= <-] & Hc' & Hg & Hrefs & Hmg & Hout).
    split_and!; [done|done|apply Hg|]. by exists sid, tid, cs, ct, cb, result, created.
  - split.
    + destruct (unless_run _ _ _ w (try_merge_unless order inter r (clock 0) trace source target options allow)) as [Hw|(a & Ha & _)].
      * by rewrite Hr in Hw.
      * by rewrite Hr in Ha.
    + intros Hw. exact (enough_try_merge order inter r (clock 0) trace source target options allow w Hc Hw e w' Hr).
Qed.

Section witnesses.
Import Plain Samples.

Definition clock : nat → Time := λ n, Z.of_nat n.

(** Alone: run, keep the world. *)
Definition then_run {A} (p : P A) (w : World) : World := (run p w).2.

Definition set_alone (name path : string) (v : Object) : P ObjectId :=
  set_inner plain_repo 1%Z clock None name path v (options "ann").

(** A branch with a change of its own, and one on [main]. *)
Definition forked : World :=
  then_run (set_alone "main" "/m" written)
    (then_run (set_alone "feature" "/f" written) (then_run (branch plain_repo "feature" "main") start)).

Definition merge_feature : P ObjectId :=
  merge_checked key_order elements plain_repo clock None "feature" "main" (options "ann") false.

(** The change on [main] is made and undone. *)
Definition undone : World :=
  then_run (set_alone "main" "/a/x" leaf)
    (then_run (set_alone "main" "/a/x" written)
      (then_run (set_alone "feature" "/f" written) (then_run (branch plain_repo "feature" "main") start))).

Definition head (w : World) (name : string) : ObjectId := default zero_oid (w_refs w !! ("default", name)).

Lemma set_alone_consistent name path v w :
  finite v → consistent (w_store w) → consistent (w_store (then_run (set_alone name path v) w)).
Proof.
  intros Hv Hc. destruct (wp_run _ _ _ _ _ (free_ok w Hc)
    (wp_set_inner (λ _, False) w plain_repo 1%Z clock None name path v (options "ann") Hv)) as (Hok & _ & _).
  apply Hok.
Qed.

Lemma branch_consistent name from w :
  consistent (w_store w) → consistent (w_store (then_run (branch plain_repo name from) w)).
Proof.
  intros Hc. destruct (wp_run _ _ _ _ _ (free_ok w Hc) (wp_branch (λ _, False) plain_repo name from w)) as (Hok & _ & _).
  apply Hok.
Qed.

Lemma forked_consistent : consistent (w_store forked).
Proof. do 2 (apply set_alone_consistent; [done|]). apply branch_consistent, start_consistent. Qed.

Definition merged_id : ObjectId := match (run merge_feature forked).1 with Ok id => id | _ => zero_oid end.

Lemma merge_checked_spec_witness :
  w_refs (run merge_feature forked).2 = <[("default", "main") := merged_id]> (w_refs forked).
Proof.
  pose proof (merge_checked_spec key_order elements plain_repo clock None "feature" "main" (options "ann") false
    forked forked_consistent) as H. fold merge_feature in H.
  assert ((run merge_feature forked).1 = Ok merged_id) as Hid by by vm_compute.
  destruct (run merge_feature forked) as [res w'] eqn:E. simpl in Hid. rewrite Hid in H.
  exact (proj1 (proj2 H)).
Defined.

(** A merge that looks at trees drops history. [main] has moved on by two
    acknowledged commits that cancel out, so its tree is the merge base's; the
    merge of a branch calls that a fast-forward and moves [main] to the head
    of the branch, of which the two commits are no ancestors. *)
Theorem merge_fast_forward_drops_history :
  let w' := (run merge_feature undone).2 in
  (run merge_feature undone).1 = Ok (head undone "feature") ∧
  head w' "main" = head undone "feature" ∧
  ¬ ancestor_of (commits (w_store w')) (head undone "feature") (head undone "main").
Proof. split_and!; [by vm_compute|by vm_compute|]. apply not_ancestor. by vm_compute. Qed.
End witnesses.
