(* ===== verification/Landings.v ===== *)
(** * Landings: speculations at the repository

    Models how [agentstategraph/src/repo.rs] forks speculations from a ref,
    reads and edits them, and above all lands one: as it is on the head it
    forked from, merged onto a head that has moved since, or only if the head
    has not moved. The manager is behind a lock of its process, so each of its
    operations is one step; the backend keeps no GC pins, so pinning comes down
    to looking the speculation up. *)
From S2P Require Import Prelude Objects Paths Json Intents Sessions Commits Epochs Taints Stores Memory.
From S2P Require Import Diffs Merges Clashes Trees TreeJson Specs Guards Ancestry Heights Integrity Programs.
From S2P Require Import Repos Rules Alone Mergers.

Definition with_specs (w : World) (r : Repository) (mgr : SpeculationManager) (s : MemoryStorage) : World :=
  {| w_store := s; w_specs := <[instance r := mgr]> (w_specs w) |}.

(** One operation of the manager of this instance. *)
Definition managed {A} (r : Repository) (m : stateful (SpeculationManager * MemoryStorage) SpecError A) : P A :=
  step (λ w, match m (instance_specs w r, w_store w) with
             | (res, (mgr, s)) => (map_err (λ e, Fail (SpeculationError e)) res, with_specs w r mgr s)
             end).

(** One that does not touch the store. *)
Definition in_manager {A} (m : stateful SpeculationManager SpecError A) :
    stateful (SpeculationManager * MemoryStorage) SpecError A := λ ms,
  match m ms.1 with (res, mgr) => (res, (mgr, ms.2)) end.

Section landings.
Context `{CH : ContentHash, CS : CommitSerial}.

Definition pin_speculation (r : Repository) (handle : SpecHandle) : P () :=
  _ ← managed r (in_manager (reading (λ mgr, spec_current mgr handle))); mret ().

Definition discard_speculation (r : Repository) (handle : SpecHandle) : P () :=
  managed r (in_manager (spec_discard handle)).

Definition speculate_inner (r : Repository) (from_ref : string) (label : option string) : P SpecHandle :=
  commit_id ← resolve_ref r from_ref;
  commit ← require_commit commit_id (RefMissing from_ref);
  handle ← managed r (in_manager (spec_create from_ref (state_root commit) label));
  prog_catch (_ ← pin_speculation r handle; mret handle)
    (λ e, Some (prog_catch (_ ← discard_speculation r handle; throw_repo e) (λ _, Some (throw_repo e)))).

Definition repo_spec_get (r : Repository) (handle : SpecHandle) (path : string) : P Object :=
  managed r (reading (λ ms, spec_get ms.1 ms.2 handle path)).

Definition repo_spec_set (r : Repository) (handle : SpecHandle) (path : string) (value : Object) : P () :=
  _ ← managed r (spec_set handle path value);
  pin_speculation r handle.

Definition repo_spec_set_json (r : Repository) (handle : SpecHandle) (path : string) (value : Json) : P () :=
  root_id ← on_tree (json_to_tree value);
  obj ← storage (reading (λ s, get_object s root_id));
  match obj with
  | Some obj => repo_spec_set r handle path obj
  | None => throw_repo (RefMissing "value")
  end.

Definition repo_spec_delete (r : Repository) (handle : SpecHandle) (path : string) : P () :=
  _ ← managed r (spec_delete handle path);
  pin_speculation r handle.

Definition compare_speculations (r : Repository) (handles : list SpecHandle) : P SpecComparison :=
  step (reading (λ w,
    match spec_compare (merge_fuel (w_store w)) (instance_specs w r) (w_store w) handles with
    | Ok c => Ok c
    | Err OutOfFuel => Err OutOfFuel
    | Err (Fail e) => Err (Fail (SpeculationError e))
    end)).

Definition list_speculations (r : Repository) : P (list (SpecHandle * option string)) :=
  step (reading (λ w, Ok (spec_list (instance_specs w r)))).

(** ** Landing *)

(** The gate on [/_meta] paths a speculation changed. *)
Definition refuse_reserved_changes (o : CommitOptions) (base_root spec_root : ObjectId) : P () :=
  if is_migrate (category (opt_intent o)) then mret () else
  ops ← read_store (λ s, map_err (λ _, OutOfFuel)
          (diff (storage_resolver s) (merge_fuel s) base_root spec_root));
  match reserved_path_in_diff ops with
  | Some path => throw_repo (ReservedPath path)
  | None => mret ()
  end.

(** The gate on objects a speculation's tree misses. *)
Definition refuse_missing_new (base_root spec_root : ObjectId) : P () :=
  missing ← read_store (λ s, stop_storage
    (first_missing_new (tree_fuel (objects s)) (stored_objects (objects s)) base_root spec_root));
  match missing with
  | Some missing => throw_repo (IntegrityViolation spec_root missing)
  | None => mret ()
  end.

(** What lands: the speculation's tree, or its merge onto a head that moved. *)
Definition landing_root (base_root spec_root parent_root : ObjectId) : P ObjectId :=
  if decide (parent_root = base_root) then
    _ ← refuse_missing_new base_root spec_root;
    mret spec_root
  else
    '(result, created) ← merge_roots spec_root base_root spec_root parent_root;
    match result with
    | FastForward id => mret id
    | Success merged | Conflicts merged _ =>
        let merged_root := oid_of merged in
        _ ← batch_put (created ++ [merged]);
        _ ← refuse_dangling merged_root;
        mret merged_root
    end.

Definition land_attempt (r : Repository) (now : Time) (trace : option CommitTrace)
    (spec_root base_root : ObjectId) (base_ref : string) (o : CommitOptions) : P (option ObjectId) :=
  '(parent_id, is_branch) ← head_for_write r base_ref;
  parent ← require_commit parent_id (RefMissing base_ref);
  new_root ← landing_root base_root spec_root (state_root parent);
  commit ← create_commit r now trace new_root [parent_id] o;
  landed ← move_ref r base_ref parent_id is_branch (commit_id commit);
  mret (if landed : bool then Some (commit_id commit) else None).

Definition commit_speculation_inner (r : Repository) (clock : nat → Time) (trace : option CommitTrace)
    (handle : SpecHandle) (o : CommitOptions) : P ObjectId :=
  '(spec_root, base_root, base_ref) ← managed r (in_manager (spec_commit_with_base handle));
  _ ← refuse_reserved_changes o base_root spec_root;
  attempts MAX_REF_CAS_ATTEMPTS 0 (Fail WriteConflict) (λ attempt,
    land_attempt r (clock attempt) trace spec_root base_root base_ref o).

Definition commit_speculation_cas_inner (r : Repository) (now : Time) (trace : option CommitTrace)
    (handle : SpecHandle) (expected_head : ObjectId) (o : CommitOptions) : P ObjectId :=
  '(spec_root, base_root, base_ref) ← managed r (in_manager (spec_commit_with_base handle));
  expected ← require_commit expected_head (CommitMissing (oid_short expected_head));
  if decide (base_root = state_root expected) then
    _ ← refuse_reserved_changes o base_root spec_root;
    _ ← refuse_missing_new base_root spec_root;
    commit ← create_commit r now trace spec_root [expected_head] o;
    landed ← advance_ref r base_ref expected_head (commit_id commit);
    if landed : bool then mret (commit_id commit) else throw_repo WriteConflict
  else throw_repo WriteConflict.
End landings.

(** ** What a landing comes to *)

(** The object a path of keys leads to from a root. *)
Definition path_at (m : gmap ObjectId Object) (root : ObjectId) (p : list string) : option Object :=
  o ← m !! root; lookup_path (λ i, m !! i) o p.

(** [root'] is what a speculation made of [base] into [spec] lands as on a head
    whose tree is [root]: the speculation's tree itself on its base; otherwise,
    path by path, its value where the head left the base alone, and the head's
    where the speculation did, short of clashes; and nothing is lost that the
    head's tree has complete. *)
Definition spec_edit (base spec : ObjectId) (m : gmap ObjectId Object) (root root' : ObjectId) : Prop :=
  (root = base → root' = spec) ∧ (intact m root → intact m root') ∧
  ∀ p, p ≠ [] → path_overrides (path_at m base) (path_at m spec) (path_at m root) (path_at m root') p.

Lemma spec_edit_base base spec m : complete_over m base spec → spec_edit base spec m base spec.
Proof.
  intros Hc. split_and!; [done|by apply complete_intact|]. intros p _.
  split_and!; [intros ->; by left|done|done].
Qed.

Lemma spec_edit_fast_forward base spec root id m :
  base = spec ∧ id = root ∨ spec = root ∧ id = spec → root ≠ base → spec_edit base spec m root id.
Proof.
  intros H Hne. split_and!; [done|by destruct H as [[-> ->]|[-> ->]]|]. intros p _.
  destruct H as [[-> ->]|[-> ->]]; split_and!; intros; first [by left|congruence].
Qed.

(** A fast-forward of the landing merge names one of the roots. *)
Lemma try_merge_fast_forward `{CH : ContentHash} f n base ours theirs id cr :
  base ≠ theirs → try_three_way_merge_collect f n base ours theirs = Ok (FastForward id, cr) →
  base = ours ∧ id = theirs ∨ ours = theirs ∧ id = ours.
Proof.
  intros Hne [H Hr]%try_merge_result. revert H. unfold three_way_merge_collect, merge_collect.
  case_decide; [intros [= <- <-]; by left|]. case_decide; [done|]. case_decide; [intros [= <- <-]; by right|].
  destruct Hr as [?|[?|[?|([bo Hb] & [oo Ho] & [to Ht])]]]; [done..|].
  unfold plain at 1. rw Hb. unfold plain at 1. rw Ho. unfold plain at 1. rw Ht.
  destruct (merge_objects _ _ _ _ _ _ _) as [[o|e] st]; [|done]. by destruct (conflicts st).
Qed.

Section rules.
Context `{CH : ContentHash, CS : CommitSerial}.
Context (K : string * string → Prop).
Context `{CF : !CollisionFree, CCF : !CommitCollisionFree, HA : !HashAcyclic}.

Abbreviation wpw := (wp (world_ok K) (world_step K)).

(** *** The manager *)

(** A step of the manager that at most closes speculations. *)
Lemma with_specs_step (w : World) r mgr :
  (∀ h sp, specs mgr !! h = Some sp → open_spec w r h sp) →
  world_step K w (with_specs w r mgr (w_store w)).
Proof.
  intros Hm. split; [apply evolves_refl|]. intros r' h sp. unfold open_spec, instance_specs, with_specs. simpl.
  destruct (decide (instance r = instance r')) as [Hr|Hr].
  - rw Hr lookup_insert_eq. rewrite /= -Hr. apply Hm.
  - by rw lookup_insert_ne.
Qed.

Definition closed (w : World) (r : Repository) (h : SpecHandle) : Prop := ∀ sp, ¬ open_spec w r h sp.

Lemma closed_stable r h : stable (world_ok K) (world_step K) (λ w, closed w r h).
Proof. intros w w' _ Hg Hc sp Hsp. by apply (Hc sp), Hg. Qed.

(** Taking a speculation, which was open from the start, closes it. *)
Lemma wp_take r h w :
  wpw (managed r (in_manager (spec_commit_with_base h))) (λ res w', closed w' r h ∧
    match res with
    | Ok x => ∃ sp, open_spec w r h sp ∧ x = (spec_current_root sp, spec_base_root sp, spec_base_ref sp)
    | Err e => e = Fail (SpeculationError (SpecNotFound h))
    end) w.
Proof.
  intros w1 Hok Hg. unfold in_manager, spec_commit_with_base, spec_remove, mbind, stateful_bind. simpl.
  assert (∀ mgr, specs mgr !! h = None → closed (with_specs w1 r mgr (w_store w1)) r h) as Hcl.
  { intros mgr Hm sp. unfold open_spec, instance_specs, with_specs. simpl. rw lookup_insert_eq. simpl. by rw Hm. }
  destruct (specs (instance_specs w1 r) !! h) as [sp|] eqn:Hsp; simpl.
  - split_and!; [done| |apply Hcl, lookup_delete_eq|].
    + apply with_specs_step. simpl. intros h' sp' [_ ?]%lookup_delete_Some. done.
    + exists sp. split; [by apply Hg|done].
  - split_and!; [done|by apply with_specs_step|by apply Hcl|done].
Qed.

(** *** The gates *)

Lemma diff_returns (s : MemoryStorage) a b :
  addressed (objects s) → ∃ ops, diff (storage_resolver s) (merge_fuel s) a b = Ok ops.
Proof.
  intros Ha. unfold diff, storage_resolver. case_decide; [by eexists|].
  destruct (objects s !! a) as [oa|] eqn:Hoa; [|by eexists].
  destruct (objects s !! b) as [ob|]; [|by eexists].
  apply diff_objects_total. by apply (tree_heights (objects s) a).
Qed.

Lemma wp_refuse_reserved_changes o base spec w :
  wpw (refuse_reserved_changes o base spec) (ok_post (λ _ _, True)) w.
Proof.
  unfold refuse_reserved_changes. case_match; [by apply wp_pure|].
  apply (wp_seq _ _ _ (λ _ _, True)).
  - apply wp_read_store. intros w1 Hok _.
    destruct (diff_returns (w_store w1) base spec) as [ops ->]; [by apply Hok|done].
  - intros ops w1 _ _. case_match; [by apply wp_throw|by apply wp_pure].
Qed.

Lemma wp_refuse_missing_new base spec w :
  wpw (refuse_missing_new base spec) (ok_post (λ _ w', complete_over (objects (w_store w')) base spec)) w.
Proof.
  apply (wp_seq _ _ _ (λ o w', o = None → complete_over (objects (w_store w')) base spec)).
  - apply wp_read_store. intros w1 Hok _.
    pose proof (first_missing_new_ok (objects (w_store w1)) _ base spec (le_n _)) as H.
    destruct (first_missing_new _ _ _ _) as [[i|]|e]; by simpl.
  - intros [i|] w1 _ H; [by apply wp_throw|]. apply wp_pure. by apply H.
Qed.

Lemma wp_refuse_dangling root w :
  wpw (refuse_dangling root) (ok_post (λ _ w', intact (objects (w_store w')) root)) w.
Proof.
  apply (wp_seq _ _ _ (λ o w', o = None → intact (objects (w_store w')) root)).
  - apply wp_read_store. intros w1 Hok _.
    pose proof (first_missing_reachable_ok (objects (w_store w1)) _ root (le_n _)) as H.
    destruct (first_missing_reachable _ _ _) as [[i|]|e]; by simpl.
  - intros [i|] w1 _ H; [by apply wp_throw|]. apply wp_pure. by apply H.
Qed.

(** *** The merge *)

(** A result of the landing merge over a store of the past. *)
Definition merged_in (s : MemoryStorage) (base ours theirs : ObjectId) (out : MergeResult * list Object)
    (w : World) : Prop :=
  addressed (objects s) ∧ objects s ⊆ objects (w_store w) ∧
  try_three_way_merge_collect (storage_resolver s) (merge_fuel s) base ours theirs = Ok out.

Lemma wp_merge_roots root base ours theirs w :
  wpw (merge_roots root base ours theirs) (ok_post (λ out w', ∃ s, merged_in s base ours theirs out w')) w.
Proof.
  apply wp_read_store. intros w1 Hok _.
  pose proof (try_merge_ok (storage_resolver (w_store w1)) (merge_fuel (w_store w1)) 0 base ours theirs
    (λ oo Hoo, tree_heights (objects (w_store w1)) ours oo (so_objects K _ Hok) Hoo)) as Ht.
  destruct (try_three_way_merge_collect _ _ _ _ _) as [out|[|missing]] eqn:E; [|done|done].
  exists (w_store w1). split_and!; [by apply Hok|done|done].
Qed.

Lemma wp_batch_put objs w :
  Forall finite objs → wpw (batch_put objs) (ok_post (λ _ w', held (objects (w_store w')) objs)) w.
Proof.
  intros Hf. apply wp_storage. intros w1 s' res Hok _ Hrun.
  pose proof (proj1 (only_objects_batch objs (w_store w1))) as Ho. rewrite Hrun in Ho. simpl in Ho.
  destruct (batch_put_total objs (w_store w1)) as (ids & s1 & Hput). rewrite Hrun in Hput. injection Hput as -> ->.
  destruct (batch_put_ok (S := MemoryStorage) objs (w_store w1) s1 ids) as ([Ha Hsub] & Hh & _);
    [apply Hok|done..|].
  destruct (objects_only_step K (w_store w1) s1 Hok Ho Hsub Ha) as [??]. by split_and!.
Qed.
(** What the merge comes to in any store that has it. *)
Lemma merged_spec_edit s base spec parent result created r (w : World) m :
  merged_in s base spec parent (result, created) w → result = Success r ∨ (∃ cs, result = Conflicts r cs) →
  held m (created ++ [r]) → objects (w_store w) ⊆ m → intact m (oid_of r) → parent ≠ base →
  spec_edit base spec m parent (oid_of r).
Proof.
  intros (Ha & Hsub & Ht) Hr Hh Hm Hi Hne. split_and!; [done|done|]. intros p Hp.
  pose proof (try_merge_result _ _ _ _ _ _ Ht) as [Hplain Hsome].
  destruct (merge_fast_forward _ _ _ _ _ _ _ Hplain) as [(_ & [i ->] & _)|(H1 & H2 & H3)];
    [by destruct Hr as [|[??]]|].
  destruct Hsome as [?|[?|[?|([bo Hb] & [oo Ho] & [to Hto])]]]; [done..|].
  assert (∀ i c, storage_resolver s i = Some c → m !! i = Some c) as Hg.
  { intros i c Hc. eapply lookup_weaken; [exact Hc|]. by trans (objects (w_store w)). }
  destruct (try_merge_overrides (storage_resolver s) (λ i, m !! i) (merge_fuel s) base spec parent
    bo oo to result created r p) as [Hself H];
    [by intros i o Hio; apply Ha|done..| |done|].
  { intros x Hx. apply Hh, elem_of_app. by left. }
  assert (∀ root o, m !! root = Some o → path_at m root = lookup_path (λ i, m !! i) o) as Hat.
  { intros root o Hroot. unfold path_at. by rw Hroot. }
  rw (Hat base bo) ?(Hat spec oo) ?(Hat parent to) ?(Hat (oid_of r) r) //; by apply Hg.
Qed.

Lemma wp_landing_root base spec parent w :
  wpw (landing_root base spec parent) (ok_post (λ root' w', ∀ m, objects (w_store w') ⊆ m →
    spec_edit base spec m parent root')) w.
Proof.
  unfold landing_root. case_decide as Hp.
  { subst parent. eapply wp_seq; [apply wp_refuse_missing_new|]. intros [] w1 _ Hc. apply wp_pure.
    intros m Hm. apply spec_edit_base. by eapply complete_over_mono. }
  eapply wp_seq; [apply wp_merge_roots|]. intros [result created] w1 _ [s Hs].
  assert (∀ r, result = Success r ∨ (∃ cs, result = Conflicts r cs) →
    wpw (_ ← batch_put (created ++ [r]); _ ← refuse_dangling (oid_of r); mret (oid_of r))
      (ok_post (λ root' w', ∀ m, objects (w_store w') ⊆ m → spec_edit base spec m parent root')) w1) as Hland.
  { intros r Hr. eapply wp_seq; [apply wp_batch_put|].
    - destruct Hs as (Ha & _ & Ht). apply try_merge_result in Ht as [Hplain Hsome].
      destruct (merge_fast_forward _ _ _ _ _ _ _ Hplain) as [(_ & [i ->] & _)|(H1 & H2 & H3)];
        [by destruct Hr as [|[??]]|].
      destruct Hsome as [?|[?|[?|([bo Hb] & [oo Ho] & [to Hto])]]]; [done..|].
      by eapply (merge_result_finite (storage_resolver s)); [by intros i o Hio; apply Ha| | | |exact Hplain|].
    - intros ids w2 Hg2 Hh. eapply wp_seq; [apply wp_refuse_dangling|]. intros [] w3 Hg3 Hi. apply wp_pure.
      intros m Hm. assert (objects (w_store w2) ⊆ m) as Hm2 by (trans (objects (w_store w3)); [apply Hg3|done]).
      assert (objects (w_store w1) ⊆ m) as Hm1 by (trans (objects (w_store w2)); [apply Hg2|done]).
      eapply (merged_spec_edit s base spec parent result created r w1 m Hs Hr); [|done| |done].
      + intros x Hx. eapply lookup_weaken; [by apply Hh|done].
      + exact (intact_mono (objects (w_store w3)) m _ Hm Hi). }
  destruct result as [r|r cs|id]; [apply Hland; by left|apply Hland; right; by eexists|].
  apply wp_pure. intros m _. destruct Hs as (_ & _ & Ht). eapply spec_edit_fast_forward; [|done].
  apply (try_merge_fast_forward _ _ _ _ _ _ _) in Ht; naive_solver.
Qed.
(** *** Landing *)

Lemma wp_land_attempt w0 r now trace base spec name o n w :
  world_step K w0 w → outrun K w0 (key r name) n w →
  wpw (land_attempt r now trace spec base name o)
    (ok_post (turn_post K (spec_edit base spec) w0 (key r name) n)) w.
Proof.
  intros Hg0 Hn. eapply wp_seq; [apply wp_head_for_write|]. intros [head b] w1 Hg1 [Hok1 Hhead].
  eapply wp_seq.
  { apply (wp_require_commit _ _ _ (λ c w', stored (w_store w') head (state_root c) (parents c))); [done|].
    intros w' c _ Hc. by exists c. }
  intros c w2 Hg2 Hc. eapply wp_seq; [apply wp_landing_root|]. intros root' w3 Hg3 He.
  apply (wp_land K _ w0 w1 r now trace name o n head b (state_root c) (parents c));
    [by trans w|by trans w2| |done| |done].
  - by eapply outrun_stable.
  - exact (stored_grow _ _ _ _ _ _ Hg3 Hc).
Qed.

(** What a commit of a speculation promises: it is consumed; and unless it was
    not there, [Q] of it. *)
Definition commit_post (Q : Speculation → result RE ObjectId → World → Prop) (w0 : World)
    (r : Repository) (h : SpecHandle) (res : result RE ObjectId) (w : World) : Prop :=
  closed w r h ∧
  (res = Err (Fail (SpeculationError (SpecNotFound h))) ∨ ∃ sp, open_spec w0 r h sp ∧ Q sp res w).

(** What follows the taking of a speculation. *)
Lemma wp_taken Q w0 r h (p : ObjectId * ObjectId * string → P ObjectId) :
  (∀ sp w, world_step K w0 w → open_spec w0 r h sp →
     wpw (p (spec_current_root sp, spec_base_root sp, spec_base_ref sp)) (Q sp) w) →
  wpw (x ← managed r (in_manager (spec_commit_with_base h)); p x) (commit_post Q w0 r h) w0.
Proof.
  intros Hp. apply wp_bind. eapply wp_mono; [apply _| |apply wp_take].
  intros [x|e] w1 Hg1 [Hcl Hx]; [|split; [done|left; by rw Hx]].
  destruct Hx as (sp & Hsp & ->). eapply wp_mono; [apply _| |by apply (Hp sp)].
  intros res w2 Hg2 Hpost. split; [|right; by exists sp].
  intros sp' Hsp'. by apply (Hcl sp'), (ws_specs K _ _ Hg2).
Qed.

(** Landing: the promise of a write, on the ref the speculation forked from. *)
Definition lands (w0 : World) (r : Repository) (sp : Speculation) : result RE ObjectId → World → Prop :=
  write_post K (spec_edit (spec_base_root sp) (spec_current_root sp)) w0 (key r (spec_base_ref sp)).

Lemma wp_commit_speculation w0 r clock trace h o :
  wpw (commit_speculation_inner r clock trace h o) (commit_post (lands w0 r) w0 r h) w0.
Proof.
  apply wp_taken. intros sp w Hg Hsp. apply wp_bind.
  eapply wp_mono; [apply _| |apply wp_refuse_reserved_changes].
  intros [[]|e] w1 Hg1 H; [|destruct H as [? H]; by split].
  apply wp_retry; [by trans w|]. intros i w' Hg' Hn. by apply wp_land_attempt.
Qed.

(** Landing as it is, on the head it was told or not at all. *)
Definition as_it_is (sp : Speculation) (m : gmap ObjectId Object) (root root' : ObjectId) : Prop :=
  root = spec_base_root sp ∧ root' = spec_current_root sp ∧ complete_over m root root'.

(** Why it may find a conflict: the head it was told is a commit of another tree
    than the speculation's base; or the ref is not at that head, so that a ref
    that was there at the start has moved on. *)
Definition overtaken (expected : ObjectId) (w0 : World) (r : Repository) (sp : Speculation) (w : World) : Prop :=
  (∃ root ps, stored (w_store w) expected root ps ∧ root ≠ spec_base_root sp) ∨
  let k := key r (spec_base_ref sp) in
  refs (w_store w0) !! k = Some expected → outrun K w0 k 1 w.

Definition lands_at (expected : ObjectId) (w0 : World) (r : Repository) (sp : Speculation)
    (res : result RE ObjectId) (w : World) : Prop :=
  match res with
  | Ok id => stored (w_store w) id (spec_current_root sp) [expected] ∧
      let k := key r (spec_base_ref sp) in K k → landed w0 k (as_it_is sp) id w
  | Err e => e ≠ OutOfFuel ∧ (e = Fail WriteConflict → overtaken expected w0 r sp w)
  end.

(** A ref seen off the head it was at has moved on. *)
Lemma outrun_once w0 k h w :
  world_step K w0 w → refs (w_store w) !! k ≠ Some h → refs (w_store w0) !! k = Some h → outrun K w0 k 1 w.
Proof.
  intros Hg Hne Hh. assert (outrun K w0 k 0 w0) as H0.
  { intros _ h0 Hh0. exists h0, 0. split_and!; [done|lia|constructor]. }
  pose proof (outrun_later K w0 k 0 w0 w h Hg Hh H0) as Ho. rewrite decide_False in Ho; [done|exact Hne].
Qed.

Lemma lands_at_stable expected w0 r sp res :
  stable (world_ok K) (world_step K) (lands_at expected w0 r sp res).
Proof.
  intros w w' Hok Hg. destruct res as [id|e]; simpl.
  - intros [Hst Hl]. split; [exact (stored_grow _ _ _ _ _ _ Hg Hst)|].
    intros Hk. by eapply landed_stable; [..|by apply Hl].
  - intros [He Hc]. split; [done|]. intros [(root & ps & Hst & Hne)|Ho]%Hc; [left|right].
    + exists root, ps. split; [exact (stored_grow _ _ _ _ _ _ Hg Hst)|done].
    + intros k Hk. by eapply outrun_stable; [..|by apply Ho].
Qed.

Lemma wp_commit_speculation_cas w0 r now trace h expected o :
  wpw (commit_speculation_cas_inner r now trace h expected o)
    (commit_post (lands_at expected w0 r) w0 r h) w0.
Proof.
  apply wp_taken. intros sp w Hg Hsp. set (k := key r (spec_base_ref sp)).
  assert (∀ A (p : P A) (R : A → World → Prop) (g : A → P ObjectId) w1, wpw p (ok_post R) w1 →
    (∀ a w2, world_step K w1 w2 → R a w2 → wpw (g a) (lands_at expected w0 r sp) w2) →
    wpw (p ≫= g) (lands_at expected w0 r sp) w1) as Hseq.
  { intros A p R g w1 Hp Hgo. apply wp_bind. eapply wp_mono; [apply _| |exact Hp].
    intros [a|e] w2 Hg2 H; [by apply Hgo|]. destruct H as [? Hn]. by split. }
  eapply Hseq.
  { apply (wp_require_commit _ _ _ (λ c w', stored (w_store w') expected (state_root c) (parents c))); [done|].
    intros w' c _ Hc. by exists c. }
  intros c w1 Hg1 Hc. case_decide as Hroot; cycle 1.
  { split; [done|]. intros _. left. eexists _, _. split; [exact Hc|]. by apply not_eq_sym. }
  eapply Hseq; [apply wp_refuse_reserved_changes|]. intros [] w2 Hg2 _.
  eapply Hseq; [apply wp_refuse_missing_new|]. intros [] w3 Hg3 Hcomp.
  eapply Hseq; [by apply wp_create_commit|]. intros nc w4 Hg4 Hnc.
  eapply Hseq; [apply (wp_advance_ref K _ _ _ _ _ _ Hnc)|]. intros l w5 Hg5 Hland.
  assert (world_step K w0 w4) as Hg04 by (trans w; [done|]; trans w1; [done|]; trans w2; [done|]; by trans w3).
  destruct l; cycle 1.
  { split; [done|]. intros _. right. intros k' Hk'. eapply outrun_once; [by trans w4|done..]. }
  destruct Hland as [Href Hpast].
  assert (world_step K w1 w5) as Hg15 by (trans w2; [done|]; trans w3; [done|]; by trans w4).
  split; [exact (stored_grow _ _ _ _ _ _ Hg5 Hnc)|]. intros k' Hk. split; [by exists (commit_id nc)|].
  exists expected, (state_root c), (parents c), (spec_current_root sp).
  split_and!; [exact (stored_grow _ _ _ _ _ _ Hg15 Hc)|exact (stored_grow _ _ _ _ _ _ Hg5 Hnc)| |].
  - intros h0 Hh0. destruct (ev_refs _ _ _ Hg04 _ _ Hk Hh0) as (h1 & Hh1 & Hanc).
    trans h1; [by apply Hpast|]. eapply ancestor_grow; [apply Hg5|exact Hanc].
  - intros m Hm. split_and!; [done|done|]. rewrite -Hroot. eapply complete_over_mono; [|exact Hcomp].
    trans (objects (w_store w4)); [apply Hg4|]. trans (objects (w_store w5)); [apply Hg5|done].
Qed.
End rules.
