(* ===== verification/Failures.v ===== *)
(** * Failures: what an operation that fails leaves behind

    An operation of the repository that returns an error has moved no ref,
    though it may have stored objects and commits nothing refers to; this holds
    in any company, of each step the operation makes. *)
From S2P Require Import Prelude Objects Paths Json Intents Sessions Commits Epochs Taints Stores Memory.
From S2P Require Import Diffs Merges Trees TreeJson Specs Guards Ancestry Integrity Programs.
From S2P Require Import Repos Rules Alone Mergers Landings.

Section failures.
Context `{CH : ContentHash, CS : CommitSerial}.

(** An error means that no step of the call has moved a ref: wherever [p] runs
    in a pool, whoever the others are and whatever they do to the store in
    between, when it has failed each step of its own left every ref as it was. *)
Definition failure_keeps_refs {A} (p : P A) : Prop :=
  ∀ (start finish x y : list (P A) * World) i e,
    start.1 !! i = Some p → finish.1 !! i = Some (Ret (Err e)) →
    rtc pool_step start x → turn_of i x y → rtc pool_step y finish → w_refs y.2 = w_refs x.2.

Lemma unless_failure {A} (p : P A) Q : unless w_refs Q p → failure_keeps_refs p.
Proof. intros Hp start finish x y i e Hs Hf Hx Hxy Hy. by eapply unless_in_pool. Qed.

Lemma keeps_managed {A} r (m : stateful (SpeculationManager * MemoryStorage) SpecError A) :
  (∀ ms, refs (m ms).2.2 = refs ms.2) → keeps_refs (managed r m).
Proof.
  intros Hm. apply unless_step. intros w. left. specialize (Hm (instance_specs w r, w_store w)).
  destruct (m _) as [res [mgr s]]. by unfold w_refs.
Qed.

Lemma keeps_in_manager {A} r (m : stateful SpeculationManager SpecError A) : keeps_refs (managed r (in_manager m)).
Proof. apply keeps_managed. intros [mgr s]. unfold in_manager. simpl. by destruct (m mgr). Qed.

Lemma keeps_refuse_reserved_changes o a b : keeps_refs (refuse_reserved_changes o a b).
Proof.
  unfold refuse_reserved_changes. case_match; [apply unless_ret|]. apply unless_bind; [apply keeps_read_store|].
  intros ops. case_match; apply unless_ret.
Qed.

Lemma keeps_refuse_missing_new a b : keeps_refs (refuse_missing_new a b).
Proof.
  apply unless_bind; [apply keeps_read_store|]. intros []; apply unless_ret.
Qed.

Lemma keeps_landing_root base spec parent : keeps_refs (landing_root base spec parent).
Proof.
  assert (∀ l o, keeps_refs (_ ← batch_put l; _ ← refuse_dangling o; mret o)) as Hland.
  { intros l o. apply unless_bind; [apply keeps_storage; intros s; apply only_objects_refs, only_objects_batch|].
    intros _. apply unless_bind; [apply reads_keeps, reads_only_refuse_dangling|]. intros _. apply unless_ret. }
  unfold landing_root. case_decide.
  - apply unless_bind; [apply keeps_refuse_missing_new|]. intros _. apply unless_ret.
  - apply unless_bind; [apply keeps_read_store|]. intros [[]]; [apply Hland..|apply unless_ret].
Qed.

Lemma commit_speculation_unless r clock trace h o :
  unless w_refs (λ _, True) (commit_speculation_inner r clock trace h o).
Proof.
  apply unless_bind; [apply keeps_in_manager|]. intros [[spec base] name].
  apply unless_bind; [apply keeps_refuse_reserved_changes|]. intros _. apply unless_attempts. intros i.
  apply unless_bind; [apply keeps_head_for_write|]. intros [head b].
  apply unless_bind; [apply keeps_require_commit|]. intros c.
  apply unless_bind; [apply keeps_landing_root|]. intros root.
  apply unless_bind; [apply keeps_create_commit|]. intros nc. apply land_unless.
Qed.

Lemma merge_checked_unless order inter r clock trace source target options allow :
  unless w_refs (λ _, True) (merge_checked order inter r clock trace source target options allow).
Proof. apply unless_attempts. intros i. apply try_merge_unless. Qed.
(** Landed or refused. *)
Lemma unless_landed {A} r name expected new (a : A) e :
  unless w_refs (λ _, True) (landed ← advance_ref r name expected new;
                             if landed : bool then mret a else throw_repo e).
Proof.
  eapply unless_then; [apply (move_ref_unless r name expected true new)| |]; [intros ? ->; by exists a|].
  intros []; apply unless_ret.
Qed.

Lemma commit_speculation_cas_unless r now trace h expected o :
  unless w_refs (λ _, True) (commit_speculation_cas_inner r now trace h expected o).
Proof.
  apply unless_bind; [apply keeps_in_manager|]. intros [[spec base] name].
  apply unless_bind; [apply keeps_require_commit|]. intros c. case_decide; [|apply unless_ret].
  apply unless_bind; [apply keeps_refuse_reserved_changes|]. intros _.
  apply unless_bind; [apply keeps_refuse_missing_new|]. intros _.
  apply unless_bind; [apply keeps_create_commit|]. intros nc. apply unless_landed.
Qed.

Lemma delete_branch_unless r name : unless w_refs (λ _, True) (delete_branch r name).
Proof.
  apply unless_bind; [apply keeps_lift|]. intros _. apply unless_bind; [apply keeps_lift|]. intros _.
  apply unless_step. intros w. unfold Memory.delete_ref, mbind, stateful_bind, reading, action, require_namespace.
  simpl. case_decide; simpl; [right; by eexists|left; by destruct w].
Qed.
End failures.

(** ** Properties *)

(** C20: on the in-memory store a write, a deletion, the creation or deletion
    of a branch, a merge and a commit of a speculation that fail, for whatever
    reason and wherever in the operation, have moved no ref: no step they made
    changed one, whatever any others did to the store between those steps. *)
Theorem failures_move_no_ref `{CH : ContentHash, CS : CommitSerial} order inter r now clock trace name from path
    v h expected allow o :
  failure_keeps_refs (set_inner r now clock trace name path v o) ∧
  failure_keeps_refs (delete_inner r now clock trace name path o) ∧
  failure_keeps_refs (branch r name from) ∧
  failure_keeps_refs (delete_branch r name) ∧
  failure_keeps_refs (merge_checked order inter r clock trace from name o allow) ∧
  failure_keeps_refs (commit_speculation_inner r clock trace h o) ∧
  failure_keeps_refs (commit_speculation_cas_inner r now trace h expected o).
Proof.
  split_and!; eapply unless_failure.
  - apply set_inner_unless.
  - apply delete_inner_unless.
  - apply branch_unless.
  - apply delete_branch_unless.
  - apply merge_checked_unless.
  - apply commit_speculation_unless.
  - apply commit_speculation_cas_unless.
Qed.
