(* ===== verification/History.v ===== *)
(** * History: logs, queries, blame and audits

    Models the reads of history of [agentstategraph/src/repo.rs]: the log along
    first parents and along every parent, paged queries, blame, the audit of
    timestamps, and the two renderings of history as JSON. Commits are immutable
    and stay, so that what an operation reads after it has resolved its ref is
    one step. Formatting a time is [chrono]'s. *)
From S2P Require Import Prelude Objects Paths Json Intents Sessions Commits Epochs Taints Stores Memory.
From S2P Require Import Diffs Merges Trees TreeJson Specs Guards Ancestry Integrity Programs Repos Rules Alone.
From S2P Require Import Walks Mergers.

(** [DateTime::to_rfc3339]. *)
Class TimeText := to_rfc3339 : Time → string.

Definition usize_max : N := 2 ^ 64 - 1.

Definition COMMIT_QUERY_SCAN_FLOOR : N := 10000.

Definition commit_query_scan (offset limit : N) : N :=
  N.max COMMIT_QUERY_SCAN_FLOOR (N.min (offset + limit) usize_max).

Record BlameEntry := {
  blame_path : string;
  blame_commit_id : string;
  blame_agent_id : string;
  blame_intent_category : string;
  blame_intent_description : string;
  blame_reasoning : option string;
  blame_timestamp : Time;
  timestamp_anomaly : bool;
}.

Section history.
Context `{CH : ContentHash, TX : Text, TT : TimeText}.

Definition log (r : Repository) (ref_name : string) (limit : N) : P (list Commit) :=
  commit_id ← resolve_ref r ref_name;
  read_store (λ s, Ok (map enforce_caps (mem_list_commits s commit_id (N.to_nat limit)))).

Definition log_dag (r : Repository) (ref_name : string) (limit : N) : P CommitWalk :=
  commit_id ← resolve_ref r ref_name;
  walk ← read_store (λ s, stop_storage (list_commits_dag (walk_fuel (commits s))
           (λ i, Ok (get_commit s i)) commit_id (N.to_nat limit)));
  mret {| walk_commits := map enforce_caps (walk_commits walk); truncated := truncated walk |}.

Definition repo_get_commit (id : ObjectId) : P (option Commit) :=
  read_store (λ s, Ok (option_map enforce_caps (get_commit s id))).

Definition commit_trace (id : ObjectId) : P (option CommitTrace) :=
  read_store (λ s, Ok (get_commit_trace s id)).

Definition query_commits_paged (r : Repository) (ref_name : string) (filters : QueryFilters)
    (limit offset : N) : P (list Commit) :=
  walk ← log_dag r ref_name (commit_query_scan offset limit);
  mret (take (N.to_nat limit) (drop (N.to_nat offset) (filter_commits (walk_commits walk) filters))).

Definition query_commits (r : Repository) (ref_name : string) (filters : QueryFilters)
    (limit : N) : P (list Commit) := query_commits_paged r ref_name filters limit 0.

(** ** Timestamps *)

(** A parent the store holds that is not older. *)
Definition not_older_parent (s : MemoryStorage) (c : Commit) (p : ObjectId) : option Commit :=
  match get_commit s p with
  | Some parent =>
      let parent := enforce_caps parent in
      if (timestamp c <=? timestamp parent)%Z then Some parent else None
  | None => None
  end.

Definition commit_has_timestamp_anomaly (s : MemoryStorage) (c : Commit) : bool :=
  existsb (λ p, is_some_of (not_older_parent s c p)) (parents c).

Definition anomaly_reason (c parent : Commit) : string :=
  "commit " +:+ oid_short (commit_id c) +:+ " timestamp " +:+ to_rfc3339 (timestamp c) +:+
  " <= parent " +:+ oid_short (commit_id parent) +:+ " timestamp " +:+ to_rfc3339 (timestamp parent).

(** The finding of a commit, of its first parent that is not older. *)
Definition anomaly_of (s : MemoryStorage) (c : Commit) : option (ObjectId * string) :=
  match omap (not_older_parent s c) (parents c) with
  | parent :: _ => Some (commit_id c, anomaly_reason c parent)
  | [] => None
  end.

Definition anomalies (s : MemoryStorage) (commits : list Commit) : list (ObjectId * string) :=
  omap (anomaly_of s) commits.

Definition detect_timestamp_anomalies (r : Repository) (ref_name : string) :
    P (list (ObjectId * string)) :=
  walk ← log_dag r ref_name usize_max;
  read_store (λ s, Ok (anomalies s (walk_commits walk))).

(** ** Blame *)

Definition blame_entry_for (s : MemoryStorage) (path : string) (c : Commit) : BlameEntry := {|
  blame_path := path;
  blame_commit_id := oid_short (commit_id c);
  blame_agent_id := agent_id c;
  blame_intent_category := debug_category (category (intent c));
  blame_intent_description := description (intent c);
  blame_reasoning := reasoning c;
  blame_timestamp := timestamp c;
  timestamp_anomaly := commit_has_timestamp_anomaly s c |}.

(** The path has a value here that no stored parent has. *)
Definition introduced_here (s : MemoryStorage) (path : StatePath) (c : Commit) : bool :=
  match tree_get s (state_root c) path with
  | Err _ => false
  | Ok curr =>
      match parents c with
      | [] => true
      | ps => negb (existsb (λ p,
          match get_commit s p with
          | Some parent =>
              match tree_get s (state_root (enforce_caps parent)) path with
              | Ok prev => object_eqb prev curr
              | Err _ => false
              end
          | None => false
          end) ps)
      end
  end.

(** Newest first; commits of one time stay in the order of the walk. *)
Definition newer (a b : Commit) : Prop := (timestamp b ≤ timestamp a)%Z.
#[export] Instance newer_dec : RelDecision newer.
Proof. intros a b. unfold newer. apply _. Defined.

Definition BLAME_WALK : N := 1000.

Definition blame_inner (r : Repository) (ref_name path : string) : P (BlameEntry * ObjectId) :=
  walk ← log_dag r ref_name BLAME_WALK;
  state_path ← parse_repo_path path;
  read_store (λ s,
    match List.find (introduced_here s state_path) (merge_sort newer (walk_commits walk)) with
    | Some c => Ok (blame_entry_for s path c, commit_id c)
    | None => Err (Fail (RefMissing ("no commit found that modified " +:+ path)))
    end).

Definition blame (r : Repository) (ref_name path : string) : P BlameEntry :=
  '(entry, _) ← blame_inner r ref_name path; mret entry.

Definition blame_with_trace (r : Repository) (ref_name path : string) :
    P (BlameEntry * option CommitTrace) :=
  '(entry, commit_id) ← blame_inner r ref_name path;
  trace ← commit_trace commit_id;
  mret (entry, trace).

(** ** Renderings *)

Definition json_option_string (s : option string) : Json :=
  match s with Some s => JString s | None => JNull end.
Definition json_option_f64 (f : option Z) : Json :=
  match f with Some f => atom_to_json (AFloat f) | None => JNull end.
Definition json_usize (n : nat) : Json := JNumber (PosInt (N.of_nat n)).

Definition commit_node (c : Commit) : Json := JObject [
  ("agent", JString (agent_id c));
  ("category", JString (debug_category (category (intent c))));
  ("confidence", json_option_f64 (confidence c));
  ("description", JString (description (intent c)));
  ("full_id", JString (oid_display (commit_id c)));
  ("id", JString (oid_short (commit_id c)));
  ("is_merge", JBool (1 <? length (parents c)));
  ("parents", JArray (JString ∘ oid_short <$> parents c));
  ("timestamp", JString (to_rfc3339 (timestamp c)))].

Definition commit_graph (r : Repository) (ref_name : string) (depth : N) : P (list Json) :=
  walk ← log_dag r ref_name depth;
  mret (map commit_node (walk_commits walk)).

Definition intent_node (c : Commit) (children : list Json) : Json := JObject [
  ("agent", JString (agent_id c));
  ("category", JString (debug_category (category (intent c))));
  ("children", JArray children);
  ("confidence", json_option_f64 (confidence c));
  ("description", JString (description (intent c)));
  ("id", JString (oid_short (commit_id c)));
  ("intent_id", JString (intent_id (intent c)));
  ("reasoning", json_option_string (reasoning c));
  ("timestamp", JString (to_rfc3339 (timestamp c)))].

Definition child_of (c child : Commit) : bool :=
  bool_decide (parent_intent (intent child) = Some (intent_id (intent c))).

(** [visiting] holds the intents on the way from the root. *)
Fixpoint build_intent_node (fuel : nat) (all_commits : list Commit) (visiting : gset string)
    (commit : Commit) : result RE Json :=
  match fuel with
  | 0 => Err OutOfFuel
  | S fuel' =>
      let id := intent_id (intent commit) in
      children ← (if decide (id ∈ visiting) then Ok [] else
        traverse (build_intent_node fuel' all_commits ({[ id ]} ∪ visiting))
          (List.filter (child_of commit) all_commits));
      Ok (intent_node commit children)
  end.

(** One level for each intent, and one for the cut of a cycle. *)
Definition intent_fuel (all_commits : list Commit) : nat := S (S (length all_commits)).

Definition INTENT_TREE_WALK : N := 10000.

Definition is_none_of {A} (o : option A) : bool := match o with Some _ => false | None => true end.

Definition intent_roots (root_commit_id : option string) (commits : list Commit) : list Commit :=
  match root_commit_id with
  | Some root_id => List.filter (λ c, bool_decide (oid_short (commit_id c) = root_id)) commits
  | None => List.filter (λ c, is_none_of (parent_intent (intent c))) commits
  end.

Definition intent_tree (r : Repository) (ref_name : string) (root_commit_id : option string) :
    P Json :=
  commits ← log r ref_name INTENT_TREE_WALK;
  tree ← of_result (traverse (build_intent_node (intent_fuel commits) commits ∅)
                      (intent_roots root_commit_id commits));
  mret (JObject [("roots", JArray tree); ("total_commits", json_usize (length commits))]).
End history.

(** ** What a walk of history reads *)

Section facts.
Context `{CH : ContentHash, TX : Text, TT : TimeText}.

Lemma consistent_keyed `{CS : CommitSerial} s : consistent s → keyed (commits s).
Proof. intros Hc i c Hi. by apply Hc in Hi as [? _]. Qed.

(** A listing of the history of [head]: ancestors, as capped on reading, and
    all of them when the store has fewer commits than the limit. *)
Definition history_of (m : gmap ObjectId Commit) (head : ObjectId) (limit : N) (l : list Commit) : Prop :=
  (∀ c, c ∈ l → ∃ c0, c = enforce_caps c0 ∧ m !! commit_id c0 = Some c0 ∧ ancestor_of m head (commit_id c0)) ∧
  ((N.of_nat (size m) < limit)%N → ∀ i c0, ancestor_of m head i → m !! i = Some c0 → enforce_caps c0 ∈ l).

Lemma nodup_ids_size (m : gmap ObjectId Commit) (l : list Commit) :
  NoDup (commit_id <$> l) → (∀ c, c ∈ l → m !! commit_id c = Some c) → length l ≤ size m.
Proof.
  intros Hn Hl. rewrite -(length_fmap commit_id l) -size_dom -(size_list_to_set (C := gset ObjectId) (commit_id <$> l)) //.
  apply subseteq_size. intros i (c & -> & Hc)%elem_of_list_to_set%list_elem_of_fmap.
  apply elem_of_dom. exists c. by apply Hl.
Qed.

(** One program after another, alone. *)
Lemma run_seq {A B} (p : P A) (k : A → P B) w :
  run (p ≫= k) w = match run p w with (Ok a, w1) => run (k a) w1 | (Err e, w1) => (Err e, w1) end.
Proof. by rw run_bind. Qed.

Lemma resolves_alone r name w i : (run (resolve_ref r name) w).1 = Ok i → resolves w r name i.
Proof.
  pose proof (keeps_run id _ w (reads_only_resolve r name)) as Hw. unfold resolves.
  destruct (run (resolve_ref r name) w) as [res w']. simpl in *. unfold id in Hw. by intros ->; subst.
Qed.

Lemma run_log_dag r name limit w :
  keyed (commits (w_store w)) →
  (∃ e, run (resolve_ref r name) w = (Err e, w) ∧ run (log_dag r name limit) w = (Err e, w)) ∨
  ∃ head walk, resolves w r name head ∧ run (log_dag r name limit) w = (Ok walk, w) ∧
    history_of (commits (w_store w)) head limit (walk_commits walk).
Proof.
  intros Hk. pose proof (keeps_run id _ w (reads_only_resolve r name)) as Hw. unfold log_dag. rewrite run_seq.
  destruct (run (resolve_ref r name) w) as [[head|e] w1] eqn:Hr;
    simpl in Hw; unfold id in Hw; subst w1; [right|left; by exists e].
  rewrite run_seq run_read_store.
  destruct (list_commits_dag_ok _ head (N.to_nat limit) Hk) as (walk & Hl & Hn & Hlen & Hin & Hall & Htr).
  unfold get_commit. rewrite Hl. simpl. eexists head, _. split_and!; [done|done|]. simpl. split.
  - intros c (c0 & -> & Hc0)%list_elem_of_fmap. exists c0. split; [done|]. by apply Hin.
  - intros Hsz i c0 Hi Hc0. apply list_elem_of_fmap_2. eapply Hall; [|done..].
    apply not_true_is_false. intros Ht. apply Is_true_true_2, Htr in Ht.
    pose proof (nodup_ids_size _ _ Hn (λ c Hc, proj1 (Hin c Hc))). lia.
Qed.

(** ** Anomalies *)

(** Some stored parent is not older. *)
Definition anomalous (m : gmap ObjectId Commit) (c : Commit) : Prop :=
  ∃ p parent, p ∈ parents c ∧ m !! p = Some parent ∧ (timestamp c ≤ timestamp parent)%Z.

Lemma not_older_parent_Some s c p x :
  not_older_parent s c p = Some x ↔
  ∃ parent, x = enforce_caps parent ∧ commits s !! p = Some parent ∧ (timestamp c ≤ timestamp parent)%Z.
Proof.
  unfold not_older_parent, get_commit. destruct (commits s !! p) as [parent|]; [|naive_solver]. simpl.
  destruct (Z.leb_spec (timestamp c) (timestamp parent)); naive_solver lia.
Qed.

Lemma commit_has_timestamp_anomaly_spec s c :
  commit_has_timestamp_anomaly s c ↔ anomalous (commits s) c.
Proof.
  unfold commit_has_timestamp_anomaly, anomalous. rw Is_true_true existsb_exists. split.
  - intros (p & Hp%list_elem_of_In & Hx). destruct (not_older_parent s c p) as [x|] eqn:Hn; [|done].
    apply not_older_parent_Some in Hn as (parent & _ & ? & ?). by exists p, parent.
  - intros (p & parent & Hp & Hs & Ht). exists p. split; [by apply list_elem_of_In|].
    assert (not_older_parent s c p = Some (enforce_caps parent)) as -> by (apply not_older_parent_Some; eauto). done.
Qed.

Lemma anomaly_of_Some s c : is_Some (anomaly_of s c) ↔ anomalous (commits s) c.
Proof.
  unfold anomaly_of, anomalous. split.
  - destruct (omap _ _) as [|x l] eqn:Ho; [by intros []|]. intros _.
    assert (x ∈ omap (not_older_parent s c) (parents c)) as Hx by (rw Ho; by left).
    apply list_elem_of_omap in Hx as (p & Hp & (parent & _ & ? & ?)%not_older_parent_Some). by exists p, parent.
  - intros (p & parent & Hp & Hs & Ht). destruct (omap _ _) as [|x l] eqn:Ho; [|by eexists]. exfalso.
    apply (not_elem_of_nil (enforce_caps parent)). rewrite -Ho. apply list_elem_of_omap.
    exists p. split; [done|]. apply not_older_parent_Some. eauto.
Qed.

(** ** Blame *)

(** The commit has a value at the path that no stored parent of it has. *)
Definition introduces (s : MemoryStorage) (path : StatePath) (c : Commit) : Prop :=
  ∃ v, tree_get s (state_root c) path = Ok v ∧
    ∀ p parent u, p ∈ parents c → commits s !! p = Some parent →
      tree_get s (state_root parent) path = Ok u → object_eqb u v = false.

Lemma introduced_here_spec s path c : introduced_here s path c ↔ introduces s path c.
Proof.
  unfold introduced_here, introduces. destruct (tree_get s (state_root c) path) as [v|e]; [|naive_solver].
  set (same := λ p, match get_commit s p with
    | Some parent => match tree_get s (state_root (enforce_caps parent)) path with
                     | Ok prev => object_eqb prev v | Err _ => false end
    | None => false end).
  assert (Is_true match parents c with [] => true | ps => negb (existsb same ps) end ↔
    ∀ p, p ∈ parents c → same p = false) as ->.
  { trans (Is_true (negb (existsb same (parents c)))); [by destruct (parents c)|].
    rw negb_True Is_true_true existsb_exists. split.
    - intros Hn p Hp. apply not_true_iff_false. intros Hs. apply Hn. exists p. split; [by apply list_elem_of_In|done].
    - intros Hall (p & Hp%list_elem_of_In & Hs). by rewrite (Hall p Hp) in Hs. }
  split.
  - intros Hs. exists v. split; [done|]. intros p parent u Hp Hpar Hu. specialize (Hs p Hp).
    unfold same, get_commit in Hs. rewrite Hpar /= in Hs. by rewrite Hu in Hs.
  - intros (v' & [= <-] & Hall) p Hp. unfold same, get_commit. destruct (commits s !! p) as [parent|] eqn:Hpar; [|done].
    simpl. destruct (tree_get s (state_root parent) path) as [u|] eqn:Hu; [|done]. by eapply Hall.
Qed.

Lemma find_sorted {A} (R : relation A) (q : A → bool) l x :
  StronglySorted R l → List.find q l = Some x → x ∈ l ∧ q x ∧ ∀ y, y ∈ l → q y → y = x ∨ R x y.
Proof.
  induction 1 as [|a l Hs IH Hall]; [done|]. simpl. destruct (q a) eqn:Hq.
  - intros [= <-]. split_and!; [by left|by rw Hq|]. intros y [->|Hy]%elem_of_cons _; [by left|right].
    rewrite Forall_forall in Hall. by apply Hall.
  - intros (Hx & Hqx & Hy)%IH. split_and!; [by right|done|]. intros y [->|?]%elem_of_cons Hqy; [by rewrite Hq in Hqy|auto].
Qed.

Lemma find_newest (q : Commit → bool) l x :
  List.find q (merge_sort newer l) = Some x → x ∈ l ∧ q x ∧ ∀ y, y ∈ l → q y → (timestamp y ≤ timestamp x)%Z.
Proof.
  intros Hf. assert (Total newer) by (intros a b; unfold newer; lia).
  assert (Transitive newer) by (intros a b c; unfold newer; lia).
  destruct (find_sorted newer q (merge_sort newer l) x) as (Hx & Hq & Hall); [apply StronglySorted_merge_sort; apply _|done|].
  setoid_rewrite merge_sort_Permutation in Hx. split_and!; [done|done|]. intros y Hy Hqy.
  destruct (Hall y) as [->|Hlt]; [by rw merge_sort_Permutation|done|lia|exact Hlt].
Qed.
End facts.

(** ** Intents *)

Section intents.
Context `{CH : ContentHash, TX : Text, TT : TimeText}.

(** The intents of a list of commits. *)
Definition intents_of (l : list Commit) : gset string := list_to_set ((λ c, intent_id (intent c)) <$> l).

Lemma build_intent_node_S fuel all visiting c :
  let id := intent_id (intent c) in
  build_intent_node (S fuel) all visiting c =
    (children ← (if decide (id ∈ visiting) then Ok [] else
       traverse (build_intent_node fuel all ({[ id ]} ∪ visiting)) (List.filter (child_of c) all));
     Ok (intent_node c children)).
Proof. done. Qed.

(** Every level enters another intent, so their number is fuel enough. *)
Lemma build_intent_node_total all fuel visiting c :
  visiting ⊆ intents_of all → c ∈ all → size (intents_of all) ≤ fuel + size visiting →
  ∃ j, build_intent_node (S fuel) all visiting c = Ok j.
Proof.
  revert visiting c. induction fuel as [|fuel IH]; intros visiting c Hv Hc Hf; rewrite build_intent_node_S;
    (case_decide as Hin; [by eexists|]);
    assert (intent_id (intent c) ∈ intents_of all) as Hid
      by (apply elem_of_list_to_set; by apply (list_elem_of_fmap_2 (λ c, intent_id (intent c))));
    assert ({[intent_id (intent c)]} ∪ visiting ⊆ intents_of all) as Hv'
      by (apply union_subseteq; split; [by apply singleton_subseteq_l|done]);
    assert (size ({[intent_id (intent c)]} ∪ visiting) = S (size visiting)) as Hs
      by (rewrite size_union ?size_singleton; [done|set_solver]).
  { pose proof (subseteq_size _ _ Hv') as Hle. simpl in Hf. lia. }
  destruct (traverse_total (build_intent_node (S fuel) all ({[intent_id (intent c)]} ∪ visiting))
    (List.filter (child_of c) all)) as [js ->]; [|by eexists].
  intros c' [Hc' _]%elem_of_List_filter. apply IH; [done|done|lia].
Qed.

Lemma intents_of_size l : size (intents_of l) ≤ length l.
Proof.
  unfold intents_of. induction l as [|c l IH]; [change (size (∅ : gset string) ≤ 0); by rewrite size_empty|]. csimpl.
  pose proof (size_union_alt {[intent_id (intent c)]} (list_to_set (C := gset string) ((λ c, intent_id (intent c)) <$> l))) as Hs.
  rewrite Hs size_singleton.
  pose proof (subseteq_size (list_to_set (C := gset string) ((λ c, intent_id (intent c)) <$> l) ∖ {[intent_id (intent c)]})
    (list_to_set ((λ c, intent_id (intent c)) <$> l)) ltac:(set_solver)). lia.
Qed.

Lemma intent_forest_total all roots :
  (∀ c, c ∈ roots → c ∈ all) → ∃ js, traverse (build_intent_node (intent_fuel all) all ∅) roots = Ok js.
Proof.
  intros Hr. apply traverse_total. intros c Hc. apply build_intent_node_total; [apply empty_subseteq|by apply Hr|].
  rewrite size_empty. pose proof (intents_of_size all). lia.
Qed.

Lemma intent_roots_in root_id l c : c ∈ intent_roots root_id l → c ∈ l.
Proof. unfold intent_roots. destruct root_id; by intros [? _]%elem_of_List_filter. Qed.
End intents.

(** ** Pages *)

Section pages.
Context `{CH : ContentHash, TX : Text, TT : TimeText}.

(** A walk that its limit did not cut is the same with any larger one. *)
Lemma walk_loop_limit fuel get limit limit' seen frontier acc w :
  walk_loop fuel get limit seen frontier acc = Ok w → truncated w = false → limit ≤ limit' →
  walk_loop fuel get limit' seen frontier acc = Ok w.
Proof.
  intros Hw Ht Hl. revert seen frontier acc Hw. induction fuel as [|fuel IH]; [done|].
  intros seen [|i frontier] acc; [done|]. cbn [walk_loop].
  case_decide; [by intros [= <-]|]. rewrite (decide_False (P := limit' ≤ length acc)); [|lia].
  case_decide; [apply IH|]. destruct (get i) as [[c|]|e]; [apply IH|apply IH|done].
Qed.

(** With fewer commits stored than [floor], all walks of at least that many
    list the same. *)
Lemma run_log_dag_whole r name (floor : N) w head :
  keyed (commits (w_store w)) → resolves w r name head → (N.of_nat (size (commits (w_store w))) < floor)%N →
  ∃ walk, history_of (commits (w_store w)) head floor (walk_commits walk) ∧
    ∀ limit, (floor ≤ limit)%N → run (log_dag r name limit) w = (Ok walk, w).
Proof.
  intros Hk Hr Hsz. destruct (list_commits_dag_ok _ head (N.to_nat floor) Hk) as (walk & Hl & Hn & Hlen & Hin & Hall & Htr).
  assert (truncated walk = false) as Hnt.
  { apply not_true_is_false. intros Ht. apply Is_true_true_2, Htr in Ht.
    pose proof (nodup_ids_size _ _ Hn (λ c Hc, proj1 (Hin c Hc))). lia. }
  exists {| walk_commits := map enforce_caps (walk_commits walk); truncated := truncated walk |}. split; [split|].
  - intros c (c0 & -> & Hc0)%list_elem_of_fmap. exists c0. split; [done|]. by apply Hin.
  - intros _ i c0 Hi Hc0. apply list_elem_of_fmap_2. by eapply Hall.
  - intros limit Hlim. unfold log_dag. rewrite run_seq Hr run_seq run_read_store. unfold get_commit.
    assert (list_commits_dag (walk_fuel (commits (w_store w))) (λ i, Ok (commits (w_store w) !! i)) head
      (N.to_nat limit) = Ok walk) as -> by (eapply walk_loop_limit; [exact Hl|done|lia]). done.
Qed.
End pages.

(** ** Properties *)

(** C19: blame. Over a consistent store the answer is the id and the summary of
    a commit in the history of the ref that has a value at the path which no
    stored parent has: the entry repeats the path, the short id, the agent, the
    category, the description, the reasoning (as capped on reading) and the
    time of that very commit, with the flag set exactly when a stored parent is
    not older. The walk lists at most 1000 commits: when the store holds fewer,
    no other such commit is newer, and when there is none the error says so.
    It fails otherwise only as resolving the ref or parsing the path does. *)
Theorem blame_spec `{CH : ContentHash, CS : CommitSerial, TX : Text} r name path w :
  consistent (w_store w) →
  let s := w_store w in
  let whole := (N.of_nat (size (commits s)) < 1000)%N in
  match run (blame_inner r name path) w with
  | (Ok (entry, id), w') => w' = w ∧ ∃ head p c,
      resolves w r name head ∧ parse path = Ok p ∧ commits s !! id = Some c ∧ commit_id c = id ∧
      ancestor_of (commits s) head id ∧ introduces s p c ∧
      (blame_path entry = path ∧ blame_commit_id entry = oid_short id ∧ blame_agent_id entry = agent_id (enforce_caps c) ∧
       blame_intent_category entry = debug_category (category (intent c)) ∧
       blame_intent_description entry = description (intent (enforce_caps c)) ∧
       blame_reasoning entry = reasoning (enforce_caps c) ∧ blame_timestamp entry = timestamp c) ∧
      (timestamp_anomaly entry ↔ anomalous (commits s) c) ∧
      (whole → ∀ i c', ancestor_of (commits s) head i → commits s !! i = Some c' → introduces s p c' →
         (timestamp c' ≤ timestamp c)%Z)
  | (Err e, w') => w' = w ∧
      (run (resolve_ref r name) w = (Err e, w) ∨ (∃ pe, parse path = Err pe) ∨
       e = Fail (RefMissing ("no commit found that modified " +:+ path)) ∧ ∃ head p,
         resolves w r name head ∧ parse path = Ok p ∧
         (whole → ∀ i c, ancestor_of (commits s) head i → commits s !! i = Some c → ¬ introduces s p c))
  end.
Proof.
  intros Hc s whole. unfold blame_inner. rewrite run_seq.
  destruct (run_log_dag r name BLAME_WALK w (consistent_keyed _ Hc)) as [(e & Hr & ->)|(head & walk & Hr & -> & Hin & Hall)].
  { split; [done|]. by left. }
  rewrite run_seq. unfold parse_repo_path, lift_repo. destruct (parse path) as [p|pe] eqn:Hp; [|split; [done|]; right; left; by eexists].
  change (run (of_result (map_err Fail (map_err (λ e, TreeErr (PathNotFound (path_error_to_string e))) (Ok p)))) w)
    with (Ok (E := RE) p, w). cbv beta iota. rewrite run_read_store.
  destruct (List.find _ _) as [c|] eqn:Hf.
  - apply find_newest in Hf as (Hcin & Hi & Hnew). destruct (Hin c Hcin) as (c0 & -> & Hs & Ha).
    split; [done|]. exists head, p, c0. apply introduced_here_spec in Hi.
    split_and!; try done; [exact (commit_has_timestamp_anomaly_spec s (enforce_caps c0))|].
    intros Hw i c' Hi' Hc' Hint. apply (Hnew (enforce_caps c')); [by eapply Hall|]. by apply introduced_here_spec.
  - split; [done|]. right; right. split; [done|]. exists head, p. split_and!; [done|done|].
    intros Hw i c Hi Hci Hint. assert (enforce_caps c ∈ merge_sort newer (walk_commits walk)) as Hl
      by (rw merge_sort_Permutation; by eapply Hall).
    apply list_elem_of_In, (List.find_none _ _ Hf) in Hl.
    assert (Is_true (introduced_here s p (enforce_caps c))) as Ht by by apply introduced_here_spec. by rewrite Hl in Ht.
Qed.

(** The audit of timestamps misses nothing. On a consistent store of fewer
    than [usize::MAX] commits it fails only as resolving the ref does, and it
    reports exactly the commits in the history of the ref, merged branches
    included, that have a stored parent which is not older. *)
Theorem detect_timestamp_anomalies_spec `{CH : ContentHash, CS : CommitSerial, TT : TimeText} r name w :
  consistent (w_store w) → (N.of_nat (size (commits (w_store w))) < usize_max)%N →
  match run (detect_timestamp_anomalies r name) w with
  | (Ok findings, w') => w' = w ∧ ∃ head, resolves w r name head ∧
      ∀ i, i ∈ findings.*1 ↔ ancestor_of (commits (w_store w)) head i ∧
        ∃ c, commits (w_store w) !! i = Some c ∧ anomalous (commits (w_store w)) c
  | (Err e, w') => w' = w ∧ run (resolve_ref r name) w = (Err e, w)
  end.
Proof.
  intros Hc Hsz. pose proof (consistent_keyed _ Hc) as Hk. unfold detect_timestamp_anomalies. rewrite run_seq.
  destruct (run_log_dag r name usize_max w Hk) as [(e & Hr & ->)|(head & walk & Hr & -> & Hin & Hall)]; [done|].
  cbv beta iota. rewrite run_read_store. split; [done|]. exists head. split; [done|]. intros i. unfold anomalies. split.
  - intros ([i' reason] & -> & (c & Hci & Hf)%list_elem_of_omap)%list_elem_of_fmap.
    destruct (Hin c Hci) as (c0 & -> & Hs & Ha).
    assert (anomalous (commits (w_store w)) (enforce_caps c0)) as Han by (apply anomaly_of_Some; by eexists).
    unfold anomaly_of in Hf. destruct (omap _ _); [done|]. injection Hf as <- _. split; [done|]. by exists c0.
  - intros (Ha & c & Hs & Han). specialize (Hall Hsz i c Ha Hs).
    assert (is_Some (anomaly_of (w_store w) (enforce_caps c))) as [[i' reason] Hf] by by apply anomaly_of_Some.
    apply list_elem_of_fmap. exists (i', reason). split.
    + unfold anomaly_of in Hf. destruct (omap _ _); [done|]. injection Hf as <- _. symmetry. by apply Hk.
    + apply list_elem_of_omap. by exists (enforce_caps c).
Qed.

(** Pages of a query. While the store holds fewer commits than the scan
    floor, the pages of a query are slices of one list: the commits of the
    whole history of the ref that match the filters. *)
Theorem query_commits_pages `{CH : ContentHash, CS : CommitSerial, TX : Text} r name filters w head :
  consistent (w_store w) → resolves w r name head →
  (N.of_nat (size (commits (w_store w))) < COMMIT_QUERY_SCAN_FLOOR)%N →
  ∃ all, (∀ c, c ∈ all ↔ ∃ i c0, c = enforce_caps c0 ∧ commits (w_store w) !! i = Some c0 ∧
            ancestor_of (commits (w_store w)) head i) ∧
    ∀ limit offset, run (query_commits_paged r name filters limit offset) w =
      (Ok (take (N.to_nat limit) (drop (N.to_nat offset) (filter_commits all filters))), w).
Proof.
  intros Hc Hr Hsz. destruct (run_log_dag_whole r name _ w head (consistent_keyed _ Hc) Hr Hsz) as (walk & [Hin Hall] & Hrun).
  exists (walk_commits walk). split.
  - intros c. split; [|intros (i & c0 & -> & ? & ?); by eapply Hall].
    intros (c0 & -> & ? & ?)%Hin. by exists (commit_id c0), c0.
  - intros limit offset. unfold query_commits_paged. rewrite run_seq Hrun; [done|]. unfold commit_query_scan. lia.
Qed.

(** The tree of intents always ends: whatever cycles the parents of the
    intents form, rendering it fails only as resolving the ref does. *)
Theorem intent_tree_returns `{CH : ContentHash, TX : Text, TT : TimeText} r name root w :
  match run (intent_tree r name root) w with
  | (Ok _, w') => w' = w
  | (Err e, w') => w' = w ∧ run (resolve_ref r name) w = (Err e, w)
  end.
Proof.
  pose proof (keeps_run id _ w (reads_only_resolve r name)) as Hw. unfold intent_tree, log. rewrite run_seq (run_seq (resolve_ref r name)).
  destruct (run (resolve_ref r name) w) as [[head|e] w1]; simpl in Hw; unfold id in Hw; subst w1; [|done].
  rewrite run_read_store. set (l := map enforce_caps _). rewrite run_seq.
  destruct (intent_forest_total l (intent_roots root l)) as [js ->]; [|done].
  intros c. apply intent_roots_in.
Qed.

Section witnesses.
Import Plain PlainText Samples.

#[local] Instance plain_time : TimeText := λ t, signed t.

(** A write at a time of its own. *)
Definition set_at (now : Time) (name path : string) (v : Object) : P ObjectId :=
  set_inner plain_repo now (λ _, now) None name path v (options "ann").

Definition second_value : Object := mk_string "second".

(** On [feature] the value at [/a/x] changes at 5 and is changed back at 9; on
    [main] it changes at 3; the merge at 10 keeps what [main] made of it. *)
Definition reverted : World :=
  then_run (merge_checked key_order elements plain_repo (λ _, 10%Z) None "feature" "main" (options "ann") false)
    (then_run (set_at 9%Z "feature" "/a/x" leaf)
      (then_run (set_at 6%Z "feature" "/f" written)
        (then_run (set_at 5%Z "feature" "/a/x" written)
          (then_run (set_at 3%Z "main" "/a/x" second_value)
            (then_run (branch plain_repo "feature" "main") start))))).

Lemma reverted_consistent : consistent (w_store reverted).
Proof. apply consistentb_spec. by vm_compute. Qed.

Definition blamed : BlameEntry * ObjectId :=
  match (run (blame_inner plain_repo "main" "/a/x") reverted).1 with
  | Ok x => x
  | Err _ => (blame_entry_for (w_store reverted) "" first_commit, zero_oid)
  end.

Lemma run_blamed : (run (blame_inner plain_repo "main" "/a/x") reverted).1 = Ok blamed.
Proof. by vm_compute. Qed.

Lemma blame_spec_witness : is_Some (commits (w_store reverted) !! blamed.2).
Proof.
  pose proof (blame_spec plain_repo "main" "/a/x" reverted reverted_consistent) as H.
  pose proof run_blamed as Hb. destruct (run (blame_inner plain_repo "main" "/a/x") reverted) as [res w'].
  simpl in Hb. subst res. destruct blamed as [entry id]. cbv zeta in H.
  destruct H as (_ & head & p & c & _ & _ & Hc & _). by exists c.
Defined.

(** Blame names a value that lost. [main] has at [/a/x] the value it was
    given at 3, which the merge kept; blame names the commit of the merged
    branch that put the old value back at 9, and that value is no longer
    there. *)
Theorem blame_names_a_lost_value :
  let s := w_store reverted in
  (run (get_inner plain_repo "main" "/a/x") reverted).1 = Ok second_value ∧
  (run (blame plain_repo "main" "/a/x") reverted).1 = Ok blamed.1 ∧
  blame_timestamp blamed.1 = 9%Z ∧
  ((λ c, tree_get s (state_root c) [Key "a"; Key "x"]) <$> commits s !! blamed.2) = Some (Ok leaf) ∧
  leaf ≠ second_value.
Proof. split_and!; [by vm_compute..|done]. Qed.

Lemma detect_timestamp_anomalies_spec_witness :
  ∃ findings, (run (detect_timestamp_anomalies plain_repo "main") reverted).1 = Ok findings.
Proof.
  assert (N.of_nat (size (commits (w_store reverted))) < usize_max)%N as Hsz by by vm_compute.
  pose proof (detect_timestamp_anomalies_spec plain_repo "main" reverted reverted_consistent Hsz) as H.
  destruct (run (detect_timestamp_anomalies plain_repo "main") reverted) as [[findings|e] w']; [by exists findings|].
  exfalso. destruct H as [_ H]. apply (f_equal fst) in H. revert H. by vm_compute.
Defined.

Definition main_head : ObjectId := default zero_oid (w_refs reverted !! ("default", "main")).

Lemma query_commits_pages_witness :
  ∃ all, run (query_commits_paged plain_repo "main" no_filters 2 1) reverted =
    (Ok (take 2 (drop 1 (filter_commits all no_filters))), reverted).
Proof.
  assert (N.of_nat (size (commits (w_store reverted))) < COMMIT_QUERY_SCAN_FLOOR)%N as Hsz by by vm_compute.
  assert (resolves reverted plain_repo "main" main_head) as Hres by (apply resolves_alone; by vm_compute).
  destruct (query_commits_pages plain_repo "main" no_filters reverted main_head reverted_consistent Hres Hsz)
    as (all & _ & H). exists all. exact (H 2%N 1%N).
Defined.
End witnesses.
