(* ===== verification/Writes.v ===== *)
(** * Writes: what concurrent writers keep

    Writers of many processes over one store, their steps interleaved in any
    way: no writer that got [Ok] loses its commit, every writer gets an answer,
    and where that ends: the race with the creation of a branch. *)
From S2P Require Import Prelude Objects Paths Json Intents Sessions Commits Epochs Taints Stores Memory.
From S2P Require Import Diffs Merges Clashes Trees TreeJson Specs Guards Ancestry Heights Integrity Programs.
From S2P Require Import Repos Rules Alone Mergers Landings.

(** ** Writers *)

Inductive Request : Type :=
  | Setting (ref_name path : string) (value : Object) (o : CommitOptions)
  | Deleting (ref_name path : string) (o : CommitOptions)
  | Branching (name from : string)
  | Committing (handle : SpecHandle) (o : CommitOptions)
  | CommittingAt (handle : SpecHandle) (expected_head : ObjectId) (o : CommitOptions).

(** A caller with its repository, clock and trace, and what it asks for. *)
Record Writer := {
  writer_repo : Repository;
  writer_now : Time;
  writer_clock : nat → Time;
  writer_trace : option CommitTrace;
  request : Request;
}.

Definition program `{CH : ContentHash, CS : CommitSerial} (x : Writer) : P ObjectId :=
  match request x with
  | Setting name path v o =>
      set_inner (writer_repo x) (writer_now x) (writer_clock x) (writer_trace x) name path v o
  | Deleting name path o =>
      delete_inner (writer_repo x) (writer_now x) (writer_clock x) (writer_trace x) name path o
  | Branching name from => branch (writer_repo x) name from
  | Committing h o => commit_speculation_inner (writer_repo x) (writer_clock x) (writer_trace x) h o
  | CommittingAt h expected o =>
      commit_speculation_cas_inner (writer_repo x) (writer_now x) (writer_trace x) h expected o
  end.

(** Values are finite JSON: no NaN or infinite floats. *)
Definition finite_request (x : Writer) : Prop :=
  match request x with Setting _ _ v _ => finite v | _ => True end.

(** The refs that exist when the writers start. *)
Definition existing (w0 : World) (k : string * string) : Prop := is_Some (refs (w_store w0) !! k).

(** What an answer means while [w0] was the start and [w] is now. *)
Definition kept_promise `{CH : ContentHash, CS : CommitSerial} (w0 : World) (x : Writer)
    (r : result RE ObjectId) (w : World) : Prop :=
  match request x with
  | Setting name path v _ =>
      write_post (existing w0) (set_edit path v) w0 (key (writer_repo x) name) r w
  | Deleting name path _ =>
      write_post (existing w0) (delete_edit path) w0 (key (writer_repo x) name) r w
  | Branching name _ =>
      ok_post (λ _ _, ¬ existing w0 (key (writer_repo x) name)) r w
  | Committing h _ =>
      commit_post (lands (existing w0) w0 (writer_repo x)) w0 (writer_repo x) h r w
  | CommittingAt h expected _ =>
      commit_post (lands_at (existing w0) expected w0 (writer_repo x)) w0 (writer_repo x) h r w
  end.

Section writers.
Context `{CH : ContentHash, CS : CommitSerial, CF : !CollisionFree, CCF : !CommitCollisionFree}.
Context `{HA : !HashAcyclic}.
Context (w0 : World).

Lemma write_post_stable E k r :
  stable (world_ok (existing w0)) (world_step (existing w0)) (write_post (existing w0) E w0 k r).
Proof.
  intros w w' Hok Hg. destruct r as [id|e]; simpl.
  - intros H Hk. by eapply landed_stable; [..|apply H].
  - intros [? H]. split; [done|]. intros He. by eapply outrun_stable; [..|apply H].
Qed.

Lemma kept_promise_stable x r :
  stable (world_ok (existing w0)) (world_step (existing w0)) (kept_promise w0 x r).
Proof.
  assert (∀ Q h, (∀ sp, stable (world_ok (existing w0)) (world_step (existing w0)) (Q sp r)) →
    stable (world_ok (existing w0)) (world_step (existing w0)) (commit_post Q w0 (writer_repo x) h r)) as Hc.
  { intros Q h HQ w w' Hok Hg [Hcl H]. split; [by eapply closed_stable|].
    destruct H as [H|(sp & Hsp & H)]; [by left|right]. exists sp. split; [done|]. by eapply HQ. }
  intros w w' Hok Hg. unfold kept_promise.
  destruct (request x); [by apply write_post_stable..|by destruct r|apply Hc; [|done..]|apply Hc; [|done..]].
  - intros sp. apply write_post_stable.
  - intros sp. apply lands_at_stable.
Qed.

Lemma program_ok x :
  finite_request x →
  wp (world_ok (existing w0)) (world_step (existing w0)) (program x) (kept_promise w0 x) w0.
Proof.
  unfold finite_request, program, kept_promise. destruct (request x); intros Hv;
    [by apply wp_set_inner|by apply wp_delete_inner; apply _|by apply wp_branch; apply _|
     by apply wp_commit_speculation; apply _|by apply wp_commit_speculation_cas; apply _].
Qed.

(** Whatever the schedule, everyone who has an answer has a kept promise. *)
Lemma writers_ok (writers : list Writer) ps w :
  consistent (w_store w0) → Forall finite_request writers →
  rtc pool_step (program <$> writers, w0) (ps, w) →
  consistent (w_store w) ∧ evolves (existing w0) (w_store w0) (w_store w) ∧
  ∀ i x r, writers !! i = Some x → ps !! i = Some (Ret r) → kept_promise w0 x r w.
Proof.
  intros Hc Hf Hrun.
  destruct (pool_sound (world_ok (existing w0)) (world_step (existing w0)) _ _
    (kept_promise w0 <$> writers) _ _ Hrun) as (Hok & Hg & Hret).
  { split; [by split|]. apply Forall2_fmap, Forall_Forall2_diag.
    eapply Forall_impl; [exact Hf|]. intros x Hx. split; [|by apply program_ok].
    intros r. apply kept_promise_stable. }
  split_and!; [apply Hok|apply Hg|]. intros i x r Hx Hr. destruct (Hret i r Hr) as (Q & HQ & H).
  rewrite list_lookup_fmap Hx in HQ. by injection HQ as <-.
Qed.
End writers.

(** ** Properties *)

(** C1: no acknowledged write is lost. Let any number of writers, in any
    processes, set and delete values, create branches and commit speculations
    over one consistent store, their steps interleaved in any way. The store
    stays consistent, nothing stored is lost and no ref that existed is deleted
    or moved back. And each write on such a ref that has been acknowledged with
    an id, at any time so far, is the head of the ref or an ancestor of it; it
    stands on one commit, at or past every head acknowledged before the writers
    started; and its tree is that commit's with exactly the requested edit, for
    a speculation the merge of its changes. A conditional commit of a
    speculation stands on just the head it named, with just its tree. *)
Theorem no_lost_updates `{CH : ContentHash, CS : CommitSerial, CF : !CollisionFree,
    CCF : !CommitCollisionFree, HA : !HashAcyclic} (w0 w : World) (writers : list Writer) ps :
  consistent (w_store w0) → Forall finite_request writers →
  rtc pool_step (program <$> writers, w0) (ps, w) →
  consistent (w_store w) ∧ evolves (existing w0) (w_store w0) (w_store w) ∧
  ∀ i x id, writers !! i = Some x → ps !! i = Some (Ret (Ok id)) →
    match request x with
    | Setting name path v _ => let k := key (writer_repo x) name in
        existing w0 k → landed w0 k (set_edit path v) id w
    | Deleting name path _ => let k := key (writer_repo x) name in
        existing w0 k → landed w0 k (delete_edit path) id w
    | Branching name _ => ¬ existing w0 (key (writer_repo x) name)
    | Committing h _ => ∃ sp, open_spec w0 (writer_repo x) h sp ∧
        let k := key (writer_repo x) (spec_base_ref sp) in existing w0 k →
        landed w0 k (spec_edit (spec_base_root sp) (spec_current_root sp)) id w
    | CommittingAt h expected _ => ∃ sp, open_spec w0 (writer_repo x) h sp ∧
        stored (w_store w) id (spec_current_root sp) [expected] ∧
        let k := key (writer_repo x) (spec_base_ref sp) in existing w0 k →
        landed w0 k (as_it_is sp) id w
    end.
Proof.
  intros Hc Hf Hrun. destruct (writers_ok w0 writers ps w Hc Hf Hrun) as (? & ? & Hp).
  split_and!; [done..|]. intros i x id Hx Hr. specialize (Hp i x _ Hx Hr). unfold kept_promise in Hp.
  destruct (request x); [done..| |]; destruct Hp as [_ [?|(sp & Hsp & Hp)]]; try done; by exists sp.
Qed.

(** C2: writers make progress. No schedule of writers goes on for ever, and
    when none can go on each has its answer. A set, a deletion or a commit of a
    speculation on a ref that existed when the writers started gives up with a
    write conflict only when, since then, the ref moved along a chain of at
    least 256 commits: someone else's always landed. A conditional commit of a
    speculation, which tries once, finds a conflict only when the head it was
    told is a stored commit of another tree than the speculation's base, or
    when the ref, if it was at that head at the start, has moved on from it. A
    branch is never refused for a conflict. And a speculation whose commit has
    an answer, whatever it is, is open no more. *)
Theorem write_conflict_means_progress `{CH : ContentHash, CS : CommitSerial, CF : !CollisionFree,
    CCF : !CommitCollisionFree, HA : !HashAcyclic} (w0 w : World) (writers : list Writer) ps :
  consistent (w_store w0) → Forall finite_request writers →
  rtc pool_step (program <$> writers, w0) (ps, w) →
  Acc (flip pool_step) (ps, w) ∧ ((∀ y, ¬ pool_step (ps, w) y) → Forall finished ps) ∧
  (∀ i x, writers !! i = Some x → ps !! i = Some (Ret (Err (Fail WriteConflict))) →
    let moved name m h := refs (w_store w0) !! key (writer_repo x) name = Some h → ∃ h' n,
      refs (w_store w) !! key (writer_repo x) name = Some h' ∧ m ≤ n ∧
      nsteps (parent_edge (commits (w_store w))) n h' h in
    match request x with
    | Setting name _ _ _ | Deleting name _ _ => ∀ h, moved name 256 h
    | Committing h _ => ∃ sp, open_spec w0 (writer_repo x) h sp ∧ ∀ h, moved (spec_base_ref sp) 256 h
    | Branching _ _ => False
    | CommittingAt h expected _ => ∃ sp, open_spec w0 (writer_repo x) h sp ∧
        ((∃ root ps, stored (w_store w) expected root ps ∧ root ≠ spec_base_root sp) ∨
         moved (spec_base_ref sp) 1 expected)
    end) ∧
  ∀ i x r, writers !! i = Some x → ps !! i = Some (Ret r) →
    match request x with
    | Committing h _ | CommittingAt h _ _ => ∀ sp, ¬ open_spec w (writer_repo x) h sp
    | _ => True
    end.
Proof.
  intros Hc Hf Hrun. destruct (writers_ok w0 writers ps w Hc Hf Hrun) as (_ & _ & Hp).
  split_and!; [apply pool_finishes..| |].
  - intros i x Hx Hr. specialize (Hp i x _ Hx Hr).
    assert (∀ name m h, outrun (existing w0) w0 (key (writer_repo x) name) m w →
      refs (w_store w0) !! key (writer_repo x) name = Some h → ∃ h' n,
        refs (w_store w) !! key (writer_repo x) name = Some h' ∧ m ≤ n ∧
        nsteps (parent_edge (commits (w_store w))) n h' h) as Hout.
    { intros name m h H Hh. apply H; [|done]. by exists h. }
    unfold kept_promise in Hp. cbv zeta.
    destruct (request x); [intros h; apply Hout; exact (proj2 Hp eq_refl)..|by destruct Hp| |];
      destruct Hp as [_ [?|(sp & Hsp & _ & Hp)]]; [done| |done|]; specialize (Hp eq_refl);
      exists sp; (split; [done|]).
    + intros h. exact (Hout _ _ _ Hp).
    + destruct Hp as [Hp|Hp]; [by left|right]. intros Hh. exact (Hout _ _ _ (Hp Hh) Hh).
  - intros i x r Hx Hr. specialize (Hp i x r Hx Hr). unfold kept_promise in Hp.
    destruct (request x); [done..| |]; apply Hp.
Qed.

Section witnesses.
Import Plain Samples.

Definition writer (agent : string) (x : Request) : Writer := {|
  writer_repo := plain_repo; writer_now := 1%Z; writer_clock := λ n, Z.of_nat n; writer_trace := None;
  request := x |}.

(** Cid holds a speculation that removes [/n]. *)
Definition speculating : World :=
  then_run (repo_spec_delete plain_repo 1%N "/n") (then_run (speculate_inner plain_repo "main" None) start).

Lemma speculating_consistent : consistent (w_store speculating).
Proof. apply consistentb_spec. by vm_compute. Qed.

Definition three_writers : list Writer :=
  [writer "ann" (Setting "main" "/a/b/c" written (options "ann"));
   writer "bob" (Deleting "main" "/a/x" (options "bob"));
   writer "cid" (Committing 1%N (options "cid"))].

(** Ann reads the head; Bob lands; Cid's speculation is merged onto that; Ann
    loses the race and retries. *)
Definition race : list nat := replicate 6 0 ++ replicate 20 1 ++ replicate 20 2 ++ replicate 20 0.

Definition raced : list (P ObjectId) * World := play race (program <$> three_writers, speculating).

Definition answer_id (x : list (P ObjectId) * World) (i : nat) : ObjectId :=
  match answer x i with Some (Ok id) => id | _ => zero_oid end.
Definition answered (i : nat) : ObjectId := answer_id raced i.

Lemma raced_answers i : i < 3 → raced.1 !! i = Some (Ret (Ok (answered i))).
Proof. intros Hi. apply answer_ret. destruct i as [|[|[|i]]]; [by vm_compute..|lia]. Qed.

Lemma raced_run : rtc pool_step (program <$> three_writers, speculating) (raced.1, raced.2).
Proof.
  unfold raced. generalize (program <$> three_writers, speculating) as x. intros x.
  rewrite -surjective_pairing. apply play_steps.
Qed.

Lemma main_exists : existing speculating ("default", "main").
Proof.
  assert (bool_decide (is_Some (refs (w_store speculating) !! ("default", "main")))) as H by by vm_compute.
  by apply bool_decide_spec in H.
Qed.

Lemma no_lost_updates_witness :
  landed speculating ("default", "main") (set_edit "/a/b/c" written) (answered 0) raced.2 ∧
  landed speculating ("default", "main") (delete_edit "/a/x") (answered 1) raced.2 ∧
  ∃ sp, open_spec speculating plain_repo 1%N sp ∧ spec_base_ref sp = "main" ∧
    landed speculating ("default", "main") (spec_edit (spec_base_root sp) (spec_current_root sp)) (answered 2) raced.2.
Proof.
  pose proof raced_run as Hrun.
  assert (Forall finite_request three_writers) as Hf by (by repeat constructor).
  destruct (no_lost_updates speculating raced.2 three_writers raced.1 speculating_consistent Hf Hrun) as (_ & _ & H).
  split; [|split].
  - apply (H 0 _ _ eq_refl (raced_answers 0 ltac:(lia))), main_exists.
  - apply (H 1 _ _ eq_refl (raced_answers 1 ltac:(lia))), main_exists.
  - destruct (H 2 _ _ eq_refl (raced_answers 2 ltac:(lia))) as (sp & Hsp & Hl).
    assert (spec_base_ref sp = "main") as Hb.
    { assert (spec_base_ref <$> specs (instance_specs speculating plain_repo) !! 1%N = Some "main") as Hm by by vm_compute.
      unfold open_spec in Hsp. change (writer_repo _) with plain_repo in Hsp. rewrite Hsp in Hm. by injection Hm. }
    exists sp. split_and!; [done|done|]. cbv zeta in Hl. rewrite Hb in Hl. apply Hl, main_exists.
Defined.

(** Cid's speculation is to land only on the head it forked from; Bob lands first. *)
Definition conditional_writers : list Writer :=
  [writer "bob" (Deleting "main" "/a/x" (options "bob"));
   writer "cid" (CommittingAt 1%N (commit_id first_commit) (options "cid"))].

Definition overtaking : list (P ObjectId) * World :=
  play (replicate 20 0 ++ replicate 20 1) (program <$> conditional_writers, speculating).

Lemma overtaking_run : rtc pool_step (program <$> conditional_writers, speculating) (overtaking.1, overtaking.2).
Proof.
  unfold overtaking. generalize (program <$> conditional_writers, speculating) as x. intros x.
  rewrite -surjective_pairing. apply play_steps.
Qed.

Lemma overtaken_answer : overtaking.1 !! 1 = Some (Ret (Err (Fail WriteConflict))).
Proof. apply answer_ret. by vm_compute. Qed.

Lemma write_conflict_means_progress_witness :
  Acc (flip pool_step) (overtaking.1, overtaking.2) ∧ ∃ sp,
    open_spec speculating plain_repo 1%N sp ∧ ¬ open_spec overtaking.2 plain_repo 1%N sp ∧
    ((∃ root ps, stored (w_store overtaking.2) (commit_id first_commit) root ps ∧ root ≠ spec_base_root sp) ∨
     (refs (w_store speculating) !! key plain_repo (spec_base_ref sp) = Some (commit_id first_commit) → ∃ h' n,
        refs (w_store overtaking.2) !! key plain_repo (spec_base_ref sp) = Some h' ∧ 1 ≤ n ∧
        nsteps (parent_edge (commits (w_store overtaking.2))) n h' (commit_id first_commit))).
Proof.
  assert (Forall finite_request conditional_writers) as Hf by (by repeat constructor).
  destruct (write_conflict_means_progress speculating overtaking.2 conditional_writers overtaking.1
    speculating_consistent Hf overtaking_run) as (Hacc & _ & Hc & Hgone).
  split; [exact Hacc|]. destruct (Hc 1 _ eq_refl overtaken_answer) as (sp & Hsp & H).
  exists sp. split; [exact Hsp|]. split; [exact (Hgone 1 _ _ eq_refl overtaken_answer sp)|exact H].
Defined.

(** *** A branch made during a write

    Ann writes to a branch that does not exist yet; between her two looks at
    the ref it is created, and Cid writes to it. *)
Definition creating : list Writer :=
  [writer "ann" (Setting "feature" "/a/b/c" written (options "ann"));
   writer "bob" (Branching "feature" "main");
   writer "cid" (Deleting "feature" "/a/x" (options "cid"))].

Definition creation_race : list nat := replicate 2 0 ++ replicate 20 1 ++ 0 :: replicate 20 2 ++ replicate 20 0.

Definition created_late : list (P ObjectId) * World := play creation_race (program <$> creating, start).

(** The hypothesis that the ref existed is needed. A write to a branch
    another process creates meanwhile overwrites the ref without comparing:
    all three callers are told [Ok], and Cid's acknowledged commit is not the
    head of the branch nor an ancestor of it. *)
Theorem branch_creation_race :
  let w := w_store created_late.2 in
  rtc pool_step (program <$> creating, start) created_late ∧
  (∀ i, i < 3 → answer created_late i = Some (Ok (answer_id created_late i))) ∧
  refs w !! ("default", "feature") = Some (answer_id created_late 0) ∧
  ¬ ancestor_of (commits w) (answer_id created_late 0) (answer_id created_late 2).
Proof.
  split; [apply play_steps|]. split; [|split].
  - intros [|[|[|i]]] Hi; [by vm_compute..|lia].
  - by vm_compute.
  - apply not_ancestor. by vm_compute.
Qed.
End witnesses.
