(* ===== verification/Missing.v ===== *)
(** * Missing: what a remote lacks

    Models [agentstategraph/src/sync/missing.rs]: the walk of history from both
    sides at once, newest commit first, that finds the commits a remote lacks;
    the order they are sent in; and the diff of their trees that finds the
    objects. A [BinaryHeap] is a sorted list (elements that compare equal are
    equal), a [HashMap] a [gmap], and the order a set is iterated in an
    argument. An index or [expect] that fails is an error of its own, as is a
    loop out of fuel. *)
From S2P Require Import Prelude Objects Paths Json Intents Commits Stores Diffs Memory Trees TreeJson.
From S2P Require Import Guards Ancestry Integrity.

Definition READ_BATCH : nat := 1024.

Record MissingSet := {
  missing_commits : list ObjectId;
  missing_objects : list ObjectId;
  missing_shallow : list ObjectId;
  missing_pruned : list ObjectId;
}.

Definition missing_is_empty (s : MissingSet) : bool := bool_decide (missing_commits s = []).

Inductive WalkError : Type :=
  | WStorage (e : StorageError)
  | WPanic
  | WFuel.

(** ** Heaps *)

(** Newest first, as [(DateTime, ObjectId)] in a [BinaryHeap]. *)
Abbreviation Entry := (Time * ObjectId)%type.
Definition older (x y : Entry) : Prop := (x.1 < y.1)%Z ∨ x.1 = y.1 ∧ oid_le x.2 y.2.
#[export] Instance older_dec : RelDecision older.
Proof. unfold older. intros x y. apply _. Defined.

#[export] Instance older_total : Total older.
Proof.
  intros [s i] [t j]. unfold older. simpl.
  destruct (total oid_le i j), (Z.lt_trichotomy s t) as [?|[->|?]]; naive_solver.
Qed.
#[export] Instance older_trans : Transitive older.
Proof.
  intros [s i] [t j] [u k]. unfold older. simpl. intros [?|[-> Hij]] [?|[-> Hjk]]; [left; lia|by left|by left|].
  right. split; [done|by trans j].
Qed.
#[export] Instance newer_total : Total (flip older).
Proof. intros x y. apply (total older y x). Qed.
#[export] Instance newer_trans : Transitive (flip older).
Proof. intros x y z Hxy Hyz. exact (older_trans z y x Hyz Hxy). Qed.
#[export] Instance newer_dec : RelDecision (flip older) := λ x y, older_dec y x.

Definition heap_push (x : Entry) (q : list Entry) : list Entry := sorted_insert (flip older) x q.
Definition min_heap_push (x : Entry) (q : list Entry) : list Entry := sorted_insert older x q.

(** ** The walk of history *)

Record Walked := {
  w_timestamp : Time;
  w_parents : list ObjectId;
  w_state_root : ObjectId;
}.

Record Mark := {
  remote_has : bool;
  spread_done : bool;
  queued : bool;
  walked : bool;
}.

Definition raise_remote (m : Mark) : Mark :=
  {| remote_has := true; spread_done := spread_done m; queued := queued m; walked := walked m |}.
Definition raise_spread (m : Mark) : Mark :=
  {| remote_has := remote_has m; spread_done := true; queued := queued m; walked := walked m |}.
Definition raise_queued (m : Mark) : Mark :=
  {| remote_has := remote_has m; spread_done := spread_done m; queued := true; walked := walked m |}.
Definition raise_walked (m : Mark) : Mark :=
  {| remote_has := remote_has m; spread_done := spread_done m; queued := queued m; walked := true |}.

Definition no_mark : Mark :=
  {| remote_has := false; spread_done := false; queued := false; walked := false |}.

Record Walk := {
  wk_commits : gmap ObjectId Walked;
  wk_marks : gmap ObjectId Mark;
  wk_queue : list Entry;
  wk_pending : gset ObjectId;
}.

Definition walk_new : Walk :=
  {| wk_commits := ∅; wk_marks := ∅; wk_queue := []; wk_pending := ∅ |}.

Definition set_wk_commits (w : Walk) x : Walk := {|
  wk_commits := x; wk_marks := wk_marks w; wk_queue := wk_queue w; wk_pending := wk_pending w |}.
Definition set_wk_marks (w : Walk) x : Walk := {|
  wk_commits := wk_commits w; wk_marks := x; wk_queue := wk_queue w; wk_pending := wk_pending w |}.
Definition set_wk_queue (w : Walk) x : Walk := {|
  wk_commits := wk_commits w; wk_marks := wk_marks w; wk_queue := x; wk_pending := wk_pending w |}.
Definition set_wk_pending (w : Walk) x : Walk := {|
  wk_commits := wk_commits w; wk_marks := wk_marks w; wk_queue := wk_queue w; wk_pending := x |}.

Abbreviation W := (stateful Walk WalkError).

(** [map[&id]]. *)
Definition index {A} (m : gmap ObjectId A) (id : ObjectId) : result WalkError A := ok_or WPanic (m !! id).

Definition walked_commit (c : Commit) : Walked :=
  {| w_timestamp := timestamp c; w_parents := parents c; w_state_root := state_root c |}.

Definition wk_load (get : CommitReads) (id : ObjectId) : W bool := λ w,
  if bool_decide (is_Some (wk_commits w !! id)) then (Ok true, w) else
  match get id with
  | Err e => (Err (WStorage e), w)
  | Ok None => (Ok false, w)
  | Ok (Some c) => (Ok true, set_wk_commits w (<[id := walked_commit c]> (wk_commits w)))
  end.

(** [self.mark(id)]: the entry, made if absent. *)
Definition mark_of (w : Walk) (id : ObjectId) : Mark := default no_mark (wk_marks w !! id).
Definition set_mark (id : ObjectId) (m : Mark) (w : Walk) : Walk :=
  set_wk_marks w (<[id := m]> (wk_marks w)).

Definition wk_remote_has (w : Walk) (id : ObjectId) : bool :=
  match wk_marks w !! id with Some m => remote_has m | None => false end.

(** [self.queue.push((self.commits[&id].timestamp, id))]. *)
Definition enqueue (id : ObjectId) : W () := λ w,
  match index (wk_commits w) id with
  | Ok c => (Ok (), set_wk_queue w (heap_push (w_timestamp c, id) (wk_queue w)))
  | Err e => (Err e, w)
  end.

Definition queue_new (id : ObjectId) : W () := λ w,
  let m := mark_of w id in
  if remote_has m || queued m then (Ok (), w) else
  enqueue id (set_wk_pending (set_mark id (raise_queued m) w) ({[ id ]} ∪ wk_pending w)).

Definition mark_remote_has (id : ObjectId) : W () := λ w,
  let m := mark_of w id in
  if remote_has m then (Ok (), w) else
  enqueue id (set_wk_pending (set_mark id (raise_remote m) w) (wk_pending w ∖ {[ id ]})).

Definition wk_spread (get : CommitReads) (id : ObjectId) : W () := λ w,
  let m := mark_of w id in
  if spread_done m then (Ok (), w) else
  (c ← reading (λ w, index (wk_commits w) id);
   for_each (λ parent,
     there ← wk_load get parent;
     if there : bool then mark_remote_has parent else mret ()) (w_parents c))
    (set_mark id (raise_spread m) w).

(** What the loop collects. *)
Record Found := {
  found_walked : list ObjectId;
  lacks_parent : gset ObjectId;
  oldest_new : option Time;
}.

Definition none_or {A} (o : option A) (p : A → bool) : bool :=
  match o with None => true | Some x => p x end.

(** The parents of a commit just walked. *)
Fixpoint queue_parents (get : CommitReads) (id : ObjectId) (ps : list ObjectId) (lacks : gset ObjectId) :
    W (gset ObjectId) :=
  match ps with
  | [] => mret lacks
  | parent :: ps' =>
      there ← wk_load get parent;
      if there : bool then _ ← queue_new parent; queue_parents get id ps' lacks
      else queue_parents get id ps' ({[ id ]} ∪ lacks)
  end.

(** A commit newly walked from a head's side. *)
Definition visit_new (get : CommitReads) (shallow : gset ObjectId) (timestamp : Time) (id : ObjectId)
    (f : Found) : W Found :=
  let oldest := match oldest_new f with None => timestamp | Some t => Z.min t timestamp end in
  let f' := {| found_walked := found_walked f ++ [id]; lacks_parent := lacks_parent f;
               oldest_new := Some oldest |} in
  if decide (id ∈ shallow) then mret f' else
  c ← reading (λ w, index (wk_commits w) id);
  lacks ← queue_parents get id (w_parents c) (lacks_parent f);
  mret {| found_walked := found_walked f'; lacks_parent := lacks; oldest_new := oldest_new f' |}.

Fixpoint walk_history (fuel : nat) (get : CommitReads) (shallow : gset ObjectId) (f : Found) : W Found :=
  match fuel with
  | 0 => throw WFuel
  | S fuel' => λ w,
      match wk_queue w with
      | [] => (Ok f, w)
      | (timestamp, id) :: q =>
          if bool_decide (wk_pending w = ∅) && none_or (oldest_new f) (λ oldest, timestamp <? oldest)%Z
          then (Ok f, w) else
          let w' := set_wk_pending (set_wk_queue w q) (wk_pending w ∖ {[ id ]}) in
          match index (wk_marks w') id with
          | Err e => (Err e, w')
          | Ok mark =>
              if remote_has mark then (_ ← wk_spread get id; walk_history fuel' get shallow f) w'
              else if walked mark then walk_history fuel' get shallow f w'
              else (f' ← visit_new get shallow timestamp id f; walk_history fuel' get shallow f')
                     (set_mark id (raise_walked mark) w')
          end
      end
  end.

(** Both sides of the walk, before the loop. *)
Definition start_walk (get : CommitReads) (heads haves : list ObjectId) : W () :=
  _ ← for_each (λ head,
    there ← wk_load get head;
    if there : bool then queue_new head
    else throw (WStorage (CommitNotFound (oid_display head)))) heads;
  for_each (λ have,
    there ← wk_load get have;
    if there : bool then mark_remote_has have else mret ()) haves.

(** ** The order they are sent in *)

Section order.
Context (inter : gset ObjectId → list ObjectId).

(** The distinct parents of a commit that are new too. *)
Definition new_parents (new : gset ObjectId) (c : Walked) : list ObjectId :=
  inter (list_to_set (filter (λ p, p ∈ new) (w_parents c))).

Definition push_child (id p : ObjectId) (children : gmap ObjectId (list ObjectId)) :
    gmap ObjectId (list ObjectId) := <[p := default [] (children !! p) ++ [id]]> children.

Fixpoint waiting_children (commits : gmap ObjectId Walked) (new : gset ObjectId) (ids : list ObjectId)
    (waiting : gmap ObjectId nat) (children : gmap ObjectId (list ObjectId)) :
    result WalkError (gmap ObjectId nat * gmap ObjectId (list ObjectId)) :=
  match ids with
  | [] => Ok (waiting, children)
  | id :: ids' =>
      c ← index commits id;
      let ps := new_parents new c in
      waiting_children commits new ids' (<[id := length ps]> waiting)
        (foldl (λ ch p, push_child id p ch) children ps)
  end.

(** One child of a commit just ordered has one parent less to wait for. *)
Definition release (commits : gmap ObjectId Walked) (child : ObjectId)
    (s : gmap ObjectId nat * list Entry) : result WalkError (gmap ObjectId nat * list Entry) :=
  let '(waiting, ready) := s in
  n ← index waiting child;
  match n with
  | 0 => Err WPanic
  | S n' =>
      let waiting' := <[child := n']> waiting in
      if decide (n' = 0) then
        c ← index commits child; Ok (waiting', min_heap_push (w_timestamp c, child) ready)
      else Ok (waiting', ready)
  end.

Fixpoint release_all (commits : gmap ObjectId Walked) (children : list ObjectId)
    (s : gmap ObjectId nat * list Entry) : result WalkError (gmap ObjectId nat * list Entry) :=
  match children with
  | [] => Ok s
  | child :: children' => s' ← release commits child s; release_all commits children' s'
  end.

Fixpoint order_loop (fuel : nat) (commits : gmap ObjectId Walked) (waiting : gmap ObjectId nat)
    (children : gmap ObjectId (list ObjectId)) (ready : list Entry) (order : list ObjectId) :
    result WalkError (list ObjectId) :=
  match fuel with
  | 0 => Err WFuel
  | S fuel' =>
      match ready with
      | [] => Ok order
      | (_, id) :: ready' =>
          '(waiting', ready'') ← release_all commits (default [] (children !! id)) (waiting, ready');
          order_loop fuel' commits waiting' (delete id children) ready'' (order ++ [id])
      end
  end.

Definition parents_first (commits : gmap ObjectId Walked) (new : gset ObjectId) :
    result WalkError (list ObjectId) :=
  '(waiting, children) ← waiting_children commits new (inter new) ∅ ∅;
  ready ← traverse (λ id, c ← index commits id; Ok (w_timestamp c, id))
    (List.filter (λ id, bool_decide (waiting !! id = Some 0)) (inter new));
  order_loop (S (size new)) commits waiting children (foldr min_heap_push [] ready) [].
End order.

(** ** The objects of their trees *)

(** Where a child sits in its parent. *)
Inductive Slot : Type :=
  | SlotKey (k : string)
  | SlotIndex (i : nat)
  | SlotMember.

Definition slots_of (o : Object) : list (Slot * ObjectId) :=
  match o with
  | OAtom _ => []
  | ONode (NMap m) => prod_map SlotKey id <$> entries m
  | ONode (NList items) => imap (λ i id, (SlotIndex i, id)) items
  | ONode (NSet items) => (λ id, (SlotMember, id)) <$> items
  end.

Definition child_at (o : Object) (s : Slot) : option ObjectId :=
  match o, s with
  | ONode (NMap m), SlotKey k => m !! k
  | ONode (NList items), SlotIndex i => items !! i
  | _, _ => None
  end.

(** A node to send, and the nodes at its path in the base trees. *)
Abbreviation Item := (ObjectId * list ObjectId)%type.

(** The objects a chunk of reads found. *)
Fixpoint keep_found (chunk : list (ObjectId * option Object)) (acc : gmap ObjectId Object) :
    gmap ObjectId Object :=
  match chunk with
  | [] => acc
  | (id, Some obj) :: chunk' => keep_found chunk' (<[id := obj]> acc)
  | (_, None) :: chunk' => keep_found chunk' acc
  end.

Fixpoint load_level (get : ObjectReads) (cs : list (list ObjectId)) (acc : gmap ObjectId Object) :
    result WalkError (gmap ObjectId Object) :=
  match cs with
  | [] => Ok acc
  | chunk :: cs' =>
      objs ← map_err WStorage (batch_get_objects get chunk);
      load_level get cs' (keep_found (zip chunk objs) acc)
  end.

(** The children of one node that are neither known nor on their way. *)
Fixpoint new_children (bases : list Object) (known : gset ObjectId) (cs : list (Slot * ObjectId))
    (sent : gset ObjectId) (next : list Item) : gset ObjectId * list Item :=
  match cs with
  | [] => (sent, next)
  | (slot, child) :: cs' =>
      if bool_decide (child ∈ known) || bool_decide (child ∈ sent)
      then new_children bases known cs' sent next
      else new_children bases known cs' ({[ child ]} ∪ sent)
             (next ++ [(child, omap (λ b, child_at b slot) bases)])
  end.

Definition known_children (bases : list Object) : gset ObjectId :=
  list_to_set (bases ≫= λ b, (slots_of b).*2).

Fixpoint expand_level (loaded : gmap ObjectId Object) (level : list Item) (sent : gset ObjectId)
    (out : list ObjectId) (next : list Item) :
    result WalkError (gset ObjectId * list ObjectId * list Item) :=
  match level with
  | [] => Ok (sent, out, next)
  | (id, bases) :: level' =>
      o ← ok_or (WStorage (ObjectNotFound (oid_display id))) (loaded !! id);
      let base_nodes := omap (λ b, loaded !! b) bases in
      let '(sent', next') := new_children base_nodes (known_children base_nodes) (slots_of o) sent next in
      expand_level loaded level' sent' (out ++ [id]) next'
  end.

Definition level_reads (level : list Item) : list ObjectId :=
  retain_new ∅ (level ≫= λ item, item.1 :: item.2).

Fixpoint diff_levels (fuel : nat) (get : ObjectReads) (level : list Item) (sent : gset ObjectId)
    (out : list ObjectId) : result WalkError (gset ObjectId * list ObjectId) :=
  match level with
  | [] => Ok (sent, out)
  | _ :: _ =>
      match fuel with
      | 0 => Err WFuel
      | S fuel' =>
          loaded ← load_level get (chunks READ_BATCH (level_reads level)) ∅;
          '(sent', out', next) ← expand_level loaded level sent out [];
          diff_levels fuel' get next sent' out'
      end
  end.

(** Whether the tree is there, and [sent] and [out] afterwards. *)
Definition diff_tree (fuel : nat) (get : ObjectReads) (has : ObjectId → result StorageError bool)
    (root : ObjectId) (bases : list ObjectId) (sent : gset ObjectId) (out : list ObjectId) :
    result WalkError (bool * gset ObjectId * list ObjectId) :=
  if bool_decide (root ∈ sent) || bool_decide (root ∈ bases) then Ok (true, sent, out) else
  there ← map_err WStorage (has root);
  if negb there then Ok (false, sent, out) else
  '(sent', out') ← diff_levels fuel get [(root, bases)] ({[ root ]} ∪ sent) out;
  Ok (true, sent', out').

(** The state roots of the parents the remote has or gets. *)
Definition base_roots (w : Walk) (new : gset ObjectId) (c : Walked) : list ObjectId :=
  omap (λ p, w_state_root <$> wk_commits w !! p)
    (filter (λ p, p ∈ new ∨ wk_remote_has w p) (w_parents c)).

Fixpoint diff_commits (fuel : nat) (get : ObjectReads) (has : ObjectId → result StorageError bool)
    (w : Walk) (new : gset ObjectId) (commits : list ObjectId) (sent : gset ObjectId)
    (out pruned : list ObjectId) : result WalkError (list ObjectId * list ObjectId) :=
  match commits with
  | [] => Ok (out, pruned)
  | id :: commits' =>
      c ← index (wk_commits w) id;
      '(there, sent', out') ← diff_tree fuel get has (w_state_root c) (base_roots w new c) sent out;
      diff_commits fuel get has w new commits' sent' out'
        (if there : bool then pruned else pruned ++ [id])
  end.

(** ** The missing set *)

(** The walk, and the ids it found to be new. *)
Definition new_commits (fuel : nat) (get : CommitReads) (heads haves : list ObjectId) (shallow : gset ObjectId) :
    result WalkError (Walk * Found * gset ObjectId) :=
  match (_ ← start_walk get heads haves;
         walk_history fuel get shallow {| found_walked := []; lacks_parent := ∅; oldest_new := None |}) walk_new with
  | (Err e, _) => Err e
  | (Ok f, w) => Ok (w, f, list_to_set (List.filter (λ id, negb (wk_remote_has w id)) (found_walked f)))
  end.

Definition missing_set (fuel tree_fuel : nat) (inter : gset ObjectId → list ObjectId) (get : CommitReads)
    (get_object : ObjectReads) (has : ObjectId → result StorageError bool)
    (heads haves shallow : list ObjectId) : result WalkError MissingSet :=
  let shallow : gset ObjectId := list_to_set shallow in
  '(w, f, new) ← new_commits fuel get heads haves shallow;
  commits ← parents_first inter (wk_commits w) new;
  let shallow_out := List.filter (λ id, bool_decide (id ∈ shallow) || bool_decide (id ∈ lacks_parent f)) commits in
  '(objects, pruned) ← diff_commits tree_fuel get_object has w new commits ∅ [] [];
  Ok {| missing_commits := commits; missing_objects := objects; missing_shallow := shallow_out;
        missing_pruned := pruned |}.

(** ** The walk finds what is new *)

Section history.
Context (m : gmap ObjectId Commit) (heads haves : list ObjectId) (shallow : gset ObjectId).

(** The walk from a head stops at the commits sent without their parents. *)
Definition sent_edge (i j : ObjectId) : Prop := i ∉ shallow ∧ parent_edge m i j.
Definition wanted_commit (i : ObjectId) : Prop := ∃ h, h ∈ heads ∧ rtc sent_edge h i.
(** What a remote has that has the haves, with their ancestors. *)
Definition remote_commit (i : ObjectId) : Prop :=
  ∃ h, h ∈ haves ∧ is_Some (m !! h) ∧ ancestor_of m h i.

(** [X] and [Y]: the commits whose marks are just being spread, and whose
    parents are just being queued. *)
Record walk_ok (X Y : gset ObjectId) (w : Walk) (f : Found) : Prop := {
  wo_commits i x : wk_commits w !! i = Some x → ∃ c, m !! i = Some c ∧ x = walked_commit c;
  wo_marks i : is_Some (wk_marks w !! i) → is_Some (wk_commits w !! i);
  wo_queue t i : (t, i) ∈ wk_queue w → is_Some (wk_marks w !! i) ∧ ∃ c, m !! i = Some c ∧ t = timestamp c;
  wo_entry t i : (t, i) ∈ wk_queue w → queued (mark_of w i) ∨ remote_has (mark_of w i);
  wo_sorted : StronglySorted (flip older) (wk_queue w);
  wo_remote i : remote_has (mark_of w i) → remote_commit i;
  wo_queued i : queued (mark_of w i) → wanted_commit i;
  wo_walked i : i ∈ found_walked f ↔ walked (mark_of w i);
  wo_nodup : NoDup (found_walked f);
  wo_walked_queued i : walked (mark_of w i) → queued (mark_of w i);
  wo_pending i : i ∈ wk_pending w ↔
    queued (mark_of w i) ∧ ¬ walked (mark_of w i) ∧ ¬ remote_has (mark_of w i);
  wo_pending_queue i : i ∈ wk_pending w → ∃ t, (t, i) ∈ wk_queue w;
  wo_remote_queue i : remote_has (mark_of w i) → ¬ spread_done (mark_of w i) → ∃ t, (t, i) ∈ wk_queue w;
  wo_spread i p : spread_done (mark_of w i) → i ∉ X → parent_edge m i p → is_Some (m !! p) →
    remote_has (mark_of w p);
  wo_parents i p : walked (mark_of w i) → i ∉ shallow → i ∉ Y → parent_edge m i p →
    m !! p = None ∧ i ∈ lacks_parent f ∨ queued (mark_of w p) ∨ remote_has (mark_of w p);
  wo_lacks i : i ∈ lacks_parent f → i ∉ shallow ∧ ∃ p, parent_edge m i p ∧ m !! p = None;
  wo_oldest i c : walked (mark_of w i) → m !! i = Some c →
    ∃ t, oldest_new f = Some t ∧ (t ≤ timestamp c)%Z;
}.

(** How many more entries the queue may come to hold. *)
Definition unmarked (p : Mark → bool) (w : Walk) : gset ObjectId :=
  filter (λ i, negb (p (mark_of w i))) (dom m).
Definition budget (w : Walk) : nat :=
  length (wk_queue w) + size (unmarked queued w) + size (unmarked remote_has w).

Record walk_grows (w w' : Walk) : Prop := {
  wg_commits i : is_Some (wk_commits w !! i) → is_Some (wk_commits w' !! i);
  wg_queued i : queued (mark_of w i) → queued (mark_of w' i);
  wg_remote i : remote_has (mark_of w i) → remote_has (mark_of w' i);
  wg_walked i : walked (mark_of w' i) ↔ walked (mark_of w i);
  wg_spread i : spread_done (mark_of w' i) ↔ spread_done (mark_of w i);
  wg_budget : budget w' = budget w;
}.

#[export] Instance walk_grows_preorder : PreOrder walk_grows.
Proof.
  split; [by intros w; split|]. intros w1 w2 w3 [] []. split; intros; [by auto..| | |congruence].
  - by rw wg_walked1.
  - by rw wg_spread1.
Qed.

Lemma mark_of_set i x w j : mark_of (set_mark i x w) j = if decide (i = j) then x else mark_of w j.
Proof.
  unfold mark_of, set_mark. simpl. case_decide as Hij; [subst; by rw lookup_insert_eq|by rw lookup_insert_ne].
Qed.

Lemma wk_remote_has_mark w i : wk_remote_has w i = remote_has (mark_of w i).
Proof. unfold wk_remote_has, mark_of. by destruct (wk_marks w !! i). Qed.

Lemma marked_stored X Y w f i : walk_ok X Y w f → is_Some (wk_commits w !! i) → is_Some (m !! i).
Proof. intros Hw [x (c & Hc & _)%(wo_commits _ _ _ _ Hw)]. by exists c. Qed.

Lemma elem_of_heap_push x y q : y ∈ heap_push x q ↔ y = x ∨ y ∈ q.
Proof. unfold heap_push. by rw sorted_insert_Permutation elem_of_cons. Qed.

Lemma elem_of_unmarked p w i : i ∈ unmarked p w ↔ is_Some (m !! i) ∧ ¬ p (mark_of w i).
Proof. unfold unmarked. rw elem_of_filter elem_of_dom negb_True. tauto. Qed.

(** A flag raised takes one out of the unmarked. *)
Lemma unmarked_raise (p : Mark → bool) i x w :
  is_Some (m !! i) → ¬ p (mark_of w i) → p x → size (unmarked p w) = S (size (unmarked p (set_mark i x w))).
Proof.
  intros Hi Hn Hx. assert (unmarked p w = {[ i ]} ∪ unmarked p (set_mark i x w)) as ->.
  { apply set_eq. intros j. rw elem_of_union elem_of_singleton !elem_of_unmarked mark_of_set.
    case_decide; subst; naive_solver. }
  rewrite size_union ?size_singleton; [done|]. intros j ->%elem_of_singleton. rw elem_of_unmarked mark_of_set.
  rewrite decide_True //. tauto.
Qed.

Lemma unmarked_same (p : Mark → bool) i x w :
  p x = p (mark_of w i) → unmarked p (set_mark i x w) = unmarked p w.
Proof.
  intros Hx. apply set_eq. intros j. rw !elem_of_unmarked mark_of_set. case_decide; [subst|done]. by rw Hx.
Qed.

Lemma enqueue_ok i c w :
  wk_commits w !! i = Some c →
  enqueue i w = (Ok (), set_wk_queue w (heap_push (w_timestamp c, i) (wk_queue w))).
Proof. intros Hi. unfold enqueue, index. by rw Hi. Qed.

Lemma length_heap_push x q : length (heap_push x q) = S (length q).
Proof. unfold heap_push. by rw sorted_insert_Permutation. Qed.

(** A flag raised and the entry queued: what both [queue_new] and
    [mark_remote_has] come to. *)
Definition raised (i : ObjectId) (c : Commit) (x : Mark) (pend : gset ObjectId) (w : Walk) : Walk :=
  set_wk_queue (set_wk_pending (set_mark i x w) pend) (heap_push (timestamp c, i) (wk_queue w)).

Lemma raise_ok X Y w f i c x pend :
  walk_ok X Y w f → wk_commits w !! i = Some (walked_commit c) → m !! i = Some c →
  (queued (mark_of w i) → queued x) → (queued x → wanted_commit i) →
  (remote_has (mark_of w i) → remote_has x) → (remote_has x → remote_commit i) →
  walked x = walked (mark_of w i) → spread_done x = spread_done (mark_of w i) → (queued x ∨ remote_has x) →
  (∀ j, j ∈ pend ↔ if decide (i = j) then queued x ∧ ¬ walked x ∧ ¬ remote_has x else j ∈ wk_pending w) →
  size (unmarked queued w) + size (unmarked remote_has w) =
    S (size (unmarked queued (set_mark i x w)) + size (unmarked remote_has (set_mark i x w))) →
  walk_ok X Y (raised i c x pend w) f ∧ walk_grows w (raised i c x pend w).
Proof.
  intros [] Hi Hc Hq Hq' Hr Hr' Hw Hs He Hp Hb. unfold raised. set (w' := set_wk_queue _ _).
  assert (∀ j, mark_of w' j = if decide (i = j) then x else mark_of w j) as Hm by exact (mark_of_set i x w).
  assert (∀ j, walked (mark_of w' j) = walked (mark_of w j)) as Hmw by (intros j; rewrite Hm; case_decide; congruence).
  assert (∀ j, spread_done (mark_of w' j) = spread_done (mark_of w j)) as Hms
    by (intros j; rewrite Hm; case_decide; congruence).
  assert (∀ j, queued (mark_of w j) → queued (mark_of w' j)) as Hmq by (intros j; rewrite Hm; case_decide; subst; auto).
  assert (∀ j, remote_has (mark_of w j) → remote_has (mark_of w' j)) as Hmr
    by (intros j; rewrite Hm; case_decide; subst; auto).
  assert (∀ t j, (t, j) ∈ wk_queue w' ↔ t = timestamp c ∧ j = i ∨ (t, j) ∈ wk_queue w) as Hqu.
  { intros t j. unfold w'. simpl. rw elem_of_heap_push. naive_solver. }
  split; split; try done.
  - intros j. change (wk_marks w') with (<[i := x]> (wk_marks w)). rw lookup_insert_is_Some.
    intros [<-|[_ ?]]; [by eexists|by auto].
  - intros t j [[-> ->]|Hj]%Hqu.
    + change (wk_marks w') with (<[i := x]> (wk_marks w)). rw lookup_insert_eq. split; [by eexists|by exists c].
    + destruct (wo_queue0 t j Hj) as [? ?]. split; [|done]. change (wk_marks w') with (<[i := x]> (wk_marks w)).
      apply lookup_insert_is_Some'. by right.
  - intros t j [[-> ->]|Hj]%Hqu; [by rewrite Hm decide_True|]. destruct (wo_entry0 t j Hj); auto.
  - by apply sorted_insert_Sorted; [apply _..|].
  - intros j. rewrite Hm. case_decide; [subst|]; by auto.
  - intros j. rewrite Hm. case_decide; [subst|]; by auto.
  - intros j. by rewrite Hmw.
  - intros j. rewrite Hmw. intros ?%wo_walked_queued0. by auto.
  - intros j. change (wk_pending w') with pend. rewrite Hp Hm. case_decide; [done|]. apply wo_pending0.
  - intros j. change (wk_pending w') with pend. rewrite Hp. setoid_rewrite Hqu.
    case_decide; [subst; by exists (timestamp c); left|]. intros [t Ht]%wo_pending_queue0. exists t. by right.
  - intros j. rewrite Hms Hm. setoid_rewrite Hqu. case_decide; [subst; by exists (timestamp c); left|].
    intros ? ?. destruct (wo_remote_queue0 j) as [t Ht]; [done..|]. exists t. by right.
  - intros j p. rewrite Hms. intros. by eapply Hmr, wo_spread0.
  - intros j p. rewrite Hmw. intros. destruct (wo_parents0 j p) as [?|[?|?]]; [done..|by left|right; left|right; right]; by auto.
  - intros j k. rewrite Hmw. apply wo_oldest0.
  - intros j. by rewrite Hmw.
  - intros j. by rewrite Hms.
  - unfold budget. change (wk_queue w') with (heap_push (timestamp c, i) (wk_queue w)). rewrite length_heap_push.
    change (unmarked ?p w') with (unmarked p (set_mark i x w)). lia.
Qed.

Lemma queue_new_ok X Y w f i :
  walk_ok X Y w f → is_Some (wk_commits w !! i) → wanted_commit i →
  ∃ w', queue_new i w = (Ok (), w') ∧ walk_ok X Y w' f ∧ walk_grows w w' ∧
    (queued (mark_of w' i) ∨ remote_has (mark_of w' i)).
Proof.
  intros Hw [x Hx] Hi. destruct (wo_commits _ _ _ _ Hw i x Hx) as (c & Hc & ->).
  unfold queue_new. destruct (remote_has (mark_of w i)) eqn:Hr; simpl.
  { exists w. split_and!; [done|done|done|]. right. by rw Hr. }
  destruct (queued (mark_of w i)) eqn:Hq; simpl.
  { exists w. split_and!; [done|done|done|]. left. by rw Hq. }
  assert (¬ walked (mark_of w i)) as Hnw.
  { intros Hwi. apply (wo_walked_queued _ _ _ _ Hw) in Hwi. by rewrite Hq in Hwi. }
  erewrite enqueue_ok; [|exact Hx]. eexists. split; [done|]. rewrite and_assoc. split.
  - apply (raise_ok X Y w f i c _ ({[ i ]} ∪ wk_pending w)); try done.
    + by rewrite Hr.
    + by left.
    + intros j. rewrite elem_of_union elem_of_singleton. case_decide; [subst|]; simpl; rewrite ?Hr; naive_solver.
    + assert (is_Some (m !! i)) as Hs by by exists c.
      assert (¬ queued (mark_of w i)) as Hn by (intros H; by rewrite Hq in H).
      pose proof (unmarked_raise queued i (raise_queued (mark_of w i)) w Hs Hn I) as Hu.
      pose proof (unmarked_same remote_has i (raise_queued (mark_of w i)) w eq_refl) as Hu'.
      rewrite Hu Hu'. lia.
  - left. simpl. unfold mark_of. simpl. by rw lookup_insert_eq.
Qed.

Lemma mark_remote_has_ok X Y w f i :
  walk_ok X Y w f → is_Some (wk_commits w !! i) → remote_commit i →
  ∃ w', mark_remote_has i w = (Ok (), w') ∧ walk_ok X Y w' f ∧ walk_grows w w' ∧
    remote_has (mark_of w' i).
Proof.
  intros Hw [x Hx] Hi. destruct (wo_commits _ _ _ _ Hw i x Hx) as (c & Hc & ->).
  unfold mark_remote_has. destruct (remote_has (mark_of w i)) eqn:Hr; simpl.
  { exists w. split_and!; [done|done|done|]. by rw Hr. }
  erewrite enqueue_ok; [|exact Hx]. eexists. split; [done|]. rewrite and_assoc. split.
  - apply (raise_ok X Y w f i c _ (wk_pending w ∖ {[ i ]})); try done.
    + apply (wo_queued _ _ _ _ Hw).
    + by right.
    + intros j. rewrite elem_of_difference elem_of_singleton. case_decide; [subst|]; naive_solver.
    + assert (is_Some (m !! i)) as Hs by by exists c.
      assert (¬ remote_has (mark_of w i)) as Hn by (intros H; by rewrite Hr in H).
      pose proof (unmarked_raise remote_has i (raise_remote (mark_of w i)) w Hs Hn I) as Hu.
      pose proof (unmarked_same queued i (raise_remote (mark_of w i)) w eq_refl) as Hu'. rewrite Hu Hu'. lia.
  - unfold mark_of. simpl. by rw lookup_insert_eq.
Qed.
Abbreviation get := (stored_reads m).

Lemma wk_load_ok X Y w f i :
  walk_ok X Y w f →
  ∃ w', wk_load get i w = (Ok (bool_decide (is_Some (m !! i))), w') ∧ walk_ok X Y w' f ∧ walk_grows w w' ∧
    (is_Some (m !! i) → is_Some (wk_commits w' !! i)).
Proof.
  intros Hw. unfold wk_load. case_bool_decide as Hl.
  { exists w. rewrite bool_decide_true; [|by eapply marked_stored]. done. }
  unfold stored_reads. destruct (m !! i) as [c|] eqn:Hc; eexists; (split; [done|]).
  - split_and!.
    + destruct Hw; split; try done.
      * intros j x. simpl. rewrite lookup_insert_Some. intros [[<- <-]|[_ ?]]; [by exists c|by auto].
      * intros j Hj. simpl. apply lookup_insert_is_Some'. right. by auto.
    + split; try done. intros j ?. simpl. apply lookup_insert_is_Some'. by right.
    + intros _. simpl. rw lookup_insert_eq. by eexists.
  - split_and!; [done|done|]. by intros [? [=]].
Qed.

(** Loading and marking, over a list of commits a remote has. *)
Lemma mark_all_ok X Y f l w :
  walk_ok X Y w f → (∀ p, p ∈ l → is_Some (m !! p) → remote_commit p) →
  ∃ w', for_each (λ p, there ← wk_load get p; if there : bool then mark_remote_has p else mret ()) l w =
      (Ok (), w') ∧ walk_ok X Y w' f ∧ walk_grows w w' ∧
    ∀ p, p ∈ l → is_Some (m !! p) → remote_has (mark_of w' p).
Proof.
  revert w. induction l as [|p l IH]; intros w Hw Hl; simpl.
  { exists w. split_and!; [done|done|done|]. by intros p ?%elem_of_nil. }
  destruct (wk_load_ok X Y w f p Hw) as (w1 & Hload & Hw1 & Hg1 & Hc1).
  assert (∃ w2, (there ← wk_load get p; if there : bool then mark_remote_has p else mret ()) w = (Ok (), w2) ∧
    walk_ok X Y w2 f ∧ walk_grows w w2 ∧ (is_Some (m !! p) → remote_has (mark_of w2 p))) as (w2 & Hrun & Hw2 & Hg2 & Hr2).
  { unfold mbind at 1, stateful_bind. rewrite Hload. case_bool_decide as Hp; [|by exists w1].
    destruct (mark_remote_has_ok X Y w1 f p Hw1) as (w2 & Hrun & Hw2 & Hg2 & Hr2); [by auto|by apply Hl; [left|]|].
    exists w2. split_and!; [done|done|by trans w1|done]. }
  destruct (IH w2 Hw2) as (w3 & Hrun3 & Hw3 & Hg3 & Hr3); [intros q Hq; apply Hl; by right|].
  exists w3. split_and!; [|done|by trans w2|].
  - unfold mbind at 1, stateful_bind. by rewrite Hrun.
  - intros q [->|Hq]%elem_of_cons Hs; [apply Hg3, Hr2, Hs|by apply Hr3].
Qed.

(** An entry popped, with what the loop notes of it. *)
Definition popped (i : ObjectId) (q : list Entry) (w : Walk) : Walk :=
  set_wk_pending (set_wk_queue w q) (wk_pending w ∖ {[ i ]}).

Lemma pop_ok X Y w f t i q x f' :
  walk_ok ∅ ∅ w f → wk_queue w = (t, i) :: q →
  remote_has x = remote_has (mark_of w i) → queued x = queued (mark_of w i) →
  (remote_has x → spread_done x) → (queued x → walked x ∨ remote_has x) →
  (walked (mark_of w i) → walked x) → (walked x → queued x) →
  (spread_done x → spread_done (mark_of w i) ∨ i ∈ X) →
  (walked x → walked (mark_of w i) ∨ i ∈ Y ∨ i ∈ shallow) →
  found_walked f' = found_walked f ++ (if walked x && negb (walked (mark_of w i)) then [i] else []) →
  lacks_parent f' = lacks_parent f →
  (∀ j c, walked (if decide (i = j) then x else mark_of w j) → m !! j = Some c →
    ∃ t, oldest_new f' = Some t ∧ (t ≤ timestamp c)%Z) →
  walk_ok X Y (set_mark i x (popped i q w)) f' ∧ S (budget (set_mark i x (popped i q w))) = budget w.
Proof.
  intros [] Hq Hxr Hxq Hrs Hqw Hww Hwq Hs Hw Hf Hl Ho. set (w' := set_mark _ _ _).
  assert (∀ j, mark_of w' j = if decide (i = j) then x else mark_of w j) as Hm by exact (mark_of_set i x (popped i q w)).
  assert (∀ j, queued (mark_of w' j) = queued (mark_of w j)) as Hmq by (intros j; rewrite Hm; case_decide; congruence).
  assert (∀ j, remote_has (mark_of w' j) = remote_has (mark_of w j)) as Hmr
    by (intros j; rewrite Hm; case_decide; congruence).
  assert (∀ u j, (u, j) ∈ wk_queue w → i ≠ j → (u, j) ∈ q) as Hq'.
  { intros u j. rewrite Hq elem_of_cons. naive_solver. }
  assert (is_Some (wk_marks w !! i)) as Hi by (apply (wo_queue0 t); rewrite Hq; by left).
  split; [split|]; try done.
  - intros j. change (wk_marks w') with (<[i := x]> (wk_marks w)). rw lookup_insert_is_Some.
    intros [<-|[_ ?]]; by auto.
  - intros u j Hj. destruct (wo_queue0 u j) as [? ?]; [rewrite Hq; by right|]. split; [|done].
    change (wk_marks w') with (<[i := x]> (wk_marks w)). apply lookup_insert_is_Some'. by right.
  - intros u j Hj. rewrite Hmq Hmr. apply (wo_entry0 u). rewrite Hq. by right.
  - rewrite Hq in wo_sorted0. by inversion wo_sorted0.
  - intros j. rewrite Hmr. by auto.
  - intros j. rewrite Hmq. by auto.
  - intros j. rewrite Hf Hm elem_of_app wo_walked0. case_decide as Hij.
    + subst j. destruct (walked x) eqn:Hx, (walked (mark_of w i)) eqn:Hwi; simpl; rw ?elem_of_nil ?list_elem_of_singleton; naive_solver.
    + destruct (_ && _); rw ?elem_of_nil ?list_elem_of_singleton; naive_solver.
  - rewrite Hf. destruct (walked x), (walked (mark_of w i)) eqn:Hwi; simpl; rewrite ?app_nil_r; try done.
    apply NoDup_app. split_and!; [done| |apply NoDup_singleton].
    intros j Hj%wo_walked0 ->%list_elem_of_singleton. by rewrite Hwi in Hj.
  - intros j. rewrite Hm. case_decide; [done|]. by auto.
  - intros j. change (wk_pending w') with (wk_pending w ∖ {[ i ]}).
    rewrite elem_of_difference elem_of_singleton Hm wo_pending0. case_decide; [subst|]; [|naive_solver].
    split; [by intros [_ []]|]. intros (Hjq & Hjw & Hjr). by destruct (Hqw Hjq).
  - intros j. change (wk_pending w') with (wk_pending w ∖ {[ i ]}). rewrite elem_of_difference elem_of_singleton.
    intros [[u Hu]%wo_pending_queue0 Hij]. exists u. by apply Hq'.
  - intros j. rewrite Hm. case_decide; [by intros Hr []; apply Hrs|]. intros Hr Hns.
    destruct (wo_remote_queue0 j Hr Hns) as [u Hu]. exists u. by apply Hq'.
  - intros j p. rewrite Hm Hmr. intros Hsj HX. apply (wo_spread0 j p); [|apply not_elem_of_empty].
    revert Hsj. case_decide; [subst|done]. by intros [?|?]%Hs.
  - intros j p. rewrite Hm Hmr Hmq Hl. intros Hwj Hsh HY. apply (wo_parents0 j p); [|done|apply not_elem_of_empty].
    revert Hwj. case_decide; [subst|done]. by intros [?|[?|?]]%Hw.
  - intros j. rewrite Hl. by auto.
  - intros j c. rewrite Hm. apply Ho.
  - assert (unmarked queued w' = unmarked queued w) as Huq by (apply set_eq; intros j; by rewrite !elem_of_unmarked Hmq).
    assert (unmarked remote_has w' = unmarked remote_has w) as Hur
      by (apply set_eq; intros j; by rewrite !elem_of_unmarked Hmr).
    unfold budget. change (wk_queue w') with q. rewrite Hq Huq Hur /=. lia.
Qed.
Definition with_lacks (f : Found) (l : gset ObjectId) : Found :=
  {| found_walked := found_walked f; lacks_parent := l; oldest_new := oldest_new f |}.

Lemma walk_ok_weaken X Y X' Y' w f :
  X ⊆ X' → Y ⊆ Y' → walk_ok X Y w f → walk_ok X' Y' w f.
Proof.
  intros HX HY []. split; try done.
  - intros i p ? ?. apply wo_spread0; [done|set_solver].
  - intros i p ? ? ?. apply wo_parents0; [done|done|set_solver].
Qed.

Lemma queue_parents_ok c i f ps lacks w :
  m !! i = Some c → (∀ p, p ∈ ps → p ∈ parents c) → i ∉ shallow → wanted_commit i →
  walk_ok ∅ {[ i ]} w (with_lacks f lacks) →
  ∃ w' lacks', queue_parents get i ps lacks w = (Ok lacks', w') ∧
    walk_ok ∅ {[ i ]} w' (with_lacks f lacks') ∧ walk_grows w w' ∧ lacks ⊆ lacks' ∧
    ∀ p, p ∈ ps → m !! p = None ∧ i ∈ lacks' ∨ queued (mark_of w' p) ∨ remote_has (mark_of w' p).
Proof.
  intros Hc Hps Hsh Hi. revert lacks w. induction ps as [|p ps IH]; intros lacks w Hw; simpl.
  { exists w, lacks. split_and!; [done|done|done|done|]. by intros p ?%elem_of_nil. }
  assert (∀ q, q ∈ ps → q ∈ parents c) as Hps' by (intros; apply Hps; by right). specialize (IH Hps').
  assert (parent_edge m i p) as Hedge by (exists c; split; [done|apply Hps; by left]).
  destruct (wk_load_ok ∅ {[ i ]} w _ p Hw) as (w1 & Hload & Hw1 & Hg1 & Hc1).
  unfold mbind at 1, stateful_bind. rewrite Hload. case_bool_decide as Hp.
  - destruct (queue_new_ok ∅ {[ i ]} w1 _ p Hw1) as (w2 & Hrun & Hw2 & Hg2 & Hq2); [by auto| |].
    { destruct Hi as (h & Hh & Hr). exists h. split; [done|]. by eapply rtc_r. }
    destruct (IH lacks w2 Hw2) as (w3 & l3 & Hrun3 & Hw3 & Hg3 & Hsub & Hall).
    exists w3, l3. unfold mbind, stateful_bind. rewrite Hrun. split_and!; [done|done|by trans w1; [|trans w2]|done|].
    intros q [->|Hq]%elem_of_cons; [right|by apply Hall]. destruct Hq2; [left|right]; by apply Hg3.
  - destruct (IH ({[ i ]} ∪ lacks) w1) as (w3 & l3 & Hrun3 & Hw3 & Hg3 & Hsub & Hall).
    { destruct Hw1; split; try done.
      - intros j q ? ? ? ?. destruct (wo_parents0 j q) as [[? ?]|?]; [done..| |by right].
        left. split; [done|]. simpl in *. set_solver.
      - intros j. simpl. intros [->%elem_of_singleton|?]%elem_of_union; [|by apply wo_lacks0].
        split; [done|]. exists p. split; [done|by apply eq_None_not_Some]. }
    exists w3, l3. split_and!; [done|done|by trans w1|set_solver|].
    intros q [->|Hq]%elem_of_cons; [left|by apply Hall].
    split; [by apply eq_None_not_Some|]. set_solver.
Qed.

(** A newly walked commit, its parents queued. *)
Lemma visit_new_ok t i q w f :
  walk_ok ∅ ∅ w f → wk_queue w = (t, i) :: q →
  ¬ remote_has (mark_of w i) → ¬ walked (mark_of w i) → queued (mark_of w i) →
  ∃ w' f', visit_new get shallow t i f (set_mark i (raise_walked (mark_of w i)) (popped i q w)) = (Ok f', w') ∧
    walk_ok ∅ ∅ w' f' ∧ S (budget w') = budget w ∧
    (∀ j, queued (mark_of w j) → queued (mark_of w' j)) ∧ (∀ j, remote_has (mark_of w j) → remote_has (mark_of w' j)).
Proof.
  intros Hw Hq Hr Hnw Hqd. set (w1 := set_mark _ _ _).
  set (oldest := match oldest_new f with None => t | Some t' => Z.min t' t end).
  set (f1 := {| found_walked := found_walked f ++ [i]; lacks_parent := lacks_parent f; oldest_new := Some oldest |}).
  destruct (wo_queue _ _ _ _ Hw t i) as [Hi (c & Hc & Ht)]; [rewrite Hq; by left|].
  assert (walk_ok ∅ {[ i ]} w1 f1 ∧ (i ∈ shallow → walk_ok ∅ ∅ w1 f1) ∧ S (budget w1) = budget w) as (Hw1 & Hw1' & Hb).
  { assert (∀ Y, i ∈ Y ∨ i ∈ shallow → walk_ok ∅ Y w1 f1 ∧ S (budget w1) = budget w) as H.
    { intros Y HY. apply (pop_ok ∅ Y w f t i q (raise_walked (mark_of w i)) f1); try done.
      - intros _. by left.
      - intros ?. by left.
      - intros _. by right.
      - simpl. by destruct (walked (mark_of w i)).
      - intros j c' Hj Hc'. exists oldest. split; [done|]. unfold oldest. case_decide; [subst j|].
        + assert (c' = c) as -> by congruence. destruct (oldest_new f); lia.
        + destruct (wo_oldest _ _ _ _ Hw j c' Hj Hc') as (t' & -> & ?). lia. }
    split_and!; [apply H; set_solver| |by apply (H {[ i ]}); set_solver]. intros Hsh. by apply H; right. }
  assert (∀ j, queued (mark_of w j) → queued (mark_of w1 j)) as Hmq
    by (intros j; unfold w1; rewrite mark_of_set; case_decide; [by subst|done]).
  assert (∀ j, remote_has (mark_of w j) → remote_has (mark_of w1 j)) as Hmr
    by (intros j; unfold w1; rewrite mark_of_set; case_decide; [by subst|done]).
  unfold visit_new. case_decide as Hsh.
  { exists w1, f1. split_and!; [done|by auto|done..]. }
  assert (is_Some (wk_commits w1 !! i)) as [x Hx] by by apply (wo_marks _ _ _ _ Hw).
  destruct (wo_commits _ _ _ _ Hw i x Hx) as (c' & Hc' & ->). simplify_eq.
  destruct (queue_parents_ok c i f1 (parents c) (lacks_parent f1) w1) as (w2 & l2 & Hrun & Hw2 & Hg & Hsub & Hall);
    [done|done|done|by apply (wo_queued _ _ _ _ Hw)|done|].
  exists w2, (with_lacks f1 l2). unfold mbind, stateful_bind, reading. unfold index. rewrite Hx /= Hrun.
  split_and!; [done| |rewrite -Hb; f_equal; apply Hg|by intros; apply Hg, Hmq|by intros; apply Hg, Hmr].
  destruct Hw2; split; try done. intros j p Hj Hjs _ Hp. destruct (decide (j = i)) as [->|Hij].
  - destruct Hp as (c' & Hc' & Hp). simplify_eq. by apply Hall.
  - apply wo_parents0; [done|done|set_solver|done].
Qed.
Lemma set_mark_same i w : is_Some (wk_marks w !! i) → set_mark i (mark_of w i) w = w.
Proof.
  intros [x Hx]. unfold set_mark, mark_of. rewrite Hx /=. destruct w. unfold set_wk_marks. simpl in *. f_equal. by apply insert_id.
Qed.

(** An entry of a commit the remote has: its mark is passed on. *)
Lemma spread_ok t i q w f :
  walk_ok ∅ ∅ w f → wk_queue w = (t, i) :: q → remote_has (mark_of w i) →
  ∃ w', wk_spread get i (popped i q w) = (Ok (), w') ∧ walk_ok ∅ ∅ w' f ∧ S (budget w') = budget w ∧
    (∀ j, queued (mark_of w j) → queued (mark_of w' j)) ∧ (∀ j, remote_has (mark_of w j) → remote_has (mark_of w' j)).
Proof.
  intros Hw Hq Hr. destruct (wo_queue _ _ _ _ Hw t i) as [Hi (c & Hc & Ht)]; [rewrite Hq; by left|].
  assert (∀ X x, remote_has x = remote_has (mark_of w i) → queued x = queued (mark_of w i) →
    walked x = walked (mark_of w i) → spread_done x → spread_done (mark_of w i) ∨ i ∈ X →
    walk_ok X ∅ (set_mark i x (popped i q w)) f ∧ S (budget (set_mark i x (popped i q w))) = budget w) as Hpop.
  { intros X x Hxr Hxq Hxw Hxs HX. apply (pop_ok X ∅ w f t i q x f); try done.
    - intros _. right. by rewrite Hxr.
    - by rewrite Hxw.
    - rewrite Hxw Hxq. apply (wo_walked_queued _ _ _ _ Hw).
    - rewrite Hxw. by left.
    - rewrite Hxw. destruct (walked (mark_of w i)); by rewrite /= app_nil_r.
    - intros j c'. intros Hj. apply (wo_oldest _ _ _ _ Hw). revert Hj. case_decide; [subst; by rewrite Hxw|done]. }
  unfold wk_spread. change (mark_of (popped i q w) i) with (mark_of w i).
  destruct (spread_done (mark_of w i)) eqn:Hs.
  { exists (popped i q w). split; [done|]. rewrite and_assoc. split; [|done].
    rewrite -{1 2}(set_mark_same i (popped i q w) Hi). apply Hpop; try done; [by rewrite Hs|by left]. }
  destruct (Hpop {[ i ]} (raise_spread (mark_of w i))) as [Hw1 Hb]; [done..|by right; apply elem_of_singleton|].
  set (w1 := set_mark _ _ _) in *.
  assert (is_Some (wk_commits w1 !! i)) as [x Hx] by by apply (wo_marks _ _ _ _ Hw).
  destruct (wo_commits _ _ _ _ Hw i x Hx) as (c' & Hc' & ->). simplify_eq.
  destruct (mark_all_ok {[ i ]} ∅ f (parents c) w1 Hw1) as (w2 & Hrun & Hw2 & Hg & Hall).
  { intros p Hp _. destruct (wo_remote _ _ _ _ Hw i Hr) as (h & Hh & Hhs & Ha). exists h. split_and!; [done|done|].
    eapply rtc_r; [exact Ha|]. by exists c. }
  exists w2. split_and!.
  - unfold mbind at 1, stateful_bind, reading, index. by rewrite Hx.
  - destruct Hw2; split; try done. intros j p Hj _ Hp Hps. destruct (decide (j = i)) as [->|Hij].
    + destruct Hp as (c' & Hc' & Hp). simplify_eq. by apply Hall.
    + apply (wo_spread0 j); [done|set_solver|done..].
  - rewrite -Hb. f_equal. apply Hg.
  - intros j Hj. apply Hg. unfold w1. rewrite mark_of_set. case_decide; [by subst|done].
  - intros j Hj. apply Hg. unfold w1. rewrite mark_of_set. case_decide; [by subst|done].
Qed.

Lemma walk_history_ok fuel w f :
  walk_ok ∅ ∅ w f → budget w < fuel →
  ∃ w' f', walk_history fuel get shallow f w = (Ok f', w') ∧ walk_ok ∅ ∅ w' f' ∧ wk_pending w' = ∅ ∧
    (∀ t i o, (t, i) ∈ wk_queue w' → oldest_new f' = Some o → (t < o)%Z) ∧
    (∀ j, queued (mark_of w j) → queued (mark_of w' j)) ∧ (∀ j, remote_has (mark_of w j) → remote_has (mark_of w' j)).
Proof.
  revert w f. induction fuel as [|fuel IH]; intros w f Hw Hf; [lia|]. cbn [walk_history].
  destruct (wk_queue w) as [|[t i] q] eqn:Hq.
  { exists w, f. split_and!; [done|done| |rewrite Hq; by intros ? ? ? ?%elem_of_nil|done|done].
    apply set_eq. intros i. split; [|set_solver]. intros [t Ht]%(wo_pending_queue _ _ _ _ Hw).
    rewrite Hq in Ht. by apply elem_of_nil in Ht. }
  destruct (bool_decide (wk_pending w = ∅) && _) eqn:Hdone.
  { apply andb_true_iff in Hdone as [Hpe%bool_decide_eq_true Ho]. exists w, f. split_and!; [done|done|done| |done|done].
    intros u j o Hj Hold. rewrite Hold /= in Ho. apply Z.ltb_lt in Ho.
    pose proof (wo_sorted _ _ _ _ Hw) as Hs. rewrite Hq in Hs, Hj. inversion Hs as [|? ? _ Hall]; subst.
    apply elem_of_cons in Hj as [[= -> ->]|Hj]; [done|].
    eapply Forall_forall in Hall; [|exact Hj]. destruct Hall as [Hlt|[Heq _]]; simpl in *; lia. }
  clear Hdone. destruct (wo_queue _ _ _ _ Hw t i) as [[mk Hmk] _]; [rewrite Hq; by left|].
  assert (mark_of w i = mk) as Hmi by (unfold mark_of; by rewrite Hmk).
  change (set_wk_pending (set_wk_queue w q) (wk_pending w ∖ {[ i ]})) with (popped i q w).
  unfold index at 1. change (wk_marks (popped i q w)) with (wk_marks w). rewrite Hmk /=.
  assert (∀ w1 f1, walk_ok ∅ ∅ w1 f1 → S (budget w1) = budget w →
    (∀ j, queued (mark_of w j) → queued (mark_of w1 j)) → (∀ j, remote_has (mark_of w j) → remote_has (mark_of w1 j)) →
    ∃ w' f', walk_history fuel get shallow f1 w1 = (Ok f', w') ∧ walk_ok ∅ ∅ w' f' ∧ wk_pending w' = ∅ ∧
    (∀ t i o, (t, i) ∈ wk_queue w' → oldest_new f' = Some o → (t < o)%Z) ∧
    (∀ j, queued (mark_of w j) → queued (mark_of w' j)) ∧ (∀ j, remote_has (mark_of w j) → remote_has (mark_of w' j))) as Hgo.
  { intros w1 f1 Hw1 Hb Hq1 Hr1. destruct (IH w1 f1 Hw1) as (w' & f' & Hrun & ? & ? & ? & ? & ?); [lia|].
    exists w', f'. split_and!; auto. }
  subst mk. destruct (remote_has (mark_of w i)) eqn:Hr.
  { destruct (spread_ok t i q w f Hw Hq) as (w1 & Hrun & Hw1 & Hb & Hq1 & Hr1); [by rewrite Hr|].
    unfold mbind, stateful_bind. rewrite Hrun. by apply Hgo. }
  destruct (walked (mark_of w i)) eqn:Hwk.
  { assert (set_mark i (mark_of w i) (popped i q w) = popped i q w) as Heq
      by (apply (set_mark_same i (popped i q w)); by exists (mark_of w i)).
    assert (walk_ok ∅ ∅ (popped i q w) f ∧ S (budget (popped i q w)) = budget w) as [Hw1 Hb]; [|by apply Hgo].
    rewrite -Heq. apply (pop_ok ∅ ∅ w f t i q (mark_of w i) f Hw Hq); rewrite ?Hr ?Hwk //=; try (by left).
    - intros _. apply (wo_walked_queued _ _ _ _ Hw). by rewrite Hwk.
    - by rewrite app_nil_r.
    - intros j c Hj. apply (wo_oldest _ _ _ _ Hw). revert Hj. case_decide; [by subst|done]. }
  assert (¬ remote_has (mark_of w i)) as Hnr by (intros H; by rewrite Hr in H).
  assert (¬ walked (mark_of w i)) as Hnw by (intros H; by rewrite Hwk in H).
  destruct (wo_entry _ _ _ _ Hw t i) as [Hqd|]; [rewrite Hq; by left| |done].
  destruct (visit_new_ok t i q w f Hw Hq Hnr Hnw Hqd) as (w1 & f1 & Hrun & Hw1 & Hb & Hq1 & Hr1).
  unfold mbind, stateful_bind. rewrite Hrun. by apply Hgo.
Qed.
Abbreviation nothing_found := {| found_walked := []; lacks_parent := ∅; oldest_new := None |}.

Lemma walk_new_ok : walk_ok ∅ ∅ walk_new nothing_found.
Proof.
  assert (∀ i, mark_of walk_new i = no_mark) as Hm by done.
  split; simpl; try (intros i; rewrite ?Hm ?lookup_empty; naive_solver).
  - by intros t i ?%elem_of_nil.
  - by intros t i ?%elem_of_nil.
  - constructor.
  - intros i. rewrite Hm. by rw elem_of_nil.
  - constructor.
  - intros i. rewrite Hm. set_solver.
  - set_solver.
  - set_solver.
Qed.

Lemma budget_new : budget walk_new = 2 * size m.
Proof.
  unfold budget. assert (∀ p : Mark → bool, p no_mark = false → unmarked p walk_new = dom m) as Hu.
  { intros p Hp. apply set_eq. intros i. rw elem_of_unmarked elem_of_dom. change (mark_of walk_new i) with no_mark.
    rewrite Hp. naive_solver. }
  rewrite !Hu // size_dom /=. lia.
Qed.

Lemma queue_heads_ok hs w f :
  walk_ok ∅ ∅ w f → (∀ h, h ∈ hs → h ∈ heads) → (∀ h, h ∈ hs → is_Some (m !! h)) →
  ∃ w', for_each (λ head, there ← wk_load get head;
    if there : bool then queue_new head else throw (WStorage (CommitNotFound (oid_display head)))) hs w = (Ok (), w') ∧
    walk_ok ∅ ∅ w' f ∧ walk_grows w w' ∧ ∀ h, h ∈ hs → queued (mark_of w' h) ∨ remote_has (mark_of w' h).
Proof.
  revert w. induction hs as [|h hs IH]; intros w Hw Hin Hs; simpl.
  { exists w. split_and!; [done|done|done|]. by intros p ?%elem_of_nil. }
  destruct (wk_load_ok ∅ ∅ w f h Hw) as (w1 & Hload & Hw1 & Hg1 & Hc1).
  rewrite bool_decide_true in Hload; [|apply Hs; by left].
  destruct (queue_new_ok ∅ ∅ w1 f h Hw1) as (w2 & Hrun & Hw2 & Hg2 & Hq2); [apply Hc1, Hs; by left| |].
  { exists h. split; [apply Hin; by left|done]. }
  destruct (IH w2 Hw2) as (w3 & Hrun3 & Hw3 & Hg3 & Hall); [intros; apply Hin; by right|intros; apply Hs; by right|].
  exists w3. split_and!; [|done|by trans w1; [|trans w2]|].
  { rewrite (stateful_seq _ _ w () w2); [done|]. by rewrite (stateful_seq _ _ _ _ _ Hload). }
  intros q [->|Hq]%elem_of_cons; [|by apply Hall]. destruct Hq2; [left|right]; by apply Hg3.
Qed.

(** Clocks that never go back from parent to child. *)
Definition clocks_forward : Prop := ∀ i p c c', m !! i = Some c → p ∈ parents c → m !! p = Some c' →
  (timestamp c' ≤ timestamp c)%Z.

(** What the walk has found, whatever the clocks. *)
Record new_ok (w : Walk) (f : Found) (new : gset ObjectId) : Prop := {
  no_commits i x : wk_commits w !! i = Some x → ∃ c, m !! i = Some c ∧ x = walked_commit c;
  no_loaded i : i ∈ new ∨ wk_remote_has w i → is_Some (wk_commits w !! i);
  no_wanted i : i ∈ new → wanted_commit i;
  no_remote i : wk_remote_has w i → remote_commit i;
  no_fresh i : i ∈ new → ¬ wk_remote_has w i;
  no_parents i p : i ∈ new → i ∉ shallow → parent_edge m i p →
    m !! p = None ∧ i ∈ lacks_parent f ∨ p ∈ new ∨ wk_remote_has w p;
  no_lacks i : i ∈ lacks_parent f → i ∉ shallow ∧ ∃ p, parent_edge m i p ∧ m !! p = None;
  no_all i : wanted_commit i → is_Some (m !! i) → ¬ remote_commit i → i ∈ new;
  no_exact i : clocks_forward → i ∈ new → ¬ remote_commit i;
}.

Lemma remote_commit_edge i j : remote_commit i → parent_edge m i j → remote_commit j.
Proof. intros (h & Hh & Hs & Ha) Hij. exists h. split_and!; [done|done|]. by eapply rtc_r. Qed.

Lemma walk_done w f :
  walk_ok ∅ ∅ w f → wk_pending w = ∅ → (∀ t i o, (t, i) ∈ wk_queue w → oldest_new f = Some o → (t < o)%Z) →
  (∀ h, h ∈ heads → queued (mark_of w h) ∨ remote_has (mark_of w h)) →
  (∀ h, h ∈ haves → is_Some (m !! h) → remote_has (mark_of w h)) →
  new_ok w f (list_to_set (List.filter (λ id, negb (wk_remote_has w id)) (found_walked f))).
Proof.
  intros Hw Hpend Hold Hheads Hhaves. set (new := list_to_set _).
  assert (∀ i, i ∈ new ↔ walked (mark_of w i) ∧ ¬ remote_has (mark_of w i)) as Hnew.
  { intros i. unfold new. rewrite elem_of_list_to_set elem_of_List_filter (wo_walked _ _ _ _ Hw) wk_remote_has_mark negb_True.
    tauto. }
  assert (∀ i, queued (mark_of w i) → ¬ remote_has (mark_of w i) → i ∈ new) as Hqn.
  { intros i Hq Hr. apply Hnew. split; [|done]. destruct (walked (mark_of w i)) eqn:Hwk; [done|].
    assert (i ∈ wk_pending w) as H; [|by rewrite Hpend in H]. apply (wo_pending _ _ _ _ Hw). rewrite Hwk. split_and!; [done|by intros []|done]. }
  assert (∀ i, wk_remote_has w i → remote_commit i) as Hrem.
  { intros i. rewrite wk_remote_has_mark. apply (wo_remote _ _ _ _ Hw). }
  assert (∀ i, mark_of w i ≠ no_mark → is_Some (wk_commits w !! i)) as Hloaded.
  { intros i Hi. apply (wo_marks _ _ _ _ Hw). unfold mark_of in Hi. destruct (wk_marks w !! i); [by eexists|done]. }
  assert (∀ i p, i ∈ new → i ∉ shallow → parent_edge m i p →
    m !! p = None ∧ i ∈ lacks_parent f ∨ p ∈ new ∨ wk_remote_has w p) as Hpar.
  { intros i p [Hi _]%Hnew Hsh Hp. rewrite wk_remote_has_mark.
    destruct (wo_parents _ _ _ _ Hw i p Hi Hsh (not_elem_of_empty i) Hp) as [?|[Hq|?]]; [by left| |by right; right].
    right. destruct (remote_has (mark_of w p)) eqn:Hr; [by right|left]. apply Hqn; [done|]. rewrite Hr. by intros []. }
  split.
  - apply (wo_commits _ _ _ _ Hw).
  - intros i. rewrite Hnew wk_remote_has_mark. intros Hi. apply Hloaded. intros Heq. rewrite Heq in Hi. naive_solver.
  - intros i [Hi _]%Hnew. by apply (wo_queued _ _ _ _ Hw), (wo_walked_queued _ _ _ _ Hw).
  - done.
  - intros i [_ Hi]%Hnew. by rewrite wk_remote_has_mark.
  - done.
  - apply (wo_lacks _ _ _ _ Hw).
  - intros i (h & Hh & Hr). revert i Hr.
    refine (rtc_ind_r _ _ _ _); [|].
    + intros _ Hn. assert (¬ remote_has (mark_of w h)) as Hrh by (intros ?%(wo_remote _ _ _ _ Hw); done).
      destruct (Hheads h Hh); [by apply Hqn|done].
    + intros x y _ [Hsh Hxy] IH Hy Hn. assert (¬ remote_commit x) as Hnx by (intros Hx; by apply Hn, (remote_commit_edge x)).
      destruct (Hpar x y) as [[? _]|[?|?]]; [|done|done| |done|by destruct Hn; apply Hrem].
      * apply IH; [|done]. destruct Hxy as (c & ? & _). by exists c.
      * destruct Hy. congruence.
  - intros i Hclk Hi (h & Hh & Hs & Ha). apply Hnew in Hi as [Hwi Hni]. destruct Hni.
    assert (is_Some (m !! i)) as [ci Hci].
    { eapply marked_stored; [exact Hw|]. apply Hloaded. intros Heq. by rewrite Heq in Hwi. }
    assert (∀ x c, rtc (parent_edge m) x i → m !! x = Some c → (timestamp ci ≤ timestamp c)%Z) as Hmono.
    { intros x c Hx. revert c. induction Hx as [x|x y z (c' & Hc' & Hy) Hyz IH]; intros c Hc; simplify_eq; [done|].
      assert (is_Some (m !! y)) as [cy Hcy].
      { inversion Hyz as [|? ? ? (c'' & ? & _)]; subst; [by eexists|by eexists]. }
      etrans; [by apply (IH Hwi Ha Hci)|]. by eapply Hclk. }
    assert (rtc (parent_edge m) i i) as Hii by done. revert Hii.
    enough (∀ x, ancestor_of m h x → rtc (parent_edge m) x i → remote_has (mark_of w x)) as H by by apply H.
    refine (rtc_ind_r _ _ _ _); [by intros _; apply Hhaves|].
    intros x y _ Hxy IH Hyi. pose proof (IH ltac:(by eapply rtc_l)) as Hrx.
    destruct (spread_done (mark_of w x)) eqn:Hsp.
    + eapply (wo_spread _ _ _ _ Hw x y); [by rewrite Hsp|apply not_elem_of_empty|done|].
      inversion Hyi as [|? ? ? (c'' & ? & _)]; subst; [by eexists|by eexists].
    + exfalso. destruct (wo_remote_queue _ _ _ _ Hw x Hrx) as [t Ht]; [rewrite Hsp; by intros []|].
      destruct (wo_queue _ _ _ _ Hw t x Ht) as [_ (c & Hc & ->)].
      destruct (wo_oldest _ _ _ _ Hw i ci Hwi Hci) as (o & Ho & Hle).
      pose proof (Hold _ _ _ Ht Ho). pose proof (Hmono x c ltac:(by eapply rtc_l) Hc). lia.
Qed.

Lemma new_commits_ok fuel :
  (∀ h, h ∈ heads → is_Some (m !! h)) → 2 * size m < fuel →
  ∃ w f new, new_commits fuel get heads haves shallow = Ok (w, f, new) ∧ new_ok w f new.
Proof.
  intros Hs Hf.
  destruct (queue_heads_ok heads walk_new nothing_found walk_new_ok) as (w1 & Hrun1 & Hw1 & Hg1 & Hh1); [done|done|].
  destruct (mark_all_ok ∅ ∅ nothing_found haves w1 Hw1) as (w2 & Hrun2 & Hw2 & Hg2 & Hh2).
  { intros p Hp Hps. by exists p. }
  assert (budget w2 = 2 * size m) as Hb by (rewrite (wg_budget _ _ Hg2) (wg_budget _ _ Hg1); apply budget_new).
  destruct (walk_history_ok fuel w2 nothing_found Hw2) as (w3 & f & Hrun3 & Hw3 & Hpend & Hold & Hq3 & Hr3); [lia|].
  eexists w3, f, _. split.
  - unfold new_commits, start_walk. unfold mbind, stateful_bind in *. rewrite Hrun1 Hrun2 Hrun3. done.
  - apply walk_done; [done|done|done| |].
    + intros h Hh. destruct (Hh1 h Hh); [left; by apply Hq3, Hg2|right; by apply Hr3, Hg2].
    + intros h Hh Hhs. by apply Hr3, Hh2.
Qed.
End history.
