(* ===== verification/Packs.v ===== *)
(** * Packs: what a send consists of

    The second half of [agentstategraph/src/sync/missing.rs], about the
    definitions of [Missing]: the order the new commits are sent in, and the
    objects of their trees that the receiver may lack. *)
From S2P Require Import Prelude Objects Paths Json Intents Commits Stores Diffs Memory Trees TreeJson.
From S2P Require Import Guards Ancestry Integrity Missing.

(** ** Parents first *)

(** The elements of a set, each once, in whatever order. *)
Definition lists_once (inter : gset ObjectId → list ObjectId) : Prop :=
  ∀ s, NoDup (inter s) ∧ ∀ i, i ∈ inter s ↔ i ∈ s.

Section order.
Context (inter : gset ObjectId → list ObjectId) (Hinter : lists_once inter).
Context (cm : gmap ObjectId Walked) (new : gset ObjectId) (Hcm : ∀ i, i ∈ new → is_Some (cm !! i)).

(** The distinct new parents of a commit. *)
Definition waits_for (i : ObjectId) : list ObjectId :=
  match cm !! i with Some c => new_parents inter new c | None => [] end.

Lemma elem_of_waits_for i p : p ∈ waits_for i ↔ p ∈ new ∧ ∃ c, cm !! i = Some c ∧ p ∈ w_parents c.
Proof.
  unfold waits_for, new_parents. destruct (cm !! i) as [c|]; [|rw elem_of_nil; naive_solver].
  rewrite (proj2 (Hinter _)) elem_of_list_to_set list_elem_of_filter. naive_solver.
Qed.

Lemma NoDup_waits_for i : NoDup (waits_for i).
Proof. unfold waits_for. destruct (cm !! i); [apply Hinter|constructor]. Qed.

(** The commits that wait for [p], among [ids]. *)
Definition waiters (ids : list ObjectId) (p : ObjectId) : list ObjectId := filter (λ i, p ∈ waits_for i) ids.

Lemma push_children_ok i ps (ch : gmap ObjectId (list ObjectId)) p :
  NoDup ps →
  default [] (foldl (λ ch p, push_child i p ch) ch ps !! p) =
  default [] (ch !! p) ++ (if decide (p ∈ ps) then [i] else []).
Proof.
  revert ch. induction ps as [|q ps IH]; intros ch Hnd; simpl.
  { by rewrite app_nil_r. }
  apply NoDup_cons in Hnd as [Hq Hnd]. rewrite IH //. unfold push_child.
  destruct (decide (p = q)) as [->|Hpq].
  - rewrite lookup_insert_eq /= decide_False // decide_True; [by rewrite app_nil_r|by left].
  - rewrite lookup_insert_ne //. f_equal. apply decide_ext. rewrite elem_of_cons. naive_solver.
Qed.

Lemma waiting_children_ok ids wt ch :
  NoDup ids → (∀ i, i ∈ ids → i ∈ new) →
  ∃ wt' ch', waiting_children inter cm new ids wt ch = Ok (wt', ch') ∧
    (∀ i, wt' !! i = if decide (i ∈ ids) then Some (length (waits_for i)) else wt !! i) ∧
    ∀ p, default [] (ch' !! p) = default [] (ch !! p) ++ waiters ids p.
Proof.
  revert wt ch. induction ids as [|i ids IH]; intros wt ch Hnd Hids; simpl.
  { exists wt, ch. split_and!; [done| |intros p; by rewrite app_nil_r].
    done. }
  apply NoDup_cons in Hnd as [Hi Hnd].
  destruct (Hcm i) as [c Hc]; [apply Hids; by left|]. unfold index. rewrite Hc /=.
  assert (new_parents inter new c = waits_for i) as Hw by (unfold waits_for; by rewrite Hc). rewrite Hw.
  destruct (IH (<[i := length (waits_for i)]> wt) (foldl (λ ch p, push_child i p ch) ch (waits_for i)) Hnd)
    as (wt' & ch' & Hrun & Hwt & Hch); [intros; apply Hids; by right|].
  exists wt', ch'. split_and!; [done| |].
  - intros j. rewrite Hwt. destruct (decide (j = i)) as [->|Hji].
    + rewrite decide_False // lookup_insert_eq decide_True //. by left.
    + rewrite lookup_insert_ne //. apply decide_ext. rewrite elem_of_cons. naive_solver.
  - intros p. rewrite Hch (push_children_ok i _ ch p (NoDup_waits_for i)) -app_assoc. f_equal.
    unfold waiters. rewrite filter_cons. by case_decide.
Qed.

(** How many a commit still waits for. *)
Definition still_waits (order : list ObjectId) (i : ObjectId) : nat :=
  length (filter (λ p, p ∉ order) (waits_for i)).

Lemma still_waits_0 order i : still_waits order i = 0 ↔ ∀ p, p ∈ waits_for i → p ∈ order.
Proof.
  unfold still_waits. rewrite length_zero_iff_nil. split.
  - intros Hnil p Hp. destruct (decide (p ∈ order)); [done|]. exfalso.
    apply (not_elem_of_nil p). rewrite -Hnil. by apply list_elem_of_filter.
  - intros Hall. destruct (filter _ _) as [|p l] eqn:Hf; [done|]. exfalso.
    assert (p ∈ filter (λ p, p ∉ order) (waits_for i)) as [Hn Hp]%list_elem_of_filter by (rewrite Hf; by left).
    by apply Hn, Hall.
Qed.

Lemma filter_iff_on {A} (P Q : A → Prop) `{!∀ x, Decision (P x), !∀ x, Decision (Q x)} (l : list A) :
  (∀ x, x ∈ l → P x ↔ Q x) → filter P l = filter Q l.
Proof.
  induction l as [|x l IH]; intros Hall; [done|].
  assert (filter P l = filter Q l) as Hl by (apply IH; intros; apply Hall; by right).
  assert (P x ↔ Q x) as Hx by (apply Hall; by left). rewrite !filter_cons Hl. do 2 case_decide; tauto.
Qed.

Lemma length_filter_S {A} (P Q : A → Prop) `{!∀ x, Decision (P x), !∀ x, Decision (Q x)} (l : list A) x :
  NoDup l → x ∈ l → P x → ¬ Q x → (∀ y, y ∈ l → y ≠ x → P y ↔ Q y) →
  length (filter P l) = S (length (filter Q l)).
Proof.
  intros Hnd (l1 & l2 & ->)%list_elem_of_split HP HQ Hext.
  apply NoDup_app in Hnd as (_ & Hx1 & [Hx2 _]%NoDup_cons).
  rewrite !filter_app !filter_cons decide_True // (decide_False (P := Q x)) // !length_app /= -plus_n_Sm.
  assert (∀ l' : list A, (∀ y, y ∈ l' → y ∈ l1 ++ x :: l2 ∧ y ≠ x) → filter P l' = filter Q l') as Hf.
  { intros l' Hl'. apply filter_iff_on. intros y Hy. apply Hext; by apply Hl'. }
  rewrite !Hf //.
  - intros y Hy. split; [set_solver|]. intros ->. by apply Hx2.
  - intros y Hy. split; [set_solver|]. intros ->. apply (Hx1 x Hy). by left.
Qed.

(** One commit more is ordered: those that wait for it wait for one less. *)
Lemma still_waits_less order p i :
  p ∉ order → p ∈ waits_for i → still_waits order i = S (still_waits (order ++ [p]) i).
Proof.
  intros Hp Hi. apply (length_filter_S _ _ _ p); [apply NoDup_waits_for|done|done|set_solver|]. set_solver.
Qed.

Lemma still_waits_same order p i : p ∉ waits_for i → still_waits (order ++ [p]) i = still_waits order i.
Proof. intros Hi. unfold still_waits. f_equal. apply filter_iff_on. intros q Hq. set_solver. Qed.

Lemma release_all_ok order todo wt ready :
  NoDup todo → (∀ i, i ∈ todo → i ∈ new) →
  (∀ i, i ∈ new → wt !! i = Some (if decide (i ∈ todo) then S (still_waits order i) else still_waits order i)) →
  ∃ wt' ready', release_all cm todo (wt, ready) = Ok (wt', ready') ∧
    (∀ i, i ∈ new → wt' !! i = Some (still_waits order i)) ∧
    ready'.*2 ≡ₚ ready.*2 ++ filter (λ i, still_waits order i = 0) todo.
Proof.
  revert wt ready. induction todo as [|c todo IH]; intros wt ready Hnd Hin Hwt; simpl.
  { exists wt, ready. split_and!; [done| |by rewrite app_nil_r]. intros i Hi. by rewrite Hwt. }
  apply NoDup_cons in Hnd as [Hc Hnd]. assert (c ∈ new) as Hcn by (apply Hin; by left).
  unfold index. rewrite (Hwt c Hcn) decide_True /=; [|by left].
  assert (∀ i, i ∈ new → <[c := still_waits order c]> wt !! i =
    Some (if decide (i ∈ todo) then S (still_waits order i) else still_waits order i)) as Hwt'.
  { intros i Hi. destruct (decide (i = c)) as [->|Hic]; [by rewrite lookup_insert_eq decide_False|].
    rewrite lookup_insert_ne // Hwt //. f_equal. apply decide_ext. rewrite elem_of_cons. naive_solver. }
  assert (∀ i, i ∈ todo → i ∈ new) as Hin' by (intros; apply Hin; by right).
  rewrite filter_cons. case_decide as H0.
  - destruct (Hcm c Hcn) as [x Hx]. rewrite Hx /=.
    destruct (IH _ (min_heap_push (w_timestamp x, c) ready) Hnd Hin' Hwt') as (wt' & ready' & Hrun & Hw & Hr).
    exists wt', ready'. split_and!; [done|done|]. rewrite Hr. unfold min_heap_push.
    rewrite sorted_insert_Permutation /=. apply Permutation_middle.
  - by apply IH.
Qed.
(** Each commit after the new ones among its parents. *)
Definition parents_before (order : list ObjectId) : Prop :=
  ∀ l1 i l2, order = l1 ++ i :: l2 → ∀ p, p ∈ waits_for i → p ∈ l1.

Record order_ok (wt : gmap ObjectId nat) (ch : gmap ObjectId (list ObjectId)) (ready : list Entry)
    (order : list ObjectId) : Prop := {
  oo_nodup : NoDup order;
  oo_new i : i ∈ order → i ∈ new;
  oo_waiting i : i ∈ new → wt !! i = Some (still_waits order i);
  oo_children p : p ∉ order → default [] (ch !! p) = waiters (inter new) p;
  oo_ready_nodup : NoDup ready.*2;
  oo_ready i : i ∈ ready.*2 ↔ i ∈ new ∧ i ∉ order ∧ still_waits order i = 0;
  oo_before : parents_before order;
}.

Lemma elem_of_waiters p i : i ∈ waiters (inter new) p ↔ i ∈ new ∧ p ∈ waits_for i.
Proof. unfold waiters. rewrite list_elem_of_filter (proj2 (Hinter new)). tauto. Qed.

(** What was ordered stays behind its parents when one more comes. *)
Lemma parents_before_snoc order i :
  parents_before order → (∀ p, p ∈ waits_for i → p ∈ order) → parents_before (order ++ [i]).
Proof.
  intros Hb Hi l1 j l2 Heq p Hp. destruct l2 as [|k l2 _] using rev_ind.
  - apply app_inj_tail in Heq as [<- <-]. by apply Hi.
  - rewrite app_comm_cons app_assoc in Heq. apply app_inj_tail in Heq as [-> ->]. by eapply Hb.
Qed.

Lemma order_step wt ch ready order t i :
  order_ok wt ch ((t, i) :: ready) order →
  ∃ wt' ready', release_all cm (default [] (ch !! i)) (wt, ready) = Ok (wt', ready') ∧
    order_ok wt' (delete i ch) ready' (order ++ [i]).
Proof.
  intros []. destruct (proj1 (oo_ready0 i)) as (Hi & Hio & H0); [by left|].
  assert (i ∉ ready.*2 ∧ NoDup ready.*2) as [Hir Hndr] by by apply NoDup_cons.
  assert (i ∉ waits_for i) as Hii.
  { intros Hii. rewrite (still_waits_less order i i Hio Hii) in H0. lia. }
  rewrite oo_children0 //.
  assert (NoDup (waiters (inter new) i)) as Hndw by (apply NoDup_filter, Hinter).
  destruct (release_all_ok (order ++ [i]) (waiters (inter new) i) wt ready Hndw) as (wt' & ready' & Hrun & Hwt & Hr).
  { intros j. rewrite elem_of_waiters. tauto. }
  { intros j Hj. rewrite oo_waiting0 //. f_equal. case_decide as Hw; rewrite elem_of_waiters in Hw.
    - by apply still_waits_less; tauto.
    - symmetry. apply still_waits_same. tauto. }
  exists wt', ready'. split; [done|]. split.
  - apply NoDup_app. split_and!; [done| |apply NoDup_singleton]. by intros j Hj ->%list_elem_of_singleton.
  - intros j [?| ->%list_elem_of_singleton]%elem_of_app; auto.
  - done.
  - intros p Hp. rewrite lookup_delete_ne; [apply oo_children0|]; set_solver.
  - rewrite Hr. apply NoDup_app. split_and!; [done| |by apply NoDup_filter].
    intros j Hj [_ Hw]%list_elem_of_filter. apply elem_of_waiters in Hw as [_ Hw].
    destruct (proj1 (oo_ready0 j)) as (_ & _ & Hj0); [by right|]. rewrite (still_waits_less order i j) // in Hj0.
  - intros j. rewrite Hr elem_of_app list_elem_of_filter elem_of_waiters. split.
    + intros [Hj|(Hj0 & Hjn & Hij)].
      * destruct (proj1 (oo_ready0 j)) as (? & ? & Hj0); [by right|]. split_and!; [done|set_solver|].
        apply still_waits_0. intros p Hp. apply elem_of_app. left. by apply (still_waits_0 order j).
      * split_and!; [done| |done]. intros [Hj|Hj]%elem_of_app.
        -- apply list_elem_of_split in Hj as (l1 & l2 & ->). apply Hio, elem_of_app. left. by eapply oo_before0.
        -- apply list_elem_of_singleton in Hj as ->. done.
    + intros (Hjn & Hjo & Hj0). destruct (decide (i ∈ waits_for j)) as [Hij|Hij]; [by right|left].
      rewrite still_waits_same // in Hj0. assert (j ∈ ((t, i) :: ready).*2) as Hj by (apply oo_ready0; set_solver).
      set_solver.
  - apply parents_before_snoc; [done|]. by apply still_waits_0.
Qed.

Lemma order_loop_ok fuel wt ch ready order :
  order_ok wt ch ready order → size new < fuel + length order →
  ∃ order', order_loop fuel cm wt ch ready order = Ok order' ∧ NoDup order' ∧ (∀ i, i ∈ order' → i ∈ new) ∧
    parents_before order' ∧ ∀ i, i ∈ new → i ∈ order' ∨ ∃ p, p ∈ waits_for i ∧ p ∉ order'.
Proof.
  revert wt ch ready order. induction fuel as [|fuel IH]; intros wt ch ready order Ho Hf.
  { exfalso. assert (size (list_to_set order : gset ObjectId) ≤ size new) as Hle.
    { apply subseteq_size. intros i. rewrite elem_of_list_to_set. apply (oo_new _ _ _ _ Ho). }
    rewrite size_list_to_set in Hle; [lia|apply Ho]. }
  cbn [order_loop]. destruct ready as [|[t i] ready].
  - exists order. destruct Ho. split_and!; [done..|]. intros i Hi.
    destruct (decide (i ∈ order)) as [|Hio]; [by left|right].
    destruct (decide (Exists (λ p, p ∉ order) (waits_for i))) as [(p & ? & ?)%Exists_exists|Hn]; [by exists p|].
    exfalso. assert (i ∈ ([] : list Entry).*2) as []%not_elem_of_nil. apply oo_ready0. split_and!; [done|done|].
    apply still_waits_0. intros p Hp. destruct (decide (p ∈ order)); [done|]. exfalso. apply Hn, Exists_exists. by exists p.
  - destruct (order_step wt ch ready order t i Ho) as (wt' & ready' & Hrun & Ho'). rewrite Hrun /=.
    apply IH; [done|]. rewrite length_app /=. lia.
Qed.

Lemma foldr_min_heap_push l : foldr min_heap_push [] l ≡ₚ l.
Proof. apply stable_sort_Permutation. Qed.

Lemma filter_all {A} (P : A → Prop) `{!∀ x, Decision (P x)} (l : list A) : (∀ x, P x) → filter P l = l.
Proof. intros HP. induction l as [|x l IH]; [done|]. by rewrite filter_cons decide_True // IH. Qed.

Lemma still_waits_none i : still_waits [] i = length (waits_for i).
Proof. unfold still_waits. rewrite filter_all //. intros p. apply not_elem_of_nil. Qed.

Lemma parents_first_ok :
  ∃ order, parents_first inter cm new = Ok order ∧ NoDup order ∧ (∀ i, i ∈ order → i ∈ new) ∧
    parents_before order ∧ ∀ i, i ∈ new → i ∈ order ∨ ∃ p, p ∈ waits_for i ∧ p ∉ order.
Proof.
  destruct (Hinter new) as [Hnd Hel].
  destruct (waiting_children_ok (inter new) ∅ ∅ Hnd) as (wt & ch & Hrun & Hwt & Hch); [by intros; apply Hel|].
  assert (∀ i, i ∈ new → wt !! i = Some (still_waits [] i)) as Hwt'.
  { intros i Hi. rewrite Hwt decide_True; [|by apply Hel]. f_equal. by rewrite still_waits_none. }
  set (start := List.filter (λ id, bool_decide (wt !! id = Some 0)) (inter new)).
  assert (∀ i, i ∈ start ↔ i ∈ new ∧ still_waits [] i = 0) as Hstart.
  { intros i. unfold start. rewrite elem_of_List_filter bool_decide_spec Hel. split.
    - intros [Hi H0]. split; [done|]. rewrite Hwt' // in H0. by injection H0.
    - intros [Hi H0]. by rewrite (Hwt' i Hi) H0. }
  destruct (traverse_total (λ id, c ← index cm id; Ok (E := WalkError) (w_timestamp c, id)) start) as [ready Hready].
  { intros i [Hi _]%Hstart. destruct (Hcm i Hi) as [c Hc]. unfold index. rewrite Hc /=. by eexists. }
  assert (ready.*2 = start) as Hr2.
  { apply traverse_ok in Hready. clear -Hready. induction Hready as [|i [t j] l ys Hi _ IH]; [done|]. csimpl.
    unfold index in Hi. destruct (cm !! i); simpl in Hi; [|done]. injection Hi as _ ->. by f_equal. }
  destruct (order_loop_ok (S (size new)) wt ch (foldr min_heap_push [] ready) []) as (order & Ho & ?).
  - split; try done.
    + constructor.
    + by intros i ?%elem_of_nil.
    + rewrite foldr_min_heap_push Hr2. by apply NoDup_ListNoDup, List.NoDup_filter, NoDup_ListNoDup.
    + intros i. rewrite foldr_min_heap_push Hr2 Hstart. split; [|tauto]. intros [? ?]. split_and!; [done|apply not_elem_of_nil|done].
    + intros l1 i l2 Heq. by destruct l1.
  - simpl. lia.
  - exists order. split; [|done]. unfold parents_first. rewrite Hrun /= Hready /=. exact Ho.
Qed.
End order.

(** ** The trees *)

Lemma slots_children o c : c ∈ (slots_of o).*2 ↔ c ∈ children o.
Proof.
  destruct o as [a|[m|l|l]]; simpl; [done|..].
  - by rewrite -list_fmap_compose.
  - assert ((imap (λ i id, (SlotIndex i, id)) l).*2 = l) as ->; [|done].
    rewrite fmap_imap. apply list_eq. intros i. rewrite list_lookup_imap. by destruct (l !! i).
  - by rewrite -list_fmap_compose list_fmap_id.
Qed.

Lemma child_at_children o s c : child_at o s = Some c → c ∈ children o.
Proof.
  destruct o as [a|[m|l|l]], s; try done; simpl.
  - intros Hk. apply elem_of_map_children. by eexists.
  - apply list_elem_of_lookup_2.
Qed.

Section trees.
Context (O : gmap ObjectId Object).

(** Closed under the children the store knows. *)
Definition tree_closed (D : ObjectId → Prop) : Prop :=
  ∀ i o c, D i → O !! i = Some o → c ∈ children o → D c.

Lemma keep_found_ok ids acc :
  acc ⊆ O → let acc' := keep_found (zip ids ((O !!.) <$> ids)) acc in
  acc' ⊆ O ∧ acc ⊆ acc' ∧ ∀ i o, i ∈ ids → O !! i = Some o → acc' !! i = Some o.
Proof.
  revert acc. induction ids as [|j ids IH]; intros acc Ha; csimpl.
  { split_and!; [done|done|by intros i o ?%elem_of_nil]. }
  destruct (O !! j) as [x|] eqn:Hj.
  - destruct (IH (<[j := x]> acc)) as (H1 & H2 & H3); [by apply insert_subseteq_l|].
    assert (acc ⊆ <[j := x]> acc) as Hsub.
    { apply map_subseteq_spec. intros i o Hi. destruct (decide (j = i)) as [<-|Hji]; [|by rewrite lookup_insert_ne].
      rewrite lookup_insert_eq. by rewrite -Hj (lookup_weaken _ _ _ _ Hi Ha). }
    split_and!; [done|by etrans|]. intros i o [->|Hi]%elem_of_cons Ho; [|by apply H3].
    eapply lookup_weaken; [|exact H2]. rewrite lookup_insert_eq. congruence.
  - destruct (IH acc Ha) as (H1 & H2 & H3). split_and!; [done|done|].
    intros i o [->|Hi]%elem_of_cons Ho; [congruence|by apply H3].
Qed.

Lemma load_level_ok cs acc :
  acc ⊆ O → ∃ acc', load_level (stored_objects O) cs acc = Ok acc' ∧ acc' ⊆ O ∧ acc ⊆ acc' ∧
    ∀ i o, i ∈ mjoin cs → O !! i = Some o → acc' !! i = Some o.
Proof.
  revert acc. induction cs as [|ids cs IH]; intros acc Ha; cbn [load_level].
  { exists acc. split_and!; [done|done|done|by intros i o ?%elem_of_nil]. }
  rewrite (batch_get_reads O ids) /=. destruct (keep_found_ok ids acc Ha) as (H1 & H2 & H3).
  destruct (IH _ H1) as (acc' & Hrun & ? & ? & Hall). exists acc'. split_and!; [done|done|by etrans|].
  intros i o [Hi|Hi]%elem_of_app Ho; [|by apply Hall]. eapply lookup_weaken; [by apply H3|done].
Qed.

Lemma load_reads_ok l :
  ∃ loaded, load_level (stored_objects O) (chunks READ_BATCH l) ∅ = Ok loaded ∧ ∀ i, i ∈ l → loaded !! i = O !! i.
Proof.
  destruct (load_level_ok (chunks READ_BATCH l) ∅) as (acc & Hrun & Hsub & _ & Hall); [apply map_empty_subseteq|].
  exists acc. split; [done|]. intros i Hi. rewrite chunks_join in Hall.
  destruct (O !! i) as [o|] eqn:Ho; [by apply Hall|]. destruct (acc !! i) as [o|] eqn:Hai; [|done].
  by rewrite (lookup_weaken _ _ _ _ Hai Hsub) in Ho.
Qed.

(** [D]: what the receiver will hold whole before this tree; [Q]: the trees
    being sent. *)
Context (D Q : ObjectId → Prop) (HD : tree_closed D) (HQ : tree_closed Q).

(** A base is held whole, or gone here. *)
Definition good_base (b : ObjectId) : Prop := D b ∨ O !! b = None.

Lemma new_children_ok bases known cs sent next :
  (∀ b, b ∈ bases → ∃ i, D i ∧ O !! i = Some b) →
  ∃ added, new_children bases known cs sent next =
      (list_to_set added.*1 ∪ sent, next ++ added) ∧
    NoDup added.*1 ∧ (∀ i, i ∈ added.*1 → i ∉ sent ∧ i ∈ cs.*2) ∧
    (∀ c, c ∈ cs.*2 → c ∈ known ∨ c ∈ sent ∨ c ∈ added.*1) ∧
    ∀ i bs b, (i, bs) ∈ added → b ∈ bs → D b.
Proof.
  intros Hb. revert sent next. induction cs as [|[s c] cs IH]; intros sent next; cbn [new_children].
  { exists []. csimpl. rewrite app_nil_r union_empty_l_L.
    split_and!; [done|constructor|by intros i ?%elem_of_nil..|by intros i bs b ?%elem_of_nil]. }
  destruct (bool_decide (c ∈ known) || bool_decide (c ∈ sent)) eqn:Hc.
  - apply orb_true_iff in Hc. rewrite !bool_decide_eq_true in Hc.
    destruct (IH sent next) as (added & Hrun & Hnd & Hi & Hall & Hbs). exists added.
    split_and!; [done|done| | |done].
    + intros i H. destruct (Hi i H). split; [done|by right].
    + intros x [->|Hx]%elem_of_cons; [tauto|by apply Hall].
  - apply orb_false_iff in Hc as [_ Hcs%bool_decide_eq_false].
    destruct (IH ({[ c ]} ∪ sent) (next ++ [(c, omap (λ b, child_at b s) bases)]))
      as (added & Hrun & Hnd & Hi & Hall & Hbs).
    exists ((c, omap (λ b, child_at b s) bases) :: added). csimpl. rewrite Hrun -app_assoc. split_and!.
    + f_equal. set_solver.
    + constructor; [|done]. intros Hca%Hi. set_solver.
    + intros i [->|H]%elem_of_cons; [split; [done|by left]|]. destruct (Hi i H). split; [set_solver|by right].
    + intros x [->|Hx]%elem_of_cons; [right; right; by left|]. destruct (Hall x Hx) as [?|[Hs|?]]; [by left| |].
      * apply elem_of_union in Hs as [->%elem_of_singleton|?]; [right; right; by left|right; by left].
      * right; right. by right.
    + intros i bs b [[= -> ->]|H]%elem_of_cons; [|by eapply Hbs].
      intros (x & Hx & Hxc)%list_elem_of_omap. destruct (Hb x Hx) as (j & Hj & Hoj).
      eapply HD; [exact Hj|exact Hoj|]. by eapply child_at_children.
Qed.
Record packing (level next : list Item) (sent : gset ObjectId) (out : list ObjectId) : Prop := {
  pk_sent i : i ∈ sent ↔ i ∈ out ∨ i ∈ level.*1 ∨ i ∈ next.*1;
  pk_nodup : NoDup (out ++ level.*1 ++ next.*1);
  pk_stored i : i ∈ out → is_Some (O !! i);
  pk_closed i o c : i ∈ out → O !! i = Some o → c ∈ children o → D c ∨ c ∈ sent;
  pk_bases i bs b : (i, bs) ∈ level ∨ (i, bs) ∈ next → b ∈ bs → good_base b;
  pk_trees i : i ∈ sent → Q i;
}.

Lemma packing_step i bs level next sent out added o :
  packing ((i, bs) :: level) next sent out → O !! i = Some o →
  NoDup added.*1 → (∀ j, j ∈ added.*1 → j ∉ sent ∧ j ∈ children o) →
  (∀ c, c ∈ children o → D c ∨ c ∈ sent ∨ c ∈ added.*1) → (∀ j bs b, (j, bs) ∈ added → b ∈ bs → D b) →
  packing level (next ++ added) (list_to_set added.*1 ∪ sent) (out ++ [i]).
Proof.
  intros [] Ho Hnd Hadd Hall Hbs. 
  assert (∀ j, j ∈ ((i, bs) :: level).*1 ↔ j = i ∨ j ∈ level.*1) as Hl by (intros j; apply elem_of_cons).
  split.
  - intros j. rewrite fmap_app !elem_of_app elem_of_union elem_of_list_to_set list_elem_of_singleton pk_sent0 Hl. tauto.
  - assert (out ++ ((i, bs) :: level).*1 ++ next.*1 = (out ++ [i]) ++ level.*1 ++ next.*1) as Heq
      by (rewrite -app_assoc; done).
    assert ((out ++ [i]) ++ level.*1 ++ (next ++ added).*1 = ((out ++ [i]) ++ level.*1 ++ next.*1) ++ added.*1) as ->
      by (rewrite fmap_app -!app_assoc; done).
    rewrite Heq in pk_nodup0. apply NoDup_app. split_and!; [done| |done].
    intros j Hj [Hs _]%Hadd. apply Hs, pk_sent0. rewrite !elem_of_app list_elem_of_singleton in Hj. rewrite Hl. tauto.
  - intros j [Hj| ->%list_elem_of_singleton]%elem_of_app; [by apply pk_stored0|by exists o].
  - intros j x c [Hj| ->%list_elem_of_singleton]%elem_of_app Hx Hc.
    + destruct (pk_closed0 j x c Hj Hx Hc); [by left|right]. set_solver.
    + simplify_eq. destruct (Hall c Hc) as [?|[?|?]]; [by left|right; set_solver..].
  - intros j bs' b [Hj|[Hj|Hj]%elem_of_app] Hb; [|by eapply pk_bases0; [right|]|left; by eapply Hbs].
    eapply pk_bases0; [left; by right|done].
  - intros j [Hj%elem_of_list_to_set|Hj]%elem_of_union; [|by apply pk_trees0].
    eapply HQ; [apply (pk_trees0 i), pk_sent0; rewrite Hl; tauto|exact Ho|by apply Hadd].
Qed.

Lemma expand_level_ok loaded level sent out next :
  packing level next sent out →
  (∀ i bs, (i, bs) ∈ level → loaded !! i = O !! i ∧ ∀ b, b ∈ bs → loaded !! b = O !! b) →
  match expand_level loaded level sent out next with
  | Ok (sent', out', next') => packing [] next' sent' out' ∧ out' = out ++ level.*1
  | Err e => ∃ i, i ∈ level.*1 ∧ O !! i = None ∧ e = WStorage (ObjectNotFound (oid_display i))
  end.
Proof.
  revert sent out next. induction level as [|[i bs] level IH]; intros sent out next Hp Hl; cbn [expand_level].
  { split; [done|]. csimpl. by rewrite app_nil_r. }
  destruct (Hl i bs) as [Hi Hb]; [by left|]. rewrite Hi. destruct (O !! i) as [o|] eqn:Ho; simpl.
  - set (base_nodes := omap (λ b, loaded !! b) bs).
    assert (∀ x, x ∈ base_nodes → ∃ b, D b ∧ O !! b = Some x) as Hbn.
    { intros x (b & Hbb & Hx)%list_elem_of_omap. rewrite Hb // in Hx. exists b. split; [|done].
      destruct (pk_bases _ _ _ _ Hp i bs b) as [?|?]; [left; by left|done|done|congruence]. }
    destruct (new_children_ok base_nodes (known_children base_nodes) (slots_of o) sent next Hbn)
      as (added & Hrun & Hnd & Hadd & Hall & Hbs).
    assert (packing level (next ++ added) (list_to_set added.*1 ∪ sent) (out ++ [i])) as Hp'.
    { eapply packing_step; [exact Hp|exact Ho|done| | |done].
      - intros j [? ?]%Hadd. by rewrite -slots_children.
      - intros c Hc%slots_children. destruct (Hall c Hc) as [Hk|?]; [left|by right].
        unfold known_children in Hk. apply elem_of_list_to_set, list_elem_of_bind in Hk as (x & Hcx & Hx).
        destruct (Hbn x Hx) as (b & Hdb & Hob). eapply HD; [exact Hdb|exact Hob|by apply slots_children]. }
    rewrite Hrun. specialize (IH _ _ _ Hp' ltac:(by intros; apply Hl; right)).
    destruct (expand_level _ _ _ _ _) as [[[sent' out'] next']|e].
    + destruct IH as [Hp2 ->]. split; [done|]. by rewrite -app_assoc.
    + destruct IH as (j & Hj & ?). exists j. split; [by right|done].
  - exists i. split_and!; [by left|done|done].
Qed.

Lemma diff_levels_ok fuel level sent out :
  packing level [] sent out → size O < fuel + length out →
  match diff_levels fuel (stored_objects O) level sent out with
  | Ok (sent', out') => packing [] [] sent' out' ∧ (∃ more, out' = out ++ more) ∧ ∀ i, i ∈ level.*1 → i ∈ out'
  | Err e => ∃ i, Q i ∧ O !! i = None ∧ e = WStorage (ObjectNotFound (oid_display i))
  end.
Proof.
  revert level sent out. induction fuel as [|fuel IH]; intros level sent out Hp Hf; destruct level as [|item level]; cbn [diff_levels].
  1, 3: split_and!; [done|exists []; by rewrite app_nil_r|].
  1, 2: intros i Hi; by destruct (not_elem_of_nil i Hi).
  { assert (length out ≤ size O); [|lia]. rewrite -size_dom -(size_list_to_set (C := gset ObjectId) out).
    - apply subseteq_size. intros i Hi%elem_of_list_to_set. apply elem_of_dom. by apply (pk_stored _ _ _ _ Hp).
    - pose proof (pk_nodup _ _ _ _ Hp) as Hnd. by apply NoDup_app in Hnd as [? _]. }
  destruct (load_reads_ok (level_reads (item :: level))) as (loaded & Hload & Hall).
  rewrite Hload. cbn [mbind result_bind].
  assert (∀ i bs, (i, bs) ∈ item :: level → loaded !! i = O !! i ∧ ∀ b, b ∈ bs → loaded !! b = O !! b) as Hl.
  { intros i bs Hi. unfold level_reads in Hall. split; [|intros b Hb]; apply Hall, elem_of_retain_new;
      (split; [|apply not_elem_of_empty]); apply list_elem_of_bind; exists (i, bs); (split; [|done]); [by left|by right]. }
  pose proof (expand_level_ok loaded (item :: level) sent out [] Hp Hl) as He.
  destruct (expand_level _ _ _ _ _) as [[[sent' out'] next']|e].
  - destruct He as [Hp' ->].
    assert (packing next' [] sent' (out ++ (item :: level).*1)) as Hp2.
    { destruct Hp'; split; try done.
      - intros i. rewrite pk_sent0. set_solver.
      - csimpl in *. by rewrite app_nil_r.
      - intros i bs b [?|?%elem_of_nil]; [|done]. apply (pk_bases0 i). by right. }
    cbn [mbind result_bind]. specialize (IH next' sent' (out ++ (item :: level).*1) Hp2). rewrite length_app in IH.
    destruct (diff_levels _ _ _ _ _) as [[sent2 out2]|e]; [|by apply IH; simpl; lia].
    destruct IH as (Hp3 & [more ->] & Hin); [simpl; lia|]. split_and!; [done|by eexists; rewrite -app_assoc|].
    intros i Hi. apply elem_of_app. left. apply elem_of_app. by right.
  - destruct He as (i & Hi & Hn & ->). exists i. split; [|done].
    apply (pk_trees _ _ _ _ Hp), (pk_sent _ _ _ _ Hp). tauto.
Qed.
End trees.

(** ** One commit after another *)

(** [has_object] of a store that does not fail. *)
Definition stored_has (O : gmap ObjectId Object) (i : ObjectId) : result StorageError bool :=
  Ok (bool_decide (is_Some (O !! i))).

Section sending.
Context (O : gmap ObjectId Object) (B Q : ObjectId → Prop).
Context (HB : tree_closed O B) (HQ : tree_closed O Q).

(** Between two trees: what is on its way goes with its whole subtree, but for
    what the receiver has. *)
Record settled (sent : gset ObjectId) (out : list ObjectId) : Prop := {
  se_sent i : i ∈ sent ↔ i ∈ out;
  se_nodup : NoDup out;
  se_stored i : i ∈ out → is_Some (O !! i);
  se_closed i o c : i ∈ out → O !! i = Some o → c ∈ children o → B c ∨ c ∈ out;
  se_trees i : i ∈ out → Q i;
}.

Lemma settled_nothing : settled ∅ [].
Proof. clear HB HQ. split; [set_solver|constructor|by intros i ?%elem_of_nil|by intros i o c ?%elem_of_nil|by intros i ?%elem_of_nil]. Qed.

Definition held (out : list ObjectId) (i : ObjectId) : Prop := B i ∨ i ∈ out.

Lemma held_closed sent out : settled sent out → tree_closed O (held out).
Proof. intros [] i o c [Hi|Hi] Ho Hc; [left; by eapply HB|by eapply se_closed0]. Qed.

Lemma packing_settled sent out sent' out' more :
  settled sent out → packing O (held out) Q [] [] sent' out' → out' = out ++ more → settled sent' out'.
Proof.
  intros _ [] ->. csimpl in *.
  assert (∀ i, i ∈ sent' ↔ i ∈ out ++ more) as Hs by (intros i; rewrite pk_sent0; set_solver).
  split; [done|by rewrite app_nil_r in pk_nodup0|done| |].
  - intros i o c Hi Ho Hc. destruct (pk_closed0 i o c Hi Ho Hc) as [[?|?]|?]; [by left|right|right; by apply Hs].
    apply elem_of_app. by left.
  - intros i Hi. by apply pk_trees0, Hs.
Qed.

Lemma diff_tree_ok fuel root bases sent out :
  settled sent out → size O < fuel → (∀ b, b ∈ bases → good_base O (held out) b) → (is_Some (O !! root) → Q root) →
  match diff_tree fuel (stored_objects O) (stored_has O) root bases sent out with
  | Ok (there, sent', out') => settled sent' out' ∧ (∃ more, out' = out ++ more) ∧
      (good_base O (held out') root) ∧ (there = false → O !! root = None)
  | Err e => ∃ i, Q i ∧ O !! i = None ∧ e = WStorage (ObjectNotFound (oid_display i))
  end.
Proof.
  intros Hs Hf Hb Hr. unfold diff_tree.
  destruct (bool_decide (root ∈ sent) || bool_decide (root ∈ bases)) eqn:Hskip.
  { split_and!; [done|exists []; by rewrite app_nil_r| |done].
    apply orb_true_iff in Hskip. rewrite !bool_decide_eq_true in Hskip. destruct Hskip as [Hi|Hi]; [|by apply Hb].
    left. right. by apply (se_sent _ _ Hs). }
  apply orb_false_iff in Hskip as [Hn%bool_decide_eq_false _]. simpl.
  case_bool_decide as Hroot; simpl.
  2: { split_and!; [done|exists []; by rewrite app_nil_r|right; by apply eq_None_not_Some|intros _; by apply eq_None_not_Some]. }
  assert (packing O (held out) Q [(root, bases)] [] ({[ root ]} ∪ sent) out) as Hp.
  { destruct Hs. csimpl. split; csimpl.
    - intros i. rewrite elem_of_union elem_of_singleton se_sent0 !elem_of_cons. rw !elem_of_nil. tauto.
    - apply NoDup_app. split_and!; [done| |apply NoDup_singleton]. intros i Hi ->%list_elem_of_singleton. by apply Hn, se_sent0.
    - done.
    - intros i o c Hi Ho Hc. left. by eapply se_closed0.
    - intros i bs b [[= -> ->]%list_elem_of_singleton|?%elem_of_nil] Hbb; [by apply Hb|done].
    - intros i [->%elem_of_singleton|Hi%se_sent0]%elem_of_union; auto. }
  pose proof (diff_levels_ok O (held out) Q (held_closed _ _ Hs) HQ fuel [(root, bases)] ({[ root ]} ∪ sent) out Hp) as Hd.
  destruct (diff_levels _ _ _ _ _) as [[sent' out']|e]; [|apply Hd; lia].
  destruct Hd as (Hp' & [more ->] & Hin); [lia|]. simpl. split_and!; [by eapply packing_settled|by exists more| |done].
  left. right. apply Hin. by left.
Qed.

Context (m : gmap ObjectId Commit) (w : Walk) (new : gset ObjectId) (commits : list ObjectId).
Context (Hloaded : ∀ i x, wk_commits w !! i = Some x → ∃ c, m !! i = Some c ∧ x = walked_commit c).
Context (Hcommits : ∀ i, i ∈ commits → is_Some (wk_commits w !! i)).
Context (Hbefore : ∀ l1 i l2 p, commits = l1 ++ i :: l2 → parent_edge m i p → p ∈ new → p ∈ l1).
Context (Hremote : ∀ i c, wk_remote_has w i → m !! i = Some c → B (state_root c) ∨ O !! state_root c = None).
Context (Htrees : ∀ i c, i ∈ commits → m !! i = Some c → is_Some (O !! state_root c) → Q (state_root c)).

(** The commits done with: their trees are held, or gone. *)
Definition tree_held (out : list ObjectId) (i : ObjectId) : Prop :=
  ∀ c, m !! i = Some c → good_base O (held out) (state_root c).

Lemma tree_held_grows out more i : tree_held out i → tree_held (out ++ more) i.
Proof.
  intros H c Hc. destruct (H c Hc) as [[?|?]|?]; [left; by left|left; right|by right]. apply elem_of_app. by left.
Qed.

Lemma diff_commits_ok fuel before todo sent out pruned :
  size O < fuel → commits = before ++ todo → settled sent out → Forall (tree_held out) before →
  match diff_commits fuel (stored_objects O) (stored_has O) w new todo sent out pruned with
  | Ok (out', pruned') => (∃ sent', settled sent' out') ∧ Forall (tree_held out') commits ∧
      ∃ more, pruned' = pruned ++ more ∧ ∀ i, i ∈ more → i ∈ todo ∧ ∀ c, m !! i = Some c → O !! state_root c = None
  | Err e => ∃ i, Q i ∧ O !! i = None ∧ e = WStorage (ObjectNotFound (oid_display i))
  end.
Proof.
  intros Hf. revert before sent out pruned. induction todo as [|i todo IH]; intros before sent out pruned Heq Hs Hdone;
    cbn [diff_commits].
  { rewrite app_nil_r in Heq. subst before. split_and!; [by exists sent|done|].
    exists []. rewrite app_nil_r. split; [done|]. by intros i ?%elem_of_nil. }
  assert (i ∈ commits) as Hi by (rewrite Heq; apply elem_of_app; right; by left).
  destruct (Hcommits i Hi) as [x Hx]. destruct (Hloaded i x Hx) as (c & Hc & ->). unfold index. rewrite Hx /=.
  pose proof (diff_tree_ok fuel (state_root c) (base_roots w new (walked_commit c)) sent out Hs Hf) as Hd.
  destruct (diff_tree _ _ _ _ _ _ _) as [[[there sent'] out']|e]; simpl.
  - destruct Hd as (Hs' & [more ->] & Hroot & Hgone).
    { unfold base_roots. intros b (p & [Hp Hpp]%list_elem_of_filter & Hb)%list_elem_of_omap.
      destruct (wk_commits w !! p) as [y|] eqn:Hy; simpl in Hb; [|done]. injection Hb as <-.
      destruct (Hloaded p y Hy) as (cp & Hcp & ->). destruct Hp as [Hp|Hp]; [|destruct (Hremote p cp Hp Hcp); [left; by left|by right]].
      eapply Forall_forall in Hdone; [by apply Hdone|]. eapply Hbefore; [exact Heq|by exists c|done]. }
    { intros ?. by eapply Htrees. }
    specialize (IH (before ++ [i]) sent' (out ++ more) (if there then pruned else pruned ++ [i])).
    destruct (diff_commits _ _ _ _ _ _ _ _ _) as [[out2 pruned2]|e]; [|apply IH].
    + destruct IH as (? & ? & p2 & -> & Hp2); [by rewrite -app_assoc|done| |].
      { apply Forall_app. split; [eapply Forall_impl; [exact Hdone|intros j; apply tree_held_grows]|].
        apply Forall_singleton. intros c' Hc'. by simplify_eq. }
      split_and!; [done|done|]. destruct there.
      * exists p2. split; [done|]. intros j Hj. destruct (Hp2 j Hj). split; [by right|done].
      * exists (i :: p2). split; [by rewrite -app_assoc|]. intros j [->|Hj]%elem_of_cons.
        -- split; [by left|]. intros c' Hc'. simplify_eq. by apply Hgone.
        -- destruct (Hp2 j Hj). split; [by right|done].
    + by rewrite -app_assoc.
    + done.
    + apply Forall_app. split; [eapply Forall_impl; [exact Hdone|intros j; apply tree_held_grows]|].
      apply Forall_singleton. intros c' Hc'. by simplify_eq.
  - apply Hd; [|intros ?; by eapply Htrees].
    unfold base_roots. intros b (p & [Hp Hpp]%list_elem_of_filter & Hb)%list_elem_of_omap.
    destruct (wk_commits w !! p) as [y|] eqn:Hy; simpl in Hb; [|done]. injection Hb as <-.
    destruct (Hloaded p y Hy) as (cp & Hcp & ->). destruct Hp as [Hp|Hp]; [|destruct (Hremote p cp Hp Hcp); [left; by left|by right]].
    eapply Forall_forall in Hdone; [by apply Hdone|]. eapply Hbefore; [exact Heq|by exists c|done].
Qed.
End sending.

(** ** The missing set *)

Section result.
Context (m : gmap ObjectId Commit) (O : gmap ObjectId Object).
Context (inter : gset ObjectId → list ObjectId) (Hinter : lists_once inter).
Context (fuel tree_fuel : nat) (Hfuel : 2 * size m < fuel) (Htf : size O < tree_fuel).
Context (heads haves shallow : list ObjectId).

Abbreviation missing := (missing_set fuel tree_fuel inter (stored_reads m) (stored_objects O) (stored_has O)
  heads haves shallow).
Abbreviation sh := (list_to_set shallow : gset ObjectId).

(** Part of the tree of a commit that may be sent. *)
Definition wanted_object (i : ObjectId) : Prop :=
  ∃ c k, wanted_commit m heads sh c ∧ m !! c = Some k ∧ is_Some (O !! state_root k) ∧ part_of O (state_root k) i.

Lemma wanted_object_closed : tree_closed O wanted_object.
Proof.
  intros i o c (k & x & Hk & Hx & Hr & Hi) Ho Hc. exists k, x. split_and!; [done..|].
  eapply rtc_r; [exact Hi|]. unfold succ_edge, kids. by rewrite Ho.
Qed.

(** The first head that is not there. *)
Lemma missing_head_gone :
  ¬ (∀ h, h ∈ heads → is_Some (m !! h)) →
  ∃ h, h ∈ heads ∧ m !! h = None ∧ missing = Err (WStorage (CommitNotFound (oid_display h))).
Proof.
  intros Hn. assert (∃ l1 h l2, heads = l1 ++ h :: l2 ∧ (∀ x, x ∈ l1 → is_Some (m !! x)) ∧ m !! h = None)
    as (l1 & h & l2 & Hh & Hl1 & Hgone).
  { clear -Hn. induction heads as [|h l IH]; [destruct Hn; by intros h ?%elem_of_nil|].
    destruct (m !! h) as [c|] eqn:Hc.
    - destruct IH as (l1 & x & l2 & -> & Hl & Hx).
      { intros Hall. apply Hn. intros y [->|Hy]%elem_of_cons; [by eexists|by apply Hall]. }
      exists (h :: l1), x, l2. split_and!; [done| |done]. intros y [->|Hy]%elem_of_cons; [by eexists|by apply Hl].
    - exists [], h, l. split_and!; [done|by intros x ?%elem_of_nil|done]. }
  exists h. split_and!; [rewrite Hh; set_solver|done|].
  destruct (queue_heads_ok m heads haves sh l1 walk_new _ (walk_new_ok m heads haves sh))
    as (w & Hrun & Hw & _); [intros x Hx; rewrite Hh; set_solver|done|].
  destruct (wk_load_ok m heads haves sh ∅ ∅ w _ h Hw) as (w1 & Hload & _).
  rewrite Hgone bool_decide_false in Hload; [|by intros []].
  assert (start_walk (stored_reads m) heads haves walk_new = (Err (WStorage (CommitNotFound (oid_display h))), w1)) as Hs.
  { unfold start_walk, mbind at 1, stateful_bind at 1. rewrite Hh (for_each_app _ _ _ _ _ Hrun). cbn [for_each].
    unfold mbind, stateful_bind. by rewrite Hload. }
  assert (new_commits fuel (stored_reads m) heads haves sh = Err (WStorage (CommitNotFound (oid_display h)))) as Hnew
    by (unfold new_commits, mbind, stateful_bind; by rewrite Hs).
  unfold missing_set. by rewrite Hnew.
Qed.

(** The walk, the order and the trees together. [B]: what the receiver holds
    whole. *)
Lemma missing_set_ok (B : ObjectId → Prop) :
  tree_closed O B →
  (∀ i c, remote_commit m haves i → m !! i = Some c → B (state_root c) ∨ O !! state_root c = None) →
  (∀ h, h ∈ heads → is_Some (m !! h)) →
  ∃ w f new order, new_ok m heads haves sh w f new ∧
    NoDup order ∧ (∀ i, i ∈ order → i ∈ new) ∧ parents_before inter (wk_commits w) new order ∧
    (∀ i, i ∈ new → i ∈ order ∨ ∃ p, p ∈ waits_for inter (wk_commits w) new i ∧ p ∉ order) ∧
    match missing with
    | Ok s => missing_commits s = order ∧
        missing_shallow s = List.filter (λ id, bool_decide (id ∈ sh) || bool_decide (id ∈ lacks_parent f)) order ∧
        (∃ sent, settled O B wanted_object sent (missing_objects s)) ∧
        Forall (tree_held O B m (missing_objects s)) order ∧
        ∀ i, i ∈ missing_pruned s → i ∈ order ∧ ∀ c, m !! i = Some c → O !! state_root c = None
    | Err e => ∃ i, wanted_object i ∧ O !! i = None ∧ e = WStorage (ObjectNotFound (oid_display i))
    end.
Proof.
  intros HB Hrem Hheads.
  destruct (new_commits_ok m heads haves sh fuel Hheads Hfuel) as (w & f & new & Hrun & Hn).
  destruct (parents_first_ok inter Hinter (wk_commits w) new) as (order & Hord & Hnd & Hin & Hb & Hall).
  { intros i Hi. apply (no_loaded _ _ _ _ _ _ _ Hn). by left. }
  exists w, f, new, order. split_and!; [done..|].
  unfold missing_set. rewrite Hrun. cbn [mbind result_bind]. rewrite Hord. cbn [mbind result_bind].
  pose proof (diff_commits_ok O B wanted_object HB wanted_object_closed m w new order
    (no_commits _ _ _ _ _ _ _ Hn)) as Hd.
  specialize (Hd ltac:(intros i Hi; apply (no_loaded _ _ _ _ _ _ _ Hn); left; by apply Hin)).
  assert (∀ l1 i l2 p, order = l1 ++ i :: l2 → parent_edge m i p → p ∈ new → p ∈ l1) as Hbefore.
  { intros l1 i l2 p Heq (c & Hc & Hp) Hpn. eapply Hb; [exact Heq|]. apply (elem_of_waits_for _ Hinter). split; [done|].
    destruct (no_loaded _ _ _ _ _ _ _ Hn i) as [x Hx]; [left; apply Hin; rewrite Heq; set_solver|].
    destruct (no_commits _ _ _ _ _ _ _ Hn i x Hx) as (c' & Hc' & ->). simplify_eq. by eexists. }
  specialize (Hd Hbefore ltac:(intros i c Hi; by apply Hrem, (no_remote _ _ _ _ _ _ _ Hn))).
  specialize (Hd ltac:(intros i c Hi Hc Hr; exists i, c; split_and!;
    [by apply (no_wanted _ _ _ _ _ _ _ Hn), Hin|done|done|apply rtc_refl])).
  specialize (Hd tree_fuel [] order ∅ [] [] Htf eq_refl).
  destruct (diff_commits _ _ _ _ _ _ _ _ _) as [[objects pruned]|e].
  - cbn [mbind result_bind]. destruct Hd as (Hs & Hf & more & -> & Hm); [by apply settled_nothing|constructor|].
    by split_and!.
  - cbn [mbind result_bind]. apply Hd; [by apply settled_nothing|constructor].
Qed.
(** Parents all come to be listed, since history has no cycles. *)
Lemma all_ordered w f (new : gset ObjectId) (order : list ObjectId) :
  acyclic m → new_ok m heads haves sh w f new →
  (∀ i, i ∈ new → i ∈ order ∨ ∃ p, p ∈ waits_for inter (wk_commits w) new i ∧ p ∉ order) →
  ∀ i, i ∈ new → i ∈ order.
Proof.
  intros [rank Hrank] Hn Hall i. remember (rank i) as r eqn:Hr. revert i Hr.
  induction (lt_wf r) as [r _ IH]; intros i -> Hi.
  destruct (Hall i Hi) as [?|(p & (Hp & x & Hx & Hpx)%(elem_of_waits_for _ Hinter) & Hpo)]; [done|]. destruct Hpo.
  destruct (no_commits _ _ _ _ _ _ _ Hn i x Hx) as (c & Hc & ->).
  apply (IH (rank p)); [|done|done]. apply Hrank. by exists c.
Qed.

Lemma lacks_iff w f new i :
  new_ok m heads haves sh w f new → i ∈ new →
  bool_decide (i ∈ sh) || bool_decide (i ∈ lacks_parent f) ↔ i ∈ shallow ∨ ∃ p, parent_edge m i p ∧ m !! p = None.
Proof.
  intros Hn Hi. rewrite orb_True !bool_decide_spec elem_of_list_to_set. split.
  - intros [?|[_ ?]%(no_lacks _ _ _ _ _ _ _ Hn)]; by auto.
  - intros [?|(p & Hp & Hgone)]; [by left|]. destruct (decide (i ∈ shallow)) as [|Hsh]; [by left|right].
    assert (∀ j, j ∈ new ∨ wk_remote_has w j → is_Some (m !! j)) as Hst.
    { intros j [x (c & Hc & _)%(no_commits _ _ _ _ _ _ _ Hn)]%(no_loaded _ _ _ _ _ _ _ Hn). by exists c. }
    destruct (no_parents _ _ _ _ _ _ _ Hn i p Hi) as [[_ ?]|Hst']; [by rewrite elem_of_list_to_set|done|done|].
    apply Hst in Hst' as [c Hc]. congruence.
Qed.

(** What the commits of a send are. *)
Record commits_ok (s : MissingSet) : Prop := {
  co_nodup : NoDup (missing_commits s);
  co_wanted i : i ∈ missing_commits s → wanted_commit m heads sh i ∧ is_Some (m !! i);
  co_all i : wanted_commit m heads sh i → is_Some (m !! i) → ¬ remote_commit m haves i → i ∈ missing_commits s;
  co_exact i : clocks_forward m → i ∈ missing_commits s → ¬ remote_commit m haves i;
  co_before l1 i l2 p : missing_commits s = l1 ++ i :: l2 → parent_edge m i p → p ∈ missing_commits s → p ∈ l1;
  co_parents i p : i ∈ missing_commits s → i ∉ missing_shallow s → parent_edge m i p →
    p ∈ missing_commits s ∨ remote_commit m haves p;
  co_shallow i : i ∈ missing_shallow s ↔
    i ∈ missing_commits s ∧ (i ∈ shallow ∨ ∃ p, parent_edge m i p ∧ m !! p = None);
}.

Lemma missing_commits_ok :
  acyclic m →
  match missing with
  | Ok s => commits_ok s
  | Err e => (∃ i, i ∈ heads ∧ m !! i = None ∧ e = WStorage (CommitNotFound (oid_display i))) ∨
      ∃ i, wanted_object i ∧ O !! i = None ∧ e = WStorage (ObjectNotFound (oid_display i))
  end.
Proof.
  intros Hac. destruct (decide (Forall (λ h, is_Some (m !! h)) heads)) as [Hheads|Hheads]; rewrite Forall_forall in Hheads.
  2: { destruct (missing_head_gone Hheads) as (h & ? & ? & ->). left. by exists h. }
  destruct (missing_set_ok (λ _, True)) as (w & f & new & order & Hn & Hnd & Hin & Hb & Hall & Hm); [done|by left|done|].
  pose proof (all_ordered w f new order Hac Hn Hall) as Hall'.
  destruct missing as [s|e]; [|by right]. destruct Hm as (Ho & Hs & _). rewrite -Ho in Hnd Hin Hb Hall' Hs.
  assert (∀ i, i ∈ missing_shallow s ↔ i ∈ missing_commits s ∧ (i ∈ shallow ∨ ∃ p, parent_edge m i p ∧ m !! p = None))
    as Hsh.
  { intros i. rewrite Hs elem_of_List_filter. split; intros [Hi Hx]; (split; [done|]); by eapply lacks_iff; eauto. }
  assert (∀ i, i ∈ new → is_Some (m !! i)) as Hst.
  { intros i Hi. destruct (no_loaded _ _ _ _ _ _ _ Hn i) as [x Hx]; [by left|].
    destruct (no_commits _ _ _ _ _ _ _ Hn i x Hx) as (c & ? & _). by exists c. }
  split; [done|..|done].
  - intros i Hi%Hin. split; [by apply (no_wanted _ _ _ _ _ _ _ Hn)|by apply Hst].
  - intros i H1 H2 H3. by apply Hall', (no_all _ _ _ _ _ _ _ Hn).
  - intros i Hc Hi%Hin. by apply (no_exact _ _ _ _ _ _ _ Hn).
  - intros l1 i l2 p Heq (c & Hc & Hp) Hpn%Hin. eapply Hb; [exact Heq|]. apply (elem_of_waits_for _ Hinter). split; [done|].
    destruct (no_loaded _ _ _ _ _ _ _ Hn i) as [x Hx]; [left; apply Hin; rewrite Heq; set_solver|].
    destruct (no_commits _ _ _ _ _ _ _ Hn i x Hx) as (c' & Hc' & ->). simplify_eq. by eexists.
  - intros i p Hi Hns Hp. rewrite Hsh in Hns.
    destruct (no_parents _ _ _ _ _ _ _ Hn i p) as [[Hg _]|[?|?]]; [by apply Hin|rewrite elem_of_list_to_set; tauto|done| | |].
    + destruct Hns. split; [done|]. right. by exists p.
    + left. by apply Hall'.
    + right. by apply (no_remote _ _ _ _ _ _ _ Hn).
Qed.

(** A receiver [R], and what it is after it has stored the objects. *)
Context (R : gmap ObjectId Object) (Hagree : ∀ i o o', R !! i = Some o → O !! i = Some o' → o = o').
Context (Hremote : ∀ i c, remote_commit m haves i → m !! i = Some c →
  intact R (state_root c) ∨ O !! state_root c = None).

Lemma intact_closed : tree_closed O (intact R).
Proof.
  intros i o c Hi Ho Hc j Hj. apply Hi. eapply rtc_l; [|exact Hj]. unfold succ_edge, kids.
  destruct (Hi i) as [o' Ho']; [apply rtc_refl|]. by rewrite Ho' (Hagree i o' o Ho' Ho).
Qed.

Lemma held_intact sent out R' :
  settled O (intact R) wanted_object sent out → R ⊆ R' → (∀ i, i ∈ out → R' !! i = O !! i) →
  ∀ root, held (intact R) out root → intact R' root.
Proof.
  intros Hs Hsub Hout root Hroot i Hi.
  enough (held (intact R) out i) as [Hh|Hh].
  - destruct (Hh i) as [o Ho]; [apply rtc_refl|]. exists o. by eapply lookup_weaken.
  - rewrite Hout //. by apply (se_stored _ _ _ _ _ Hs).
  - induction Hi as [i|i j k Hij _ IH]; [done|]. apply IH. clear IH k. unfold succ_edge, kids in Hij.
    destruct Hroot as [Hh|Hh].
    + left. destruct (Hh i) as [o Ho]; [apply rtc_refl|]. rewrite (lookup_weaken _ _ _ _ Ho Hsub) in Hij.
      intros x Hx. apply Hh. eapply rtc_l; [|exact Hx]. unfold succ_edge, kids. by rewrite Ho.
    + rewrite Hout // in Hij. destruct (O !! i) as [o|] eqn:Ho; [|by apply not_elem_of_nil in Hij].
      by eapply (se_closed _ _ _ _ _ Hs).
Qed.

(** What the objects of a send are. *)
Record objects_ok (s : MissingSet) : Prop := {
  ob_nodup : NoDup (missing_objects s);
  ob_stored i : i ∈ missing_objects s → is_Some (O !! i) ∧ wanted_object i;
  ob_pruned i : i ∈ missing_pruned s → i ∈ missing_commits s ∧ ∀ c, m !! i = Some c → O !! state_root c = None;
  ob_intact R' : R ⊆ R' → (∀ i, i ∈ missing_objects s → R' !! i = O !! i) →
    ∀ i c, i ∈ missing_commits s → m !! i = Some c → O !! state_root c = None ∨ intact R' (state_root c);
}.

Lemma missing_objects_ok :
  match missing with
  | Ok s => objects_ok s
  | Err e => (∃ i, i ∈ heads ∧ m !! i = None ∧ e = WStorage (CommitNotFound (oid_display i))) ∨
      ∃ i, wanted_object i ∧ O !! i = None ∧ e = WStorage (ObjectNotFound (oid_display i))
  end.
Proof.
  destruct (decide (Forall (λ h, is_Some (m !! h)) heads)) as [Hheads|Hheads]; rewrite Forall_forall in Hheads.
  2: { destruct (missing_head_gone Hheads) as (h & ? & ? & ->). left. by exists h. }
  destruct (missing_set_ok (intact R) intact_closed Hremote Hheads) as (w & f & new & order & _ & _ & _ & _ & _ & Hm).
  destruct missing as [s|e]; [|by right]. destruct Hm as (<- & _ & [sent Hs] & Hheld & Hpr).
  rewrite Forall_forall in Hheld. split.
  - apply Hs.
  - intros i Hi. split; [by apply (se_stored _ _ _ _ _ Hs)|by apply (se_trees _ _ _ _ _ Hs)].
  - done.
  - intros R' Hsub Hout i c Hi Hc. destruct (Hheld i Hi c Hc) as [?|?]; [right|by left]. by eapply held_intact.
Qed.
End result.

(** Two content-addressed stores that both know an id know the same object. *)
Lemma addressed_agree `{CH : ContentHash, CF : !CollisionFree} R O i o o' :
  addressed R → addressed O → R !! i = Some o → O !! i = Some o' → o = o'.
Proof. intros HR HO [Hi Hf]%HR [Hi' Hf']%HO. apply collision_free; [done..|]. congruence. Qed.

(** ** Properties *)

(** C21: What a push or fetch sends, by [missing_set], whatever the clocks, the
    order a set is iterated in and the size of the history: each commit once,
    after its parents, reachable from a head without crossing a shallow
    boundary; every commit the remote lacks, and no other when clocks do not go
    back along a parent edge; marked shallow exactly when it was asked to be or
    a parent is gone here. The only errors are a head or a part of a tree that
    is not there: the walk ends, and no index into its tables fails. *)
Theorem missing_commits_spec m O inter fuel tree_fuel heads haves shallow :
  lists_once inter → acyclic m → 2 * size m < fuel → size O < tree_fuel →
  match missing_set fuel tree_fuel inter (stored_reads m) (stored_objects O) (stored_has O) heads haves shallow with
  | Ok s => commits_ok m heads haves shallow s
  | Err e => (∃ i, i ∈ heads ∧ m !! i = None ∧ e = WStorage (CommitNotFound (oid_display i))) ∨
      ∃ i, wanted_object m O heads shallow i ∧ O !! i = None ∧ e = WStorage (ObjectNotFound (oid_display i))
  end.
Proof. intros Hi Hac Hf Ht. by apply missing_commits_ok. Qed.

(** C22: The objects sent complete the receiver: a remote that holds the whole tree
    of every commit it has, and stores the objects [missing_set] lists, then
    holds the whole tree of every commit sent, but for those a sweep took here;
    each object is sent once and is part of a tree that is sent. *)
Theorem missing_objects_spec `{CH : ContentHash, CF : !CollisionFree} m O R inter fuel tree_fuel heads haves shallow s :
  lists_once inter → 2 * size m < fuel → size O < tree_fuel → addressed O → addressed R →
  (∀ i c, remote_commit m haves i → m !! i = Some c → intact R (state_root c) ∨ O !! state_root c = None) →
  missing_set fuel tree_fuel inter (stored_reads m) (stored_objects O) (stored_has O) heads haves shallow = Ok s →
  objects_ok m O heads shallow R s.
Proof.
  intros Hi Hf Ht HO HR Hrem Hs.
  pose proof (missing_objects_ok m O inter Hi fuel tree_fuel Hf Ht heads haves shallow R) as H.
  rewrite Hs in H. apply H; [|done]. intros i o o'. by apply addressed_agree.
Qed.

(** *** Witnesses *)

Lemma elements_once : lists_once elements.
Proof. intros s. split; [apply NoDup_elements|intros i; apply elem_of_elements]. Qed.

Section witnesses.
Import Plain.

(** The diamond, its base with the old tree and the others with the new. *)
Definition sent_commits : gmap ObjectId Commit :=
  let c id root ps := (Oid id, sample_commit (Oid id) root (Oid <$> ps)) in
  list_to_map [c "base" (oid_of old_tree) []; c "left" (oid_of old_tree) ["base"];
    c "right" (oid_of new_tree) ["base"]; c "tip" (oid_of new_tree) ["left"; "right"]].

Abbreviation send_of O heads haves :=
  (missing_set 20 20 elements (stored_reads sent_commits) (stored_objects O) (stored_has O) heads haves []).

Lemma sent_acyclic : acyclic sent_commits.
Proof.
  exists diamond_rank. intros i j (c & Hc%elem_of_list_to_map_2 & Hj). set_unfold.
  destruct_or!; simplify_eq; set_unfold; destruct_or!; simplify_eq; by vm_compute.
Qed.

Definition receiver_objects : gmap ObjectId Object := sample [kept; old_tree].

Definition diamond_send : MissingSet := {|
  missing_commits := [Oid "left"; Oid "right"; Oid "tip"]; missing_objects := [oid_of new_tree; oid_of added];
  missing_shallow := []; missing_pruned := [] |}.

Lemma missing_commits_spec_witness :
  send_of tree_objects [Oid "tip"] [Oid "base"] = Ok diamond_send ∧
  commits_ok sent_commits [Oid "tip"] [Oid "base"] [] diamond_send.
Proof.
  assert (send_of tree_objects [Oid "tip"] [Oid "base"] = Ok diamond_send) as He by by vm_compute.
  split; [exact He|].
  pose proof (missing_commits_spec sent_commits tree_objects elements 20 20 [Oid "tip"] [Oid "base"] []
    elements_once sent_acyclic) as H.
  rewrite He in H. apply H; vm_compute; lia.
Defined.
Lemma sample_addressed l : Forall finite l → addressed (sample l).
Proof. intros Hl i o [<- Hin]%sample_lookup. rewrite Forall_forall in Hl. by auto. Qed.

Lemma receiver_intact : intact receiver_objects (oid_of old_tree).
Proof.
  pose proof (first_missing_reachable_ok receiver_objects (tree_fuel receiver_objects) (oid_of old_tree) (le_n _)) as H.
  assert (first_missing_reachable (tree_fuel receiver_objects) (stored_objects receiver_objects) (oid_of old_tree) = Ok None)
    as He by by vm_compute. by rewrite He in H.
Qed.

Lemma missing_objects_spec_witness :
  objects_ok sent_commits tree_objects [Oid "tip"] [] receiver_objects diamond_send ∧
  intact tree_objects (oid_of new_tree).
Proof.
  assert (objects_ok sent_commits tree_objects [Oid "tip"] [] receiver_objects diamond_send) as H.
  { apply (missing_objects_spec sent_commits tree_objects receiver_objects elements 20 20 [Oid "tip"] [Oid "base"] []).
    - apply elements_once.
    - vm_compute. lia.
    - vm_compute. lia.
    - apply sample_addressed. by repeat constructor.
    - apply sample_addressed. by repeat constructor.
    - intros i c (h & ->%list_elem_of_singleton & _ & Ha) Hi. left.
      assert (i = Oid "base") as ->.
      { inversion Ha as [|? j ? (b & Hb & Hj)]; subst; [done|]. exfalso. vm_compute in Hb. injection Hb as <-. by apply not_elem_of_nil in Hj. }
      vm_compute in Hi. injection Hi as <-.
      exact receiver_intact.
    - by vm_compute. }
  split; [exact H|]. destruct (ob_intact _ _ _ _ _ _ H tree_objects) with (Oid "tip") (sample_commit (Oid "tip") (oid_of new_tree) [Oid "left"; Oid "right"])
    as [Hn|?]; [|done| | |by vm_compute in Hn|done].
  - by apply map_subseteq_spec; intros i o [<- Hin]%sample_lookup; set_unfold in Hin; destruct_or!; subst; vm_compute.
  - apply list_elem_of_In. vm_compute. tauto.
  - by vm_compute.
Defined.

(** [pruned] leaves out a commit whose tree is gone when a parent has the same
    tree, so the export counts fewer than the import does. *)
Lemma pruned_leaves_out :
  let O := sample [kept; added; new_tree] in
  ∃ s, send_of O [Oid "tip"] [] = Ok s ∧ missing_pruned s = [Oid "base"] ∧
    (Oid "left") ∈ missing_commits s ∧
    ∃ c, sent_commits !! Oid "left" = Some c ∧ O !! state_root c = None.
Proof.
  intros O. eexists. split; [by vm_compute|]. split; [done|]. split; [apply list_elem_of_In; vm_compute; tauto|].
  eexists. by split; vm_compute.
Qed.
End witnesses.
