(* ===== verification/Bundles.v ===== *)
(** * Bundles: the wire format of a send

    Models [agentstategraph/src/sync/bundle.rs]: the records of a bundle, their
    encoding, the writer, and the reader that verifies every record and gives
    up at its limits. Bytes are a [string]. The compressor and the encoders of
    [serde_json] are arguments ([Zstd], [Serde]): the writer hands all it wrote
    to the compressor at the end, and the reader sees what the decompressor
    makes of the part of the input its byte limit lets through. Input and
    output are in memory, so only the decompressor can fail to read. *)
From S2P Require Import Prelude Objects Json Intents Sessions Commits TreeJson.

(** ** Bytes *)

(** [u16::to_be_bytes] and [u32::to_be_bytes]. *)
Fixpoint be_onto (n : nat) (v : N) (s : string) : string :=
  match n with
  | 0 => s
  | S n' => be_onto n' (v / 256) (String (ascii_of_N (v mod 256)) s)
  end.
Definition be_bytes (n : nat) (v : N) : string := be_onto n v EmptyString.

Fixpoint from_be_acc (acc : N) (s : string) : N :=
  match s with EmptyString => acc | String c s' => from_be_acc (acc * 256 + code c) s' end.
Definition from_be (s : string) : N := from_be_acc 0 s.

(** The first [n] bytes, and the rest. *)
Fixpoint split_at (n : N) (s : string) : option (string * string) :=
  if (n =? 0)%N then Some (EmptyString, s) else
  match s with
  | EmptyString => None
  | String c s' => '(a, b) ← split_at (n - 1) s'; Some (String c a, b)
  end.

(** [String::from_utf8] accepts exactly the well-formed sequences. *)
Definition utf8_tail : ascii → bool := between 0x80 0xBF.
Fixpoint valid_utf8 (s : string) : bool :=
  match s with
  | EmptyString => true
  | String a s1 =>
      if between 0 0x7F a then valid_utf8 s1 else
      match s1 with
      | EmptyString => false
      | String b s2 =>
          if between 0xC2 0xDF a then utf8_tail b && valid_utf8 s2 else
          match s2 with
          | EmptyString => false
          | String c s3 =>
              if between 0xE0 0xE0 a then between 0xA0 0xBF b && utf8_tail c && valid_utf8 s3
              else if between 0xED 0xED a then between 0x80 0x9F b && utf8_tail c && valid_utf8 s3
              else if between 0xE1 0xEF a then utf8_tail b && utf8_tail c && valid_utf8 s3 else
              match s3 with
              | EmptyString => false
              | String d s4 =>
                  (if between 0xF0 0xF0 a then between 0x90 0xBF b
                   else if between 0xF4 0xF4 a then between 0x80 0x8F b
                   else between 0xF1 0xF3 a && utf8_tail b) && utf8_tail c && utf8_tail d && valid_utf8 s4
              end
          end
      end
  end.

(** ** What is outside *)

(** How a decompressed stream ends: at its end, where the input ends too
    early, where the byte limit cut the input, or in some other error. *)
Inductive DecodeEnd : Type :=
  | DecodeDone
  | DecodeCut
  | DecodeCapped
  | DecodeFailed.

Class Zstd := {
  zstd_encode : string → string;
  (** From the input let through, and whether the limit holds more back. *)
  zstd_decode : string → bool → string * DecodeEnd;
}.

(** What is decompressed is what was compressed, and a compressed stream cut
    short does not decompress to its end. *)
Class ZstdLaws `{Zstd} := {
  zstd_round x : zstd_decode (zstd_encode x) false = (x, DecodeDone);
  zstd_cut x p q held : zstd_encode x = p +:+ q → q ≠ EmptyString →
    ∃ y z e, zstd_decode p held = (y, e) ∧ x = y +:+ z ∧ (e = DecodeDone → z ≠ EmptyString);
}.

(** The derived encoders of a commit, and [serde_json]'s reader of an object. *)
Class Serde := {
  commit_to_json : Commit → result string string;
  commit_from_json : string → result string Commit;
  object_from_json : string → result string Object;
}.

(** ** The format *)

Definition MAGIC : string := "ASGB".
Definition FORMAT_VERSION : N := 1.
Definition COMPRESSION_ZSTD : N := 1.
Definition HEADER_LEN : N := 8.

Definition KIND_END : N := 0.
Definition KIND_REF : N := 1.
Definition KIND_SHALLOW : N := 2.
Definition KIND_COMMIT : N := 3.
Definition KIND_OBJECT : N := 4.

Definition u16_max : N := 2 ^ 16 - 1.

Record BundleRef := {
  br_namespace : Namespace;
  br_name : string;
  br_target : ObjectId;
}.

#[export] Instance BundleRef_eq_dec : EqDecision BundleRef.
Proof. solve_decision. Defined.

Inductive BundleRecord : Type :=
  | RecRef (r : BundleRef)
  | RecShallow (id : ObjectId)
  | RecCommit (c : Commit)
  | RecObject (id : ObjectId) (o : Object).

Record BundleLimits := {
  max_bytes : N;
  max_uncompressed_bytes : N;
  max_record_bytes : N;
  max_refs : N;
  max_commits : N;
  max_objects : N;
}.

Definition default_limits : BundleLimits := {|
  max_bytes := N.shiftl 256 20;
  max_uncompressed_bytes := N.shiftl 1 30;
  max_record_bytes := N.shiftl 64 20;
  max_refs := 10000;
  max_commits := 1000000;
  max_objects := 10000000 |}.

Definition unlimited : BundleLimits := {|
  max_bytes := u64_max; max_uncompressed_bytes := u64_max; max_record_bytes := u32_max;
  max_refs := u64_max; max_commits := u64_max; max_objects := u64_max |}.

Inductive BundleError : Type :=
  | NotABundle
  | UnsupportedVersion (v : N)
  | UnsupportedCompression (v : N)
  | OverLimit (what : string) (limit : N)
  | BundleTruncated
  | BundleMalformed (msg : string)
  | IdMismatch (kind : string) (claimed actual : ObjectId)
  | BundleDuplicate (kind what : string)
  | BundleIo.

Definition bundle_error_code (e : BundleError) : string :=
  match e with
  | NotABundle => "not_a_bundle"
  | UnsupportedVersion _ => "bundle_version_unsupported"
  | UnsupportedCompression _ => "bundle_compression_unsupported"
  | OverLimit _ _ => "bundle_too_large"
  | BundleTruncated => "bundle_truncated"
  | BundleMalformed _ => "bundle_malformed"
  | IdMismatch _ _ _ => "bundle_id_mismatch"
  | BundleDuplicate _ _ => "bundle_duplicate"
  | BundleIo => "bundle_io"
  end.

(** ** Writing *)

Section bundles.
Context `{CH : ContentHash, CS : CommitSerial, ZS : Zstd, SJ : Serde, TX : Text}.

(** What was written before the compressed stream, what the compressor was
    given, and the refs and shallow commits among it. *)
Record BundleWriter := {
  bw_header : string;
  bw_body : string;
  bw_refs : gset (string * string);
  bw_shallow : gset ObjectId;
}.

Abbreviation BW := (stateful BundleWriter BundleError).

Definition writer_new : BundleWriter := {|
  bw_header := MAGIC +:+ be_bytes 2 FORMAT_VERSION +:+ be_bytes 1 COMPRESSION_ZSTD +:+ be_bytes 1 0;
  bw_body := EmptyString; bw_refs := ∅; bw_shallow := ∅ |}.

Definition set_bw_body (w : BundleWriter) x := {|
  bw_header := bw_header w; bw_body := x; bw_refs := bw_refs w; bw_shallow := bw_shallow w |}.
Definition set_bw_refs (w : BundleWriter) x := {|
  bw_header := bw_header w; bw_body := bw_body w; bw_refs := x; bw_shallow := bw_shallow w |}.
Definition set_bw_shallow (w : BundleWriter) x := {|
  bw_header := bw_header w; bw_body := bw_body w; bw_refs := bw_refs w; bw_shallow := x |}.

Definition bw_record (kind : N) (payload : string) : BW () := λ w,
  if (u32_max <? slen payload)%N then (Err (OverLimit "bytes in one record" u32_max), w) else
  (Ok (), set_bw_body w (bw_body w +:+ be_bytes 1 kind +:+ be_bytes 4 (slen payload) +:+ payload)).

Definition put_str (s : string) : result BundleError string :=
  if (u16_max <? slen s)%N then Err (BundleMalformed ("name over " +:+ pretty u16_max +:+ " bytes"))
  else Ok (be_bytes 2 (slen s) +:+ s).

Definition ref_key (r : BundleRef) : string * string := (ns_name (br_namespace r), br_name r).
Definition ref_display (r : BundleRef) : string := ns_name (br_namespace r) +:+ "/" +:+ br_name r.

Definition write_ref (r : BundleRef) : BW () := λ w,
  if bool_decide (br_name r = EmptyString) then (Err (BundleMalformed "a ref needs a name"), w) else
  if decide (ref_key r ∈ bw_refs w) then (Err (BundleDuplicate "ref" (ref_display r)), w) else
  (ns ← lift (put_str (ns_name (br_namespace r)));
   name ← lift (put_str (br_name r));
   bw_record KIND_REF (ns +:+ name +:+ oid_bytes (br_target r)))
    (set_bw_refs w ({[ ref_key r ]} ∪ bw_refs w)).

Definition write_shallow (id : ObjectId) : BW () := λ w,
  if decide (id ∈ bw_shallow w) then (Ok (), w) else
  bw_record KIND_SHALLOW (oid_bytes id) (set_bw_shallow w ({[ id ]} ∪ bw_shallow w)).

Definition write_commit (c : Commit) : BW () :=
  json ← lift (map_err (λ e, BundleMalformed ("commit " +:+ oid_display (commit_id c) +:+ ": " +:+ e)) (commit_to_json c));
  bw_record KIND_COMMIT json.

Definition write_object (o : Object) : BW () :=
  let canonical := canonical_bytes o in
  bw_record KIND_OBJECT (oid_bytes (oid_hash canonical) +:+ canonical).

(** The header went out as it was made; the encoder adds its stream. *)
Definition writer_finish : BW string := λ w,
  match bw_record KIND_END EmptyString w with
  | (Err e, w') => (Err e, w')
  | (Ok _, w') => (Ok (bw_header w' +:+ zstd_encode (bw_body w')), w')
  end.

(** ** Reading *)

(** What the decoder has yet to yield, and how it ends. *)
Record BundleReader := {
  rd_rest : string;
  rd_end : DecodeEnd;
  rd_limits : BundleLimits;
  rd_uncompressed : N;
  rd_refs : gset (string * string);
  rd_shallow : gset ObjectId;
  rd_commits : N;
  rd_objects : N;
  rd_done : bool;
}.

Definition set_rd_rest (r : BundleReader) x := {|
  rd_rest := x; rd_end := rd_end r; rd_limits := rd_limits r; rd_uncompressed := rd_uncompressed r;
  rd_refs := rd_refs r; rd_shallow := rd_shallow r; rd_commits := rd_commits r; rd_objects := rd_objects r;
  rd_done := rd_done r |}.
Definition set_rd_uncompressed (r : BundleReader) x := {|
  rd_rest := rd_rest r; rd_end := rd_end r; rd_limits := rd_limits r; rd_uncompressed := x;
  rd_refs := rd_refs r; rd_shallow := rd_shallow r; rd_commits := rd_commits r; rd_objects := rd_objects r;
  rd_done := rd_done r |}.
Definition set_rd_refs (r : BundleReader) x := {|
  rd_rest := rd_rest r; rd_end := rd_end r; rd_limits := rd_limits r; rd_uncompressed := rd_uncompressed r;
  rd_refs := x; rd_shallow := rd_shallow r; rd_commits := rd_commits r; rd_objects := rd_objects r;
  rd_done := rd_done r |}.
Definition set_rd_shallow (r : BundleReader) x := {|
  rd_rest := rd_rest r; rd_end := rd_end r; rd_limits := rd_limits r; rd_uncompressed := rd_uncompressed r;
  rd_refs := rd_refs r; rd_shallow := x; rd_commits := rd_commits r; rd_objects := rd_objects r;
  rd_done := rd_done r |}.
Definition set_rd_commits (r : BundleReader) x := {|
  rd_rest := rd_rest r; rd_end := rd_end r; rd_limits := rd_limits r; rd_uncompressed := rd_uncompressed r;
  rd_refs := rd_refs r; rd_shallow := rd_shallow r; rd_commits := x; rd_objects := rd_objects r;
  rd_done := rd_done r |}.
Definition set_rd_objects (r : BundleReader) x := {|
  rd_rest := rd_rest r; rd_end := rd_end r; rd_limits := rd_limits r; rd_uncompressed := rd_uncompressed r;
  rd_refs := rd_refs r; rd_shallow := rd_shallow r; rd_commits := rd_commits r; rd_objects := x;
  rd_done := rd_done r |}.
Definition set_rd_done (r : BundleReader) x := {|
  rd_rest := rd_rest r; rd_end := rd_end r; rd_limits := rd_limits r; rd_uncompressed := rd_uncompressed r;
  rd_refs := rd_refs r; rd_shallow := rd_shallow r; rd_commits := rd_commits r; rd_objects := rd_objects r;
  rd_done := x |}.

Abbreviation BR := (stateful BundleReader BundleError).

(** The input behind [Capped]: what the limit lets through, and whether there
    is more. *)
Definition capped (limit : N) (input : string) : string * bool :=
  match split_at limit input with
  | Some (s, more) => (s, negb (bool_decide (more = EmptyString)))
  | None => (input, false)
  end.

Definition reader_new (input : string) (limits : BundleLimits) : result BundleError BundleReader :=
  let '(through, held_back) := capped (max_bytes limits) input in
  match split_at HEADER_LEN through with
  | None => if held_back then Err (OverLimit "bytes" (max_bytes limits)) else Err NotABundle
  | Some (header, rest) =>
      '(magic, h) ← ok_or NotABundle (split_at 4 header);
      if negb (bool_decide (magic = MAGIC)) then Err NotABundle else
      '(v, h) ← ok_or NotABundle (split_at 2 h);
      if negb (from_be v =? FORMAT_VERSION)%N then Err (UnsupportedVersion (from_be v)) else
      '(c, reserved) ← ok_or NotABundle (split_at 1 h);
      if negb (from_be c =? COMPRESSION_ZSTD)%N then Err (UnsupportedCompression (from_be c)) else
      if negb (from_be reserved =? 0)%N then Err (BundleMalformed "reserved header byte isn't 0") else
      let '(body, e) := zstd_decode rest held_back in
      Ok {| rd_rest := body; rd_end := e; rd_limits := limits; rd_uncompressed := 0; rd_refs := ∅;
            rd_shallow := ∅; rd_commits := 0; rd_objects := 0; rd_done := false |}
  end.

(** A read that finds less than it needs. *)
Definition io_error (r : BundleReader) : BundleError :=
  match rd_end r with
  | DecodeDone | DecodeCut => BundleTruncated
  | DecodeCapped => OverLimit "bytes" (max_bytes (rd_limits r))
  | DecodeFailed => BundleIo
  end.

(** [read_exact] into a buffer, and [take(len).read_to_end] with its check of
    the length, fail alike. *)
Definition read_body (n : N) : BR string := λ r,
  match split_at n (rd_rest r) with
  | Some (s, rest) => (Ok s, set_rd_rest r rest)
  | None => (Err (io_error r), r)
  end.

Definition parse_id (bytes what : string) : result BundleError ObjectId :=
  if (slen bytes =? 32)%N then Ok (Oid bytes)
  else Err (BundleMalformed ("a " +:+ what +:+ " needs a 32-byte id")).

Definition take_str (rest : string) : result BundleError (string * string) :=
  let short := BundleMalformed "a ref record ends early" in
  '(len, tail) ← ok_or short (split_at 2 rest);
  '(s, tail) ← ok_or short (split_at (from_be len) tail);
  if valid_utf8 s then Ok (s, tail) else Err (BundleMalformed "a ref name isn't UTF-8").

Definition namespace_error_display (e : NamespaceError) : string :=
  match e with
  | NsEmpty => "namespace name must not be empty"
  | NsTooLong n => "namespace name is too long (" +:+ pretty n +:+ " bytes, max " +:+ pretty MAX_NAMESPACE_LEN +:+ ")"
  | NsInvalidChars s => "namespace name contains invalid characters: " +:+ debug_str s +:+
      " (only ASCII alphanumerics, hyphens, and underscores are allowed)"
  end.

Definition parse_ref (payload : string) : result BundleError BundleRef :=
  '(ns, rest) ← take_str payload;
  '(name, rest) ← take_str rest;
  target ← parse_id rest "ref record";
  namespace ← map_err (λ e, BundleMalformed ("a ref's namespace: " +:+ namespace_error_display e)) (namespace_new ns);
  if bool_decide (name = EmptyString) then Err (BundleMalformed "a ref needs a name") else
  Ok {| br_namespace := namespace; br_name := name; br_target := target |}.

(** What becomes of a record's payload, by its kind. *)
Definition read_end (payload : string) : BR (option BundleRecord) := λ r,
  if negb (bool_decide (payload = EmptyString)) then (Err (BundleMalformed "the end record has a payload"), r) else
  if negb (bool_decide (rd_rest r = EmptyString)) then (Err (BundleMalformed "records follow the end record"), r) else
  match rd_end r with
  | DecodeDone => (Ok None, r)
  | _ => (Err (io_error r), r)
  end.

Definition read_ref (payload : string) : BR (option BundleRecord) :=
  b ← lift (parse_ref payload);
  action (λ r,
  if (max_refs (rd_limits r) <=? N.of_nat (size (rd_refs r)))%N then (Err (OverLimit "refs" (max_refs (rd_limits r))), r) else
  if decide (ref_key b ∈ rd_refs r) then (Err (BundleDuplicate "ref" (ref_display b)), r) else
  (Ok (Some (RecRef b)), set_rd_refs r ({[ ref_key b ]} ∪ rd_refs r))).

Definition read_shallow (payload : string) : BR (option BundleRecord) :=
  id ← lift (parse_id payload "shallow record");
  action (λ r,
  if (max_commits (rd_limits r) <=? N.of_nat (size (rd_shallow r)))%N
  then (Err (OverLimit "shallow commits" (max_commits (rd_limits r))), r) else
  if decide (id ∈ rd_shallow r) then (Err (BundleDuplicate "shallow commit" (oid_display id)), r) else
  (Ok (Some (RecShallow id)), set_rd_shallow r ({[ id ]} ∪ rd_shallow r))).

Definition read_commit (payload : string) : BR (option BundleRecord) := λ r,
  if (max_commits (rd_limits r) <=? rd_commits r)%N then (Err (OverLimit "commits" (max_commits (rd_limits r))), r) else
  (c ← lift (map_err (λ e, BundleMalformed ("a commit record: " +:+ e)) (commit_from_json payload));
   let actual := compute_id c in
   if decide (actual = commit_id c) then mret (Some (RecCommit c))
   else throw (IdMismatch "commit" (commit_id c) actual)) (set_rd_commits r (rd_commits r + 1)).

Definition read_object (payload : string) : BR (option BundleRecord) := λ r,
  if (max_objects (rd_limits r) <=? rd_objects r)%N then (Err (OverLimit "objects" (max_objects (rd_limits r))), r) else
  ('(id, json) ← lift (ok_or (BundleMalformed "an object record is shorter than its id") (split_at 32 payload));
   claimed ← lift (parse_id id "object record");
   o ← lift (map_err (λ e, BundleMalformed ("object " +:+ oid_display claimed +:+ ": " +:+ e)) (object_from_json json));
   let actual := oid_of o in
   if decide (actual = claimed) then mret (Some (RecObject claimed o))
   else throw (IdMismatch "object" claimed actual)) (set_rd_objects r (rd_objects r + 1)).

(** The length of a record against the limits; the sum saturates. *)
Definition count_record (len : N) : BR () := λ r,
  if (max_record_bytes (rd_limits r) <? len)%N
  then (Err (OverLimit "bytes in one record" (max_record_bytes (rd_limits r))), r) else
  let total := N.min u64_max (rd_uncompressed r + (5 + len)) in
  let r' := set_rd_uncompressed r total in
  if (max_uncompressed_bytes (rd_limits r) <? total)%N
  then (Err (OverLimit "uncompressed bytes" (max_uncompressed_bytes (rd_limits r))), r')
  else (Ok (), r').

Definition read_record : BR (option BundleRecord) :=
  kind ← read_body 1;
  len ← read_body 4;
  _ ← count_record (from_be len);
  payload ← read_body (from_be len);
  let kind := from_be kind in
  if (kind =? KIND_END)%N then read_end payload
  else if (kind =? KIND_REF)%N then read_ref payload
  else if (kind =? KIND_SHALLOW)%N then read_shallow payload
  else if (kind =? KIND_COMMIT)%N then read_commit payload
  else if (kind =? KIND_OBJECT)%N then read_object payload
  else throw (BundleMalformed ("unknown record kind " +:+ pretty kind)).

Definition next_record : BR (option BundleRecord) := λ r,
  if rd_done r then (Ok None, r) else
  match read_record r with
  | (Ok (Some x), r') => (Ok (Some x), r')
  | (res, r') => (res, set_rd_done r' true)
  end.

(** Every record in turn, folded into a result. *)
Fixpoint fold_records {A} (fuel : nat) (f : A → BundleRecord → A) (acc : A) : stateful BundleReader (stop BundleError) A :=
  match fuel with
  | 0 => throw OutOfFuel
  | S fuel' =>
      x ← map_err_st Fail next_record;
      match x with
      | None => mret acc
      | Some rec => fold_records fuel' f (f acc rec)
      end
  end.

Definition verify_rest (fuel : nat) : stateful BundleReader (stop BundleError) () :=
  fold_records fuel (λ u _, u) ().

(** ** A whole bundle *)

Record Bundle := {
  b_refs : list BundleRef;
  b_shallow : list ObjectId;
  b_commits : list Commit;
  b_objects : list Object;
}.

Definition bundle_empty : Bundle := {| b_refs := []; b_shallow := []; b_commits := []; b_objects := [] |}.

Definition add_record (b : Bundle) (x : BundleRecord) : Bundle :=
  match x with
  | RecRef r => {| b_refs := b_refs b ++ [r]; b_shallow := b_shallow b; b_commits := b_commits b; b_objects := b_objects b |}
  | RecShallow id => {| b_refs := b_refs b; b_shallow := b_shallow b ++ [id]; b_commits := b_commits b; b_objects := b_objects b |}
  | RecCommit c => {| b_refs := b_refs b; b_shallow := b_shallow b; b_commits := b_commits b ++ [c]; b_objects := b_objects b |}
  | RecObject _ o => {| b_refs := b_refs b; b_shallow := b_shallow b; b_commits := b_commits b; b_objects := b_objects b ++ [o] |}
  end.

Definition write_bundle (b : Bundle) : BW string :=
  _ ← for_each write_object (b_objects b);
  _ ← for_each write_commit (b_commits b);
  _ ← for_each write_shallow (b_shallow b);
  _ ← for_each write_ref (b_refs b);
  writer_finish.

Definition to_bytes (b : Bundle) : result BundleError string := (write_bundle b writer_new).1.

Definition from_bytes (bytes : string) (limits : BundleLimits) : result (stop BundleError) Bundle :=
  r ← map_err Fail (reader_new bytes limits);
  (fold_records (S (String.length (rd_rest r))) add_record bundle_empty r).1.

(** ** Bytes, in and out *)

Lemma slen_cons c s : slen (String c s) = (1 + slen s)%N.
Proof. unfold slen. simpl. lia. Qed.

Lemma slen_app s t : slen (s +:+ t) = (slen s + slen t)%N.
Proof. induction s as [|c s IH]; [done|]. rewrite string_app_cons !slen_cons IH. lia. Qed.

Lemma slen_0 s : slen s = 0%N ↔ s = EmptyString.
Proof. destruct s; [done|]. rewrite slen_cons. split; [lia|done]. Qed.

Lemma slen_be_bytes n v : slen (be_bytes n v) = N.of_nat n.
Proof.
  unfold be_bytes. enough (∀ s, slen (be_onto n v s) = (N.of_nat n + slen s)%N) as -> by by rewrite N.add_0_r.
  revert v. induction n as [|n IH]; intros v s; [done|]. cbn [be_onto]. rewrite IH slen_cons. lia.
Qed.

Lemma code_ascii_of_N v : (v < 256)%N → code (ascii_of_N v) = v.
Proof. intros Hv. by apply N_ascii_embedding. Qed.

Lemma from_be_bytes n v : (v < 256 ^ N.of_nat n)%N → from_be (be_bytes n v) = v.
Proof.
  unfold from_be, be_bytes. enough (∀ s, (v < 256 ^ N.of_nat n)%N → from_be_acc 0 (be_onto n v s) = from_be_acc v s) as H
    by apply H.
  revert v. induction n as [|n IH]; intros v s Hv; cbn [be_onto].
  { f_equal. simpl in Hv. lia. }
  rewrite Nat2N.inj_succ N.pow_succ_r' in Hv. rewrite IH; [|apply N.Div0.div_lt_upper_bound; lia].
  cbn [from_be_acc]. rewrite code_ascii_of_N; [|apply N.mod_lt; lia]. f_equal.
  pose proof (N.div_mod v 256). lia.
Qed.

Lemma code_lt c : (code c < 256)%N.
Proof. apply N_ascii_bounded. Qed.

Lemma be_bytes_from_be n s : slen s = N.of_nat n → be_bytes n (from_be s) = s ∧ (from_be s < 256 ^ N.of_nat n)%N.
Proof.
  intros Hs. assert (String.length s = n) as <- by (apply Nat2N.inj; exact Hs). clear Hs.
  assert (∀ acc m t, be_onto (String.length s + m) (from_be_acc acc s) t = be_onto m acc (s +:+ t) ∧
    (from_be_acc acc s < 256 ^ N.of_nat (String.length s) * (acc + 1))%N) as H.
  { induction s as [|c s IH]; intros acc m t; [split; [done|]; simpl; lia|].
    pose proof (code_lt c) as Hc. cbn [String.length from_be_acc]. split.
    - destruct (IH (acc * 256 + code c)%N (S m) t) as [IH' _].
      rewrite -plus_n_Sm in IH'. cbn [plus]. rewrite IH'. cbn [be_onto]. f_equal.
      + rewrite N.div_add_l; [|lia]. rewrite N.div_small; lia.
      + rewrite string_app_cons. f_equal. rewrite N.add_comm N.Div0.mod_add N.mod_small //. apply ascii_N_embedding.
    - destruct (IH (acc * 256 + code c)%N 0 t) as [_ IH']. rewrite Nat2N.inj_succ N.pow_succ_r'. nia. }
  destruct (H 0%N 0 EmptyString) as [H1 H2]. rewrite Nat.add_0_r string_app_nil_r in H1. split; [exact H1|].
  unfold from_be. lia.
Qed.

Lemma be_bytes_inj n v w :
  (v < 256 ^ N.of_nat n)%N → (w < 256 ^ N.of_nat n)%N → be_bytes n v = be_bytes n w → v = w.
Proof. intros Hv Hw Heq. by rewrite -(from_be_bytes n v Hv) -(from_be_bytes n w Hw) Heq. Qed.

Lemma split_at_Some n s a b : split_at n s = Some (a, b) ↔ s = a +:+ b ∧ slen a = n.
Proof.
  revert n a b. induction s as [|c s IH]; intros n a b; cbn [split_at]; destruct (N.eqb_spec n 0) as [->|Hn].
  - split; [by intros [= <- <-]|]. intros [Hs ->%slen_0]. by rewrite Hs.
  - split; [done|]. intros [Hs Ha]. destruct a; [by rewrite -Ha in Hn|done].
  - split; [by intros [= <- <-]|]. intros [Hs ->%slen_0]. by rewrite Hs.
  - destruct (split_at (n - 1) s) as [[x y]|] eqn:Hx; simpl.
    + apply IH in Hx as [-> Hx]. split.
      * intros [= <- <-]. split; [by rewrite string_app_cons|]. rewrite slen_cons. lia.
      * intros [Heq Ha]. destruct a as [|d a]; [by rewrite -Ha in Hn|]. rewrite string_app_cons in Heq.
        injection Heq as -> Heq. rewrite slen_cons in Ha. apply Plain.app_length_inj in Heq as [-> ->]; [done|].
        unfold slen in *. lia.
    + split; [done|]. intros [Heq Ha]. destruct a as [|d a]; [by rewrite -Ha in Hn|]. rewrite string_app_cons in Heq.
      injection Heq as -> Heq. rewrite slen_cons in Ha.
      assert (split_at (n - 1) s = Some (a, b)) as H; [|by rewrite Hx in H]. apply IH. split; [done|]. lia.
Qed.

Lemma split_at_app n a b : slen a = n → split_at n (a +:+ b) = Some (a, b).
Proof. intros Ha. by apply split_at_Some. Qed.

Lemma split_at_all s : split_at (slen s) s = Some (s, EmptyString).
Proof. apply split_at_Some. by rewrite string_app_nil_r. Qed.
(** ** Frames *)

(** A record on the wire. *)
Definition frame (kind : N) (payload : string) : string :=
  be_bytes 1 kind +:+ be_bytes 4 (slen payload) +:+ payload.
Definition frames (l : list (N * string)) : string := foldr (λ kp s, frame kp.1 kp.2 +:+ s) EmptyString l.
Definition end_frame : string := frame KIND_END EmptyString.

Lemma frames_app l1 l2 : frames (l1 ++ l2) = frames l1 +:+ frames l2.
Proof. induction l1 as [|x l1 IH]; [done|]. simpl. by rw IH string_app_assoc. Qed.

Lemma frames_cons k p l u : frames ((k, p) :: l) +:+ u = frame k p +:+ frames l +:+ u.
Proof. apply string_app_assoc. Qed.

Lemma slen_frame k p : slen (frame k p) = (5 + slen p)%N.
Proof. unfold frame. rewrite slen_app slen_be_bytes slen_app slen_be_bytes. lia. Qed.

Lemma frame_app k p u : frame k p +:+ u = be_bytes 1 k +:+ be_bytes 4 (slen p) +:+ p +:+ u.
Proof.
  assert (∀ a b c d, (a +:+ b +:+ c) +:+ d = a +:+ b +:+ c +:+ d) as H; [|apply H].
  intros. by rewrite !string_app_assoc.
Qed.

(** What the reader can make of a record's head. *)
Definition framed (kp : N * string) : Prop := (kp.1 < 256 ∧ slen kp.2 ≤ u32_max)%N.

Lemma record_frame_inj k p u k' p' u' :
  framed (k, p) → framed (k', p') → frame k p +:+ u = frame k' p' +:+ u' → k = k' ∧ p = p' ∧ u = u'.
Proof.
  rewrite !frame_app. unfold framed, u32_max. cbn [fst snd]. intros [Hk Hp] [Hk' Hp'] Heq.
  assert (∀ n v w, String.length (be_bytes n v) = String.length (be_bytes n w)) as Hlen.
  { intros n v w. apply Nat2N.inj. change (slen (be_bytes n v) = slen (be_bytes n w)). by rewrite !slen_be_bytes. }
  apply Plain.app_length_inj in Heq as [H1 Heq]; [|done]. apply Plain.app_length_inj in Heq as [H2 Heq]; [|done].
  apply be_bytes_inj in H1; [|simpl; lia..]. apply be_bytes_inj in H2; [|simpl; lia..].
  apply Plain.app_length_inj in Heq as [-> ->]; [done|]. unfold slen in H2. lia.
Qed.

(** No whole sequence of records is the beginning of another. *)
Lemma frames_prefix l1 l2 z :
  Forall framed l1 → Forall framed l2 → Forall (λ kp, kp.1 ≠ KIND_END) l1 → Forall (λ kp, kp.1 ≠ KIND_END) l2 →
  frames l1 +:+ end_frame +:+ z = frames l2 +:+ end_frame → z = EmptyString.
Proof.
  assert (framed (KIND_END, EmptyString)) as He by by split; vm_compute.
  revert l2. induction l1 as [|[k p] l1 IH]; intros [|[k' p'] l2] H1 H2 H3 H4 Heq;
    repeat match goal with H : Forall _ (_ :: _) |- _ => apply Forall_cons in H as [? ?] end; simpl fst in *;
    rewrite ?frames_cons in Heq.
  - change (end_frame +:+ z = end_frame) in Heq. rewrite -{2}(string_app_nil_r end_frame) in Heq.
    by apply record_frame_inj in Heq as (_ & _ & ?).
  - change (end_frame +:+ z = frame k' p' +:+ frames l2 +:+ end_frame) in Heq.
    apply record_frame_inj in Heq as (? & _ & _); [by subst|done|done].
  - change (frame k p +:+ frames l1 +:+ end_frame +:+ z = end_frame) in Heq.
    rewrite -{2}(string_app_nil_r end_frame) in Heq. apply record_frame_inj in Heq as (? & _ & _); [by subst|done|done].
  - apply record_frame_inj in Heq as (_ & _ & ?); [|done|done]. by apply (IH l2).
Qed.

(** ** What the reader returns *)

(** A record the reader has verified. *)
Definition verified (x : BundleRecord) : Prop :=
  match x with
  | RecRef r => valid_namespace (br_namespace r) ∧ br_name r ≠ EmptyString ∧ valid_utf8 (br_name r) ∧ valid_oid (br_target r)
  | RecShallow id => valid_oid id
  | RecCommit c => compute_id c = commit_id c
  | RecObject id o => oid_of o = id ∧ valid_oid id
  end.

(** What the payload of a record of this kind stands for. *)
Definition decodes (kp : N * string) (x : BundleRecord) : Prop :=
  match x with
  | RecRef r => kp.1 = KIND_REF ∧ parse_ref kp.2 = Ok r
  | RecShallow id => kp.1 = KIND_SHALLOW ∧ kp.2 = oid_bytes id
  | RecCommit c => kp.1 = KIND_COMMIT ∧ commit_from_json kp.2 = Ok c
  | RecObject id o => kp.1 = KIND_OBJECT ∧ ∃ json, kp.2 = oid_bytes id +:+ json ∧ object_from_json json = Ok o
  end.

(** The reader's tallies after a record, within its limits. *)
Definition tallied (x : BundleRecord) (r r' : BundleReader) : Prop :=
  let l := rd_limits r in
  match x with
  | RecRef b => ref_key b ∉ rd_refs r ∧ (N.of_nat (size (rd_refs r)) < max_refs l)%N ∧
      rd_refs r' = {[ ref_key b ]} ∪ rd_refs r ∧ rd_shallow r' = rd_shallow r ∧ rd_commits r' = rd_commits r ∧ rd_objects r' = rd_objects r
  | RecShallow id => id ∉ rd_shallow r ∧ (N.of_nat (size (rd_shallow r)) < max_commits l)%N ∧
      rd_refs r' = rd_refs r ∧ rd_shallow r' = {[ id ]} ∪ rd_shallow r ∧ rd_commits r' = rd_commits r ∧ rd_objects r' = rd_objects r
  | RecCommit _ => (rd_commits r < max_commits l)%N ∧
      rd_refs r' = rd_refs r ∧ rd_shallow r' = rd_shallow r ∧ rd_commits r' = (rd_commits r + 1)%N ∧ rd_objects r' = rd_objects r
  | RecObject _ _ => (rd_objects r < max_objects l)%N ∧
      rd_refs r' = rd_refs r ∧ rd_shallow r' = rd_shallow r ∧ rd_commits r' = rd_commits r ∧ rd_objects r' = (rd_objects r + 1)%N
  end.

(** What a record's payload changes in the reader: only the tallies. *)
Definition same_stream (r r' : BundleReader) : Prop :=
  rd_rest r' = rd_rest r ∧ rd_end r' = rd_end r ∧ rd_limits r' = rd_limits r ∧
  rd_uncompressed r' = rd_uncompressed r ∧ rd_done r' = rd_done r.

Lemma read_ref_ok payload r y r' :
  read_ref payload r = (Ok y, r') →
  ∃ b, y = Some (RecRef b) ∧ parse_ref payload = Ok b ∧ tallied (RecRef b) r r' ∧ same_stream r r'.
Proof.
  intros (b & r1 & [Hb ->]%lift_ok & Hrun)%stateful_bind_ok. exists b. unfold action in Hrun.
  destruct (N.leb_spec (max_refs (rd_limits r)) (N.of_nat (size (rd_refs r)))); [done|].
  case_decide; [done|]. injection Hrun as <- <-. by split_and!.
Qed.

Lemma read_shallow_ok payload r y r' :
  read_shallow payload r = (Ok y, r') →
  ∃ id, y = Some (RecShallow id) ∧ parse_id payload "shallow record" = Ok id ∧ tallied (RecShallow id) r r' ∧ same_stream r r'.
Proof.
  intros (b & r1 & [Hb ->]%lift_ok & Hrun)%stateful_bind_ok. exists b. unfold action in Hrun.
  destruct (N.leb_spec (max_commits (rd_limits r)) (N.of_nat (size (rd_shallow r)))); [done|].
  case_decide; [done|]. injection Hrun as <- <-. by split_and!.
Qed.

Lemma read_commit_ok payload r y r' :
  read_commit payload r = (Ok y, r') →
  ∃ c, y = Some (RecCommit c) ∧ decodes (KIND_COMMIT, payload) (RecCommit c) ∧ verified (RecCommit c) ∧
    tallied (RecCommit c) r r' ∧ same_stream r r'.
Proof.
  unfold read_commit. destruct (N.leb_spec (max_commits (rd_limits r)) (rd_commits r)); [done|].
  intros (c & r1 & [Hc%map_err_ok ->]%lift_ok & Hrun)%stateful_bind_ok. exists c.
  case_decide; [|done]. injection Hrun as <- <-. by split_and!.
Qed.

Lemma parse_id_ok bytes what id : parse_id bytes what = Ok id ↔ id = Oid bytes ∧ valid_oid id.
Proof.
  unfold parse_id, valid_oid. destruct (N.eqb_spec (slen bytes) 32) as [H|H]; split.
  - intros [= <-]. done.
  - by intros [-> _].
  - done.
  - by intros [-> ?].
Qed.

Lemma read_object_ok payload r y r' :
  read_object payload r = (Ok y, r') →
  ∃ id o, y = Some (RecObject id o) ∧ decodes (KIND_OBJECT, payload) (RecObject id o) ∧ verified (RecObject id o) ∧
    tallied (RecObject id o) r r' ∧ same_stream r r'.
Proof.
  unfold read_object. destruct (N.leb_spec (max_objects (rd_limits r)) (rd_objects r)); [done|].
  intros ([b json] & r1 & [[Hb _]%ok_or_ok%split_at_Some ->]%lift_ok & Hrun)%stateful_bind_ok.
  apply stateful_bind_ok in Hrun as (id & r1 & [[-> Hv]%parse_id_ok ->]%lift_ok & Hrun).
  apply stateful_bind_ok in Hrun as (o & r1 & [Ho%map_err_ok ->]%lift_ok & Hrun). exists (Oid b), o.
  case_decide; [|done]. injection Hrun as <- <-. split_and!; try done. split; [done|]. by exists json.
Qed.

Lemma take_str_ok rest s tail :
  take_str rest = Ok (s, tail) → valid_utf8 s ∧ ∃ len, rest = len +:+ s +:+ tail ∧ slen len = 2%N ∧ slen s = from_be len.
Proof.
  unfold take_str. intros ([len t] & [-> Hl]%ok_or_ok%split_at_Some & Hrun)%result_bind_ok.
  apply result_bind_ok in Hrun as ([s' tail'] & [-> Hs]%ok_or_ok%split_at_Some & Hrun).
  destruct (valid_utf8 s') eqn:Hv; [|done]. injection Hrun as <- <-. split; [by rewrite Hv|]. by exists len.
Qed.

Lemma namespace_new_ok s ns : namespace_new s = Ok ns → ns_name ns = s ∧ valid_namespace ns.
Proof.
  intros Hs. assert (ns = Ns s) as ->; [|by split].
  unfold namespace_new in Hs. case_bool_decide; [done|]. destruct (_ <? _)%N; [done|].
  destruct (negb _); [done|]. by injection Hs.
Qed.

Lemma parse_ref_ok payload b : parse_ref payload = Ok b → verified (RecRef b).
Proof.
  unfold parse_ref. intros ([ns rest] & _ & Hrun)%result_bind_ok.
  apply result_bind_ok in Hrun as ([name rest'] & [Hu _]%take_str_ok & Hrun).
  apply result_bind_ok in Hrun as (target & [-> Ht]%parse_id_ok & Hrun).
  apply result_bind_ok in Hrun as (n & [_ Hn]%map_err_ok%namespace_new_ok & Hrun).
  case_bool_decide; [done|]. by injection Hrun as <-.
Qed.
(** From one record to the next. *)
Record stepped (x : BundleRecord) (r r' : BundleReader) : Prop := {
  sp_verified : verified x;
  sp_tallied : tallied x r r';
  sp_frame : ∃ k p, framed (k, p) ∧ k ≠ KIND_END ∧ rd_rest r = frame k p +:+ rd_rest r' ∧
    decodes (k, p) x ∧ (slen p ≤ max_record_bytes (rd_limits r))%N ∧
    rd_uncompressed r' = N.min u64_max (rd_uncompressed r + slen (frame k p));
  sp_limit : (rd_uncompressed r' ≤ max_uncompressed_bytes (rd_limits r))%N;
  sp_end : rd_end r' = rd_end r;
  sp_limits : rd_limits r' = rd_limits r;
  sp_done : rd_done r' = false;
}.

Lemma read_body_ok n r s r' :
  read_body n r = (Ok s, r') ↔ rd_rest r = s +:+ rd_rest r' ∧ slen s = n ∧ r' = set_rd_rest r (rd_rest r').
Proof.
  unfold read_body. destruct (split_at n (rd_rest r)) as [[a b]|] eqn:Hs; split.
  - intros [= <- <-]. apply split_at_Some in Hs as [? ?]. done.
  - intros (Heq & Hl & ->). rewrite Heq split_at_app // in Hs. by injection Hs as <- <-.
  - done.
  - intros (Heq & Hl & _). by rewrite Heq split_at_app in Hs.
Qed.

Lemma count_record_ok len r r' :
  count_record len r = (Ok (), r') ↔
  (len ≤ max_record_bytes (rd_limits r))%N ∧ r' = set_rd_uncompressed r (N.min u64_max (rd_uncompressed r + (5 + len))) ∧
  (rd_uncompressed r' ≤ max_uncompressed_bytes (rd_limits r))%N.
Proof.
  unfold count_record. destruct (N.ltb_spec (max_record_bytes (rd_limits r)) len); [split; [done|lia]|].
  destruct (N.ltb_spec (max_uncompressed_bytes (rd_limits r)) (N.min u64_max (rd_uncompressed r + (5 + len)))) as [Hl|Hl].
  - split; [done|]. intros (_ & -> & H'). cbn [rd_uncompressed set_rd_uncompressed] in H'. lia.
  - split; [by intros [= <-]|]. by intros (_ & -> & _).
Qed.

(** The head of a record, its payload, and what is left. *)
Lemma read_record_head r y r' :
  read_record r = (Ok y, r') →
  ∃ k p r1, framed (k, p) ∧ rd_rest r = frame k p +:+ rd_rest r1 ∧ (slen p ≤ max_record_bytes (rd_limits r))%N ∧
    r1 = set_rd_uncompressed (set_rd_rest r (rd_rest r1)) (N.min u64_max (rd_uncompressed r + slen (frame k p))) ∧
    (rd_uncompressed r1 ≤ max_uncompressed_bytes (rd_limits r))%N ∧
    (if (k =? KIND_END)%N then read_end p
     else if (k =? KIND_REF)%N then read_ref p
     else if (k =? KIND_SHALLOW)%N then read_shallow p
     else if (k =? KIND_COMMIT)%N then read_commit p
     else if (k =? KIND_OBJECT)%N then read_object p
     else throw (BundleMalformed ("unknown record kind " +:+ pretty k))) r1 = (Ok y, r').
Proof.
  unfold read_record. intros (kb & r1 & (Hr & Hk & ->)%read_body_ok & Hrun)%stateful_bind_ok.
  apply stateful_bind_ok in Hrun as (lb & r2 & (Hr2 & Hl & ->)%read_body_ok & Hrun).
  apply stateful_bind_ok in Hrun as ([] & r3 & (Hm & -> & Hu)%count_record_ok & Hrun).
  apply stateful_bind_ok in Hrun as (p & r4 & (Hr4 & Hp & ->)%read_body_ok & Hrun).
  destruct (be_bytes_from_be 1 kb) as [Hkb Hk2]; [done|]. destruct (be_bytes_from_be 4 lb) as [Hlb Hl2]; [done|].
  cbn [rd_rest set_rd_rest set_rd_uncompressed rd_uncompressed rd_limits] in *.
  assert (rd_rest r = frame (from_be kb) p +:+ rd_rest r4) as Hf
    by by rewrite frame_app Hp Hkb Hlb Hr Hr2 Hr4.
  eexists (from_be kb), p, (set_rd_rest _ _). split_and!; [| | | | |exact Hrun].
  - split; simpl in *; [done|]. unfold u32_max. rewrite Hp. lia.
  - exact Hf.
  - by rewrite Hp.
  - by rewrite slen_frame Hp.
  - exact Hu.
Qed.

Lemma next_record_ok r x r' : next_record r = (Ok (Some x), r') → stepped x r r'.
Proof.
  unfold next_record. destruct (rd_done r) eqn:Hd; [done|].
  destruct (read_record r) as [[[y|]|e] r2] eqn:Hrun; intros [= -> ->].
  apply read_record_head in Hrun as (k & p & r1 & Hfr & Hr & Hmax & Hr1 & Hu & Hrun).
  assert (k ≠ KIND_END) as Hk.
  { intros ->. cbn in Hrun. unfold read_end in Hrun. repeat case_match; simplify_eq. }
  assert (decodes (k, p) x ∧ verified x ∧ tallied x r1 r' ∧ same_stream r1 r') as (Hdec & Hv & Ht & Hs).
  { destruct (N.eqb_spec k KIND_END); [done|]. destruct (N.eqb_spec k KIND_REF).
    { apply read_ref_ok in Hrun as (b & [= ->] & Hb & ? & ?). by pose proof (parse_ref_ok _ _ Hb). }
    destruct (N.eqb_spec k KIND_SHALLOW).
    { apply read_shallow_ok in Hrun as (b & [= ->] & [-> Hb]%parse_id_ok & ? & ?). done. }
    destruct (N.eqb_spec k KIND_COMMIT).
    { apply read_commit_ok in Hrun as (b & [= ->] & ? & ? & ? & ?). by subst k. }
    destruct (N.eqb_spec k KIND_OBJECT); [|done].
    apply read_object_ok in Hrun as (i & o & [= ->] & ? & ? & ? & ?). by subst k. }
  destruct Hs as (Hs1 & Hs2 & Hs3 & Hs4 & Hs5).
  split; [done| | |congruence|..].
  - rewrite Hr1 in Ht. by destruct x.
  - exists k, p. split_and!; [done|done|by rewrite Hs1|done|done|]. rewrite Hs4 Hr1. done.
  - by rewrite Hs2 Hr1.
  - by rewrite Hs3 Hr1.
  - by rewrite Hs5 Hr1.
Qed.

Lemma next_record_end r r' : next_record r = (Ok None, r') → rd_done r = false →
  rd_rest r = end_frame ∧ rd_end r = DecodeDone ∧
  (N.min u64_max (rd_uncompressed r + 5) ≤ max_uncompressed_bytes (rd_limits r))%N.
Proof.
  unfold next_record. intros Hrun Hd. rewrite Hd in Hrun.
  destruct (read_record r) as [[[y|]|e] r2] eqn:Hrd; simplify_eq.
  apply read_record_head in Hrd as (k & p & r1 & Hfr & Hr & _ & Hr1 & Hu & Hrd).
  destruct (N.eqb_spec k KIND_END) as [->|].
  - unfold read_end in Hrd. case_bool_decide as Hp; simpl in Hrd; [|done]. case_bool_decide as Hr'; simpl in Hrd; [|done].
    subst p. rewrite Hr Hr' string_app_nil_r. split_and!; [done| |].
    + rewrite Hr1 in Hrd. cbn in Hrd. by destruct (rd_end r).
    + rewrite Hr1 in Hu. exact Hu.
  - exfalso. destruct (N.eqb_spec k KIND_REF); [by apply read_ref_ok in Hrd as (? & ? & _)|].
    destruct (N.eqb_spec k KIND_SHALLOW); [by apply read_shallow_ok in Hrd as (? & ? & _)|].
    destruct (N.eqb_spec k KIND_COMMIT); [by apply read_commit_ok in Hrd as (? & ? & _)|].
    destruct (N.eqb_spec k KIND_OBJECT); [by apply read_object_ok in Hrd as (? & ? & ? & _)|done].
Qed.
(** Several records, one after the other. *)
Inductive reads : BundleReader → list BundleRecord → BundleReader → Prop :=
  | reads_nil r : reads r [] r
  | reads_cons x l r r1 r' : stepped x r r1 → reads r1 l r' → reads r (x :: l) r'.

Lemma fold_records_ok {A} fuel (f : A → BundleRecord → A) acc r b r' :
  rd_done r = false → fold_records fuel f acc r = (Ok b, r') →
  ∃ l r1, reads r l r1 ∧ b = foldl f acc l ∧ rd_rest r1 = end_frame ∧ rd_end r1 = DecodeDone ∧
    (N.min u64_max (rd_uncompressed r1 + 5) ≤ max_uncompressed_bytes (rd_limits r1))%N.
Proof.
  revert acc r. induction fuel as [|fuel IH]; intros acc r Hd; [done|]. cbn [fold_records].
  intros (x & r1 & Hx%map_err_st_ok & Hrun)%stateful_bind_ok. destruct x as [x|].
  - apply next_record_ok in Hx. destruct (IH (f acc x) r1 (sp_done _ _ _ Hx) Hrun) as (l & r2 & Hl & Hb & Hr).
    exists (x :: l), r2. split_and!; [by econstructor|done|by apply Hr..].
  - injection Hrun as <- <-. apply next_record_end in Hx; [|done]. exists [], r. split_and!; [constructor|done|by apply Hx..].
Qed.

Lemma fold_records_fuel {A} fuel (f : A → BundleRecord → A) acc r :
  String.length (rd_rest r) < fuel → (fold_records fuel f acc r).1 ≠ Err OutOfFuel.
Proof.
  revert acc r. induction fuel as [|fuel IH]; intros acc r Hf; [lia|]. cbn [fold_records].
  unfold mbind, stateful_bind, map_err_st. destruct (next_record r) as [[[x|]|e] r1] eqn:Hx; [|done|done].
  apply IH. apply next_record_ok in Hx. destruct (sp_frame _ _ _ Hx) as (k & p & _ & _ & Hr & _).
  apply (f_equal slen) in Hr. rewrite slen_app slen_frame in Hr. unfold slen in Hr. lia.
Qed.

Lemma reads_frames r l r1 :
  reads r l r1 → ∃ kps, Forall framed kps ∧ Forall (λ kp, kp.1 ≠ KIND_END) kps ∧ rd_rest r = frames kps +:+ rd_rest r1 ∧
    Forall2 decodes kps l ∧ Forall (λ kp, slen kp.2 ≤ max_record_bytes (rd_limits r))%N kps ∧ rd_end r1 = rd_end r ∧ rd_limits r1 = rd_limits r ∧
    (rd_uncompressed r1 < u64_max → rd_uncompressed r1 = rd_uncompressed r + slen (frames kps))%N.
Proof.
  induction 1 as [r|x l r r1 r' Hs _ IH].
  { exists []. split_and!; [constructor|constructor|done|constructor|constructor|done|done|by rewrite N.add_0_r]. }
  destruct IH as (kps & H1 & H2 & H3 & Hd & Hm & H4 & H5 & H6), Hs as [_ _ (k & p & Hf & Hk & Hr & Hdec & Hmax & Hu) Hl He Hlim _].
  rewrite Hlim in Hm. exists ((k, p) :: kps).
  split_and!; [by constructor|by constructor| |by constructor|by constructor|congruence|congruence|].
  - rewrite frames_cons Hr H3. done.
  - intros Hlt. assert (rd_uncompressed r1 < u64_max)%N as Hlt1 by (specialize (H6 Hlt); lia).
    rewrite H6 // Hu. cbn [frames foldr fst snd]. rewrite slen_app. change (foldr _ _ kps) with (frames kps). lia.
Qed.
(** What the reader has counted is what the bundle holds. *)
Record tally_ok (limits : BundleLimits) (b : Bundle) (r : BundleReader) : Prop := {
  ta_limits : rd_limits r = limits;
  ta_refs : rd_refs r = list_to_set (ref_key <$> b_refs b);
  ta_refs_nodup : NoDup (ref_key <$> b_refs b);
  ta_refs_max : (N.of_nat (length (b_refs b)) ≤ max_refs limits)%N;
  ta_shallow : rd_shallow r = list_to_set (b_shallow b);
  ta_shallow_nodup : NoDup (b_shallow b);
  ta_shallow_max : (N.of_nat (length (b_shallow b)) ≤ max_commits limits)%N;
  ta_commits : rd_commits r = N.of_nat (length (b_commits b));
  ta_commits_max : (rd_commits r ≤ max_commits limits)%N;
  ta_objects : rd_objects r = N.of_nat (length (b_objects b));
  ta_objects_max : (rd_objects r ≤ max_objects limits)%N;
}.

Lemma NoDup_snoc {A} (l : list A) x : NoDup l → x ∉ l → NoDup (l ++ [x]).
Proof. intros Hl Hx. apply NoDup_app. split_and!; [done| |apply NoDup_singleton]. by intros y Hy ->%list_elem_of_singleton. Qed.

Lemma tally_step limits b x r r' : tally_ok limits b r → stepped x r r' → tally_ok limits (add_record b x) r'.
Proof.
  intros [Tl Tr Trn Trm Ts Tsn Tsm Tc Tcm To Tom] [_ Ht _ _ _ Hl _].
  assert (rd_limits r' = limits) as Hl' by congruence. destruct x as [e|i|c|i o]; simpl in Ht; rewrite Tl in Ht.
  - destruct Ht as (Hn & Hm & Hr & Hs & Hc & Ho). rewrite Tr size_list_to_set // length_fmap in Hm.
    rewrite Tr elem_of_list_to_set in Hn. split; simpl; rewrite ?fmap_app ?length_app ?Hr ?Hs ?Hc ?Ho; try done.
    + rewrite Tr list_to_set_app_L /=. set_solver.
    + by apply NoDup_snoc.
    + simpl. lia.
  - destruct Ht as (Hn & Hm & Hr & Hs & Hc & Ho). rewrite Ts size_list_to_set // in Hm.
    rewrite Ts elem_of_list_to_set in Hn. split; simpl; rewrite ?length_app ?Hr ?Hs ?Hc ?Ho; try done.
    + rewrite Ts list_to_set_app_L /=. set_solver.
    + by apply NoDup_snoc.
    + simpl. lia.
  - destruct Ht as (Hm & Hr & Hs & Hc & Ho). split; simpl; rewrite ?length_app ?Hr ?Hs ?Hc ?Ho; try done; simpl; lia.
  - destruct Ht as (Hm & Hr & Hs & Hc & Ho). split; simpl; rewrite ?length_app ?Hr ?Hs ?Hc ?Ho; try done; simpl; lia.
Qed.

(** The records of a bundle, in the order it is written. *)
Definition records_of (b : Bundle) : list BundleRecord :=
  ((λ o, RecObject (oid_of o) o) <$> b_objects b) ++ (RecCommit <$> b_commits b) ++
  (RecShallow <$> b_shallow b) ++ (RecRef <$> b_refs b).

Lemma reads_tally limits b l r r' :
  reads r l r' → tally_ok limits b r → Forall verified (records_of b) →
  tally_ok limits (foldl add_record b l) r' ∧ Forall verified (records_of (foldl add_record b l)).
Proof.
  intros Hr. revert b. induction Hr as [r|x l r r1 r' Hs _ IH]; intros b Ht Hb; [done|]. simpl. apply IH.
  - by eapply tally_step.
  - destruct Hs as [Hv _ _ _ _ _ _]. unfold records_of in *.
    destruct x as [e|i|c|i o]; simpl in *; rewrite ?fmap_app !Forall_app in Hb |- *; simpl; rewrite ?Forall_singleton;
      [naive_solver..|]. destruct Hv as [<- ?]. naive_solver.
Qed.

Lemma reader_new_ok bytes limits r :
  reader_new bytes limits = Ok r →
  ∃ rest held, capped (max_bytes limits) bytes = (bw_header writer_new +:+ rest, held) ∧
    r = {| rd_rest := (zstd_decode rest held).1; rd_end := (zstd_decode rest held).2; rd_limits := limits;
           rd_uncompressed := 0; rd_refs := ∅; rd_shallow := ∅; rd_commits := 0; rd_objects := 0; rd_done := false |}.
Proof.
  unfold reader_new. destruct (capped _ _) as [through held] eqn:Hc.
  destruct (split_at HEADER_LEN through) as [[header rest]|] eqn:Hs; [|by case_match].
  apply split_at_Some in Hs as [-> Hh]. intros ([magic h1] & [-> Hm]%ok_or_ok%split_at_Some & Hrun)%result_bind_ok.
  case_bool_decide as Hmagic; [|done]. simpl in Hrun.
  apply result_bind_ok in Hrun as ([v h2] & [-> Hv]%ok_or_ok%split_at_Some & Hrun).
  destruct (N.eqb_spec (from_be v) FORMAT_VERSION) as [Hv1|]; [|done]. simpl in Hrun.
  apply result_bind_ok in Hrun as ([c h3] & [-> Hcl]%ok_or_ok%split_at_Some & Hrun).
  destruct (N.eqb_spec (from_be c) COMPRESSION_ZSTD) as [Hc1|]; [|done]. simpl in Hrun.
  destruct (N.eqb_spec (from_be h3) 0) as [Hz|]; [|done]. simpl in Hrun. exists rest, held.
  assert (slen h3 = 1%N) as Hl3 by (rewrite !slen_app Hm Hv Hcl in Hh; unfold HEADER_LEN in Hh; lia).
  destruct (be_bytes_from_be 2 v Hv) as [<- _], (be_bytes_from_be 1 c Hcl) as [<- _], (be_bytes_from_be 1 h3 Hl3) as [<- _].
  rewrite Hmagic Hv1 Hc1 Hz. split; [done|]. destruct (zstd_decode rest held) as [body e]. by injection Hrun.
Qed.

(** What [from_bytes] accepts. *)
Record accepted (limits : BundleLimits) (b : Bundle) : Prop := {
  ac_verified : Forall verified (records_of b);
  ac_refs : NoDup (ref_key <$> b_refs b);
  ac_shallow : NoDup (b_shallow b);
  ac_max_refs : (N.of_nat (length (b_refs b)) ≤ max_refs limits)%N;
  ac_max_shallow : (N.of_nat (length (b_shallow b)) ≤ max_commits limits)%N;
  ac_max_commits : (N.of_nat (length (b_commits b)) ≤ max_commits limits)%N;
  ac_max_objects : (N.of_nat (length (b_objects b)) ≤ max_objects limits)%N;
}.

Lemma from_bytes_accepts bytes limits b :
  from_bytes bytes limits = Ok b →
  accepted limits b ∧ ∃ rest held kps,
    capped (max_bytes limits) bytes = (bw_header writer_new +:+ rest, held) ∧
    zstd_decode rest held = (frames kps +:+ end_frame, DecodeDone) ∧ Forall framed kps ∧
    Forall (λ kp, kp.1 ≠ KIND_END) kps ∧
    (∃ l, b = foldl add_record bundle_empty l ∧ Forall2 decodes kps l) ∧
    Forall (λ kp, slen kp.2 ≤ max_record_bytes limits)%N kps ∧
    (max_uncompressed_bytes limits < u64_max → slen (frames kps +:+ end_frame) ≤ max_uncompressed_bytes limits)%N.
Proof.
  unfold from_bytes. intros (r & (rest & held & Hc & ->)%map_err_ok%reader_new_ok & Hrun)%result_bind_ok.
  cbn [rd_rest] in Hrun. set (r := {| rd_rest := _ |}) in Hrun.
  destruct (fold_records _ _ _ _) as [res r'] eqn:Hf. simpl in Hrun. subst res.
  apply fold_records_ok in Hf as (l & r1 & Hl & -> & Hend & Hdone & Hu); [|done]. split.
  - destruct (reads_tally limits bundle_empty l r r1 Hl) as [Ht Hv]; [by split; simpl; try constructor; try lia|constructor|].
    destruct Ht. split; [done..| |]; congruence.
  - apply reads_frames in Hl as (kps & Hk & Hk' & Hr & Hdec & Hmax & He & Hlim & Hunc). exists rest, held, kps.
    split_and!; [done| |done|done|by exists l|done|].
    + rewrite -Hend -Hr -Hdone He. by destruct (zstd_decode rest held).
    + intros Hlt. rewrite Hlim in Hu. cbn [rd_limits rd_uncompressed r] in Hu, Hunc.
      assert (slen end_frame = 5%N) as He5 by apply slen_frame. rewrite slen_app He5.
      assert (rd_uncompressed r1 < u64_max)%N as Hlt1 by (simpl in Hu; lia). rewrite Hunc // in Hu. simpl in Hu. lia.
Qed.
(** ** What the writer writes *)

(** Whole records were added, none of them the end. *)
Definition extends (w w' : BundleWriter) : Prop :=
  bw_header w' = bw_header w ∧
  ∃ kps, Forall framed kps ∧ Forall (λ kp, kp.1 ≠ KIND_END) kps ∧ bw_body w' = bw_body w +:+ frames kps.

#[export] Instance extends_preorder : PreOrder extends.
Proof.
  split.
  - intros w. split; [done|]. exists []. split_and!; [constructor|constructor|by rewrite string_app_nil_r].
  - intros w1 w2 w3 [Hh (k1 & ? & ? & Hb)] [Hh' (k2 & ? & ? & Hb')]. split; [congruence|].
    exists (k1 ++ k2). split_and!; [by apply Forall_app|by apply Forall_app|].
    by rewrite frames_app Hb' Hb string_app_assoc.
Qed.

Lemma bw_record_ok k p w w' : bw_record k p w = (Ok (), w') ↔
  (slen p ≤ u32_max)%N ∧ w' = set_bw_body w (bw_body w +:+ frame k p).
Proof.
  unfold bw_record. destruct (N.ltb_spec u32_max (slen p)).
  - split; [done|]. intros [? _]. lia.
  - split; [by intros [= <-]|by intros [_ ->]].
Qed.

Lemma bw_record_extends k p w w' :
  (k < 256)%N → k ≠ KIND_END → bw_record k p w = (Ok (), w') → extends w w'.
Proof.
  intros Hk Hn [Hp ->]%bw_record_ok. split; [done|]. exists [(k, p)].
  split_and!; [by repeat constructor|by repeat constructor|]. simpl. by rewrite string_app_nil_r.
Qed.

Lemma for_each_extends {A} (f : A → BW ()) l w w' :
  (∀ x w w', f x w = (Ok (), w') → extends w w') → for_each f l w = (Ok (), w') → extends w w'.
Proof.
  intros Hf. revert w. induction l as [|x l IH]; intros w; simpl; [by intros [= <-]|].
  intros ([] & w1 & Hx%Hf & Hrun%IH)%stateful_bind_ok. by trans w1.
Qed.

Lemma write_object_extends o w w' : write_object o w = (Ok (), w') → extends w w'.
Proof. by apply bw_record_extends. Qed.

Lemma write_commit_extends c w w' : write_commit c w = (Ok (), w') → extends w w'.
Proof. intros (json & w1 & [_ ->]%lift_ok & Hrun)%stateful_bind_ok. by apply bw_record_extends in Hrun. Qed.

Lemma write_shallow_extends i w w' : write_shallow i w = (Ok (), w') → extends w w'.
Proof. unfold write_shallow. case_decide; [by intros [= <-]|]. intros Hrun. by apply bw_record_extends in Hrun. Qed.

Lemma write_ref_extends r w w' : write_ref r w = (Ok (), w') → extends w w'.
Proof.
  unfold write_ref. case_bool_decide; [done|]. case_decide; [done|].
  intros (ns & w1 & [_ ->]%lift_ok & Hrun)%stateful_bind_ok.
  apply stateful_bind_ok in Hrun as (name & w1 & [_ ->]%lift_ok & Hrun). by apply bw_record_extends in Hrun.
Qed.

Lemma to_bytes_ok b bytes :
  to_bytes b = Ok bytes →
  ∃ kps, Forall framed kps ∧ Forall (λ kp, kp.1 ≠ KIND_END) kps ∧
    bytes = bw_header writer_new +:+ zstd_encode (frames kps +:+ end_frame).
Proof.
  unfold to_bytes. destruct (write_bundle b writer_new) as [res w] eqn:Hrun.
  simpl. intros ->. unfold write_bundle in Hrun. apply stateful_bind_ok in Hrun as ([] & w1 & H1 & Hrun).
  apply (for_each_extends _ _ _ _ write_object_extends) in H1.
  apply stateful_bind_ok in Hrun as ([] & w2 & H2 & Hrun).
  apply (for_each_extends _ _ _ _ write_commit_extends) in H2.
  apply stateful_bind_ok in Hrun as ([] & w3 & H3 & Hrun).
  apply (for_each_extends _ _ _ _ write_shallow_extends) in H3.
  apply stateful_bind_ok in Hrun as ([] & w4 & H4 & Hrun).
  apply (for_each_extends _ _ _ _ write_ref_extends) in H4.
  assert (extends writer_new w4) as [Hh (kps & ? & ? & Hb)] by (trans w1; [done|]; trans w2; [done|]; by trans w3).
  unfold writer_finish in Hrun. destruct (bw_record KIND_END EmptyString w4) as [[[]|e] w5] eqn:He; [|done].
  apply bw_record_ok in He as [_ ->]. injection Hrun as <- _. exists kps. split_and!; [done|done|].
  cbn [bw_header set_bw_body bw_body]. by rewrite Hh Hb.
Qed.

(** ** What is written is read *)

Definition enc_ref (r : BundleRef) : string :=
  (be_bytes 2 (slen (ns_name (br_namespace r))) +:+ ns_name (br_namespace r)) +:+
  (be_bytes 2 (slen (br_name r)) +:+ br_name r) +:+ oid_bytes (br_target r).

Definition encode_record (x : BundleRecord) : N * string :=
  match x with
  | RecRef r => (KIND_REF, enc_ref r)
  | RecShallow id => (KIND_SHALLOW, oid_bytes id)
  | RecCommit c => (KIND_COMMIT, match commit_to_json c with Ok json => json | Err _ => EmptyString end)
  | RecObject id o => (KIND_OBJECT, oid_bytes id +:+ canonical_bytes o)
  end.

(** A record that survives its encoding: valid, and its JSON reads back. *)
Definition encodable (x : BundleRecord) : Prop :=
  verified x ∧ framed (encode_record x) ∧
  match x with
  | RecRef r => (slen (br_name r) ≤ u16_max)%N
  | RecShallow _ => True
  | RecCommit c => ∃ json, commit_to_json c = Ok json ∧ commit_from_json json = Ok c
  | RecObject _ o => object_from_json (canonical_bytes o) = Ok o
  end.

Lemma put_str_ok s : (slen s ≤ u16_max)%N → put_str s = Ok (be_bytes 2 (slen s) +:+ s).
Proof. intros Hs. unfold put_str. destruct (N.ltb_spec u16_max (slen s)); [lia|done]. Qed.

Lemma take_put_str s rest :
  (slen s ≤ u16_max)%N → valid_utf8 s → take_str ((be_bytes 2 (slen s) +:+ s) +:+ rest) = Ok (s, rest).
Proof.
  intros Hs Hu. unfold take_str. rewrite string_app_assoc. rewrite split_at_app; [|apply slen_be_bytes].
  cbn [mbind result_bind ok_or]. rewrite from_be_bytes; [|unfold u16_max in Hs; simpl; lia].
  rewrite split_at_app //. cbn [mbind result_bind ok_or]. by rewrite (Is_true_true_1 _ Hu).
Qed.

Lemma ascii_utf8 s : str_forall (between 0 0x7F) s → valid_utf8 s.
Proof. induction s as [|c s IH]; [done|]. cbn [str_forall valid_utf8]. intros [Hc Hs]%andb_True. rewrite (Is_true_true_1 _ Hc). by apply IH. Qed.
Lemma namespace_ascii ns : valid_namespace ns → (slen (ns_name ns) ≤ u16_max)%N ∧ valid_utf8 (ns_name ns).
Proof.
  unfold valid_namespace, namespace_new. case_bool_decide; [done|].
  destruct (N.ltb_spec MAX_NAMESPACE_LEN (slen (ns_name ns))); [done|].
  destruct (str_forall ns_char (ns_name ns)) eqn:Hc; [|done]. intros _.
  split; [unfold u16_max, MAX_NAMESPACE_LEN in *; lia|]. apply ascii_utf8.
  clear -Hc. induction (ns_name ns) as [|c s IH]; [done|]. cbn [str_forall] in *.
  apply andb_true_iff in Hc as [Hc Hs]. apply andb_True. split; [|by apply IH].
  clear -Hc. destruct c as [[] [] [] [] [] [] [] []]; by vm_compute in Hc |- *.
Qed.

Lemma parse_enc_ref r : encodable (RecRef r) → parse_ref (enc_ref r) = Ok r.
Proof.
  intros ((Hns & Hne & Hu & Ht) & _ & Hn). destruct (namespace_ascii _ Hns) as [Hl Hu'].
  unfold parse_ref, enc_ref. rewrite (take_put_str _ _ Hl Hu'). cbn [mbind result_bind].
  rewrite (take_put_str _ _ Hn Hu). cbn [mbind result_bind].
  assert (parse_id (oid_bytes (br_target r)) "ref record" = Ok (br_target r)) as ->
    by (apply parse_id_ok; by destruct (br_target r)).
  cbn [mbind result_bind]. rewrite Hns. cbn [mbind result_bind map_err]. rewrite bool_decide_false //. by destruct r.
Qed.

(** The reader has room for one more of its kind. *)
Definition room (x : BundleRecord) (r : BundleReader) : Prop :=
  match x with
  | RecRef b => ref_key b ∉ rd_refs r ∧ (N.of_nat (size (rd_refs r)) < max_refs (rd_limits r))%N
  | RecShallow id => id ∉ rd_shallow r ∧ (N.of_nat (size (rd_shallow r)) < max_commits (rd_limits r))%N
  | RecCommit _ => (rd_commits r < max_commits (rd_limits r))%N
  | RecObject _ _ => (rd_objects r < max_objects (rd_limits r))%N
  end.

(** A record of this size is within the limits. *)
Definition counts (k : N) (p : string) (r : BundleReader) : Prop :=
  (slen p ≤ max_record_bytes (rd_limits r) ∧
   N.min u64_max (rd_uncompressed r + slen (frame k p)) ≤ max_uncompressed_bytes (rd_limits r))%N.

Lemma read_frame k p rest r :
  framed (k, p) → rd_rest r = frame k p +:+ rest → counts k p r →
  read_record r =
    (if (k =? KIND_END)%N then read_end p
     else if (k =? KIND_REF)%N then read_ref p
     else if (k =? KIND_SHALLOW)%N then read_shallow p
     else if (k =? KIND_COMMIT)%N then read_commit p
     else if (k =? KIND_OBJECT)%N then read_object p
     else throw (BundleMalformed ("unknown record kind " +:+ pretty k)))
    (set_rd_uncompressed (set_rd_rest r rest) (N.min u64_max (rd_uncompressed r + slen (frame k p)))).
Proof.
  intros [Hk Hp] Hr [Hm Hu]. simpl in Hk, Hp. rewrite frame_app in Hr. unfold read_record.
  rewrite (stateful_seq _ _ r (be_bytes 1 k) (set_rd_rest r (be_bytes 4 (slen p) +:+ p +:+ rest)));
    [|apply read_body_ok; split_and!; [exact Hr|apply slen_be_bytes|done]].
  rewrite (stateful_seq _ _ _ (be_bytes 4 (slen p)) (set_rd_rest r (p +:+ rest)));
    [|apply read_body_ok; split_and!; [done|apply slen_be_bytes|done]].
  assert (from_be (be_bytes 4 (slen p)) = slen p) as Hlen by (apply from_be_bytes; unfold u32_max in Hp; simpl; lia).
  rewrite slen_frame in Hu |- *.
  rewrite (stateful_seq _ _ _ () (set_rd_uncompressed (set_rd_rest r (p +:+ rest)) (N.min u64_max (rd_uncompressed r + (5 + slen p)))));
    [|apply count_record_ok; by rewrite Hlen].
  rewrite (stateful_seq _ _ _ p (set_rd_uncompressed (set_rd_rest r rest) (N.min u64_max (rd_uncompressed r + (5 + slen p)))));
    [|apply read_body_ok; by rewrite Hlen].
  assert (from_be (be_bytes 1 k) = k) as -> by (apply from_be_bytes; simpl; lia). done.
Qed.

Lemma read_encoded x k p rest r :
  encodable x → encode_record x = (k, p) → rd_done r = false → rd_rest r = frame k p +:+ rest →
  counts k p r → room x r → ∃ r', next_record r = (Ok (Some x), r') ∧ rd_rest r' = rest.
Proof.
  intros Hx He Hd Hr Hc Hroom. assert (framed (k, p)) as Hf by (rewrite -He; apply Hx).
  unfold next_record. rewrite Hd (read_frame k p rest r Hf Hr Hc). clear Hr Hc Hd.
  set (r1 := set_rd_uncompressed _ _). assert (room x r1) as Hroom1 by by destruct x.
  assert (rd_rest r1 = rest) as Hrest by done. clearbody r1. subst rest. clear Hroom r.
  destruct x as [b|i|c|i o]; simpl in He; injection He as <- <-; cbn [N.eqb Pos.eqb KIND_END KIND_REF KIND_SHALLOW KIND_COMMIT KIND_OBJECT].
  - unfold read_ref. rewrite (parse_enc_ref b Hx). destruct Hroom1 as [Hk Hs].
    unfold mbind, stateful_bind, lift, action. apply N.leb_gt in Hs. rewrite Hs decide_False //. by eexists.
  - unfold read_shallow. destruct Hroom1 as [Hk Hs]. destruct Hx as [Hv _].
    assert (parse_id (oid_bytes i) "shallow record" = Ok i) as -> by (apply parse_id_ok; by destruct i).
    unfold mbind, stateful_bind, lift, action. apply N.leb_gt in Hs. rewrite Hs decide_False //. by eexists.
  - unfold read_commit. destruct Hx as (Hv & _ & json & -> & Hj). apply N.leb_gt in Hroom1.
    unfold mbind, stateful_bind, lift. rewrite Hroom1 Hj /=. rewrite decide_True //. by eexists.
  - unfold read_object. destruct Hx as ((Hv & Hi) & _ & Hj). apply N.leb_gt in Hroom1.
    unfold mbind, stateful_bind, lift. rewrite Hroom1 split_at_app; [|exact Hi]. cbn [ok_or].
    assert (parse_id (oid_bytes i) "object record" = Ok i) as Hp by (apply parse_id_ok; by destruct i).
    rewrite Hp Hj /=. rewrite decide_True //. by eexists.
Qed.
(** A bundle read this far. *)
Definition begins (b b' : Bundle) : Prop :=
  b_refs b `prefix_of` b_refs b' ∧ b_shallow b `prefix_of` b_shallow b' ∧
  b_commits b `prefix_of` b_commits b' ∧ b_objects b `prefix_of` b_objects b'.

Lemma begins_foldl l b : begins b (foldl add_record b l).
Proof.
  assert (∀ b1 b2 b3, begins b1 b2 → begins b2 b3 → begins b1 b3) as Htrans.
  { intros b1 b2 b3 (?&?&?&?) (?&?&?&?). split_and!; by etrans. }
  revert b. induction l as [|x l IH]; intros b; [by split_and!|]. simpl. eapply Htrans; [|apply IH].
  destruct x; split_and!; simpl; try done; by apply prefix_app_r.
Qed.

(** Not among the refs or shallow commits of the bundle. *)
Definition fresh_in (b : Bundle) (x : BundleRecord) : Prop :=
  match x with
  | RecRef r => ref_key r ∉ ref_key <$> b_refs b
  | RecShallow i => i ∉ b_shallow b
  | _ => True
  end.

Lemma NoDup_snoc_prefix {A} (l k : list A) x : l ++ [x] `prefix_of` k → NoDup k → x ∉ l.
Proof. intros [more ->] [[_ [Hn _]]%NoDup_app _]%NoDup_app Hin. apply (Hn _ Hin). by apply list_elem_of_singleton. Qed.

Lemma begins_fresh b x b' :
  begins (add_record b x) b' → NoDup (ref_key <$> b_refs b') → NoDup (b_shallow b') → fresh_in b x.
Proof.
  intros (Hr & Hs & _) Hrn Hsn. destruct x as [e|i|c|i o]; [| |done|done]; simpl in *.
  - eapply NoDup_snoc_prefix; [|exact Hrn]. destruct Hr as [more ->]. rewrite !fmap_app. by eexists.
  - by eapply NoDup_snoc_prefix.
Qed.

Lemma begins_room limits b x r b' :
  tally_ok limits b r → begins (add_record b x) b' → accepted limits b' → room x r.
Proof.
  intros [] Hb []. pose proof (begins_fresh _ _ _ Hb ac_refs0 ac_shallow0) as Hn.
  destruct Hb as (Hr%prefix_length & Hs%prefix_length & Hc%prefix_length & Ho%prefix_length).
  destruct x as [e|i|c|i o]; simpl in *; rewrite ?ta_limits0; rewrite length_app /= in Hr Hs Hc Ho.
  - rewrite ta_refs0 elem_of_list_to_set size_list_to_set // length_fmap. split; [done|lia].
  - rewrite ta_shallow0 elem_of_list_to_set size_list_to_set //. split; [done|lia].
  - rewrite ta_commits0. lia.
  - rewrite ta_objects0. lia.
Qed.

Lemma read_end_frame r :
  rd_done r = false → rd_rest r = end_frame → rd_end r = DecodeDone → counts KIND_END EmptyString r →
  (next_record r).1 = Ok None.
Proof.
  intros Hd Hr He Hc. unfold next_record. rewrite Hd (read_frame KIND_END EmptyString EmptyString r); [|by split; vm_compute|by rewrite Hr string_app_nil_r|done].
  cbn [N.eqb KIND_END]. unfold read_end. simpl. by rewrite He.
Qed.

Lemma fold_encoded limits fuel l b r :
  tally_ok limits b r → accepted limits (foldl add_record b l) → Forall encodable l →
  Forall (λ x, slen (encode_record x).2 ≤ max_record_bytes limits)%N l →
  rd_done r = false → rd_end r = DecodeDone → rd_rest r = frames (encode_record <$> l) +:+ end_frame →
  (rd_uncompressed r + slen (rd_rest r) ≤ max_uncompressed_bytes limits)%N → length l < fuel →
  (fold_records fuel add_record b r).1 = Ok (foldl add_record b l).
Proof.
  revert fuel b r. induction l as [|x l IH]; intros fuel b r Ht Ha Henc Hsz Hd He Hr Hu Hf;
    (destruct fuel as [|fuel]; [simpl in Hf; lia|]); cbn [fold_records]; unfold mbind, stateful_bind, map_err_st.
  - assert ((next_record r).1 = Ok None) as Hn.
    { apply read_end_frame; [done|exact Hr|done|]. split; rewrite (ta_limits _ _ _ Ht); [simpl; apply N.le_0_l|].
      change (rd_rest r = end_frame) in Hr. rewrite Hr in Hu. change (frame KIND_END EmptyString) with end_frame. lia. }
    destruct (next_record r) as [res r']. simpl in Hn. by subst res.
  - apply Forall_cons in Henc as [Hx Henc], Hsz as [Hxs Hsz]. rewrite fmap_cons in Hr.
    destruct (encode_record x) as [k p] eqn:Hxe. rewrite frames_cons in Hr. simpl in Hxs.
    assert (counts k p r) as Hc.
    { split; rewrite (ta_limits _ _ _ Ht); [done|]. rewrite Hr (slen_app (frame k p)) in Hu. lia. }
    assert (room x r) as Hroom by (eapply begins_room; [exact Ht|apply (begins_foldl l)|exact Ha]).
    destruct (read_encoded x k p _ r Hx Hxe Hd Hr Hc Hroom) as (r' & Hrun & Hr'). rewrite Hrun. cbn [map_err].
    pose proof (next_record_ok _ _ _ Hrun) as Hs. simpl. apply IH; [by eapply tally_step|done|done|done| | |done| |simpl in Hf; lia].
    + by apply Hs.
    + by rewrite (sp_end _ _ _ Hs).
    + destruct (sp_frame _ _ _ Hs) as (k' & p' & Hf' & _ & Hr2 & _ & _ & Hunc). rewrite Hr2 (slen_app (frame k' p')) in Hu. lia.
Qed.

Lemma foldl_records b : foldl add_record bundle_empty (records_of b) = b.
Proof.
  unfold records_of. rewrite !foldl_app.
  assert (∀ os b, foldl add_record b ((λ o, RecObject (oid_of o) o) <$> os) =
    {| b_refs := b_refs b; b_shallow := b_shallow b; b_commits := b_commits b; b_objects := b_objects b ++ os |}) as Ho.
  { induction os as [|o os IH]; intros b'; csimpl; [rewrite app_nil_r; by destruct b'|]. rewrite IH /=. by rewrite -app_assoc. }
  assert (∀ os b, foldl add_record b (RecCommit <$> os) =
    {| b_refs := b_refs b; b_shallow := b_shallow b; b_commits := b_commits b ++ os; b_objects := b_objects b |}) as Hc.
  { induction os as [|o os IH]; intros b'; csimpl; [rewrite app_nil_r; by destruct b'|]. rewrite IH /=. by rewrite -app_assoc. }
  assert (∀ os b, foldl add_record b (RecShallow <$> os) =
    {| b_refs := b_refs b; b_shallow := b_shallow b ++ os; b_commits := b_commits b; b_objects := b_objects b |}) as Hs.
  { induction os as [|o os IH]; intros b'; csimpl; [rewrite app_nil_r; by destruct b'|]. rewrite IH /=. by rewrite -app_assoc. }
  assert (∀ os b, foldl add_record b (RecRef <$> os) =
    {| b_refs := b_refs b ++ os; b_shallow := b_shallow b; b_commits := b_commits b; b_objects := b_objects b |}) as Hr.
  { induction os as [|o os IH]; intros b'; csimpl; [rewrite app_nil_r; by destruct b'|]. rewrite IH /=. by rewrite -app_assoc. }
  rewrite Ho Hc Hs Hr /=. by destruct b.
Qed.
(** The writer, a record at a time. *)
Definition write_one (x : BundleRecord) : BW () :=
  match x with
  | RecRef r => write_ref r
  | RecShallow id => write_shallow id
  | RecCommit c => write_commit c
  | RecObject _ o => write_object o
  end.

Record wrote (l : list BundleRecord) (w : BundleWriter) : Prop := {
  wr_header : bw_header w = bw_header writer_new;
  wr_body : bw_body w = frames (encode_record <$> l);
  wr_refs : bw_refs w = list_to_set (ref_key <$> b_refs (foldl add_record bundle_empty l));
  wr_shallow : bw_shallow w = list_to_set (b_shallow (foldl add_record bundle_empty l));
}.

Lemma wrote_record l x k p w w' :
  wrote l w → encode_record x = (k, p) → framed (k, p) → bw_header w' = bw_header w → bw_body w' = bw_body w →
  bw_refs w' = list_to_set (ref_key <$> b_refs (foldl add_record bundle_empty (l ++ [x]))) →
  bw_shallow w' = list_to_set (b_shallow (foldl add_record bundle_empty (l ++ [x]))) →
  ∃ w2, bw_record k p w' = (Ok (), w2) ∧ wrote (l ++ [x]) w2.
Proof.
  intros [] Hx [_ Hp] Hh Hb Hr Hs. eexists. split; [apply bw_record_ok; by split|]. split; [cbn [bw_header set_bw_body]; congruence| |done|done].
  cbn [bw_body set_bw_body]. rewrite fmap_app frames_app Hb wr_body0. f_equal. csimpl. rewrite Hx. simpl. by rewrite string_app_nil_r.
Qed.

Lemma write_one_ok l x w :
  wrote l w → encodable x → fresh_in (foldl add_record bundle_empty l) x →
  ∃ w', write_one x w = (Ok (), w') ∧ wrote (l ++ [x]) w'.
Proof.
  intros Hw Hx Hfr. pose proof Hx as (Hv & Hf & He).
  assert (bw_refs w = list_to_set (ref_key <$> b_refs (foldl add_record bundle_empty l))) as Hwr by apply Hw.
  assert (bw_shallow w = list_to_set (b_shallow (foldl add_record bundle_empty l))) as Hws by apply Hw.
  destruct x as [r|i|c|i o]; simpl in *.
  - destruct Hv as (Hns & Hne & _). unfold write_ref. rewrite bool_decide_false // decide_False; [|by rewrite Hwr elem_of_list_to_set].
    unfold mbind, stateful_bind, lift. rewrite (put_str_ok (ns_name _)); [|by apply namespace_ascii]. rewrite put_str_ok //.
    eapply wrote_record; [exact Hw|done|done|done|done| |]; simpl; rewrite foldl_app /=; [|done].
    rewrite fmap_app list_to_set_app_L Hwr /=. set_solver.
  - unfold write_shallow. rewrite decide_False; [|by rewrite Hws elem_of_list_to_set].
    eapply wrote_record; [exact Hw|done|done|done|done| |]; simpl; rewrite foldl_app /=; [done|].
    rewrite list_to_set_app_L Hws /=. set_solver.
  - destruct He as (json & Hj & _). unfold write_commit, mbind, stateful_bind, lift. rewrite Hj. cbn [map_err].
    eapply wrote_record; [exact Hw| |rewrite Hj in Hf; exact Hf|done|done| |]; simpl; rewrite ?foldl_app ?Hj //=.
  - destruct Hv as [Hi _]. unfold write_object. change (oid_hash (canonical_bytes o)) with (oid_of o). rewrite Hi.
    eapply wrote_record; [exact Hw|done|done|done|done| |]; simpl; by rewrite foldl_app /=.
Qed.

Lemma write_records_ok l done_ b w :
  wrote done_ w → Forall encodable l → begins (foldl add_record bundle_empty (done_ ++ l)) b →
  NoDup (ref_key <$> b_refs b) → NoDup (b_shallow b) →
  ∃ w', for_each write_one l w = (Ok (), w') ∧ wrote (done_ ++ l) w'.
Proof.
  revert done_ w. induction l as [|x l IH]; intros done_ w Hw Henc Hb Hr Hs; simpl; [exists w; by rewrite app_nil_r|].
  apply Forall_cons in Henc as [Hx Henc].
  destruct (write_one_ok done_ x w Hw Hx) as (w1 & Hrun & Hw1).
  { eapply begins_fresh; [|exact Hr|exact Hs]. rewrite foldl_app /= in Hb.
    pose proof (begins_foldl l (add_record (foldl add_record bundle_empty done_) x)) as (?&?&?&?).
    destruct Hb as (?&?&?&?). split_and!; by etrans. }
  destruct (IH (done_ ++ [x]) w1 Hw1 Henc) as (w2 & Hrun2 & Hw2); [by rewrite -app_assoc|done|done|].
  exists w2. rewrite -app_assoc in Hw2. split; [|done]. by rewrite (stateful_seq _ _ _ _ _ Hrun).
Qed.

Lemma for_each_app_inv {S E A} (f : A → stateful S E ()) l1 l2 s s2 :
  for_each f (l1 ++ l2) s = (Ok (), s2) → ∃ s1, for_each f l1 s = (Ok (), s1) ∧ for_each f l2 s1 = (Ok (), s2).
Proof.
  revert s. induction l1 as [|x l1 IH]; intros s; simpl; [by exists s|].
  intros ([] & s1 & Hx & Hrun)%stateful_bind_ok. apply IH in Hrun as (s3 & H1 & H2). exists s3.
  split; [|done]. by rewrite (stateful_seq _ _ _ _ _ Hx).
Qed.

Lemma for_each_fmap {S E A B} (f : B → stateful S E ()) (g : A → B) l s :
  for_each f (g <$> l) s = for_each (λ x, f (g x)) l s.
Proof.
  revert s. induction l as [|x l IH]; intros s; csimpl; [done|]. unfold mbind, stateful_bind.
  destruct (f (g x) s) as [[]]; [apply IH|done].
Qed.

(** What the writer makes of a bundle it can encode. *)
Lemma to_bytes_encodes b :
  Forall encodable (records_of b) → NoDup (ref_key <$> b_refs b) → NoDup (b_shallow b) →
  to_bytes b = Ok (bw_header writer_new +:+ zstd_encode (frames (encode_record <$> records_of b) +:+ end_frame)).
Proof.
  intros Henc Hr Hs. destruct (write_records_ok (records_of b) [] b writer_new) as (w & Hrun & Hw);
    [by split|done|by rewrite /= foldl_records|done|done|].
  unfold records_of in Hrun. apply for_each_app_inv in Hrun as (w1 & H1 & Hrun).
  apply for_each_app_inv in Hrun as (w2 & H2 & Hrun). apply for_each_app_inv in Hrun as (w3 & H3 & H4).
  rewrite for_each_fmap in H1. rewrite for_each_fmap in H2. rewrite for_each_fmap in H3. rewrite for_each_fmap in H4.
  unfold to_bytes, write_bundle. rewrite (stateful_seq _ _ _ _ _ H1) (stateful_seq _ _ _ _ _ H2) (stateful_seq _ _ _ _ _ H3).
  rewrite (stateful_seq _ _ _ _ _ H4). unfold writer_finish, bw_record. simpl. destruct Hw as [Hh Hb _ _].
  rewrite Hh Hb. done.
Qed.
(** The header reads back, and what follows it is decoded. *)
Lemma capped_all limit s : (slen s ≤ limit)%N → capped limit s = (s, false).
Proof.
  intros Hs. unfold capped. destruct (split_at limit s) as [[a b]|] eqn:Hsp; [|done].
  apply split_at_Some in Hsp as [-> Ha]. rewrite slen_app in Hs. assert (b = EmptyString) as -> by (apply slen_0; lia).
  by rewrite string_app_nil_r bool_decide_true.
Qed.

Lemma split_at_None n s : split_at n s = None → (slen s < n)%N.
Proof.
  revert n. induction s as [|c s IH]; intros n; cbn [split_at]; destruct (N.eqb_spec n 0) as [->|Hn]; [done| |done|].
  - intros _. unfold slen. simpl. lia.
  - destruct (split_at (n - 1) s) as [[x y]|] eqn:Hs; [done|]. intros _. rewrite slen_cons. specialize (IH _ Hs). lia.
Qed.

Lemma capped_ok limit s t held : capped limit s = (t, held) →
  ∃ more, s = t +:+ more ∧ (slen t ≤ limit)%N ∧ (more = EmptyString ∨ slen t = limit) ∧ held = negb (bool_decide (more = EmptyString)).
Proof.
  unfold capped. destruct (split_at limit s) as [[a b]|] eqn:Hsp; intros [= <- <-].
  - apply split_at_Some in Hsp as [-> Ha]. exists b. split_and!; [done|lia|by right|done].
  - apply split_at_None in Hsp. exists EmptyString. rewrite string_app_nil_r. split_and!; [done|lia|by left|done].
Qed.

Lemma reader_new_written limits body :
  (slen (bw_header writer_new +:+ body) ≤ max_bytes limits)%N →
  reader_new (bw_header writer_new +:+ body) limits =
    Ok {| rd_rest := (zstd_decode body false).1; rd_end := (zstd_decode body false).2; rd_limits := limits;
          rd_uncompressed := 0; rd_refs := ∅; rd_shallow := ∅; rd_commits := 0; rd_objects := 0; rd_done := false |}.
Proof.
  intros Hs. unfold reader_new. rewrite capped_all // split_at_app; [|by vm_compute].
  destruct (zstd_decode body false) as [x e]. by vm_compute.
Qed.

(** A bundle within the limits, whose records survive their encoding. *)
Record sendable (limits : BundleLimits) (b : Bundle) : Prop := {
  sb_accepted : accepted limits b;
  sb_encodable : Forall encodable (records_of b);
  sb_records : Forall (λ x, slen (encode_record x).2 ≤ max_record_bytes limits)%N (records_of b);
  sb_total : (slen (frames (encode_record <$> records_of b) +:+ end_frame) ≤ max_uncompressed_bytes limits)%N;
}.

Lemma length_records (l : list BundleRecord) : length l ≤ String.length (frames (encode_record <$> l)).
Proof.
  induction l as [|x l IH]; [done|]. rewrite fmap_cons. cbn [length]. destruct (encode_record x) as [k p].
  pose proof (slen_app (frame k p) (frames (encode_record <$> l))) as H. rewrite (slen_frame k p) in H. unfold slen in H.
  change (String.length (frames ((k, p) :: _))) with (String.length (frame k p +:+ frames (encode_record <$> l))). lia.
Qed.

Lemma bundle_roundtrip_ok `{ZL : !ZstdLaws} limits b :
  sendable limits b →
  ∃ bytes, to_bytes b = Ok bytes ∧ ((slen bytes ≤ max_bytes limits)%N → from_bytes bytes limits = Ok b).
Proof.
  intros [Ha He Hr Ht]. eexists. split; [apply to_bytes_encodes; [done|apply Ha..]|]. intros Hs.
  unfold from_bytes. rewrite reader_new_written // zstd_round. cbn [map_err mbind result_bind rd_rest fst snd].
  rewrite (fold_encoded limits _ (records_of b)); [by rewrite foldl_records|..]; try done.
  - by split; simpl; try constructor; try lia.
  - by rewrite foldl_records.
  - pose proof (length_records (records_of b)) as Hl.
    pose proof (slen_app (frames (encode_record <$> records_of b)) end_frame) as Hl2. unfold slen in Hl2. lia.
Qed.

(** ** Properties *)

(** C24: A bundle round trips: whatever the limits, a bundle within them whose
    records survive their encoding (each commit and object decodes from what it
    is encoded as, under the id of its content) is written, and what is written
    reads back as the same bundle, repeated commits and objects repeated, if its
    compressed size is within the limit too. *)
Theorem bundle_roundtrip `{ZL : !ZstdLaws} limits b :
  sendable limits b →
  ∃ bytes, to_bytes b = Ok bytes ∧ ((slen bytes ≤ max_bytes limits)%N → from_bytes bytes limits = Ok b).
Proof. apply bundle_roundtrip_ok. Qed.

(** C23: Nothing unverified gets in: whatever the bytes and however they
    decompress, the reader ends, and what it accepts has every commit and object
    under the id of its content, every ref well formed and once, every shallow
    commit once, and each count within the limits. It was read from a beginning
    of the input of at most the limit of bytes, the whole input when that is
    within it: the header of this format, and a stream that
    decompresses, to its end, to just the records of the bundle in their order
    and the end record; each payload is within the limit for one record, and
    the whole within the limit of uncompressed bytes. *)
Theorem bundle_verified bytes limits :
  match from_bytes bytes limits with
  | Ok b => accepted limits b ∧ ∃ rest more kps l,
      bytes = (bw_header writer_new +:+ rest) +:+ more ∧
      (slen (bw_header writer_new +:+ rest) ≤ max_bytes limits)%N ∧
      (more = EmptyString ∨ slen (bw_header writer_new +:+ rest) = max_bytes limits) ∧
      zstd_decode rest (negb (bool_decide (more = EmptyString))) = (frames kps +:+ end_frame, DecodeDone) ∧
      b = foldl add_record bundle_empty l ∧ Forall2 decodes kps l ∧
      Forall (λ kp, slen kp.2 ≤ max_record_bytes limits)%N kps ∧
      (max_uncompressed_bytes limits < u64_max → slen (frames kps +:+ end_frame) ≤ max_uncompressed_bytes limits)%N
  | Err e => e ≠ OutOfFuel
  end.
Proof.
  destruct (from_bytes bytes limits) as [b|e] eqn:Hb.
  - apply from_bytes_accepts in Hb as (Ha & rest & held & kps & Hc & Hz & _ & _ & (l & -> & Hl) & Hm & Hu).
    apply capped_ok in Hc as (more & -> & Hmax & Hmore & ->). split; [done|]. by exists rest, more, kps, l.
  - intros ->. unfold from_bytes in Hb. destruct (reader_new bytes limits) as [r|e]; [|done].
    revert Hb. apply fold_records_fuel. lia.
Qed.

(** A bundle cut short is refused, wherever the cut: no proper beginning of
    what the writer wrote is accepted, under any limits. *)
Theorem bundle_prefix_refused `{ZL : !ZstdLaws} b bytes p q limits :
  to_bytes b = Ok bytes → bytes = p +:+ q → q ≠ EmptyString →
  ∃ e, from_bytes p limits = Err (Fail e).
Proof.
  intros (kps & Hf & Hk & ->)%to_bytes_ok Hpq Hq.
  destruct (from_bytes p limits) as [b'|[|e]] eqn:Hb; [exfalso|exfalso|by exists e].
  - apply from_bytes_accepts in Hb as (_ & rest & held & kps' & Hc & Hz & Hf' & Hk' & _).
    apply capped_ok in Hc as (more & -> & _).
    assert (((bw_header writer_new +:+ rest) +:+ more) +:+ q = bw_header writer_new +:+ rest +:+ more +:+ q) as Hassoc
      by (generalize (bw_header writer_new) as hdr; intros; by rewrite !string_app_assoc).
    rewrite Hassoc in Hpq. apply Plain.app_length_inj in Hpq as [_ Hpq]; [|done].
    destruct (zstd_cut _ _ _ held Hpq) as (y & z & e & Hy & Hx & He).
    { destruct more; [done|by rewrite string_app_cons]. }
    rewrite Hz in Hy. injection Hy as <- <-. apply He; [done|].
    rewrite string_app_assoc in Hx. by eapply (frames_prefix kps' kps).
  - unfold from_bytes in Hb. destruct (reader_new p limits) as [r|e]; [|done].
    revert Hb. apply fold_records_fuel. lia.
Qed.
End bundles.

(** *** Witnesses *)

Module Toy.
(** A compressor that marks every byte and the end. *)
Fixpoint mark (x : string) : string :=
  match x with
  | EmptyString => "0"
  | String c x' => String "1" (String c (mark x'))
  end.
Fixpoint unmark (s : string) : string * DecodeEnd :=
  match s with
  | String "1" (String c s') => let '(x, e) := unmark s' in (String c x, e)
  | String "0" _ => (EmptyString, DecodeDone)
  | _ => (EmptyString, DecodeCut)
  end.

#[export] Instance toy_zstd : Zstd := {| zstd_encode := mark; zstd_decode := λ s _, unmark s |}.

#[export] Instance toy_zstd_laws : ZstdLaws.
Proof.
  split; cbn [zstd_encode zstd_decode toy_zstd].
  - induction x as [|c x IH]; [done|]. cbn [mark unmark]. by rewrite IH.
  - intros x. induction x as [|c x IH]; intros p q held; cbn [mark].
    + destruct p as [|a p].
      * intros _ _. by eexists EmptyString, EmptyString, _.
      * rewrite string_app_cons. intros [= <- H] Hq. by destruct p, q.
    + destruct p as [|a p]; [intros _ _; by eexists EmptyString, _, _|]. rewrite string_app_cons. intros [= <- H] Hq.
      destruct p as [|d p]; [by eexists EmptyString, _, _|]. rewrite string_app_cons in H. injection H as <- H.
      destruct (IH p q held H Hq) as (y & z & e & Hy & -> & He). exists (String c y), z, e.
      cbn [unmark]. by rewrite Hy string_app_cons.
Qed.

(** Ids of 32 bytes. *)
#[export] Instance toy_hash : ContentHash := {|
  canonical_bytes := Plain.bytes_of;
  blake3 := λ s, match split_at 32 (s +:+ "________________________________") with Some (a, _) => a | None => EmptyString end |}.
#[export] Instance toy_serial : CommitSerial := λ _, "commit".
#[export] Instance toy_text : Text := {| to_lowercase := to_ascii_lowercase; debug_str := λ s, s |}.

Definition note : Object := mk_string "note".
Definition first_commit : Commit :=
  let c := sample_commit (Oid EmptyString) (oid_of note) [] in sample_commit (compute_id c) (oid_of note) [].

#[export] Instance toy_serde : Serde := {|
  commit_to_json := λ _, Ok "{}"; commit_from_json := λ _, Ok first_commit; object_from_json := λ _, Ok note |}.

Definition small : Bundle := {|
  b_refs := [{| br_namespace := default_ns; br_name := "main"; br_target := commit_id first_commit |}];
  b_shallow := [commit_id first_commit]; b_commits := [first_commit]; b_objects := [note] |}.

Lemma small_sendable : sendable default_limits small.
Proof.
  split.
  - split; [|by repeat constructor; set_solver..| | | |]; try by vm_compute.
    repeat constructor; by vm_compute.
  - repeat constructor; try by vm_compute. by exists "{}".
  - repeat constructor; by vm_compute.
  - by vm_compute.
Qed.
End Toy.

Section witnesses.
Import Toy.

Definition small_bytes : string := match to_bytes small with Ok bytes => bytes | Err _ => EmptyString end.
Definition small_cut : string * string := default (EmptyString, EmptyString) (split_at 100 small_bytes).

Lemma bundle_roundtrip_witness :
  sendable default_limits small ∧ to_bytes small = Ok small_bytes ∧ from_bytes small_bytes default_limits = Ok small.
Proof.
  split; [exact small_sendable|]. assert (to_bytes small = Ok small_bytes) as Hs by by vm_compute. split; [exact Hs|].
  destruct (bundle_roundtrip default_limits small small_sendable) as (bytes & Hb & Hr).
  rewrite Hs in Hb. injection Hb as <-. apply Hr. by vm_compute.
Defined.

Lemma bundle_prefix_refused_witness :
  to_bytes small = Ok small_bytes ∧ slen small_cut.1 = 100%N ∧ ∃ e, from_bytes small_cut.1 unlimited = Err (Fail e).
Proof.
  assert (to_bytes small = Ok small_bytes) as Hs by by vm_compute. split_and!; [exact Hs|by vm_compute|].
  apply (bundle_prefix_refused small small_bytes small_cut.1 small_cut.2); [exact Hs|by vm_compute|by vm_compute].
Defined.
End witnesses.
