(* ===== verification/Shallows.v ===== *)
(** * Shallows: histories cut on purpose

    Models [agentstategraph/src/sync/shallow.rs]: the boundary of a fetch of
    limited depth, and the reserved refs by which a store records the commits
    it holds without their parents. Ids are stored under the names of the refs
    in the default namespace. *)
From S2P Require Import Prelude Objects Paths Json Intents Sessions Commits Epochs Taints Stores Memory.
From S2P Require Import Diffs Merges Trees Specs Guards Ancestry Integrity Programs Repos.

Definition SHALLOW_PREFIX : string := "_control-shallow/".

(** ** The boundary at a depth *)

Abbreviation Levels := (gmap ObjectId N).

(** Heads enter at level 1, once. *)
Fixpoint enter_heads (heads : list ObjectId) (level : Levels) (queue : list ObjectId) :
    Levels * list ObjectId :=
  match heads with
  | [] => (level, queue)
  | head :: heads' =>
      enter_heads heads' (<[head := 1%N]> level)
        (match level !! head with None => queue ++ [head] | Some _ => queue end)
  end.

(** The parents not met before enter a level further. *)
Fixpoint enter_parents (at_ : N) (ps : list ObjectId) (level : Levels) (queue : list ObjectId) :
    Levels * list ObjectId :=
  match ps with
  | [] => (level, queue)
  | p :: ps' =>
      match level !! p with
      | None => enter_parents at_ ps' (<[p := (at_ + 1)%N]> level) (queue ++ [p])
      | Some _ => enter_parents at_ ps' level queue
      end
  end.

(** [level[&id]] of an id that was queued is there. *)
Fixpoint boundary_loop (fuel : nat) (get : CommitReads) (depth : N) (level : Levels) (queue boundary : list ObjectId) :
    result (stop RepoError) (list ObjectId) :=
  match fuel with
  | 0 => Err OutOfFuel
  | S fuel' =>
      match queue with
      | [] => Ok boundary
      | id :: queue' =>
          match level !! id with
          | None => Err OutOfFuel
          | Some at_ =>
              c ← map_err (λ e, Fail (StorageErr e)) (get id);
              match c with
              | None => boundary_loop fuel' get depth level queue' boundary
              | Some c =>
                  if (at_ =? depth)%N then
                    boundary_loop fuel' get depth level queue'
                      (if bool_decide (parents c = []) then boundary else boundary ++ [id])
                  else
                    let '(level', queue'') := enter_parents at_ (parents c) level queue' in
                    boundary_loop fuel' get depth level' queue'' boundary
              end
          end
      end
  end.

Definition depth_boundary (fuel : nat) (get : CommitReads) (heads : list ObjectId) (depth : N) :
    result (stop RepoError) (list ObjectId) :=
  if (depth =? 0)%N then Err (Fail (InvalidOp "a fetch's depth is at least 1, the head itself")) else
  let '(level, queue) := enter_heads heads ∅ [] in
  boundary ← boundary_loop fuel get depth level queue [];
  Ok (merge_sort oid_le boundary).

(** ** Recording a boundary *)

Definition has_all_parents (s : MemoryStorage) (id : ObjectId) : bool :=
  match get_commit s id with
  | None => false
  | Some c => forallb (has_commit s) (parents c)
  end.

Definition shallow_name (id : ObjectId) : string := SHALLOW_PREFIX +:+ oid_to_hex id.

Definition shallow_commits : P (list ObjectId) :=
  l ← storage (reading (λ s, list_refs s default_ns SHALLOW_PREFIX)); mret l.*2.

Fixpoint set_boundaries (seen : gset ObjectId) (shallow : list ObjectId) : P () :=
  match shallow with
  | [] => mret ()
  | id :: shallow' =>
      if decide (id ∈ seen) then set_boundaries seen shallow' else
      all ← read_store (λ s, Ok (has_all_parents s id));
      _ ← (if all : bool then mret () else storage (set_ref default_ns (shallow_name id) id));
      set_boundaries ({[ id ]} ∪ seen) shallow'
  end.

Definition drop_boundary (x : string * ObjectId) : P () :=
  all ← read_store (λ s, Ok (has_all_parents s x.2));
  if all : bool then _ ← storage (cas_delete_ref default_ns x.1 x.2); mret () else mret ().

Definition record_shallow (shallow : list ObjectId) : P () :=
  _ ← set_boundaries ∅ shallow;
  l ← storage (reading (λ s, list_refs s default_ns SHALLOW_PREFIX));
  each drop_boundary l.

(** ** The boundary is what lies at the depth *)

Lemma enter_parents_ok at_ ps level queue :
  ∃ added, enter_parents at_ ps level queue =
      (list_to_map ((λ p, (p, (at_ + 1)%N)) <$> added) ∪ level, queue ++ added) ∧
    NoDup added ∧ (∀ p, p ∈ added ↔ p ∈ ps ∧ level !! p = None) ∧ length added ≤ length ps.
Proof.
  revert level queue. induction ps as [|p ps IH]; intros level queue; cbn [enter_parents].
  { exists []. csimpl. rewrite map_empty_union app_nil_r. split_and!; [done|constructor|set_solver|lia]. }
  destruct (level !! p) as [l|] eqn:Hp.
  - destruct (IH level queue) as (added & Hrun & Hnd & Hin & Hlen). exists added.
    split_and!; [done|done| |simpl; lia]. intros q. rewrite Hin elem_of_cons. split; [naive_solver|]. intros [[->|?] ?]; [congruence|done].
  - destruct (IH (<[p := (at_ + 1)%N]> level) (queue ++ [p])) as (added & Hrun & Hnd & Hin & Hlen).
    exists (p :: added). csimpl. rewrite Hrun -app_assoc. split_and!.
    + f_equal. rewrite -insert_union_l. apply map_eq. intros q.
      destruct (decide (p = q)) as [<-|Hpq].
      * rewrite lookup_insert_eq lookup_union_r; [by rewrite lookup_insert_eq|].
        apply not_elem_of_list_to_map_1. rewrite -list_fmap_compose. intros (q & -> & [_ Hq]%Hin)%list_elem_of_fmap.
        by rewrite lookup_insert_eq in Hq.
      * rewrite lookup_insert_ne // !lookup_union lookup_insert_ne //.
    + constructor; [|done]. intros [_ Hq]%Hin. by rewrite lookup_insert_eq in Hq.
    + intros q. rewrite !elem_of_cons Hin. destruct (decide (p = q)) as [<-|Hpq]; [naive_solver|].
      rewrite lookup_insert_ne //. naive_solver.
    + simpl. lia.
Qed.

Section depth.
Context (m : gmap ObjectId Commit) (heads : list ObjectId) (depth : N) (Hdepth : (0 < depth)%N).

(** At the end of a line of [n] parent edges from a head. *)
Definition reached (n : nat) (i : ObjectId) : Prop := ∃ h, h ∈ heads ∧ nsteps (parent_edge m) n h i.

(** The shortest line from a head to it has [depth] commits. *)
Definition at_depth (i : ObjectId) : Prop :=
  reached (N.to_nat depth - 1) i ∧ ∀ n, n < N.to_nat depth - 1 → ¬ reached n i.

Definition lvl (level : Levels) (i : ObjectId) : N := default 0%N (level !! i).

Record searching (level : Levels) (queue boundary : list ObjectId) (done_ : gset ObjectId) : Prop := {
  se_level i l : level !! i = Some l → (0 < l ≤ depth)%N ∧ reached (N.to_nat l - 1) i;
  se_known i : is_Some (level !! i) ↔ i ∈ done_ ∨ i ∈ queue;
  se_heads h : h ∈ heads → level !! h = Some 1%N;
  se_done i c l p : i ∈ done_ → m !! i = Some c → level !! i = Some l → (l < depth)%N → p ∈ parents c →
    ∃ l', level !! p = Some l' ∧ (l' ≤ l + 1)%N;
  se_near i j l l' : i ∈ queue → level !! i = Some l → level !! j = Some l' → (l' ≤ l + 1)%N;
  se_sorted : StronglySorted (λ i j, lvl level i ≤ lvl level j)%N queue;
  se_nodup : NoDup queue;
  se_fresh i : i ∈ queue → i ∉ done_;
  se_boundary i : i ∈ boundary ↔ i ∈ done_ ∧ level !! i = Some depth ∧ ∃ c, m !! i = Some c ∧ parents c ≠ [];
  se_boundary_nodup : NoDup boundary;
}.

Lemma enter_heads_ok hs level queue :
  (∀ i l, level !! i = Some l → l = 1%N ∧ i ∈ heads) → (∀ i, is_Some (level !! i) ↔ i ∈ queue) → NoDup queue →
  (∀ h, h ∈ hs → h ∈ heads) → (∀ h, h ∈ heads → h ∈ hs ∨ h ∈ queue) →
  ∃ level' queue', enter_heads hs level queue = (level', queue') ∧ searching level' queue' [] ∅ ∧
    length queue' ≤ length queue + length hs.
Proof.
  revert level queue. induction hs as [|h hs IH]; intros level queue Hl Hk Hnd Hin Hall; cbn [enter_heads].
  - exists level, queue. split_and!; [done| |lia]. split; try done.
    + intros i l [-> Hi]%Hl. split; [lia|]. exists i. split; [done|constructor].
    + intros i. rewrite Hk. set_solver.
    + intros h Hh. destruct (Hall h Hh) as [?%elem_of_nil|[l Hq]%Hk]; [done|]. rewrite Hq. by destruct (Hl h l Hq) as [-> _].
    + intros i j l l' _ [-> _]%Hl [-> _]%Hl. lia.
    + assert (∀ i, i ∈ queue → lvl level i = 1%N) as H1.
      { intros i [l Hi]%Hk. unfold lvl. rewrite Hi /=. by destruct (Hl i l Hi). }
      clear -H1. induction queue as [|i q IH]; constructor.
      * apply IH. intros; apply H1. by right.
      * apply Forall_forall. intros j Hj. rewrite !H1; [lia|by right|by left].
    + intros i. set_solver.
    + constructor.
  - destruct (IH (<[h := 1%N]> level) (match level !! h with None => queue ++ [h] | Some _ => queue end))
      as (level' & queue' & Hrun & Hs & Hlen).
    + intros i l. destruct (decide (h = i)) as [<-|Hne]; [rewrite lookup_insert_eq; intros [= <-]; split; [done|apply Hin; by left]|].
      rewrite lookup_insert_ne //. apply Hl.
    + intros i. destruct (level !! h) as [l|] eqn:Hh.
      * destruct (decide (h = i)) as [<-|Hne]; [rewrite lookup_insert_eq; split; [|by eexists]; intros _; apply Hk; by eexists|].
        by rewrite lookup_insert_ne.
      * rewrite elem_of_app list_elem_of_singleton -Hk. destruct (decide (h = i)) as [<-|Hne].
        -- rewrite lookup_insert_eq. split; [by right|by eexists].
        -- rewrite lookup_insert_ne //. naive_solver.
    + destruct (level !! h) as [l|] eqn:Hh; [done|]. apply NoDup_app. split_and!; [done| |apply NoDup_singleton].
      intros i Hi%Hk ->%list_elem_of_singleton. rewrite Hh in Hi. by destruct Hi.
    + intros; apply Hin. by right.
    + intros x Hx. destruct (Hall x Hx) as [[->|?]%elem_of_cons|Hq]; [|by left|].
      * right. destruct (level !! h) eqn:Hh; [apply Hk; by eexists|]. apply elem_of_app. right. by left.
      * right. destruct (level !! h); [done|]. apply elem_of_app. by left.
    + exists level', queue'. split_and!; [done|done|]. destruct (level !! h); simpl in *; rewrite ?length_app /= in Hlen; lia.
Qed.

Lemma StronglySorted_impl_on {A} (R R' : relation A) l :
  StronglySorted R l → (∀ x y, x ∈ l → y ∈ l → R x y → R' x y) → StronglySorted R' l.
Proof.
  induction 1 as [|x l Hs IH Hx]; intros Himp; constructor.
  - apply IH. intros y z Hy Hz. apply Himp; by right.
  - rewrite Forall_forall in Hx. apply Forall_forall. intros y Hy. apply Himp; [by left|by right|by apply Hx].
Qed.

Lemma StronglySorted_same {A} (R : relation A) l : (∀ x y, x ∈ l → y ∈ l → R x y) → StronglySorted R l.
Proof.
  induction l as [|x l IH]; intros HR; constructor.
  - apply IH. intros y z Hy Hz. apply HR; by right.
  - apply Forall_forall. intros y Hy. apply HR; [by left|by right].
Qed.

(** An id done with, with nothing new: not stored, or at the depth. *)
Lemma searching_done level i queue boundary boundary' done_ :
  searching level (i :: queue) boundary done_ →
  (m !! i = None ∨ level !! i = Some depth) → NoDup boundary' →
  (∀ j, j ∈ boundary' ↔ j ∈ boundary ∨ j = i ∧ level !! i = Some depth ∧ ∃ c, m !! i = Some c ∧ parents c ≠ []) →
  searching level queue boundary' ({[ i ]} ∪ done_).
Proof.
  intros [] Hi Hnd Hb. apply NoDup_cons in se_nodup0 as [Hiq Hndq]. apply StronglySorted_inv in se_sorted0 as [Hs _].
  split; try done.
  - intros j. rewrite se_known0. set_solver.
  - intros j c l p [->%elem_of_singleton|Hj]%elem_of_union; [|by eapply se_done0].
    intros Hc Hl Hlt. destruct Hi as [Hn|Hd]; [congruence|]. rewrite Hl in Hd. injection Hd as ->. lia.
  - intros j k l l' Hj. eapply se_near0. by right.
  - intros j Hj. specialize (se_fresh0 j). set_solver.
  - intros j. rewrite Hb se_boundary0 elem_of_union elem_of_singleton. split.
    + intros [(? & ? & ?)|(-> & ? & ?)]; tauto.
    + intros ([->|?] & ? & ?); tauto.
Qed.

Lemma reached_parent i c p n : reached n i → m !! i = Some c → p ∈ parents c → reached (S n) p.
Proof. intros (h & Hh & Hn) Hc Hp. exists h. split; [done|]. eapply nsteps_r; [exact Hn|]. by exists c. Qed.

(** An id nearer than the depth: its parents come after all that was met. *)
Lemma searching_expand level i l c queue boundary done_ level' queue' :
  searching level (i :: queue) boundary done_ → level !! i = Some l → l ≠ depth → m !! i = Some c →
  enter_parents l (parents c) level queue = (level', queue') →
  searching level' queue' boundary ({[ i ]} ∪ done_) ∧ length queue' ≤ length queue + length (parents c).
Proof.
  intros [] Hi Hld Hc Hrun. destruct (se_level0 i l Hi) as [Hl Hri].
  destruct (enter_parents_ok l (parents c) level queue) as (added & Hrun' & Hnd & Hadd & Hlen).
  rewrite Hrun' in Hrun. injection Hrun as <- <-. split; [|rewrite length_app; lia].
  assert (∀ j, j ∈ added → (list_to_map ((λ p, (p, (l + 1)%N)) <$> added) ∪ level : Levels) !! j = Some (l + 1)%N) as Hnew.
  { intros j Hj. apply lookup_union_Some_l, elem_of_list_to_map_1.
    - rewrite -list_fmap_compose list_fmap_id. done.
    - apply list_elem_of_fmap. by exists j. }
  assert (∀ j, j ∉ added → (list_to_map ((λ p, (p, (l + 1)%N)) <$> added) ∪ level : Levels) !! j = level !! j) as Hold.
  { intros j Hj. apply lookup_union_r, not_elem_of_list_to_map_1. rewrite -list_fmap_compose list_fmap_id. done. }
  set (level' := _ ∪ level) in *.
  assert (∀ j, is_Some (level !! j) → level' !! j = level !! j) as Hkeep.
  { intros j [x Hj]. apply Hold. intros [_ Hn]%Hadd. congruence. }
  apply NoDup_cons in se_nodup0 as [Hiq Hndq]. apply StronglySorted_inv in se_sorted0 as [Hs Hfirst].
  assert (∀ j lj, j ∈ queue → level !! j = Some lj → (l ≤ lj ≤ l + 1)%N) as Hrange.
  { intros j lj Hj Hlj. split; [|by eapply (se_near0 i j); [left|..]]. rewrite Forall_forall in Hfirst.
    specialize (Hfirst j Hj). unfold lvl in Hfirst. by rewrite Hi Hlj in Hfirst. }
  assert (∀ j lj, level' !! j = Some lj → level !! j = Some lj ∨ j ∈ added ∧ lj = (l + 1)%N) as Hcase.
  { intros j lj Hj. destruct (decide (j ∈ added)) as [Ha|Ha]; [right; rewrite Hnew // in Hj; by injection Hj as <-|left].
    by rewrite Hold in Hj. }
  split.
  - intros j lj [Hj|[Hj ->]]%Hcase; [by apply se_level0|]. apply Hadd in Hj as [Hj _]. split; [lia|].
    replace (N.to_nat (l + 1) - 1) with (S (N.to_nat l - 1)) by lia. by eapply reached_parent.
  - intros j. destruct (decide (j ∈ added)) as [Ha|Ha].
    + rewrite Hnew //. split; [set_solver|by eexists].
    + rewrite Hold // se_known0. set_solver.
  - intros h Hh. rewrite Hkeep; [by apply se_heads0|]. rewrite se_heads0 //.
  - intros j cj lj p [->%elem_of_singleton|Hj]%elem_of_union Hcj Hlj Hlt Hp.
    + simplify_eq. rewrite Hkeep in Hlj; [|by eexists]. simplify_eq.
      destruct (level !! p) as [lp|] eqn:Hlp.
      * exists lp. rewrite Hkeep; [|by eexists]. split; [done|]. eapply se_near0; [by left|done|done].
      * exists (l + 1)%N. split; [|lia]. by apply Hnew, Hadd.
    + rewrite Hkeep in Hlj; [|apply se_known0; by left]. destruct (se_done0 j cj lj p Hj Hcj Hlj Hlt Hp) as (lp & Hlp & ?).
      exists lp. split; [|done]. rewrite Hkeep; [done|by eexists].
  - intros j k lj lk Hj Hlj Hlk. apply Hcase in Hlk.
    assert (l ≤ lj)%N as Hge.
    { apply elem_of_app in Hj as [Hj|Hj]; [|rewrite Hnew // in Hlj; injection Hlj as <-; lia].
      rewrite Hkeep in Hlj; [|apply se_known0; right; by right]. by eapply Hrange. }
    destruct Hlk as [Hk|[_ ->]]; [|lia]. assert (lk ≤ l + 1)%N; [|lia]. eapply se_near0; [by left|done|done].
  - apply StronglySorted_app. split_and!.
    + intros j k Hj Hk. unfold lvl. rewrite (Hnew k Hk) Hkeep; [|apply se_known0; right; by right].
      destruct (level !! j) as [lj|] eqn:Hlj; simpl; [|lia]. by eapply Hrange.
    + eapply StronglySorted_impl_on; [exact Hs|]. intros j k Hj Hk. unfold lvl.
      rewrite !Hkeep //; apply se_known0; right; by right.
    + apply StronglySorted_same. intros j k Hj Hk. unfold lvl. rewrite !Hnew //.
  - apply NoDup_app. split_and!; [done| |done]. intros j Hj [_ Hn]%Hadd.
    assert (is_Some (level !! j)) as [? ?] by (apply se_known0; right; by right). congruence.
  - intros j [Hj|Hj]%elem_of_app.
    + specialize (se_fresh0 j). set_solver.
    + apply Hadd in Hj as [_ Hn]. rewrite elem_of_union elem_of_singleton. intros [->|Hd]; [congruence|].
      assert (is_Some (level !! j)) as [? ?] by (apply se_known0; by left). congruence.
  - intros j. rewrite se_boundary0 elem_of_union elem_of_singleton. split.
    + intros (Hj & Hlj & ?). split_and!; [by right| |done]. by rewrite Hkeep.
    + intros ([->|Hj] & Hlj & ?); [rewrite Hkeep // in Hlj; congruence|].
      rewrite Hkeep in Hlj; [done|]. apply se_known0. by left.
  - done.
Qed.

Lemma boundary_loop_ok fuel level queue boundary done_ :
  searching level queue boundary done_ → length queue + open_slots m done_ < fuel →
  ∃ l level' done', boundary_loop fuel (stored_reads m) depth level queue boundary = Ok l ∧ searching level' [] l done'.
Proof.
  revert level queue boundary done_. induction fuel as [|fuel IH]; intros level queue boundary done_ Hs Hf; [lia|].
  cbn [boundary_loop]. destruct queue as [|i queue]; [by exists boundary, level, done_|].
  assert (is_Some (level !! i)) as [l Hl] by (apply (se_known _ _ _ _ Hs); right; by left). rewrite Hl.
  assert (i ∉ done_) as Hi by (apply (se_fresh _ _ _ _ Hs); by left).
  change (map_err _ (stored_reads m i)) with (Ok (E := stop RepoError) (m !! i)). cbn [mbind result_bind].
  destruct (m !! i) as [c|] eqn:Hc.
  - assert (open_slots m done_ = length (parents c) + open_slots m ({[i]} ∪ done_)) as Hw
      by exact (weight_seen _ m done_ i c Hc Hi).
    simpl in Hf.
    destruct (N.eqb_spec l depth) as [->|Hne].
    + apply (IH _ _ _ ({[i]} ∪ done_)); [|lia]. eapply searching_done; [exact Hs|by right| |].
      * case_bool_decide; [apply Hs|]. apply NoDup_app. split_and!; [apply Hs| |apply NoDup_singleton].
        intros j Hj ->%list_elem_of_singleton. by apply (se_boundary _ _ _ _ Hs) in Hj as [? _].
      * intros j. case_bool_decide as Hp; [|rewrite elem_of_app list_elem_of_singleton].
        -- split; [by left|]. intros [?|(-> & _ & c' & Hc' & ?)]; [done|]. congruence.
        -- split; [|tauto]. intros [?| ->]; [by left|right]. split_and!; [done|done|by exists c].
    + destruct (enter_parents l (parents c) level queue) as [level' queue'] eqn:Hrun.
      destruct (searching_expand _ _ _ _ _ _ _ _ _ Hs Hl Hne Hc Hrun) as [Hs' Hlen]. apply (IH _ _ _ ({[i]} ∪ done_)); [exact Hs'|]. lia.
  - assert (open_slots m ({[i]} ∪ done_) = open_slots m done_) as Hw by exact (weight_skip _ m done_ i Hc).
    simpl in Hf. apply (IH _ _ _ ({[i]} ∪ done_)); [|lia]. eapply searching_done; [exact Hs|by left|apply Hs|].
    intros j. split; [by left|]. intros [?|(_ & _ & c & Hc' & _)]; [done|congruence].
Qed.

Lemma known_done level boundary done_ i : searching level [] boundary done_ → is_Some (level !! i) → i ∈ done_.
Proof. intros Hs Hi. apply (se_known _ _ _ _ Hs) in Hi as [?|?%elem_of_nil]; done. Qed.

(** Levels are distances. *)
Lemma searching_levels level boundary done_ i n :
  searching level [] boundary done_ → reached n i → n < N.to_nat depth →
  ∃ l, level !! i = Some l ∧ (N.to_nat l ≤ n + 1) ∧ i ∈ done_.
Proof.
  intros Hs (h & Hh & Hn). revert i Hn. induction n as [|n IH]; intros i Hn Hlt.
  - inversion Hn; subst. exists 1%N. rewrite (se_heads _ _ _ _ Hs) //. split_and!; [done|lia|].
    eapply known_done; [exact Hs|]. by rewrite (se_heads _ _ _ _ Hs).
  - apply nsteps_inv_r in Hn as (j & Hj & c & Hc & Hp). destruct (IH j Hj) as (l & Hl & Hle & Hd); [lia|].
    destruct (se_done _ _ _ _ Hs j c l i Hd Hc Hl) as (l' & Hl' & ?); [lia|done|].
    exists l'. split_and!; [done|lia|]. eapply known_done; [exact Hs|]. by eexists.
Qed.

Lemma boundary_exact level boundary done_ i :
  searching level [] boundary done_ →
  i ∈ boundary ↔ at_depth i ∧ ∃ c, m !! i = Some c ∧ parents c ≠ [].
Proof.
  intros Hs. rewrite (se_boundary _ _ _ _ Hs). split.
  - intros (Hd & Hl & Hc). split; [|done]. split; [by eapply se_level|].
    intros n Hn Hr. destruct (searching_levels _ _ _ i n Hs Hr) as (l & Hl' & Hle & _); [lia|].
    rewrite Hl in Hl'. injection Hl' as <-. lia.
  - intros [[Hr Hmin] Hc]. destruct (searching_levels _ _ _ i _ Hs Hr) as (l & Hl & Hle & Hd); [lia|].
    split_and!; [done| |done]. rewrite Hl. f_equal. destruct (se_level _ _ _ _ Hs i l Hl) as [Hpos Hrl].
    destruct (decide (l = depth)) as [|Hne]; [done|]. exfalso. apply (Hmin (N.to_nat l - 1)); [lia|done].
Qed.

Lemma depth_boundary_ok fuel :
  length heads + open_slots m ∅ < fuel →
  ∃ l, depth_boundary fuel (stored_reads m) heads depth = Ok l ∧ StronglySorted oid_le l ∧ NoDup l ∧
    ∀ i, i ∈ l ↔ at_depth i ∧ ∃ c, m !! i = Some c ∧ parents c ≠ [].
Proof.
  intros Hf. unfold depth_boundary. destruct (N.eqb_spec depth 0); [lia|].
  destruct (enter_heads_ok heads ∅ []) as (level & queue & -> & Hs & Hlen).
  { intros i l. by rewrite lookup_empty. }
  { intros i. rewrite lookup_empty. split; [by intros []|by intros ?%elem_of_nil]. }
  { constructor. }
  { done. }
  { by left. }
  destruct (boundary_loop_ok fuel level queue [] ∅ Hs) as (l & level' & done' & -> & Hs'); [simpl in Hlen; lia|].
  exists (merge_sort oid_le l). split_and!; [done|apply StronglySorted_merge_sort; apply _| |].
  - rewrite merge_sort_Permutation. apply Hs'.
  - intros i. rewrite merge_sort_Permutation. by eapply boundary_exact.
Qed.
End depth.

(** ** The recorded boundaries *)

Lemma refs_of_lookup s ns name : refs_of s ns !! name = refs s !! (ns, name).
Proof.
  unfold refs_of. set (f := λ kv : string * string * ObjectId, _).
  assert (∀ k t, (k, t) ∈ omap f (map_to_list (refs s)) ↔ refs s !! (ns, k) = Some t) as Hin.
  { intros k t. rewrite list_elem_of_omap. split.
    - intros ([[n k'] t'] & Hm%elem_of_map_to_list & Hf). unfold f in Hf. simpl in Hf.
      case_decide; [|done]. by injection Hf as -> ->; subst.
    - intros Hk. exists (ns, k, t). split; [by apply elem_of_map_to_list|]. unfold f. simpl. by rewrite decide_True. }
  assert (NoDup (omap f (map_to_list (refs s))).*1) as Hnd.
  { assert (∀ l : list (string * string * ObjectId), NoDup l.*1 → NoDup (omap f l).*1) as H;
      [|apply H, NoDup_fst_map_to_list].
    induction l as [|[[n k] t] l IH]; [constructor|]. csimpl. intros [Hk Hl]%NoDup_cons.
    unfold f at 1. simpl. case_decide; csimpl; [|by apply IH]. constructor; [|by apply IH].
    intros ([k' t'] & Heq & ([[n' k2] t2] & Hm & Hf)%list_elem_of_omap)%list_elem_of_fmap. apply Hk.
    unfold f in Hf. simpl in *. case_decide; [|done]. injection Hf as -> ->. simplify_eq.
    apply list_elem_of_fmap. eexists. split; [|exact Hm]. done. }
  destruct (refs s !! (ns, name)) as [t|] eqn:Ht.
  - apply elem_of_list_to_map; [done|]. by apply Hin.
  - apply not_elem_of_list_to_map. intros ([k t] & Hk & Hm%Hin)%list_elem_of_fmap. simpl in Hk. subst. congruence.
Qed.

Lemma list_refs_default s prefix :
  DEFAULT_NAMESPACE ∈ namespaces s →
  ∃ l, list_refs s default_ns prefix = Ok l ∧ NoDup l.*1 ∧
    ∀ name t, (name, t) ∈ l ↔ refs s !! (DEFAULT_NAMESPACE, name) = Some t ∧ starts_with prefix name.
Proof.
  intros Hd. eexists. split; [|split].
  - unfold list_refs, require_namespace. by rewrite decide_True.
  - apply (NoDup_fmap_List_filter fst), entries_NoDup.
  - intros name t. rewrite elem_of_List_filter elem_of_entries refs_of_lookup. done.
Qed.

(** A boundary's ref is named after its commit. *)
Definition recorded (r : gmap (string * string) ObjectId) (i : ObjectId) : Prop :=
  r !! (DEFAULT_NAMESPACE, shallow_name i) = Some i.
Definition boundary_key (k : string * string) : Prop := k.1 = DEFAULT_NAMESPACE ∧ starts_with SHALLOW_PREFIX k.2.
Definition boundaries_named (r : gmap (string * string) ObjectId) : Prop :=
  ∀ k i, boundary_key k → r !! k = Some i → k.2 = shallow_name i.

Lemma shallow_name_inj i j : shallow_name i = shallow_name j → i = j.
Proof.
  unfold shallow_name. intros H. apply (f_equal (strip_prefix SHALLOW_PREFIX)) in H.
  rewrite !strip_prefix_app in H. injection H as H%to_hex_inj. destruct i, j. by f_equal.
Qed.

Lemma boundary_key_name i : boundary_key (DEFAULT_NAMESPACE, shallow_name i).
Proof. split; [done|]. apply starts_with_spec. by eexists. Qed.

(** The world with other refs. *)
Definition with_refs (w : World) (r : gmap (string * string) ObjectId) : World :=
  with_store w (set_refs (w_store w) r).

Section boundaries.
Context (w : World) (Hns : DEFAULT_NAMESPACE ∈ namespaces (w_store w)).
Abbreviation complete i := (has_all_parents (w_store w) i).

(** What recording has come to: the boundaries in [X], named, and the rest of
    the refs as they were. *)
Record boundaries (X : ObjectId → Prop) (r : gmap (string * string) ObjectId) : Prop := {
  bo_recorded i : recorded r i ↔ X i;
  bo_named : boundaries_named r;
  bo_rest k : ¬ boundary_key k → r !! k = refs (w_store w) !! k;
}.

Lemma boundaries_insert X r i :
  boundaries X r → boundaries (λ j, X j ∨ j = i) (<[(DEFAULT_NAMESPACE, shallow_name i) := i]> r).
Proof.
  intros [Hr Hn Hrest]. split.
  - intros j. unfold recorded. destruct (decide (j = i)) as [->|Hji].
    + rewrite lookup_insert_eq. naive_solver.
    + rewrite lookup_insert_ne; [|by intros ?%(f_equal snd)%shallow_name_inj]. unfold recorded in Hr. rewrite Hr. naive_solver.
  - intros k j Hk. destruct (decide (k = (DEFAULT_NAMESPACE, shallow_name i))) as [->|Hne].
    + rewrite lookup_insert_eq. by intros [= <-].
    + rewrite lookup_insert_ne //. by apply Hn.
  - intros k Hk. rewrite lookup_insert_ne; [by apply Hrest|]. intros <-. by apply Hk, boundary_key_name.
Qed.

Lemma boundaries_delete X r i :
  boundaries X r → boundaries (λ j, X j ∧ j ≠ i) (delete (DEFAULT_NAMESPACE, shallow_name i) r).
Proof.
  intros [Hr Hn Hrest]. split.
  - intros j. unfold recorded. destruct (decide (j = i)) as [->|Hji].
    + rewrite lookup_delete_eq. naive_solver.
    + rewrite lookup_delete_ne; [|by intros ?%(f_equal snd)%shallow_name_inj]. unfold recorded in Hr. rewrite Hr. naive_solver.
  - intros k j Hk [_ Hj]%lookup_delete_Some. by apply Hn.
  - intros k Hk. rewrite lookup_delete_ne; [by apply Hrest|]. intros <-. by apply Hk, boundary_key_name.
Qed.

Lemma boundaries_ext X Y r : (∀ i, X i ↔ Y i) → boundaries X r → boundaries Y r.
Proof. intros HXY []. split; [|done..]. intros i. by rewrite -HXY. Qed.

Lemma set_boundaries_ok seen l X r :
  boundaries X r → (∀ i, i ∈ seen → X i ∨ complete i) →
  ∃ r', run (set_boundaries seen l) (with_refs w r) = (Ok (), with_refs w r') ∧
    boundaries (λ i, X i ∨ i ∈ l ∧ ¬ complete i) r'.
Proof.
  revert seen X r. induction l as [|i l IH]; intros seen X r Hb Hseen; cbn [set_boundaries].
  { exists r. split; [done|]. eapply boundaries_ext; [|exact Hb]. intros j. set_solver. }
  case_decide as Hi.
  - destruct (IH seen X r Hb Hseen) as (r' & Hrun & Hb'). exists r'. split; [done|].
    eapply boundaries_ext; [|exact Hb']. intros j. rewrite elem_of_cons. specialize (Hseen i Hi). naive_solver.
  - rewrite run_bind. rewrite (stateful_seq _ _ (with_refs w r) (complete i) (with_refs w r)); [|done].
    destruct (complete i) eqn:Hc; rewrite run_bind.
    + rewrite (stateful_seq _ _ (with_refs w r) () (with_refs w r)); [|done].
      destruct (IH ({[ i ]} ∪ seen) X r Hb) as (r' & Hrun & Hb').
      { intros j [->%elem_of_singleton|Hj]%elem_of_union; [right; by rewrite Hc|by apply Hseen]. }
      exists r'. split; [done|]. eapply boundaries_ext; [|exact Hb'].
      intros j. rewrite elem_of_cons. split; [naive_solver|]. intros [?|[[->|?] Hn]]; [by left|by rewrite Hc in Hn|by right].
    + rewrite (stateful_seq _ _ (with_refs w r) () (with_refs w (<[(DEFAULT_NAMESPACE, shallow_name i) := i]> r))).
      2: { rewrite run_step. unfold set_ref, mbind, stateful_bind, reading, require_namespace. simpl. by rewrite decide_True. }
      destruct (IH ({[ i ]} ∪ seen) _ _ (boundaries_insert X r i Hb)) as (r' & Hrun & Hb').
      { intros j [->%elem_of_singleton|Hj]%elem_of_union; [left; by right|]. destruct (Hseen j Hj); [left; by left|by right]. }
      exists r'. split; [done|]. eapply boundaries_ext; [|exact Hb'].
      intros j. rewrite elem_of_cons. split; [|naive_solver].
      intros [[?| ->]|[? ?]]; [by left| |naive_solver]. right. split; [by left|]. rewrite Hc. by intros [].
Qed.

Lemma drop_boundary_ok X r name i :
  boundaries X r → r !! (DEFAULT_NAMESPACE, name) = Some i → starts_with SHALLOW_PREFIX name →
  ∃ r', run (drop_boundary (name, i)) (with_refs w r) = (Ok (), with_refs w r') ∧
    boundaries (λ j, X j ∧ ¬ (j = i ∧ complete i)) r'.
Proof.
  intros Hb Hi Hp. unfold drop_boundary. rewrite run_bind. cbn [snd fst].
  rewrite (stateful_seq _ _ (with_refs w r) (complete i) (with_refs w r)); [|done].
  destruct (complete i) eqn:Hc.
  - assert (name = shallow_name i) as -> by (apply (bo_named _ _ Hb (DEFAULT_NAMESPACE, name) i); [by split|done]).
    rewrite run_bind. rewrite (stateful_seq _ _ _ true (with_refs w (delete (DEFAULT_NAMESPACE, shallow_name i) r))).
    2: { rewrite run_step. unfold cas_delete_ref, mbind, stateful_bind, reading, require_namespace, action. simpl.
         rewrite decide_True // decide_True //. }
    eexists. split; [done|]. eapply boundaries_ext; [|by apply boundaries_delete]. intros j. simpl.
    split; intros [? Hn]; (split; [done|]); naive_solver.
  - exists r. split; [done|]. eapply boundaries_ext; [|exact Hb]. intros j. naive_solver.
Qed.

Lemma drop_boundaries_ok X r l :
  boundaries X r → NoDup l.*1 →
  (∀ name i, (name, i) ∈ l → r !! (DEFAULT_NAMESPACE, name) = Some i ∧ starts_with SHALLOW_PREFIX name) →
  ∃ r', run (each drop_boundary l) (with_refs w r) = (Ok (), with_refs w r') ∧
    boundaries (λ i, X i ∧ ¬ (complete i ∧ i ∈ l.*2)) r'.
Proof.
  intros Hb. revert X r Hb. induction l as [|[name i] l IH]; intros X r Hb Hnd Hl; cbn [each].
  { exists r. split; [done|]. eapply boundaries_ext; [|exact Hb]. intros i. csimpl. set_solver. }
  csimpl in Hnd. apply NoDup_cons in Hnd as [Hname Hnd].
  destruct (Hl name i) as [Hi Hp]; [by left|].
  destruct (drop_boundary_ok X r name i Hb Hi Hp) as (r1 & Hrun & Hb1).
  destruct (IH _ r1 Hb1 Hnd) as (r2 & Hrun2 & Hb2).
  { intros name' j Hj. destruct (Hl name' j) as [Hj' Hp']; [by right|]. split; [|done].
    assert (name' = shallow_name j) as -> by (apply (bo_named _ _ Hb (DEFAULT_NAMESPACE, name') j); [by split|done]).
    apply (bo_recorded _ _ Hb1). split; [by apply (bo_recorded _ _ Hb)|]. intros [-> _]. apply Hname.
    assert (name = shallow_name i) as -> by (apply (bo_named _ _ Hb (DEFAULT_NAMESPACE, name) i); [by split|done]).
    apply list_elem_of_fmap. by exists (shallow_name i, i). }
  exists r2. split; [rewrite run_bind; by rewrite (stateful_seq _ _ _ _ _ Hrun)|].
  eapply boundaries_ext; [|exact Hb2]. intros j. csimpl. rewrite elem_of_cons. naive_solver.
Qed.

Lemma record_shallow_ok l :
  boundaries_named (refs (w_store w)) →
  ∃ r', run (record_shallow l) w = (Ok (), with_refs w r') ∧
    boundaries (λ i, (recorded (refs (w_store w)) i ∨ i ∈ l) ∧ ¬ complete i) r'.
Proof.
  intros Hn. assert (w = with_refs w (refs (w_store w))) as Hw by by destruct w as [[]].
  destruct (set_boundaries_ok ∅ l (recorded (refs (w_store w))) (refs (w_store w))) as (r1 & Hrun1 & Hb1);
    [by split|set_solver|]. rewrite -Hw in Hrun1.
  destruct (list_refs_default (w_store (with_refs w r1)) SHALLOW_PREFIX Hns) as (ls & Hls & Hnd & Hin).
  destruct (drop_boundaries_ok _ r1 ls Hb1 Hnd) as (r2 & Hrun2 & Hb2); [intros name i; by apply Hin|].
  exists r2. split.
  - unfold record_shallow. rewrite run_bind (stateful_seq _ _ _ _ _ Hrun1) run_bind.
    rewrite (stateful_seq _ _ (with_refs w r1) ls (with_refs w r1)); [done|].
    rewrite run_step. unfold reading. by rewrite Hls.
  - eapply boundaries_ext; [|exact Hb2]. intros i. simpl. split.
    + intros [HX Hni]. assert (¬ complete i) as Hc; [|naive_solver]. intros Hc. apply Hni. split; [done|].
      apply list_elem_of_fmap. exists (shallow_name i, i). split; [done|]. apply Hin. split.
      * by apply (bo_recorded _ _ Hb1).
      * apply boundary_key_name.
    + intros [[?|?] Hc]; (split; [|by intros [? _]]); [by left|by right].
Qed.
End boundaries.

(** Whatever the refs are named, recording ends and only touches boundaries. *)
Definition off_boundaries (r r' : gmap (string * string) ObjectId) : Prop := ∀ k, ¬ boundary_key k → r' !! k = r !! k.

Lemma record_shallow_rest w l :
  DEFAULT_NAMESPACE ∈ namespaces (w_store w) →
  ∃ r, run (record_shallow l) w = (Ok (), with_refs w r) ∧ off_boundaries (refs (w_store w)) r.
Proof.
  intros Hns. assert (w = with_refs w (refs (w_store w))) as Hw by by destruct w as [[]].
  assert (∀ l seen r, ∃ r', run (set_boundaries seen l) (with_refs w r) = (Ok (), with_refs w r') ∧ off_boundaries r r') as H1.
  { clear l Hw. induction l as [|i l IH]; intros seen r; cbn [set_boundaries]; [by exists r|]. case_decide; [by apply IH|].
    rewrite run_bind (stateful_seq _ _ (with_refs w r) (has_all_parents (w_store w) i) (with_refs w r)); [|done].
    destruct (has_all_parents (w_store w) i); rewrite run_bind.
    - rewrite (stateful_seq _ _ (with_refs w r) () (with_refs w r)); [apply IH|done].
    - rewrite (stateful_seq _ _ (with_refs w r) () (with_refs w (<[(DEFAULT_NAMESPACE, shallow_name i) := i]> r))).
      2: { rewrite run_step. unfold set_ref, mbind, stateful_bind, reading, require_namespace. simpl. by rewrite decide_True. }
      destruct (IH ({[ i ]} ∪ seen) (<[(DEFAULT_NAMESPACE, shallow_name i) := i]> r)) as (r' & Hrun & Hr).
      exists r'. split; [done|]. intros k Hk. rewrite Hr // lookup_insert_ne //. intros <-. by apply Hk, boundary_key_name. }
  assert (∀ ls r, (∀ x, x ∈ ls → starts_with SHALLOW_PREFIX x.1) →
    ∃ r', run (each drop_boundary ls) (with_refs w r) = (Ok (), with_refs w r') ∧ off_boundaries r r') as H2.
  { clear l Hw. induction ls as [|[name i] ls IH]; intros r Hls; cbn [each]; [by exists r|].
    assert (∃ r1, run (drop_boundary (name, i)) (with_refs w r) = (Ok (), with_refs w r1) ∧ off_boundaries r r1) as (r1 & Hrun & Hr1).
    { unfold drop_boundary. rewrite run_bind. cbn [fst snd].
      rewrite (stateful_seq _ _ (with_refs w r) (has_all_parents (w_store w) i) (with_refs w r)); [|done].
      destruct (has_all_parents (w_store w) i); [|by exists r]. rewrite run_bind.
      destruct (decide (r !! (DEFAULT_NAMESPACE, name) = Some i)) as [Hd|Hd].
      - rewrite (stateful_seq _ _ _ true (with_refs w (delete (DEFAULT_NAMESPACE, name) r))).
        2: { rewrite run_step. unfold cas_delete_ref, mbind, stateful_bind, reading, require_namespace, action. simpl.
             rewrite decide_True // decide_True //. }
        eexists. split; [done|]. intros k Hk. rewrite lookup_delete_ne //. intros <-.
        apply Hk. split; [done|]. apply (Hls (name, i)). by left.
      - rewrite (stateful_seq _ _ _ false (with_refs w r)); [by exists r|].
        rewrite run_step. unfold cas_delete_ref, mbind, stateful_bind, reading, require_namespace, action. simpl.
        rewrite decide_True // decide_False //. }
    destruct (IH r1) as (r2 & Hrun2 & Hr2); [intros; apply Hls; by right|]. exists r2.
    split; [rewrite run_bind; by rewrite (stateful_seq _ _ _ _ _ Hrun)|]. intros k Hk. rewrite Hr2 //. by apply Hr1. }
  destruct (H1 l ∅ (refs (w_store w))) as (r1 & Hrun1 & Hr1). rewrite -Hw in Hrun1.
  destruct (list_refs_default (w_store (with_refs w r1)) SHALLOW_PREFIX Hns) as (ls & Hls & _ & Hin).
  destruct (H2 ls r1) as (r2 & Hrun2 & Hr2); [by intros [name i] [_ ?]%Hin|].
  exists r2. split; [|intros k Hk; rewrite Hr2 //; by apply Hr1].
  unfold record_shallow. rewrite run_bind (stateful_seq _ _ _ _ _ Hrun1) run_bind.
  rewrite (stateful_seq _ _ (with_refs w r1) ls (with_refs w r1)); [done|]. rewrite run_step. unfold reading. by rewrite Hls.
Qed.

(** ** Properties *)

(** C25: A fetch of limited depth is cut exactly there: the boundary is, in order and
    once each, the stored commits with parents whose shortest line from a head
    has [depth] commits, on any graph, cycles and heads that are not there
    included; depth 0 is the one error. *)
Theorem depth_boundary_spec m heads depth fuel :
  length heads + open_slots m ∅ < fuel →
  match depth_boundary fuel (stored_reads m) heads depth with
  | Ok l => StronglySorted oid_le l ∧ NoDup l ∧
      ∀ i, i ∈ l ↔ at_depth m heads depth i ∧ ∃ c, m !! i = Some c ∧ parents c ≠ []
  | Err e => depth = 0%N ∧ ∃ msg, e = Fail (InvalidOp msg)
  end.
Proof.
  intros Hf. destruct (decide (depth = 0%N)) as [->|Hd]; [split; [done|by eexists]|].
  destruct (depth_boundary_ok m heads depth ltac:(lia) fuel Hf) as (l & -> & ?). done.
Qed.

(** C26: After an exchange the recorded boundaries are exactly the commits, recorded
    before or received as shallow, that lack a parent here (or are not here
    themselves): a boundary goes once its parents arrive. No other ref and
    nothing else of the store changes, and boundaries keep their names. *)
Theorem record_shallow_spec w l :
  DEFAULT_NAMESPACE ∈ namespaces (w_store w) → boundaries_named (refs (w_store w)) →
  ∃ r, run (record_shallow l) w = (Ok (), with_refs w r) ∧ boundaries_named r ∧
    (∀ i, recorded r i ↔ (recorded (refs (w_store w)) i ∨ i ∈ l) ∧ ¬ has_all_parents (w_store w) i) ∧
    ∀ k, ¬ boundary_key k → r !! k = refs (w_store w) !! k.
Proof. intros Hns Hn. destruct (record_shallow_ok w Hns l Hn) as (r & Hrun & []). by exists r. Qed.

(** *** Witnesses *)

Lemma depth_boundary_spec_witness :
  depth_boundary 10 (stored_reads diamond) [Oid "tip"] 2 = Ok [Oid "left"; Oid "right"] ∧
  at_depth diamond [Oid "tip"] 2 (Oid "left") ∧ ¬ at_depth diamond [Oid "tip"] 2 (Oid "base").
Proof.
  assert (depth_boundary 10 (stored_reads diamond) [Oid "tip"] 2 = Ok [Oid "left"; Oid "right"]) as He by by vm_compute.
  split; [exact He|]. pose proof (depth_boundary_spec diamond [Oid "tip"] 2 10 ltac:(vm_compute; lia)) as H.
  rewrite He in H. destruct H as (_ & _ & Hex). split.
  - apply Hex. by left.
  - intros [(h & ->%list_elem_of_singleton & Hn) _]. change (N.to_nat 2 - 1) with 1 in Hn.
    apply nsteps_once_inv in Hn as (c & Hc & Hp). vm_compute in Hc. injection Hc as <-.
    apply list_elem_of_In in Hp. vm_compute in Hp. naive_solver.
Defined.

(** A store that has the diamond but for its base, with the tip recorded. *)
Definition cut_world : World := {|
  w_store := set_refs (set_commits mem_new (delete (Oid "base") diamond))
    {[ (DEFAULT_NAMESPACE, shallow_name (Oid "tip")) := Oid "tip" ]};
  w_specs := ∅ |}.

Lemma record_shallow_spec_witness :
  ∃ r, run (record_shallow [Oid "left"; Oid "left"]) cut_world = (Ok (), with_refs cut_world r) ∧
    recorded r (Oid "left") ∧ ¬ recorded r (Oid "tip").
Proof.
  destruct (record_shallow_spec cut_world [Oid "left"; Oid "left"]) as (r & Hrun & _ & Hr & _).
  - vm_compute. done.
  - intros k i _ Hk. unfold cut_world in Hk. cbn [w_store refs set_refs] in Hk.
    apply lookup_singleton_Some in Hk as [<- <-]. done.
  - exists r. split_and!; [exact Hrun| |].
    + apply Hr. split; [right; by left|]. vm_compute. by intros [].
    + intros [_ Hn]%Hr. apply Hn. by vm_compute.
Defined.
