(* ===== verification/Transfers.v ===== *)
(** * Transfers: exporting and importing a store

    Models [agentstategraph/src/sync/store.rs]: writing a missing set as a
    bundle, storing the records of a bundle, and the export and import of a
    whole store, as programs over the shared store, each up to the
    reconciliation of the control tables before the first and after the second,
    which [control_repo.rs] has. *)
From S2P Require Import Prelude Objects Paths Json Intents Sessions Commits Epochs Taints Stores Memory.
From S2P Require Import Diffs Merges Trees TreeJson Specs Guards Ancestry Integrity Programs Repos.
From S2P Require Import Missing Packs Bundles Shallows.

Definition BATCH : nat := 1024.

Inductive TransferError : Type :=
  | TBundle (e : BundleError)
  | TRepo (e : RepoError)
  | Incomplete (msg : string)
  | RefConflict (refs : list string).

Definition transfer_error_code (e : TransferError) : string :=
  match e with
  | TBundle e => bundle_error_code e
  | TRepo e => repo_error_code e
  | Incomplete _ => "bundle_incomplete"
  | RefConflict _ => "ref_conflict"
  end.

Abbreviation TE := (stop TransferError).
Abbreviation PT := (Prog World TE).

Record ExportReport := {
  ex_refs : nat;
  ex_commits : nat;
  ex_objects : nat;
  ex_shallow : nat;
  ex_pruned : nat;
}.

Record ImportReport := {
  im_refs : nat;
  im_commits : nat;
  im_objects : nat;
  im_shallow : nat;
  im_pruned : nat;
}.

(** ** Errors of the layers below *)

Definition stop_map {E F} (f : E → F) (e : stop E) : stop F :=
  match e with OutOfFuel => OutOfFuel | Fail e => Fail (f e) end.

Definition in_repo {A} (p : P A) : PT A := map_error (stop_map TRepo) p.
Definition throw_transfer {A} (e : TransferError) : PT A := fail (Fail e).

(** The walk's own errors are errors of storage, or it has none. *)
Definition walk_error (e : WalkError) : TE :=
  match e with
  | WStorage e => Fail (TRepo (StorageErr e))
  | WPanic | WFuel => OutOfFuel
  end.

Section transfers.
Context `{CH : ContentHash, CS : CommitSerial, ZS : Zstd, SJ : Serde, TX : Text}.

(** ** Writing a missing set *)

Abbreviation BT := (stateful BundleWriter TransferError).

Definition bundled {A} (p : stateful BundleWriter BundleError A) : BT A := map_err_st TBundle p.

(** One chunk of objects, as the store has them. *)
Definition write_chunk (s : MemoryStorage) (chunk : list ObjectId) : BT () :=
  objs ← lift (map_err (λ e, TRepo (StorageErr e)) (batch_get_objects (mem_get_object s) chunk));
  for_each (λ io, match io.2 with
    | None => throw (TRepo (StorageErr (ObjectNotFound (oid_display io.1))))
    | Some o => bundled (write_object o)
    end) (zip chunk objs).

Definition write_sent_commit (s : MemoryStorage) (id : ObjectId) : BT () :=
  match get_commit s id with
  | None => throw (TRepo (StorageErr (CommitNotFound (oid_display id))))
  | Some c => bundled (write_commit c)
  end.

Definition write_set_to (s : MemoryStorage) (set : MissingSet) (refs : list BundleRef) : BT string :=
  _ ← for_each (write_chunk s) (chunks BATCH (missing_objects set));
  _ ← for_each (write_sent_commit s) (missing_commits set);
  _ ← for_each (λ id, bundled (write_shallow id)) (missing_shallow set);
  _ ← for_each (λ r, bundled (write_ref r)) refs;
  bundled writer_finish.

Definition write_set (s : MemoryStorage) (set : MissingSet) (refs : list BundleRef) : result TransferError string :=
  (write_set_to s set refs writer_new).1.

(** ** Storing what a bundle holds *)

Record Received := {
  rc_refs : list BundleRef;
  rc_shallow : gset ObjectId;
  rc_commits : list (ObjectId * ObjectId * list ObjectId);
  rc_objects : nat;
}.

Definition received_nothing : Received :=
  {| rc_refs := []; rc_shallow := ∅; rc_commits := []; rc_objects := 0 |}.
Definition receive_ref (x : Received) (r : BundleRef) : Received := {|
  rc_refs := rc_refs x ++ [r]; rc_shallow := rc_shallow x; rc_commits := rc_commits x; rc_objects := rc_objects x |}.
Definition receive_shallow (x : Received) (id : ObjectId) : Received := {|
  rc_refs := rc_refs x; rc_shallow := {[ id ]} ∪ rc_shallow x; rc_commits := rc_commits x; rc_objects := rc_objects x |}.
Definition receive_commit (x : Received) (c : Commit) : Received := {|
  rc_refs := rc_refs x; rc_shallow := rc_shallow x;
  rc_commits := rc_commits x ++ [(commit_id c, state_root c, parents c)]; rc_objects := rc_objects x |}.
Definition receive_objects (x : Received) (n : nat) : Received := {|
  rc_refs := rc_refs x; rc_shallow := rc_shallow x; rc_commits := rc_commits x; rc_objects := rc_objects x + n |}.

Definition put_batch (objs : list Object) : PT () :=
  _ ← in_repo (storage (batch_put_objects objs)); mret ().

Definition put_one_commit (c : Commit) : PT () :=
  in_repo (storage (action (λ s, (Ok (), put_commit s c)))).

Fixpoint store_loop (fuel : nat) (rd : BundleReader) (received : Received) (pending : list Object) : PT Received :=
  match fuel with
  | 0 => fail OutOfFuel
  | S fuel' =>
      match next_record rd with
      | (Err e, _) => throw_transfer (TBundle e)
      | (Ok None, _) =>
          _ ← put_batch pending; mret (receive_objects received (length pending))
      | (Ok (Some x), rd') =>
          match x with
          | RecObject _ o =>
              let pending' := pending ++ [o] in
              if decide (length pending' = BATCH) then
                _ ← put_batch pending'; store_loop fuel' rd' (receive_objects received (length pending')) []
              else store_loop fuel' rd' received pending'
          | RecCommit c => _ ← put_one_commit c; store_loop fuel' rd' (receive_commit received c) pending
          | RecShallow id => store_loop fuel' rd' (receive_shallow received id) pending
          | RecRef r => store_loop fuel' rd' (receive_ref received r) pending
          end
      end
  end.

Definition store_records (rd : BundleReader) : PT Received :=
  store_loop (S (String.length (rd_rest rd))) rd received_nothing [].

(** ** Export *)

(** The refs of one namespace, but the bookkeeping beside the control ref. *)
Definition exported_refs (ns : Namespace) (l : list (string * ObjectId)) : list BundleRef :=
  (λ nt, {| br_namespace := ns; br_name := nt.1; br_target := nt.2 |}) <$>
    List.filter (λ nt, negb (is_reserved_ref nt.1 && negb (bool_decide (nt.1 = CONTROL_REF)))) l.

Fixpoint collect_refs (nss : list Namespace) : PT (list BundleRef) :=
  match nss with
  | [] => mret []
  | ns :: nss' =>
      l ← in_repo (storage (reading (λ s, list_refs s ns EmptyString)));
      rest ← collect_refs nss';
      mret (exported_refs ns l ++ rest)
  end.

(** A [BTreeSet] of the targets. *)
Definition heads_of (refs : list BundleRef) : list ObjectId :=
  merge_sort oid_le (elements (list_to_set (br_target <$> refs) : gset ObjectId)).

(** The refs, once the control tables are reconciled, and what they reach. *)
Definition export_plan (fuel tree_fuel : nat) (inter : gset ObjectId → list ObjectId) :
    PT (list BundleRef * MissingSet) :=
  nss ← in_repo (storage (reading (λ s, Ok (list_namespaces s))));
  refs ← collect_refs nss;
  set ← step (reading (λ w, map_err walk_error
    (missing_set fuel tree_fuel inter (λ i, Ok (get_commit (w_store w) i)) (mem_get_object (w_store w))
       (mem_has_object (w_store w)) (heads_of refs) [] [])));
  mret (refs, set).

Definition export_reconciled (fuel tree_fuel : nat) (inter : gset ObjectId → list ObjectId) :
    PT (string * ExportReport) :=
  '(refs, set) ← export_plan fuel tree_fuel inter;
  out ← step (reading (λ w, map_err Fail (write_set (w_store w) set refs)));
  mret (out, {| ex_refs := length refs; ex_commits := length (missing_commits set);
    ex_objects := length (missing_objects set); ex_shallow := length (missing_shallow set);
    ex_pruned := length (missing_pruned set) |}).

(** ** Import *)

Definition has_commit_here (id : ObjectId) : PT bool := step (reading (λ w, Ok (has_commit (w_store w) id))).

Definition check_parent (id parent : ObjectId) : PT () :=
  there ← has_commit_here parent;
  if there : bool then mret () else
  throw_transfer (Incomplete ("commit " +:+ oid_display id +:+ " has a parent, " +:+ oid_display parent +:+ ", that isn't here")).

(** Every parent of a commit not marked shallow, and how many roots are gone. *)
Fixpoint check_commits (shallow : gset ObjectId) (cs : list (ObjectId * ObjectId * list ObjectId)) (pruned : nat) :
    PT nat :=
  match cs with
  | [] => mret pruned
  | (id, root, ps) :: cs' =>
      _ ← (if decide (id ∈ shallow) then mret () else each (check_parent id) ps);
      there ← in_repo (storage (reading (λ s, mem_has_object s root)));
      check_commits shallow cs' (if there : bool then pruned else S pruned)
  end.

Definition check_ref (tree_fuel : nat) (r : BundleRef) : PT () :=
  there ← has_commit_here (br_target r);
  if negb there then
    throw_transfer (Incomplete (ref_display r +:+ " points at " +:+ oid_display (br_target r) +:+ ", which isn't here"))
  else
  missing ← in_repo (read_store (λ s,
    first_missing_object (mem_get_object s) (λ i, Ok (get_commit s i)) tree_fuel (br_target r)));
  match missing with
  | Some i => throw_transfer (Incomplete (ref_display r +:+ "'s tree lacks " +:+ oid_display i))
  | None => mret ()
  end.

(** The refs that point elsewhere here; an absent namespace has none. *)
Fixpoint ref_conflicts (rs : list BundleRef) (conflicts : list string) : PT (list string) :=
  match rs with
  | [] => mret conflicts
  | r :: rs' =>
      here ← step (reading (λ w,
        match get_ref (w_store w) (br_namespace r) (br_name r) with
        | Ok here => Ok here
        | Err (NamespaceNotFound _) => Ok None
        | Err e => Err (Fail (TRepo (StorageErr e)))
        end));
      ref_conflicts rs'
        (match here with
         | Some t => if bool_decide (t = br_target r) then conflicts else conflicts ++ [ref_display r]
         | None => conflicts
         end)
  end.

(** [Repository::create_namespace]: one that is there is fine. *)
Definition ensure_namespace (name : string) : P () :=
  match namespace_new name with
  | Err e => throw_repo (InvalidOp (namespace_error_display e))
  | Ok ns => step (λ w, match create_namespace ns (w_store w) with
      | (Err (NamespaceAlreadyExists _), s) => (Ok (), with_store w s)
      | (r, s) => (map_err (λ e, Fail (StorageErr e)) r, with_store w s)
      end)
  end.

Definition land_ref (r : BundleRef) : PT () :=
  _ ← (if decide (br_namespace r = default_ns) then mret ()
       else in_repo (ensure_namespace (ns_name (br_namespace r))));
  in_repo (storage (set_ref (br_namespace r) (br_name r) (br_target r))).

(** What is checked before a ref moves: the bundle's pruned commits, counted. *)
Definition check_received (tree_fuel : nat) (x : Received) : PT nat :=
  pruned ← check_commits (rc_shallow x) (rc_commits x) 0;
  _ ← each (check_ref tree_fuel) (rc_refs x);
  conflicts ← ref_conflicts (rc_refs x) [];
  if bool_decide (conflicts = []) then mret pruned else throw_transfer (RefConflict conflicts).

(** Up to the rebuilding of the control tables. *)
Definition import_unreconciled (tree_fuel : nat) (inter : gset ObjectId → list ObjectId) (input : string)
    (limits : BundleLimits) : PT ImportReport :=
  rd ← of_result (map_err (λ e, Fail (TBundle e)) (reader_new input limits));
  x ← store_records rd;
  pruned ← check_received tree_fuel x;
  _ ← each land_ref (rc_refs x);
  _ ← in_repo (record_shallow (inter (rc_shallow x)));
  mret {| im_refs := length (rc_refs x); im_commits := length (rc_commits x); im_objects := rc_objects x;
    im_shallow := size (rc_shallow x); im_pruned := pruned |}.

(** ** What a reader yields *)

(** All the records a reader has, and how it ends. *)
Inductive stream : BundleReader → list BundleRecord → result BundleError () → Prop :=
  | stream_end rd rd' : next_record rd = (Ok None, rd') → stream rd [] (Ok ())
  | stream_err rd e rd' : next_record rd = (Err e, rd') → stream rd [] (Err e)
  | stream_cons rd x rd' l res : next_record rd = (Ok (Some x), rd') → stream rd' l res → stream rd (x :: l) res.

Lemma stream_total n rd : String.length (rd_rest rd) < n → ∃ l res, stream rd l res ∧ length l < n.
Proof.
  revert rd. induction n as [|n IH]; intros rd Hn; [lia|].
  destruct (next_record rd) as [[[x|]|e] rd'] eqn:Hx.
  - pose proof (next_record_ok _ _ _ Hx) as Hs. destruct (sp_frame _ _ _ Hs) as (k & p & _ & _ & Hr & _).
    apply (f_equal slen) in Hr. rewrite slen_app slen_frame in Hr. unfold slen in Hr.
    destruct (IH rd') as (l & res & Hl & Hlen); [lia|]. exists (x :: l), res. split; [by econstructor|simpl; lia].
  - exists [], (Ok ()). split; [by econstructor|simpl; lia].
  - exists [], (Err e). split; [by econstructor|simpl; lia].
Qed.

Lemma fold_stream {A} fuel (f : A → BundleRecord → A) acc rd l res :
  stream rd l res → length l < fuel →
  (fold_records fuel f acc rd).1 = match res with Ok _ => Ok (foldl f acc l) | Err e => Err (Fail e) end.
Proof.
  intros Hs. revert fuel acc. induction Hs as [rd rd' Hx|rd e rd' Hx|rd x rd' l res Hx _ IH]; intros fuel acc Hf;
    (destruct fuel as [|fuel]; [simpl in Hf; lia|]); cbn [fold_records]; unfold mbind, stateful_bind, map_err_st; rewrite Hx;
    [done|done|]. apply IH. simpl in Hf. lia.
Qed.

(** *** What storing them does *)

Definition rec_objects (l : list BundleRecord) : list Object :=
  omap (λ x, match x with RecObject _ o => Some o | _ => None end) l.
Definition rec_commits (l : list BundleRecord) : list Commit :=
  omap (λ x, match x with RecCommit c => Some c | _ => None end) l.
Definition rec_shallow (l : list BundleRecord) : list ObjectId :=
  omap (λ x, match x with RecShallow i => Some i | _ => None end) l.
Definition rec_refs (l : list BundleRecord) : list BundleRef :=
  omap (λ x, match x with RecRef r => Some r | _ => None end) l.

Lemma foldl_add l b : foldl add_record b l =
  {| b_refs := b_refs b ++ rec_refs l; b_shallow := b_shallow b ++ rec_shallow l;
     b_commits := b_commits b ++ rec_commits l; b_objects := b_objects b ++ rec_objects l |}.
Proof.
  revert b. induction l as [|x l IH]; intros b; csimpl; [rewrite !app_nil_r; by destruct b|].
  rewrite IH. by destruct x; csimpl; rewrite -?app_assoc.
Qed.

(** Objects are kept as they are; a commit replaces what was there. *)
Definition put_object_in (m : gmap ObjectId Object) (o : Object) : gmap ObjectId Object :=
  match m !! oid_of o with Some _ => m | None => <[oid_of o := o]> m end.
Definition put_commit_in (m : gmap ObjectId Commit) (c : Commit) : gmap ObjectId Commit := <[commit_id c := c]> m.
Definition stored (os : list Object) (cs : list Commit) (s : MemoryStorage) : MemoryStorage :=
  set_commits (set_objects s (foldl put_object_in (objects s) os)) (foldl put_commit_in (commits s) cs).

Lemma batch_put_stored os s : ∃ ids, batch_put_objects os s = (Ok ids, stored os [] s).
Proof.
  revert s. induction os as [|o os IH]; intros s; cbn [batch_put_objects].
  { exists []. unfold stored. simpl. by destruct s. }
  unfold mbind, stateful_bind. change (put_object o s) with (mem_put_object o s). unfold mem_put_object.
  unfold stored. simpl. unfold put_object_in at 2. destruct (objects s !! oid_of o) as [o'|].
  - destruct (IH s) as [ids ->]. by exists (oid_of o :: ids).
  - destruct (IH (set_objects s (<[oid_of o:=o]> (objects s)))) as [ids ->]. by exists (oid_of o :: ids).
Qed.

Lemma stored_app os1 cs1 os2 cs2 s : stored os2 cs2 (stored os1 cs1 s) = stored (os1 ++ os2) (cs1 ++ cs2) s.
Proof. unfold stored. simpl. by rewrite !foldl_app. Qed.

Definition in_store (w : World) (f : MemoryStorage → MemoryStorage) : World := with_store w (f (w_store w)).

Lemma run_in_repo_storage {A} (m : stateful MemoryStorage StorageError A) w a s :
  m (w_store w) = (Ok a, s) → run (in_repo (storage m)) w = (Ok a, with_store w s).
Proof. intros Hm. simpl. rewrite Hm. done. Qed.

Lemma run_in_repo_read {A} (f : MemoryStorage → result StorageError A) w a :
  f (w_store w) = Ok a → run (in_repo (storage (reading f))) w = (Ok a, w).
Proof. intros Hf. rewrite (run_in_repo_storage _ w a (w_store w)); [by destruct w|]. unfold reading. by rewrite Hf. Qed.

Lemma run_put_batch os w : run (put_batch os) w = (Ok (), in_store w (stored os [])).
Proof.
  unfold put_batch. destruct (batch_put_stored os (w_store w)) as [ids Hids].
  rewrite run_bind (stateful_seq _ _ _ _ _ (run_in_repo_storage _ _ _ _ Hids)). done.
Qed.

Lemma run_put_commit c w : run (put_one_commit c) w = (Ok (), in_store w (stored [] [c])).
Proof. unfold put_one_commit. simpl. unfold in_store, stored. simpl. unfold put_commit. by destruct w as [[]]. Qed.

(** What was received, and what was stored, of a list of records. *)
Definition received (x : Received) (n : nat) (l : list BundleRecord) : Received := {|
  rc_refs := rc_refs x ++ rec_refs l;
  rc_shallow := list_to_set (rec_shallow l) ∪ rc_shallow x;
  rc_commits := rc_commits x ++ ((λ c, (commit_id c, state_root c, parents c)) <$> rec_commits l);
  rc_objects := rc_objects x + n + length (rec_objects l) |}.

Lemma store_loop_ok fuel rd l x pending w :
  stream rd l (Ok ()) → length l < fuel →
  run (store_loop fuel rd x pending) w =
    (Ok (received x (length pending) l), in_store w (stored (pending ++ rec_objects l) (rec_commits l))).
Proof.
  intros Hs. remember (Ok ()) as res eqn:Hres. revert fuel x pending w Hres.
  induction Hs as [rd rd' Hx|rd e rd' Hx|rd y rd' l res Hx _ IH]; intros fuel x pending w Hres Hf; [|done|];
    (destruct fuel as [|fuel]; [simpl in Hf; lia|]); cbn [store_loop]; rewrite Hx.
  - rewrite run_bind (stateful_seq _ _ _ _ _ (run_put_batch pending w)). csimpl.
    unfold received. csimpl. rewrite !app_nil_r union_empty_l_L Nat.add_0_r. done.
  - simpl in Hf. destruct y as [r|i|c|i o].
    + rewrite IH; [|done|lia]. unfold received. csimpl. by rewrite -app_assoc.
    + rewrite IH; [|done|lia]. unfold received. csimpl. f_equal. f_equal. f_equal. set_solver.
    + rewrite run_bind (stateful_seq _ _ _ _ _ (run_put_commit c w)) IH; [|done|lia].
      unfold received, in_store. csimpl. by rewrite -app_assoc.
    + case_decide as Hb.
      * rewrite run_bind (stateful_seq _ _ _ _ _ (run_put_batch _ w)) IH; [|done|lia].
        unfold received, in_store. csimpl. rewrite length_app /= -!Nat.add_assoc. f_equal.
        by rewrite stored_app -app_assoc.
      * rewrite IH; [|done|lia]. unfold received. csimpl. rewrite length_app /= -!app_assoc. f_equal. f_equal. f_equal. lia.
Qed.

(** *** What is checked *)

Lemma run_has_commit_here i w : run (has_commit_here i) w = (Ok (has_commit (w_store w) i), w).
Proof. done. Qed.

(** A check: it reads, and passes exactly when [good]. *)
Definition checks {A} (good : Prop) (p : PT A) (w : World) : Prop :=
  ∃ res, run p w = (res, w) ∧ match res with Ok _ => good | Err e => ¬ good ∧ ∃ e', e = Fail e' end.

Lemma checks_passes {A} good (p : PT A) w : checks good p w → good → ∃ a, run p w = (Ok a, w).
Proof. intros ([a|e] & Hrun & Hr) Hg; [by exists a|]. by destruct Hr. Qed.

Lemma checks_ret {A} (a : A) (good : Prop) w : good → checks good (mret a : PT A) w.
Proof. intros Hg. by exists (Ok a). Qed.

Lemma checks_bind {A B} good1 good2 (p : PT A) (k : A → PT B) w :
  checks good1 p w → (∀ a, checks good2 (k a) w) → checks (good1 ∧ good2) (p ≫= k) w.
Proof.
  intros ([a|e] & Hp & Hg) Hk; unfold checks; rewrite run_bind; unfold mbind, stateful_bind; rewrite Hp.
  - destruct (Hk a) as (res & Hrun & Hr). exists res. split; [done|]. destruct res; [done|].
    destruct Hr as [? ?]. split; [tauto|done].
  - exists (Err e). split; [done|]. destruct Hg. split; [tauto|done].
Qed.

Lemma checks_iff {A} good good' (p : PT A) w : (good ↔ good') → checks good p w → checks good' p w.
Proof. intros Hg (res & Hrun & Hr). exists res. split; [done|]. destruct res; by rewrite -Hg. Qed.

Lemma checks_each {A} (good : A → Prop) (p : A → PT ()) l w :
  (∀ x, checks (good x) (p x) w) → checks (Forall good l) (each p l) w.
Proof.
  intros Hp. induction l as [|x l IH]; cbn [each]; [by apply checks_ret; constructor|].
  eapply checks_iff; [symmetry; apply Forall_cons|]. by apply checks_bind.
Qed.

Lemma has_commit_true s i : has_commit s i ↔ is_Some (commits s !! i).
Proof. apply bool_decide_spec. Qed.

Lemma checks_parent i p w : checks (is_Some (commits (w_store w) !! p)) (check_parent i p) w.
Proof.
  unfold check_parent, checks. rewrite run_bind (stateful_seq _ _ _ _ _ (run_has_commit_here p w)).
  pose proof (has_commit_true (w_store w) p) as Hc. destruct (has_commit (w_store w) p).
  - exists (Ok ()). split; [done|]. by apply Hc.
  - eexists. split; [done|]. split; [by intros ?%Hc|by eexists].
Qed.

(** A commit received whole: marked shallow, or its parents are here. *)
Definition parents_here (s : MemoryStorage) (shallow : gset ObjectId) (c : ObjectId * ObjectId * list ObjectId) : Prop :=
  c.1.1 ∉ shallow → Forall (λ p, is_Some (commits s !! p)) c.2.

Lemma checks_commits shallow cs n w :
  checks (Forall (parents_here (w_store w) shallow) cs) (check_commits shallow cs n) w.
Proof.
  revert n. induction cs as [|[[i root] ps] cs IH]; intros n; cbn [check_commits]; [apply checks_ret; constructor|].
  eapply checks_iff; [symmetry; apply Forall_cons|]. apply checks_bind.
  - case_decide as Hi; [apply checks_ret; by unfold parents_here|].
    eapply checks_iff; [|apply checks_each; intros p; apply checks_parent]. unfold parents_here. simpl. tauto.
  - intros _. eapply checks_iff; [apply (left_id True and)|]. apply checks_bind; [|intros b; apply IH].
    eexists. split; [by apply run_in_repo_read|]. done.
Qed.

(** The ref's commit is here, with its whole tree. *)
Definition ref_whole (s : MemoryStorage) (r : BundleRef) : Prop :=
  ∃ c, commits s !! br_target r = Some c ∧ intact (objects s) (state_root c).

Lemma checks_ref fuel r w :
  tree_fuel (objects (w_store w)) ≤ fuel → checks (ref_whole (w_store w) r) (check_ref fuel r) w.
Proof.
  intros Hf. unfold check_ref, checks. rewrite run_bind (stateful_seq _ _ _ _ _ (run_has_commit_here (br_target r) w)).
  pose proof (has_commit_true (w_store w) (br_target r)) as Hc. destruct (has_commit (w_store w) (br_target r)); simpl.
  2: { eexists. split; [done|]. split; [|by eexists]. intros (c & Hr & _). apply Hc. by exists c. }
  destruct (proj1 Hc I) as [c Hr]. pose proof (first_missing_reachable_ok (objects (w_store w)) fuel (state_root c) Hf) as Hm.
  change (stored_objects (objects (w_store w))) with (mem_get_object (w_store w)) in Hm.
  unfold first_missing_object, get_commit. rewrite Hr. destruct (first_missing_reachable _ _ _) as [[i|]|e]; [| |done].
  - eexists. split; [done|]. split; [|by eexists]. intros (c' & Hr' & Hi). simplify_eq. destruct Hm as [Hp Hn].
    destruct (Hi i Hp) as [o Ho]. congruence.
  - eexists. split; [done|]. by exists c.
Qed.

(** Absent, or already there; what a dropped namespace held does not count. *)
Definition ref_free (s : MemoryStorage) (r : BundleRef) : Prop :=
  ns_name (br_namespace r) ∈ namespaces s → ∀ t, refs s !! ref_key r = Some t → t = br_target r.

Lemma run_ref_conflicts rs cs w :
  ∃ more, run (ref_conflicts rs cs) w = (Ok (cs ++ more), w) ∧ (more = [] ↔ Forall (ref_free (w_store w)) rs).
Proof.
  revert cs. induction rs as [|r rs IH]; intros cs.
  { exists []. rewrite app_nil_r. split; [done|]. split; [constructor|done]. }
  assert (∃ here, (∀ cs, run (ref_conflicts rs (match here with
         | Some t => if bool_decide (t = br_target r) then cs else cs ++ [ref_display r] | None => cs end)) w =
      run (ref_conflicts (r :: rs) cs) w) ∧ (match here with Some t => t = br_target r | None => True end ↔ ref_free (w_store w) r))
    as (here & Hrun & Hfree).
  { unfold ref_free, ref_key. destruct (decide (ns_name (br_namespace r) ∈ namespaces (w_store w))) as [Hn|Hn].
    - exists (refs (w_store w) !! (ns_name (br_namespace r), br_name r)). split.
      + intros cs'. cbn [ref_conflicts]. rewrite run_bind. unfold mbind at 1, stateful_bind at 1. rewrite run_step.
        unfold reading, get_ref, require_namespace. by rewrite decide_True.
      + destruct (refs _ !! _) as [t|]; [|naive_solver]. split; [|naive_solver]. intros ->. naive_solver.
    - exists None. split; [|tauto]. intros cs'. cbn [ref_conflicts]. rewrite run_bind. unfold mbind at 1, stateful_bind at 1.
      rewrite run_step. unfold reading, get_ref, require_namespace. by rewrite decide_False. }
  specialize (Hrun cs). setoid_rewrite Forall_cons. setoid_rewrite <- Hfree.
  destruct here as [t|]; [case_bool_decide as Ht|].
  - destruct (IH cs) as (more & Hm & Hiff). exists more. rewrite -Hrun. split; [done|]. rewrite Hiff. tauto.
  - destruct (IH (cs ++ [ref_display r])) as (more & Hm & Hiff). exists (ref_display r :: more).
    rewrite -app_assoc in Hm. rewrite -Hrun. split; [done|]. split; [done|]. tauto.
  - destruct (IH cs) as (more & Hm & Hiff). exists more. rewrite -Hrun. split; [done|]. rewrite Hiff. tauto.
Qed.

(** What the import wants of what it received. *)
Definition complete (s : MemoryStorage) (x : Received) : Prop :=
  Forall (parents_here s (rc_shallow x)) (rc_commits x) ∧ Forall (ref_whole s) (rc_refs x) ∧
  Forall (ref_free s) (rc_refs x).

Lemma checks_received fuel x w :
  tree_fuel (objects (w_store w)) ≤ fuel → checks (complete (w_store w) x) (check_received fuel x) w.
Proof.
  intros Hf. unfold check_received, complete. apply checks_bind; [apply checks_commits|]. intros n.
  apply checks_bind; [by apply checks_each; intros r; apply checks_ref|]. intros _.
  destruct (run_ref_conflicts (rc_refs x) [] w) as (more & Hrun & Hiff). unfold checks.
  rewrite run_bind (stateful_seq _ _ _ _ _ Hrun). simpl. case_bool_decide as Hm.
  - eexists. split; [done|]. by apply Hiff.
  - eexists. split; [done|]. split; [by rewrite -Hiff|by eexists].
Qed.

(** *** Landing the refs *)

Definition land_in (m : gmap (string * string) ObjectId) (r : BundleRef) : gmap (string * string) ObjectId :=
  <[ref_key r := br_target r]> m.
Definition landed (ns : gset string) (rs : list BundleRef) (s : MemoryStorage) : MemoryStorage :=
  set_refs (set_namespaces s ns) (foldl land_in (refs s) rs).

Lemma run_land_ref ns rs r w :
  DEFAULT_NAMESPACE ∈ ns → valid_namespace (br_namespace r) →
  ∃ ns', run (land_ref r) (in_store w (landed ns rs)) = (Ok (), in_store w (landed ns' (rs ++ [r]))) ∧ ns ⊆ ns'.
Proof.
  intros Hd Hv. unfold land_ref. rewrite run_bind.
  assert (∀ ns', ns_name (br_namespace r) ∈ ns' →
    run (in_repo (storage (set_ref (br_namespace r) (br_name r) (br_target r)))) (in_store w (landed ns' rs)) =
    (Ok (), in_store w (landed ns' (rs ++ [r])))) as Hset.
  { intros ns' Hn. erewrite run_in_repo_storage; [done|].
    unfold set_ref, mbind, stateful_bind, reading, require_namespace, landed, action. simpl. rewrite decide_True //=.
    unfold set_refs. simpl. by rewrite foldl_app. }
  case_decide as Hdef.
  - rewrite (stateful_seq _ _ _ () (in_store w (landed ns rs))); [|done]. exists ns. split; [|done]. apply Hset. by rewrite Hdef.
  - destruct (decide (ns_name (br_namespace r) ∈ ns)) as [Hn|Hn].
    + rewrite (stateful_seq _ _ _ () (in_store w (landed ns rs))); [exists ns; by rewrite Hset|].
      unfold in_repo, ensure_namespace. rewrite Hv run_map_error run_step. unfold create_namespace, landed, in_store. simpl.
      by rewrite decide_True.
    + rewrite (stateful_seq _ _ _ () (in_store w (landed ({[ ns_name (br_namespace r) ]} ∪ ns) rs))).
      { eexists. split; [apply Hset; set_solver|set_solver]. }
      unfold in_repo, ensure_namespace. rewrite Hv run_map_error run_step. unfold create_namespace, landed, in_store. simpl.
      by rewrite decide_False.
Qed.

Lemma run_land_refs rs w :
  DEFAULT_NAMESPACE ∈ namespaces (w_store w) → Forall (λ r, valid_namespace (br_namespace r)) rs →
  ∃ ns, run (each land_ref rs) w = (Ok (), in_store w (landed ns rs)) ∧ namespaces (w_store w) ⊆ ns.
Proof.
  intros Hd Hv. destruct (run_each land_ref
    (λ l w', ∃ ns, w' = in_store w (landed ns l) ∧ namespaces (w_store w) ⊆ ns) rs w) as (w' & Hrun & ns & -> & Hns).
  - exists (namespaces (w_store w)). split; [|done]. by destruct w as [[]].
  - intros l1 r l2 w' -> (ns & -> & Hns). apply Forall_app in Hv as [_ [Hr _]%Forall_cons].
    destruct (run_land_ref ns l1 r w) as (ns' & Hrun & Hsub); [by apply Hns|done|].
    eexists. split; [exact Hrun|]. exists ns'. split; [done|]. set_solver.
  - by exists ns.
Qed.

Lemma landed_other rs m k : k ∉ ref_key <$> rs → foldl land_in m rs !! k = m !! k.
Proof.
  revert m. induction rs as [|r rs IH]; intros m; csimpl; [done|]. intros Hk. rewrite IH; [|set_solver].
  unfold land_in. rewrite lookup_insert_ne //. set_solver.
Qed.

Lemma landed_lookup rs m r : NoDup (ref_key <$> rs) → r ∈ rs → foldl land_in m rs !! ref_key r = Some (br_target r).
Proof.
  revert m. induction rs as [|r' rs IH]; intros m; csimpl; [by intros _ ?%elem_of_nil|].
  intros [Hr Hnd]%NoDup_cons [->|Hin]%elem_of_cons; [|by apply IH].
  rewrite landed_other //. unfold land_in. by rewrite lookup_insert_eq.
Qed.

(** *** The store grows *)

Lemma put_objects_sub os (m : gmap ObjectId Object) : m ⊆ foldl put_object_in m os.
Proof.
  revert m. induction os as [|o os IH]; intros m; simpl; [done|]. etrans; [|apply IH].
  unfold put_object_in. destruct (m !! oid_of o) eqn:Ho; [done|]. by apply insert_subseteq.
Qed.

Lemma put_commits_is_Some cs (m : gmap ObjectId Commit) i : is_Some (m !! i) → is_Some (foldl put_commit_in m cs !! i).
Proof.
  revert m. induction cs as [|c cs IH]; intros m Hi; simpl; [done|]. apply IH. unfold put_commit_in.
  destruct (decide (commit_id c = i)) as [<-|Hne]; [rewrite lookup_insert_eq; by eexists|by rewrite lookup_insert_ne].
Qed.

Lemma put_commits_in cs (m : gmap ObjectId Commit) c : c ∈ cs → is_Some (foldl put_commit_in m cs !! commit_id c).
Proof.
  revert m. induction cs as [|c' cs IH]; intros m; simpl; [by intros ?%elem_of_nil|].
  intros [->|Hc]%elem_of_cons; [|by apply IH]. apply put_commits_is_Some. unfold put_commit_in. by rewrite lookup_insert_eq; eexists.
Qed.

Lemma store_loop_err fuel rd l e x pending w :
  stream rd l (Err e) → length l < fuel →
  ∃ os cs, run (store_loop fuel rd x pending) w = (Err (Fail (TBundle e)), in_store w (stored os cs)).
Proof.
  assert (∀ w, in_store w (stored [] []) = w) as Hnil by by intros [[]].
  intros Hs. remember (Err e) as res eqn:Hres. revert fuel x pending w Hres.
  induction Hs as [rd rd' Hx|rd e' rd' Hx|rd y rd' l res Hx _ IH]; intros fuel x pending w Hres Hf; [done| |];
    (destruct fuel as [|fuel]; [simpl in Hf; lia|]); cbn [store_loop]; rewrite Hx.
  - injection Hres as ->. exists [], []. by rewrite Hnil.
  - simpl in Hf. destruct y as [r|i|c|i o]; [by apply IH; [|lia]|by apply IH; [|lia]| |].
    + rewrite run_bind (stateful_seq _ _ _ _ _ (run_put_commit c w)).
      destruct (IH fuel (receive_commit x c) pending (in_store w (stored [] [c]))) as (os & cs & ->); [done|lia|].
      exists os, (c :: cs). unfold in_store. simpl. by rewrite (stored_app [] [c]).
    + case_decide; [|by apply IH; [|lia]]. rewrite run_bind (stateful_seq _ _ _ _ _ (run_put_batch _ w)).
      destruct (IH fuel (receive_objects x (length (pending ++ [o]))) [] (in_store w (stored (pending ++ [o]) [])))
        as (os & cs & ->); [done|lia|].
      eexists (_ ++ os), cs. unfold in_store. simpl. by rewrite (stored_app (pending ++ [o]) []).
Qed.

(** What [store_records] receives of a whole bundle. *)
Definition received_of (b : Bundle) : Received := {|
  rc_refs := b_refs b; rc_shallow := list_to_set (b_shallow b);
  rc_commits := (λ c, (commit_id c, state_root c, parents c)) <$> b_commits b; rc_objects := length (b_objects b) |}.

Lemma store_records_ok input limits rd w :
  reader_new input limits = Ok rd →
  match from_bytes input limits with
  | Ok b => run (store_records rd) w = (Ok (received_of b), in_store w (stored (b_objects b) (b_commits b)))
  | Err e => ∃ e' os cs, e = Fail e' ∧ run (store_records rd) w = (Err (Fail (TBundle e')), in_store w (stored os cs))
  end.
Proof.
  intros Hrd. unfold from_bytes, store_records. rewrite Hrd. cbn [map_err mbind result_bind].
  destruct (stream_total (S (String.length (rd_rest rd))) rd) as (l & res & Hs & Hl); [lia|].
  rewrite (fold_stream _ add_record bundle_empty _ _ _ Hs Hl). destruct res as [[]|e].
  - rewrite (store_loop_ok _ _ _ _ _ _ Hs Hl) foldl_add. unfold received. simpl. by rewrite union_empty_r_L.
  - destruct (store_loop_err _ _ _ _ received_nothing [] w Hs Hl) as (os & cs & Hrun). by exists e, os, cs.
Qed.

(** ** What an import comes to *)

(** The tables are left to the reconciling. *)
Definition same_tables (s s' : MemoryStorage) : Prop :=
  mem_taints s' = mem_taints s ∧ epochs s' = epochs s ∧ commit_epoch s' = commit_epoch s ∧
  sessions s' = sessions s ∧ commit_session s' = commit_session s.

Record imported (w w' : World) (b : Bundle) : Prop := {
  im_moved r : r ∈ b_refs b → ¬ boundary_key (ref_key r) → refs (w_store w') !! ref_key r = Some (br_target r);
  im_whole r : r ∈ b_refs b → ref_whole (w_store w') r;
  im_history c : c ∈ b_commits b → is_Some (commits (w_store w') !! commit_id c) ∧
    (commit_id c ∉ b_shallow b → ∀ p, p ∈ parents c → is_Some (commits (w_store w') !! p));
  im_kept k t : ¬ boundary_key k → k.1 ∈ namespaces (w_store w) →
    refs (w_store w) !! k = Some t → refs (w_store w') !! k = Some t;
  im_only k t : ¬ boundary_key k → refs (w_store w') !! k = Some t →
    refs (w_store w) !! k = Some t ∨ ∃ r, r ∈ b_refs b ∧ k = ref_key r ∧ t = br_target r;
  im_content : objects (w_store w) ⊆ objects (w_store w') ∧ namespaces (w_store w) ⊆ namespaces (w_store w') ∧
    ∀ i, is_Some (commits (w_store w) !! i) → is_Some (commits (w_store w') !! i);
  im_stored : objects (w_store w') = foldl put_object_in (objects (w_store w)) (b_objects b);
  im_tables : same_tables (w_store w) (w_store w');
}.

(** A failed import: content may have come, but no ref has moved. *)
Record import_failed (w w' : World) : Prop := {
  if_refs : refs (w_store w') = refs (w_store w);
  if_namespaces : namespaces (w_store w') = namespaces (w_store w);
  if_tables : same_tables (w_store w) (w_store w');
  if_content : objects (w_store w) ⊆ objects (w_store w') ∧
    ∀ i, is_Some (commits (w_store w) !! i) → is_Some (commits (w_store w') !! i);
}.

Lemma stored_failed w os cs : import_failed w (in_store w (stored os cs)).
Proof. split; [done|done|done|]. split; [apply put_objects_sub|intros i; apply put_commits_is_Some]. Qed.

Definition imported_report (b : Bundle) (pruned : nat) : ImportReport := {|
  im_refs := length (b_refs b); im_commits := length (b_commits b); im_objects := length (b_objects b);
  im_shallow := size (list_to_set (b_shallow b) : gset ObjectId); im_pruned := pruned |}.

Lemma verified_namespaces b : Forall verified (records_of b) → Forall (λ r, valid_namespace (br_namespace r)) (b_refs b).
Proof.
  unfold records_of. rewrite !Forall_app. intros (_ & _ & _ & Hr). rewrite Forall_fmap in Hr.
  eapply Forall_impl; [exact Hr|]. by intros r [? _].
Qed.

Lemma run_import fuel inter input limits w b :
  DEFAULT_NAMESPACE ∈ namespaces (w_store w) → from_bytes input limits = Ok b →
  let w1 := in_store w (stored (b_objects b) (b_commits b)) in
  tree_fuel (objects (w_store w1)) ≤ fuel →
  (∃ e, run (import_unreconciled fuel inter input limits) w = (Err (Fail e), w1) ∧ ¬ complete (w_store w1) (received_of b)) ∨
  ∃ n ns r, run (import_unreconciled fuel inter input limits) w =
      (Ok (imported_report b n), with_refs (in_store w1 (landed ns (b_refs b))) r) ∧
    complete (w_store w1) (received_of b) ∧
    off_boundaries (foldl land_in (refs (w_store w)) (b_refs b)) r ∧ namespaces (w_store w) ⊆ ns.
Proof.
  intros Hd Hb w1 Hf. pose proof (from_bytes_accepts _ _ _ Hb) as [Ha _].
  destruct (reader_new input limits) as [rd|e] eqn:Hrd; [|unfold from_bytes in Hb; by rewrite Hrd in Hb].
  pose proof (store_records_ok input limits rd w Hrd) as Hs. rewrite Hb in Hs.
  destruct (checks_received fuel (received_of b) w1 Hf) as (res & Hres & Hc).
  unfold import_unreconciled. rewrite Hrd run_bind (stateful_seq _ _ w rd w); [|done].
  rewrite run_bind (stateful_seq _ _ _ _ _ Hs) run_bind.
  destruct res as [n|e].
  - right. rewrite (stateful_seq _ _ _ _ _ Hres) run_bind.
    destruct (run_land_refs (b_refs b) w1) as (ns & Hland & Hns); [done|by apply verified_namespaces, Ha|].
    rewrite (stateful_seq _ _ _ _ _ Hland) run_bind.
    destruct (record_shallow_rest (in_store w1 (landed ns (b_refs b))) (inter (rc_shallow (received_of b)))) as (r & Hrec & Hoff);
      [by apply Hns|].
    exists n, ns, r. unfold in_repo.
    rewrite (stateful_seq _ _ _ () (with_refs (in_store w1 (landed ns (b_refs b))) r)); [|by rewrite run_map_error Hrec].
    split_and!; [|done|done|done]. simpl. unfold imported_report. by rewrite length_fmap.
  - left. destruct Hc as [Hnc [e' ->]]. exists e'. split; [|done]. unfold mbind, stateful_bind. by rewrite Hres.
Qed.

Lemma import_done w b ns r :
  let w1 := in_store w (stored (b_objects b) (b_commits b)) in
  complete (w_store w1) (received_of b) → NoDup (ref_key <$> b_refs b) →
  off_boundaries (foldl land_in (refs (w_store w)) (b_refs b)) r → namespaces (w_store w) ⊆ ns →
  imported w (with_refs (in_store w1 (landed ns (b_refs b))) r) b.
Proof.
  intros w1 (Hcs & Hwhole & Hfree) Hnd Hoff Hns. rewrite !Forall_forall in Hcs Hwhole Hfree. split; simpl.
  - intros x Hx Hk. rewrite Hoff //. by apply landed_lookup.
  - intros x Hx. by apply Hwhole.
  - intros c Hc. split; [by apply put_commits_in|]. intros Hsh p Hp.
    assert (parents_here (w_store w1) (list_to_set (b_shallow b)) (commit_id c, state_root c, parents c)) as H.
    { apply Hcs, list_elem_of_fmap. by exists c. }
    unfold parents_here in H. rewrite Forall_forall elem_of_list_to_set in H. by apply H.
  - intros k t Hk Hn Ht. rewrite Hoff //. destruct (decide (k ∈ ref_key <$> b_refs b)) as [Hin|Hin]; [|by rewrite landed_other].
    apply list_elem_of_fmap in Hin as (x & -> & Hx). rewrite landed_lookup //. f_equal. symmetry. by apply (Hfree x Hx).
  - intros k t Hk Ht. rewrite Hoff // in Ht. destruct (decide (k ∈ ref_key <$> b_refs b)) as [Hin|Hin].
    + apply list_elem_of_fmap in Hin as (x & -> & Hx). rewrite landed_lookup // in Ht. right. exists x. naive_solver.
    + rewrite landed_other // in Ht. by left.
  - split_and!; [apply put_objects_sub|done|intros i; apply put_commits_is_Some].
  - done.
  - done.
Qed.

(** ** What is written *)

(** The bundle an export writes. *)
Definition export_bundle (s : MemoryStorage) (refs : list BundleRef) (set : MissingSet) : Bundle := {|
  b_refs := refs; b_shallow := missing_shallow set;
  b_commits := omap (get_commit s) (missing_commits set); b_objects := omap (objects s !!.) (missing_objects set) |}.

Lemma bundled_bind {A B} (p : stateful BundleWriter BundleError A) (k : A → stateful BundleWriter BundleError B) w :
  bundled (p ≫= k) w = (bundled p ≫= λ a, bundled (k a)) w.
Proof. unfold bundled, map_err_st, mbind, stateful_bind. by destruct (p w) as [[a|e] w']. Qed.

(** Two steps that write as [p] and [q] do write as [p] then [q]. *)
Lemma bundled_then {A B} (p' : stateful BundleWriter TransferError A) (q' : stateful BundleWriter TransferError B) p q w :
  (∀ w, p' w = bundled p w) → (∀ w, q' w = bundled q w) →
  (p' ≫= λ _, q') w = bundled (p ≫= λ _, q) w.
Proof.
  intros Hp Hq. rewrite bundled_bind. unfold mbind, stateful_bind. rewrite Hp.
  by destruct (bundled p w) as [[a|e] w'].
Qed.

Lemma bundled_each {A} (f : A → stateful BundleWriter BundleError ()) l w :
  for_each (λ x, bundled (f x)) l w = bundled (for_each f l) w.
Proof.
  revert w. induction l as [|x l IH]; intros w; [done|]. cbn [for_each]. rewrite bundled_bind.
  unfold mbind, stateful_bind. destruct (bundled (f x) w) as [[[]|e] w']; [apply IH|done].
Qed.

Lemma for_each_ext {S E A} (f g : A → stateful S E ()) l s : (∀ x s, x ∈ l → f x s = g x s) → for_each f l s = for_each g l s.
Proof.
  revert s. induction l as [|x l IH]; intros s Hfg; [done|]. cbn [for_each]. unfold mbind, stateful_bind.
  rewrite Hfg; [|by left]. destruct (g x s) as [[[]|e] s']; [|done]. apply IH. intros; apply Hfg. by right.
Qed.

Lemma for_each_app_eq {S E A} (f : A → stateful S E ()) l1 l2 s :
  for_each f (l1 ++ l2) s = (_ ← for_each f l1; for_each f l2) s.
Proof.
  revert s. induction l1 as [|x l1 IH]; intros s; [done|]. cbn [for_each app]. unfold mbind, stateful_bind.
  destruct (f x s) as [[[]|e] s']; [apply IH|done].
Qed.

Lemma write_chunk_ok s chunk w :
  (∀ i, i ∈ chunk → is_Some (objects s !! i)) →
  write_chunk s chunk w = bundled (for_each write_object (omap (objects s !!.) chunk)) w.
Proof.
  intros Hc. unfold write_chunk. rewrite (batch_get_reads (objects s) chunk). cbn [map_err].
  unfold mbind at 1, stateful_bind at 1, lift. rewrite -bundled_each. revert w.
  induction chunk as [|i chunk IH]; intros w; [done|]. destruct (Hc i) as [o Ho]; [by left|]. csimpl. rewrite Ho. csimpl.
  unfold mbind, stateful_bind. destruct (bundled (write_object o) w) as [[[]|e] w']; [|done].
  apply IH. intros; apply Hc. by right.
Qed.

Lemma write_chunks_ok s cs w :
  (∀ i, i ∈ mjoin cs → is_Some (objects s !! i)) →
  for_each (write_chunk s) cs w = bundled (for_each write_object (omap (objects s !!.) (mjoin cs))) w.
Proof.
  revert w. induction cs as [|c cs IH]; intros w Hc; [done|]. cbn [for_each]. unfold mbind at 1, stateful_bind at 1.
  rewrite write_chunk_ok; [|intros i Hi; apply Hc; csimpl; apply elem_of_app; by left].
  csimpl. rewrite omap_app. unfold bundled at 2, map_err_st at 1. rewrite for_each_app_eq.
  unfold bundled at 1, map_err_st at 1, mbind, stateful_bind.
  destruct (for_each write_object (omap (objects s !!.) c) w) as [[[]|e] w']; [|done]. cbn [map_err].
  rewrite IH; [done|]. intros i Hi. apply Hc. csimpl. apply elem_of_app. by right.
Qed.

Lemma write_set_ok s set refs :
  (∀ i, i ∈ missing_objects set → is_Some (objects s !! i)) → (∀ i, i ∈ missing_commits set → is_Some (commits s !! i)) →
  write_set s set refs = map_err TBundle (to_bytes (export_bundle s refs set)).
Proof.
  intros Ho Hc. unfold write_set, to_bytes.
  assert (∀ w, for_each (write_sent_commit s) (missing_commits set) w =
    bundled (for_each write_commit (omap (get_commit s) (missing_commits set))) w) as Hcs.
  { intros w. rewrite -bundled_each. clear Ho. revert w Hc. generalize (missing_commits set) as l.
    induction l as [|i l IH]; intros w Hc; [done|]. destruct (Hc i) as [c Hi]; [by left|].
    assert (get_commit s i = Some c) as Hg by done.
    assert (omap (get_commit s) (i :: l) = c :: omap (get_commit s) l) as ->.
    { cbn. change (get_commit s i) with (commits s !! i). by rewrite Hi. }
    assert (write_sent_commit s i = bundled (write_commit c)) as Hw by (unfold write_sent_commit; by rewrite Hg).
    cbn [for_each]. rewrite Hw. unfold mbind, stateful_bind. destruct (bundled (write_commit c) w) as [[[]|e] w']; [|done].
    apply IH. intros; apply Hc. by right. }
  assert (∀ w, write_set_to s set refs w = bundled (write_bundle (export_bundle s refs set)) w) as Hw.
  { intros w. unfold write_set_to, write_bundle, export_bundle. cbn [b_refs b_shallow b_commits b_objects].
    apply bundled_then; [intros; rewrite write_chunks_ok; rewrite ?chunks_join; [done|done]|clear w; intros w].
    apply bundled_then; [done|clear w; intros w].
    apply bundled_then; [intros; by rewrite bundled_each|clear w; intros w]. by apply bundled_then; [intros; by rewrite bundled_each|]. }
  rewrite Hw. unfold bundled, map_err_st. by destruct (write_bundle _ _) as [[]].
Qed.

(** ** What an export sends *)

(** The refs an export carries, in namespaces that are there. *)
Definition exported (s : MemoryStorage) (r : BundleRef) : Prop :=
  ns_name (br_namespace r) ∈ namespaces s ∧ refs s !! ref_key r = Some (br_target r) ∧
  (is_reserved_ref (br_name r) → br_name r = CONTROL_REF).

Lemma elem_of_exported_refs s ns r :
  r ∈ exported_refs ns (List.filter (λ kv, starts_with EmptyString kv.1) (entries (refs_of s (ns_name ns)))) ↔
  br_namespace r = ns ∧ refs s !! ref_key r = Some (br_target r) ∧ (is_reserved_ref (br_name r) → br_name r = CONTROL_REF).
Proof.
  unfold exported_refs, ref_key. rewrite list_elem_of_fmap. split.
  - intros ([n t] & -> & Hin). simpl. rewrite !elem_of_List_filter elem_of_entries refs_of_lookup in Hin.
    destruct Hin as [[Ht _] Hr]. simpl in *. split_and!; [done..|]. intros Hres.
    destruct (is_reserved_ref n); [|done]. by case_bool_decide.
  - intros (<- & Ht & Hr). exists (br_name r, br_target r). split; [by destruct r|].
    rewrite !elem_of_List_filter elem_of_entries refs_of_lookup. simpl. split; [by split|].
    destruct (is_reserved_ref (br_name r)); [|done]. by rewrite bool_decide_true; [|apply Hr].
Qed.

Lemma run_collect_refs nss w :
  Forall (λ ns, ns_name ns ∈ namespaces (w_store w)) nss →
  ∃ rs, run (collect_refs nss) w = (Ok rs, w) ∧
    ∀ r, r ∈ rs ↔ br_namespace r ∈ nss ∧ exported (w_store w) r.
Proof.
  induction nss as [|ns nss IH]; intros Hn; [exists []; split; [done|]; intros r; set_solver|].
  apply Forall_cons in Hn as [Hns (rs & Hrun & Hrs)%IH]. cbn [collect_refs]. rewrite run_bind.
  rewrite (stateful_seq _ _ w (List.filter (λ kv, starts_with EmptyString kv.1) (entries (refs_of (w_store w) (ns_name ns)))) w).
  2: { apply run_in_repo_read. unfold list_refs, require_namespace. by rewrite decide_True. }
  rewrite run_bind (stateful_seq _ _ _ _ _ Hrun). eexists. split; [done|]. intros r.
  rewrite elem_of_app elem_of_exported_refs elem_of_cons Hrs. unfold exported. split; [|naive_solver].
  intros [(<- & ?)|?]; naive_solver.
Qed.

Lemma elem_of_list_namespaces s r : exported s r → br_namespace r ∈ list_namespaces s.
Proof.
  intros [Hn _]. unfold list_namespaces. destruct (br_namespace r) as [n]. apply (list_elem_of_fmap_2 Ns).
  rewrite merge_sort_Permutation. by apply elem_of_elements.
Qed.

Lemma elem_of_heads_of rs i : i ∈ heads_of rs ↔ ∃ r, r ∈ rs ∧ i = br_target r.
Proof.
  unfold heads_of. rewrite merge_sort_Permutation elem_of_elements elem_of_list_to_set list_elem_of_fmap. naive_solver.
Qed.

(** A source that can be exported: every ref it shows is whole, and a commit's
    tree is either whole or was swept, root and all. *)
Record exportable (s : MemoryStorage) : Prop := {
  xp_acyclic : acyclic (commits s);
  xp_keyed i c : commits s !! i = Some c → commit_id c = i;
  xp_addressed i o : objects s !! i = Some o → oid_of o = i;
  xp_whole r : exported s r → ref_whole s r;
  xp_swept i c : commits s !! i = Some c → objects s !! state_root c = None ∨ intact (objects s) (state_root c);
}.

(** A plan: the exported refs, each once carried, and what their heads reach. *)
Record plan_ok (s : MemoryStorage) (refs : list BundleRef) (set : MissingSet) : Prop := {
  pl_refs r : r ∈ refs ↔ exported s r;
  pl_commits : commits_ok (commits s) (heads_of refs) [] [] set;
  pl_objects R : (∀ i o o', R !! i = Some o → objects s !! i = Some o' → o = o') →
    objects_ok (commits s) (objects s) (heads_of refs) [] R set;
}.

Lemma no_remote_commit m i : ¬ remote_commit m [] i.
Proof. intros (h & Hh & _). by apply elem_of_nil in Hh. Qed.

Lemma run_export_plan fuel tree_fuel inter w :
  lists_once inter → exportable (w_store w) →
  2 * size (commits (w_store w)) < fuel → size (objects (w_store w)) < tree_fuel →
  ∃ refs set, run (export_plan fuel tree_fuel inter) w = (Ok (refs, set), w) ∧ plan_ok (w_store w) refs set.
Proof.
  intros Hi [Hac _ Haddr Hwhole Hswept] Hf Ht.
  destruct (run_collect_refs (list_namespaces (w_store w)) w) as (refs & Hrun & Hrefs).
  { apply Forall_forall. intros ns Hns. unfold list_namespaces in Hns. apply list_elem_of_fmap in Hns as (n & -> & Hn).
    rewrite merge_sort_Permutation elem_of_elements in Hn. done. }
  assert (∀ r, r ∈ refs ↔ exported (w_store w) r) as Hiff.
  { intros r. rewrite Hrefs. split; [tauto|]. intros Hr. split; [by apply elem_of_list_namespaces|done]. }
  set (heads := heads_of refs).
  assert (∀ e, ¬ ((∃ i, i ∈ heads ∧ commits (w_store w) !! i = None ∧ e = WStorage (CommitNotFound (oid_display i))) ∨
    ∃ i, wanted_object (commits (w_store w)) (objects (w_store w)) heads [] i ∧ objects (w_store w) !! i = None ∧
      e = WStorage (ObjectNotFound (oid_display i)))) as Hnoerr.
  { intros e [(i & (r & Hr%Hiff & ->)%elem_of_heads_of & Hc & _)|(i & (c & k & _ & Hk & [o Ho] & Hp) & Hgone & _)].
    - destruct (Hwhole r Hr) as (c & Hc' & _). congruence.
    - destruct (Hswept c k Hk) as [Hs|Hs]; [congruence|]. destruct (Hs i Hp). congruence. }
  pose proof (missing_commits_ok (commits (w_store w)) (objects (w_store w)) inter Hi fuel tree_fuel Hf Ht heads [] [] Hac) as Hco.
  pose proof (λ R HR, missing_objects_ok (commits (w_store w)) (objects (w_store w)) inter Hi fuel tree_fuel Hf Ht heads [] []
    R HR (λ i c Hc _, False_ind _ (no_remote_commit _ _ Hc))) as Hob.
  destruct (missing_set fuel tree_fuel inter (stored_reads (commits (w_store w))) (stored_objects (objects (w_store w)))
    (stored_has (objects (w_store w))) heads [] []) as [set|e] eqn:Hset; [|by apply Hnoerr in Hco].
  exists refs, set. split; [|by split].
  unfold export_plan. rewrite run_bind (stateful_seq _ _ w (list_namespaces (w_store w)) w); [|by apply run_in_repo_read].
  rewrite run_bind (stateful_seq _ _ _ _ _ Hrun) run_bind (stateful_seq _ _ w set w); [done|].
  rewrite run_step. unfold reading.
  change (missing_set fuel tree_fuel inter _ _ _ (heads_of refs) [] []) with
    (missing_set fuel tree_fuel inter (stored_reads (commits (w_store w))) (stored_objects (objects (w_store w)))
      (stored_has (objects (w_store w))) heads [] []). by rewrite Hset.
Qed.

(** *** A receiver of it *)

Lemma put_objects_at (O : gmap ObjectId Object) l R :
  (∀ i o, O !! i = Some o → oid_of o = i) → (∀ i o o', R !! i = Some o → O !! i = Some o' → o = o') →
  ∀ i, i ∈ l → is_Some (O !! i) → foldl put_object_in R (omap (O !!.) l) !! i = O !! i.
Proof.
  intros HO. revert R. induction l as [|j l IH]; intros R HR i Hi Hs; [by apply elem_of_nil in Hi|]. csimpl.
  destruct (O !! j) as [o|] eqn:Hj; csimpl.
  2: { apply elem_of_cons in Hi as [->|Hi]; [rewrite Hj in Hs; by destruct Hs|by apply IH]. }
  assert (put_object_in R o !! j = Some o) as Hput.
  { unfold put_object_in. rewrite (HO _ _ Hj). destruct (R !! j) as [o'|] eqn:Hr; [|by rewrite lookup_insert_eq].
    rewrite Hr. f_equal. by eapply HR. }
  apply elem_of_cons in Hi as [->|Hi].
  - rewrite Hj. eapply lookup_weaken; [exact Hput|apply put_objects_sub].
  - apply IH; [|done|done]. intros k x x' Hx Hx'. unfold put_object_in in Hx. rewrite (HO _ _ Hj) in Hx.
    destruct (R !! j) eqn:Hr; [by eapply HR|]. destruct (decide (j = k)) as [<-|Hne].
    + rewrite lookup_insert_eq in Hx. congruence.
    + rewrite lookup_insert_ne // in Hx. by eapply HR.
Qed.

Lemma put_commits_keep (m : gmap ObjectId Commit) l R i :
  (∀ i c, m !! i = Some c → commit_id c = i) → R !! i = m !! i → foldl put_commit_in R (omap (m !!.) l) !! i = m !! i.
Proof.
  intros Hm. revert R. induction l as [|j l IH]; intros R Hi; [done|]. csimpl. destruct (m !! j) as [c|] eqn:Hj; csimpl; [|by apply IH].
  apply IH. unfold put_commit_in. rewrite (Hm _ _ Hj). destruct (decide (j = i)) as [<-|Hne].
  - by rewrite lookup_insert_eq Hj.
  - by rewrite lookup_insert_ne.
Qed.

Lemma put_commits_at (m : gmap ObjectId Commit) l R i :
  (∀ i c, m !! i = Some c → commit_id c = i) → i ∈ l → is_Some (m !! i) →
  foldl put_commit_in R (omap (m !!.) l) !! i = m !! i.
Proof.
  intros Hm. revert R. induction l as [|j l IH]; intros R Hi Hs; [by apply elem_of_nil in Hi|]. csimpl.
  apply elem_of_cons in Hi as [->|Hi]; [|by destruct (m !! j); csimpl; apply IH].
  destruct Hs as [c Hc]. rewrite Hc. csimpl. rewrite -Hc. apply put_commits_keep; [done|].
  unfold put_commit_in. by rewrite (Hm _ _ Hc) lookup_insert_eq.
Qed.

Lemma exported_complete s refs set R :
  exportable s → plan_ok s refs set → (∀ i o o', objects R !! i = Some o → objects s !! i = Some o' → o = o') →
  Forall (ref_free R) refs →
  let b := export_bundle s refs set in complete (stored (b_objects b) (b_commits b) R) (received_of b).
Proof.
  intros [Hac Hkey Haddr Hwhole _] [Hrefs Hco Hob] HR Hfree b. specialize (Hob _ HR).
  assert (∀ i, i ∈ missing_commits set → is_Some (commits s !! i) ∧
    commits (stored (b_objects b) (b_commits b) R) !! i = commits s !! i) as Hat.
  { intros i Hi. destruct (co_wanted _ _ _ _ _ Hco i Hi) as [_ Hs]. split; [done|].
    simpl. apply (put_commits_at (commits s)); done. }
  split_and!; simpl.
  - apply Forall_forall. intros _ (c & -> & (i & Hi & Hc)%list_elem_of_omap)%list_elem_of_fmap Hns.
    pose proof (Hkey _ _ Hc) as <-. rewrite elem_of_list_to_set in Hns. apply Forall_forall. intros p Hp.
    destruct (co_parents _ _ _ _ _ Hco (commit_id c) p) as [Hin|Hrem]; [done|done|by exists c| |by apply no_remote_commit in Hrem].
    destruct (Hat p Hin) as [Hs Heq]. simpl in Heq. by rewrite Heq.
  - apply Forall_forall. intros r Hr. destruct (Hwhole r) as (c & Hc & Hint); [by apply Hrefs|].
    assert (br_target r ∈ missing_commits set) as Hin.
    { apply (co_all _ _ _ _ _ Hco); [|by exists c|apply no_remote_commit].
      exists (br_target r). split; [|apply rtc_refl]. apply elem_of_heads_of. by exists r. }
    destruct (Hat _ Hin) as [_ Heq]. exists c. split; [by rewrite Heq|].
    destruct (ob_intact _ _ _ _ _ _ Hob (objects (stored (b_objects b) (b_commits b) R))) with (br_target r) c as [Hg|Hg];
      [apply put_objects_sub| |done|done| |done].
    + intros i Hi. simpl. apply put_objects_at; [done|done|done|]. by apply (ob_stored _ _ _ _ _ _ Hob).
    + destruct (Hint (state_root c)); [apply rtc_refl|]. congruence.
  - done.
Qed.

Lemma run_export_reconciled fuel tree_fuel inter w refs set limits :
  run (export_plan fuel tree_fuel inter) w = (Ok (refs, set), w) → plan_ok (w_store w) refs set →
  sendable limits (export_bundle (w_store w) refs set) →
  ∃ bytes rep, run (export_reconciled fuel tree_fuel inter) w = (Ok (bytes, rep), w) ∧
    to_bytes (export_bundle (w_store w) refs set) = Ok bytes ∧ ex_refs rep = length refs ∧
    ex_commits rep = length (missing_commits set) ∧ ex_objects rep = length (missing_objects set).
Proof.
  intros Hplan [_ Hco Hob] Hs. specialize (Hob ∅ (λ i o o' Hi, False_ind _ (lookup_empty_Some _ _ Hi))).
  destruct Hs as [Ha He _ _]. pose proof (to_bytes_encodes _ He (ac_refs _ _ Ha) (ac_shallow _ _ Ha)) as Hb.
  match type of Hb with _ = Ok ?x => set (bytes := x) in * end.
  exists bytes, {| ex_refs := length refs; ex_commits := length (missing_commits set); ex_objects := length (missing_objects set);
    ex_shallow := length (missing_shallow set); ex_pruned := length (missing_pruned set) |}.
  split; [|split_and!; [exact Hb|done..]]. unfold export_reconciled. rewrite run_bind (stateful_seq _ _ _ _ _ Hplan) run_bind.
  rewrite (stateful_seq _ _ w bytes w); [done|]. rewrite run_step. unfold reading. rewrite write_set_ok; [by rewrite Hb| |].
  - intros i Hi. by apply (ob_stored _ _ _ _ _ _ Hob).
  - intros i Hi. by apply (co_wanted _ _ _ _ _ Hco).
Qed.

(** ** Properties *)

(** An import up to the reconciling is all or nothing: the bundle's refs, whole,
    or an error and not a ref moved. *)
Lemma import_unreconciled_spec fuel inter input limits w :
  DEFAULT_NAMESPACE ∈ namespaces (w_store w) →
  (∀ b, from_bytes input limits = Ok b →
    tree_fuel (foldl put_object_in (objects (w_store w)) (b_objects b)) ≤ fuel) →
  match run (import_unreconciled fuel inter input limits) w with
  | (Ok rep, w') => ∃ b n, from_bytes input limits = Ok b ∧ accepted limits b ∧ imported w w' b ∧
      rep = imported_report b n
  | (Err e, w') => (∃ e', e = Fail e') ∧ import_failed w w'
  end.
Proof.
  intros Hd Hf. destruct (from_bytes input limits) as [b|e] eqn:Hb.
  - pose proof (from_bytes_accepts _ _ _ Hb) as [Ha _].
    destruct (run_import fuel inter input limits w b Hd Hb) as [(e & -> & _)|(n & ns & r & -> & Hc & Hoff & Hns)]; [by apply Hf|..].
    + split; [by eexists|]. apply stored_failed.
    + exists b, n. split_and!; [done|done| |done]. apply import_done; [done|apply Ha|done|done].
  - destruct (reader_new input limits) as [rd|e0] eqn:Hrd.
    + pose proof (store_records_ok input limits rd w Hrd) as Hs. rewrite Hb in Hs. destruct Hs as (e' & os & cs & _ & Hs).
      unfold import_unreconciled. rewrite Hrd run_bind (stateful_seq _ _ w rd w) // run_bind.
      unfold mbind at 1, stateful_bind at 1. rewrite Hs. split; [by eexists|]. apply stored_failed.
    + unfold import_unreconciled. rewrite Hrd. split; [by eexists|]. split; [done|done|done|]. split; [done|done].
Qed.

(** C4: A whole store round trips: an export of a store whose refs are whole
    writes a bundle, if it is within the limits, that any other store, whose
    objects do not collide with these and whose refs of the same names do not
    point elsewhere, imports: it then has every exported ref, whole, and each of
    its commits' history, and keeps what it had. *)
Theorem export_import_roundtrip `{ZL : !ZstdLaws} fuel tree_fuel0 inter w :
  lists_once inter → exportable (w_store w) →
  2 * size (commits (w_store w)) < fuel → size (objects (w_store w)) < tree_fuel0 →
  ∃ refs set, let b := export_bundle (w_store w) refs set in
    (∀ r, r ∈ refs ↔ exported (w_store w) r) ∧
    run (export_plan fuel tree_fuel0 inter) w = (Ok (refs, set), w) ∧
    ∀ limits, sendable limits b → ∃ bytes rep, run (export_reconciled fuel tree_fuel0 inter) w = (Ok (bytes, rep), w) ∧
      ∀ w2 fuel2 inter2, (slen bytes ≤ max_bytes limits)%N → DEFAULT_NAMESPACE ∈ namespaces (w_store w2) →
        (∀ i o o', objects (w_store w2) !! i = Some o → objects (w_store w) !! i = Some o' → o = o') →
        Forall (ref_free (w_store w2)) refs → tree_fuel (foldl put_object_in (objects (w_store w2)) (b_objects b)) ≤ fuel2 →
        ∃ n w3, run (import_unreconciled fuel2 inter2 bytes limits) w2 = (Ok (imported_report b n), w3) ∧ imported w2 w3 b.
Proof.
  intros Hi Hx Hf Ht. destruct (run_export_plan fuel tree_fuel0 inter w Hi Hx Hf Ht) as (refs & set & Hplan & Hp).
  exists refs, set. intros b. split; [apply Hp|]. split; [done|]. intros limits Hs.
  destruct (run_export_reconciled fuel tree_fuel0 inter w refs set limits Hplan Hp Hs) as (bytes & rep & Hrun & Hb & _).
  exists bytes, rep. split; [done|]. intros w2 fuel2 inter2 Hmax Hd Hag Hfree Hf2.
  destruct (bundle_roundtrip_ok limits b Hs) as (bytes' & Hb' & Hr). fold b in Hb. rewrite Hb in Hb'. injection Hb' as <-.
  specialize (Hr Hmax). pose proof (exported_complete _ _ _ (w_store w2) Hx Hp Hag Hfree) as Hc.
  destruct (run_import fuel2 inter2 bytes limits w2 b Hd Hr Hf2) as [(e & _ & [])|(n & ns & r & -> & Hc' & Hoff & Hns)]; [done|].
  eexists n, _. split; [done|]. apply import_done; [done|apply Hs|done|done].
Qed.
End transfers.

(** *** Witnesses *)

Section witnesses.
Import Toy.

(** The sender has the one commit, of the one note, on [main]; the receiver has
    the default namespace. *)
Definition sender : World := {|
  w_store := set_refs (set_commits (set_objects mem_new {[ oid_of note := note ]}) {[ commit_id first_commit := first_commit ]})
    {[ (DEFAULT_NAMESPACE, "main") := commit_id first_commit ]};
  w_specs := ∅ |}.
Definition empty_world : World := {| w_store := mem_new; w_specs := ∅ |}.

Lemma sender_exportable : exportable (w_store sender).
Proof.
  assert (∀ i c, commits (w_store sender) !! i = Some c → i = commit_id first_commit ∧ c = first_commit) as Hc.
  { intros i c Hc. change (({[ commit_id first_commit := first_commit ]} : gmap ObjectId Commit) !! i = Some c) in Hc.
    by apply lookup_singleton_Some in Hc as [<- <-]. }
  assert (∀ i o, objects (w_store sender) !! i = Some o → i = oid_of note ∧ o = note) as Ho.
  { intros i o Ho. change (({[ oid_of note := note ]} : gmap ObjectId Object) !! i = Some o) in Ho. by apply lookup_singleton_Some in Ho as [<- <-]. }
  assert (intact (objects (w_store sender)) (state_root first_commit)) as Hint.
  { pose proof (first_missing_reachable_ok (objects (w_store sender)) (tree_fuel (objects (w_store sender)))
      (state_root first_commit) (le_n _)) as H.
    assert (first_missing_reachable (tree_fuel (objects (w_store sender))) (stored_objects (objects (w_store sender)))
      (state_root first_commit) = Ok None) as He by by vm_compute. by rewrite He in H. }
  split.
  - exists (λ _, 0). intros i j (c & [_ ->]%Hc & Hj). by apply elem_of_nil in Hj.
  - by intros i c [-> ->]%Hc.
  - by intros i o [-> ->]%Ho.
  - intros r (_ & Hr & _). change (({[ (DEFAULT_NAMESPACE, "main") := commit_id first_commit ]} : gmap (string * string) ObjectId) !! ref_key r = Some (br_target r)) in Hr.
    apply lookup_singleton_Some in Hr as [_ Ht]. exists first_commit. rewrite -Ht. by split; [vm_compute|].
  - intros i c [-> ->]%Hc. by right.
Qed.

(** What the sender's export holds. *)
Definition sent_bundle : Bundle := {|
  b_refs := [{| br_namespace := default_ns; br_name := "main"; br_target := commit_id first_commit |}];
  b_shallow := []; b_commits := [first_commit]; b_objects := [note] |}.

Lemma sent_sendable : sendable default_limits sent_bundle.
Proof.
  split.
  - split; [|apply NoDup_singleton|constructor| | | |]; try by vm_compute. repeat constructor; by vm_compute.
  - repeat constructor; try by vm_compute. by exists "{}".
  - repeat constructor; by vm_compute.
  - by vm_compute.
Qed.

Lemma export_import_roundtrip_witness :
  ∃ bytes rep n w3, run (export_reconciled 10 10 elements) sender = (Ok (bytes, rep), sender) ∧
    run (import_unreconciled 10 elements bytes default_limits) empty_world = (Ok (imported_report sent_bundle n), w3) ∧
    imported empty_world w3 sent_bundle.
Proof.
  destruct (export_import_roundtrip 10 10 elements sender elements_once sender_exportable) as (refs & set & _ & Hplan & Hlim);
    [vm_compute; lia|vm_compute; lia|].
  assert (run (export_plan 10 10 elements) sender = (Ok (b_refs sent_bundle, {| missing_commits := [commit_id first_commit];
    missing_objects := [oid_of note]; missing_shallow := []; missing_pruned := [] |}), sender)) as Hp by by vm_compute.
  rewrite Hp in Hplan. injection Hplan as <- <-.
  change (export_bundle (w_store sender) _ _) with
    sent_bundle in Hlim.
  destruct (Hlim default_limits sent_sendable) as (bytes & rep & Hrun & Himp).
  assert (slen bytes ≤ max_bytes default_limits)%N as Hmax.
  { pose proof (f_equal fst Hrun) as H. clear -H. vm_compute in H. injection H as <- _. by vm_compute. }
  destruct (Himp empty_world 10 elements Hmax) as (n & w3 & Hi & Hw); [by vm_compute|done| |vm_compute; lia|].
  - repeat constructor; by intros ? ?.
  - exists bytes, rep, n, w3. split; [exact Hrun|]. split; [exact Hi|exact Hw].
Defined.
End witnesses.
