(* ===== verification/Reminders.v ===== *)
(** * Reminders: scheduled work for agents

    Models the [agentstategraph-reminders] crate: the records, schedules and
    filters of [types.rs]; the in-process table of [memory.rs], one atomic step
    an operation, since each holds the lock throughout; and the manager of
    [manager.rs], whose lifecycle methods read a reminder, change a copy and
    write it back only if the stored one is still what was read, up to 32
    times. Clocks and fresh ids are arguments, as is the order a hash map is
    read in; date arithmetic is a parameter ([Chrono]), and so is [serde_json]'s
    form of a reminder ([ReminderJson]). *)
From S2P Require Import Prelude Objects Json Intents Programs.

(** ** The records *)

Inductive Priority : Type := PCritical | PHigh | PMedium | PLow | PMinimal.

Definition priority_default : Priority := PMedium.
Definition as_u8 (p : Priority) : N :=
  match p with PCritical => 1 | PHigh => 2 | PMedium => 3 | PLow => 4 | PMinimal => 5 end.

Inductive ReminderStatus : Type :=
  | RPending
  | RDue
  | RAwaitingPermission
  | RInProgress
  | RCompleted
  | RSnoozed
  | RCancelled.

#[export] Instance ReminderStatus_eq_dec : EqDecision ReminderStatus.
Proof. solve_decision. Defined.

Definition is_terminal (s : ReminderStatus) : bool :=
  match s with RCompleted | RCancelled => true | _ => false end.
Definition is_actionable (s : ReminderStatus) : bool :=
  match s with RDue | RAwaitingPermission | RInProgress => true | _ => false end.

(** A [NaiveTime] is its nanoseconds since midnight, a date its day number, a
    [Weekday] its number from Monday. *)
Abbreviation NaiveTime := Z.
Abbreviation Weekday := N.

Inductive Schedule : Type :=
  | Once
  | Interval (every_seconds : N)
  | Daily (time : NaiveTime)
  | Weekly (day : Weekday) (time : NaiveTime).

(** What [next_due] uses of [chrono]; [None] is a panic, out of its range. *)
Class Chrono := {
  add_seconds : Time → Z → option Time;
  date_naive : Time → Z;
  next_day : Z → option Z;
  and_time : Z → NaiveTime → Time;
  weekday_of : Z → Weekday;
}.

(** [as i64] of a [u64]. *)
Definition as_i64 (n : N) : Z := (if (n <? 2 ^ 63)%N then Z.of_N n else Z.of_N n - 2 ^ 64)%Z.

Inductive RefKind : Type :=
  | KBranch
  | KMemory
  | KPlan
  | KTask
  | KStatePath
  | KExternal (scheme : string).

Record ReminderRef := {
  ref_kind : RefKind;
  ref_id : string;
  ref_label : option string;
  stale : bool;
}.

Inductive ExecutionResult : Type := XSuccess | XFailed | XDeferred | XSnoozed | XCancelled.

Record ExecutionRecord := {
  started_at : Time;
  completed_at : option Time;
  exec_agent : string;
  approved_by : option string;
  exec_result : ExecutionResult;
  exec_notes : list string;
  exec_task : option string;
}.

Record Reminder := {
  rem_id : string;
  rem_title : string;
  rem_instructions : string;
  rem_commands : list string;
  rem_refs : list ReminderRef;
  rem_priority : Priority;
  due_at : Time;
  schedule : option Schedule;
  autonomous : bool;
  rem_created_by : string;
  rem_created_at : Time;
  rem_status : ReminderStatus;
  snoozed_until : option Time;
  executions : list ExecutionRecord;
  rem_tags : list string;
}.

(** A reminder with the fields its lifecycle writes replaced. *)
Definition set_rem_status (r : Reminder) x : Reminder := {|
  rem_id := rem_id r; rem_title := rem_title r; rem_instructions := rem_instructions r;
  rem_commands := rem_commands r; rem_refs := rem_refs r; rem_priority := rem_priority r; due_at := due_at r;
  schedule := schedule r; autonomous := autonomous r; rem_created_by := rem_created_by r;
  rem_created_at := rem_created_at r; rem_status := x; snoozed_until := snoozed_until r;
  executions := executions r; rem_tags := rem_tags r |}.
Definition set_snoozed (r : Reminder) x : Reminder := {|
  rem_id := rem_id r; rem_title := rem_title r; rem_instructions := rem_instructions r;
  rem_commands := rem_commands r; rem_refs := rem_refs r; rem_priority := rem_priority r; due_at := due_at r;
  schedule := schedule r; autonomous := autonomous r; rem_created_by := rem_created_by r;
  rem_created_at := rem_created_at r; rem_status := rem_status r; snoozed_until := x;
  executions := executions r; rem_tags := rem_tags r |}.
Definition set_executions (r : Reminder) x : Reminder := {|
  rem_id := rem_id r; rem_title := rem_title r; rem_instructions := rem_instructions r;
  rem_commands := rem_commands r; rem_refs := rem_refs r; rem_priority := rem_priority r; due_at := due_at r;
  schedule := schedule r; autonomous := autonomous r; rem_created_by := rem_created_by r;
  rem_created_at := rem_created_at r; rem_status := rem_status r; snoozed_until := snoozed_until r;
  executions := x; rem_tags := rem_tags r |}.
Definition set_due_at (r : Reminder) x : Reminder := {|
  rem_id := rem_id r; rem_title := rem_title r; rem_instructions := rem_instructions r;
  rem_commands := rem_commands r; rem_refs := rem_refs r; rem_priority := rem_priority r; due_at := x;
  schedule := schedule r; autonomous := autonomous r; rem_created_by := rem_created_by r;
  rem_created_at := rem_created_at r; rem_status := rem_status r; snoozed_until := snoozed_until r;
  executions := executions r; rem_tags := rem_tags r |}.
Definition set_rem_refs (r : Reminder) x : Reminder := {|
  rem_id := rem_id r; rem_title := rem_title r; rem_instructions := rem_instructions r;
  rem_commands := rem_commands r; rem_refs := x; rem_priority := rem_priority r; due_at := due_at r;
  schedule := schedule r; autonomous := autonomous r; rem_created_by := rem_created_by r;
  rem_created_at := rem_created_at r; rem_status := rem_status r; snoozed_until := snoozed_until r;
  executions := executions r; rem_tags := rem_tags r |}.

Record CreateReminder := {
  new_title : string;
  new_instructions : string;
  new_commands : list string;
  new_refs : list ReminderRef;
  new_priority : Priority;
  new_due_at : Time;
  new_schedule : option Schedule;
  new_autonomous : bool;
  new_created_by : string;
  new_tags : list string;
}.

Definition into_reminder (id : string) (now : Time) (c : CreateReminder) : Reminder := {|
  rem_id := id; rem_title := new_title c; rem_instructions := new_instructions c;
  rem_commands := new_commands c; rem_refs := new_refs c; rem_priority := new_priority c;
  due_at := new_due_at c; schedule := new_schedule c; autonomous := new_autonomous c;
  rem_created_by := new_created_by c; rem_created_at := now; rem_status := RPending;
  snoozed_until := None; executions := []; rem_tags := new_tags c |}.

Record ReminderFilter := {
  want_status : option ReminderStatus;
  priority_at_most : option Priority;
  want_created_by : option string;
  due_before : option Time;
  want_ref : option string;
  want_tags : list string;
}.

Definition filter_default : ReminderFilter := {|
  want_status := None; priority_at_most := None; want_created_by := None; due_before := None;
  want_ref := None; want_tags := [] |}.
Definition filter_status (s : ReminderStatus) : ReminderFilter := {|
  want_status := Some s; priority_at_most := None; want_created_by := None; due_before := None;
  want_ref := None; want_tags := [] |}.

Definition all_of {A} (o : option A) (p : A → bool) : bool :=
  match o with None => true | Some x => p x end.

Definition filter_matches (f : ReminderFilter) (r : Reminder) : bool :=
  all_of (want_status f) (λ s, bool_decide (rem_status r = s)) &&
  all_of (priority_at_most f) (λ p, (as_u8 (rem_priority r) <=? as_u8 p)%N) &&
  all_of (want_created_by f) (λ by_, bool_decide (rem_created_by r = by_)) &&
  all_of (due_before f) (λ due, (due_at r <=? due)%Z) &&
  all_of (want_ref f) (λ id, existsb (λ x, bool_decide (ref_id x = id)) (rem_refs r)) &&
  forallb (λ tag, bool_decide (tag ∈ rem_tags r)) (want_tags f).

(** ** Errors *)

Inductive ReminderError : Type :=
  | RemNotFound (id : string)
  | AlreadyTerminal (id : string) (s : ReminderStatus)
  | InvalidTransition (id : string) (from to : ReminderStatus)
  | RequiresApproval (id : string)
  | RemStore (msg : string).

(** An error that is returned, or a panic. *)
Inductive RemFault : Type :=
  | RemErr (e : ReminderError)
  | RemPanic.

(** ** Schedules *)

Section chrono.
Context `{CR : Chrono}.

Abbreviation C := (result RemFault).

(** The first of the [n] days from [date] on that is a [day], if the loop finds
    one. *)
Fixpoint find_weekday (n : nat) (day : Weekday) (date : Z) : C (option Z) :=
  match n with
  | 0 => Ok None
  | S n' =>
      if (weekday_of date =? day)%N then Ok (Some date) else
      date' ← ok_or RemPanic (next_day date); find_weekday n' day date'
  end.

Definition next_due (s : Schedule) (after : Time) : C (option Time) :=
  match s with
  | Once => Ok None
  | Interval every_seconds => t ← ok_or RemPanic (add_seconds after (as_i64 every_seconds)); Ok (Some t)
  | Daily time =>
      let candidate := and_time (date_naive after) time in
      if (after <? candidate)%Z then Ok (Some candidate)
      else d ← ok_or RemPanic (next_day (date_naive after)); Ok (Some (and_time d time))
  | Weekly day time =>
      date ← ok_or RemPanic (next_day (date_naive after));
      found ← find_weekday 7 day date;
      Ok match found with Some d => Some (and_time d time) | None => None end
  end.
End chrono.

(** ** The table *)

(** [serde_json::to_value] and [from_value] of a reminder. *)
Class ReminderJson := {
  reminder_to_json : Reminder → result string Json;
  reminder_from_json : Json → result string Reminder;
}.
(** A reminder serializes, and to what reads back as it was. *)
Class ReminderJsonLaws `{ReminderJson} := {
  reminder_round r : ∃ j, reminder_to_json r = Ok j ∧ reminder_from_json j = Ok r;
}.

Abbreviation Reminders := (gmap string Reminder).
Abbreviation R := (Prog Reminders RemFault).

Section store.
Context `{RJ : ReminderJson} (inter : Reminders → list Reminder).

Definition same_reminder (a b : Reminder) : bool :=
  match reminder_to_json a, reminder_to_json b with
  | Ok a, Ok b => bool_decide (a = b)
  | _, _ => false
  end.

Definition rs_save (r : Reminder) : stateful Reminders ReminderError () := λ m, (Ok (), <[rem_id r := r]> m).
Definition rs_get (id : string) (m : Reminders) : option Reminder := m !! id.
Definition rs_update (r : Reminder) : stateful Reminders ReminderError () := λ m,
  match m !! rem_id r with
  | Some _ => (Ok (), <[rem_id r := r]> m)
  | None => (Err (RemNotFound (rem_id r)), m)
  end.
Definition rs_update_if_unchanged (expected new : Reminder) : stateful Reminders ReminderError bool := λ m,
  match m !! rem_id expected with
  | Some current => if same_reminder current expected then (Ok true, <[rem_id new := new]> m) else (Ok false, m)
  | None => (Err (RemNotFound (rem_id expected)), m)
  end.
Definition rs_delete (id : string) : stateful Reminders ReminderError bool := λ m,
  (Ok (bool_decide (is_Some (m !! id))), delete id m).

(** By priority, then by due time. *)
Definition sooner (a b : Reminder) : Prop :=
  (as_u8 (rem_priority a) < as_u8 (rem_priority b))%N ∨
  as_u8 (rem_priority a) = as_u8 (rem_priority b) ∧ (due_at a ≤ due_at b)%Z.
#[export] Instance sooner_dec : RelDecision sooner.
Proof. unfold sooner. intros a b. apply _. Defined.

Definition rs_list (f : ReminderFilter) (m : Reminders) : list Reminder :=
  merge_sort sooner (List.filter (filter_matches f) (inter m)).

(** ** The manager *)

Definition MAX_UPDATE_ATTEMPTS : nat := 32.

Definition in_table {A} (m : stateful Reminders ReminderError A) : R A := step (map_err_st RemErr m).
Definition throw_rem {A} (e : ReminderError) : R A := fail (RemErr e).

Definition conflict_message (id : string) : string :=
  "write conflict: reminder " +:+ id +:+ " kept changing; gave up after 32 attempts".
Definition write_conflict (id : string) : RemFault := RemErr (RemStore (conflict_message id)).

Definition create_reminder (id : string) (now : Time) (input : CreateReminder) : R Reminder :=
  let r := into_reminder id now input in
  _ ← in_table (rs_save r); mret r.

Definition get_reminder (id : string) : R Reminder :=
  r ← in_table (reading (λ m, Ok (rs_get id m)));
  match r with Some r => mret r | None => throw_rem (RemNotFound id) end.

Definition list_reminders (f : ReminderFilter) : R (list Reminder) :=
  in_table (reading (λ m, Ok (rs_list f m))).

(** A change to a copy; it may fail or panic. *)
Abbreviation Change := (Reminder → result RemFault Reminder).

(** [change] takes the attempt, since each reads the clock anew. *)
Definition modify (id : string) (change : nat → Change) : R Reminder :=
  attempts MAX_UPDATE_ATTEMPTS 0 (write_conflict id) (λ i,
    read ← get_reminder id;
    r ← of_result (change i read);
    landed ← in_table (rs_update_if_unchanged read r);
    mret (if landed : bool then Some r else None)).

(** *** The changes *)

Definition refuse {A} (e : ReminderError) : result RemFault A := Err (RemErr e).

Definition snooze_change (id : string) (until : Time) : Change := λ r,
  if is_terminal (rem_status r) then refuse (AlreadyTerminal id (rem_status r)) else
  Ok (set_snoozed (set_rem_status r RSnoozed) (Some until)).

Definition cancel_change (id : string) : Change := λ r,
  if decide (rem_status r = RCompleted) then refuse (AlreadyTerminal id (rem_status r)) else
  Ok (set_rem_status r RCancelled).

(** The last record of a list, changed by [f]. *)
Fixpoint on_last {A} (f : A → A) (l : list A) : list A :=
  match l with
  | [] => []
  | [x] => [f x]
  | x :: l' => x :: on_last f l'
  end.

Definition stamp_approver (who : string) (x : ExecutionRecord) : ExecutionRecord :=
  match completed_at x with
  | Some _ => x
  | None => {| started_at := started_at x; completed_at := None; exec_agent := exec_agent x;
      approved_by := Some who; exec_result := exec_result x; exec_notes := exec_notes x; exec_task := exec_task x |}
  end.

Definition approve_change (id who : string) : Change := λ r,
  match rem_status r with
  | RAwaitingPermission | RDue =>
      let r := set_rem_status r RDue in
      Ok (set_executions r (on_last (stamp_approver who) (executions r)))
  | s => if is_terminal s then refuse (AlreadyTerminal id s) else refuse (InvalidTransition id s RDue)
  end.

Definition partial_record (agent : string) (now : Time) : ExecutionRecord := {|
  started_at := now; completed_at := None; exec_agent := agent; approved_by := None;
  exec_result := XDeferred; exec_notes := []; exec_task := None |}.

Definition start_change (id agent : string) (now : Time) : Change := λ r,
  let begin := Ok (set_rem_status (set_executions r (executions r ++ [partial_record agent now])) RInProgress) in
  match rem_status r with
  | RDue => begin
  | RAwaitingPermission => if negb (autonomous r) then refuse (RequiresApproval id) else begin
  | s => if is_terminal s then refuse (AlreadyTerminal id s) else refuse (InvalidTransition id s RInProgress)
  end.

(** The fields of the given record, into the one [start] opened. *)
Definition close_record (x last : ExecutionRecord) : ExecutionRecord := {|
  started_at := started_at last; completed_at := completed_at x; exec_agent := exec_agent last;
  approved_by := match approved_by x with Some who => Some who | None => approved_by last end;
  exec_result := exec_result x; exec_notes := exec_notes x; exec_task := exec_task x |}.

Definition complete_at (now : Time) (x : ExecutionRecord) : ExecutionRecord := {|
  started_at := started_at x; completed_at := Some now; exec_agent := exec_agent x; approved_by := approved_by x;
  exec_result := exec_result x; exec_notes := exec_notes x; exec_task := exec_task x |}.

(** Closes a record left open, or adds one. *)
Definition add_execution (x : ExecutionRecord) (l : list ExecutionRecord) : list ExecutionRecord :=
  match last l with
  | Some y => match completed_at y with None => on_last (close_record x) l | Some _ => l ++ [x] end
  | None => l ++ [x]
  end.

Context `{CR : Chrono}.

Definition record_change (id : string) (x : ExecutionRecord) (now : Time) : Change := λ r,
  if is_terminal (rem_status r) then refuse (AlreadyTerminal id (rem_status r)) else
  let x := complete_at now x in
  let r := set_executions r (add_execution x (executions r)) in
  match exec_result x with
  | XSuccess =>
      next ← match schedule r with Some s => next_due s now | None => Ok None end;
      Ok match next with
      | Some next =>
          set_rem_status (set_snoozed (set_due_at r next) None)
            (if autonomous r then RPending else RAwaitingPermission)
      | None => set_rem_status r RCompleted
      end
  | XSnoozed => Ok (set_rem_status r RSnoozed)
  | XCancelled => Ok (set_rem_status r RCancelled)
  | XFailed | XDeferred => Ok (if decide (rem_status r = RInProgress) then set_rem_status r RDue else r)
  end.

Definition snooze (id : string) (until : Time) : R Reminder := modify id (λ _, snooze_change id until).
Definition cancel (id : string) : R Reminder := modify id (λ _, cancel_change id).
Definition approve (id who : string) : R Reminder := modify id (λ _, approve_change id who).
Definition start (id agent : string) (clock : nat → Time) : R Reminder :=
  modify id (λ i, start_change id agent (clock i)).
Definition record_execution (id : string) (x : ExecutionRecord) (clock : nat → Time) : R Reminder :=
  modify id (λ i, record_change id x (clock i)).

(** Refs with the id that are not stale yet, and the list with them stale. *)
Definition is_fresh (id : string) (x : ReminderRef) : bool := bool_decide (ref_id x = id) && negb (stale x).
Definition mark_stale (id : string) (x : ReminderRef) : ReminderRef :=
  if is_fresh id x then {| ref_kind := ref_kind x; ref_id := ref_id x; ref_label := ref_label x; stale := true |} else x.

Definition mark_ref_stale (id ref : string) : R nat :=
  attempts MAX_UPDATE_ATTEMPTS 0 (write_conflict id) (λ _,
    read ← get_reminder id;
    let count := length (List.filter (is_fresh ref) (rem_refs read)) in
    if decide (count = 0) then mret (Some count) else
    landed ← in_table (rs_update_if_unchanged read (set_rem_refs read (mark_stale ref <$> rem_refs read)));
    mret (if landed : bool then Some count else None)).

(** *** What is due *)

Definition wake_status (r : Reminder) : ReminderStatus := if autonomous r then RDue else RAwaitingPermission.

Definition promote_change (r : Reminder) : Reminder := set_rem_status r (wake_status r).
Definition wake_change (r : Reminder) : Reminder := set_snoozed (set_rem_status r (wake_status r)) None.
Definition wakes_at (r : Reminder) : Time := default (due_at r) (snoozed_until r).

Definition promote (now : Time) (read : Reminder) : R () :=
  if (due_at read <=? now)%Z then _ ← in_table (rs_update_if_unchanged read (promote_change read)); mret ()
  else mret ().
Definition wake (now : Time) (read : Reminder) : R () :=
  if (wakes_at read <=? now)%Z then _ ← in_table (rs_update_if_unchanged read (wake_change read)); mret ()
  else mret ().

Definition remind_me (now : Time) : R (list Reminder) :=
  pending ← list_reminders (filter_status RPending);
  _ ← each (promote now) pending;
  snoozed ← list_reminders (filter_status RSnoozed);
  _ ← each (wake now) snoozed;
  due ← list_reminders (filter_status RDue);
  awaiting ← list_reminders (filter_status RAwaitingPermission);
  mret (merge_sort sooner (due ++ awaiting)).
End store.
