(* ===== verification/Approvals.v ===== *)
(** * Approvals: reminders under concurrency

    What the lifecycle methods of [Reminders] come to when any number of
    managers work over one table: every version of a reminder follows from the
    one before by one step of its state machine, so no acknowledged change is
    lost; what is finished stays finished; and what needs an approval is not
    started without one. *)
From S2P Require Import Prelude Objects Json Intents Programs Reminders.

(** ** The state machine of a reminder *)

Inductive Act : Type :=
  | ASnooze
  | ACancel
  | AApprove
  | AStart
  | ARecord
  | AStale
  | APromote
  | AWake.

#[export] Instance Act_eq_dec : EqDecision Act.
Proof. solve_decision. Defined.

Section machine.
Context `{RJ : ReminderJson, RL : !ReminderJsonLaws, CR : Chrono} (inter : Reminders → list Reminder).

(** The table of statuses: where each act may take a reminder, which runs
    without approval when [auto]. *)
Definition unfinished (s : ReminderStatus) : Prop := s ≠ RCompleted ∧ s ≠ RCancelled.

(** The status in which a reminder waits that has come due, or will again. *)
Definition comes_due (auto : bool) : ReminderStatus := if auto then RDue else RAwaitingPermission.
Definition comes_round (auto : bool) : ReminderStatus := if auto then RPending else RAwaitingPermission.

Inductive status_table (auto : bool) : Act → ReminderStatus → ReminderStatus → Prop :=
  | may_snooze s : unfinished s → status_table auto ASnooze s RSnoozed
  | may_cancel s : s ≠ RCompleted → status_table auto ACancel s RCancelled
  | may_approve : status_table auto AApprove RAwaitingPermission RDue
  | may_approve_again : status_table auto AApprove RDue RDue
  | may_start : status_table auto AStart RDue RInProgress
  | may_start_unapproved : auto → status_table auto AStart RAwaitingPermission RInProgress
  | may_repeat s : unfinished s → status_table auto ARecord s (comes_round auto)
  | may_complete s : unfinished s → status_table auto ARecord s RCompleted
  | may_give_up s : unfinished s → status_table auto ARecord s RCancelled
  | may_put_off s : unfinished s → status_table auto ARecord s RSnoozed
  | may_fail : status_table auto ARecord RInProgress RDue
  | may_note s : unfinished s → s ≠ RInProgress → status_table auto ARecord s s
  | may_go_stale s : status_table auto AStale s s
  | may_promote : status_table auto APromote RPending (comes_due auto)
  | may_wake : status_table auto AWake RSnoozed (comes_due auto).

(** The log of executions: a start opens one; a record closes the open one, or
    adds one that is closed; an approval signs the open one. *)
Inductive log_change : Act → list ExecutionRecord → list ExecutionRecord → Prop :=
  | log_keep a l : a ≠ AStart → a ≠ ARecord → log_change a l l
  | log_open l x : completed_at x = None → log_change AStart l (l ++ [x])
  | log_sign l x x' : completed_at x = None → completed_at x' = None → is_Some (approved_by x') →
      log_change AApprove (l ++ [x]) (l ++ [x'])
  | log_add l x : (∀ y, last l = Some y → is_Some (completed_at y)) → is_Some (completed_at x) →
      log_change ARecord l (l ++ [x])
  | log_close l x x' : completed_at x = None → is_Some (completed_at x') →
      started_at x' = started_at x → exec_agent x' = exec_agent x →
      log_change ARecord (l ++ [x]) (l ++ [x']).

(** An act on a reminder: a row of the table, an entry of the log, and which
    other fields it may write. *)
Record acts (a : Act) (r r' : Reminder) : Prop := {
  ac_status : status_table (autonomous r) a (rem_status r) (rem_status r');
  ac_log : log_change a (executions r) (executions r');
  ac_id : rem_id r' = rem_id r;
  ac_errand : rem_title r' = rem_title r ∧ rem_instructions r' = rem_instructions r ∧
    rem_commands r' = rem_commands r ∧ rem_priority r' = rem_priority r ∧ schedule r' = schedule r ∧
    rem_tags r' = rem_tags r;
  ac_autonomous : autonomous r' = autonomous r;
  ac_created : rem_created_by r' = rem_created_by r ∧ rem_created_at r' = rem_created_at r;
  ac_due : a ≠ ARecord → due_at r' = due_at r;
  ac_snoozed : a ≠ ASnooze → a ≠ AWake → a ≠ ARecord → snoozed_until r' = snoozed_until r;
  ac_refs : a ≠ AStale → rem_refs r' = rem_refs r;
}.

(** The versions of a reminder, by the acts that made them. *)
Inductive trail : list Act → Reminder → Reminder → Prop :=
  | trail_nil r : trail [] r r
  | trail_snoc l a r r' r'' : trail l r r' → acts a r' r'' → trail (l ++ [a]) r r''.

Lemma trail_app l1 l2 r1 r2 r3 : trail l1 r1 r2 → trail l2 r2 r3 → trail (l1 ++ l2) r1 r3.
Proof.
  intros H1 H2. induction H2 as [|l a r2 r3 r4 _ IH Ha]; [by rewrite app_nil_r|].
  rewrite app_assoc. econstructor; [by apply IH|done].
Qed.

Lemma trail_one a r r' : acts a r r' → trail [a] r r'.
Proof. intros Ha. apply (trail_snoc [] a r r r'); [constructor|done]. Qed.

(** Case analysis on a change that went through. *)
Ltac change_cases :=
  repeat match goal with
  | H : Err _ = Ok _ |- _ => discriminate H
  | H : Ok _ = Ok _ |- _ => injection H as <-
  | H : refuse _ = Ok _ |- _ => discriminate H
  | H : (if ?b then _ else _) = Ok _ |- _ => destruct b eqn:?
  | H : match ?x with _ => _ end = Ok _ |- _ => destruct x eqn:?
  end.

Lemma unfinished_spec s : is_terminal s = false → unfinished s.
Proof. by destruct s. Qed.

Lemma last_snoc_inv {A} (l : list A) x : last l = Some x → ∃ k, l = k ++ [x].
Proof. apply last_Some. Qed.

Lemma on_last_snoc {A} (f : A → A) l x : on_last f (l ++ [x]) = l ++ [f x].
Proof.
  induction l as [|y l IH]; [done|]. change ((y :: l) ++ [x]) with (y :: (l ++ [x])). cbn [on_last]. rewrite IH.
  by destruct l.
Qed.

(** Signing the last execution, when it is open. *)
Lemma stamp_log who l : log_change AApprove l (on_last (stamp_approver who) l).
Proof.
  destruct (last l) as [x|] eqn:Hl; [apply last_Some in Hl as [k ->]|apply last_None in Hl as ->; by constructor].
  rewrite on_last_snoc. unfold stamp_approver. destruct (completed_at x) eqn:Hx; [by constructor|].
  constructor; [done|done|by eexists].
Qed.

(** Closing it, or adding one. *)
Lemma add_log now x l : log_change ARecord l (add_execution (complete_at now x) l).
Proof.
  unfold add_execution. destruct (last l) as [y|] eqn:Hl.
  - destruct (completed_at y) eqn:Hy.
    + apply log_add; [|by eexists]. intros z Hz. assert (z = y) as -> by congruence. by rewrite Hy.
    + apply last_Some in Hl as [k ->]. rewrite on_last_snoc. apply log_close; [done|by eexists|done|done].
  - apply log_add; [|by eexists]. intros z Hz. congruence.
Qed.

Ltac act :=
  split; simpl; try done; try (intros; congruence); try apply add_log; try apply stamp_log; try by apply log_keep.

(** *** The changes act by the table *)

Lemma snooze_acts id until r r' : snooze_change id until r = Ok r' → acts ASnooze r r'.
Proof. unfold snooze_change. intros H. change_cases. act. by apply may_snooze, unfinished_spec. Qed.

Lemma cancel_acts id r r' : cancel_change id r = Ok r' → acts ACancel r r'.
Proof. unfold cancel_change. case_decide; [done|]. intros [= <-]. act. by apply may_cancel. Qed.

Lemma approve_acts id who r r' : approve_change id who r = Ok r' → acts AApprove r r'.
Proof.
  unfold approve_change. destruct (rem_status r) eqn:Hs; simpl; intros [= <-];
    act; rewrite Hs; constructor.
Qed.

Lemma start_acts id agent now r r' : start_change id agent now r = Ok r' → acts AStart r r'.
Proof.
  unfold start_change. destruct (rem_status r) eqn:Hs; simpl; try done.
  - intros [= <-]. act; [rewrite Hs; constructor|by apply log_open].
  - destruct (autonomous r) eqn:Ha; [|done]. intros [= <-]. act; [rewrite Hs; apply may_start_unapproved; by rewrite Ha|by apply log_open].
Qed.

Lemma record_acts id x now r r' : record_change id x now r = Ok r' → acts ARecord r r'.
Proof.
  unfold record_change. destruct (is_terminal (rem_status r)) eqn:Ht; [done|]. apply unfinished_spec in Ht.
  intros H. destruct (exec_result (complete_at now x)); simpl in H.
  - destruct (match schedule r with Some s => next_due s now | None => Ok None end) as [[next|]|e]; [| |done];
      injection H as <-; act.
    + by apply may_repeat.
    + by apply may_complete.
  - case_decide as Hs; injection H as <-; act; [rewrite Hs; apply may_fail|by apply may_note].
  - case_decide as Hs; injection H as <-; act; [rewrite Hs; apply may_fail|by apply may_note].
  - injection H as <-. act. by apply may_put_off.
  - injection H as <-. act. by apply may_give_up.
Qed.

Lemma stale_acts ref r : acts AStale r (set_rem_refs r (mark_stale ref <$> rem_refs r)).
Proof. act. constructor. Qed.

Lemma promote_acts r : rem_status r = RPending → acts APromote r (promote_change r).
Proof. intros Hs. act. rewrite Hs. constructor. Qed.

Lemma wake_acts r : rem_status r = RSnoozed → acts AWake r (wake_change r).
Proof. intros Hs. act. rewrite Hs. constructor. Qed.

(** *** Finished records stay *)

Definition audit (l l' : list ExecutionRecord) : Prop :=
  ∀ i x, l !! i = Some x → is_Some (completed_at x) → l' !! i = Some x.

Lemma audit_refl l : audit l l.
Proof. by intros i x. Qed.
Lemma audit_app l k : audit l (l ++ k).
Proof. intros i x Hi _. by apply lookup_app_l_Some. Qed.
Lemma audit_last l x x' : completed_at x = None → audit (l ++ [x]) (l ++ [x']).
Proof.
  intros Hx i y Hi [t Ht]. apply lookup_app_Some in Hi as [Hi|[Hle Hi]]; [by apply lookup_app_l_Some|].
  apply list_lookup_singleton_Some in Hi as [_ <-]. congruence.
Qed.

Lemma log_audit a l l' : log_change a l l' → audit l l'.
Proof. intros []; [apply audit_refl|apply audit_app|by apply audit_last|apply audit_app|by apply audit_last]. Qed.

(** ** What an act keeps *)

Record same_errand (r r' : Reminder) : Prop := {
  se_id : rem_id r' = rem_id r;
  se_title : rem_title r' = rem_title r ∧ rem_instructions r' = rem_instructions r;
  se_autonomous : autonomous r' = autonomous r;
  se_created : rem_created_by r' = rem_created_by r ∧ rem_created_at r' = rem_created_at r;
  se_audit : audit (executions r) (executions r');
}.

Lemma acts_errand a r r' : acts a r r' → same_errand r r'.
Proof. intros []. split; [done|naive_solver|done|done|by eapply log_audit]. Qed.

Lemma table_terminal auto a s s' :
  status_table auto a s s' → is_terminal s → a ≠ AStart ∧ a ≠ ARecord ∧ s' = s.
Proof.
  assert (∀ s, unfinished s → ¬ is_terminal s) as Hu by (intros [] [? ?]; by try intros []).
  intros [] Ht; try done; try by destruct (Hu _ ltac:(eassumption)). by destruct s0.
Qed.

Lemma acts_terminal a r r' : acts a r r' → is_terminal (rem_status r) → rem_status r' = rem_status r ∧ executions r' = executions r.
Proof.
  intros [Hs Hl _ _ _ _ _ _ _] Ht. destruct (table_terminal _ _ _ _ Hs Ht) as (H1 & H2 & H3). split; [done|].
  inversion Hl as [| | |l x _ _|]; subst; try done.
  by inversion Hs as [| |Hx Hy|Hx Hy| | | | | | | | | | |]; rewrite -?Hx -?Hy in Ht.
Qed.

(** Waiting for somebody's word. *)
Definition held (r : Reminder) : Prop := autonomous r = false ∧ rem_status r ≠ RDue ∧ rem_status r ≠ RInProgress.

Lemma table_held a s s' :
  status_table false a s s' → a ≠ AApprove → s ≠ RDue → s ≠ RInProgress → s' ≠ RDue ∧ s' ≠ RInProgress.
Proof. by intros []. Qed.

Lemma acts_held a r r' : acts a r r' → a ≠ AApprove → held r → held r'.
Proof.
  intros [Hs _ _ _ Ha _ _ _ _] Hne (Hauto & Hd & Hp). split; [congruence|]. rewrite Hauto in Hs.
  by eapply table_held.
Qed.

Lemma trail_errand l r r' : trail l r r' → same_errand r r'.
Proof.
  induction 1 as [r|l a r r' r'' _ [] Ha%acts_errand]; [by split; try apply audit_refl|].
  destruct Ha. split; [congruence|naive_solver congruence|congruence|naive_solver congruence|].
  intros i x Hi Hx. auto.
Qed.

Lemma trail_terminal l r r' : trail l r r' → is_terminal (rem_status r) → rem_status r' = rem_status r ∧ executions r' = executions r.
Proof.
  induction 1 as [r|l a r r' r'' _ IH Ha]; intros Ht; [done|]. destruct (IH Ht) as [Hs He].
  apply acts_terminal in Ha as [-> ->]; [done|]. by rewrite Hs.
Qed.

Lemma trail_held l r r' : trail l r r' → AApprove ∉ l → held r → held r'.
Proof.
  induction 1 as [r|l a r r' r'' _ IH Ha]; [done|]. rewrite not_elem_of_app list_elem_of_singleton. intros [Hl Hne] Hr.
  eapply acts_held; [done|congruence|]. by apply IH.
Qed.

(** ** Any number of managers *)

(** The acts the managers of a pool may perform, on which reminder. *)
Context (P : string → Act → Prop).

Definition trail_by (id : string) (r r' : Reminder) : Prop := ∃ l, trail l r r' ∧ Forall (P id) l.

#[export] Instance trail_by_preorder id : PreOrder (trail_by id).
Proof.
  split; [intros r; exists []; split; constructor|].
  intros r1 r2 r3 (l1 & H1 & HP1) (l2 & H2 & HP2). exists (l1 ++ l2). split; [by eapply trail_app|by apply Forall_app].
Qed.

(** Each reminder is stored under its id. *)
Definition keyed (m : Reminders) : Prop := ∀ id r, m !! id = Some r → rem_id r = id.

(** What a step of anyone may do to the table: the stored reminders move along
    their trails, and none goes. *)
Definition onward (m m' : Reminders) : Prop :=
  (∀ id r, m !! id = Some r → ∃ r', m' !! id = Some r' ∧ trail_by id r r') ∧ ∀ id, m !! id = None → m' !! id = None.

#[export] Instance onward_preorder : PreOrder onward.
Proof.
  split; [intros m; split; [|done]; intros id r Hr; by exists r|].
  intros m1 m2 m3 [H1 N1] [H2 N2]. split; [|naive_solver]. intros id r (r' & Hr' & Ht')%H1.
  destruct (H2 id r' Hr') as (r'' & Hr'' & Ht''). exists r''. split; [done|by trans r'].
Qed.

(** The stored version of a reminder is at or past [r]. *)
Definition past (id : string) (r : Reminder) (m : Reminders) : Prop := ∃ r', m !! id = Some r' ∧ trail_by id r r'.

Lemma past_onward id r m m' : onward m m' → past id r m → past id r m'.
Proof.
  intros [Hm _] (r' & Hr' & Ht). destruct (Hm id r' Hr') as (r'' & ? & ?). exists r''. split; [done|by trans r'].
Qed.

Lemma same_reminder_eq a b : same_reminder a b ↔ a = b.
Proof.
  unfold same_reminder. destruct (reminder_round a) as (j & Hj & Hba), (reminder_round b) as (k & Hk & Hbb). rewrite Hj Hk.
  split; [|intros ->; by rewrite Hj in Hk; injection Hk as ->; apply bool_decide_spec].
  intros ->%bool_decide_unpack. congruence.
Qed.

Abbreviation rwp := (wp keyed onward).

(** A write lands on the very version that was read, or changes nothing and
    that version is gone for good or for now. *)
Lemma wp_update a read r Q m :
  acts a read r → P (rem_id read) a → rem_id read = rem_id r →
  (∀ m', onward m m' → m' !! rem_id r = Some r → Q (Ok true) m') →
  (∀ m' cur, onward m m' → m' !! rem_id read = Some cur → cur ≠ read → Q (Ok false) m') →
  (∀ m', onward m m' → m' !! rem_id read = None → Q (Err (RemErr (RemNotFound (rem_id read)))) m') →
  rwp (in_table (rs_update_if_unchanged read r)) Q m.
Proof.
  intros Ha HP Hid Hyes Hno Hgone. apply wp_step. intros m1 Hi Hg. unfold map_err_st, rs_update_if_unchanged.
  destruct (m1 !! rem_id read) as [cur|] eqn:Hc; simpl.
  2: { split_and!; [done|by apply reflexivity|by apply Hgone]. }
  destruct (same_reminder cur read) eqn:Hs; simpl.
  2: { split_and!; [done|by apply reflexivity|]. apply (Hno m1 cur); [done..|]. intros ->.
       assert (same_reminder read read) as H by by apply same_reminder_eq. by rewrite Hs in H. }
  apply Is_true_true_2, same_reminder_eq in Hs as ->.
  assert (onward m1 (<[rem_id r:=r]> m1)) as Hon.
  { split.
    - intros id x Hx. destruct (decide (rem_id r = id)) as [<-|Hne]; [|exists x; by rewrite lookup_insert_ne].
      rewrite Hid in Hc. assert (x = read) as -> by congruence. exists r. rewrite lookup_insert_eq. split; [done|].
      exists [a]. rewrite Hid in HP. split; [by apply trail_one|by constructor].
    - intros id Hn. rewrite lookup_insert_ne //. intros <-. congruence. }
  split_and!; [|done|].
  - intros id x. destruct (decide (rem_id r = id)) as [<-|Hne]; [rewrite lookup_insert_eq; by intros [= <-]|].
    rewrite lookup_insert_ne //. apply Hi.
  - apply Hyes; [by trans m1|by rewrite lookup_insert_eq].
Qed.

Lemma wp_get id Q m :
  (∀ m' r, onward m m' → keyed m' → m' !! id = Some r → Q (Ok r) m') →
  (∀ m', onward m m' → m' !! id = None → Q (Err (RemErr (RemNotFound id))) m') →
  rwp (get_reminder id) Q m.
Proof.
  intros Hsome Hnone. unfold get_reminder. apply wp_bind, wp_step. intros m1 Hi Hg. unfold rs_get, map_err_st, reading. simpl.
  split_and!; [done|by apply reflexivity|].
  destruct (m1 !! id) as [r|] eqn:Hr; simpl; [by apply Hsome|by apply Hnone].
Qed.

(** A trail of at least [n] acts. *)
Definition busy (n : nat) (id : string) (r : Reminder) (m : Reminders) : Prop :=
  ∃ r' l, m !! id = Some r' ∧ trail l r r' ∧ Forall (P id) l ∧ n ≤ length l.

(** What a lifecycle call with the change [change] comes to, on a reminder that
    was [r0]. *)
Definition outcome (id : string) (r0 : Reminder) (change : nat → (Reminder → result RemFault Reminder)) (res : result RemFault Reminder) (m : Reminders) : Prop :=
  match res with
  | Ok r => ∃ i read, trail_by id r0 read ∧ change i read = Ok r ∧ past id r m
  | Err e => (e = write_conflict id ∧ busy MAX_UPDATE_ATTEMPTS id r0 m) ∨
      ∃ i read, trail_by id r0 read ∧ change i read = Err e ∧ past id read m
  end.

Lemma trail_by_neq_act id r r' : trail_by id r r' → r' ≠ r → ∃ l, trail l r r' ∧ Forall (P id) l ∧ 1 ≤ length l.
Proof.
  intros (l & Hl & HP) Hne. exists l. split_and!; [done..|]. destruct l; [|simpl; lia].
  inversion Hl as [|l' ? ? ? ? _ _ Hnil]; subst; [done|]. by destruct l'.
Qed.

Lemma wp_modify a id change r0 m :
  (∀ i r r', change i r = Ok r' → acts a r r') → P id a → m !! id = Some r0 →
  rwp (modify id change) (outcome id r0 change) m.
Proof.
  intros Hch HP Hr0. unfold modify.
  apply (wp_attempts keyed onward (λ i m, busy i id r0 m)).
  - exists r0, []. split_and!; [done|constructor|done|simpl; lia].
  - intros m' Hb. left. by split.
  - intros i m' _ (r1 & l1 & Hr1 & Hl1 & HP1 & Hn). apply wp_bind, wp_get.
    + intros m2 read [Hm2 _] Hi2 Hread. destruct (Hm2 id r1 Hr1) as (read' & Heq & Ht). assert (read' = read) as -> by congruence.
      assert (trail_by id r0 read) as H0 by (trans r1; [by exists l1|done]).
      apply wp_bind. destruct (change i read) as [r|e] eqn:Hc.
      2: { simpl. right. exists i, read. split_and!; [done..|]. by exists read. }
      pose proof (Hch i read r Hc) as Ha. pose proof (se_id _ _ (acts_errand _ _ _ Ha)) as Hid.
      pose proof (Hi2 id read Hread) as Hrid.
      refine (_ : rwp (landed ← in_table (rs_update_if_unchanged read r); mret (if landed : bool then Some r else None))
        (λ x m', match x with Ok (Some r) => outcome id r0 change (Ok r) m' | Ok None => busy (S i) id r0 m'
           | Err e => outcome id r0 change (Err e) m' end) m2).
      apply wp_bind. eapply wp_update; [exact Ha|by rewrite Hrid|by symmetry|..].
      * intros m3 Hg3 Hr3. simpl. exists i, read. split_and!; [done..|]. exists r. split; [congruence|done].
      * intros m3 cur Hg3 Hr3 Hne. simpl. rewrite Hrid in Hr3.
        destruct Hg3 as [Hg3 _]. destruct (Hg3 id read Hread) as (cur' & Heq' & Ht'). assert (cur' = cur) as -> by congruence.
        destruct (trail_by_neq_act _ _ _ Ht' Hne) as (l3 & Hl3 & HP3 & Hlen). destruct Ht as (l2 & Hl2 & HP2).
        exists cur, ((l1 ++ l2) ++ l3). split_and!; [done| | |rewrite !length_app; lia].
        -- eapply trail_app; [by eapply trail_app|done].
        -- by rewrite !Forall_app.
      * intros m3 [Hg3 _] Hr3. rewrite Hrid in Hr3. destruct (Hg3 id read Hread) as (? & ? & _). congruence.
    + intros m2 [Hm2 _] Hn2. destruct (Hm2 id r1 Hr1) as (? & ? & _). congruence.
Qed.

(** A reminder nobody has stored is not found, whatever happens. *)
Lemma wp_modify_absent id change m : m !! id = None →
  rwp (modify id change) (λ res _, res = Err (RemErr (RemNotFound id))) m.
Proof.
  intros Hn. unfold modify. apply (wp_attempts keyed onward (λ i _, i = 0)); [done|intros ? [=]|].
  intros i m' [_ Hm'] ->. apply wp_bind, wp_get; [|done]. intros m2 r [_ Hm2] _ Hr. rewrite Hm2 in Hr; [done|by apply Hm'].
Qed.

Lemma wp_mark_ref_stale id ref r0 m :
  P id AStale → m !! id = Some r0 →
  rwp (mark_ref_stale id ref) (λ res m', match res with
    | Ok n => ∃ read, trail_by id r0 read ∧ n = length (List.filter (is_fresh ref) (rem_refs read)) ∧
        past id (set_rem_refs read (mark_stale ref <$> rem_refs read)) m'
    | Err e => e = write_conflict id ∧ busy MAX_UPDATE_ATTEMPTS id r0 m'
    end) m.
Proof.
  intros HP Hr0.
  assert (∀ l, length (List.filter (is_fresh ref) l) = 0 → mark_stale ref <$> l = l) as Hfresh.
  { induction l as [|x l IH]; [done|]. intros H. rewrite fmap_cons. unfold mark_stale at 1. cbn [List.filter] in H.
    destruct (is_fresh ref x); [done|]. by rewrite IH. }
  unfold mark_ref_stale. apply (wp_attempts keyed onward (λ i m, busy i id r0 m)).
  - exists r0, []. split_and!; [done|constructor|done|simpl; lia].
  - intros m' Hb. by split.
  - intros i m' _ (r1 & l1 & Hr1 & Hl1 & HP1 & Hn). apply wp_bind, wp_get.
    2: { intros m2 [Hm2 _] Hn2. destruct (Hm2 id r1 Hr1) as (? & ? & _). congruence. }
    intros m2 read [Hm2 _] Hi2 Hread. destruct (Hm2 id r1 Hr1) as (read' & Heq & Ht). assert (read' = read) as -> by congruence.
    assert (trail_by id r0 read) as H0 by (trans r1; [by exists l1|done]). pose proof (Hi2 id read Hread) as Hrid.
    case_decide as Hc.
    { simpl. exists read. split_and!; [done..|]. rewrite Hfresh //. exists read. by destruct read. }
    apply wp_bind. eapply wp_update; [apply (stale_acts ref)|by rewrite Hrid|done|..].
    + intros m3 Hg3 Hr3. simpl. exists read. split_and!; [done..|]. eexists. split; [|reflexivity]. simpl in Hr3. congruence.
    + intros m3 cur Hg3 Hr3 Hne. simpl. rewrite Hrid in Hr3.
      destruct Hg3 as [Hg3 _]. destruct (Hg3 id read Hread) as (cur' & Heq' & Ht'). assert (cur' = cur) as -> by congruence.
      destruct (trail_by_neq_act _ _ _ Ht' Hne) as (l3 & Hl3 & HP3 & Hlen). destruct Ht as (l2 & Hl2 & HP2).
      exists cur, ((l1 ++ l2) ++ l3). split_and!; [done| | |rewrite !length_app; lia].
      * eapply trail_app; [by eapply trail_app|done].
      * by rewrite !Forall_app.
    + intros m3 [Hg3 _] Hr3. rewrite Hrid in Hr3. destruct (Hg3 id read Hread) as (? & ? & _). congruence.
Qed.

(** *** Looking at what is due *)

Context (Hinter : ∀ m r, r ∈ inter m ↔ ∃ id, m !! id = Some r).

Lemma wp_list f Q m :
  (∀ m' l, onward m m' → keyed m' → Sorted sooner l → l = rs_list inter f m' →
    (∀ r, r ∈ l → filter_matches f r ∧ m' !! rem_id r = Some r) → Q (Ok l) m') →
  rwp (list_reminders inter f) Q m.
Proof.
  intros HQ. apply wp_step. intros m1 Hi Hg. unfold map_err_st, reading. simpl. split_and!; [done|by apply reflexivity|].
  apply HQ; [done|done| |done|].
  - apply Sorted_merge_sort. intros a b. unfold sooner.
    destruct (N.lt_total (as_u8 (rem_priority a)) (as_u8 (rem_priority b))) as [?|[?|?]]; [by left; left| |by right; left].
    destruct (Z.le_ge_cases (due_at a) (due_at b)); [left|right]; right; split; congruence.
  - intros r Hr. unfold rs_list in Hr. rewrite merge_sort_Permutation elem_of_List_filter Hinter in Hr.
    destruct Hr as [[id Hr] Hf]. split; [done|]. by rewrite (Hi id r Hr).
Qed.

Lemma wp_each {A} (f : A → R ()) l Q m :
  (∀ x m', x ∈ l → onward m m' → rwp (f x) (λ res _, res = Ok ()) m') →
  (∀ m', onward m m' → Q (Ok ()) m') →
  rwp (each f l) Q m.
Proof.
  intros Hf HQ. assert (∀ m', onward m m' → rwp (each f l) Q m') as H; [|by apply H, reflexivity].
  revert Hf. induction l as [|x l IH]; intros Hf m' Hm; cbn [each]; [by apply HQ|].
  apply wp_bind. eapply wp_mono; [apply _| |apply Hf; [by left|done]]. intros res m2 Hg ->. simpl.
  apply IH; [intros; apply Hf; [by right|done]|by trans m'].
Qed.

(** One write of [remind_me], on a reminder listed before. *)
Lemma wp_notice a (read r : Reminder) (b : bool) m m1 :
  acts a read r → P (rem_id read) a → m !! rem_id read = Some read → onward m m1 →
  rwp (if b then _ ← in_table (rs_update_if_unchanged read r); mret () else mret () : R ())
    (λ res _, res = Ok ()) m1.
Proof.
  intros Ha HP Hread Hm. destruct b; [|done]. apply wp_bind. destruct (acts_errand _ _ _ Ha) as [Hid _ _ _ _].
  eapply wp_update; [done|done|by symmetry|done|done|]. intros m2 Hg Hn.
  assert (onward m m2) as [Hm2 _] by by trans m1. destruct (Hm2 _ _ Hread) as (? & ? & _). congruence.
Qed.

Lemma wp_remind_me now m :
  (∀ id, P id APromote) → (∀ id, P id AWake) →
  rwp (remind_me inter now) (λ res m', ∃ l, res = Ok l ∧ Sorted sooner l ∧
    ∀ r, r ∈ l → (rem_status r = RDue ∨ rem_status r = RAwaitingPermission) ∧ past (rem_id r) r m') m.
Proof.
  intros HPp HPw.
  assert (∀ s r, filter_matches (filter_status s) r → rem_status r = s) as Hstatus.
  { intros s r. unfold filter_matches. simpl. rewrite !andb_True. intros [[[[[H _] _] _] _] _]. by apply bool_decide_unpack in H. }
  unfold remind_me. apply wp_bind, wp_list. intros m1 pend _ _ _ _ Hp. apply wp_bind, wp_each.
  { intros r m2 Hr Hm. destruct (Hp r Hr) as [Hf Hr1]. unfold promote. eapply wp_notice; [|apply HPp|exact Hr1|done].
    by apply promote_acts, Hstatus. }
  intros m2 _. apply wp_bind, wp_list. intros m3 snz _ _ _ _ Hs. apply wp_bind, wp_each.
  { intros r m4 Hr Hm. destruct (Hs r Hr) as [Hf Hr1]. unfold wake. eapply wp_notice; [|apply HPw|exact Hr1|done].
    by apply wake_acts, Hstatus. }
  intros m4 _. apply wp_bind, wp_list. intros m5 due _ _ _ _ Hd. apply wp_bind, wp_list. intros m6 aw Hg6 _ _ _ Ha. simpl.
  eexists. split; [done|]. split.
  { apply Sorted_merge_sort. intros a b. unfold sooner.
    destruct (N.lt_total (as_u8 (rem_priority a)) (as_u8 (rem_priority b))) as [?|[?|?]]; [by left; left| |by right; left].
    destruct (Z.le_ge_cases (due_at a) (due_at b)); [left|right]; right; split; congruence. }
  intros r. rewrite merge_sort_Permutation elem_of_app. intros [Hr|Hr].
  - destruct (Hd r Hr) as [Hf Hr5]. split; [left; by apply Hstatus|]. eapply past_onward; [exact Hg6|]. by exists r.
  - destruct (Ha r Hr) as [Hf Hr6]. split; [right; by apply Hstatus|]. by exists r.
Qed.

(** ** A pool of managers *)

Inductive Edit : Type :=
  | ESnooze (id : string) (until : Time)
  | ECancel (id : string)
  | EApprove (id who : string)
  | EStart (id agent : string) (clock : nat → Time)
  | ERecord (id : string) (x : ExecutionRecord) (clock : nat → Time).

Definition edit_id (e : Edit) : string :=
  match e with ESnooze id _ | ECancel id | EApprove id _ | EStart id _ _ | ERecord id _ _ => id end.
Definition edit_act (e : Edit) : Act :=
  match e with
  | ESnooze _ _ => ASnooze | ECancel _ => ACancel | EApprove _ _ => AApprove | EStart _ _ _ => AStart
  | ERecord _ _ _ => ARecord
  end.
Definition edit_change (e : Edit) (i : nat) : Reminder → result RemFault Reminder :=
  match e with
  | ESnooze id until => snooze_change id until
  | ECancel id => cancel_change id
  | EApprove id who => approve_change id who
  | EStart id agent clock => start_change id agent (clock i)
  | ERecord id x clock => record_change id x (clock i)
  end.
(** The calls of the manager. *)
Definition edit_prog (e : Edit) : R Reminder :=
  match e with
  | ESnooze id until => snooze id until
  | ECancel id => cancel id
  | EApprove id who => approve id who
  | EStart id agent clock => start id agent clock
  | ERecord id x clock => record_execution id x clock
  end.

Lemma edit_prog_modify e : edit_prog e = modify (edit_id e) (edit_change e).
Proof. by destruct e. Qed.

Lemma edit_acts e i r r' : edit_change e i r = Ok r' → acts (edit_act e) r r'.
Proof.
  destruct e; simpl;
    [apply snooze_acts|apply cancel_acts|apply approve_acts|apply start_acts|apply record_acts].
Qed.

Inductive Task : Type :=
  | TEdit (e : Edit)
  | TStale (id ref : string)
  | TRemind (now : Time).

(** The acts a call may perform, on which reminder. *)
Definition does (t : Task) (id : string) (a : Act) : Prop :=
  match t with
  | TEdit e => id = edit_id e ∧ a = edit_act e
  | TStale id' _ => id = id' ∧ a = AStale
  | TRemind _ => a = APromote ∨ a = AWake
  end.

Inductive Reply : Type :=
  | GotReminder (r : Reminder)
  | GotCount (n : nat)
  | GotList (l : list Reminder).

Definition task_prog (t : Task) : R Reply :=
  match t with
  | TEdit e => r ← edit_prog e; mret (GotReminder r)
  | TStale id ref => n ← mark_ref_stale id ref; mret (GotCount n)
  | TRemind now => l ← remind_me inter now; mret (GotList l)
  end.

(** What a call that has returned tells, from the table at the start. *)
Definition edit_outcome (e : Edit) (m0 : Reminders) (res : result RemFault Reminder) (m : Reminders) : Prop :=
  match m0 !! edit_id e with
  | Some r0 => outcome (edit_id e) r0 (edit_change e) res m
  | None => res = Err (RemErr (RemNotFound (edit_id e)))
  end.

Definition task_outcome (m0 : Reminders) (t : Task) (res : result RemFault Reply) (m : Reminders) : Prop :=
  match t with
  | TEdit e => ∃ x, res = (match x with Ok r => Ok (GotReminder r) | Err e => Err e end) ∧ edit_outcome e m0 x m
  | TStale id ref => match m0 !! id, res with
      | Some r0, Ok (GotCount n) => ∃ read, trail_by id r0 read ∧ n = length (List.filter (is_fresh ref) (rem_refs read)) ∧
          past id (set_rem_refs read (mark_stale ref <$> rem_refs read)) m
      | Some r0, Err e => e = write_conflict id ∧ busy MAX_UPDATE_ATTEMPTS id r0 m
      | None, Err e => e = RemErr (RemNotFound id)
      | _, _ => False
      end
  | TRemind now => ∃ l, res = Ok (GotList l) ∧ Sorted sooner l ∧
      ∀ r, r ∈ l → (rem_status r = RDue ∨ rem_status r = RAwaitingPermission) ∧ past (rem_id r) r m
  end.

Lemma busy_onward n id r m m' : onward m m' → busy n id r m → busy n id r m'.
Proof.
  intros [Hm _] (r' & l & Hr' & Hl & HP & Hn). destruct (Hm id r' Hr') as (r'' & Hr'' & l' & Hl' & HP').
  exists r'', (l ++ l'). split_and!; [done|by eapply trail_app|by apply Forall_app|rewrite length_app; lia].
Qed.

Lemma outcome_stable e m0 res : stable keyed onward (edit_outcome e m0 res).
Proof.
  intros m m' _ Hg. unfold edit_outcome, outcome. destruct (m0 !! edit_id e) as [r0|]; [|done].
  destruct res as [r|f].
  - intros (i & read & H1 & H2 & H3). exists i, read. split_and!; [done..|by eapply past_onward].
  - intros [[-> H]|(i & read & H1 & H2 & H3)]; [left|right].
    + split; [done|by eapply busy_onward].
    + exists i, read. split_and!; [done..|by eapply past_onward].
Qed.

Lemma task_outcome_stable t m0 res : stable keyed onward (task_outcome m0 t res).
Proof.
  intros m m' Hi Hg. destruct t as [e|id ref|now]; simpl.
  - intros (x & -> & H). exists x. split; [done|]. by eapply outcome_stable.
  - destruct (m0 !! id), res as [[]|]; try done.
    + intros (read & H1 & H2 & H3). exists read. split_and!; [done..|by eapply past_onward].
    + intros [-> H]. split; [done|by eapply busy_onward].
  - intros (l & -> & Hs & Hl). exists l. split_and!; [done..|]. intros r Hr. destruct (Hl r Hr). split; [done|by eapply past_onward].
Qed.

Lemma task_wp t m : (∀ id a, does t id a → P id a) → rwp (task_prog t) (task_outcome m t) m.
Proof.
  intros HP. destruct t as [e|id ref|now]; cbn [task_prog]; apply wp_bind.
  - rewrite edit_prog_modify. unfold task_outcome, edit_outcome.
    destruct (m !! edit_id e) as [r0|] eqn:Hr0.
    + eapply wp_mono; [apply _| |eapply (wp_modify (edit_act e)); [apply edit_acts|by apply HP|exact Hr0]].
      intros [r|f] m' _ H; [by exists (Ok r)|by exists (Err f)].
    + eapply wp_mono; [apply _| |by apply wp_modify_absent]. intros res m' _ ->. by exists (Err (RemErr (RemNotFound (edit_id e)))).
  - unfold task_outcome. destruct (m !! id) as [r0|] eqn:Hr0.
    + eapply wp_mono; [apply _| |eapply wp_mark_ref_stale; [by apply HP|done]]. by intros [n|f] m' _ H.
    + unfold mark_ref_stale. eapply wp_mono; [apply _| |].
      2: { apply (wp_attempts keyed onward (λ i _, i = 0) _ _ _ _ (λ res _, res = Err (RemErr (RemNotFound id))));
             [done|by intros ? [=]|].
           intros i m' [_ Hm'] ->. apply wp_bind, wp_get; [|done]. intros m2 r [_ Hm2] _ Hr. rewrite Hm2 in Hr; [done|by apply Hm']. }
      by intros res m' _ ->.
  - eapply wp_mono; [apply _| |apply (wp_remind_me now); intros id; apply HP; simpl; auto]. intros res m' _ (l & -> & H). by exists l.
Qed.

Lemma pool_tasks ts ps' m m' :
  (∀ t id a, t ∈ ts → does t id a → P id a) → keyed m → rtc pool_step (task_prog <$> ts, m) (ps', m') →
  keyed m' ∧ onward m m' ∧ ∀ i t res, ts !! i = Some t → ps' !! i = Some (Ret res) → task_outcome m t res m'.
Proof.
  intros HP Hm Hrun.
  destruct (pool_sound keyed onward (task_prog <$> ts) ps' (task_outcome m <$> ts) m m' Hrun) as (Hi & Hg & Hall).
  - split; [done|]. apply Forall2_fmap, Forall_Forall2_diag, Forall_forall. intros t Ht. split.
    + intros res. apply task_outcome_stable.
    + apply task_wp. intros id a. by apply HP.
  - split_and!; [done..|]. intros i t res Ht Hres. destruct (Hall i res Hres) as (Q & HQ & HQres).
    rewrite list_lookup_fmap Ht in HQ. by injection HQ as <-.
Qed.

(** *** When it happened

    What one step of anyone does: every reminder stays as it is or makes one
    act, and no reminder comes or goes. *)
Definition tick (m m' : Reminders) : Prop :=
  (∀ id r, m !! id = Some r → ∃ r', m' !! id = Some r' ∧ (r' = r ∨ ∃ a, P id a ∧ acts a r r')) ∧
  ∀ id, m !! id = None → m' !! id = None.

Lemma tick_refl m : tick m m.
Proof. split; [|done]. intros id r Hr. exists r. by split; [|left]. Qed.

Abbreviation rlogs := (logs keyed tick).

Lemma logs_update a read r Q h :
  acts a read r → P (rem_id read) a →
  (∀ m, keyed m → m !! rem_id read = Some read → Q (Ok true) (h ++ [(m, <[rem_id read := r]> m)])) →
  (∀ m, Q (Ok false) (h ++ [(m, m)])) →
  (∀ m, m !! rem_id read = None → Q (Err (RemErr (RemNotFound (rem_id read)))) (h ++ [(m, m)])) →
  rlogs (in_table (rs_update_if_unchanged read r)) Q h.
Proof.
  intros Ha HP Hyes Hno Hgone m Hk. unfold map_err_st, rs_update_if_unchanged.
  pose proof (ac_id _ _ _ Ha) as Hid. rewrite Hid.
  destruct (m !! rem_id read) as [cur|] eqn:Hc; simpl; [|split_and!; [done|apply tick_refl|by apply Hgone]].
  destruct (same_reminder cur read) eqn:Hs; simpl; [|split_and!; [done|apply tick_refl|apply Hno]].
  apply Is_true_true_2, same_reminder_eq in Hs as ->. split_and!; [| |by apply Hyes].
  - intros id x. destruct (decide (rem_id read = id)) as [<-|Hne]; [rewrite lookup_insert_eq; by intros [= <-]|].
    rewrite lookup_insert_ne //. apply Hk.
  - split.
    + intros id x Hx. destruct (decide (rem_id read = id)) as [<-|Hne].
      * assert (x = read) as -> by congruence. exists r. rewrite lookup_insert_eq. split; [done|]. right. by exists a.
      * exists x. rewrite lookup_insert_ne //. split; [done|by left].
    + intros id Hn. rewrite lookup_insert_ne //. congruence.
Qed.

Lemma logs_read {A} (f : Reminders → result ReminderError A) Q h :
  (∀ m, keyed m → Q (match f m with Ok a => Ok a | Err e => Err (RemErr e) end) (h ++ [(m, m)])) →
  rlogs (in_table (reading f)) Q h.
Proof.
  intros HQ m Hk. unfold map_err_st, reading. simpl. split_and!; [done|apply tick_refl|].
  specialize (HQ m Hk). by destruct (f m).
Qed.

Lemma logs_get id Q h :
  (∀ m r, keyed m → m !! id = Some r → Q (Ok r) (h ++ [(m, m)])) →
  (∀ m, m !! id = None → Q (Err (RemErr (RemNotFound id))) (h ++ [(m, m)])) →
  rlogs (get_reminder id) Q h.
Proof.
  intros Hsome Hnone. unfold get_reminder, rs_get. apply logs_bind, logs_read. intros m Hk.
  destruct (m !! id) as [r|] eqn:Hr; [by apply Hsome|by apply Hnone].
Qed.

(** What a change that landed, or was refused, did and saw, in one of the steps
    [M] from a table to a table. *)
Definition changed (M : Reminders → Reminders → Prop) (id : string)
    (change : nat → Reminder → result RemFault Reminder) (res : result RemFault Reminder) : Prop :=
  match res with
  | Ok r => ∃ m i read, M m (<[id := r]> m) ∧ m !! id = Some read ∧ change i read = Ok r
  | Err f => f = write_conflict id ∨ ∃ m, M m m ∧
      (m !! id = None ∧ f = RemErr (RemNotFound id) ∨ ∃ i read, m !! id = Some read ∧ change i read = Err f)
  end.

Lemma logs_modify a id change h :
  (∀ i r r', change i r = Ok r' → acts a r r') → P id a →
  rlogs (modify id change) (λ res h, changed (λ m m', (m, m') ∈ h) id change res) h.
Proof.
  intros Hch HP. apply logs_attempts; [by left|]. intros i h1. apply logs_bind, logs_get.
  2: { intros m Hm. right. exists m. split; [set_solver|by left]. }
  intros m read Hk Hread. pose proof (Hk id read Hread) as Hid. apply logs_bind.
  destruct (change i read) as [r|e] eqn:Hc.
  2: { right. exists m. split; [set_solver|]. right. by exists i, read. }
  cbn [of_result logs]. apply logs_bind. eapply logs_update; [by eapply Hch|by rewrite Hid|..].
  - intros m2 _ Hm2. rewrite Hid in Hm2 |- *. exists m2, i, read. split_and!; [set_solver|done|done].
  - by intros m2.
  - intros m2 Hm2. rewrite Hid in Hm2 |- *. right. exists m2. split; [set_solver|by left].
Qed.

(** What an answer tells of a step, or of the table before some step. *)
Definition told (M : Reminders → Reminders → Prop) (t : Task) (res : result RemFault Reply) : Prop :=
  match t with
  | TEdit e => ∃ x, res = (match x with Ok r => Ok (GotReminder r) | Err f => Err f end) ∧
      changed M (edit_id e) (edit_change e) x
  | TStale id ref =>
      match res with
      | Ok (GotCount n) => ∃ m read, m !! id = Some read ∧ n = length (List.filter (is_fresh ref) (rem_refs read)) ∧
          M m (if decide (n = 0) then m else <[id := set_rem_refs read (mark_stale ref <$> rem_refs read)]> m)
      | Ok _ => False
      | Err f => f = write_conflict id ∨ ∃ m, M m m ∧ m !! id = None ∧ f = RemErr (RemNotFound id)
      end
  | TRemind now => ∀ l, res = Ok (GotList l) → ∀ r, r ∈ l → ∃ m, M m m ∧ m !! rem_id r = Some r
  end.

Lemma told_mono (M M' : Reminders → Reminders → Prop) t res :
  (∀ m m', M m m' → M' m m') → told M t res → told M' t res.
Proof.
  intros HM. destruct t as [e|id ref|now]; simpl.
  - intros (x & -> & H). exists x. split; [done|]. destruct x; simpl in *; naive_solver.
  - destruct res as [[]|]; naive_solver.
  - intros H l Hl r Hr. destruct (H l Hl r Hr) as (m & ? & ?). exists m. auto.
Qed.

Lemma logs_list f Q h :
  (∀ m, keyed m → (∀ r, r ∈ rs_list inter f m → filter_matches f r ∧ m !! rem_id r = Some r) →
    Q (Ok (rs_list inter f m)) (h ++ [(m, m)])) →
  rlogs (list_reminders inter f) Q h.
Proof.
  intros HQ. apply logs_read. intros m Hk. apply HQ; [done|]. intros r Hr.
  unfold rs_list in Hr. rewrite merge_sort_Permutation elem_of_List_filter Hinter in Hr.
  destruct Hr as [[id Hr] Hf]. split; [done|]. by rewrite (Hk id r Hr).
Qed.

Lemma logs_notice a (read r : Reminder) (b : bool) h :
  acts a read r → P (rem_id read) a →
  rlogs (if b then _ ← in_table (rs_update_if_unchanged read r); mret () else mret () : R ()) (λ _ _, True) h.
Proof.
  intros Ha HP. destruct b; [|done]. apply logs_bind. by eapply logs_update.
Qed.

Lemma filter_status_ok s r : filter_matches (filter_status s) r → rem_status r = s.
Proof. unfold filter_matches. simpl. rewrite !andb_True. intros [[[[[H _] _] _] _] _]. by apply bool_decide_unpack in H. Qed.

Lemma logs_remind_me now h :
  (∀ id, P id APromote) → (∀ id, P id AWake) →
  rlogs (remind_me inter now)
    (λ res h, ∀ l, res = Ok l → ∀ r, r ∈ l → ∃ m, (m, m) ∈ h ∧ m !! rem_id r = Some r) h.
Proof.
  intros HPp HPw. unfold remind_me. apply logs_bind, logs_list. intros m1 _ Hp. apply logs_bind.
  eapply (logs_mono _ _ _ (λ _ _, True)); [|apply logs_each; [done|]; intros r h1 Hr; apply (logs_notice APromote);
    [by apply promote_acts, filter_status_ok, Hp|apply HPp]].
  intros [[]|e] h1 _; [|done]. apply logs_bind, logs_list. intros m2 _ Hs. apply logs_bind.
  eapply (logs_mono _ _ _ (λ _ _, True)); [|apply logs_each; [done|]; intros r h2 Hr; apply (logs_notice AWake);
    [by apply wake_acts, filter_status_ok, Hs|apply HPw]].
  intros [[]|e] h2 _; [|done]. apply logs_bind, logs_list. intros m3 _ Hd. apply logs_bind, logs_list.
  intros m4 _ Ha l [= <-] r. rewrite merge_sort_Permutation elem_of_app. intros [Hr|Hr].
  - exists m3. split; [set_solver|by apply Hd].
  - exists m4. split; [set_solver|by apply Ha].
Qed.

Lemma task_logs t h :
  (∀ id a, does t id a → P id a) → rlogs (task_prog t) (λ res h, told (λ m m', (m, m') ∈ h) t res) h.
Proof.
  intros HP. destruct t as [e|id ref|now]; cbn [task_prog]; apply logs_bind.
  - rewrite edit_prog_modify. eapply logs_mono; [|apply (logs_modify (edit_act e)); [apply edit_acts|by apply HP]].
    intros [r|f] h' H; [by exists (Ok r)|by exists (Err f)].
  - unfold mark_ref_stale. apply logs_attempts; [by left|]. intros i h1. apply logs_bind, logs_get.
    2: { intros m Hm. right. exists m. split; [set_solver|done]. }
    intros m read Hk Hread. pose proof (Hk id read Hread) as Hid. case_decide as Hc.
    { exists m, read. split_and!; [done|done|]. rewrite decide_True //. set_solver. }
    apply logs_bind. eapply logs_update; [apply (stale_acts ref)|by rewrite Hid; apply HP|..].
    + intros m2 _ Hm2. rewrite Hid in Hm2 |- *. exists m2, read. split_and!; [done|done|]. rewrite decide_False //. set_solver.
    + by intros m2.
    + intros m2 Hm2. rewrite Hid in Hm2 |- *. right. exists m2. split; [set_solver|done].
  - eapply logs_mono; [|apply (logs_remind_me now); intros id; apply HP; simpl; auto].
    intros [l|f] h' H; [|by intros l]. intros l' [= <-]. by apply H.
Qed.

(** What happens in a pool of such calls, step by step. *)
Lemma pool_moments ts m z :
  (∀ t id a, t ∈ ts → does t id a → P id a) → keyed m → rtc pool_step (task_prog <$> ts, m) z →
  (∀ x y, rtc pool_step (task_prog <$> ts, m) x → pool_step x y → tick x.2 y.2) ∧
  ∀ i t res, ts !! i = Some t → z.1 !! i = Some (Ret res) → told (moment i (task_prog <$> ts, m) z) t res.
Proof.
  intros HP Hk Hrun.
  assert (Forall2 (λ p Q, rlogs p Q []) (task_prog <$> ts) ((λ t res h, told (λ m m', (m, m') ∈ h) t res) <$> ts)) as Hall.
  { apply Forall2_fmap, Forall_Forall2_diag, Forall_forall. intros t Ht. apply task_logs. intros id a. by apply HP. }
  split.
  - intros x y Hx Hxy. by eapply pool_logs_step.
  - intros i t res Ht Hres. destruct (pool_logs _ _ _ _ _ _ Hk Hall Hrun) as [_ H].
    destruct (H i _ Hres) as (Q & h & HQ & Hq & Hh). rewrite list_lookup_fmap Ht in HQ. injection HQ as <-.
    eapply told_mono; [exact Hh|exact Hq].
Qed.
End machine.

(** ** Schedules *)

(** The calendar, as [chrono] documents it: days are ordered, their weekdays
    cycle, a time of day lies within its day. *)
Class ChronoLaws `{Chrono} := {
  day_time : NaiveTime → Prop;
  next_day_law d d' : next_day d = Some d' → d' = (d + 1)%Z;
  day_order d d' x t : (d < d')%Z → day_time x → date_naive t = d → (t < and_time d' x)%Z;
  weekday_cycle d : weekday_of (d + 1) = ((weekday_of d + 1) mod 7)%N;
  weekday_lt d : (weekday_of d < 7)%N;
  add_seconds_later t s t' : (0 < s)%Z → add_seconds t s = Some t' → (t < t')%Z;
}.

Section schedules.
Context `{CR : Chrono, CL : !ChronoLaws}.

Lemma find_weekday_ok n day d res :
  find_weekday n day d = Ok res →
  match res with
  | Some d' => weekday_of d' = day ∧ (d ≤ d' < d + Z.of_nat n)%Z ∧ ∀ e, (d ≤ e < d')%Z → weekday_of e ≠ day
  | None => ∀ e, (d ≤ e < d + Z.of_nat n)%Z → weekday_of e ≠ day
  end.
Proof.
  revert d. induction n as [|n IH]; intros d; cbn [find_weekday]; [intros [= <-] e He; lia|].
  destruct (N.eqb_spec (weekday_of d) day) as [Hd|Hd].
  { intros [= <-]. split_and!; [done|lia|lia|]. intros e He. lia. }
  unfold ok_or. destruct (next_day d) as [d'|] eqn:Hn; [|done]. apply next_day_law in Hn as ->. simpl. intros H%IH.
  destruct res as [d'|].
  - destruct H as (Hw & Hr & Hall). split_and!; [done|lia|lia|]. intros e He.
    destruct (decide (e = d)) as [->|]; [done|]. apply Hall. lia.
  - intros e He. destruct (decide (e = d)) as [->|]; [done|]. apply H. lia.
Qed.

Lemma weekday_of_shift d n : weekday_of (d + Z.of_nat n) = ((weekday_of d + N.of_nat n) mod 7)%N.
Proof.
  induction n as [|n IH].
  - rewrite Z.add_0_r N.add_0_r N.mod_small //. apply weekday_lt.
  - replace (d + Z.of_nat (S n))%Z with (d + Z.of_nat n + 1)%Z by lia. rewrite weekday_cycle IH N.Div0.add_mod_idemp_l.
    f_equal. lia.
Qed.

(** Seven days in a row have every weekday. *)
Lemma every_weekday d day : (day < 7)%N → ∃ e, (d ≤ e < d + 7)%Z ∧ weekday_of e = day.
Proof.
  intros Hd. pose proof (weekday_lt d) as Hw. set (n := N.to_nat ((day + 7 - weekday_of d) mod 7)%N).
  exists (d + Z.of_nat n)%Z. assert ((day + 7 - weekday_of d) mod 7 < 7)%N as Hn by by apply N.mod_lt.
  split; [lia|]. rewrite weekday_of_shift /n N2Nat.id N.Div0.add_mod_idemp_r.
  replace (weekday_of d + (day + 7 - weekday_of d))%N with (day + 1 * 7)%N by lia. rewrite N.Div0.mod_add. by apply N.mod_small.
Qed.

(** What a schedule asks of the next time. *)
Definition keeps_schedule (s : Schedule) (after t : Time) : Prop :=
  match s with
  | Once => False
  | Interval n => add_seconds after (as_i64 n) = Some t
  | Daily x => (t = and_time (date_naive after) x ∨ t = and_time (date_naive after + 1) x) ∧ (after < t)%Z
  | Weekly day x => ∃ d, t = and_time d x ∧ weekday_of d = day ∧ (date_naive after < d ≤ date_naive after + 7)%Z ∧ (after < t)%Z
  end.

Lemma next_due_ok s after res :
  next_due s after = Ok res →
  (match s with Once => True | Interval _ => True | Daily x => day_time x | Weekly day x => (day < 7)%N ∧ day_time x end) →
  match res with
  | Some t => keeps_schedule s after t
  | None => s = Once
  end.
Proof.
  destruct s as [|n|x|day x]; cbn [next_due keeps_schedule].
  - by intros [= <-].
  - unfold ok_or. destruct (add_seconds after (as_i64 n)) as [t|]; [|done]. by intros [= <-].
  - intros H Hx. destruct (Z.ltb_spec after (and_time (date_naive after) x)) as [Hlt|Hle].
    + injection H as <-. by split; [left|].
    + unfold ok_or in H. destruct (next_day _) as [d|] eqn:Hd; [|done]. apply next_day_law in Hd as ->. injection H as <-.
      split; [by right|]. apply (day_order (date_naive after)); [lia|done|done].
  - intros H [Hday Hx]. unfold ok_or in H. destruct (next_day (date_naive after)) as [d|] eqn:Hd; [|done].
    apply next_day_law in Hd as ->. cbn [mbind result_bind] in H.
    destruct (find_weekday 7 day (date_naive after + 1)) as [[d|]|] eqn:Hf; cbn [mbind result_bind] in H; try discriminate H; injection H as <-;
      apply find_weekday_ok in Hf.
    + destruct Hf as (Hw & Hr & _). exists d. split_and!; [done|done|lia|lia|]. apply (day_order (date_naive after)); [lia|done|done].
    + destruct (every_weekday (date_naive after + 1) day Hday) as (e & He & Hw). by destruct (Hf e).
Qed.
End schedules.

(** ** Properties *)

(** What is asked of the acts of a pool: some call of it makes them. *)
Definition done_by (ts : list Task) (id : string) (a : Act) : Prop := ∃ t, t ∈ ts ∧ does t id a.

(** C10: No acknowledged change of a reminder is lost, whoever else is at work.
    Under any interleaving of lifecycle calls and looks at what is due, each
    step changes no reminder but by an act some call makes on it, and as the
    table of statuses allows: its guards on the status, what becomes of the log
    of executions and which fields stay. A call that returned [Ok] wrote, in one
    step of its own, exactly its change of the version that was stored at that
    moment, and what is stored now came from its result by such acts; one that
    failed saw at some moment a stored version that refuses the change, or no
    reminder; and a write conflict means the reminder was changed at least 32
    times meanwhile. *)
Theorem reminder_changes_land `{RJ : ReminderJson, RL : !ReminderJsonLaws, CR : Chrono} inter ts ps' m m' :
  (∀ m r, r ∈ inter m ↔ ∃ id, m !! id = Some r) → keyed m →
  let start := (task_prog inter <$> ts, m) in
  rtc pool_step start (ps', m') →
  keyed m' ∧ onward (done_by ts) m m' ∧
  (∀ x y, rtc pool_step start x → pool_step x y → tick (done_by ts) x.2 y.2) ∧
  ∀ i t res, ts !! i = Some t → ps' !! i = Some (Ret res) →
    told (moment i start (ps', m')) t res ∧ task_outcome (done_by ts) m t res m'.
Proof.
  intros Hi Hm start Hrun. assert (∀ t id a, t ∈ ts → does t id a → done_by ts id a) as HP by by intros t; exists t.
  destruct (pool_tasks inter (done_by ts) Hi ts ps' m m' HP Hm Hrun) as (Hk & Hg & Hout).
  destruct (pool_moments inter (done_by ts) Hi ts m _ HP Hm Hrun) as [Ht Htold].
  split_and!; [done|done|done|]. intros i t res Hit Hres. split; [by eapply Htold|by eapply Hout].
Qed.

(** C28: What is finished stays finished, under any interleaving: a completed or
    cancelled reminder keeps its status and its record of executions; and every
    reminder keeps its errand, whether it needs approval, and each finished
    execution in its place. *)
Theorem finished_stays `{RJ : ReminderJson, RL : !ReminderJsonLaws, CR : Chrono} inter ts ps' m m' id r :
  (∀ m r, r ∈ inter m ↔ ∃ id, m !! id = Some r) → keyed m →
  rtc pool_step (task_prog inter <$> ts, m) (ps', m') → m !! id = Some r →
  ∃ r', m' !! id = Some r' ∧ same_errand r r' ∧
    (is_terminal (rem_status r) → rem_status r' = rem_status r ∧ executions r' = executions r).
Proof.
  intros Hi Hm Hrun Hr.
  destruct (pool_tasks inter (λ _ _, True) Hi ts ps' m m') as (_ & [Hg _] & _); [done..|].
  destruct (Hg id r Hr) as (r' & Hr' & l & Hl & _). exists r'. split_and!; [done|by eapply trail_errand|].
  intros Ht. by eapply trail_terminal.
Qed.

(** C27: The approval gate: a reminder that needs an approval and is neither due
    nor running, and that no call approves, whatever the calls do to others, is
    neither due nor running afterwards, and every attempt to start it has
    failed, under any interleaving. *)
Theorem approval_gate `{RJ : ReminderJson, RL : !ReminderJsonLaws, CR : Chrono} inter ts ps' m m' id r :
  (∀ m r, r ∈ inter m ↔ ∃ id, m !! id = Some r) → keyed m →
  rtc pool_step (task_prog inter <$> ts, m) (ps', m') →
  (∀ who, TEdit (EApprove id who) ∉ ts) → m !! id = Some r → held r →
  (∃ r', m' !! id = Some r' ∧ held r') ∧
  ∀ i agent clock res, ts !! i = Some (TEdit (EStart id agent clock)) → ps' !! i = Some (Ret res) → ∃ e, res = Err e.
Proof.
  intros Hi Hm Hrun Hno Hr Hh.
  assert (∀ l r', trail l r r' → Forall (done_by ts id) l → held r') as Htrail.
  { intros l r' Hl HP. eapply trail_held; [exact Hl| |done]. rewrite Forall_forall in HP.
    intros (t & Ht & Hd)%HP. destruct t as [[]| |]; simpl in Hd; naive_solver. }
  destruct (pool_tasks inter (done_by ts) Hi ts ps' m m') as (_ & [Hg _] & Hout); [by intros t; exists t|done|done|]. split.
  - destruct (Hg id r Hr) as (r' & Hr' & l & Hl & HP). exists r'. split; [done|by eapply Htrail].
  - intros i agent clock res Ht Hres. destruct (Hout i _ res Ht Hres) as (x & -> & Ho).
    destruct x as [r1|e]; [|by exists e]. unfold edit_outcome in Ho. cbn [edit_id] in Ho. rewrite Hr in Ho.
    destruct Ho as (j & read & (l & Hl & HP) & Hc & _). destruct (Htrail l read Hl HP) as (Ha & Hd & Hp).
    cbn [edit_change] in Hc. unfold start_change in Hc. rewrite Ha in Hc. by destruct (rem_status read).
Qed.

(** The next time of a schedule is the one it asks for: a day's time of day,
    the first that is still to come; the day of the week, within the next seven
    days; the seconds given, from now. [None] is for a reminder that fires once:
    the end of the loop over a week is never reached. *)
Theorem next_due_spec `{CR : Chrono, CL : !ChronoLaws} s after res :
  next_due s after = Ok res →
  (match s with Once | Interval _ => True | Daily x => day_time x | Weekly day x => (day < 7)%N ∧ day_time x end) →
  match res with
  | Some t => keeps_schedule s after t
  | None => s = Once
  end.
Proof. apply next_due_ok. Qed.

(** ** The approver is not recorded

    [approve] stamps the approver on an execution that is open; in the order the
    statuses ask for, approval, start, execution, none is open yet, and [start]
    opens one with nobody's approval. *)
Lemma approver_not_recorded `{CR : Chrono} id who agent x now t r r1 r2 r3 :
  rem_status r = RAwaitingPermission → executions r = [] → approved_by x = None →
  approve_change id who r = Ok r1 → start_change id agent now r1 = Ok r2 → record_change id x t r2 = Ok r3 →
  approved_by <$> executions r3 = [None].
Proof.
  intros Hs He Hx H1 H2 H3. unfold approve_change in H1. rewrite Hs in H1. injection H1 as <-.
  unfold start_change in H2. simpl in H2. injection H2 as <-.
  assert (executions r3 = add_execution (complete_at t x) (executions r ++ [partial_record agent now])) as ->.
  { unfold record_change in H3. simpl in H3. rewrite He in H3 |- *.
    destruct (exec_result x); simpl in H3; [destruct (match schedule r with Some s => next_due s t | None => Ok None end) as [[]|]|..];
      by simplify_eq/=. }
  rewrite He /=. by rewrite Hx.
Qed.

(** *** Witnesses *)

Module Almanac.
#[export] Instance Priority_eq_dec : EqDecision Priority.
Proof. solve_decision. Defined.
#[export] Instance Priority_countable : Countable Priority.
Proof.
  refine (inj_countable' as_u8 (λ n, match n with 1 => PCritical | 2 => PHigh | 3 => PMedium | 4 => PLow | _ => PMinimal end%N) _).
  by intros [].
Defined.
#[export] Instance ReminderStatus_countable : Countable ReminderStatus.
Proof.
  refine (inj_countable' (λ s, match s with RPending => 0 | RDue => 1 | RAwaitingPermission => 2 | RInProgress => 3
    | RCompleted => 4 | RSnoozed => 5 | RCancelled => 6 end%N)
    (λ n, match n with 0 => RPending | 1 => RDue | 2 => RAwaitingPermission | 3 => RInProgress | 4 => RCompleted
      | 5 => RSnoozed | _ => RCancelled end%N) _).
  by intros [].
Defined.
#[export] Instance ExecutionResult_eq_dec : EqDecision ExecutionResult.
Proof. solve_decision. Defined.
#[export] Instance ExecutionResult_countable : Countable ExecutionResult.
Proof.
  refine (inj_countable' (λ s, match s with XSuccess => 0 | XFailed => 1 | XDeferred => 2 | XSnoozed => 3 | XCancelled => 4 end%N)
    (λ n, match n with 0 => XSuccess | 1 => XFailed | 2 => XDeferred | 3 => XSnoozed | _ => XCancelled end%N) _).
  by intros [].
Defined.
#[export] Instance Time_countable : Countable Time := Z_countable.
#[export] Instance Schedule_eq_dec : EqDecision Schedule.
Proof. solve_decision. Defined.
#[export] Instance Schedule_countable : Countable Schedule.
Proof.
  refine (inj_countable' (λ s, match s with Once => inl (inl ()) | Interval n => inl (inr n) | Daily x => inr (inl x)
    | Weekly d x => inr (inr (d, x)) end)
    (λ e, match e with inl (inl _) => Once | inl (inr n) => Interval n | inr (inl x) => Daily x | inr (inr (d, x)) => Weekly d x end) _).
  by intros [].
Defined.
#[export] Instance RefKind_eq_dec : EqDecision RefKind.
Proof. solve_decision. Defined.
#[export] Instance RefKind_countable : Countable RefKind.
Proof.
  refine (inj_countable' (λ k, match k with KBranch => inl 0 | KMemory => inl 1 | KPlan => inl 2 | KTask => inl 3 | KStatePath => inl 4
    | KExternal s => inr s end%N)
    (λ e, match e with inl 0 => KBranch | inl 1 => KMemory | inl 2 => KPlan | inl 3 => KTask | inl _ => KStatePath
      | inr s => KExternal s end%N) _).
  by intros [].
Defined.
#[export] Instance ReminderRef_eq_dec : EqDecision ReminderRef.
Proof. solve_decision. Defined.
#[export] Instance ReminderRef_countable : Countable ReminderRef.
Proof.
  refine (inj_countable' (λ r, (ref_kind r, ref_id r, ref_label r, stale r))
    (λ '(k, i, l, s), {| ref_kind := k; ref_id := i; ref_label := l; stale := s |}) _).
  by intros [].
Defined.
#[export] Instance ExecutionRecord_eq_dec : EqDecision ExecutionRecord.
Proof. solve_decision. Defined.
#[export] Instance ExecutionRecord_countable : Countable ExecutionRecord.
Proof.
  refine (inj_countable' (λ x, (started_at x, completed_at x, exec_agent x, approved_by x, exec_result x, exec_notes x, exec_task x))
    (λ '(a, b, c, d, e, f, g), {| started_at := a; completed_at := b; exec_agent := c; approved_by := d; exec_result := e;
      exec_notes := f; exec_task := g |}) _).
  by intros [].
Defined.
#[export] Instance Reminder_eq_dec : EqDecision Reminder.
Proof. solve_decision. Defined.
#[export] Instance Reminder_countable : Countable Reminder.
Proof.
  refine (inj_countable' (λ r, (rem_id r, rem_title r, rem_instructions r, rem_commands r, rem_refs r, rem_priority r, due_at r,
      (schedule r, autonomous r, rem_created_by r, rem_created_at r, rem_status r, snoozed_until r, executions r, rem_tags r)))
    (λ '(a, b, c, d, e, f, g, (h, i, j, k, l, m, n, o)), {| rem_id := a; rem_title := b; rem_instructions := c; rem_commands := d;
      rem_refs := e; rem_priority := f; due_at := g; schedule := h; autonomous := i; rem_created_by := j; rem_created_at := k;
      rem_status := l; snoozed_until := m; executions := n; rem_tags := o |}) _).
  by intros [].
Defined.

(** A reminder as a number. *)
#[export] Instance number_json : ReminderJson := {|
  reminder_to_json r := Ok (JNumber (PosInt (Npos (encode r))));
  reminder_from_json j := match j with
    | JNumber (PosInt (Npos p)) => match decode p with Some r => Ok r | None => Err "not a reminder" end
    | _ => Err "not a reminder"
    end |}.
#[export] Instance number_json_laws : ReminderJsonLaws.
Proof. split. intros r. eexists. split; [done|]. simpl. by rewrite decode_encode. Qed.

(** Days of 86400 ticks, from a Thursday. *)
#[export] Instance almanac : Chrono := {|
  add_seconds t s := Some (t + s)%Z;
  date_naive t := (t / 86400)%Z;
  next_day d := Some (d + 1)%Z;
  and_time d x := (d * 86400 + x)%Z;
  weekday_of d := Z.to_N ((d + 3) mod 7) |}.
#[export] Instance almanac_laws : ChronoLaws.
Proof.
  refine {| day_time x := (0 <= x < 86400)%Z |}; simpl.
  - by intros d d' [= <-].
  - intros d d' x t Hd [Hx _] <-. assert (t < 86400 * (t / 86400 + 1))%Z by (pose proof (Z.mod_pos_bound t 86400 ltac:(lia));
      pose proof (Z.div_mod t 86400 ltac:(lia)); lia). nia.
  - intros d. replace (d + 1 + 3)%Z with (d + 3 + 1)%Z by lia. rewrite -(Z.add_mod_idemp_l (d + 3)) //.
    pose proof (Z.mod_pos_bound (d + 3) 7 ltac:(lia)). rewrite Z2N.inj_mod; [|lia|lia]. f_equal. lia.
  - intros d. pose proof (Z.mod_pos_bound (d + 3) 7 ltac:(lia)). lia.
  - intros t s t' Hs [= <-]. lia.
Defined.

Definition values (m : Reminders) : list Reminder := (map_to_list m).*2.
Lemma values_ok m r : r ∈ values m ↔ ∃ id, m !! id = Some r.
Proof.
  unfold values. rewrite list_elem_of_fmap. split.
  - intros ([id x] & -> & Hx). exists id. by apply elem_of_map_to_list.
  - intros [id Hr]. exists (id, r). split; [done|]. by apply elem_of_map_to_list.
Qed.

Definition deploy : Reminder := into_reminder "r1" 0%Z {| new_title := "deploy"; new_instructions := ""; new_commands := [];
  new_refs := []; new_priority := PHigh; new_due_at := 5%Z; new_schedule := None; new_autonomous := false;
  new_created_by := "ann"; new_tags := [] |}.
Definition board : Reminders := {[ "r1" := deploy ]}.

Lemma board_keyed : keyed board.
Proof. intros id r Hr. change (({[ "r1" := deploy ]} : Reminders) !! id = Some r) in Hr. by apply lookup_singleton_Some in Hr as [<- <-]. Qed.
End Almanac.

Section witnesses.
Import Almanac.

(** Two managers at once: one looks at what is due, one snoozes. *)
Definition two_calls : list Task := [TRemind 10%Z; TEdit (ESnooze "r1" 20%Z)].
Definition one_schedule : list nat := [0; 1; 0; 1; 0; 0; 0; 0; 1; 1].
Definition after_two : list (Prog Reminders RemFault Reply) * Reminders :=
  play one_schedule (task_prog values <$> two_calls, board).

Lemma after_two_run : rtc pool_step (task_prog values <$> two_calls, board) (after_two.1, after_two.2).
Proof. rewrite -surjective_pairing. apply play_steps. Qed.

Definition snoozed_deploy : Reminder := set_snoozed (set_rem_status deploy RSnoozed) (Some 20%Z).

Lemma reminder_changes_land_witness :
  answer after_two 1 = Some (Ok (GotReminder snoozed_deploy)) ∧
  past (done_by two_calls) "r1" snoozed_deploy after_two.2 ∧
  ∃ m i read, moment 1 (task_prog values <$> two_calls, board) (after_two.1, after_two.2) m (<["r1" := snoozed_deploy]> m) ∧
    m !! "r1" = Some read ∧ edit_change (ESnooze "r1" 20%Z) i read = Ok snoozed_deploy.
Proof.
  assert (answer after_two 1 = Some (Ok (GotReminder snoozed_deploy))) as Ha by by vm_compute.
  split; [exact Ha|]. apply answer_ret in Ha.
  destruct (reminder_changes_land values two_calls after_two.1 board after_two.2 values_ok board_keyed) as (_ & _ & _ & H).
  { apply after_two_run. }
  destruct (H 1 _ _ eq_refl Ha) as [Ht Ho]. split.
  - destruct Ho as ([r|e] & Heq & Ho); [|done]. injection Heq as <-.
    unfold edit_outcome in Ho. change (board !! edit_id (ESnooze "r1" 20%Z)) with (Some deploy) in Ho.
    destruct Ho as (i & read & _ & _ & Hp). exact Hp.
  - destruct Ht as ([r|e] & Heq & Ht); [|done]. injection Heq as <-. exact Ht.
Defined.

(** The reminder cancelled, then snoozed. *)
Definition cancelled_board : Reminders := {[ "r1" := set_rem_status deploy RCancelled ]}.
Definition after_cancel : list (Prog Reminders RemFault Reply) * Reminders :=
  play (replicate 6 1) (task_prog values <$> two_calls, cancelled_board).

Lemma finished_stays_witness :
  answer after_cancel 1 = Some (Err (RemErr (AlreadyTerminal "r1" RCancelled))) ∧
  ∃ r', after_cancel.2 !! "r1" = Some r' ∧ rem_status r' = RCancelled.
Proof.
  split; [by vm_compute|].
  assert (keyed cancelled_board) as Hk.
  { intros id r Hr. change (({[ "r1" := set_rem_status deploy RCancelled ]} : Reminders) !! id = Some r) in Hr.
    by apply lookup_singleton_Some in Hr as [<- <-]. }
  assert (cancelled_board !! "r1" = Some (set_rem_status deploy RCancelled)) as Hr by by vm_compute.
  destruct (finished_stays values two_calls after_cancel.1 cancelled_board after_cancel.2 "r1" (set_rem_status deploy RCancelled)
    values_ok Hk) as (r' & Hr' & _ & Ht); [rewrite -surjective_pairing; apply play_steps|exact Hr|].
  exists r'. split; [exact Hr'|]. by apply Ht.
Defined.

(** The reminder is due and needs approval; it is started all the same, while
    another is approved. *)
Definition eager : list Task :=
  [TRemind 10%Z; TEdit (EStart "r1" "bob" (λ _, 11%Z)); TEdit (EApprove "r2" "cid")].
Definition after_eager : list (Prog Reminders RemFault Reply) * Reminders :=
  play (replicate 12 0 ++ replicate 6 1) (task_prog values <$> eager, board).

Lemma approval_gate_witness :
  answer after_eager 1 = Some (Err (RemErr (RequiresApproval "r1"))) ∧
  ∃ r', after_eager.2 !! "r1" = Some r' ∧ held r'.
Proof.
  split; [by vm_compute|].
  assert (board !! "r1" = Some deploy) as Hr by by vm_compute.
  destruct (approval_gate values eager after_eager.1 board after_eager.2 "r1" deploy values_ok board_keyed) as [H _];
    [rewrite -surjective_pairing; apply play_steps| |exact Hr| |exact H].
  - intros who. unfold eager. rewrite !elem_of_cons. by intros [|[|[|[]%not_elem_of_nil]]].
  - by split.
Defined.

(** Thursday at noon; next Monday, and tomorrow morning. *)
Lemma next_due_spec_witness :
  next_due (Weekly 0%N 3600%Z) 43200%Z = Ok (Some 349200%Z) ∧ keeps_schedule (Weekly 0%N 3600%Z) 43200%Z 349200%Z ∧
  next_due (Daily 3600%Z) 43200%Z = Ok (Some 90000%Z) ∧ keeps_schedule (Daily 3600%Z) 43200%Z 90000%Z.
Proof.
  split; [by vm_compute|]. split; [by apply (next_due_spec (Weekly 0%N 3600%Z) 43200%Z (Some 349200%Z)); [vm_compute|split; vm_compute]|].
  split; [by vm_compute|]. by apply (next_due_spec (Daily 3600%Z) 43200%Z (Some 90000%Z)); vm_compute.
Defined.
End witnesses.
