(* ===== verification/Control.v ===== *)
(** * Control: the control tree

    Models [agentstategraph/src/control.rs]: the tree that holds taints,
    reminders and epochs as state, its layout, reading and editing it, and the
    merge that needs no common ancestor. Trees are in the in-memory store. The
    serde encoders of the records and the text of a time are parameters; a
    recursion over a stored tree has fuel for every object stored, which is
    more than any tree is high. *)
From S2P Require Import Prelude Objects Paths Json Intents Commits Epochs Taints Stores Memory.
From S2P Require Import Diffs Merges Trees TreeJson Specs Guards Integrity Reminders Bundles.

Definition CONTROL_FORMAT : Z := 1.
Definition CHUNK_CUT : N := 4.
Definition CHUNK_MAX : nat := 256.

(** The sections, in the order of their keys. *)
Inductive SectionName : Type := SEpochs | SMembers | SReminders | STaints.

#[export] Instance SectionName_eq_dec : EqDecision SectionName.
Proof. solve_decision. Defined.

Definition section_key (n : SectionName) : string :=
  match n with SEpochs => "epochs" | SMembers => "members" | SReminders => "reminders" | STaints => "taints" end.
Definition FORMAT : string := "format".

Inductive ReminderEntry : Type :=
  | Live (r : Reminder) (edited_at : Time)
  | Deleted (deleted_at : Time).

Definition live (e : ReminderEntry) : option Reminder :=
  match e with Live r _ => Some r | Deleted _ => None end.

Record ControlState := {
  cs_taints : gmap string Taint;
  cs_reminders : gmap string ReminderEntry;
  cs_epochs : gmap string Epoch;
  cs_members : gmap string (gset ObjectId);
}.

Definition control_default : ControlState :=
  {| cs_taints := ∅; cs_reminders := ∅; cs_epochs := ∅; cs_members := ∅ |}.

Record EpochConflict := {
  conflict_epoch : string;
  kept_seal : option ObjectId;
  dropped_seal : option ObjectId;
}.

Record Merged := {
  merged_root : ObjectId;
  merged_conflicts : list EpochConflict;
}.

(** An error, a panic, or a recursion out of fuel. *)
Inductive ControlError : Type :=
  | CRepo (e : RepoError)
  | CPanic
  | CFuel.

Abbreviation CE := (result ControlError).
Abbreviation CM := (stateful MemoryStorage ControlError).

Definition malformed (what : string) : ControlError := CRepo (InvalidOp ("malformed control ref: " +:+ what)).
Definition control_storage (e : StorageError) : ControlError := CRepo (StorageErr e).
Definition control_tree (e : stop TreeError) : ControlError :=
  match e with OutOfFuel => CFuel | Fail e => CRepo (TreeErr e) end.

(** The serde encoders of the records, and a time as text. *)
Class ControlSerde := {
  taint_to_json : Taint → result string Json;
  taint_from_json : Json → result string Taint;
  epoch_to_json : Epoch → result string Json;
  epoch_from_json : Json → result string Epoch;
  to_rfc3339 : Time → string;
  parse_rfc3339 : string → result string Time;
}.

Section control.
Context `{CH : ContentHash, RJ : ReminderJson, SD : ControlSerde}.

(** ** Loading *)

Definition control_load (get : ObjectReads) (id : ObjectId) : CE Object :=
  o ← map_err control_storage (get id);
  ok_or (control_storage (ObjectNotFound (oid_display id))) o.

Definition load_map (get : ObjectReads) (id : ObjectId) : CE (gmap string ObjectId) :=
  o ← control_load get id;
  match o with ONode (NMap m) => Ok m | _ => Err (malformed (oid_display id +:+ " isn't a map")) end.

Definition load_string (get : ObjectReads) (id : ObjectId) : CE string :=
  o ← control_load get id;
  match o with OAtom (AString s) => Ok s | _ => Err (malformed (oid_display id +:+ " isn't a string")) end.

Definition load_json {A} (fuel : nat) (get : ObjectReads) (from : Json → result string A) (id : ObjectId) : CE A :=
  o ← control_load get id;
  j ← map_err control_tree (tree_to_json fuel get o);
  map_err malformed (from j).

Definition load_time (get : ObjectReads) (id : ObjectId) : CE Time :=
  s ← load_string get id; map_err malformed (parse_rfc3339 s).

(** Whether the text may be cut here: not within a character. *)
Definition char_boundary (s : string) : bool :=
  match s with EmptyString => true | String c _ => negb (utf8_tail c) end.

(** The ids of a chunk, 64 bytes of hex at a time; slicing within a character
    panics. *)
Fixpoint chunk_ids (fuel : nat) (what : string) (hex : string) : CE (list ObjectId) :=
  match fuel with
  | 0 => Err CFuel
  | S fuel' =>
      match hex with
      | EmptyString => Ok []
      | String _ _ =>
          match split_at 64 hex with
          | None => Err CPanic
          | Some (piece, rest) =>
              if negb (char_boundary piece && char_boundary rest) then Err CPanic else
              id ← ok_or (malformed what) (from_hex piece);
              ids ← chunk_ids fuel' what rest; Ok (id :: ids)
          end
      end
  end.

Fixpoint load_chunks_ids (chunks : list (ObjectId * option Object)) : CE (list ObjectId) :=
  match chunks with
  | [] => Ok []
  | (chunk_id, chunk) :: chunks' =>
      let what := "id list chunk " +:+ oid_display chunk_id in
      match chunk with
      | Some (OAtom (AString hex)) =>
          if negb (slen hex mod 64 =? 0)%N then Err (malformed what) else
          ids ← chunk_ids (S (String.length hex)) what hex;
          rest ← load_chunks_ids chunks'; Ok (ids ++ rest)
      | _ => Err (malformed what)
      end
  end.

Definition load_ids (get : ObjectReads) (id : ObjectId) : CE (list ObjectId) :=
  o ← control_load get id;
  match o with
  | ONode (NList ids) =>
      chunks ← map_err control_storage (batch_get_objects get ids);
      load_chunks_ids (zip ids chunks)
  | _ => Err (malformed (oid_display id +:+ " isn't an id list"))
  end.

Definition load_taint (fuel : nat) (get : ObjectReads) (id : ObjectId) : CE Taint :=
  load_json fuel get taint_from_json id.

Definition field (what : string) (doc : gmap string ObjectId) (id : ObjectId) (name : string) : CE ObjectId :=
  ok_or (malformed (what +:+ " " +:+ oid_display id +:+ " has no " +:+ name)) (doc !! name).

Definition load_reminder (fuel : nat) (get : ObjectReads) (id : ObjectId) : CE ReminderEntry :=
  doc ← load_map get id;
  match doc !! "deleted_at" with
  | Some at_ => t ← load_time get at_; Ok (Deleted t)
  | None =>
      tree ← field "reminder" doc id "reminder";
      r ← load_json fuel get reminder_from_json tree;
      at_ ← field "reminder" doc id "edited_at";
      t ← load_time get at_; Ok (Live r t)
  end.

Definition epoch_with_lists (e : Epoch) (commits sealed : list ObjectId) : Epoch := {|
  epoch_id := epoch_id e; epoch_description := epoch_description e; root_intents := root_intents e;
  epoch_status := epoch_status e; epoch_created_at := epoch_created_at e; sealed_at := sealed_at e;
  seal_summary := seal_summary e; seal_hash := seal_hash e; epoch_commits := commits;
  epoch_agents := epoch_agents e; epoch_branches := epoch_branches e; epoch_tags := epoch_tags e;
  sealed_commits := sealed; epoch_scope := epoch_scope e; epoch_namespace := epoch_namespace e |}.

Definition load_epoch (fuel : nat) (get : ObjectReads) (id : ObjectId) : CE Epoch :=
  doc ← load_map get id;
  record ← field "epoch" doc id "record";
  e ← load_json fuel get epoch_from_json record;
  sealed ← field "epoch" doc id "sealed";
  ids ← load_ids get sealed;
  Ok (epoch_with_lists e (epoch_commits e) ids).

(** ** Storing *)

Definition put_control (o : Object) : CM ObjectId := map_err_st control_storage (put_object o).
Definition put_map (m : gmap string ObjectId) : CM ObjectId := put_control (mk_map m).
Definition put_string (s : string) : CM ObjectId := put_control (mk_string s).
Definition put_json (j : result string Json) : CM ObjectId :=
  match j with
  | Err e => throw (malformed e)
  | Ok j => map_err_st (λ e, CRepo (TreeErr e)) (json_to_tree j)
  end.
Definition put_time (t : Time) : CM ObjectId := put_string (to_rfc3339 t).

(** Whether a chunk ends after the id: by its last byte. *)
Definition cuts (id : ObjectId) : bool :=
  match String.get 31 (oid_bytes id) with Some c => (code c <? CHUNK_CUT)%N | None => false end.

(** The chunks, from the text of the one being filled and how many ids it has. *)
Fixpoint id_chunks (chunk : string) (in_chunk : nat) (ids : list ObjectId) : list string :=
  match ids with
  | [] => if bool_decide (chunk = EmptyString) then [] else [chunk]
  | id :: ids' =>
      let chunk := chunk +:+ oid_to_hex id in
      if cuts id || bool_decide (S in_chunk = CHUNK_MAX) then chunk :: id_chunks EmptyString 0 ids'
      else id_chunks chunk (S in_chunk) ids'
  end.

Definition id_list_objects (ids : list ObjectId) : list Object := mk_string <$> id_chunks EmptyString 0 ids.
Definition id_list (ids : list ObjectId) : Object := mk_list (oid_of <$> id_list_objects ids).

Definition put_ids (ids : list ObjectId) : CM ObjectId :=
  _ ← map_err_st control_storage (batch_put_objects (id_list_objects ids ++ [id_list ids]));
  mret (oid_of (id_list ids)).

(** A [BTreeSet] of ids, in order. *)
Definition sorted_ids (X : gset ObjectId) : list ObjectId := merge_sort oid_le (elements X).

Definition put_taint (t : Taint) : CM ObjectId := put_json (taint_to_json t).

Definition put_reminder (e : ReminderEntry) : CM ObjectId :=
  match e with
  | Live r edited_at =>
      tree ← put_json (reminder_to_json r);
      at_ ← put_time edited_at;
      put_map (<["edited_at" := at_]> (<["reminder" := tree]> ∅))
  | Deleted deleted_at => at_ ← put_time deleted_at; put_map (<["deleted_at" := at_]> ∅)
  end.

Definition put_epoch (e : Epoch) : CM ObjectId :=
  record ← put_json (epoch_to_json (epoch_with_lists e [] []));
  sealed ← put_ids (sorted_ids (list_to_set (sealed_commits e)));
  put_map (<["sealed" := sealed]> (<["record" := record]> ∅)).

(** ** Sections *)

(** Each section's records and their trees. *)
Record Sections := {
  sec_epochs : gmap string ObjectId;
  sec_members : gmap string ObjectId;
  sec_reminders : gmap string ObjectId;
  sec_taints : gmap string ObjectId;
}.

Definition sections_empty : Sections :=
  {| sec_epochs := ∅; sec_members := ∅; sec_reminders := ∅; sec_taints := ∅ |}.

Definition section (n : SectionName) (s : Sections) : gmap string ObjectId :=
  match n with
  | SEpochs => sec_epochs s | SMembers => sec_members s | SReminders => sec_reminders s | STaints => sec_taints s
  end.
Definition set_section (n : SectionName) (m : gmap string ObjectId) (s : Sections) : Sections :=
  match n with
  | SEpochs => {| sec_epochs := m; sec_members := sec_members s; sec_reminders := sec_reminders s; sec_taints := sec_taints s |}
  | SMembers => {| sec_epochs := sec_epochs s; sec_members := m; sec_reminders := sec_reminders s; sec_taints := sec_taints s |}
  | SReminders => {| sec_epochs := sec_epochs s; sec_members := sec_members s; sec_reminders := m; sec_taints := sec_taints s |}
  | STaints => {| sec_epochs := sec_epochs s; sec_members := sec_members s; sec_reminders := sec_reminders s; sec_taints := m |}
  end.

Definition load_section (get : ObjectReads) (top : gmap string ObjectId) (n : SectionName) : CE (gmap string ObjectId) :=
  id ← ok_or (malformed ("no " +:+ section_key n)) (top !! section_key n);
  load_map get id.

Definition load_format (get : ObjectReads) (top : gmap string ObjectId) : CE Z :=
  match top !! FORMAT with
  | None => Err (malformed "no format")
  | Some id =>
      o ← control_load get id;
      match o with OAtom (AInt n) => Ok n | _ => Err (malformed "no format") end
  end.

Definition format_message (n : Z) : string :=
  "the control ref is in format " +:+ pretty n +:+ "; this build reads format 1. Upgrade AgentStateGraph".

Definition load_sections (get : ObjectReads) (root : ObjectId) : CE Sections :=
  top ← load_map get root;
  format ← load_format get top;
  if negb (format =? CONTROL_FORMAT)%Z then Err (CRepo (InvalidOp (format_message format))) else
  taints ← load_section get top STaints;
  reminders ← load_section get top SReminders;
  epochs ← load_section get top SEpochs;
  members ← load_section get top SMembers;
  Ok {| sec_epochs := epochs; sec_members := members; sec_reminders := reminders; sec_taints := taints |}.

Definition write_sections (s : Sections) : CM ObjectId :=
  format ← put_control (mk_int CONTROL_FORMAT);
  epochs ← put_map (sec_epochs s);
  members ← put_map (sec_members s);
  reminders ← put_map (sec_reminders s);
  taints ← put_map (sec_taints s);
  put_map (<["taints" := taints]> (<["reminders" := reminders]> (<["members" := members]> (<["epochs" := epochs]>
    (<[FORMAT := format]> ∅))))).

(** ** Reading and editing *)

(** Fuel for any stored tree. *)
Definition tree_room (s : MemoryStorage) : nat := size (objects s) + 2.

(** A load from the store as it is. *)
Definition from_store {A} (load : nat → ObjectReads → ObjectId → CE A) (id : ObjectId) : CM A :=
  reading (λ s, load (tree_room s) (mem_get_object s) id).
Definition ids_from_store : ObjectId → CM (list ObjectId) := from_store (λ _, load_ids).
Definition sections_from_store : ObjectId → CM Sections := from_store (λ _, load_sections).

(** Every record of a section, by the key it is under. *)
Fixpoint read_records {A} (load : ObjectId → CM A) (l : list (string * ObjectId)) : CM (gmap string A) :=
  match l with
  | [] => mret ∅
  | (id, tree) :: l' => x ← load tree; m ← read_records load l'; mret (<[id := x]> m)
  end.

Definition read (root : ObjectId) : CM ControlState :=
  sec ← sections_from_store root;
  taints ← read_records (from_store load_taint) (entries (sec_taints sec));
  reminders ← read_records (from_store load_reminder) (entries (sec_reminders sec));
  epochs ← read_records (from_store load_epoch) (entries (sec_epochs sec));
  members ← read_records (λ tree, ids ← ids_from_store tree; mret (list_to_set ids)) (entries (sec_members sec));
  mret {| cs_taints := taints; cs_reminders := reminders; cs_epochs := epochs; cs_members := members |}.

(** A [ControlEdit] is its sections; the store is beside it. *)
Definition put_record (n : SectionName) (id : string) (tree : ObjectId) (sec : Sections) : Sections :=
  set_section n (<[id := tree]> (section n sec)) sec.

Definition edit_open (root : ObjectId) : CM Sections := sections_from_store root.
Definition edit_put_taint (t : Taint) (sec : Sections) : CM Sections :=
  tree ← put_taint t; mret (put_record STaints (taint_id t) tree sec).
Definition edit_put_entry (id : string) (e : ReminderEntry) (sec : Sections) : CM Sections :=
  tree ← put_reminder e; mret (put_record SReminders id tree sec).
Definition edit_put_reminder (r : Reminder) (edited_at : Time) : Sections → CM Sections :=
  edit_put_entry (rem_id r) (Live r edited_at).
Definition edit_delete_reminder (id : string) (deleted_at : Time) : Sections → CM Sections :=
  edit_put_entry id (Deleted deleted_at).
Definition edit_put_epoch (e : Epoch) (sec : Sections) : CM Sections :=
  tree ← put_epoch e; mret (put_record SEpochs (epoch_id e) tree sec).
Definition edit_add_members (epoch : string) (commits : list ObjectId) (sec : Sections) : CM Sections :=
  before ← match sec_members sec !! epoch with
           | Some tree => ids ← ids_from_store tree; mret (list_to_set ids)
           | None => mret ∅
           end;
  let members : gset ObjectId := list_to_set commits ∪ before in
  if bool_decide (size members = size before) && bool_decide (is_Some (sec_members sec !! epoch)) then mret sec else
  tree ← put_ids (sorted_ids members); mret (put_record SMembers epoch tree sec).

(** Edits one after the other. *)
Fixpoint edit_all {A} (edit : A → Sections → CM Sections) (l : list A) (sec : Sections) : CM Sections :=
  match l with
  | [] => mret sec
  | x :: l' => sec' ← edit x sec; edit_all edit l' sec'
  end.

Definition write (st : ControlState) : CM ObjectId :=
  sec ← edit_all (λ kt, edit_put_taint kt.2) (entries (cs_taints st)) sections_empty;
  sec ← edit_all (λ ke, edit_put_entry ke.1 ke.2) (entries (cs_reminders st)) sec;
  sec ← edit_all (λ ke, edit_put_epoch ke.2) (entries (cs_epochs st)) sec;
  sec ← edit_all (λ km, edit_add_members km.1 (sorted_ids km.2)) (entries (cs_members st)) sec;
  write_sections sec.
End control.

(** ** Ranks *)

(** Rust's orders of booleans, options, pairs, and [Reverse]. *)
Definition cmp_bool (a b : bool) : comparison :=
  match a, b with false, true => Lt | true, false => Gt | _, _ => Eq end.
Definition cmp_option {A} (cmp : A → A → comparison) (a b : option A) : comparison :=
  match a, b with None, None => Eq | None, Some _ => Lt | Some _, None => Gt | Some x, Some y => cmp x y end.
Definition cmp_pair {A B} (cmp1 : A → A → comparison) (cmp2 : B → B → comparison) (a b : A * B) : comparison :=
  match cmp1 a.1 b.1 with Eq => cmp2 a.2 b.2 | c => c end.
Definition cmp_rev {A} (cmp : A → A → comparison) (a b : A) : comparison := cmp b a.
Definition cmp_oid (a b : ObjectId) : comparison := String.compare (oid_bytes a) (oid_bytes b).

Abbreviation TaintRank := (bool * option Time * bool)%type.
Definition taint_rank (t : Taint) : TaintRank :=
  (bool_decide (is_Some (resolved_at t)), resolved_at t, negb (bool_decide (taint_commit_id t = EmptyString))).
Definition cmp_taint : TaintRank → TaintRank → comparison :=
  cmp_pair (cmp_pair cmp_bool (cmp_rev (cmp_option Z.compare))) cmp_bool.

Abbreviation ReminderRank := (N * Time)%type.
Definition reminder_rank (e : ReminderEntry) : ReminderRank :=
  match e with
  | Deleted deleted_at => (2%N, deleted_at)
  | Live r edited_at => ((if is_terminal (rem_status r) then 1 else 0)%N, edited_at)
  end.
Definition cmp_reminder : ReminderRank → ReminderRank → comparison := cmp_pair N.compare Z.compare.

Abbreviation EpochRank := (N * option Time * bool)%type.
Definition epoch_rank (e : Epoch) : EpochRank :=
  (match epoch_status e with EpochActive => 0 | EpochSealed => 1 | EpochArchived => 2 end%N, sealed_at e,
   bool_decide (is_Some (epoch_namespace e))).
Definition cmp_epoch : EpochRank → EpochRank → comparison :=
  cmp_pair (cmp_pair N.compare (cmp_rev (cmp_option Z.compare))) cmp_bool.

(** The winner and the loser. *)
Definition pick {K} (cmp : K → K → comparison) (ours theirs : ObjectId * K) : ObjectId * ObjectId :=
  match cmp_pair cmp cmp_oid (theirs.2, theirs.1) (ours.2, ours.1) with
  | Gt => (theirs.1, ours.1)
  | _ => (ours.1, theirs.1)
  end.

(** ** Merging *)

Section merging.
Context `{CH : ContentHash, RJ : ReminderJson, SD : ControlSerde}.

Definition seal_conflict (id : string) (o t : Epoch) (ours_won : bool) : list EpochConflict :=
  match seal_hash o, seal_hash t with
  | Some x, Some y =>
      if decide (x = y) then [] else
      let '(kept, dropped) := if ours_won then (x, y) else (y, x) in
      [{| conflict_epoch := id; kept_seal := Some kept; dropped_seal := Some dropped |}]
  | _, _ => []
  end.

(** The tree of a record that both sides have, differently. *)
Definition merge_record (n : SectionName) (id : string) (our_tree their_tree : ObjectId) :
    CM (ObjectId * list EpochConflict) :=
  match n with
  | STaints =>
      o ← from_store load_taint our_tree; t ← from_store load_taint their_tree;
      mret ((pick cmp_taint (our_tree, taint_rank o) (their_tree, taint_rank t)).1, [])
  | SReminders =>
      o ← from_store load_reminder our_tree; t ← from_store load_reminder their_tree;
      mret ((pick cmp_reminder (our_tree, reminder_rank o) (their_tree, reminder_rank t)).1, [])
  | SEpochs =>
      o ← from_store load_epoch our_tree; t ← from_store load_epoch their_tree;
      let winner := (pick cmp_epoch (our_tree, epoch_rank o) (their_tree, epoch_rank t)).1 in
      mret (winner, seal_conflict id o t (bool_decide (winner = our_tree)))
  | SMembers =>
      o ← ids_from_store our_tree; t ← ids_from_store their_tree;
      tree ← put_ids (sorted_ids (list_to_set o ∪ list_to_set t)); mret (tree, [])
  end.

Fixpoint merge_records (n : SectionName) (theirs : list (string * ObjectId)) (ours : gmap string ObjectId)
    (conflicts : list EpochConflict) : CM (gmap string ObjectId * list EpochConflict) :=
  match theirs with
  | [] => mret (ours, conflicts)
  | (id, their_tree) :: theirs' =>
      match ours !! id with
      | None => merge_records n theirs' (<[id := their_tree]> ours) conflicts
      | Some our_tree =>
          if decide (our_tree = their_tree) then merge_records n theirs' ours conflicts else
          '(winner, found) ← merge_record n id our_tree their_tree;
          merge_records n theirs' (<[id := winner]> ours) (conflicts ++ found)
      end
  end.

Fixpoint merge_sections (names : list SectionName) (a b : Sections) (conflicts : list EpochConflict) :
    CM (Sections * list EpochConflict) :=
  match names with
  | [] => mret (a, conflicts)
  | n :: names' =>
      '(m, conflicts') ← merge_records n (entries (section n b)) (section n a) conflicts;
      merge_sections names' (set_section n m a) b conflicts'
  end.

Definition control_merge (ours theirs : ObjectId) : CM Merged :=
  if decide (ours = theirs) then mret {| merged_root := ours; merged_conflicts := [] |} else
  a ← sections_from_store ours;
  b ← sections_from_store theirs;
  '(a', conflicts) ← merge_sections [SEpochs; SMembers; SReminders; STaints] a b [];
  root ← write_sections a';
  mret {| merged_root := root; merged_conflicts := conflicts |}.
End merging.
