(* ===== verification/Converge.v ===== *)
(** * Converge: what merging control trees comes to

    Proofs about [Control]: that the versions of a record are ordered totally,
    that an id list reads back as the set it was written from, what a merge of
    two trees contains, and from these that replicas which merge one another's
    trees, in any order and any number of times, end on the same tree; which
    facts a merge never undoes; and what it reports of seals that disagree. *)
From S2P Require Import Prelude Objects Paths Json Intents Commits Epochs Taints Stores Memory Reminders Approvals.
From S2P Require Import Bundles Diffs Merges Trees TreeJson Specs Guards Heights Integrity Control.

(** ** Total orders *)

Class TotalCmp {A} (cmp : A → A → comparison) : Prop := {
  cmp_eq x y : cmp x y = Eq ↔ x = y;
  cmp_anti x y : cmp y x = CompOpp (cmp x y);
  cmp_lt_trans x y z : cmp x y = Lt → cmp y z = Lt → cmp x z = Lt;
}.
#[export] Hint Mode TotalCmp ! ! : typeclass_instances.
#[export] Typeclasses Opaque cmp_rev cmp_option cmp_pair cmp_oid.

#[export] Instance cmp_bool_total : TotalCmp cmp_bool.
Proof. split; [intros [] []|intros [] []|intros [] [] []]; naive_solver. Qed.

#[export] Instance cmp_Z_total : TotalCmp Z.compare.
Proof.
  split; [apply Z.compare_eq_iff|intros; by rewrite Z.compare_antisym|].
  intros x y z. rewrite !Z.compare_lt_iff. lia.
Qed.

#[export] Instance cmp_N_total : TotalCmp N.compare.
Proof.
  split; [apply N.compare_eq_iff|intros; by rewrite N.compare_antisym|].
  intros x y z. rewrite !N.compare_lt_iff. lia.
Qed.

#[export] Instance cmp_rev_total {A} (cmp : A → A → comparison) `{!TotalCmp cmp} : TotalCmp (cmp_rev cmp).
Proof.
  unfold cmp_rev. split; intros x y.
  - rewrite cmp_eq. naive_solver.
  - apply cmp_anti.
  - intros z H1 H2. by eapply cmp_lt_trans.
Qed.

#[export] Instance cmp_option_total {A} (cmp : A → A → comparison) `{!TotalCmp cmp} : TotalCmp (cmp_option cmp).
Proof.
  split.
  - intros [x|] [y|]; simpl; [rewrite cmp_eq|..]; naive_solver.
  - intros [x|] [y|]; simpl; [apply cmp_anti|done..].
  - intros [x|] [y|] [z|]; simpl; try done. apply cmp_lt_trans.
Qed.

#[export] Instance cmp_pair_total {A B} (cmp1 : A → A → comparison) (cmp2 : B → B → comparison)
    `{!TotalCmp cmp1, !TotalCmp cmp2} : TotalCmp (cmp_pair cmp1 cmp2).
Proof.
  assert (∀ a, cmp1 a a = Eq) as Hr by (intros a; by apply cmp_eq).
  unfold cmp_pair. split.
  - intros [a b] [a' b']; simpl. destruct (cmp1 a a') eqn:E.
    + apply cmp_eq in E as ->. rewrite cmp_eq. naive_solver.
    + split; [done|]. intros [= -> ->]. by rewrite Hr in E.
    + split; [done|]. intros [= -> ->]. by rewrite Hr in E.
  - intros [a b] [a' b']; simpl. rewrite (cmp_anti a a'). destruct (cmp1 a a'); simpl; [apply cmp_anti|done..].
  - intros [a b] [a' b'] [a'' b'']; simpl.
    destruct (cmp1 a a') eqn:E1; destruct (cmp1 a' a'') eqn:E2; try done.
    + apply cmp_eq in E1 as ->, E2 as ->. rewrite Hr. apply cmp_lt_trans.
    + apply cmp_eq in E1 as ->. by rewrite E2.
    + apply cmp_eq in E2 as ->. by rewrite E1.
    + by rewrite (cmp_lt_trans _ _ _ E1 E2).
Qed.

#[export] Instance cmp_oid_total : TotalCmp cmp_oid.
Proof.
  unfold cmp_oid. split.
  - intros [x] [y]; simpl. split; [by intros ->%String.compare_eq_iff|]. intros [= ->].
    pose proof (String.compare_antisym y y) as H. by destruct (y ?= y)%string.
  - intros x y. apply String.compare_antisym.
  - intros [x] [y] [z]; simpl. intros H1 H2.
    assert (∀ a b, (a ?= b)%string ≠ Gt ↔ String.le a b) as Hle.
    { intros a b. unfold String.le, String.leb. by destruct (a ?= b)%string. }
    assert (String.le x z) as Hxz by (trans y; apply Hle; congruence).
    apply Hle in Hxz. destruct (x ?= z)%string eqn:E; [|done..].
    apply String.compare_eq_iff in E as ->. rewrite String.compare_antisym H2 in H1. done.
Qed.

(** ** The best of a set *)

Section best.
Context {K : Type} (cmp : K → K → comparison) `{!TotalCmp cmp} (key : ObjectId → option K).

(** [a] ranks no higher than [b]. *)
Definition under (a b : ObjectId) : Prop :=
  cmp_pair (cmp_option cmp) cmp_oid (key a, a) (key b, b) ≠ Gt.

Lemma under_self a : under a a.
Proof. unfold under. by rewrite (proj2 (cmp_eq (cmp := cmp_pair (cmp_option cmp) cmp_oid) _ _) eq_refl). Qed.

Lemma under_total a b : under a b ∨ under b a.
Proof. unfold under. rewrite (cmp_anti (key a, a)). destruct (cmp_pair _ _ _ _); naive_solver. Qed.

Lemma under_anti a b : under a b → under b a → a = b.
Proof.
  unfold under. rewrite (cmp_anti (key a, a)). destruct (cmp_pair _ _ _ _) eqn:E; try done.
  apply cmp_eq in E. by injection E.
Qed.

Lemma under_trans a b c : under a b → under b c → under a c.
Proof.
  unfold under. intros H1 H2.
  destruct (cmp_pair _ _ (key a, a) (key b, b)) eqn:E1; [|clear H1|done].
  - apply cmp_eq in E1. by injection E1 as -> ->.
  - destruct (cmp_pair _ _ (key b, b) (key c, c)) eqn:E2; [|clear H2|done].
    + apply cmp_eq in E2. injection E2 as <- <-. by rewrite E1.
    + by rewrite (cmp_lt_trans _ _ _ E1 E2).
Qed.

Definition best (T : gset ObjectId) (w : ObjectId) : Prop := w ∈ T ∧ ∀ t, t ∈ T → under t w.

Lemma best_unique T w w' : best T w → best T w' → w = w'.
Proof. intros [H1 H2] [H3 H4]. apply under_anti; auto. Qed.

Lemma best_single t : best {[ t ]} t.
Proof. split; [set_solver|]. intros ? ->%elem_of_singleton. apply under_self. Qed.

Lemma best_same T1 T2 w : best T1 w → best T2 w → best (T1 ∪ T2) w.
Proof. intros [H1 H2] [_ H3]. split; [set_solver|]. intros t [?|?]%elem_of_union; auto. Qed.

(** [pick] takes the better of two. *)
Lemma pick_best (T1 T2 : gset ObjectId) a b ka kb :
  key a = Some ka → key b = Some kb → best T1 a → best T2 b →
  best (T1 ∪ T2) (pick cmp (a, ka) (b, kb)).1.
Proof.
  intros Ha Hb [Ha1 Ha2] [Hb1 Hb2]. unfold pick. simpl.
  assert (cmp_pair cmp cmp_oid (kb, b) (ka, a) = cmp_pair (cmp_option cmp) cmp_oid (key b, b) (key a, a)) as ->
    by by rewrite Ha Hb.
  destruct (cmp_pair _ _ _ _) eqn:E; simpl.
  1,2: split; [set_solver|]; intros t [?|Ht]%elem_of_union; [by apply Ha2|]; apply (under_trans _ b); [by apply Hb2|].
  1,2: unfold under; by rewrite E.
  split; [set_solver|]. intros t [Ht|?]%elem_of_union; [|by apply Hb2]. apply (under_trans _ a); [by apply Ha2|].
  unfold under. by rewrite (cmp_anti (key b, b)) E.
Qed.
End best.

Lemma best_ext {K} (cmp : K → K → comparison) key key' T w :
  (∀ t, t ∈ T → key' t = key t) → best cmp key T w → best cmp key' T w.
Proof. intros Hk [Hw Hb]. split; [done|]. intros t Ht. unfold under. rewrite !Hk //. by apply Hb. Qed.

(** ** Id lists *)

Definition hexes (ids : list ObjectId) : string := foldr (λ id s, oid_to_hex id +:+ s) EmptyString ids.

Lemma hexes_app l k : hexes (l ++ k) = hexes l +:+ hexes k.
Proof. induction l as [|i l IH]; simpl; [done|]. by rewrite IH string_app_assoc. Qed.

Lemma hex_slen id : valid_oid id → slen (oid_to_hex id) = 64%N.
Proof. unfold valid_oid, oid_to_hex, slen. rewrite to_hex_length. lia. Qed.

Lemma hexes_slen ids : Forall valid_oid ids → slen (hexes ids) = (64 * N.of_nat (length ids))%N.
Proof.
  induction 1 as [|id ids Hid _ IH]; [done|]. cbn [hexes foldr length]. fold (hexes ids).
  rewrite slen_app hex_slen // IH. lia.
Qed.

(** Hex text can be cut anywhere. *)
Lemma hexes_boundary ids : Forall valid_oid ids → char_boundary (hexes ids).
Proof.
  intros Hids. assert (str_forall is_ascii_hexdigit (hexes ids)) as H.
  { clear Hids. induction ids as [|id ids IH]; [done|]. cbn [hexes foldr]. rewrite str_forall_app.
    apply andb_True. split; [|exact IH]. apply to_hex_lowercase. }
  destruct (hexes ids) as [|c s]; [done|]. apply andb_True in H as [H _]. revert H. clear. simpl.
  intros H. assert (implb (is_ascii_hexdigit c) (negb (utf8_tail c))) as Hc.
  { apply (all_bytes (λ c, implb (is_ascii_hexdigit c) (negb (utf8_tail c)))). by vm_compute. }
  by destruct (is_ascii_hexdigit c).
Qed.

Lemma hex_boundary id : valid_oid id → char_boundary (oid_to_hex id).
Proof. intros Hid. rewrite -(string_app_nil_r (oid_to_hex id)). apply (hexes_boundary [id]). by constructor. Qed.

Lemma from_hex_valid s id : from_hex s = Some id → valid_oid id.
Proof.
  unfold from_hex. destruct (negb _ || negb _) eqn:E; [done|]. intros (b & Hb & ->)%fmap_Some.
  apply hex_chunks_length in Hb. apply orb_false_iff in E as [E _]. apply negb_false_iff, N.eqb_eq in E.
  unfold valid_oid. simpl. lia.
Qed.

Lemma from_hex_back id : valid_oid id → from_hex (oid_to_hex id) = Some id.
Proof.
  intros Hv. destruct (to_hex_lowercase (oid_bytes id)) as [Hh Hl].
  assert (str_forall not_ws_byte (to_hex (oid_bytes id))) as Hw.
  { revert Hh. clear. induction (to_hex (oid_bytes id)) as [|c s IH]; [done|].
    cbn [str_forall]. intros [Hc Hs]%andb_True. apply andb_True; split; [|by apply IH].
    by apply hexdigit_not_ws. }
  assert (hex_fragment (oid_to_hex id) = to_hex (oid_bytes id)) as Hf.
  { unfold hex_fragment, oid_to_hex. rewrite trim_not_ws //.
    destruct (to_hex (oid_bytes id)) as [|c s]; [done|]. apply andb_True in Hh as [Hc _].
    cbn [strip_prefix]. rewrite decide_False //. intros <-. by vm_compute in Hc. }
  unfold from_hex. rewrite Hf (Is_true_true_1 _ Hh) /= orb_false_r.
  pose proof (hex_slen id Hv) as Hs. unfold oid_to_hex in Hs. rewrite Hs /=.
  rewrite (proj2 (hex_chunks_to_hex _ (oid_bytes id))) //=. by destruct id.
Qed.

Lemma chunk_ids_back fuel what ids :
  Forall valid_oid ids → length ids < fuel → chunk_ids fuel what (hexes ids) = Ok ids.
Proof.
  intros Hids. revert fuel. induction Hids as [|id ids Hid Hids IH]; intros [|fuel] Hf; try (simpl in Hf; lia); [done|].
  cbn [chunk_ids hexes foldr]. fold (hexes ids).
  destruct (oid_to_hex id +:+ hexes ids) as [|c s] eqn:E.
  { apply (f_equal slen) in E. rewrite slen_app hex_slen // in E. by destruct (slen (hexes ids)). }
  rewrite -E split_at_app; [|by apply hex_slen].
  rewrite (Is_true_true_1 _ (hex_boundary id Hid)) (Is_true_true_1 _ (hexes_boundary ids Hids)) /=.
  rewrite from_hex_back //=. rewrite IH //. simpl in Hf. lia.
Qed.

Lemma chunk_ids_valid fuel what hex ids : chunk_ids fuel what hex = Ok ids → Forall valid_oid ids.
Proof.
  revert hex ids. induction fuel as [|fuel IH]; intros hex ids; [done|]. cbn [chunk_ids].
  destruct hex as [|c s]; [by intros [= <-]|]. destruct (split_at 64 _) as [[p rest]|]; [|done].
  destruct (negb _); [done|]. intros H. inv_ok. subst. constructor; [by eapply from_hex_valid|]. by eapply IH.
Qed.

Lemma load_chunks_ids_valid chunks ids : load_chunks_ids chunks = Ok ids → Forall valid_oid ids.
Proof.
  revert ids. induction chunks as [|[i [[[]|]|]] chunks IH]; intros ids; try done; [by intros [= <-]|].
  cbn [load_chunks_ids]. destruct (negb _); [done|]. intros H. inv_ok. subst.
  apply Forall_app. split; [by eapply chunk_ids_valid|by eapply IH].
Qed.

Lemma load_ids_valid get id ids : load_ids get id = Ok ids → Forall valid_oid ids.
Proof.
  unfold load_ids. intros H. inv_ok. destruct x as [|[]]; try done. inv_ok. by eapply load_chunks_ids_valid.
Qed.

(** The chunks hold the ids, in order. *)
Lemma id_chunks_hexes pre n ids :
  Forall valid_oid pre → Forall valid_oid ids →
  ∃ ll, id_chunks (hexes pre) n ids = hexes <$> ll ∧ mjoin ll = pre ++ ids.
Proof.
  revert pre n. induction ids as [|id ids IH]; intros pre n Hpre Hids; cbn [id_chunks].
  - case_bool_decide as Hp; [|exists [pre]; done].
    exists []. split; [done|]. destruct pre as [|i pre]; [done|].
    apply (f_equal slen) in Hp. by rewrite hexes_slen in Hp.
  - apply Forall_cons in Hids as [Hid Hids].
    assert (hexes pre +:+ oid_to_hex id = hexes (pre ++ [id])) as ->.
    { rewrite hexes_app. cbn [hexes foldr]. by rewrite string_app_nil_r. }
    destruct (cuts id || _).
    + destruct (IH [] 0) as (ll & Hll & Hj); [done..|]. exists ((pre ++ [id]) :: ll). csimpl.
      change EmptyString with (hexes []). rewrite Hll. split; [done|]. cbn [mjoin list_join]. rewrite Hj. by rewrite -app_assoc.
    + destruct (IH (pre ++ [id]) (S n)) as (ll & Hll & Hj); [by apply Forall_app; repeat constructor|done|].
      exists ll. split; [done|]. by rewrite Hj -app_assoc.
Qed.

(** ** What a store's trees are *)

(** Fuel for any tree of [m]. *)
Definition room (m : gmap ObjectId Object) : nat := size m + 2.

Section views.
Context `{CH : ContentHash, RJ : ReminderJson, SD : ControlSerde}.
Implicit Types m : gmap ObjectId Object.

(** A load that finds the same in a larger store. *)
Definition lasting {A} (load : nat → ObjectReads → ObjectId → CE A) : Prop :=
  ∀ m m' id x, m ⊆ m' → load (room m) (reads_of m) id = Ok x → load (room m') (reads_of m') id = Ok x.

Lemma control_load_lasting : lasting (λ _, control_load).
Proof.
  intros m m' id o Hm. unfold control_load, reads_of. simpl. rewrite !ok_or_ok. intros. by eapply lookup_weaken.
Qed.

Lemma load_then_lasting {A B} (load : nat → ObjectReads → ObjectId → CE A) (k : ObjectId → A → CE B) :
  lasting load → lasting (λ f get id, load f get id ≫= k id).
Proof. intros Hl m m' id y Hm H. inv_ok. by rewrite (Hl _ _ _ _ Hm H0). Qed.

Lemma load_map_lasting : lasting (λ _, load_map).
Proof. exact (load_then_lasting _ (λ id o, match o with ONode (NMap l) => Ok l | _ => _ end) control_load_lasting). Qed.

Lemma load_string_lasting : lasting (λ _, load_string).
Proof. exact (load_then_lasting _ (λ id o, match o with OAtom (AString s) => Ok s | _ => _ end) control_load_lasting). Qed.

Lemma load_time_lasting : lasting (λ _, load_time).
Proof. exact (load_then_lasting _ (λ _ s, map_err malformed (parse_rfc3339 s)) load_string_lasting). Qed.

Lemma load_json_lasting {A} (from : Json → result string A) : lasting (λ f get, load_json f get from).
Proof.
  intros m m' id x Hm H. unfold load_json in *. inv_ok. rewrite (control_load_lasting _ _ _ _ Hm H0) /=.
  rewrite tree_to_json_reads in H1; [|unfold room; lia].
  rewrite tree_to_json_reads; [|unfold room; lia].
  rewrite (to_json_mono _ _ _ (room m') _ _ Hm _ H1) /=; [by rewrite H|].
  apply map_subseteq_size in Hm. unfold room. lia.
Qed.

Lemma load_ids_lasting : lasting (λ _, load_ids).
Proof.
  intros m m' id ids Hm H. unfold load_ids in *. inv_ok. rewrite (control_load_lasting _ _ _ _ Hm H0) /=.
  destruct x as [|[|l|]]; try done. rewrite batch_get_reads /= in H. rewrite batch_get_reads /=.
  clear H0 id. revert ids H. induction l as [|i l IH]; intros ids; [done|]; csimpl.
  destruct (m !! i) as [[[]|]|] eqn:Hi; try done. rewrite (lookup_weaken _ _ _ _ Hi Hm).
  destruct (negb _); [done|]. intros H. inv_ok. subst. rewrite H0 /=. by rewrite (IH _ H1).
Qed.

Lemma load_reminder_lasting : lasting load_reminder.
Proof.
  intros m m' id e Hm H. unfold load_reminder in *. inv_ok. rewrite (load_map_lasting _ _ _ _ Hm H0) /=.
  destruct (x !! "deleted_at"); inv_ok; subst.
  - by rewrite (load_time_lasting _ _ _ _ Hm H1).
  - rewrite H1 /= (load_json_lasting _ _ _ _ _ Hm H2) /= H3 /=. by rewrite (load_time_lasting _ _ _ _ Hm H4).
Qed.

Lemma load_epoch_lasting : lasting load_epoch.
Proof.
  intros m m' id e Hm H. unfold load_epoch in *. inv_ok. rewrite (load_map_lasting _ _ _ _ Hm H0) /=.
  rewrite H1 /= (load_json_lasting _ _ _ _ _ Hm H2) /= H3 /=. by rewrite (load_ids_lasting _ _ _ _ Hm H4) /= H.
Qed.

Lemma load_format_lasting m m' top n :
  m ⊆ m' → load_format (reads_of m) top = Ok n → load_format (reads_of m') top = Ok n.
Proof.
  intros Hm. unfold load_format. destruct (top !! FORMAT) as [i|]; [|done].
  intros (o & Ho & H)%result_bind_ok. by rewrite (control_load_lasting _ _ _ _ Hm Ho) /= H.
Qed.

Lemma load_section_lasting m m' top n l :
  m ⊆ m' → load_section (reads_of m) top n = Ok l → load_section (reads_of m') top n = Ok l.
Proof.
  intros Hm. unfold load_section. intros (i & Hi & H)%result_bind_ok.
  rewrite Hi /=. exact (load_map_lasting _ _ _ _ Hm H).
Qed.

Lemma load_sections_lasting : lasting (λ _, load_sections).
Proof.
  intros m m' id sec Hm H. unfold load_sections in *.
  apply result_bind_ok in H as (top & Ht & H). rewrite (load_map_lasting _ _ _ _ Hm Ht) /=.
  apply result_bind_ok in H as (f & Hf & H). rewrite (load_format_lasting _ _ _ _ Hm Hf) /=.
  destruct (negb _); [done|].
  apply result_bind_ok in H as (l1 & H1 & H). rewrite (load_section_lasting _ _ _ _ _ Hm H1) /=.
  apply result_bind_ok in H as (l2 & H2 & H). rewrite (load_section_lasting _ _ _ _ _ Hm H2) /=.
  apply result_bind_ok in H as (l3 & H3 & H). rewrite (load_section_lasting _ _ _ _ _ Hm H3) /=.
  apply result_bind_ok in H as (l4 & H4 & H). by rewrite (load_section_lasting _ _ _ _ _ Hm H4) /=.
Qed.

Definition taint_at m (id : ObjectId) : option Taint := ok (load_taint (room m) (reads_of m) id).
Definition entry_at m (id : ObjectId) : option ReminderEntry := ok (load_reminder (room m) (reads_of m) id).
Definition epoch_at m (id : ObjectId) : option Epoch := ok (load_epoch (room m) (reads_of m) id).
Definition members_at m (id : ObjectId) : option (gset ObjectId) := list_to_set <$> ok (load_ids (reads_of m) id).
Definition sections_at m (id : ObjectId) : option Sections := ok (load_sections (reads_of m) id).

(** ** What merging comes to *)

(** A tree of a section that can be read. *)
Definition decodes m (n : SectionName) (t : ObjectId) : Prop :=
  match n with
  | STaints => is_Some (taint_at m t)
  | SReminders => is_Some (entry_at m t)
  | SEpochs => is_Some (epoch_at m t)
  | SMembers => is_Some (members_at m t)
  end.

(** The tree of a set of members, and the members of all of some trees. *)
Definition members_tree (X : gset ObjectId) : ObjectId := oid_of (id_list (sorted_ids X)).
Definition all_members m (T : gset ObjectId) : gset ObjectId := set_bind (λ t, default ∅ (members_at m t)) T.

Definition taint_key m (t : ObjectId) : option TaintRank := taint_rank <$> taint_at m t.
Definition entry_key m (t : ObjectId) : option ReminderRank := reminder_rank <$> entry_at m t.
Definition epoch_key m (t : ObjectId) : option EpochRank := epoch_rank <$> epoch_at m t.

(** [w] is what merging the trees [T] of one record comes to: the best of
    them; of id lists, the list of all their ids, or the only one there is. *)
Definition settles m (n : SectionName) (T : gset ObjectId) (w : ObjectId) : Prop :=
  match n with
  | STaints => best cmp_taint (taint_key m) T w
  | SReminders => best cmp_reminder (entry_key m) T w
  | SEpochs => best cmp_epoch (epoch_key m) T w
  | SMembers => members_at m w = Some (all_members m T) ∧
      (T = {[ w ]} ∨ w = members_tree (all_members m T) ∧ 2 ≤ size T)
  end.
Definition settled m n (T : gset ObjectId) (w : ObjectId) : Prop :=
  (∀ t, t ∈ T → decodes m n t) ∧ settles m n T w.

Lemma ok_lasting {A} (load : nat → ObjectReads → ObjectId → CE A) m m' t x :
  lasting load → m ⊆ m' → ok (load (room m) (reads_of m) t) = Some x → ok (load (room m') (reads_of m') t) = Some x.
Proof.
  intros Hl Hm. destruct (load (room m) _ t) as [y|] eqn:E; [|done]. intros [= <-]. by rewrite (Hl _ _ _ _ Hm E).
Qed.

Lemma taint_at_mono m m' t x : m ⊆ m' → taint_at m t = Some x → taint_at m' t = Some x.
Proof. apply (ok_lasting load_taint), load_json_lasting. Qed.
Lemma entry_at_mono m m' t x : m ⊆ m' → entry_at m t = Some x → entry_at m' t = Some x.
Proof. apply ok_lasting, load_reminder_lasting. Qed.
Lemma epoch_at_mono m m' t x : m ⊆ m' → epoch_at m t = Some x → epoch_at m' t = Some x.
Proof. apply ok_lasting, load_epoch_lasting. Qed.
Lemma members_at_mono m m' t x : m ⊆ m' → members_at m t = Some x → members_at m' t = Some x.
Proof.
  intros Hm. unfold members_at. intros (l & Hl & ->)%fmap_Some.
  by rewrite (ok_lasting (λ _, load_ids) _ m' _ _ load_ids_lasting Hm Hl).
Qed.
Lemma sections_at_mono m m' t x : m ⊆ m' → sections_at m t = Some x → sections_at m' t = Some x.
Proof. apply (ok_lasting (λ _, load_sections)), load_sections_lasting. Qed.

Lemma decodes_mono m m' n t : m ⊆ m' → decodes m n t → decodes m' n t.
Proof.
  intros Hm. destruct n; intros [x Hx]; exists x;
    [by eapply epoch_at_mono|by eapply members_at_mono|by eapply entry_at_mono|by eapply taint_at_mono].
Qed.

Lemma key_mono {A K} (look look' : ObjectId → option A) (rank : A → K) (T : gset ObjectId) :
  (∀ t, t ∈ T → is_Some (look t)) → (∀ t x, look t = Some x → look' t = Some x) →
  ∀ t, t ∈ T → rank <$> look' t = rank <$> look t.
Proof. intros HT Hm t Ht. destruct (HT t Ht) as [x Hx]. by rewrite Hx (Hm _ _ Hx). Qed.

Lemma all_members_mono m m' T : m ⊆ m' → (∀ t, t ∈ T → decodes m SMembers t) → all_members m' T = all_members m T.
Proof.
  intros Hm HT. apply set_eq. intros x. unfold all_members. rewrite !elem_of_set_bind.
  split; intros (t & Ht & Hx); exists t; (split; [done|]); destruct (HT t Ht) as [X HX];
    rewrite ?HX ?(members_at_mono _ _ _ _ Hm HX) in Hx; by rewrite ?HX ?(members_at_mono _ _ _ _ Hm HX).
Qed.

Lemma settled_mono m m' n T w : m ⊆ m' → settled m n T w → settled m' n T w.
Proof.
  intros Hm [HT Hs]. split; [by intros t Ht; eapply decodes_mono, HT|]. destruct n; cbn [settles decodes] in *.
  - eapply best_ext, Hs. by apply key_mono; [|intros; by eapply epoch_at_mono].
  - rewrite (all_members_mono m) //. destruct Hs as [Hw Hs]. split; [by eapply members_at_mono|done].
  - eapply best_ext, Hs. by apply key_mono; [|intros; by eapply entry_at_mono].
  - eapply best_ext, Hs. by apply key_mono; [|intros; by eapply taint_at_mono].
Qed.

Lemma settled_unique m n T w w' : settled m n T w → settled m n T w' → w = w'.
Proof.
  intros [_ H1] [_ H2]. destruct n; cbn [settles decodes] in *; try exact (best_unique _ _ _ _ _ H1 H2).
  destruct H1 as [_ [->|[-> Hs]]], H2 as [_ [HT|[-> Hs']]].
  - by apply (inj singleton) in HT.
  - rewrite size_singleton in Hs'. lia.
  - rewrite HT size_singleton in Hs. lia.
  - done.
Qed.

Lemma settled_decodes m n T w : settled m n T w → decodes m n w.
Proof.
  intros [HT Hs]. destruct n; cbn [settles decodes] in *; try apply HT, Hs. destruct Hs as [Hs _]. by eexists.
Qed.

Lemma settled_nonempty m n T w : settled m n T w → T ≠ ∅.
Proof.
  intros [_ Hs] ->. destruct n; cbn [settles decodes] in *; try (destruct Hs; set_solver).
  destruct Hs as [_ [?|[_ Hs]]]; [set_solver|]. rewrite size_empty in Hs. lia.
Qed.

Lemma settled_single m n t : decodes m n t → settled m n {[ t ]} t.
Proof.
  intros Ht. split; [by intros ? ->%elem_of_singleton|].
  destruct n; cbn [settles decodes] in *; try exact (best_single _ _ t).
  destruct Ht as [X HX]. split; [|left; done]. rewrite /all_members set_bind_singleton_L HX. done.
Qed.

Lemma all_members_union m T1 T2 : all_members m (T1 ∪ T2) = all_members m T1 ∪ all_members m T2.
Proof. apply set_eq. intros x. unfold all_members. rewrite elem_of_union !elem_of_set_bind. set_solver. Qed.

(** Of two sides that agree there is nothing to choose. *)
Lemma settled_same m n T1 T2 w : settled m n T1 w → settled m n T2 w → settled m n (T1 ∪ T2) w.
Proof.
  intros [H1 S1] [H2 S2]. split; [set_solver|]. destruct n; cbn [settles decodes] in *.
  1,3,4: exact (best_same _ _ _ _ _ S1 S2).
  rewrite all_members_union. destruct S1 as [E1 C1], S2 as [E2 C2].
  assert (all_members m T1 = all_members m T2) as HX by congruence. rewrite -HX union_idemp_L.
  split; [done|]. destruct C1 as [->|[-> C1]].
  - destruct C2 as [->|[-> C2]]; [left; by rewrite union_idemp_L|]. right. rewrite HX. split; [done|].
    etrans; [exact C2|]. apply subseteq_size. set_solver.
  - right. split; [done|]. etrans; [exact C1|]. apply subseteq_size. set_solver.
Qed.

(** ** Runs *)

Context `{CF : !CollisionFree}.

(** The store only grew, and is still addressed. *)
Definition later (s s' : MemoryStorage) : Prop := addressed (objects s') ∧ objects s ⊆ objects s'.

Lemma later_refl s : addressed (objects s) → later s s.
Proof. by split. Qed.

Lemma later_trans s1 s2 s3 : later s1 s2 → later s2 s3 → later s1 s3.
Proof. intros [_ H1] [H2 H3]. split; [done|]. by trans (objects s2). Qed.

Lemma put_control_ok o s :
  addressed (objects s) → finite o →
  ∃ s', put_control o s = (Ok (oid_of o), s') ∧ later s s' ∧ objects s' !! oid_of o = Some o.
Proof.
  intros Hs Ho. destruct (put_total o s) as [s' Hput]. exists s'.
  destruct (put_object_law _ _ _ _ Hput) as [_ Hc]. destruct (addressed_put _ _ Hs Ho) as (H1 & H2 & H3).
  split_and!.
  - unfold put_control, map_err_st. by rewrite Hput.
  - unfold later. change (objects s') with (contents s'). rewrite Hc. by split.
  - change (objects s') with (contents s'). by rewrite Hc.
Qed.

Lemma from_store_ok {A} (load : nat → ObjectReads → ObjectId → CE A) id x s :
  ok (load (room (objects s)) (reads_of (objects s)) id) = Some x → from_store load id s = (Ok x, s).
Proof.
  unfold from_store, reading. change (mem_get_object s) with (reads_of (objects s)).
  change (tree_room s) with (room (objects s)). destruct (load _ _ _); [by intros [= ->]|done].
Qed.

(** *** Members *)

Lemma members_at_valid m t X x : members_at m t = Some X → x ∈ X → valid_oid x.
Proof.
  unfold members_at. intros (l & Hl & ->)%fmap_Some Hx%elem_of_list_to_set.
  destruct (load_ids _ _) as [l'|] eqn:E; [|done]. injection Hl as ->.
  apply load_ids_valid in E. by apply (proj1 (Forall_forall _ _) E).
Qed.

Lemma members_at_ids m t X :
  members_at m t = Some X → ∃ l, ok (load_ids (reads_of m) t) = Some l ∧ X = list_to_set l.
Proof. unfold members_at. by intros (l & Hl & ->)%fmap_Some; exists l. Qed.

Lemma elem_of_sorted_ids (X : gset ObjectId) x : x ∈ sorted_ids X ↔ x ∈ X.
Proof. unfold sorted_ids. by rewrite merge_sort_Permutation elem_of_elements. Qed.

#[local] Arguments chunk_ids : simpl never.

(** A stored list of ids reads back. *)
Lemma load_ids_back m ids :
  Forall valid_oid ids → held m (id_list_objects ids ++ [id_list ids]) →
  load_ids (reads_of m) (oid_of (id_list ids)) = Ok ids.
Proof.
  intros Hids Hm. unfold load_ids, control_load. unfold reads_of at 1. simpl.
  rewrite (Hm (id_list ids)); [|apply elem_of_app; right; by left]. simpl.
  rewrite batch_get_reads /=.
  destruct (id_chunks_hexes [] 0 ids) as (ll & Hll & Hj); [done..|]. simpl in Hj.
  assert (id_list_objects ids = (λ l, mk_string (hexes l)) <$> ll) as Ho.
  { unfold id_list_objects. change EmptyString with (hexes []). rewrite Hll. by rewrite -list_fmap_compose. }
  rewrite Ho. rewrite Ho in Hm. rewrite -{1}Hj.
  assert (Forall (Forall valid_oid) ll) as Hv.
  { apply Forall_forall. intros l Hl. apply Forall_forall. intros i Hi.
    apply (proj1 (Forall_forall _ _) Hids). rewrite -Hj. apply list_elem_of_join. by exists l. }
  clear Hll Hj Ho Hids. induction Hv as [|l ll Hl Hv IH]; [done|]. csimpl.
  rewrite (Hm (mk_string (hexes l))); [|set_solver]. simpl.
  rewrite hexes_slen //. rewrite (N.mul_comm 64) N.Div0.mod_mul /=.
  rewrite chunk_ids_back //=; [|].
  - rewrite IH; [done|]. intros x Hx. apply Hm. csimpl. by right.
  - pose proof (hexes_slen l Hl) as Hs. unfold slen in Hs. lia.
Qed.

Lemma put_ids_run X s :
  addressed (objects s) → (∀ x, x ∈ X → valid_oid x) →
  ∃ s', put_ids (sorted_ids X) s = (Ok (members_tree X), s') ∧ later s s' ∧
    load_ids (reads_of (objects s')) (members_tree X) = Ok (sorted_ids X).
Proof.
  intros Hs HX. set (objs := id_list_objects (sorted_ids X) ++ [id_list (sorted_ids X)]).
  destruct (batch_put_total objs s) as (ids & s' & Hrun).
  assert (Forall finite objs) as Hf.
  { unfold objs, id_list_objects. apply Forall_app. split; [|by repeat constructor]. apply Forall_fmap.
    by apply Forall_forall. }
  change (addressed (contents s)) in Hs.
  destruct (batch_put_ok objs s s' ids Hs Hf Hrun) as ([Ha Hsub] & Hh & _).
  exists s'. split_and!.
  - unfold put_ids. fold objs. unfold mbind, stateful_bind, map_err_st. by rewrite Hrun.
  - by split.
  - apply load_ids_back; [|done]. apply Forall_forall. intros x Hx%elem_of_sorted_ids. by apply HX.
Qed.

Lemma put_ids_ok X s :
  addressed (objects s) → (∀ x, x ∈ X → valid_oid x) →
  ∃ s', put_ids (sorted_ids X) s = (Ok (members_tree X), s') ∧ later s s' ∧
    members_at (objects s') (members_tree X) = Some X.
Proof.
  intros Hs HX. destruct (put_ids_run X s Hs HX) as (s' & Hrun & Hl & Hload). exists s'. split_and!; [done..|].
  unfold members_at. rewrite Hload /=. f_equal. apply set_eq. intros x.
  by rewrite elem_of_list_to_set elem_of_sorted_ids.
Qed.

(** *** One record *)

Lemma size_two (T : gset ObjectId) x y : x ∈ T → y ∈ T → x ≠ y → 2 ≤ size T.
Proof.
  intros Hx Hy Hn. assert ({[ x; y ]} ⊆ T) as Hs by set_solver. apply subseteq_size in Hs.
  rewrite size_union ?size_singleton in Hs; [lia|set_solver].
Qed.

(** The conflict between two versions of an epoch. *)
Definition clash m (n : SectionName) (id : string) (a b : ObjectId) : list EpochConflict :=
  match n, epoch_at m a, epoch_at m b with
  | SEpochs, Some o, Some t =>
      seal_conflict id o t (bool_decide ((pick cmp_epoch (a, epoch_rank o) (b, epoch_rank t)).1 = a))
  | _, _, _ => []
  end.

Lemma clash_mono m m' n id a b :
  m ⊆ m' → decodes m n a → decodes m n b → clash m' n id a b = clash m n id a b.
Proof.
  intros Hm. destruct n; try done. intros [x Hx] [y Hy]. unfold clash.
  by rewrite Hx Hy (epoch_at_mono _ _ _ _ Hm Hx) (epoch_at_mono _ _ _ _ Hm Hy).
Qed.

Lemma merge_record_ok n id T1 T2 a b s :
  addressed (objects s) → settled (objects s) n T1 a → settled (objects s) n T2 b → a ≠ b →
  ∃ s' w, merge_record n id a b s = (Ok (w, clash (objects s) n id a b), s') ∧ later s s' ∧
    settled (objects s') n (T1 ∪ T2) w.
Proof.
  intros Hs H1 H2 Hab. pose proof (settled_decodes _ _ _ _ H1) as Da. pose proof (settled_decodes _ _ _ _ H2) as Db.
  destruct H1 as [D1 S1], H2 as [D2 S2].
  assert (∀ t, t ∈ T1 ∪ T2 → decodes (objects s) n t) as D by set_solver.
  destruct n; cbn [decodes settles merge_record] in *; destruct Da as [x Hx], Db as [y Hy]; unfold clash.
  - exists s. eexists. split_and!; [|by apply later_refl|split; [done|]].
    + rewrite (stateful_seq _ _ _ _ _ (from_store_ok _ _ _ _ Hx)) (stateful_seq _ _ _ _ _ (from_store_ok _ _ _ _ Hy)).
      by rewrite Hx Hy.
    + apply pick_best; [apply _|by rewrite /epoch_key Hx|by rewrite /epoch_key Hy|done..].
  - destruct S1 as [E1 C1], S2 as [E2 C2].
    destruct (members_at_ids _ _ _ E1) as (lx & Hlx & Ex), (members_at_ids _ _ _ E2) as (ly & Hly & Ey).
    assert (∀ t, t ∈ (list_to_set lx ∪ list_to_set ly : gset ObjectId) → valid_oid t) as Hv.
    { rewrite -Ex -Ey. intros t [Ht|Ht]%elem_of_union; [exact (members_at_valid _ _ _ _ E1 Ht)|exact (members_at_valid _ _ _ _ E2 Ht)]. }
    destruct (put_ids_ok _ s Hs Hv) as (s' & Hput & Hl & Hm). exists s'. eexists. split_and!; [|done|].
    + unfold ids_from_store.
      rewrite (stateful_seq _ _ _ _ _ (from_store_ok (λ _, load_ids) _ _ _ Hlx)).
      rewrite (stateful_seq _ _ _ _ _ (from_store_ok (λ _, load_ids) _ _ _ Hly)).
      by rewrite (stateful_seq _ _ _ _ _ Hput).
    + destruct Hl as [_ Hsub]. split; [intros t Ht; apply (decodes_mono _ _ SMembers _ Hsub), D, Ht|]. cbn [settles].
      rewrite (all_members_mono (objects s)) // all_members_union Ex Ey. split; [done|]. right. split; [done|].
      destruct C1 as [->|[_ C1]]; [destruct C2 as [->|[_ C2]]|].
      * apply (size_two _ a b); set_solver.
      * etrans; [exact C2|]. apply subseteq_size. set_solver.
      * etrans; [exact C1|]. apply subseteq_size. set_solver.
  - exists s. eexists. split_and!; [|by apply later_refl|split; [done|]].
    + rewrite (stateful_seq _ _ _ _ _ (from_store_ok _ _ _ _ Hx)) (stateful_seq _ _ _ _ _ (from_store_ok _ _ _ _ Hy)). done.
    + apply pick_best; [apply _|by rewrite /entry_key Hx|by rewrite /entry_key Hy|done..].
  - exists s. eexists. split_and!; [|by apply later_refl|split; [done|]].
    + rewrite (stateful_seq _ _ _ _ _ (from_store_ok load_taint _ _ _ Hx)).
      rewrite (stateful_seq _ _ _ _ _ (from_store_ok load_taint _ _ _ Hy)). done.
    + apply pick_best; [apply _|by rewrite /taint_key Hx|by rewrite /taint_key Hy|done..].
Qed.

(** *** All the records of a section *)

(** What merging reports of a section. *)
Definition clashes m n (theirs : list (string * ObjectId)) (ours : gmap string ObjectId) : list EpochConflict :=
  mjoin ((λ kb, match ours !! kb.1 with
    | Some a => if decide (a = kb.2) then [] else clash m n kb.1 a kb.2
    | None => []
    end) <$> theirs).

Lemma clashes_ext m m' n theirs ours ours' :
  m ⊆ m' → (∀ k b, (k, b) ∈ theirs → ours' !! k = ours !! k) →
  (∀ k a b, (k, b) ∈ theirs → ours !! k = Some a → decodes m n a ∧ decodes m n b) →
  clashes m' n theirs ours' = clashes m n theirs ours.
Proof.
  intros Hm. unfold clashes. induction theirs as [|[k b] theirs IH]; intros Ho Hd; [done|]. csimpl.
  rewrite IH; [|intros; eapply Ho; by right|intros; eapply Hd; [by right|done]]. f_equal.
  rewrite (Ho k b); [|by left]. destruct (ours !! k) as [a|] eqn:Ha; [|done]. case_decide; [done|].
  destruct (Hd k a b) as [? ?]; [by left|done|]. by apply clash_mono.
Qed.

(** Where the records of two sides end. *)
Definition combined m n (T1 T2 : string → gset ObjectId) (a b r : gmap string ObjectId) (k : string) : Prop :=
  match b !! k, a !! k with
  | None, o => r !! k = o
  | Some t, None => r !! k = Some t
  | Some _, Some _ => ∃ w, r !! k = Some w ∧ settled m n (T1 k ∪ T2 k) w
  end.

Lemma merge_records_ok n (T1 T2 : string → gset ObjectId) theirs ours cs s :
  addressed (objects s) → NoDup theirs.*1 →
  (∀ k b, (k, b) ∈ theirs → settled (objects s) n (T2 k) b) →
  (∀ k a b, (k, b) ∈ theirs → ours !! k = Some a → settled (objects s) n (T1 k) a) →
  ∃ s' r, merge_records n theirs ours cs s = (Ok (r, cs ++ clashes (objects s) n theirs ours), s') ∧ later s s' ∧
    ∀ k, combined (objects s') n T1 T2 ours (list_to_map theirs) r k.
Proof.
  revert ours cs s. induction theirs as [|[k b] theirs IH]; intros ours cs s Hs Hn H2 H1.
  { exists s, ours. split_and!; [by rewrite app_nil_r|by apply later_refl|done]. }
  csimpl in Hn. apply NoDup_cons in Hn as [Hk Hn].
  assert (list_to_map theirs !! k = (None : option ObjectId)) as HkN by by apply not_elem_of_list_to_map.
  assert (settled (objects s) n (T2 k) b) as Hb by (apply H2; by left).
  assert (∀ ours' cs1 s1, later s s1 → (∀ k', k' ≠ k → ours' !! k' = ours !! k') →
    ∃ s' r, merge_records n theirs ours' cs1 s1 = (Ok (r, cs1 ++ clashes (objects s) n theirs ours), s') ∧
      later s s' ∧ objects s1 ⊆ objects s' ∧ r !! k = ours' !! k ∧
      ∀ k', k' ≠ k → combined (objects s') n T1 T2 ours (<[k := b]> (list_to_map theirs)) r k') as Hrest.
  { intros ours' cs1 s1 Hl1 Ho.
    assert (∀ k' b', (k', b') ∈ theirs → k' ≠ k) as Hne.
    { intros k' b' Hin ->. apply Hk. apply list_elem_of_fmap. by exists (k, b'). }
    destruct (IH ours' cs1 s1) as (s' & r & Hrun & Hl & Hr); [apply Hl1|done|..].
    - intros k' b' Hin. eapply settled_mono; [apply Hl1|]. apply H2. by right.
    - intros k' a' b' Hin Ha'. rewrite Ho in Ha'; [|by eapply Hne]. eapply settled_mono; [apply Hl1|].
      eapply H1; [by right|done].
    - exists s', r. split_and!; [|by eapply later_trans|apply Hl| |].
      + rewrite Hrun. by rewrite (clashes_ext (objects s) _ _ _ ours ours'); [|apply Hl1|
          intros k' b' Hin; apply Ho; by eapply Hne|
          intros k' a' b' Hin Ha'; split; eapply settled_decodes; [eapply H1; [by right|done]|apply H2; by right]].
      + specialize (Hr k). unfold combined in Hr. by rewrite HkN in Hr.
      + intros k' Hk'. specialize (Hr k'). unfold combined in *. rewrite lookup_insert_ne //. by rewrite -(Ho k'). }
  cbn [merge_records list_to_map foldr].
  destruct (ours !! k) as [a|] eqn:Ha; [case_decide as Hab|].
  - destruct (Hrest ours cs s) as (s' & r & Hrun & Hl & Hsub & Hrk & Hr); [by apply later_refl|done|].
    exists s', r. split_and!; [|done|].
    + rewrite Hrun /clashes. csimpl. by rewrite Ha decide_True.
    + intros k'. destruct (decide (k' = k)) as [->|Hk']; [|by apply Hr]. unfold combined.
      rewrite lookup_insert_eq Ha. exists a. split; [congruence|]. subst b.
      apply (settled_mono (objects s)); [apply Hl|]. apply settled_same; [|done]. eapply H1; [by left|done].
  - destruct (merge_record_ok n k (T1 k) (T2 k) a b s) as (s1 & w & Hrun1 & Hl1 & Hw);
      [done|eapply H1; [by left|done]|done|done|].
    destruct (Hrest (<[k := w]> ours) (cs ++ clash (objects s) n k a b) s1) as (s' & r & Hrun & Hl & Hsub & Hrk & Hr);
      [done|intros; by rewrite lookup_insert_ne|].
    exists s', r. split_and!; [|done|].
    + rewrite (stateful_seq _ _ _ _ _ Hrun1) Hrun /clashes. csimpl. by rewrite Ha decide_False // app_assoc.
    + intros k'. destruct (decide (k' = k)) as [->|Hk']; [|by apply Hr]. unfold combined.
      rewrite lookup_insert_eq Ha. exists w. rewrite Hrk lookup_insert_eq. split; [done|]. by eapply settled_mono.
  - destruct (Hrest (<[k := b]> ours) cs s) as (s' & r & Hrun & Hl & Hsub & Hrk & Hr);
      [by apply later_refl|intros; by rewrite lookup_insert_ne|].
    exists s', r. split_and!; [|done|].
    + rewrite Hrun /clashes. csimpl. by rewrite Ha.
    + intros k'. destruct (decide (k' = k)) as [->|Hk']; [|by apply Hr]. unfold combined.
      by rewrite lookup_insert_eq Ha Hrk lookup_insert_eq.
Qed.

(** *** Sections *)

Lemma section_set n n' l a : section n (set_section n' l a) = if decide (n = n') then l else section n a.
Proof. by destruct n, n'. Qed.

Lemma sections_ext a b : (∀ n, section n a = section n b) → a = b.
Proof.
  intros H. destruct a, b. pose proof (H SEpochs) as H1. pose proof (H SMembers) as H2.
  pose proof (H SReminders) as H3. pose proof (H STaints) as H4. simpl in *. by subst.
Qed.

Lemma combined_mono m m' n T1 T2 a b r k : m ⊆ m' → combined m n T1 T2 a b r k → combined m' n T1 T2 a b r k.
Proof.
  intros Hm. unfold combined. destruct (b !! k), (a !! k); try done.
  intros (w & Hw & Hs). exists w. split; [done|]. by eapply settled_mono.
Qed.

Lemma merge_sections_ok (T1 T2 : SectionName → string → gset ObjectId) names a b cs s :
  addressed (objects s) → NoDup names →
  (∀ n k t, n ∈ names → section n a !! k = Some t → settled (objects s) n (T1 n k) t) →
  (∀ n k t, n ∈ names → section n b !! k = Some t → settled (objects s) n (T2 n k) t) →
  ∃ s' r, merge_sections names a b cs s =
      (Ok (r, cs ++ mjoin ((λ n, clashes (objects s) n (entries (section n b)) (section n a)) <$> names)), s') ∧
    later s s' ∧ (∀ n, n ∉ names → section n r = section n a) ∧
    ∀ n k, n ∈ names → combined (objects s') n (T1 n) (T2 n) (section n a) (section n b) (section n r) k.
Proof.
  revert a cs s. induction names as [|n names IH]; intros a cs s Hs Hn H1 H2.
  { exists s, a. split_and!; [by rewrite app_nil_r|by apply later_refl|done|]. intros n k ?%elem_of_nil. done. }
  apply NoDup_cons in Hn as [Hni Hn]. cbn [merge_sections].
  destruct (merge_records_ok n (T1 n) (T2 n) (entries (section n b)) (section n a) cs s) as (s1 & l & Hrun1 & Hl1 & Hc1).
  { done. }
  { apply entries_NoDup. }
  { intros k t Ht%elem_of_entries. apply H2; [by left|done]. }
  { intros k t t' _ Ht. apply H1; [by left|done]. }
  rewrite (stateful_seq _ _ _ _ _ Hrun1).
  assert (∀ n', n' ∈ names → section n' (set_section n l a) = section n' a) as Hsame.
  { intros n' Hn'. rewrite section_set decide_False //. by intros ->. }
  destruct (IH (set_section n l a) (cs ++ clashes (objects s) n (entries (section n b)) (section n a)) s1)
    as (s' & r & Hrun & Hl & Ho & Hc).
  { apply Hl1. }
  { done. }
  { intros n' k t Hn' Ht. rewrite Hsame // in Ht. eapply settled_mono; [apply Hl1|]. apply H1; [by right|done]. }
  { intros n' k t Hn' Ht. eapply settled_mono; [apply Hl1|]. apply H2; [by right|done]. }
  exists s', r. split_and!; [|by eapply later_trans| |].
  - rewrite Hrun. csimpl. rewrite app_assoc. do 4 f_equal. f_equal. apply list_fmap_ext. intros i n' Hn'%list_elem_of_lookup_2.
    rewrite Hsame //. apply clashes_ext; [apply Hl1|done|]. intros k t t' Ht'%elem_of_entries Ht.
    split; eapply settled_decodes; [eapply H1|eapply H2]; try done; by right.
  - intros n' [? ?]%not_elem_of_cons. rewrite Ho // section_set decide_False //.
  - intros n' k [->|Hn']%elem_of_cons.
    + rewrite Ho // section_set decide_True //. rewrite list_to_map_entries in Hc1. eapply combined_mono; [apply Hl|]. apply Hc1.
    + specialize (Hc n' k Hn'). by rewrite Hsame // in Hc.
Qed.

(** The root of a control tree with these sections. *)
Definition root_of (sec : Sections) : ObjectId :=
  oid_of (mk_map (<["taints" := oid_of (mk_map (sec_taints sec))]> (<["reminders" := oid_of (mk_map (sec_reminders sec))]>
    (<["members" := oid_of (mk_map (sec_members sec))]> (<["epochs" := oid_of (mk_map (sec_epochs sec))]>
    (<[FORMAT := oid_of (mk_int CONTROL_FORMAT)]> ∅)))))).

Lemma load_map_at m l : m !! oid_of (mk_map l) = Some (mk_map l) → load_map (reads_of m) (oid_of (mk_map l)) = Ok l.
Proof. intros H. unfold load_map, control_load, reads_of. simpl. by rewrite H. Qed.

Lemma write_sections_ok sec s :
  addressed (objects s) →
  ∃ s', write_sections sec s = (Ok (root_of sec), s') ∧ later s s' ∧ sections_at (objects s') (root_of sec) = Some sec.
Proof.
  intros Hs. unfold write_sections, put_map.
  destruct (put_control_ok (mk_int CONTROL_FORMAT) s) as (s1 & R1 & L1 & H1); [done|done|].
  destruct (put_control_ok (mk_map (sec_epochs sec)) s1) as (s2 & R2 & L2 & H2); [apply L1|done|].
  destruct (put_control_ok (mk_map (sec_members sec)) s2) as (s3 & R3 & L3 & H3); [apply L2|done|].
  destruct (put_control_ok (mk_map (sec_reminders sec)) s3) as (s4 & R4 & L4 & H4); [apply L3|done|].
  destruct (put_control_ok (mk_map (sec_taints sec)) s4) as (s5 & R5 & L5 & H5); [apply L4|done|].
  rewrite (stateful_seq _ _ _ _ _ R1) (stateful_seq _ _ _ _ _ R2) (stateful_seq _ _ _ _ _ R3).
  rewrite (stateful_seq _ _ _ _ _ R4) (stateful_seq _ _ _ _ _ R5). 
  match goal with |- context [mk_map ?top] => destruct (put_control_ok (mk_map top) s5) as (s6 & R6 & L6 & H6) end; [apply L5|done|].
  exists s6. split_and!; [by rewrite R6|repeat (eapply later_trans; [eassumption|]); by apply later_refl, L6|].
  pose proof (lookup_weaken _ _ _ _ H5 (proj2 L6)) as G5.
  pose proof (lookup_weaken _ _ _ _ H4 (proj2 (later_trans _ _ _ L5 L6))) as G4.
  pose proof (lookup_weaken _ _ _ _ H3 (proj2 (later_trans _ _ _ L4 (later_trans _ _ _ L5 L6)))) as G3.
  pose proof (lookup_weaken _ _ _ _ H2 (proj2 (later_trans _ _ _ L3 (later_trans _ _ _ L4 (later_trans _ _ _ L5 L6))))) as G2.
  pose proof (lookup_weaken _ _ _ _ H1 (proj2 (later_trans _ _ _ L2 (later_trans _ _ _ L3 (later_trans _ _ _ L4 (later_trans _ _ _ L5 L6)))))) as G1.
  unfold sections_at, load_sections. unfold root_of. rewrite (load_map_at _ _ H6) /=.
  unfold load_format. simpl_map. unfold control_load, reads_of at 1. rewrite /= G1 /=.
  unfold load_section. simpl_map. simpl. rewrite !load_map_at //=. by destruct sec.
Qed.

(** *** Roots *)

(** A control tree all of which can be read. *)
Definition readable_root m (r : ObjectId) : Prop :=
  ∃ sec, sections_at m r = Some sec ∧ ∀ n k t, section n sec !! k = Some t → decodes m n t.

(** A record's trees in the trees under some roots. *)
Definition trees_in m (R : gset ObjectId) (n : SectionName) (k : string) : gset ObjectId :=
  set_omap (λ r, sec ← sections_at m r; section n sec !! k) R.

(** Sections that hold, of every record, what merging its trees comes to. *)
Definition gathers m (R : gset ObjectId) (sec : Sections) : Prop :=
  ∀ n k, match section n sec !! k with
         | None => trees_in m R n k = ∅
         | Some w => settled m n (trees_in m R n k) w
         end.

(** [r] is what merging the trees under [R] comes to. *)
Definition merges_to m (R : gset ObjectId) (r : ObjectId) : Prop :=
  (∀ r', r' ∈ R → readable_root m r') ∧
  ∃ sec, sections_at m r = Some sec ∧ gathers m R sec ∧ (R = {[ r ]} ∨ r = root_of sec ∧ 2 ≤ size R).

Lemma elem_of_trees_in m R n k t :
  t ∈ trees_in m R n k ↔ ∃ r sec, r ∈ R ∧ sections_at m r = Some sec ∧ section n sec !! k = Some t.
Proof.
  unfold trees_in. rewrite elem_of_set_omap. split.
  - intros (r & Hr & Ht). apply bind_Some in Ht as (sec & ? & ?). by exists r, sec.
  - intros (r & sec & Hr & Hs & Ht). exists r. split; [done|]. by rewrite Hs.
Qed.

Lemma trees_in_union m R1 R2 n k : trees_in m (R1 ∪ R2) n k = trees_in m R1 n k ∪ trees_in m R2 n k.
Proof. apply set_eq. intros t. rewrite elem_of_union !elem_of_trees_in. set_solver. Qed.

Lemma readable_root_mono m m' r : m ⊆ m' → readable_root m r → readable_root m' r.
Proof.
  intros Hm (sec & Hs & Hd). exists sec. split; [by eapply sections_at_mono|].
  intros n k t Ht. by eapply decodes_mono, Hd.
Qed.

Lemma trees_in_mono m m' R n k :
  m ⊆ m' → (∀ r, r ∈ R → readable_root m r) → trees_in m' R n k = trees_in m R n k.
Proof.
  intros Hm HR. apply set_eq. intros t. rewrite !elem_of_trees_in.
  split; intros (r & sec & Hr & Hs & Ht); destruct (HR r Hr) as (sec' & Hs' & _); exists r, sec'; split_and!; try done.
  - rewrite (sections_at_mono _ _ _ _ Hm Hs') in Hs. by injection Hs as ->.
  - by eapply sections_at_mono.
  - rewrite Hs' in Hs. by injection Hs as ->.
Qed.

Lemma merges_to_mono m m' R r : m ⊆ m' → merges_to m R r → merges_to m' R r.
Proof.
  intros Hm (HR & sec & Hs & Hg & Hc). split; [intros r' Hr'; by eapply readable_root_mono, HR|].
  exists sec. split_and!; [by eapply sections_at_mono| |done].
  intros n k. specialize (Hg n k). rewrite (trees_in_mono m) //.
  destruct (section n sec !! k); [|done]. by eapply settled_mono.
Qed.

(** Merging comes to one thing. *)
Lemma merges_to_unique m R r r' : merges_to m R r → merges_to m R r' → r = r'.
Proof.
  intros (_ & sec & Hs & Hg & Hc) (_ & sec' & Hs' & Hg' & Hc').
  assert (sec = sec') as <-.
  { apply sections_ext. intros n. apply map_eq. intros k. specialize (Hg n k). specialize (Hg' n k).
    destruct (section n sec !! k) as [w|], (section n sec' !! k) as [w'|]; [|..|done].
    - f_equal. by eapply settled_unique.
    - rewrite Hg' in Hg. by apply settled_nonempty in Hg.
    - rewrite Hg in Hg'. by apply settled_nonempty in Hg'. }
  destruct Hc as [->|[-> Hz]], Hc' as [HT|[-> Hz']].
  - by apply (inj singleton) in HT.
  - rewrite size_singleton in Hz'. lia.
  - rewrite HT size_singleton in Hz. lia.
  - done.
Qed.

Lemma merges_to_single m r : readable_root m r → merges_to m {[ r ]} r.
Proof.
  intros Hr. split; [by intros ? ->%elem_of_singleton|]. destruct Hr as (sec & Hs & Hd).
  exists sec. split_and!; [done| |by left]. intros n k.
  destruct (section n sec !! k) as [t|] eqn:Ht.
  - assert (trees_in m {[ r ]} n k = {[ t ]}) as ->; [|apply settled_single; by eapply Hd].
    apply set_eq. intros u. rewrite elem_of_trees_in. set_unfold. naive_solver.
  - apply set_eq. intros u. rewrite elem_of_trees_in. set_unfold. naive_solver.
Qed.

Lemma gathers_settled m R sec n k t : gathers m R sec → section n sec !! k = Some t → settled m n (trees_in m R n k) t.
Proof. intros Hg Ht. specialize (Hg n k). by rewrite Ht in Hg. Qed.

Lemma gathers_union m R1 R2 a b r :
  gathers m R1 a → gathers m R2 b →
  (∀ n k, combined m n (trees_in m R1 n) (trees_in m R2 n) (section n a) (section n b) (section n r) k) →
  gathers m (R1 ∪ R2) r.
Proof.
  intros Ha Hb Hr n k. specialize (Ha n k). specialize (Hb n k). specialize (Hr n k).
  unfold combined in Hr. rewrite trees_in_union.
  destruct (section n b !! k) as [t|]; [destruct (section n a !! k) as [u|]|].
  - destruct Hr as (w & -> & Hw). done.
  - rewrite Hr Ha left_id_L. done.
  - rewrite Hr Hb right_id_L. done.
Qed.

(** What a merge of two trees reports. *)
Definition conflicts_of m (a b : ObjectId) : list EpochConflict :=
  match sections_at m a, sections_at m b with
  | Some sa, Some sb => clashes m SEpochs (entries (sec_epochs sb)) (sec_epochs sa)
  | _, _ => []
  end.

Lemma clashes_none m n theirs ours : n ≠ SEpochs → clashes m n theirs ours = [].
Proof.
  intros Hn. unfold clashes. induction theirs as [|[k b] theirs IH]; [done|]. csimpl. rewrite IH app_nil_r.
  destruct (ours !! k); [|done]. case_decide; [done|]. by destruct n.
Qed.

Lemma clashes_same m n l : clashes m n (entries l) l = [].
Proof.
  unfold clashes. assert (∀ k b, (k, b) ∈ entries l → l !! k = Some b) as H by (intros k b; apply elem_of_entries).
  induction (entries l) as [|[k b] l' IH]; [done|]. csimpl. rewrite (H k b); [|by left].
  rewrite decide_True //. apply IH. intros; apply H. by right.
Qed.

Lemma control_merge_ok R1 R2 a b s :
  addressed (objects s) → merges_to (objects s) R1 a → merges_to (objects s) R2 b →
  ∃ s' r, control_merge a b s = (Ok {| merged_root := r; merged_conflicts := conflicts_of (objects s) a b |}, s') ∧
    later s s' ∧ merges_to (objects s') (R1 ∪ R2) r ∧
    ∃ sa sb sr, sections_at (objects s) a = Some sa ∧ sections_at (objects s) b = Some sb ∧
      sections_at (objects s') r = Some sr.
Proof.
  intros Hs (HR1 & sa & Ha & Ga & Ca) (HR2 & sb & Hb & Gb & Cb). unfold control_merge.
  case_decide as Hab.
  { subst b. rewrite Ha in Hb. injection Hb as <-. exists s, a. split_and!.
    - unfold conflicts_of. by rewrite Ha clashes_same.
    - by apply later_refl.
    - split; [set_solver|]. exists sa. split_and!; [done| |].
      + eapply gathers_union; [done..|]. intros n k. unfold combined. specialize (Ga n k). specialize (Gb n k).
        destruct (section n sa !! k) as [t|]; [|done]. exists t. split; [done|]. by apply settled_same.
      + destruct Ca as [->|[Ca Hz]]; [destruct Cb as [->|[Cb Hz]]; [left; by rewrite union_idemp_L|]|].
        * right. split; [done|]. etrans; [exact Hz|]. apply subseteq_size. set_solver.
        * right. split; [done|]. etrans; [exact Hz|]. apply subseteq_size. set_solver.
    - by exists sa, sa, sa. }
  unfold sections_from_store.
  rewrite (stateful_seq _ _ _ _ _ (from_store_ok (λ _, load_sections) _ _ _ Ha)).
  rewrite (stateful_seq _ _ _ _ _ (from_store_ok (λ _, load_sections) _ _ _ Hb)).
  destruct (merge_sections_ok (trees_in (objects s) R1) (trees_in (objects s) R2)
    [SEpochs; SMembers; SReminders; STaints] sa sb [] s) as (s1 & sr & Hrun & Hl1 & _ & Hc).
  { done. }
  { repeat constructor; set_solver. }
  { intros n k t _. by apply gathers_settled. }
  { intros n k t _. by apply gathers_settled. }
  rewrite (stateful_seq _ _ _ _ _ Hrun).
  destruct (write_sections_ok sr s1) as (s' & Hw & Hl & Hsr); [apply Hl1|].
  rewrite (stateful_seq _ _ _ _ _ Hw). exists s', (root_of sr). pose proof (later_trans _ _ _ Hl1 Hl) as Hl'. split_and!.
  - cbn [mjoin list_join fmap list_fmap app]. rewrite (clashes_none _ SMembers) // (clashes_none _ SReminders) // (clashes_none _ STaints) // !app_nil_r. unfold conflicts_of. by rewrite Ha Hb.
  - done.
  - split; [intros r [Hr|Hr]%elem_of_union; eapply readable_root_mono; by [apply Hl'|apply HR1|apply HR2]|].
    exists sr. split_and!; [done| |right; split; [done|]].
    + assert (∀ n k, trees_in (objects s') R1 n k = trees_in (objects s) R1 n k) as E1
        by (intros; apply trees_in_mono; [apply Hl'|done]).
      assert (∀ n k, trees_in (objects s') R2 n k = trees_in (objects s) R2 n k) as E2
        by (intros; apply trees_in_mono; [apply Hl'|done]).
      apply (gathers_union _ _ _ sa sb).
      * intros n k. specialize (Ga n k). rewrite E1. destruct (section n sa !! k); [|done]. eapply settled_mono; [apply Hl'|done].
      * intros n k. specialize (Gb n k). rewrite E2. destruct (section n sb !! k); [|done]. eapply settled_mono; [apply Hl'|done].
      * intros n k. assert (n ∈ [SEpochs; SMembers; SReminders; STaints]) as Hn by (destruct n; set_solver).
        specialize (Hc n k Hn). apply (combined_mono _ _ _ _ _ _ _ _ _ (proj2 Hl)) in Hc.
        unfold combined in *. by rewrite E1 E2.
    + destruct Ca as [->|[_ Hz]]; [destruct Cb as [->|[_ Hz]]|].
      * apply (size_two _ a b); set_solver.
      * etrans; [exact Hz|]. apply subseteq_size. set_solver.
      * etrans; [exact Hz|]. apply subseteq_size. set_solver.
  - by exists sa, sb, sr.
Qed.

(** ** Reading *)

Definition answers {A} (f : ObjectId → CM A) (g : ObjectId → option A) (s : MemoryStorage) : Prop :=
  ∀ id x s', f id s = (Ok x, s') ↔ g id = Some x ∧ s' = s.

Lemma from_store_answers {A} (load : nat → ObjectReads → ObjectId → CE A) s :
  answers (from_store load) (λ id, ok (load (room (objects s)) (reads_of (objects s)) id)) s.
Proof.
  intros id x s'. unfold from_store, reading. change (mem_get_object s) with (reads_of (objects s)).
  change (tree_room s) with (room (objects s)). destruct (load _ _ _); simpl; naive_solver.
Qed.

Lemma members_answers s :
  answers (λ tree, ids ← ids_from_store tree; mret (list_to_set ids)) (members_at (objects s)) s.
Proof.
  intros id x s'. unfold ids_from_store. rewrite stateful_bind_ok. unfold members_at. rewrite fmap_Some. split.
  - intros (ids & s1 & [Hi ->]%(from_store_answers (λ _, load_ids)) & [= <- <-]). split; [by exists ids|done].
  - intros [(ids & Hi & ->) ->]. exists ids, s. split; [|done]. by apply (from_store_answers (λ _, load_ids)).
Qed.

Lemma read_records_spec {A} (f : ObjectId → CM A) g s l mm s' :
  answers f g s → NoDup l.*1 →
  read_records f l s = (Ok mm, s') ↔
  s' = s ∧ (∀ k t, (k, t) ∈ l → is_Some (g t)) ∧ ∀ k, mm !! k = (list_to_map l : gmap string ObjectId) !! k ≫= g.
Proof.
  intros Hf. revert mm s'. induction l as [|[k t] l IH]; intros mm s' Hn.
  { split; [intros [= <- <-]; split_and!; [done|by intros ? ? ?%elem_of_nil|done]|].
    intros (-> & _ & Hm). assert (mm = ∅) as ->; [|done]. apply map_eq. intros k. by rewrite Hm !lookup_empty. }
  csimpl in Hn. apply NoDup_cons in Hn as [Hk Hn]. cbn [read_records list_to_map foldr].
  assert (list_to_map l !! k = (None : option ObjectId)) as HkN by by apply not_elem_of_list_to_map.
  rewrite stateful_bind_ok. split.
  - intros (x & s1 & [Hx ->]%Hf & H). apply stateful_bind_ok in H as (m1 & s2 & H & [= <- <-]).
    apply IH in H as (-> & Hd & Hm); [|done]. split_and!; [done| |].
    + intros k' t' [[= -> ->]|Hin]%elem_of_cons; [by eexists|by eapply Hd].
    + intros k'. simpl. destruct (decide (k' = k)) as [->|Hk']; [by rewrite !lookup_insert_eq|].
      rewrite !lookup_insert_ne //.
  - intros (-> & Hd & Hm). destruct (Hd k t) as [x Hx]; [by left|]. exists x, s. split; [by apply Hf|].
    apply stateful_bind_ok. exists (delete k mm), s. split.
    + apply IH; [done|]. split_and!; [done|intros k' t' ?; apply (Hd k'); by right|].
      intros k'. destruct (decide (k' = k)) as [->|Hk']; [by rewrite lookup_delete_eq HkN|].
      rewrite lookup_delete_ne // Hm /=. by rewrite lookup_insert_ne.
    + unfold mret, stateful_ret. f_equal. f_equal. rewrite insert_delete_id //. rewrite Hm /=. by rewrite lookup_insert_eq.
Qed.

Lemma read_entries_spec {A} (f : ObjectId → CM A) g s (l : gmap string ObjectId) mm s' :
  answers f g s →
  read_records f (entries l) s = (Ok mm, s') ↔
  s' = s ∧ (∀ k t, l !! k = Some t → is_Some (g t)) ∧ ∀ k, mm !! k = l !! k ≫= g.
Proof.
  intros Hf. rewrite (read_records_spec f g) //; [|apply entries_NoDup]. rewrite list_to_map_entries.
  by setoid_rewrite elem_of_entries.
Qed.

(** The state under a root. *)
Definition holds_state m (r : ObjectId) (st : ControlState) : Prop :=
  ∃ sec, sections_at m r = Some sec ∧ (∀ n k t, section n sec !! k = Some t → decodes m n t) ∧
    ∀ k, cs_taints st !! k = (sec_taints sec !! k ≫= taint_at m) ∧
      cs_reminders st !! k = (sec_reminders sec !! k ≫= entry_at m) ∧
      cs_epochs st !! k = (sec_epochs sec !! k ≫= epoch_at m) ∧
      cs_members st !! k = (sec_members sec !! k ≫= members_at m).

Lemma read_spec r s st s' : read r s = (Ok st, s') ↔ s' = s ∧ holds_state (objects s) r st.
Proof.
  unfold read. rewrite stateful_bind_ok. split.
  - intros (sec & s0 & [Hs ->]%(from_store_answers (λ _, load_sections)) & H).
    apply stateful_bind_ok in H as (l1 & s1 & H1 & H).
    apply (read_entries_spec _ _ _ _ _ _ (from_store_answers load_taint s)) in H1 as (-> & D1 & M1).
    apply stateful_bind_ok in H as (l2 & s2 & H2 & H).
    apply (read_entries_spec _ _ _ _ _ _ (from_store_answers load_reminder s)) in H2 as (-> & D2 & M2).
    apply stateful_bind_ok in H as (l3 & s3 & H3 & H).
    apply (read_entries_spec _ _ _ _ _ _ (from_store_answers load_epoch s)) in H3 as (-> & D3 & M3).
    apply stateful_bind_ok in H as (l4 & s4 & H4 & [= <- <-]).
    apply (read_entries_spec _ _ _ _ _ _ (members_answers s)) in H4 as (-> & D4 & M4).
    split; [done|]. exists sec. split_and!; [done| |intros k; split_and!; [apply M1|apply M2|apply M3|apply M4]].
    intros []; simpl; [apply D3|apply D4|apply D2|apply D1].
  - intros (-> & sec & Hs & Hd & Hm). exists sec, s. split; [by apply (from_store_answers (λ _, load_sections))|].
    repeat (apply stateful_bind_ok; eexists _, s; split; [eapply read_entries_spec|]).
    + apply (from_store_answers load_taint).
    + split_and!; [done|exact (Hd STaints)|apply Hm].
    + apply (from_store_answers load_reminder).
    + split_and!; [done|exact (Hd SReminders)|apply Hm].
    + apply (from_store_answers load_epoch).
    + split_and!; [done|exact (Hd SEpochs)|apply Hm].
    + apply members_answers.
    + split_and!; [done|exact (Hd SMembers)|apply Hm].
    + by destruct st.
Qed.

Lemma readable_root_read r s : readable_root (objects s) r ↔ ∃ st, read r s = (Ok st, s).
Proof.
  setoid_rewrite read_spec. split.
  - intros (sec & Hs & Hd). exists {| cs_taints := omap (taint_at (objects s)) (sec_taints sec);
      cs_reminders := omap (entry_at (objects s)) (sec_reminders sec);
      cs_epochs := omap (epoch_at (objects s)) (sec_epochs sec);
      cs_members := omap (members_at (objects s)) (sec_members sec) |}.
    split; [done|]. exists sec. split_and!; [done..|]. intros k. simpl. by rewrite !lookup_omap.
  - intros (st & _ & sec & Hs & Hd & _). by exists sec.
Qed.

(** ** What a merge keeps *)

Lemma under_rank {A K} (cmp : K → K → comparison) `{!TotalCmp cmp} (look : ObjectId → option A) (rank : A → K) a b x y :
  under cmp (λ t, rank <$> look t) a b → look a = Some x → look b = Some y → cmp (rank x) (rank y) ≠ Gt.
Proof.
  unfold under. intros H Hx Hy. rewrite Hx Hy /= in H. unfold cmp_pair in H. simpl in H. by destruct (cmp _ _).
Qed.

(** A version of either side. *)
Definition one_of {A} (x y z : A) : Prop := z = x ∨ z = y.

Definition finished (e : ReminderEntry) : Prop :=
  match e with Live r _ => is_terminal (rem_status r) | Deleted _ => True end.
Definition epoch_stage (e : Epoch) : N := (epoch_rank e).1.1.

(** A resolution stays, and the earliest of two. *)
Definition taint_rule (x y z : Taint) : Prop :=
  one_of x y z ∧ ∀ e u, one_of x y e → resolved_at e = Some u → ∃ v, resolved_at z = Some v ∧ (v ≤ u)%Z.
(** A deletion stays, what is finished stays so, and of open versions the last
    edited is kept. *)
Definition entry_rule (x y z : ReminderEntry) : Prop :=
  one_of x y z ∧ ∀ e, one_of x y e →
    (live e = None → live z = None) ∧ (finished e → finished z) ∧
    (∀ r t, e = Live r t → ¬ finished z → ∃ r' t', z = Live r' t' ∧ (t ≤ t')%Z).
(** A status does not go back, and the earliest of two seals stays. *)
Definition epoch_rule (x y z : Epoch) : Prop :=
  one_of x y z ∧ ∀ e, one_of x y e →
    (epoch_stage e ≤ epoch_stage z)%N ∧
    (epoch_status e = epoch_status z → ∀ u v, sealed_at e = Some u → sealed_at z = Some v → (v ≤ u)%Z).
Definition members_rule (x y z : gset ObjectId) : Prop := z = x ∪ y.

Lemma cmp_taint_rule x z u :
  cmp_taint (taint_rank x) (taint_rank z) ≠ Gt → resolved_at x = Some u → ∃ v, resolved_at z = Some v ∧ (v ≤ u)%Z.
Proof.
  unfold taint_rank, cmp_taint, cmp_pair, cmp_rev. simpl. intros H Hx. rewrite Hx in H. simpl in H.
  destruct (resolved_at z) as [v|]; simpl in H; [|done]. exists v. split; [done|].
  destruct (Z.compare_spec v u) as [He|Hl|Hg]; [lia|lia|done].
Qed.

Lemma cmp_reminder_rule x z :
  cmp_reminder (reminder_rank x) (reminder_rank z) ≠ Gt →
  (live x = None → live z = None) ∧ (finished x → finished z) ∧
  (∀ r t, x = Live r t → ¬ finished z → ∃ r' t', z = Live r' t' ∧ (t ≤ t')%Z).
Proof.
  unfold cmp_reminder, cmp_pair. intros H. destruct x as [r t|t], z as [r' t'|t']; simpl in *.
  - split_and!; [done| |].
    + by destruct (is_terminal (rem_status r)), (is_terminal (rem_status r')).
    + intros ? ? [= <- <-] Hf. exists r', t'. split; [done|].
      destruct (is_terminal (rem_status r')); [by destruct Hf|].
      destruct (is_terminal (rem_status r)); [done|]. simpl in H. by apply Z.compare_le_iff.
  - split_and!; [done..|]. intros ? ? _ []. done.
  - by destruct (is_terminal (rem_status r')).
  - done.
Qed.

Lemma cmp_epoch_rule x z :
  cmp_epoch (epoch_rank x) (epoch_rank z) ≠ Gt →
  (epoch_stage x ≤ epoch_stage z)%N ∧
  (epoch_status x = epoch_status z → ∀ u v, sealed_at x = Some u → sealed_at z = Some v → (v ≤ u)%Z).
Proof.
  unfold cmp_epoch, epoch_stage, epoch_rank, cmp_pair, cmp_rev. simpl. intros H. split.
  - apply N.compare_le_iff. intros HG. by rewrite HG in H.
  - intros Hst u v Hu Hv. rewrite Hst N.compare_refl Hu Hv /= in H.
    apply Z.compare_le_iff. intros HG. by rewrite HG in H.
Qed.

(** What the best of two trees holds. *)
Lemma best_rule {A K} (cmp : K → K → comparison) `{!TotalCmp cmp} (look : ObjectId → option A) (rank : A → K)
    (ta tb w : ObjectId) x y :
  best cmp (λ t, rank <$> look t) ({[ ta ]} ∪ {[ tb ]}) w → look ta = Some x → look tb = Some y →
  ∃ z, look w = Some z ∧ one_of x y z ∧ ∀ e, one_of x y e → cmp (rank e) (rank z) ≠ Gt.
Proof.
  intros [Hw Hu] Hx Hy. assert (∃ z, look w = Some z ∧ one_of x y z) as (z & Hz & Ho).
  { unfold one_of. apply elem_of_union in Hw as [Hw|Hw]; apply elem_of_singleton in Hw as ->; eauto. }
  exists z. split_and!; [done..|]. intros e [->| ->].
  - by eapply (under_rank cmp look rank ta w); [apply Hu; set_solver|..].
  - by eapply (under_rank cmp look rank tb w); [apply Hu; set_solver|..].
Qed.

Definition merged_by {A} (rule : A → A → A → Prop) (x y z : gmap string A) : Prop :=
  ∀ k, match x !! k, y !! k with
       | Some a, Some b => ∃ c, z !! k = Some c ∧ rule a b c
       | Some a, None => z !! k = Some a
       | None, o => z !! k = o
       end.

Lemma trees_in_single m r sec n k :
  sections_at m r = Some sec →
  trees_in m {[ r ]} n k = match section n sec !! k with Some t => {[ t ]} | None => ∅ end.
Proof.
  intros Hs. apply set_eq. intros t. rewrite elem_of_trees_in. set_unfold.
  destruct (section n sec !! k) as [u|] eqn:Hu; set_unfold; naive_solver.
Qed.

Lemma merged_section {A} (look : gmap ObjectId Object → ObjectId → option A) (rule : A → A → A → Prop)
    n m m' a b r sa sb sr (x y z : gmap string A) :
  m ⊆ m' → (∀ t v, look m t = Some v → look m' t = Some v) →
  sections_at m a = Some sa → sections_at m b = Some sb → sections_at m' r = Some sr →
  merges_to m' ({[ a ]} ∪ {[ b ]}) r →
  (∀ k t, section n sa !! k = Some t → is_Some (look m t)) → (∀ k t, section n sb !! k = Some t → is_Some (look m t)) →
  (∀ t, is_Some (look m' t) → decodes m' n t) →
  (∀ ta tb w va vb, settled m' n ({[ ta ]} ∪ {[ tb ]}) w → look m' ta = Some va → look m' tb = Some vb →
    ∃ v, look m' w = Some v ∧ rule va vb v) →
  (∀ k, x !! k = section n sa !! k ≫= look m) → (∀ k, y !! k = section n sb !! k ≫= look m) →
  (∀ k, z !! k = section n sr !! k ≫= look m') →
  merged_by rule x y z.
Proof.
  intros Hm Hlook Ha Hb Hr (_ & sr' & Hr' & Hg & _) Da Db Hd Hrule Hx Hy Hz k.
  rewrite Hr in Hr'. injection Hr' as <-. specialize (Hg n k).
  rewrite trees_in_union (trees_in_single _ a sa) ?(trees_in_single _ b sb) in Hg; [|by eapply sections_at_mono..].
  rewrite Hx Hy Hz. specialize (Da k). specialize (Db k).
  destruct (section n sa !! k) as [ta|]; [destruct (Da ta) as [va Hva]; [done|]|];
    (destruct (section n sb !! k) as [tb|]; [destruct (Db tb) as [vb Hvb]; [done|]|]); simpl; rewrite ?Hva ?Hvb.
  - destruct (section n sr !! k) as [w|]; [|set_solver]. simpl. apply (Hrule ta tb w); auto.
  - rewrite right_id_L in Hg. destruct (section n sr !! k) as [w|]; [|set_solver]. simpl.
    assert (w = ta) as ->; [|by apply Hlook]. eapply settled_unique; [done|]. apply settled_single, Hd. eauto.
  - rewrite left_id_L in Hg. destruct (section n sr !! k) as [w|]; [|set_solver]. simpl.
    assert (w = tb) as ->; [|by apply Hlook]. eapply settled_unique; [done|]. apply settled_single, Hd. eauto.
  - rewrite left_id_L in Hg. destruct (section n sr !! k) as [w|]; [|done]. by apply settled_nonempty in Hg.
Qed.

(** What a merge leaves, of the states it is of. *)
Record keeps (x y z : ControlState) : Prop := {
  keeps_taints : merged_by taint_rule (cs_taints x) (cs_taints y) (cs_taints z);
  keeps_reminders : merged_by entry_rule (cs_reminders x) (cs_reminders y) (cs_reminders z);
  keeps_epochs : merged_by epoch_rule (cs_epochs x) (cs_epochs y) (cs_epochs z);
  keeps_members : merged_by members_rule (cs_members x) (cs_members y) (cs_members z);
}.

Lemma holds_keeps m m' a b r x y z :
  m ⊆ m' → merges_to m' ({[ a ]} ∪ {[ b ]}) r →
  holds_state m a x → holds_state m b y → holds_state m' r z → keeps x y z.
Proof.
  intros Hm Hr (sa & Ha & Da & Hx) (sb & Hb & Db & Hy) (sr & Hsr & Dr & Hz). split.
  - apply (merged_section taint_at taint_rule STaints m m' a b r sa sb sr); try done; try (intros k; apply Hx || apply Hy || apply Hz).
    + intros. by eapply taint_at_mono.
    + apply (Da STaints).
    + apply (Db STaints).
    + intros ta tb w va vb [_ Hs] Hva Hvb.
      destruct (best_rule _ (taint_at m') taint_rank _ _ _ _ _ Hs Hva Hvb) as (v & Hv & Ho & Hc).
      exists v. split; [done|]. split; [done|]. intros e u He. by apply cmp_taint_rule, Hc.
  - apply (merged_section entry_at entry_rule SReminders m m' a b r sa sb sr); try done; try (intros k; apply Hx || apply Hy || apply Hz).
    + intros. by eapply entry_at_mono.
    + apply (Da SReminders).
    + apply (Db SReminders).
    + intros ta tb w va vb [_ Hs] Hva Hvb.
      destruct (best_rule _ (entry_at m') reminder_rank _ _ _ _ _ Hs Hva Hvb) as (v & Hv & Ho & Hc).
      exists v. split; [done|]. split; [done|]. intros e He. by apply cmp_reminder_rule, Hc.
  - apply (merged_section epoch_at epoch_rule SEpochs m m' a b r sa sb sr); try done; try (intros k; apply Hx || apply Hy || apply Hz).
    + intros. by eapply epoch_at_mono.
    + apply (Da SEpochs).
    + apply (Db SEpochs).
    + intros ta tb w va vb [_ Hs] Hva Hvb.
      destruct (best_rule _ (epoch_at m') epoch_rank _ _ _ _ _ Hs Hva Hvb) as (v & Hv & Ho & Hc).
      exists v. split; [done|]. split; [done|]. intros e He. by apply cmp_epoch_rule, Hc.
  - apply (merged_section members_at members_rule SMembers m m' a b r sa sb sr); try done; try (intros k; apply Hx || apply Hy || apply Hz).
    + intros. by eapply members_at_mono.
    + apply (Da SMembers).
    + apply (Db SMembers).
    + intros ta tb w va vb [_ [Hs _]] Hva Hvb. exists (va ∪ vb). split; [|done]. rewrite Hs all_members_union.
      unfold all_members. by rewrite !set_bind_singleton_L Hva Hvb.
Qed.

(** ** Conflicts *)

Lemma StronglySorted_filter_keys {A} (R : relation A) (P : A → Prop) `{!∀ x, Decision (P x)} l :
  StronglySorted R l → StronglySorted R (filter P l).
Proof.
  induction 1 as [|x l Hl IH Hx]; [constructor|]. destruct (decide (P x)) as [Hp|Hp].
  - rewrite filter_cons_True //. constructor; [done|]. apply Forall_forall. intros y [_ Hy]%list_elem_of_filter.
    by apply (proj1 (Forall_forall _ _) Hx).
  - by rewrite filter_cons_False.
Qed.

(** A conflict is the same from either side. *)
Lemma clash_sym m id a b : a ≠ b → clash m SEpochs id a b = clash m SEpochs id b a.
Proof.
  intros Hab. unfold clash. destruct (epoch_at m a) as [x|] eqn:Hx, (epoch_at m b) as [y|] eqn:Hy; try done.
  assert (best cmp_epoch (epoch_key m) ({[ a ]} ∪ {[ b ]}) (pick cmp_epoch (a, epoch_rank x) (b, epoch_rank y)).1) as H1
    by (apply pick_best; [apply _|by rewrite /epoch_key Hx|by rewrite /epoch_key Hy|exact (best_single _ _ _)..]).
  assert (best cmp_epoch (epoch_key m) ({[ b ]} ∪ {[ a ]}) (pick cmp_epoch (b, epoch_rank y) (a, epoch_rank x)).1) as H2
    by (apply pick_best; [apply _|by rewrite /epoch_key Hy|by rewrite /epoch_key Hx|exact (best_single _ _ _)..]).
  rewrite union_comm_L in H2. rewrite (best_unique _ _ _ _ _ H2 H1). destruct H1 as [Hw _].
  revert Hw. generalize (pick cmp_epoch (a, epoch_rank x) (b, epoch_rank y)).1 as w. intros w Hw. unfold seal_conflict.
  destruct (seal_hash x) as [hx|], (seal_hash y) as [hy|]; try done.
  destruct (decide (hx = hy)) as [->|Hn]; [by rewrite decide_True|]. rewrite (decide_False (P := hy = hx)); [|by intros ->].
  apply elem_of_union in Hw as [Hw|Hw]; apply elem_of_singleton in Hw as ->.
  - rewrite bool_decide_true // bool_decide_false //.
  - rewrite bool_decide_false; [|by intros ->]. rewrite bool_decide_true //.
Qed.

(** The conflicts, by the keys both sides have. *)
Lemma clashes_common m n (A B : gmap string ObjectId) (f : string → list EpochConflict) :
  (∀ k a b, A !! k = Some a → B !! k = Some b → f k = if decide (a = b) then [] else clash m n k a b) →
  clashes m n (entries B) A = mjoin (f <$> filter (λ k, is_Some (A !! k)) (sorted_keys B)).
Proof.
  intros Hf. rewrite -(entries_keys B). unfold clashes.
  assert (∀ k b, (k, b) ∈ entries B → B !! k = Some b) as HB by (intros k b; apply elem_of_entries).
  induction (entries B) as [|[k b] l IH]; [done|]. csimpl. rewrite IH; [|intros; apply HB; by right].
  destruct (A !! k) as [a|] eqn:Ha.
  - rewrite filter_cons_True; [|by rewrite Ha]. csimpl. rewrite (Hf k a b) //. apply HB. by left.
  - rewrite filter_cons_False; [done|]. rewrite Ha. by intros [? ?].
Qed.

Lemma clashes_sym m (A B : gmap string ObjectId) :
  clashes m SEpochs (entries B) A = clashes m SEpochs (entries A) B.
Proof.
  set (f := λ k, match A !! k, B !! k with
    | Some a, Some b => if decide (a = b) then [] else clash m SEpochs k a b | _, _ => [] end).
  rewrite (clashes_common m SEpochs A B f); [|by intros k a b Ha Hb; rewrite /f Ha Hb].
  rewrite (clashes_common m SEpochs B A f).
  - f_equal. f_equal. apply sorted_list_unique.
    1,2: apply NoDup_filter, sorted_keys_NoDup.
    1,2: apply StronglySorted_filter_keys, sorted_keys_Sorted.
    intros k. rewrite !list_elem_of_filter !elem_of_sorted_keys. tauto.
  - intros k b a Hb Ha. rewrite /f Ha Hb. case_decide as Hab.
    + subst. by rewrite decide_True.
    + rewrite decide_False; [|by intros ->]. by apply clash_sym.
Qed.

Lemma conflicts_of_sym m a b : conflicts_of m a b = conflicts_of m b a.
Proof. unfold conflicts_of. destruct (sections_at m a), (sections_at m b); try done. apply clashes_sym. Qed.

Lemma conflicts_of_mono m m' a b :
  m ⊆ m' → readable_root m a → readable_root m b → conflicts_of m' a b = conflicts_of m a b.
Proof.
  intros Hm (sa & Ha & Da) (sb & Hb & Db). unfold conflicts_of.
  rewrite Ha Hb (sections_at_mono _ _ _ _ Hm Ha) (sections_at_mono _ _ _ _ Hm Hb).
  apply clashes_ext; [done..|]. intros k t u Hu%elem_of_entries Ht. by split; [eapply (Da SEpochs)|eapply (Db SEpochs)].
Qed.

(** The seals that disagree. *)
Definition seals_clash (x y z : gmap string Epoch) (c : EpochConflict) : Prop :=
  ∃ id e f g h1 h2, x !! id = Some e ∧ y !! id = Some f ∧ z !! id = Some g ∧
    seal_hash e = Some h1 ∧ seal_hash f = Some h2 ∧ h1 ≠ h2 ∧ one_of e f g ∧
    c = {| conflict_epoch := id; kept_seal := seal_hash g;
           dropped_seal := if decide (seal_hash g = Some h1) then Some h2 else Some h1 |}.

Lemma conflicts_of_spec m m' a b r x y z c :
  m ⊆ m' → merges_to m' ({[ a ]} ∪ {[ b ]}) r →
  holds_state m a x → holds_state m b y → holds_state m' r z →
  c ∈ conflicts_of m a b ↔ seals_clash (cs_epochs x) (cs_epochs y) (cs_epochs z) c.
Proof.
  intros Hm Hr (sa & Ha & Da & Hx) (sb & Hb & Db & Hy) (sr & Hsr & _ & Hz). unfold conflicts_of. rewrite Ha Hb.
  assert (∀ id ta tb e f, sec_epochs sa !! id = Some ta → sec_epochs sb !! id = Some tb →
    epoch_at m ta = Some e → epoch_at m tb = Some f → ta ≠ tb →
    cs_epochs z !! id = Some (if bool_decide ((pick cmp_epoch (ta, epoch_rank e) (tb, epoch_rank f)).1 = ta) then e else f)) as Hw.
  { intros id ta tb e f Hta Htb He Hf Hn. destruct Hr as (_ & sr' & Hr' & Hg & _). rewrite Hsr in Hr'. injection Hr' as <-.
    specialize (Hg SEpochs id).
    rewrite trees_in_union (trees_in_single _ a sa) ?(trees_in_single _ b sb) in Hg; [|by eapply sections_at_mono..].
    destruct (Hz id) as (_ & _ & -> & _). simpl in Hg. rewrite Hta Htb in Hg.
    destruct (sec_epochs sr !! id) as [w|]; [|set_solver]. simpl. destruct Hg as [_ Hg].
    assert (best cmp_epoch (epoch_key m') ({[ ta ]} ∪ {[ tb ]}) (pick cmp_epoch (ta, epoch_rank e) (tb, epoch_rank f)).1) as H1
      by (apply pick_best; [apply _|by rewrite /epoch_key (epoch_at_mono _ _ _ _ Hm He)|
        by rewrite /epoch_key (epoch_at_mono _ _ _ _ Hm Hf)|exact (best_single _ _ _)..]).
    rewrite (best_unique _ _ _ _ _ H1 Hg). destruct Hg as [Hin _].
    apply elem_of_union in Hin as [Hin|Hin]; apply elem_of_singleton in Hin as ->.
    - rewrite bool_decide_true //. by eapply epoch_at_mono.
    - rewrite bool_decide_false; [by eapply epoch_at_mono|]. congruence. }
  unfold clashes. rewrite list_elem_of_join. split.
  - intros (l & Hc & Hl). apply list_elem_of_fmap in Hl as ([id tb] & -> & Htb%elem_of_entries). simpl in Hc.
    destruct (sec_epochs sa !! id) as [ta|] eqn:Hta; [|by apply elem_of_nil in Hc].
    case_decide as Hn; [by apply elem_of_nil in Hc|]. unfold clash in Hc.
    destruct (epoch_at m ta) as [e|] eqn:He; [|by apply elem_of_nil in Hc].
    destruct (epoch_at m tb) as [f|] eqn:Hf; [|by apply elem_of_nil in Hc].
    specialize (Hw id ta tb e f Hta Htb He Hf Hn). unfold seal_conflict in Hc.
    destruct (seal_hash e) as [h1|] eqn:H1; [|by apply elem_of_nil in Hc].
    destruct (seal_hash f) as [h2|] eqn:H2; [|by apply elem_of_nil in Hc].
    case_decide as Hh; [by apply elem_of_nil in Hc|].
    exists id, e, f. eexists _, h1, h2. destruct (Hx id) as (_ & _ & -> & _), (Hy id) as (_ & _ & -> & _).
    rewrite Hta Htb /=. split_and!; [done|done|exact Hw|done|done|done|by case_bool_decide; [left|right]|].
    case_bool_decide; apply list_elem_of_singleton in Hc as ->.
    + by rewrite H1 decide_True.
    + rewrite H2 decide_False //. congruence.
  - intros (id & e & f & g & h1 & h2 & He & Hf & Hg & H1 & H2 & Hh & Ho & ->).
    destruct (Hx id) as (_ & _ & Hx' & _), (Hy id) as (_ & _ & Hy' & _). rewrite Hx' in He. rewrite Hy' in Hf.
    apply bind_Some in He as (ta & Hta & He), Hf as (tb & Htb & Hf).
    assert (ta ≠ tb) as Hn by congruence. specialize (Hw id ta tb e f Hta Htb He Hf Hn). rewrite Hg in Hw. injection Hw as ->.
    eexists. split; [|apply list_elem_of_fmap; exists (id, tb); split; [done|by apply elem_of_entries]].
    simpl. rewrite Hta (decide_False (P := ta = tb)) // /clash He Hf /seal_conflict H1 H2 (decide_False (P := h1 = h2)) //.
    case_bool_decide; apply list_elem_of_singleton.
    + by rewrite H1 decide_True.
    + rewrite H2 decide_False //. congruence.
Qed.

Lemma merges_to_pair a b s s' r :
  later s s' → merges_to (objects s') ({[ a ]} ∪ {[ b ]}) r → readable_root (objects s') r.
Proof.
  intros _ (HR & sec & Hs & Hg & _). exists sec. split; [done|]. intros n k t Ht.
  eapply settled_decodes. by eapply gathers_settled.
Qed.

Lemma holds_state_mono m m' r st : m ⊆ m' → holds_state m r st → holds_state m' r st.
Proof.
  intros Hm (sec & Hs & Hd & Hst). exists sec. split_and!; [by eapply sections_at_mono|intros; by eapply decodes_mono, Hd|].
  intros k. destruct (Hst k) as (-> & -> & -> & ->). split_and!.
  - destruct (sec_taints sec !! k) as [t|] eqn:Ht; [|done]. destruct (Hd STaints k t Ht) as [v Hv]. simpl.
    by rewrite Hv (taint_at_mono _ _ _ _ Hm Hv).
  - destruct (sec_reminders sec !! k) as [t|] eqn:Ht; [|done]. destruct (Hd SReminders k t Ht) as [v Hv]. simpl.
    by rewrite Hv (entry_at_mono _ _ _ _ Hm Hv).
  - destruct (sec_epochs sec !! k) as [t|] eqn:Ht; [|done]. destruct (Hd SEpochs k t Ht) as [v Hv]. simpl.
    by rewrite Hv (epoch_at_mono _ _ _ _ Hm Hv).
  - destruct (sec_members sec !! k) as [t|] eqn:Ht; [|done]. destruct (Hd SMembers k t Ht) as [v Hv]. simpl.
    by rewrite Hv (members_at_mono _ _ _ _ Hm Hv).
Qed.

(** One merge, from states that read back. *)
Lemma control_merge_run a b x y s :
  addressed (objects s) → read a s = (Ok x, s) → read b s = (Ok y, s) →
  ∃ s' r z, control_merge a b s = (Ok {| merged_root := r; merged_conflicts := conflicts_of (objects s) a b |}, s') ∧
    later s s' ∧ merges_to (objects s') ({[ a ]} ∪ {[ b ]}) r ∧
    read r s' = (Ok z, s') ∧ holds_state (objects s) a x ∧ holds_state (objects s) b y ∧ holds_state (objects s') r z.
Proof.
  intros Hs Hx Hy. assert (readable_root (objects s) a) as Ra by (apply readable_root_read; eauto).
  assert (readable_root (objects s) b) as Rb by (apply readable_root_read; eauto).
  destruct (control_merge_ok {[ a ]} {[ b ]} a b s Hs) as (s' & r & Hrun & Hl & Hr & _); [by apply merges_to_single..|].
  pose proof (merges_to_pair _ _ _ _ _ Hl Hr) as Rr. apply readable_root_read in Rr as [z Hz].
  exists s', r, z. apply read_spec in Hx as [_ Hx], Hy as [_ Hy]. pose proof Hz as Hz'. by apply read_spec in Hz' as [_ Hz'].
Qed.

(** ** Replicas that merge *)

(** Some merges, one after the other: replica [i] takes in the tree of
    replica [j]. *)
Fixpoint gossip (steps : list (nat * nat)) (roots : list ObjectId) : CM (list ObjectId) :=
  match steps with
  | [] => mret roots
  | (i, j) :: steps' =>
      match roots !! i, roots !! j with
      | Some a, Some b => m ← control_merge a b; gossip steps' (<[i := merged_root m]> roots)
      | _, _ => gossip steps' roots
      end
  end.

(** Whose first trees each replica has heard of. *)
Fixpoint heard (steps : list (nat * nat)) (known : list (gset ObjectId)) : list (gset ObjectId) :=
  match steps with
  | [] => known
  | (i, j) :: steps' =>
      match known !! i, known !! j with
      | Some X, Some Y => heard steps' (<[i := X ∪ Y]> known)
      | _, _ => heard steps' known
      end
  end.

Lemma gossip_ok steps known roots s :
  addressed (objects s) → Forall2 (merges_to (objects s)) known roots →
  ∃ roots' s', gossip steps roots s = (Ok roots', s') ∧ later s s' ∧
    Forall2 (merges_to (objects s')) (heard steps known) roots'.
Proof.
  revert known roots s. induction steps as [|[i j] steps IH]; intros known roots s Hs Hk.
  { exists roots, s. split_and!; [done|by apply later_refl|done]. }
  cbn [gossip heard]. destruct (roots !! i) as [a|] eqn:Ha; [|].
  - destruct (Forall2_lookup_r _ _ _ _ _ Hk Ha) as (X & HX & Ma). rewrite HX.
    destruct (roots !! j) as [b|] eqn:Hb.
    + destruct (Forall2_lookup_r _ _ _ _ _ Hk Hb) as (Y & HY & Mb). rewrite HY.
      destruct (control_merge_ok X Y a b s Hs Ma Mb) as (s1 & r & Hrun & Hl1 & Hr & _).
      rewrite (stateful_seq _ _ _ _ _ Hrun). cbn [merged_root].
      destruct (IH (<[i := X ∪ Y]> known) (<[i := r]> roots) s1) as (roots' & s' & Hg & Hl & Hk'); [apply Hl1| |].
      { apply Forall2_insert; [|done]. eapply Forall2_impl; [done|]. intros K r'. apply merges_to_mono, Hl1. }
      exists roots', s'. split_and!; [done|by eapply later_trans|done].
    + assert (known !! j = None) as ->; [|by apply IH].
      apply lookup_ge_None. rewrite (Forall2_length _ _ _ Hk). by apply lookup_ge_None.
  - assert (known !! i = None) as ->; [|by apply IH].
    apply lookup_ge_None. rewrite (Forall2_length _ _ _ Hk). by apply lookup_ge_None.
Qed.

End views.

(** C6: Merging converges: whatever readable control trees some replicas start
    from and whichever merges follow, in any order and any number of times, no
    merge fails, and two replicas that have heard of the same first trees are
    at the same tree. In particular merging is commutative, associative and
    idempotent. *)
Theorem replicas_converge `{CH : ContentHash, RJ : ReminderJson, SD : ControlSerde, CF : !CollisionFree} roots steps s :
  addressed (objects s) → Forall (λ r, ∃ st, read r s = (Ok st, s)) roots →
  ∃ roots' s', gossip steps roots s = (Ok roots', s') ∧ length roots' = length roots ∧
    Forall (λ r, ∃ st, read r s' = (Ok st, s')) roots' ∧
    ∀ i j K, heard steps (singleton <$> roots) !! i = Some K → heard steps (singleton <$> roots) !! j = Some K →
      roots' !! i = roots' !! j.
Proof.
  intros Hs Hr. assert (Forall2 (merges_to (objects s)) (singleton <$> roots) roots) as Hk.
  { apply Forall2_fmap_l, Forall_Forall2_diag. eapply Forall_impl; [done|]. intros r Hr'. by apply merges_to_single, readable_root_read. }
  destruct (gossip_ok steps _ roots s Hs Hk) as (roots' & s' & Hrun & Hl & Hk'). exists roots', s'.
  split_and!; [done| | |].
  - rewrite -(Forall2_length _ _ _ Hk'). clear. transitivity (length (singleton <$> roots : list (gset ObjectId))); [|by rewrite length_fmap].
    generalize (singleton <$> roots : list (gset ObjectId)) as known. induction steps as [|[i j] steps IH]; intros known; [done|].
    cbn [heard]. destruct (known !! i), (known !! j); rewrite IH; by rewrite ?length_insert.
  - apply Forall_forall. intros r Hin. apply list_elem_of_lookup in Hin as [i Hi].
    destruct (Forall2_lookup_r _ _ _ _ _ Hk' Hi) as (K & _ & _ & sec & Hsec & Hg & _). apply readable_root_read.
    exists sec. split; [done|]. intros n k t Ht. eapply settled_decodes. by eapply gathers_settled.
  - intros i j K Hi Hj. destruct (Forall2_lookup_l _ _ _ _ _ Hk' Hi) as (a & -> & Ha).
    destruct (Forall2_lookup_l _ _ _ _ _ Hk' Hj) as (b & -> & Hb). f_equal. by eapply merges_to_unique.
Qed.

(** C7: What a merge never undoes: of two readable trees it makes a tree that
    reads back, in which every record of one side alone is as it was, and every
    record of both is one of the two versions: of taints one that is resolved
    if either is, no later than either; of reminders a deletion if either is
    one, else a finished one if either is, else the last edited; of epochs the
    one further on, and of two sealed the one sealed first; and an epoch's
    members are those of both. Nothing else is in it, and the trees merged
    read as before. *)
Theorem control_merge_keeps `{CH : ContentHash, RJ : ReminderJson, SD : ControlSerde, CF : !CollisionFree} a b x y s :
  addressed (objects s) → read a s = (Ok x, s) → read b s = (Ok y, s) →
  ∃ m s' z, control_merge a b s = (Ok m, s') ∧ read (merged_root m) s' = (Ok z, s') ∧ keeps x y z ∧
    read a s' = (Ok x, s') ∧ read b s' = (Ok y, s').
Proof.
  intros Hs Hx Hy. destruct (control_merge_run a b x y s Hs Hx Hy) as (s' & r & z & Hrun & Hl & Hr & Hz & Sx & Sy & Sz).
  eexists _, s', z. split_and!; [exact Hrun|exact Hz| | |].
  - eapply holds_keeps; [apply Hl|done..].
  - apply read_spec. split; [done|]. eapply holds_state_mono; [apply Hl|done].
  - apply read_spec. split; [done|]. eapply holds_state_mono; [apply Hl|done].
Qed.

(** C8: What a merge reports: the same tree and the same conflicts, in the same
    order, whichever side is ours; and a conflict for exactly the epochs that
    both sides have under different seals, with the seal that the merged
    epoch has as the one kept. *)
Theorem control_merge_reports `{CH : ContentHash, RJ : ReminderJson, SD : ControlSerde, CF : !CollisionFree} a b x y s :
  addressed (objects s) → read a s = (Ok x, s) → read b s = (Ok y, s) →
  ∃ m s1 s2 z, control_merge a b s = (Ok m, s1) ∧ control_merge b a s1 = (Ok m, s2) ∧
    read (merged_root m) s1 = (Ok z, s1) ∧
    ∀ c, c ∈ merged_conflicts m ↔ seals_clash (cs_epochs x) (cs_epochs y) (cs_epochs z) c.
Proof.
  intros Hs Hx Hy. destruct (control_merge_run a b x y s Hs Hx Hy) as (s1 & r & z & Hrun & Hl & Hr & Hz & Sx & Sy & Sz).
  assert (read a s1 = (Ok x, s1)) as Hx1 by (apply read_spec; split; [done|]; eapply holds_state_mono; [apply Hl|done]).
  assert (read b s1 = (Ok y, s1)) as Hy1 by (apply read_spec; split; [done|]; eapply holds_state_mono; [apply Hl|done]).
  destruct (control_merge_run b a y x s1 (proj1 Hl) Hy1 Hx1) as (s2 & r2 & z2 & Hrun2 & Hl2 & Hr2 & _).
  eexists _, s1, s2, z. split_and!; [exact Hrun| |exact Hz|].
  - rewrite Hrun2. do 2 f_equal. f_equal.
    + rewrite union_comm_L in Hr2. eapply merges_to_unique; [exact Hr2|]. eapply merges_to_mono; [apply Hl2|done].
    + rewrite conflicts_of_sym. apply conflicts_of_mono; [apply Hl|by apply readable_root_read; eexists..].
  - intros c. by eapply conflicts_of_spec; [apply Hl|..].
Qed.

(** ** Witnesses *)

Module Clerk.
Import Plain.

(** A taint as its id, resolution and commit; an epoch as its id, status, seal
    time and seal; a reminder as its id and status; a time as its number. *)
Definition opt_json (o : option Time) : Json := match o with None => JNull | Some t => JNumber (PosInt (Z.to_N t)) end.
Definition opt_time (j : Json) : option Time := match j with JNumber (PosInt n) => Some (Z.of_N n) | _ => None end.

Definition stain (id : string) (res : option Time) (commit : string) : Taint := {|
  taint_id := id; taint_path := "/a"; taint_name := "n"; kind := KTaint; effect := Warn; severity := SevLow;
  taint_reason := ""; taint_agent := "ann"; taint_commit_id := commit; taint_created_at := 0%Z; expires_at := None;
  resolved_at := res; resolved_by := None; resolved_reason := None; resolved_proof := None; propagate := false;
  metadata := ∅ |}.
Definition era (id : string) (st : EpochStatus) (at_ : option Time) (seal : option ObjectId) (sealed : list ObjectId) : Epoch := {|
  epoch_id := id; epoch_description := ""; root_intents := []; epoch_status := st; epoch_created_at := 0%Z;
  sealed_at := at_; seal_summary := None; seal_hash := seal; epoch_commits := []; epoch_agents := [];
  epoch_branches := []; epoch_tags := []; sealed_commits := sealed; epoch_scope := ScopeAll; epoch_namespace := None |}.
Definition chore (id : string) (st : ReminderStatus) : Reminder := {| rem_id := id; rem_title := ""; rem_instructions := "";
  rem_commands := []; rem_refs := []; rem_priority := PHigh; due_at := 5%Z; schedule := None; autonomous := false;
  rem_created_by := "ann"; rem_created_at := 0%Z; rem_status := st; snoozed_until := None; executions := []; rem_tags := [] |}.

#[export] Instance toy_reminder : ReminderJson := {|
  reminder_to_json r := Ok (JArray [JString (rem_id r); JBool (is_terminal (rem_status r))]);
  reminder_from_json j := match j with
    | JArray [JString id; JBool b] => Ok (chore id (if b then RCompleted else RPending)) | _ => Err "not a reminder" end |}.

#[export] Instance toy_serde : ControlSerde := {|
  taint_to_json t := Ok (JArray [JString (taint_id t); opt_json (resolved_at t); JString (taint_commit_id t)]);
  taint_from_json j := match j with
    | JArray [JString id; r; JString c] => Ok (stain id (opt_time r) c) | _ => Err "not a taint" end;
  epoch_to_json e := Ok (JArray [JString (epoch_id e); JNumber (PosInt (epoch_rank e).1.1); opt_json (sealed_at e);
    match seal_hash e with None => JNull | Some h => JString (oid_bytes h) end]);
  epoch_from_json j := match j with
    | JArray [JString id; JNumber (PosInt n); a; h] =>
        Ok (era id (match n with 0%N => EpochActive | 1%N => EpochSealed | _ => EpochArchived end) (opt_time a)
          (match h with JString s => Some (Oid s) | _ => None end) [])
    | _ => Err "not an epoch" end;
  to_rfc3339 t := pretty (Z.to_N t);
  parse_rfc3339 s := match parse_uint u64_max s with Some n => Ok (Z.of_N n) | None => Err "not a time" end |}.

Definition mem1 : ObjectId := Oid "0123456789abcdef0123456789abcde1".
Definition mem2 : ObjectId := Oid "0123456789abcdef0123456789abcde2".

(** Three states that disagree. *)
Definition state1 : ControlState := {|
  cs_taints := {[ "t1" := stain "t1" (Some 5%Z) "c" ]};
  cs_reminders := {[ "r1" := Deleted 3%Z ]};
  cs_epochs := {[ "e1" := era "e1" EpochSealed (Some 3%Z) (Some mem1) [mem1] ]};
  cs_members := {[ "e1" := {[ mem1 ]} ]} |}.
Definition state2 : ControlState := {|
  cs_taints := {[ "t1" := stain "t1" None "" ]};
  cs_reminders := {[ "r1" := Live (chore "r1" RPending) 9%Z ]};
  cs_epochs := {[ "e1" := era "e1" EpochSealed (Some 2%Z) (Some mem2) [mem2] ]};
  cs_members := {[ "e1" := {[ mem2 ]} ]} |}.
Definition state3 : ControlState := {|
  cs_taints := {[ "t1" := stain "t1" (Some 4%Z) "" ; "t2" := stain "t2" None "d" ]};
  cs_reminders := ∅; cs_epochs := ∅; cs_members := {[ "e1" := {[ mem1; mem2 ]} ]} |}.

Definition written : result ControlError (ObjectId * ObjectId * ObjectId) * MemoryStorage :=
  (a ← write state1; b ← write state2; c ← write state3; mret (a, b, c)) mem_new.
Definition shelf : MemoryStorage := written.2.
Definition roots : ObjectId * ObjectId * ObjectId := match written.1 with Ok r => r | Err _ => (Oid "", Oid "", Oid "") end.

Definition checked (m : gmap ObjectId Object) : bool :=
  forallb (λ io, bool_decide (oid_of io.2 = io.1) && finite io.2) (map_to_list m).
Lemma checked_addressed m : checked m = true → addressed m.
Proof.
  intros H i o Ho%elem_of_map_to_list. unfold checked in H. rewrite forallb_forall in H.
  apply list_elem_of_In in Ho. specialize (H _ Ho). apply andb_prop in H as [H1 H2]. simpl in *.
  apply bool_decide_eq_true in H1. split; [done|by rewrite H2].
Qed.

(** Whether the tree reads back. *)
Definition reads (r : ObjectId) : bool := match (read r shelf).1 with Ok _ => true | Err _ => false end.
Definition state_at (r : ObjectId) : ControlState := match (read r shelf).1 with Ok st => st | Err _ => control_default end.
Lemma reads_read `{CF : !CollisionFree} r : reads r = true → read r shelf = (Ok (state_at r), shelf).
Proof.
  unfold reads, state_at. destruct (read r shelf) as [[st|e] s'] eqn:E; [|done]. intros _. simpl.
  by apply read_spec in E as [-> _].
Qed.
End Clerk.

Section witnesses.
Import Plain Clerk.

(** Three replicas, a cycle of merges, and one of them twice. *)
Definition rounds : list (nat * nat) := [(0, 1); (1, 2); (0, 1); (2, 0); (1, 0); (0, 2)].

Definition everyone : gset ObjectId := {[ roots.1.1 ]} ∪ {[ roots.1.2 ]} ∪ {[ roots.2 ]}.

Lemma replicas_converge_witness :
  ∃ roots' s', gossip rounds [roots.1.1; roots.1.2; roots.2] shelf = (Ok roots', s') ∧
    roots' !! 0 = roots' !! 1 ∧ roots' !! 1 = roots' !! 2.
Proof.
  destruct (replicas_converge [roots.1.1; roots.1.2; roots.2] rounds shelf) as (roots' & s' & Hrun & _ & _ & Hc).
  - apply checked_addressed. vm_compute. reflexivity.
  - repeat apply Forall_cons_2; [..|apply Forall_nil_2]; eexists; apply reads_read; vm_compute; reflexivity.
  - exists roots', s'. split; [exact Hrun|].
    split; [apply (Hc 0 1 everyone)|apply (Hc 1 2 everyone)];
      refine (bool_decide_unpack _ _); vm_compute; exact I.
Defined.

Lemma control_merge_keeps_witness :
  ∃ m s' z, control_merge roots.1.1 roots.1.2 shelf = (Ok m, s') ∧ read (merged_root m) s' = (Ok z, s') ∧
    keeps (state_at roots.1.1) (state_at roots.1.2) z.
Proof.
  destruct (control_merge_keeps roots.1.1 roots.1.2 (state_at roots.1.1) (state_at roots.1.2) shelf)
    as (m & s' & z & H1 & H2 & H3 & _).
  - apply checked_addressed. vm_compute. reflexivity.
  - apply reads_read. vm_compute. reflexivity.
  - apply reads_read. vm_compute. reflexivity.
  - exists m, s', z. split; [exact H1|]. split; [exact H2|exact H3].
Defined.

Lemma control_merge_reports_witness :
  ∃ m s1 s2 z, control_merge roots.1.1 roots.1.2 shelf = (Ok m, s1) ∧ control_merge roots.1.2 roots.1.1 s1 = (Ok m, s2) ∧
    read (merged_root m) s1 = (Ok z, s1) ∧
    ∀ c, c ∈ merged_conflicts m ↔ seals_clash (cs_epochs (state_at roots.1.1)) (cs_epochs (state_at roots.1.2)) (cs_epochs z) c.
Proof.
  apply (control_merge_reports roots.1.1 roots.1.2 (state_at roots.1.1) (state_at roots.1.2) shelf).
  - apply checked_addressed. vm_compute. reflexivity.
  - apply reads_read. vm_compute. reflexivity.
  - apply reads_read. vm_compute. reflexivity.
Defined.

(** A chunk of 128 bytes whose 64th ends within a character stops the reader,
    where other malformed trees are errors. *)
Definition torn_text : string :=
  "aaaaaaaaaaaaaaaaaaaaaaaaaaaaaaaaaaaaaaaaaaaaaaaaaaaaaaaaaaaaaaa" +:+ "é" +:+
  "aaaaaaaaaaaaaaaaaaaaaaaaaaaaaaaaaaaaaaaaaaaaaaaaaaaaaaaaaaaaaaa".
Definition torn_list : Object := mk_list [oid_of (mk_string torn_text)].

Lemma torn_chunk_panics :
  slen torn_text = 128%N ∧ load_ids (reads_of (sample [mk_string torn_text; torn_list])) (oid_of torn_list) = Err CPanic.
Proof. by vm_compute. Qed.
End witnesses.
