(* ===== verification/Records.v ===== *)
(** * Records: control trees read back as they were written

    Proofs about [Control]: that each kind of record, stored, loads as it was,
    whatever is stored around it, and that a whole state written as a control
    tree reads back, with the lists of its epochs as sets. *)
From S2P Require Import Prelude Objects Paths Json Intents Commits Epochs Taints Stores Memory Reminders.
From S2P Require Import Diffs Merges Trees TreeJson Specs Guards Heights Integrity Control Converge.

Lemma traverse_weaken {E A B} (f g : A → result E B) l ys :
  traverse f l = Ok ys → (∀ x y, x ∈ l → f x = Ok y → g x = Ok y) → traverse g l = Ok ys.
Proof.
  revert ys. induction l as [|x l IH]; intros ys; [done|]. simpl. intros H Hf. inv_ok. subst.
  rewrite (Hf x x0) //=; [|by left]. erewrite IH; [done|done|]. intros y z ?. apply Hf. by right.
Qed.

(** Rendering needs no more fuel than the tree is high. *)
Lemma to_json_bounded (m : gmap ObjectId Object) fuel n o j :
  bounded (λ i, m !! i) n o → to_json fuel (reads_of m) o = Ok j → to_json n (reads_of m) o = Ok j.
Proof.
  revert n o j. induction fuel as [|fuel IH]; intros [|n] o j Hb; [done..|].
  assert (∀ i child, i ∈ children o → read_child (reads_of m) i = Ok child → bounded (λ i, m !! i) n child) as Hc.
  { intros i child Hi Hr. unfold read_child, reads_of in Hr. simpl in Hr. apply ok_or_ok in Hr. by eapply Hb. }
  destruct o as [a|[l|l|l]]; cbn [to_json children node_children] in *; [done|..]; rewrite !result_fmap_ok.
  all: intros (js & Hjs & ->); eexists; split; [eapply traverse_weaken; [exact Hjs|]|done].
  - intros [k i] y Hi Hy. simpl in *. inv_ok. subst. rewrite H /=. erewrite IH; [done| |done].
    apply (Hc i); [|done]. apply list_elem_of_fmap. by exists (k, i).
  - intros i y Hi Hy. simpl in *. inv_ok. rewrite H /=. apply IH; [by eapply Hc|done].
  - intros i y Hi Hy. simpl in *. inv_ok. rewrite H /=. apply IH; [by eapply Hc|done].
Qed.

Section records.
Context `{CH : ContentHash, HA : !HashAcyclic, CF : !CollisionFree, RJ : ReminderJson, SD : ControlSerde}.
Implicit Types s : MemoryStorage.

(** A record whose encoding is a JSON value and decodes to [y]. *)
Definition encodes {A B} (to : A → result string Json) (from : Json → result string B) (x : A) (y : B) : Prop :=
  ∃ j, to x = Ok j ∧ json_wf j ∧ from j = Ok y.

Lemma put_json_ok {A B} (to : A → result string Json) (from : Json → result string B) x y s :
  addressed (objects s) → encodes to from x y →
  ∃ s' t, put_json (to x) s = (Ok t, s') ∧ later s s' ∧
    load_json (room (objects s')) (reads_of (objects s')) from t = Ok y.
Proof.
  intros Hs (j & Hj & Hw & Hf). unfold put_json. rewrite Hj. unfold json_to_tree.
  pose proof (json_to_objects_finite j Hw) as Hfin. pose proof (json_to_objects_back) as Hback.
  destruct (json_to_objects j) as [o out] eqn:Ho. simpl in *.
  destruct (batch_put_total (out ++ [o]) s) as (ids & s' & Hrun). change (addressed (contents s)) in Hs.
  destruct (batch_put_ok (out ++ [o]) s s' ids Hs Hfin Hrun) as ([Ha Hsub] & Hh & _).
  change (contents s') with (objects s') in *. exists s', (oid_of o). split_and!.
  - unfold map_err_st, mbind, stateful_bind. by rewrite Hrun.
  - by split.
  - unfold load_json, control_load. unfold reads_of at 1. simpl. rewrite (Hh o); [|apply elem_of_app; right; by left]. simpl.
    rewrite tree_to_json_reads; [|unfold room; lia].
    rewrite (to_json_bounded _ (json_height j) _ _ j) /=; [by rewrite Hf| |].
    + apply (bounded_le _ (S (size (objects s')))); [unfold room; lia|]. apply (tree_heights _ (oid_of o)); [done|].
      apply Hh, elem_of_app. right. by left.
    + assert (o = (json_to_objects j).1) as -> by by rewrite Ho. apply Hback; [done| |done].
      rewrite Ho. intros x' Hx'. apply Hh, elem_of_app. by left.
Qed.

Lemma put_time_ok t s :
  addressed (objects s) → parse_rfc3339 (to_rfc3339 t) = Ok t →
  ∃ s' i, put_time t s = (Ok i, s') ∧ later s s' ∧ load_time (reads_of (objects s')) i = Ok t.
Proof.
  intros Hs Ht. destruct (put_control_ok (mk_string (to_rfc3339 t)) s) as (s' & Hput & Hl & Ho); [done..|].
  exists s'. eexists. split_and!; [exact Hput|done|].
  unfold load_time, load_string, control_load, reads_of. simpl. by rewrite Ho /= Ht.
Qed.

Lemma ok_Ok {E A} (r : result E A) x : r = Ok x → ok r = Some x.
Proof. by intros ->. Qed.

Lemma put_taint_ok t s :
  addressed (objects s) → encodes taint_to_json taint_from_json t t →
  ∃ s' i, put_taint t s = (Ok i, s') ∧ later s s' ∧ taint_at (objects s') i = Some t.
Proof.
  intros Hs Ht. destruct (put_json_ok _ _ _ _ s Hs Ht) as (s' & i & H1 & H2 & H3). exists s', i.
  split_and!; [done..|]. by apply ok_Ok.
Qed.

(** A reminder entry that serializes, and so does its time. *)
Definition entry_encodes (e : ReminderEntry) : Prop :=
  match e with
  | Live r t => encodes reminder_to_json reminder_from_json r r ∧ parse_rfc3339 (to_rfc3339 t) = Ok t
  | Deleted t => parse_rfc3339 (to_rfc3339 t) = Ok t
  end.

Lemma put_reminder_ok e s :
  addressed (objects s) → entry_encodes e →
  ∃ s' i, put_reminder e s = (Ok i, s') ∧ later s s' ∧ entry_at (objects s') i = Some e.
Proof.
  intros Hs He. destruct e as [r t|t]; cbn [put_reminder entry_encodes] in *.
  - destruct He as [Hr Ht].
    destruct (put_json_ok _ _ _ _ s Hs Hr) as (s1 & i1 & R1 & L1 & G1).
    destruct (put_time_ok t s1) as (s2 & i2 & R2 & L2 & G2); [apply L1|done|].
    match goal with |- ∃ s' i, (_ ≫= _) s = _ ∧ _ =>
      destruct (put_control_ok (mk_map (<["edited_at" := i2]> (<["reminder" := i1]> ∅))) s2) as (s3 & R3 & L3 & G3) end; [apply L2|done|].
    exists s3. eexists. split_and!.
    + rewrite (stateful_seq _ _ _ _ _ R1) (stateful_seq _ _ _ _ _ R2). exact R3.
    + eapply later_trans; [done|]. by eapply later_trans.
    + apply ok_Ok. unfold load_reminder. rewrite (load_map_at _ _ G3) /=. simpl_map.
      rewrite /= /field. simpl_map. simpl.
      rewrite (load_json_lasting _ _ _ _ _ (proj2 (later_trans _ _ _ L2 L3)) G1) /=.
      by rewrite (load_time_lasting _ _ _ _ (proj2 L3) G2).
  - destruct (put_time_ok t s) as (s2 & i2 & R2 & L2 & G2); [done..|].
    destruct (put_control_ok (mk_map (<["deleted_at" := i2]> ∅)) s2) as (s3 & R3 & L3 & G3); [apply L2|done|].
    exists s3. eexists. split_and!.
    + rewrite (stateful_seq _ _ _ _ _ R2). exact R3.
    + by eapply later_trans.
    + apply ok_Ok. unfold load_reminder. rewrite (load_map_at _ _ G3) /=. simpl_map.
      by rewrite (load_time_lasting _ _ _ _ (proj2 L3) G2).
Qed.

(** An epoch without its members, and its sealed commits as a set. *)
Definition as_sets (e : Epoch) : Epoch := epoch_with_lists e [] (sorted_ids (list_to_set (sealed_commits e))).

Definition epoch_encodes (e : Epoch) : Prop :=
  encodes epoch_to_json epoch_from_json (epoch_with_lists e [] []) (epoch_with_lists e [] []) ∧
  Forall valid_oid (sealed_commits e).

Lemma put_epoch_ok e s :
  addressed (objects s) → epoch_encodes e →
  ∃ s' i, put_epoch e s = (Ok i, s') ∧ later s s' ∧ epoch_at (objects s') i = Some (as_sets e).
Proof.
  intros Hs [He Hv]. unfold put_epoch.
  destruct (put_json_ok _ _ _ _ s Hs He) as (s1 & i1 & R1 & L1 & G1).
  assert (∀ i, i ∈ (list_to_set (sealed_commits e) : gset ObjectId) → valid_oid i) as Hv'
    by (intros i Hi%elem_of_list_to_set; by apply (proj1 (Forall_forall _ _) Hv)).
  destruct (put_ids_run (list_to_set (sealed_commits e)) s1) as (s2 & R2 & L2 & G2); [apply L1|done|].
  destruct (put_control_ok (mk_map (<["sealed" := members_tree (list_to_set (sealed_commits e))]> (<["record" := i1]> ∅))) s2)
    as (s3 & R3 & L3 & G3); [apply L2|done|].
  exists s3. eexists. split_and!.
  - rewrite (stateful_seq _ _ _ _ _ R1) (stateful_seq _ _ _ _ _ R2). exact R3.
  - eapply later_trans; [done|]. by eapply later_trans.
  - apply ok_Ok. unfold load_epoch. rewrite (load_map_at _ _ G3) /= /field. simpl_map. simpl.
    rewrite (load_json_lasting _ _ _ _ _ (proj2 (later_trans _ _ _ L2 L3)) G1) /=. simpl_map. simpl.
    by rewrite (load_ids_lasting _ _ _ _ (proj2 L3) G2).
Qed.

(** ** A section's worth of edits *)

(** The records of a section, as they will read back. *)
Definition filed {B} (look : gmap ObjectId Object → ObjectId → option B) m n (sec : Sections) (vals : gmap string B) : Prop :=
  ∀ k, match section n sec !! k with
       | Some t => is_Some (vals !! k) ∧ look m t = vals !! k
       | None => vals !! k = None
       end.

Lemma filed_mono {B} (look : gmap ObjectId Object → ObjectId → option B) m m' n sec vals :
  (∀ t v, look m t = Some v → look m' t = Some v) → filed look m n sec vals → filed look m' n sec vals.
Proof.
  intros Hm Hf k. specialize (Hf k). destruct (section n sec !! k); [|done].
  destruct Hf as [[v Hv] Hl]. rewrite Hv in Hl. rewrite Hv. split; [by eexists|by apply Hm].
Qed.

Lemma edit_all_ok {A B} (look : gmap ObjectId Object → ObjectId → option B) n (key : A → string) (val : A → B)
    (put : A → CM ObjectId) (edit : A → Sections → CM Sections) l vals sec s :
  (∀ m m' t v, m ⊆ m' → look m t = Some v → look m' t = Some v) →
  (∀ x sec s, section n sec !! key x = None → edit x sec s = (t ← put x; mret (put_record n (key x) t sec)) s) →
  (∀ x s, x ∈ l → addressed (objects s) → ∃ s' t, put x s = (Ok t, s') ∧ later s s' ∧ look (objects s') t = Some (val x)) →
  addressed (objects s) → NoDup (key <$> l) → (∀ x, x ∈ l → vals !! key x = None) → filed look (objects s) n sec vals →
  ∃ s' sec', edit_all edit l sec s = (Ok sec', s') ∧ later s s' ∧ (∀ n', n' ≠ n → section n' sec' = section n' sec) ∧
    filed look (objects s') n sec' (list_to_map ((λ x, (key x, val x)) <$> l) ∪ vals).
Proof.
  intros Hmono Hedit Hput. revert vals sec s. induction l as [|x l IH]; intros vals sec s Hs Hn Hv Hf.
  { exists s, sec. split_and!; [done|by apply later_refl|done|]. csimpl. by rewrite left_id_L. }
  csimpl in Hn. apply NoDup_cons in Hn as [Hx Hn]. cbn [edit_all].
  assert (section n sec !! key x = None) as Hsx.
  { specialize (Hf (key x)). destruct (section n sec !! key x); [|done]. destruct Hf as [[v Hk] _].
    rewrite Hv in Hk; [done|by left]. }
  destruct (Hput x s) as (s1 & t & R1 & L1 & G1); [by left|done|].
  assert (edit x sec s = (Ok (put_record n (key x) t sec), s1)) as Re.
  { rewrite Hedit //. by rewrite (stateful_seq _ _ _ _ _ R1). }
  rewrite (stateful_seq _ _ _ _ _ Re).
  destruct (IH ltac:(intros; apply Hput; [by right|done]) (<[key x := val x]> vals) (put_record n (key x) t sec) s1)
    as (s' & sec' & R & L & Ho & Hf').
  - apply L1.
  - done.
  - intros y Hy. rewrite lookup_insert_ne; [apply Hv; by right|]. intros Heq. apply Hx. rewrite Heq. by apply list_elem_of_fmap_2.
  - intros k. unfold put_record. rewrite section_set decide_True //. destruct (decide (k = key x)) as [->|Hk].
    + rewrite !lookup_insert_eq. split; [by eexists|done].
    + rewrite !lookup_insert_ne //. apply (filed_mono look (objects s) (objects s1) n sec vals); [|done].
      intros. eapply Hmono; [apply L1|done].
  - exists s', sec'. split_and!; [done|by eapply later_trans| |].
    + intros n' Hn'. rewrite Ho // /put_record section_set decide_False //.
    + csimpl. rewrite -insert_union_l insert_union_r //. apply not_elem_of_list_to_map. rewrite -list_fmap_compose.
      intros (y & Hy & Hin)%list_elem_of_fmap. apply Hx. rewrite Hy. by apply list_elem_of_fmap_2.
Qed.

(** The state as it reads back. *)
Definition settled_state (st : ControlState) : ControlState := {|
  cs_taints := cs_taints st; cs_reminders := cs_reminders st;
  cs_epochs := as_sets <$> cs_epochs st; cs_members := cs_members st |}.

(** A state whose records are under their own ids and serialize, and whose
    commits have ids of 32 bytes. *)
Record writable (st : ControlState) : Prop := {
  wr_taints k t : cs_taints st !! k = Some t → taint_id t = k ∧ encodes taint_to_json taint_from_json t t;
  wr_reminders k e : cs_reminders st !! k = Some e → entry_encodes e;
  wr_epochs k e : cs_epochs st !! k = Some e → epoch_id e = k ∧ epoch_encodes e;
  wr_members k X : cs_members st !! k = Some X → ∀ i, i ∈ X → valid_oid i;
}.

Lemma entries_val_map {A B} (f : A → B) (m : gmap string A) key :
  (∀ k x, m !! k = Some x → key (k, x) = k) →
  list_to_map ((λ kx : string * A, (key kx, f kx.2)) <$> entries m) ∪ ∅ = f <$> m.
Proof.
  intros Hk. rewrite right_id_L -(list_to_map_entries (f <$> m)) entries_fmap. f_equal.
  apply list_fmap_ext. intros i [k x] Hi%list_elem_of_lookup_2%elem_of_entries. simpl. by rewrite (Hk _ _ Hi).
Qed.

Lemma entries_keyed {A} (m : gmap string A) key :
  (∀ k x, m !! k = Some x → key (k, x) = k) → NoDup (key <$> entries m).
Proof.
  intros Hk. assert (key <$> entries m = (entries m).*1) as ->; [|apply entries_NoDup].
  apply list_fmap_ext. intros i [k x] Hi%list_elem_of_lookup_2%elem_of_entries. by rewrite (Hk _ _ Hi).
Qed.

Lemma filed_start {B} (look : gmap ObjectId Object → ObjectId → option B) m n sec :
  section n sec = ∅ → filed look m n sec ∅.
Proof. intros Hs k. by rewrite Hs lookup_empty. Qed.

Lemma filed_bind {B} (look : gmap ObjectId Object → ObjectId → option B) m n sec vals k :
  filed look m n sec vals → vals !! k = section n sec !! k ≫= look m.
Proof. intros Hf. specialize (Hf k). destruct (section n sec !! k); [by destruct Hf|done]. Qed.

Lemma filed_some {B} (look : gmap ObjectId Object → ObjectId → option B) m n sec vals k t :
  filed look m n sec vals → section n sec !! k = Some t → is_Some (look m t).
Proof. intros Hf Ht. specialize (Hf k). rewrite Ht in Hf. destruct Hf as [? ->]. done. Qed.
(** Writing a state files its records. *)
Lemma write_filed st s :
  addressed (objects s) → writable st →
  ∃ root s' sec, write st s = (Ok root, s') ∧ later s s' ∧ sections_at (objects s') root = Some sec ∧
    filed taint_at (objects s') STaints sec (cs_taints st) ∧ filed entry_at (objects s') SReminders sec (cs_reminders st) ∧
    filed epoch_at (objects s') SEpochs sec (as_sets <$> cs_epochs st) ∧ filed members_at (objects s') SMembers sec (cs_members st).
Proof.
  intros Hs [W1 W2 W3 W4]. unfold write.
  destruct (edit_all_ok taint_at STaints (λ kt, taint_id kt.2) snd (λ kt, put_taint kt.2) (λ kt, edit_put_taint kt.2)
    (entries (cs_taints st)) ∅ sections_empty s) as (s1 & c1 & R1 & L1 & O1 & F1).
  { intros. by eapply taint_at_mono. }
  { done. }
  { intros [k t] s0 Ht%elem_of_entries Hs0. apply put_taint_ok; [done|]. by apply (W1 k). }
  { done. }
  { apply entries_keyed. intros k t Ht. by apply W1. }
  { done. }
  { by apply filed_start. }
  rewrite (entries_val_map id _ (λ kt, taint_id kt.2)) in F1; [|intros k t Ht; by apply W1].
  rewrite (stateful_seq _ _ _ _ _ R1).
  destruct (edit_all_ok entry_at SReminders fst snd (λ ke, put_reminder ke.2) (λ ke, edit_put_entry ke.1 ke.2)
    (entries (cs_reminders st)) ∅ c1 s1) as (s2 & c2 & R2 & L2 & O2 & F2).
  { intros. by eapply entry_at_mono. }
  { done. }
  { intros [k e] s0 He%elem_of_entries Hs0. apply put_reminder_ok; [done|]. by apply (W2 k). }
  { apply L1. }
  { by apply entries_keyed. }
  { done. }
  { apply filed_start. by rewrite O1. }
  rewrite (entries_val_map id _ fst) // in F2. rewrite (stateful_seq _ _ _ _ _ R2).
  destruct (edit_all_ok epoch_at SEpochs (λ ke, epoch_id ke.2) (as_sets ∘ snd) (λ ke, put_epoch ke.2) (λ ke, edit_put_epoch ke.2)
    (entries (cs_epochs st)) ∅ c2 s2) as (s3 & c3 & R3 & L3 & O3 & F3).
  { intros. by eapply epoch_at_mono. }
  { done. }
  { intros [k e] s0 He%elem_of_entries Hs0. apply put_epoch_ok; [done|]. by apply (W3 k). }
  { apply L2. }
  { apply entries_keyed. intros k e He. by apply W3. }
  { done. }
  { apply filed_start. by rewrite O2 // O1. }
  rewrite (entries_val_map as_sets _ (λ ke, epoch_id ke.2)) in F3; [|intros k e He; by apply W3].
  rewrite (stateful_seq _ _ _ _ _ R3).
  destruct (edit_all_ok members_at SMembers fst snd (λ km, put_ids (sorted_ids km.2)) (λ km, edit_add_members km.1 (sorted_ids km.2))
    (entries (cs_members st)) ∅ c3 s3) as (s4 & c4 & R4 & L4 & O4 & F4).
  { intros. by eapply members_at_mono. }
  { intros [k X] sec s0 Hk. cbn [section fst snd] in *. unfold edit_add_members. rewrite Hk.
    rewrite (stateful_seq _ _ _ ∅ s0) //. rewrite right_id_L (bool_decide_false (is_Some None)); [|by intros [? ?]].
    rewrite andb_false_r. assert (list_to_set (sorted_ids X) = X) as ->; [|done].
    apply set_eq. intros i. by rewrite elem_of_list_to_set elem_of_sorted_ids. }
  { intros [k X] s0 HX%elem_of_entries Hs0. destruct (put_ids_ok X s0) as (s' & ? & ? & ?); [done|by eapply W4|].
    by eexists s', _. }
  { apply L3. }
  { by apply entries_keyed. }
  { done. }
  { apply filed_start. by rewrite O3 // O2 // O1. }
  rewrite (entries_val_map id _ fst) // in F4. rewrite (stateful_seq _ _ _ _ _ R4).
  destruct (write_sections_ok c4 s4) as (s' & R & L & Hsec); [apply L4|].
  exists (root_of c4), s', c4. pose proof (later_trans _ _ _ L4 L) as L4'.
  pose proof (later_trans _ _ _ L3 L4') as L3'. pose proof (later_trans _ _ _ L2 L3') as L2'.
  assert (filed taint_at (objects s') STaints c4 (cs_taints st)) as G1.
  { intros k. rewrite O4 // O3 // O2 //. rewrite map_fmap_id in F1. revert k. apply (filed_mono _ (objects s1)); [|exact F1].
    intros. eapply taint_at_mono; [apply L2'|done]. }
  assert (filed entry_at (objects s') SReminders c4 (cs_reminders st)) as G2.
  { intros k. rewrite O4 // O3 //. rewrite map_fmap_id in F2. revert k. apply (filed_mono _ (objects s2)); [|exact F2].
    intros. eapply entry_at_mono; [apply L3'|done]. }
  assert (filed epoch_at (objects s') SEpochs c4 (as_sets <$> cs_epochs st)) as G3.
  { intros k. rewrite O4 //. revert k. apply (filed_mono _ (objects s3)); [|exact F3].
    intros. eapply epoch_at_mono; [apply L4'|done]. }
  assert (filed members_at (objects s') SMembers c4 (cs_members st)) as G4.
  { rewrite map_fmap_id in F4. apply (filed_mono _ (objects s4)); [|exact F4].
    intros. eapply members_at_mono; [apply L|done]. }
  split_and!; [done|apply (later_trans _ _ _ L1 L2')|done..].
Qed.

Lemma filed_state root sec s st :
  sections_at (objects s) root = Some sec →
  filed taint_at (objects s) STaints sec (cs_taints st) → filed entry_at (objects s) SReminders sec (cs_reminders st) →
  filed epoch_at (objects s) SEpochs sec (cs_epochs st) → filed members_at (objects s) SMembers sec (cs_members st) →
  holds_state (objects s) root st.
Proof.
  intros Hsec G1 G2 G3 G4. exists sec. split_and!; [done| |].
  - intros [] k t Ht; [exact (filed_some _ _ _ _ _ _ _ G3 Ht)|exact (filed_some _ _ _ _ _ _ _ G4 Ht)|
      exact (filed_some _ _ _ _ _ _ _ G2 Ht)|exact (filed_some _ _ _ _ _ _ _ G1 Ht)].
  - intros k. split_and!; [exact (filed_bind _ _ _ _ _ _ G1)|exact (filed_bind _ _ _ _ _ _ G2)|
      exact (filed_bind _ _ _ _ _ _ G3)|exact (filed_bind _ _ _ _ _ _ G4)].
Qed.
End records.

(** C29: A control tree reads back as it was written, with an epoch's members left
    to the membership records and its sealed commits in order and once each;
    the store only grows. *)
Theorem control_write_read `{CH : ContentHash, HA : !HashAcyclic, CF : !CollisionFree, RJ : ReminderJson, SD : ControlSerde} st s :
  addressed (objects s) → writable st →
  ∃ root s', write st s = (Ok root, s') ∧ read root s' = (Ok (settled_state st), s') ∧
    objects s ⊆ objects s' ∧ addressed (objects s').
Proof.
  intros Hs Hw. destruct (write_filed st s Hs Hw) as (root & s' & sec & R & [L1 L2] & Hsec & G1 & G2 & G3 & G4).
  exists root, s'. split_and!; [done| |done|done]. apply read_spec. split; [done|]. by apply (filed_state _ sec).
Qed.

(** *** Witness *)

Section witnesses.
Import Plain Clerk.

Lemma state1_writable : writable state1.
Proof.
  split; simpl; intros k x Hx; apply lookup_singleton_Some in Hx as [<- <-].
  - split; [done|]. eexists. split_and!; [reflexivity|by vm_compute|by vm_compute].
  - by vm_compute.
  - split; [done|]. split; [eexists; split_and!; [reflexivity|by vm_compute|by vm_compute]|]. by repeat constructor.
  - intros i ->%elem_of_singleton. by vm_compute.
Qed.

Lemma control_write_read_witness :
  ∃ root s', write state1 mem_new = (Ok root, s') ∧ read root s' = (Ok (settled_state state1), s').
Proof.
  destruct (control_write_read state1 mem_new) as (root & s' & H1 & H2 & _).
  - intros i o Hi. exfalso. clear -Hi. simpl in Hi. by rewrite lookup_empty in Hi.
  - exact state1_writable.
  - exists root, s'. split; [exact H1|exact H2].
Defined.
End witnesses.
