(* ===== verification/Policies.v ===== *)
(** * Policies: what an agent may do

    Models the policy crate ([agentstategraph-policy]): the selectors of
    situations ([selector.rs]), policies, proposals and decisions ([types.rs]),
    the evaluation of a list of policies ([evaluator.rs]), the registry of
    external evaluators ([external.rs]), the paths policies live at
    ([paths.rs]), and everything the policy store reads ([store.rs]): loading,
    listing, the filters for what is active, and both evaluations, as programs
    of atomic steps over a repository others write to.

    The regular expressions of selectors, the serde derives, signature
    verifiers and the external engines are parameters. The clock is an
    argument; spans and counters are left out, as is the text a repository
    error becomes. *)
From S2P Require Import Prelude Objects Paths Json Intents Sessions Commits Epochs Taints Stores Memory.
From S2P Require Import Diffs Merges Trees TreeJson Walks Specs Guards Ancestry Integrity Programs Repos Mergers.

(** ** Situations and selectors *)

Definition Situation : Type := gmap string string.

(** [Regex::new] and [is_match]. *)
Class Regexes := {
  Regex : Type;
  regex_new : string → option Regex;
  is_match : Regex → string → bool;
}.

Inductive Selector : Type :=
  | SelAlways
  | SelNever
  | SelAll (children : list Selector)
  | SelAny (children : list Selector)
  | SelNot (child : Selector)
  | SelEq (key value : string)
  | SelNe (key value : string)
  | SelMatches (key pattern : string)
  | SelExists (key : string)
  | SelGt (key : string) (value : Z)
  | SelGte (key : string) (value : Z)
  | SelLt (key : string) (value : Z)
  | SelLte (key : string) (value : Z).

(** [s.parse::<i64>().ok()]: an optional sign, then at least one digit. *)
Definition parse_i64 (s : string) : option Z :=
  match s with
  | EmptyString => None
  | String c s' =>
      if decide (c = "-"%char) then
        match s' with EmptyString => None | _ => (λ n, - Z.of_N n)%Z <$> parse_digits (2 ^ 63) 0 s' end
      else Z.of_N <$> parse_uint (2 ^ 63 - 1) s
  end.

Definition numeric (s : Situation) (key : string) : option Z := v ← s !! key; parse_i64 v.

(** [o.is_some_and(p)]. *)
Definition is_some_and {A} (p : A → bool) (o : option A) : bool :=
  match o with Some a => p a | None => false end.

Section selectors.
Context `{RX : Regexes}.

Fixpoint selector_matches (sel : Selector) (s : Situation) : bool :=
  match sel with
  | SelAlways => true
  | SelNever => false
  | SelAll children => forallb (λ c, selector_matches c s) children
  | SelAny children => existsb (λ c, selector_matches c s) children
  | SelNot child => negb (selector_matches child s)
  | SelEq key value => is_some_and (λ v, bool_decide (v = value)) (s !! key)
  | SelNe key value => is_some_and (λ v, bool_decide (v ≠ value)) (s !! key)
  | SelMatches key pattern =>
      match regex_new pattern with
      | Some re => is_some_and (is_match re) (s !! key)
      | None => false
      end
  | SelExists key => bool_decide (is_Some (s !! key))
  | SelGt key value => is_some_and (λ n, value <? n)%Z (numeric s key)
  | SelGte key value => is_some_and (λ n, value <=? n)%Z (numeric s key)
  | SelLt key value => is_some_and (λ n, n <? value)%Z (numeric s key)
  | SelLte key value => is_some_and (λ n, n <=? value)%Z (numeric s key)
  end.
End selectors.

(** ** Policies *)

(** A [Duration], in nanoseconds. *)
Abbreviation Duration := N.

Inductive Severity : Type := SevAdvLow | SevAdvMedium | SevAdvHigh | SevAdvCritical.

Inductive EvaluatorSource : Type :=
  | SrcInline (body : string)
  | SrcFilePath (path : string)
  | SrcCommitRef (path : string).

Inductive ExternalEvaluatorRef : Type :=
  | ExtRego (source : EvaluatorSource)
  | ExtCedar (source : EvaluatorSource)
  | ExtWasm (source : EvaluatorSource).

Inductive PolicySignature : Type := Ed25519 (signer_key_id signature_hex : string).

Inductive FallbackAction : Type :=
  | FbBlock
  | FbPickAlternative (action : string)
  | FbLowestRiskAlternative
  | FbKeepCurrentState
  | FbDelegateTo (policy_path : string).

Record AuthorizedAction := {
  auth_action : string;
  auth_condition : option string;
  auth_preconditions : list string;
}.

Record ApprovalRule := {
  rule_action : string;
  rule_approvers : list string;
  rule_timeout : option Duration;
  rule_fallback : FallbackAction;
}.

Record ProcedureStep := {
  step_action : string;
  if_previous_failed : option string;
}.

Record Policy := {
  policy_path : string;
  policy_version : N;
  policy_situation : string;
  situation_selector : Selector;
  policy_allow : list AuthorizedAction;
  policy_deny : list AuthorizedAction;
  require_approval : list ApprovalRule;
  procedure : option (list ProcedureStep);
  triggers : list string;
  required_fields : list string;
  policy_severity : Severity;
  proposed_by : string;
  proposed_at : Time;
  ratified_by : option string;
  ratified_at : option Time;
  ratification_reasoning : option string;
  active_from : Time;
  policy_expires_at : option Time;
  supersedes : option string;
  policy_signature : option PolicySignature;
  tenant_id : option string;
  external_evaluator : option ExternalEvaluatorRef;
}.

Definition is_ratified (p : Policy) : bool := is_some_of (ratified_by p).

Definition is_currently_active (p : Policy) (now : Time) : bool :=
  if negb (is_ratified p) || (now <? active_from p)%Z then false
  else match policy_expires_at p with Some exp => negb (exp <=? now)%Z | None => true end.

(** [path@version]. *)
Definition policy_handle (p : Policy) : string := policy_path p +:+ "@" +:+ pretty (policy_version p).

Record ChangeProposal := {
  prop_action : string;
  prop_agent_id : string;
  prop_intent : string;
  preferred_option : string;
  alternatives : list string;
  prop_tokens : list string;
  attached_fields : gmap string string;
}.

Inductive Decision : Type :=
  | DAllow (matched_policy : string) (preconditions : list string)
  | DDeny (matched_policy reason : string)
  | DRequireApproval (matched_policy : string) (approvers : list string) (timeout : option Duration)
      (fallback : FallbackAction) (approval_task_path : option string)
  | DNoPolicyMatch.

(** The derived [Serialize] and [Deserialize]. *)
Class PolicySerde := {
  policy_to_json : Policy → result string Json;
  policy_from_json : Json → result string Policy;
}.

(** ** Evaluating a list of policies *)

(** The first answer of a loop that returns early. *)
Fixpoint first_of {A B} (f : A → option B) (l : list A) : option B :=
  match l with
  | [] => None
  | x :: l' => match f x with Some b => Some b | None => first_of f l' end
  end.

Definition names_action (action name : string) : bool := bool_decide (name = action) || bool_decide (name = "*").
Definition match_action (rules : list AuthorizedAction) (action : string) : option AuthorizedAction :=
  List.find (λ r, names_action action (auth_action r)) rules.
Definition match_approval (rules : list ApprovalRule) (action : string) : option ApprovalRule :=
  List.find (λ r, names_action action (rule_action r)) rules.
Definition tokens_intersect (a b : list string) : bool :=
  existsb (λ t, existsb (λ u, bool_decide (t = u)) b) a.

Definition approval_hint (p : Policy) (action : string) : list string * option Duration * FallbackAction :=
  match match_approval (require_approval p) action with
  | Some r => (rule_approvers r, rule_timeout r, rule_fallback r)
  | None => (["human"], None, FbBlock)
  end.

Definition denial (action : string) (p : Policy) : option Decision :=
  rule ← match_action (policy_deny p) action;
  Some (DDeny (policy_handle p) (default ("denied by " +:+ policy_path p) (auth_condition rule))).
Definition approval (action : string) (p : Policy) : option Decision :=
  rule ← match_approval (require_approval p) action;
  Some (DRequireApproval (policy_handle p) (rule_approvers rule) (rule_timeout rule) (rule_fallback rule) None).
Definition allowance (action : string) (p : Policy) : option Decision :=
  rule ← match_action (policy_allow p) action;
  Some (DAllow (policy_handle p) (auth_preconditions rule)).

Definition evaluate_matched (policies : list Policy) (action agent_id : string) : Decision :=
  match first_of (denial action) policies with
  | Some d => d
  | None =>
      match first_of (approval action) policies with
      | Some d => d
      | None => default DNoPolicyMatch (first_of (allowance action) policies)
      end
  end.

Definition missing_fields (p : Policy) (c : ChangeProposal) : list string :=
  List.filter (λ f, negb (bool_decide (is_Some (attached_fields c !! f)))) (required_fields p).

(** A required field is missing. *)
Definition field_gate (c : ChangeProposal) (p : Policy) : option Decision :=
  match missing_fields p c with
  | [] => None
  | _ =>
      let '(approvers, timeout, fallback) := approval_hint p (prop_action c) in
      Some (DRequireApproval (policy_handle p) approvers timeout fallback None)
  end.

Definition evaluate_change (policies : list Policy) (c : ChangeProposal) : Decision :=
  let consulted := List.filter (λ p, tokens_intersect (triggers p) (prop_tokens c)) policies in
  match consulted with
  | [] => DNoPolicyMatch
  | _ =>
      match first_of (field_gate c) consulted with
      | Some d => d
      | None => evaluate_matched consulted (prop_action c) (prop_agent_id c)
      end
  end.

(** Deny before approval before allow, whoever decided. *)
Definition is_deny (d : Decision) : bool := match d with DDeny _ _ => true | _ => false end.
Definition is_approval (d : Decision) : bool := match d with DRequireApproval _ _ _ _ _ => true | _ => false end.
Definition is_allow (d : Decision) : bool := match d with DAllow _ _ => true | _ => false end.

Definition combine_decisions (externals : list Decision) (local : Decision) : Decision :=
  let all := externals ++ [local] in
  match List.find is_deny all with
  | Some d => d
  | None =>
      match List.find is_approval all with
      | Some d => d
      | None => default DNoPolicyMatch (List.find is_allow all)
      end
  end.

(** ** External evaluators *)

Inductive ExternalError : Type :=
  | NotRegistered (kind : string)
  | SourceResolution (msg : string)
  | Execution (msg : string)
  | ExtOther (msg : string).

(** A registered runner: its kind, and what it answers. *)
Record ExternalEvaluator := {
  ext_kind : string;
  ext_evaluate : EvaluatorSource → Situation → string → string → result ExternalError Decision;
}.

Definition ExternalEvaluatorRegistry : Type := gmap string ExternalEvaluator.
Definition registry_new : ExternalEvaluatorRegistry := ∅.
Definition register (e : ExternalEvaluator) (r : ExternalEvaluatorRegistry) : ExternalEvaluatorRegistry :=
  <[ext_kind e := e]> r.

Definition external_kind (e : ExternalEvaluatorRef) : string :=
  match e with ExtRego _ => "rego" | ExtCedar _ => "cedar" | ExtWasm _ => "wasm" end.
Definition external_source (e : ExternalEvaluatorRef) : EvaluatorSource :=
  match e with ExtRego source | ExtCedar source | ExtWasm source => source end.

(** ** Paths *)

Definition HISTORY_KEY : string := "history".
Definition META_KEY : string := "_meta".

(** [^[a-z0-9][a-z0-9_-]*$]. *)
Definition segment_head (c : ascii) : bool := is_ascii_lower c || is_ascii_digit c.
Definition segment_tail (c : ascii) : bool :=
  segment_head c || bool_decide (c = "_"%char) || bool_decide (c = "-"%char).
Definition segment_ok (s : string) : bool :=
  match s with EmptyString => false | String c s' => segment_head c && str_forall segment_tail s' end.

(** [s.trim_start_matches('/')]. *)
Fixpoint trim_slashes (s : string) : string :=
  match s with
  | EmptyString => EmptyString
  | String c s' => if decide (c = "/"%char) then trim_slashes s' else s
  end.

Inductive PolicyError : Type :=
  | PolicyNotFound (path : string)
  | PolicyAlreadyExists (path : string)
  | PolicyAlreadyRatified (handle : string)
  | NotProposal (handle : string)
  | PolicyInvalidPath (path : string)
  | PolicyInvalid (msg : string)
  | PolicyRepo (e : RepoError)
  | PolicySerdeError (msg : string).

Definition policy_error_code (e : PolicyError) : string :=
  match e with
  | PolicyNotFound _ => "policy_not_found"
  | PolicyAlreadyExists _ => "policy_already_exists"
  | PolicyAlreadyRatified _ => "policy_already_ratified"
  | NotProposal _ => "policy_not_proposal"
  | PolicyInvalidPath _ => "invalid_policy_path"
  | PolicyInvalid _ => "invalid_policy"
  | PolicyRepo _ => "repository_error"
  | PolicySerdeError _ => "serialization_error"
  end.

Definition normalize (path : string) : result PolicyError string :=
  let trimmed := trim_slashes path in
  if bool_decide (trimmed = EmptyString) then Err (PolicyInvalidPath path) else
  if forallb (λ seg, segment_ok seg && negb (bool_decide (seg = HISTORY_KEY) || bool_decide (seg = META_KEY)))
       (split "/" trimmed)
  then Ok trimmed else Err (PolicyInvalidPath path).

Definition active_path (prefix normalized : string) : string :=
  prefix +:+ "/" +:+ normalized +:+ "/" +:+ META_KEY.
Definition historical_path (prefix normalized : string) (version : N) : string :=
  prefix +:+ "/" +:+ normalized +:+ "/" +:+ HISTORY_KEY +:+ "/v" +:+ pretty version.

(** ** The store *)

(** A [SignatureVerifier]: whether it accepts a policy. *)
Record PolicyStore := {
  ps_repo : Repository;
  ps_prefix : string;
  ps_agent_id : string;
  ps_verifier : option (Policy → bool);
  ps_require_signed : bool;
  ps_external_evaluators : option ExternalEvaluatorRegistry;
}.

(** [if s.ends_with('/') { s.pop(); }]. *)
Fixpoint pop_slash (s : string) : string :=
  match s with
  | EmptyString => EmptyString
  | String c EmptyString => if decide (c = "/"%char) then EmptyString else s
  | String c s' => String c (pop_slash s')
  end.

Definition ps_new (r : Repository) (prefix agent_id : string) : PolicyStore := {|
  ps_repo := r; ps_prefix := pop_slash prefix; ps_agent_id := agent_id; ps_verifier := None;
  ps_require_signed := false; ps_external_evaluators := None |}.

Definition with_verifier (st : PolicyStore) (verify : Policy → bool) : PolicyStore := {|
  ps_repo := ps_repo st; ps_prefix := ps_prefix st; ps_agent_id := ps_agent_id st; ps_verifier := Some verify;
  ps_require_signed := ps_require_signed st; ps_external_evaluators := ps_external_evaluators st |}.
Definition with_require_signed (st : PolicyStore) (b : bool) : PolicyStore := {|
  ps_repo := ps_repo st; ps_prefix := ps_prefix st; ps_agent_id := ps_agent_id st; ps_verifier := ps_verifier st;
  ps_require_signed := b; ps_external_evaluators := ps_external_evaluators st |}.
Definition with_external_evaluators (st : PolicyStore) (registry : ExternalEvaluatorRegistry) : PolicyStore := {|
  ps_repo := ps_repo st; ps_prefix := ps_prefix st; ps_agent_id := ps_agent_id st; ps_verifier := ps_verifier st;
  ps_require_signed := ps_require_signed st; ps_external_evaluators := Some registry |}.

Definition tenant_matches (p : Policy) (tenant_filter : option string) : bool :=
  match tenant_filter with
  | None => true
  | Some tid => match tenant_id p with None => true | Some p_tid => bool_decide (p_tid = tid) end
  end.

Definition signature_passes (st : PolicyStore) (p : Policy) : bool :=
  match ps_verifier st with
  | None => true
  | Some verify => match policy_signature p with None => negb (ps_require_signed st) | Some _ => verify p end
  end.

(** *** Dispatch *)

(** Whom a policy goes to: [None] is nobody. *)
Definition dispatch (registry : ExternalEvaluatorRegistry) (p : Policy) : option (Policy + Policy) :=
  match external_evaluator p with
  | None => Some (inl p)
  | Some e => if registry !! external_kind e then Some (inr p) else None
  end.

Definition partition_for_dispatch (st : PolicyStore) (policies : list Policy) : list Policy * list Policy :=
  match ps_external_evaluators st with
  | None => (policies, [])
  | Some registry =>
      let routed := omap (dispatch registry) policies in
      (omap (λ x, match x with inl p => Some p | inr _ => None end) routed,
       omap (λ x, match x with inr p => Some p | inl _ => None end) routed)
  end.

(** The runner's answer, unless it failed. *)
Definition run_external (registry : ExternalEvaluatorRegistry) (s : Situation) (action agent_id : string)
    (p : Policy) : option Decision :=
  e ← external_evaluator p;
  runner ← registry !! external_kind e;
  ok (ext_evaluate runner (external_source e) s action agent_id).

Definition run_externals (st : PolicyStore) (policies : list Policy) (s : Situation) (action agent_id : string) :
    list Decision :=
  match ps_external_evaluators st with
  | None => []
  | Some registry => omap (run_external registry s action agent_id) policies
  end.

(** ** Reading the repository *)

Abbreviation PE := (stop PolicyError).
Abbreviation PP := (Prog World PE).

(** Going on with what a program answered, error or not: [match f() { .. }]. *)
Fixpoint prog_then {W E F A B} (p : Prog W E A) (k : result E A → Prog W F B) : Prog W F B :=
  match p with
  | Ret r => k r
  | Op f g => Op f (λ x, prog_then (g x) k)
  end.

Definition throw_policy {A} (e : PolicyError) : PP A := fail (Fail e).
Definition is_path_not_found (e : RepoError) : bool := match e with TreeErr _ => true | _ => false end.

(** [f().map_err(|e| ..)?] over a repository's call. *)
Definition from_repo {A} (on_error : RepoError → PolicyError) (p : P A) : PP A :=
  prog_then p (λ r, match r with
    | Ok a => mret a
    | Err OutOfFuel => fail OutOfFuel
    | Err (Fail e) => throw_policy (on_error e)
    end).

Definition stop_tree {A} (r : result (stop TreeError) A) : result RE A :=
  match r with
  | Ok a => Ok a
  | Err OutOfFuel => Err OutOfFuel
  | Err (Fail e) => Err (Fail (TreeErr e))
  end.

Section store.
Context `{CH : ContentHash, RX : Regexes, PS : PolicySerde}.

Definition get_json (r : Repository) (ref_name path : string) : P Json :=
  obj ← get_inner r ref_name path; render obj.

Definition list_paths (r : Repository) (ref_name prefix : string) (max_depth : option N) : P (list string) :=
  if path_is_secret prefix then throw_repo (ReservedPath prefix) else
  commit_id ← resolve_ref r ref_name;
  commit ← require_commit commit_id (RefMissing ref_name);
  paths ← read_store (λ s, stop_tree (tree_list_paths s (state_root commit) prefix (default 50%N max_depth)));
  mret (List.filter (λ p, negb (path_is_secret p)) paths).

Definition decode_policy (j : Json) : PP Policy :=
  of_result (map_err (Fail ∘ PolicySerdeError) (policy_from_json j)).

Definition load_active (st : PolicyStore) (ref_name normalized : string) : PP Policy :=
  value ← from_repo (λ e, if is_path_not_found e then PolicyNotFound normalized else PolicyRepo e)
            (get_json (ps_repo st) ref_name (active_path (ps_prefix st) normalized));
  decode_policy value.

Definition load_version (st : PolicyStore) (ref_name normalized : string) (v : N) : PP Policy :=
  value ← from_repo (λ e, if is_path_not_found e
                          then PolicyNotFound (normalized +:+ "@" +:+ pretty v) else PolicyRepo e)
            (get_json (ps_repo st) ref_name (historical_path (ps_prefix st) normalized v));
  decode_policy value.

Definition policy_exists (st : PolicyStore) (ref_name normalized : string) : PP bool :=
  prog_then (load_active st ref_name normalized) (λ r, match r with
    | Ok _ => mret true
    | Err (Fail (PolicyNotFound _)) => mret false
    | Err e => fail e
    end).

Definition policy_get (st : PolicyStore) (ref_name path : string) (version : option N) : PP Policy :=
  normalized ← of_result (map_err Fail (normalize path));
  current ← load_active st ref_name normalized;
  match version with
  | None => mret current
  | Some v => if decide (policy_version current = v) then mret current else load_version st ref_name normalized v
  end.

(** The versions from [v - 1] down to 1, newest first. *)
Fixpoint load_versions (st : PolicyStore) (ref_name normalized : string) (v : nat) : PP (list Policy) :=
  match v with
  | 0 | 1 => mret []
  | S v' =>
      p ← load_version st ref_name normalized (N.of_nat v');
      older ← load_versions st ref_name normalized v';
      mret (p :: older)
  end.

Definition policy_history (st : PolicyStore) (ref_name path : string) : PP (list Policy) :=
  normalized ← of_result (map_err Fail (normalize path));
  current ← load_active st ref_name normalized;
  older ← load_versions st ref_name normalized (N.to_nat (policy_version current));
  mret (rev (current :: older)).

(** *** Listing *)

(** [&s[..s.find(pat)?]]. *)
Fixpoint text_before (pat s : string) : option string :=
  if starts_with pat s then Some EmptyString
  else match s with EmptyString => None | String c s' => String c <$> text_before pat s' end.

Definition meta_marker : string := "/" +:+ META_KEY +:+ "/".
Definition history_marker : string := "/" +:+ HISTORY_KEY +:+ "/".

(** The policy a leaf belongs to. *)
Definition policy_of_leaf (prefix : string) (prefix_filter : option string) (leaf : string) : option string :=
  rel ← strip_prefix (prefix +:+ "/") leaf;
  if contains history_marker rel then None else
  policy_rel ← text_before meta_marker rel;
  if bool_decide (policy_rel = EmptyString) then None else
  match prefix_filter with
  | Some filter => if starts_with (trim_slashes filter) policy_rel then Some policy_rel else None
  | None => Some policy_rel
  end.

Fixpoint load_all (st : PolicyStore) (ref_name : string) (tenant_filter : option string) (paths : list string) :
    PP (list Policy) :=
  match paths with
  | [] => mret []
  | p :: paths' =>
      found ← prog_then (load_active st ref_name p) (λ r, match r with
        | Ok policy => mret (if tenant_matches policy tenant_filter then [policy] else [])
        | Err (Fail (PolicyNotFound _)) => mret []
        | Err e => fail e
        end);
      rest ← load_all st ref_name tenant_filter paths';
      mret (found ++ rest)
  end.

Definition list_scoped (st : PolicyStore) (ref_name : string) (prefix_filter tenant_filter : option string) :
    PP (list Policy) :=
  prog_then (list_paths (ps_repo st) ref_name (ps_prefix st) None) (λ r, match r with
    | Ok leaves =>
        load_all st ref_name tenant_filter
          (dedup (merge_sort String.le (omap (policy_of_leaf (ps_prefix st) prefix_filter) leaves)))
    | Err OutOfFuel => fail OutOfFuel
    | Err (Fail e) => if is_path_not_found e then mret [] else throw_policy (PolicyRepo e)
    end).

Definition active_scoped (st : PolicyStore) (now : Time) (ref_name : string)
    (prefix_filter tenant_filter : option string) : PP (list Policy) :=
  l ← list_scoped st ref_name prefix_filter tenant_filter;
  mret (List.filter (signature_passes st) (List.filter (λ p, is_currently_active p now) l)).

Definition policies_for_situation_scoped (st : PolicyStore) (now : Time) (ref_name : string) (s : Situation)
    (tenant_filter : option string) : PP (list Policy) :=
  l ← active_scoped st now ref_name None tenant_filter;
  mret (List.filter (λ p, selector_matches (situation_selector p) s) l).

(** *** Evaluating *)

Definition evaluate_scoped (st : PolicyStore) (now : Time) (ref_name : string) (s : Situation)
    (action agent_id : string) (tenant_filter : option string) : PP Decision :=
  matched ← policies_for_situation_scoped st now ref_name s tenant_filter;
  let '(locals, externals) := partition_for_dispatch st matched in
  mret (combine_decisions (run_externals st externals s action agent_id) (evaluate_matched locals action agent_id)).

Definition evaluate_change_scoped (st : PolicyStore) (now : Time) (ref_name : string) (c : ChangeProposal)
    (tenant_filter : option string) : PP Decision :=
  actives ← active_scoped st now ref_name None tenant_filter;
  let '(locals, externals) := partition_for_dispatch st actives in
  mret (combine_decisions (run_externals st externals ∅ (prop_action c) (prop_agent_id c))
          (evaluate_change locals c)).
End store.
