(* ===== verification/Verdicts.v ===== *)
(** * Verdicts: an evaluation is as strict as the policies in force

    Proofs about [Policies]. A decision is the strictest of what the matched
    policies say, external engines included. A policy that stays in force while
    an evaluation runs is found and heard, whatever others write meanwhile. *)
From S2P Require Import Prelude Objects Paths Json Intents Sessions Commits Epochs Taints Stores Memory.
From S2P Require Import Diffs Merges Trees TreeJson Walks Specs Guards Ancestry Heights Integrity Programs Repos Mergers.
From S2P Require Import Rules Policies.

(** ** What policies say *)

Definition strength (d : Decision) : nat :=
  match d with DDeny _ _ => 3 | DRequireApproval _ _ _ _ _ => 2 | DAllow _ _ => 1 | DNoPolicyMatch => 0 end.

Definition from_option {A} (o : option A) : list A := match o with Some a => [a] | None => [] end.

Lemma elem_of_from_option {A} (o : option A) a : a ∈ from_option o ↔ o = Some a.
Proof. destruct o as [b|]; simpl; [|set_solver]. rewrite list_elem_of_singleton. naive_solver. Qed.

(** What a policy says of an action, by its rules. *)
Definition own_verdicts (action : string) (p : Policy) : list Decision :=
  from_option (denial action p) ++ from_option (approval action p) ++ from_option (allowance action p).

(** What it says once dispatched: by its rules, through its engine when one is
    registered, or not at all. *)
Definition verdicts (st : PolicyStore) (s : Situation) (action agent_id : string) (p : Policy) : list Decision :=
  match ps_external_evaluators st, external_evaluator p with
  | Some registry, Some _ => from_option (run_external registry s action agent_id p)
  | _, _ => own_verdicts action p
  end.

(** [d] is the strictest of [l], or no match when nobody says anything. *)
Definition strictest (d : Decision) (l : list Decision) : Prop :=
  (d = DNoPolicyMatch ∨ d ∈ l) ∧ ∀ v, v ∈ l → strength v ≤ strength d.

Lemma strictest_perm d l l' : (∀ v, v ∈ l ↔ v ∈ l') → strictest d l → strictest d l'.
Proof. intros H [H1 H2]. split; [rewrite -H|intros v; rewrite -H]; auto. Qed.

Lemma first_of_some {A B} (f : A → option B) l b : first_of f l = Some b → ∃ x, x ∈ l ∧ f x = Some b.
Proof.
  induction l as [|x l IH]; [done|]. simpl. destruct (f x) eqn:E; [intros [= <-]; exists x; set_solver|].
  intros (y & ? & ?)%IH. exists y. set_solver.
Qed.

Lemma first_of_none {A B} (f : A → option B) l : first_of f l = None → ∀ x, x ∈ l → f x = None.
Proof.
  induction l as [|x l IH]; [set_solver|]. simpl. destruct (f x) eqn:E; [done|]. intros H y [->|Hy]%elem_of_cons; auto.
Qed.

Lemma denial_strength a p d : denial a p = Some d → strength d = 3.
Proof. unfold denial. destruct (match_action _ _); [|done]. by intros [= <-]. Qed.
Lemma approval_strength a p d : approval a p = Some d → strength d = 2.
Proof. unfold approval. destruct (match_approval _ _); [|done]. by intros [= <-]. Qed.
Lemma allowance_strength a p d : allowance a p = Some d → strength d = 1.
Proof. unfold allowance. destruct (match_action _ _); [|done]. by intros [= <-]. Qed.

Lemma elem_of_own_verdicts a p v :
  v ∈ own_verdicts a p ↔ denial a p = Some v ∨ approval a p = Some v ∨ allowance a p = Some v.
Proof. unfold own_verdicts. by rewrite !elem_of_app !elem_of_from_option. Qed.

(** The local evaluation takes the strictest of what the policies' rules say. *)
Lemma evaluate_matched_strictest policies a agent :
  strictest (evaluate_matched policies a agent) (policies ≫= own_verdicts a).
Proof.
  unfold evaluate_matched. split.
  - destruct (first_of (denial a) _) eqn:E1; [|destruct (first_of (approval a) _) eqn:E2;
      [|destruct (first_of (allowance a) _) eqn:E3; [|by left]]]; right; apply list_elem_of_bind.
    all: first [apply first_of_some in E1 as (p & Hp & Hd)|apply first_of_some in E2 as (p & Hp & Hd)
               |apply first_of_some in E3 as (p & Hp & Hd)]; exists p; (split; [|done]).
    all: rewrite elem_of_own_verdicts; auto.
  - intros v (p & Hv & Hp)%list_elem_of_bind. apply elem_of_own_verdicts in Hv as [Hv|[Hv|Hv]].
    + destruct (first_of (denial a) _) as [d|] eqn:E1; [|by rewrite (first_of_none _ _ E1 p) in Hv].
      apply first_of_some in E1 as (? & _ & ->%denial_strength). by rewrite (denial_strength _ _ _ Hv).
    + rewrite (approval_strength _ _ _ Hv).
      destruct (first_of (denial a) _) as [d|] eqn:E1; [apply first_of_some in E1 as (? & _ & ->%denial_strength); lia|].
      destruct (first_of (approval a) _) as [d|] eqn:E2; [|by rewrite (first_of_none _ _ E2 p) in Hv].
      by apply first_of_some in E2 as (? & _ & ->%approval_strength).
    + rewrite (allowance_strength _ _ _ Hv).
      destruct (first_of (denial a) _) as [d|] eqn:E1; [apply first_of_some in E1 as (? & _ & ->%denial_strength); lia|].
      destruct (first_of (approval a) _) as [d|] eqn:E2; [apply first_of_some in E2 as (? & _ & ->%approval_strength); lia|].
      destruct (first_of (allowance a) _) as [d|] eqn:E3; [|by rewrite (first_of_none _ _ E3 p) in Hv].
      simpl; by apply first_of_some in E3 as (? & _ & ->%allowance_strength).
Qed.

Lemma find_first {A} (f : A → bool) l : match List.find f l with Some x => x ∈ l ∧ f x | None => ∀ x, x ∈ l → f x = false end.
Proof.
  destruct (List.find f l) as [x|] eqn:E; [by apply List_find_Some in E|].
  intros x Hx. apply (List.find_none _ _ E). by apply list_elem_of_In.
Qed.

(** Combining takes the strictest of all that was decided. *)
Lemma combine_strictest externals local : strictest (combine_decisions externals local) (externals ++ [local]).
Proof.
  unfold combine_decisions. set (all := externals ++ [local]). clearbody all. split.
  - pose proof (find_first is_deny all) as H1. pose proof (find_first is_approval all) as H2.
    pose proof (find_first is_allow all) as H3.
    destruct (List.find is_deny all) as [d|]; [right; apply H1|]. destruct (List.find is_approval all) as [d|]; [right; apply H2|].
    destruct (List.find is_allow all) as [d|]; [right; apply H3|by left].
  - intros v Hv. pose proof (find_first is_deny all) as H1. pose proof (find_first is_approval all) as H2.
    pose proof (find_first is_allow all) as H3.
    destruct (List.find is_deny all) as [d|].
    { destruct H1 as [_ H1]. destruct d; try done. destruct v; simpl; lia. }
    specialize (H1 v Hv). destruct (List.find is_approval all) as [d|].
    { destruct H2 as [_ H2]. destruct d; try done. destruct v; simpl in *; try done; lia. }
    specialize (H2 v Hv). destruct (List.find is_allow all) as [d|].
    { destruct H3 as [_ H3]. destruct d; try done. destruct v; simpl in *; try done; lia. }
    specialize (H3 v Hv). by destruct v.
Qed.

Lemma strictest_join d l d' l' : strictest d l → strictest d' (l' ++ [d]) → strictest d' (l' ++ l).
Proof.
  intros [H1 H2] [H3 H4]. split.
  - destruct H3 as [->|H3]; [by left|]. apply elem_of_app in H3 as [H3|H3]; [right; set_solver|].
    apply list_elem_of_singleton in H3 as ->. destruct H1 as [->|H1]; [by left|]. right. set_solver.
  - intros v [Hv|Hv]%elem_of_app; [apply H4; set_solver|]. trans (strength d); [by apply H2|]. apply H4. set_solver.
Qed.

(** What the dispatched policies say, as the two lists the code makes. *)
Lemma partition_verdicts st s a agent policies v :
  let '(locals, externals) := partition_for_dispatch st policies in
  v ∈ run_externals st externals s a agent ++ (locals ≫= own_verdicts a) ↔ v ∈ policies ≫= verdicts st s a agent.
Proof.
  unfold partition_for_dispatch, run_externals, verdicts.
  destruct (ps_external_evaluators st) as [registry|]; [|done]. rewrite elem_of_app !list_elem_of_bind.
  repeat setoid_rewrite list_elem_of_omap. unfold dispatch. split.
  - intros [(p & (x & (q & Hq & Hx) & Hp) & Hv)|(p & Hv & x & (q & Hq & Hx) & Hp)].
    + destruct (external_evaluator q) as [e|] eqn:He; [|by injection Hx as <-].
      destruct (registry !! external_kind e); [|done]. injection Hx as <-. injection Hp as <-.
      exists q. split; [|done]. rewrite He. by apply elem_of_from_option.
    + destruct (external_evaluator q) as [e|] eqn:He; [destruct (registry !! external_kind e); [|done]; by injection Hx as <-|].
      injection Hx as <-. injection Hp as <-. exists q. by rewrite He.
  - intros (p & Hv & Hp). destruct (external_evaluator p) as [e|] eqn:He.
    + left. apply elem_of_from_option in Hv as Hr. exists p. split; [|done]. exists (inr p). split; [|done]. exists p.
      split; [done|]. rewrite He. unfold run_external in Hr. rewrite He /= in Hr. by destruct (registry !! external_kind e).
    + right. exists p. split; [done|]. exists (inl p). split; [|done]. exists p. by rewrite He.
Qed.

(** The decision of an evaluation over the policies that matched. *)
Lemma decision_strictest st s a agent policies :
  let '(locals, externals) := partition_for_dispatch st policies in
  strictest (combine_decisions (run_externals st externals s a agent) (evaluate_matched locals a agent))
    (policies ≫= verdicts st s a agent).
Proof.
  pose proof (λ v, partition_verdicts st s a agent policies v) as Hp.
  destruct (partition_for_dispatch st policies) as [locals externals].
  eapply strictest_perm; [exact Hp|]. eapply strictest_join; [|apply combine_strictest].
  apply evaluate_matched_strictest.
Qed.

(** ** Paths as texts *)

(** The segments, each after a slash. *)
Fixpoint slashed (l : list string) : string :=
  match l with [] => EmptyString | x :: l' => "/" +:+ (x +:+ slashed l') end.

Lemma slashed_app l l' : slashed (l ++ l') = slashed l +:+ slashed l'.
Proof. induction l as [|x l IH]; [done|]. cbn [slashed app]. by rewrite IH !string_app_assoc. Qed.

Lemma split_not_nil sep s : split sep s ≠ [].
Proof. destruct s as [|c s]; simpl; [done|]. destruct (decide (c = sep)); [done|]. by destruct (split sep s). Qed.

Lemma split_cut sep s t : split sep (s +:+ String sep t) = split sep s ++ split sep t.
Proof.
  induction s as [|c s IH]; [rewrite string_app_nil_l /=; by rewrite decide_True|].
  rewrite string_app_cons. cbn [split]. rewrite IH. destruct (decide (c = sep)); [done|].
  pose proof (split_not_nil sep s). by destruct (split sep s).
Qed.

Lemma split_slashed s l : Forall (no_char "/") l → split "/" (s +:+ slashed l) = split "/" s ++ l.
Proof.
  revert s. induction l as [|x l IH]; intros s Hl; [by rewrite string_app_nil_r app_nil_r|].
  apply Forall_cons in Hl as [Hx Hl]. cbn [slashed]. change ("/" +:+ ?t) with (String "/" t). rewrite split_cut. f_equal.
  rewrite IH //. by rewrite split_no_char.
Qed.

(** The text of a path is its segments joined again. *)
Lemma split_joins s : ∃ x l, split "/" s = x :: l ∧ s = x +:+ slashed l.
Proof.
  induction s as [|c s (x & l & Hs & E)]; [by exists EmptyString, []|]. cbn [split]. rewrite Hs.
  destruct (decide (c = "/"%char)) as [->|Hc].
  - exists EmptyString, (x :: l). split; [done|]. cbn [slashed]. by rewrite {1}E.
  - exists (String c x), l. split; [done|]. by rewrite {1}E.
Qed.

(** A segment in the middle of a text is one of its pieces after the first. *)
Lemma contains_segment x s : no_char "/" x → contains ("/" +:+ (x +:+ "/")) s → x ∈ tail (split "/" s).
Proof.
  intros Hx. induction s as [|c s IH]; cbn [contains]; intros [H|H]%orb_True.
  - apply starts_with_spec in H as [t Ht]. by rewrite string_app_cons in Ht.
  - done.
  - apply starts_with_spec in H as [t Ht]. rewrite string_app_cons in Ht. injection Ht as -> ->. cbn [split].
    destruct (decide ("/"%char = "/"%char)); [|done]. cbn [tail]. rewrite string_app_nil_l string_app_assoc split_app //. set_solver.
  - specialize (IH H). cbn [split]. destruct (decide (c = "/"%char)).
    + cbn [tail]. by destruct (split "/" s); [|right].
    + by destruct (split "/" s).
Qed.

(** What comes before the first segment [x] of a text. *)
Lemma text_before_segment x a l t :
  no_char "/" x → Forall (no_char "/") (a :: l) → x ∉ l →
  text_before ("/" +:+ (x +:+ "/")) (a +:+ slashed l +:+ "/" +:+ (x +:+ ("/" +:+ t))) = Some (a +:+ slashed l).
Proof.
  intros Hx Hl Hn. set (pat := "/" +:+ (x +:+ "/")).
  assert (∀ c u, text_before pat (String c u) = if starts_with pat (String c u) then Some EmptyString else String c <$> text_before pat u)
    as Hstep by done.
  assert (∀ b, no_char "/" b → ∀ u r, text_before pat u = Some r → text_before pat (b +:+ u) = Some (b +:+ r)) as Hfirst.
  { intros b Hb u r Hu. induction b as [|c b IH]; [done|]. apply no_char_cons in Hb as [Hc Hb].
    rewrite !string_app_cons Hstep. destruct (starts_with pat (String c (b +:+ u))) eqn:E.
    - exfalso. apply Is_true_true_2, starts_with_spec in E as [v Hv]. unfold pat in Hv. rewrite !string_app_cons in Hv.
      by injection Hv as ->.
    - by rewrite (IH Hb). }
  assert (text_before pat (slashed l +:+ "/" +:+ (x +:+ ("/" +:+ t))) = Some (slashed l)) as Hrest.
  { apply Forall_cons in Hl as [_ Hl]. clear a. induction l as [|y l IH].
    - rewrite string_app_nil_l string_app_cons Hstep.
      assert (starts_with pat (String "/" (EmptyString +:+ (x +:+ ("/" +:+ t))))) as Hs; [|by destruct (starts_with pat _)].
      apply starts_with_spec. exists t. unfold pat. rewrite !string_app_cons !string_app_nil_l. f_equal. by rewrite string_app_assoc.
    - apply Forall_cons in Hl as [Hy Hl]. apply not_elem_of_cons in Hn as [Hxy Hn].
      cbn [slashed]. rewrite !string_app_cons !string_app_nil_l string_app_assoc Hstep.
      rewrite (Hfirst y Hy _ _ (IH Hl Hn)) /=. destruct (starts_with pat _) eqn:E; [|done]. exfalso.
      apply Is_true_true_2, starts_with_spec in E as [v Hv]. unfold pat in Hv. rewrite !string_app_cons !string_app_nil_l in Hv.
      injection Hv as Hv. apply (f_equal (split "/")) in Hv. rewrite string_app_assoc split_app // in Hv.
      assert (∃ z r, split "/" (y +:+ slashed l +:+ "/" +:+ (x +:+ ("/" +:+ t))) = y :: z ∧ r = z) as (z & _ & Hz & _).
      { destruct l as [|w l]; cbn [slashed].
        - rewrite string_app_nil_l. change ("/" +:+ ?t) with (String "/" t). by rewrite split_app //; eexists _, _.
        - rewrite !string_app_cons !string_app_nil_l. rewrite split_app //. by eexists _, _. }
      rewrite Hz in Hv. by injection Hv as ->. }
  apply Forall_cons in Hl as [Ha _]. by rewrite -(Hfirst a Ha _ _ Hrest).
Qed.

Lemma parse_segment_index i j s c : parse_segment i s = Ok c → parse_segment j s = Ok c.
Proof. unfold parse_segment. destruct (decide _); [done|]. by destruct (_ <? _)%N. Qed.

Lemma parse_segments_forall i l p :
  parse_segments i l = Ok p ↔ Forall2 (λ s c, parse_segment 0 s = Ok c) l p.
Proof.
  revert i p. induction l as [|s l IH]; intros i p; cbn [parse_segments].
  - split; [by intros [= <-]|by inversion 1].
  - split.
    + intros H. inv_ok. subst. constructor; [by eapply parse_segment_index|by eapply IH].
    + inversion 1 as [|? c ? p' Hc Hp]; subst. by rewrite (parse_segment_index 0 i _ _ Hc) /= (proj2 (IH _ _) Hp).
Qed.


(** A segment of a path: not empty, no slash. *)
Definition segment (s : string) : Prop := s ≠ EmptyString ∧ no_char "/" s.

Lemma segments_no_slash l : Forall segment l → Forall (no_char "/") l.
Proof. intros H. eapply Forall_impl; [done|]. by intros s [_ ?]. Qed.

Abbreviation components := (Forall2 (λ s c, parse_segment 0 s = Ok c)).

Lemma parse_body u l p : split "/" u = l → u ≠ EmptyString →
  parse (String "/" u) = Ok p ↔ components l p ∧ (N.of_nat (length p) ≤ MAX_PATH_DEPTH)%N.
Proof.
  intros Hu Hn. unfold parse. rewrite (bool_decide_eq_false_2 (String "/" u = EmptyString)) // orb_false_l.
  rewrite (bool_decide_eq_false_2 (String "/" u = "/")); [|by intros [= ->]].
  change (strip_prefix "/" (String "/" u)) with (Some u). cbn [ok_or mbind result_bind]. rewrite Hu. split.
  - intros H. inv_ok. destruct (_ <? _)%N eqn:Hd; [done|]. injection H as ->. apply N.ltb_ge in Hd.
    split; [by eapply parse_segments_forall|done].
  - intros (Hq & Hd). rewrite (proj2 (parse_segments_forall 0 _ _) Hq) /=. by rewrite (proj2 (N.ltb_ge _ _) Hd).
Qed.

(** Parsing a path longer by some segments. *)
Lemma parse_slashed prefix pp l p :
  parse prefix = Ok pp → l ≠ [] → Forall segment l →
  parse (prefix +:+ slashed l) = Ok p ↔
  prefix ≠ "/" ∧ ∃ q, components l q ∧ p = pp ++ q ∧ (N.of_nat (length p) ≤ MAX_PATH_DEPTH)%N.
Proof.
  intros Hp Hl Hs. pose proof (segments_no_slash _ Hs) as Hn. destruct l as [|x l]; [done|]. clear Hl.
  assert (x +:+ slashed l ≠ EmptyString) as Hx by (apply Forall_cons in Hs as [[Hx _] _]; by destruct x).
  destruct (decide (prefix = EmptyString)) as [->|Hne].
  { injection Hp as <-. rewrite string_app_nil_l. cbn [slashed]. change ("/" +:+ ?t) with (String "/" t).
    rewrite (parse_body _ (x :: l)) //; [|apply Forall_cons in Hn as [? Hn]; by rewrite split_slashed // split_no_char].
    split; [intros [H1 H2]; split; [done|by exists p]|intros [_ (q & Hq & -> & Hd)]; by split]. }
  destruct (decide (prefix = "/")) as [->|Hns].
  { split; [|by intros [? _]]. cbn [slashed]. change ("/" +:+ ("/" +:+ ?t)) with (String "/" (String "/" t)).
    rewrite (parse_body _ (EmptyString :: x :: l)) //.
    - intros [H _]. inversion H as [|? ? ? ? Hc]; subst. unfold parse_segment in Hc. by case_decide.
    - change (String "/" (x +:+ slashed l)) with (EmptyString +:+ slashed (x :: l)). by rewrite split_slashed. }
  destruct prefix as [|c u]; [done|].
  assert (c = "/"%char) as ->.
  { unfold parse in Hp. rewrite !bool_decide_eq_false_2 //= in Hp. by destruct (decide ("/"%char = c)). }
  assert (u ≠ EmptyString) as Hu by (by intros ->).
  apply (parse_body u _ pp eq_refl Hu) in Hp as [Hpc Hpd].
  rewrite string_app_cons (parse_body _ (split "/" u ++ x :: l)); [|by rewrite split_slashed|by destruct u].
  split.
  - intros [H Hd]. apply Forall2_app_inv_l in H as (pp' & q & Hpp & Hq & ->). split; [done|]. exists q.
    assert (pp' = pp) as ->; [|done]. clear -Hpp Hpc. revert pp Hpc. induction Hpp; inversion 1; subst; [done|]. f_equal; [congruence|auto].
  - intros [_ (q & Hq & -> & Hd)]. split; [|done]. by apply Forall2_app.
Qed.

(** Components print to segments that parse back to them. *)
Lemma component_segment c : wf_component c → segment (display_component c).
Proof.
  destruct c as [k|i]; simpl; [by intros (? & ? & _)|]. intros _. split; [apply pretty_N_nonempty|].
  apply digits_no_char; [by vm_compute|apply pretty_N_digits].
Qed.

Lemma display_components_back q : Forall wf_component q → components (display_component <$> q) q.
Proof.
  intros H. apply Forall2_fmap_l, Forall_Forall2_diag. eapply Forall_impl; [done|]. intros c Hc.
  by apply display_component_parses.
Qed.

(** ** Policies in the tree *)

(** A component of a policy's path. *)
Definition policy_component (c : PathComponent) : Prop :=
  wf_component c ∧ segment_ok (display_component c) ∧
  display_component c ≠ HISTORY_KEY ∧ display_component c ≠ META_KEY.

Lemma segment_ok_segment s : segment_ok s → segment s.
Proof.
  destruct s as [|c s]; [done|]. cbn [segment_ok]. intros [Hc Hs]%andb_True. split; [done|]. apply no_char_cons.
  assert (∀ d, segment_tail d → d ≠ "/"%char) as Hd by (by intros d Hd ->; vm_compute in Hd).
  split; [apply Hd; unfold segment_tail; by apply Is_true_true_1 in Hc as ->|].
  unfold no_char. clear Hc c. induction s as [|d s IH]; [done|]. cbn [str_forall] in *. apply andb_True in Hs as [H1 H2].
  apply andb_True. split; [by apply bool_decide_spec, Hd|by apply IH].
Qed.

Lemma digits_segment_ok s : s ≠ EmptyString → str_forall is_ascii_digit s → segment_ok s.
Proof.
  destruct s as [|c s]; [done|]. intros _. cbn [str_forall segment_ok]. intros [Hc Hs]%andb_True. apply andb_True. split.
  - unfold segment_head. apply Is_true_true_1 in Hc as ->. by rewrite orb_true_r.
  - clear Hc c. induction s as [|d s IH]; [done|]. cbn [str_forall] in *. apply andb_True in Hs as [H1 H2].
    apply andb_True. split; [|by apply IH]. unfold segment_tail, segment_head. apply Is_true_true_1 in H1 as ->. by rewrite orb_true_r.
Qed.

Lemma normal_component s c :
  segment_ok s → s ≠ HISTORY_KEY → s ≠ META_KEY → parse_segment 0 s = Ok c → policy_component c.
Proof.
  intros Hs Hh Hm Hc. destruct (segment_ok_segment s Hs) as [Hn Hsl].
  pose proof (parse_segment_wf 0 s c Hsl Hc) as Hw. split; [done|]. unfold parse_segment in Hc.
  rewrite decide_False // in Hc. destruct (_ <? _)%N; [done|].
  destruct (parse_uint u64_max s) as [i|]; injection Hc as <-; simpl; [|done].
  pose proof (pretty_N_digits i) as Hd. pose proof (pretty_N_nonempty i). split; [by apply digits_segment_ok|].
  by split; intros E; rewrite E in Hd; vm_compute in Hd.
Qed.

(** A normal path leads through components of its own to the policy. *)
Lemma normal_path path0 path prefix pp p :
  normalize path0 = Ok path → parse prefix = Ok pp → parse (active_path prefix path) = Ok p →
  prefix ≠ "/" ∧ ∃ q, p = pp ++ q ++ [Key META_KEY] ∧ q ≠ [] ∧ Forall policy_component q ∧
    length q = length (split "/" path) ∧ (N.of_nat (length p) ≤ MAX_PATH_DEPTH)%N.
Proof.
  unfold normalize. case_bool_decide; [done|]. destruct (forallb _ _) eqn:Hf; [|done]. intros [= <-] Hpp Hp.
  set (t := trim_slashes path0) in *. destruct (split_joins t) as (x & l & Hs & Ht).
  assert (Forall (λ s, segment_ok s ∧ s ≠ HISTORY_KEY ∧ s ≠ META_KEY) (x :: l)) as Hall.
  { apply Forall_forall. intros s Hin. rewrite Hs in Hf. rewrite forallb_forall in Hf.
    specialize (Hf s (proj1 (list_elem_of_In _ _) Hin)).
    apply andb_prop in Hf as [H1 H2]. apply negb_true_iff, orb_false_iff in H2 as [H2 H3].
    apply bool_decide_eq_false in H2, H3. by rewrite H1. }
  assert (active_path prefix t = prefix +:+ slashed ((x :: l) ++ [META_KEY])) as Ea.
  { unfold active_path. rewrite {1}Ht slashed_app. cbn [slashed]. by rewrite !string_app_assoc. }
  rewrite Ea in Hp. apply (parse_slashed _ _ _ _ Hpp) in Hp as (Hne & q & Hq & -> & Hd); [|done|].
  2:{ apply Forall_app. split; [|by repeat constructor]. eapply Forall_impl; [exact Hall|]. intros s [? _]. by apply segment_ok_segment. }
  split; [done|]. apply Forall2_app_inv_l in Hq as (q1 & q2 & Hq1 & Hq2 & ->).
  inversion Hq2 as [|? c ? ? Hc Hnil]; subst. inversion Hnil; subst. vm_compute in Hc. injection Hc as <-.
  exists q1. split_and!; [done|by inversion Hq1| |rewrite Hs; symmetry; by eapply Forall2_length|done].
  clear -Hall Hq1. induction Hq1 as [|s c l0 q Hc Hl IH]; [done|]. apply Forall_cons in Hall as [(H1 & H2 & H3) Hall].
  constructor; [by eapply normal_component|by apply IH].
Qed.

(** The text of a policy's path, as a listing prints it. *)
Definition policy_text (q : StatePath) : string :=
  match q with [] => EmptyString | c :: q' => display_component c +:+ slashed (display_component <$> q') end.

Lemma policy_active prefix q : q ≠ [] →
  active_path prefix (policy_text q) = prefix +:+ slashed (display_component <$> q ++ [Key META_KEY]).
Proof.
  destruct q as [|c q]; [done|]. intros _. unfold active_path, policy_text. rewrite fmap_app slashed_app. csimpl.
  cbn [slashed]. by rewrite !string_app_assoc.
Qed.

Lemma components_segments q : Forall policy_component q → Forall segment (display_component <$> q).
Proof. intros H. apply Forall_fmap. eapply Forall_impl; [done|]. intros c [Hc _]. by apply component_segment. Qed.

Lemma meta_parses : parse_segment 0 META_KEY = Ok (Key META_KEY).
Proof. by vm_compute. Qed.

(** The printed path leads to the same place. *)
Lemma policy_active_parses prefix pp q :
  parse prefix = Ok pp → prefix ≠ "/" → q ≠ [] → Forall policy_component q →
  (N.of_nat (length (pp ++ q ++ [Key META_KEY])) ≤ MAX_PATH_DEPTH)%N →
  parse (active_path prefix (policy_text q)) = Ok (pp ++ q ++ [Key META_KEY]).
Proof.
  intros Hpp Hne Hq Hc Hd. rewrite policy_active //. eapply parse_slashed; [done|by destruct q| |].
  - rewrite fmap_app. apply Forall_app. split; [by apply components_segments|by repeat constructor].
  - split; [done|]. eexists. split_and!; [|done|done]. rewrite fmap_app. apply Forall2_app.
    + apply display_components_back. eapply Forall_impl; [done|]. by intros c [? _].
    + csimpl. constructor; [apply meta_parses|constructor].
Qed.

(** A leaf of the policy's record names the policy. *)
Lemma leaf_names_policy prefix q f :
  q ≠ [] → Forall policy_component q → no_char "/" f → f ≠ HISTORY_KEY →
  policy_of_leaf prefix None (prefix +:+ slashed (display_component <$> q ++ [Key META_KEY; Key f])) = Some (policy_text q).
Proof.
  intros Hq Hc Hf Hh. destruct q as [|c q]; [done|]. clear Hq.
  assert (Forall (no_char "/") (display_component <$> c :: q)) as Hn by by apply segments_no_slash, components_segments.
  assert (∀ x, x ∈ display_component <$> c :: q → x ≠ HISTORY_KEY ∧ x ≠ META_KEY) as Hr.
  { intros x (d & -> & Hd)%list_elem_of_fmap. rewrite Forall_forall in Hc. apply (Hc d Hd). }
  set (x := display_component c) in *. csimpl in *. fold x in Hn, Hr |- *.
  set (l := display_component <$> q) in *. apply Forall_cons in Hn as [Hx Hl].
  assert (slashed (x :: (display_component <$> q ++ [Key META_KEY; Key f])) =
          "/" +:+ (x +:+ slashed l +:+ "/" +:+ (META_KEY +:+ ("/" +:+ f)))) as E.
  { rewrite fmap_app. fold l. cbn [slashed]. rewrite slashed_app. csimpl. cbn [slashed]. by rewrite string_app_nil_r. }
  cbn [slashed] in E. rewrite E. clear E. unfold policy_of_leaf. rewrite -string_app_assoc strip_prefix_app. cbn [mbind option_bind].
  assert (split "/" (x +:+ slashed l +:+ "/" +:+ (META_KEY +:+ ("/" +:+ f))) = x :: l ++ [META_KEY; f]) as Es.
  { assert (slashed l +:+ "/" +:+ (META_KEY +:+ ("/" +:+ f)) = slashed (l ++ [META_KEY; f])) as ->.
    { rewrite slashed_app. cbn [slashed]. by rewrite string_app_nil_r. }
    rewrite split_slashed; [by rewrite split_no_char|]. apply Forall_app. split; [done|]. by repeat constructor. }
  destruct (contains history_marker _) eqn:Ec.
  { exfalso. apply Is_true_true_2, (contains_segment HISTORY_KEY) in Ec; [|by vm_compute]. rewrite Es in Ec. cbn [tail] in Ec.
    apply elem_of_app in Ec as [Ec|Ec]; [by destruct (Hr HISTORY_KEY) as [? _]; [right|]|].
    apply elem_of_cons in Ec as [Ec|Ec]; [done|]. by apply list_elem_of_singleton in Ec. }
  unfold meta_marker. rewrite (text_before_segment META_KEY x l f); [|by vm_compute|by constructor|].
  2:{ intros Hin. by destruct (Hr META_KEY) as [_ ?]; [right|]. }
  cbn [mbind option_bind]. rewrite bool_decide_eq_false_2 //.
  apply Forall_cons in Hc as [(_ & Hok & _) _]. fold x in Hok. by destruct x.
Qed.

(** *** Listings *)

Section listing.
Implicit Types m : gmap ObjectId Object.

Lemma row_of_child cur o c i :
  child_id_at o c = Some i → (cur +:+ slashed [display_component c], i) ∈ rows cur o.
Proof.
  cbn [slashed]. rewrite string_app_nil_r. destruct o as [a|[mm|l|l]], c as [k|n]; try done; cbn [child_id_at rows display_component].
  - intros Hk. apply list_elem_of_fmap. exists (k, i). split; [done|]. by apply elem_of_entries.
  - unfold nth_id. intros Hn. apply list_elem_of_lookup. exists (N.to_nat n).
    apply list_lookup_imap_Some. exists i. by rewrite N2Nat.id.
Qed.

Lemma gather_row {B} (h : Visit → list B) n m o cur row c b :
  row ∈ rows cur o → m !! row.2 = Some c → b ∈ gather h n m c row.1 → b ∈ gather h (S n) m o cur.
Proof.
  intros Hr Hc Hb. rewrite gather_S. apply elem_of_app. right. apply list_elem_of_join. exists (gather_child h n m row).
  split; [|by apply list_elem_of_fmap_2]. unfold gather_child. by rewrite Hc.
Qed.

(** What a listing finds below a path of the tree. *)
Lemma gather_along {B} (h : Visit → list B) m q n o cur x b :
  object_in m o q = Some x → b ∈ gather h n m x (cur +:+ slashed (display_component <$> q)) →
  b ∈ gather h (length q + n) m o cur.
Proof.
  revert o cur. induction q as [|c q IH]; intros o cur Hx Hb.
  { injection Hx as ->. csimpl in *. by rewrite string_app_nil_r in Hb. }
  rewrite object_in_cons in Hx. apply bind_Some in Hx as (i & Hi & Hx). apply value_at_inv in Hx as (o' & Ho' & Hx).
  cbn [length Nat.add]. eapply gather_row; [by apply row_of_child|done|]. cbn [fst]. apply IH; [done|].
  csimpl in Hb. cbn [slashed] in *. by rewrite string_app_nil_r !string_app_assoc -string_app_assoc string_app_assoc.
Qed.

(** A larger store lists the same of a whole tree. *)
Lemma intact_grows n m m' o : m ⊆ m' → Walks.intact n m o → Walks.intact n m' o.
Proof.
  intros Hm. revert o. induction n as [|n IH]; intros o; [done|]. simpl. intros Hi i Hin.
  destruct (Hi i Hin) as (c & Hc & Hic). exists c. split; [by eapply lookup_weaken|by apply IH].
Qed.

Lemma gather_mono {B} (h : Visit → list B) n m m' o cur :
  m ⊆ m' → Walks.intact n m o → gather h n m' o cur = gather h n m o cur.
Proof.
  intros Hm. revert o cur. induction n as [|n IH]; intros o cur Hi; [done|]. rewrite !gather_S. f_equal. f_equal.
  apply list_fmap_ext. intros j row Hj%list_elem_of_lookup_2. unfold gather_child.
  destruct (intact_row n m cur o row Hi Hj) as (c & Hc & Hic). rewrite Hc (lookup_weaken _ _ _ _ Hc Hm). by apply IH.
Qed.

Lemma value_at_mono m m' i p o : m ⊆ m' → value_at m i p = Some o → value_at m' i p = Some o.
Proof.
  intros Hm. unfold value_at. rewrite !bind_Some. intros (j & Hj & Ho). exists j.
  split; [by eapply locate_mono|by eapply lookup_weaken].
Qed.

Lemma value_at_app m root p q o x :
  value_at m root p = Some o → value_at m root (p ++ q) = Some x → object_in m o q = Some x.
Proof.
  unfold value_at. intros (i & Hi & Ho)%bind_Some. rewrite locate_app Hi /=. intros H.
  change (value_at m i q = Some x) in H. apply value_at_inv in H as (o' & Ho' & H). congruence.
Qed.

(** A record lists at least its first field. *)
Definition record_json (j : Json) : Prop :=
  (∃ kvs v, j = JObject kvs ∧ ("path", JString v) ∈ kvs) ∨ (∃ v l, j = JArray (JString v :: l)).

Lemma string_is_atom fuel m o v : to_json fuel (reads_of m) o = Ok (JString v) → ∃ a, o = OAtom a.
Proof.
  destruct fuel; [done|]. destruct o as [a|[mm|l|l]]; cbn [to_json]; [by exists a|..];
    intros H; inv_ok; subst; done.
Qed.

Lemma record_leaf fuel m o j cur :
  to_json fuel (reads_of m) o = Ok j → record_json j →
  ∃ f i a, (cur +:+ slashed [f], i) ∈ rows cur o ∧ m !! i = Some (OAtom a) ∧ no_char "/" f ∧ f ≠ HISTORY_KEY.
Proof.
  destruct fuel as [|fuel]; [done|].
  assert (∀ i c v, read_child (reads_of m) i = Ok c → to_json fuel (reads_of m) c = Ok (JString v) →
    ∃ a, m !! i = Some (OAtom a)) as Hatom.
  { intros i c v Hc [a ->]%string_is_atom. exists a. unfold read_child, reads_of in Hc. simpl in Hc. by apply ok_or_ok in Hc. }
  assert (∀ l js v js', traverse (λ id, child ← read_child (reads_of m) id; to_json fuel (reads_of m) child) l = Ok js →
    js = JString v :: js' → ∃ i l' a, l = i :: l' ∧ m !! i = Some (OAtom a)) as Hlist.
  { intros l js v js' Hl ->. apply traverse_ok in Hl. inversion Hl as [|i ? l' ? Hi Hl']; subst. inv_ok.
    destruct (Hatom i x v) as [a Ha]; [done..|]. by exists i, l', a. }
  assert (∀ l js v js', traverse (λ id, child ← read_child (reads_of m) id; to_json fuel (reads_of m) child) l = Ok js →
    js = JString v :: js' → ∃ f i a, (cur +:+ slashed [f], i) ∈ rows_list cur l ∧ m !! i = Some (OAtom a) ∧
      no_char "/" f ∧ f ≠ HISTORY_KEY) as Hrow.
  { intros l js v js' Hl Hjs. destruct (Hlist l js v js' Hl Hjs) as (i & l' & a & -> & Ha).
    exists "0", i, a. split_and!; [|done|by vm_compute|done]. by left. }
  destruct o as [a|[mm|l|l]]; cbn [to_json rows].
  - intros [= <-] [(kvs & v & E & _)|(v & l & E)]; destruct a; unfold atom_to_json, json_i64, json_f64 in E; by repeat case_match.
  - intros H Hj. apply result_fmap_ok in H as (js & Hjs & ->). destruct Hj as [(kvs & v & E & Hin)|(v & l & E)]; [|done].
    injection E as <-. apply traverse_ok in Hjs. apply list_elem_of_lookup in Hin as [k Hk].
    destruct (Forall2_lookup_r _ _ _ _ _ Hjs Hk) as ([key i] & Hi & Hr). simpl in Hr. inv_ok. subst key x0.
    destruct (Hatom i x v) as [a Ha]; [done..|]. exists "path", i, a. split_and!; [|done|by vm_compute|done].
    apply list_elem_of_fmap. exists ("path", i). split; [done|]. by eapply list_elem_of_lookup_2.
  - intros H Hj. apply result_fmap_ok in H as (js & Hjs & ->). destruct Hj as [(kvs & v & E & _)|(v & l' & E)]; [done|].
    injection E as E. by eapply Hrow.
  - intros H Hj. apply result_fmap_ok in H as (js & Hjs & ->). destruct Hj as [(kvs & v & E & _)|(v & l' & E)]; [done|].
    injection E as E. by eapply Hrow.
Qed.
End listing.

(** The derived [Deserialize] takes a map with the required field [path], a
    string and the first, or a sequence that begins with it. *)
Class PolicySerdeLaws `{PolicySerde} := {
  policy_json_record j p : policy_from_json j = Ok p → record_json j;
}.

(** A secret path, by its segments. *)
Lemma secret_segments t : path_is_secret t ↔ ∃ r, split "/" t = EmptyString :: "_meta" :: "_secret" :: r.
Proof.
  unfold path_is_secret. rewrite orb_True bool_decide_spec starts_with_spec. split.
  - intros [->|[u ->]]; [by exists []|]. rewrite string_app_assoc.
    change ("/" +:+ u) with (String "/" u). rewrite split_cut. by exists (split "/" u).
  - intros [r Hr]. destruct (split_joins t) as (x & l & Hs & ->). rewrite Hr in Hs. injection Hs as <- <-.
    destruct r as [|y r]; [by left|]. right. exists (y +:+ slashed r). cbn [slashed]. by rewrite !string_app_assoc.
Qed.

(** No leaf of a policy is secret unless the whole store is. *)
Lemma policy_leaf_public prefix q f :
  path_is_secret prefix = false → q ≠ [] → Forall policy_component q → no_char "/" f →
  path_is_secret (prefix +:+ slashed (display_component <$> q ++ [Key META_KEY; Key f])) = false.
Proof.
  intros Hp Hq Hc Hf. apply Is_true_false_1. intros [r Hr]%secret_segments.
  rewrite split_slashed in Hr; [|rewrite fmap_app; apply Forall_app; split;
    [by apply segments_no_slash, components_segments|by repeat constructor]].
  destruct q as [|c q]; [done|]. apply Forall_cons in Hc as [(_ & Hok & _ & Hm) _]. csimpl in Hr.
  destruct (split "/" prefix) as [|a [|b [|d l]]] eqn:E; [by eapply split_not_nil|..]; simpl in Hr.
  - injection Hr as _ Hc _. by rewrite Hc in Hm.
  - injection Hr as _ _ Hc _. rewrite Hc in Hok. by vm_compute in Hok.
  - injection Hr as -> -> -> _. apply Is_true_false_2 in Hp. apply Hp, secret_segments. by exists l.
Qed.

(** ** In force *)

(** A program amid others, who may do what [R] allows between its steps. *)
Inductive amid {W E A} (R : relation W) : Prog W E A * W → Prog W E A * W → Prop :=
  | amid_own T (f : W → T * W) k w : amid R (Op f k, w) (k (f w).1, (f w).2)
  | amid_other p w w' : R w w' → amid R (p, w) (p, w').

Lemma amid_sound {W E A} (I : W → Prop) (G : W → W → Prop) `{HG : !PreOrder G} (p p' : Prog W E A)
    (Q : result E A → Prop) w w' :
  rtc (amid (λ w w', I w' ∧ G w w')) (p, w) (p', w') → I w → wp I G p (λ r _, Q r) w →
  ∀ r, p' = Ret r → Q r.
Proof.
  intros Hrtc. remember (p, w) as x eqn:Hx. remember (p', w') as y eqn:Hy. revert p w Hx.
  induction Hrtc as [x|x y z Hst Hrtc IH]; intros p w -> Hi Hwp r Hr.
  - injection Hy as -> ->. by subst.
  - inversion Hst as [T f k w0|p0 w0 w1 [Hi1 Hg]]; subst.
    + destruct (Hwp w Hi) as (Hi' & _ & Hk); [by apply reflexivity|]. by eapply IH.
    + eapply IH; [done..| |done]. eapply wp_stable; [done| |exact Hi1|exact Hg|exact Hwp]. by intros ? ? ?.
Qed.

(** A policy an evaluation takes into account. *)
Definition live (st : PolicyStore) (now : Time) (tenant_filter : option string) (p : Policy) : Prop :=
  is_currently_active p now ∧ signature_passes st p ∧ tenant_matches p tenant_filter.

(** Nothing stored is lost. *)
Definition keeps_stored (w w' : World) : Prop :=
  objects (w_store w) ⊆ objects (w_store w') ∧
  ∀ i c, commits (w_store w) !! i = Some c →
    ∃ c', commits (w_store w') !! i = Some c' ∧ state_root c' = state_root c.

#[export] Instance keeps_stored_preorder : PreOrder keeps_stored.
Proof.
  split.
  - intros w. split; [done|]. intros i c Hc. by exists c.
  - intros w1 w2 w3 [O1 C1] [O2 C2]. split; [by trans (objects (w_store w2))|]. intros i c Hc.
    destruct (C1 i c Hc) as (c' & Hc' & E1). destruct (C2 i c' Hc') as (c'' & Hc'' & E2). exists c''. by rewrite E2.
Qed.

Section force.
Context `{CH : ContentHash, HA : !HashAcyclic, RX : Regexes, PS : PolicySerde, PL : !PolicySerdeLaws}.
Context (st : PolicyStore) (now : Time) (ref_name : string) (tenant_filter : option string) (path : string).
Context (speaks : Policy → Prop).

(** The levels and the results a listing stops at. *)
Definition LEVELS : nat := 51.
Lemma levels_listed : N.to_nat (N.min 50 LIST_PATHS_HARD_CEILING + 1) = LEVELS.
Proof. done. Qed.
#[local] Opaque LEVELS.

(** In a tree: the part under the store's prefix is whole, with no more leaves
    than a listing gives, and the record at [path] is of a policy that
    [speaks]. *)
Definition in_tree (m : gmap ObjectId Object) (root : ObjectId) : Prop :=
  ∃ pp start p o j pol,
    parse (ps_prefix st) = Ok pp ∧ value_at m root pp = Some start ∧ Walks.intact LEVELS m start ∧
    length (gather listed LEVELS m start (list_base (ps_prefix st))) ≤ MAX_RESULTS ∧
    parse (active_path (ps_prefix st) path) = Ok p ∧ value_at m root p = Some o ∧
    to_json (2 + size m) (reads_of m) o = Ok j ∧ policy_from_json j = Ok pol ∧ speaks pol.

(** In force: in the tree of the ref's head. *)
Definition in_force (w : World) : Prop :=
  addressed (objects (w_store w)) ∧
  ∃ head c, get_ref (w_store w) (active_namespace (ps_repo st)) ref_name = Ok (Some head) ∧
    commits (w_store w) !! head = Some c ∧ in_tree (objects (w_store w)) (state_root c).

Lemma in_tree_mono m m' root : m ⊆ m' → in_tree m root → in_tree m' root.
Proof.
  intros Hm (pp & start & p & o & j & pol & H1 & H2 & H3 & H4 & H5 & H6 & H7 & H8 & H9).
  exists pp, start, p, o, j, pol. split_and!; [exact H1|by eapply value_at_mono|by eapply intact_grows| |exact H5|
    by eapply value_at_mono| |exact H8|exact H9].
  - by rewrite (gather_mono _ _ m m').
  - eapply to_json_mono; [exact Hm| |exact H7]. apply map_subseteq_size in Hm. lia.
Qed.

(** ** The steps of an evaluation *)

Abbreviation wpf := (wp in_force keeps_stored).

Lemma wp_then {E F A B} (p : Prog World E A) (k : result E A → Prog World F B) Q w :
  wpf p (λ r w', wpf (k r) Q w') w → wpf (prog_then p k) Q w.
Proof.
  revert w. induction p as [r|T f g IH]; intros w; [done|]. intros H w1 Hi Hg.
  destruct (H w1 Hi Hg) as (? & ? & ?). split_and!; [done..|]. by apply IH.
Qed.

(** A program and what goes on from its answer. *)
Lemma wp_follow {E F A B} (p : Prog World E A) (k : result E A → Prog World F B) (Q : result E A → Prop) Q' w :
  wpf p (λ r _, Q r) w → (∀ r w', Q r → wpf (k r) Q' w') → wpf (prog_then p k) Q' w.
Proof.
  intros Hp HQ. apply wp_then. eapply (wp_mono in_force keeps_stored); [|exact Hp]. intros r w' _ Hr. by apply HQ.
Qed.

Lemma wp_next {E A B} (p : Prog World E A) (g : A → Prog World E B) (Q : result E A → Prop) (Q' : result E B → Prop) w :
  wpf p (λ r _, Q r) w → (∀ e, Q (Err e) → Q' (Err e)) → (∀ a w', Q (Ok a) → wpf (g a) (λ r _, Q' r) w') →
  wpf (p ≫= g) (λ r _, Q' r) w.
Proof.
  intros Hp He Hg. apply wp_bind. eapply (wp_mono in_force keeps_stored); [|exact Hp].
  intros [a|e] w' _ Hr; [by apply Hg|by apply He].
Qed.

(** A root the ref had at some moment of the evaluation. *)
Definition seen_root (w : World) (root : ObjectId) : Prop :=
  addressed (objects (w_store w)) ∧ in_tree (objects (w_store w)) root.

Lemma seen_root_stable root w w' : in_force w' → keeps_stored w w' → seen_root w root → seen_root w' root.
Proof. intros [Ha _] [Ho _] [_ Ht]. split; [done|by eapply in_tree_mono]. Qed.

(** Every read of the ref finds a tree with the policy in it. *)
Lemma wp_head {A} (k : Commit → P A) Q w :
  (∀ c w', keeps_stored w w' → seen_root w' (state_root c) → wpf (k c) Q w') →
  wpf (id ← resolve_ref (ps_repo st) ref_name; c ← require_commit id (RefMissing ref_name); k c) Q w.
Proof.
  intros Hk w1 (Ha & head & c & Hh & Hc & Ht) Hg. unfold resolve_ref. split_and!.
  - split; [done|]. by exists head, c.
  - by destruct w1.
  - rewrite /= Hh /=. intros w2 Hi2 Hg2. assert (with_store w1 (w_store w1) = w1) as Ew by by destruct w1.
    rewrite Ew in Hg2. destruct (proj2 Hg2 head c Hc) as (c' & Hc' & Er). simpl. unfold get_commit. rewrite Hc' /=.
    split_and!; [done|done|]. apply Hk; [by trans w1|]. rewrite Er.
    eapply seen_root_stable; [done..|]. by split.
Qed.

Lemma with_same_store w : with_store w (w_store w) = w.
Proof. by destruct w. Qed.

(** A step that only reads the store. *)
Lemma wp_reads {A} (f : MemoryStorage → result RE A) Q w :
  (∀ w1, in_force w1 → keeps_stored w w1 → Q (f (w_store w1)) w1) → wpf (read_store f) Q w.
Proof. intros H. apply (wp_read in_force keeps_stored (λ w, f (w_store w))). intros w1 ? ?. by apply H. Qed.

Lemma wp_reads_tree {A} (f : MemoryStorage → result TreeError A) Q w :
  (∀ w1, in_force w1 → keeps_stored w w1 → Q (map_err (λ e, Fail (TreeErr e)) (f (w_store w1))) w1) →
  wpf (on_tree (reading f)) Q w.
Proof.
  intros H. unfold on_tree. apply wp_step. intros w1 Hi Hg. cbn [reading fst snd]. rewrite with_same_store.
  split_and!; [done|by apply reflexivity|by apply H].
Qed.

(** Rendering does not run out of fuel in an addressed store. *)
Lemma to_json_fuel (m : gmap ObjectId Object) n' fuel o :
  bounded (λ i, m !! i) n' o → n' ≤ fuel → to_json fuel (reads_of m) o ≠ Err OutOfFuel.
Proof.
  revert n' o. induction fuel as [|fuel IH]; intros [|n'] o Hb Hn; [done|lia|done|].
  assert (∀ l : list ObjectId, (∀ i, i ∈ l → i ∈ children o) →
    ∀ i c, i ∈ l → read_child (reads_of m) i = Ok c → to_json fuel (reads_of m) c ≠ Err OutOfFuel) as Hc.
  { intros l Hl i c Hi Hr. unfold read_child, reads_of in Hr. simpl in Hr. apply ok_or_ok in Hr.
    eapply IH; [by eapply Hb; [apply Hl|]|lia]. }
  assert (∀ i, read_child (reads_of m) i ≠ Err OutOfFuel) as Hr.
  { intros i. unfold read_child, reads_of. simpl. by destruct (m !! i). }
  destruct o as [a|[mm|l|l]]; cbn [to_json]; [done|..]; intros H; (destruct (traverse _ _) as [?|e] eqn:E; [done|]);
    injection H as ->; apply traverse_err in E as (pre & x & post & ys & El & _ & Ex).
  - assert ((x.2 ∈ (entries mm).*2)) as Hx by (apply list_elem_of_fmap_2; rewrite El; set_solver).
    apply result_bind_err in Ex as [Ex|(c & Hrc & Ex)]; [by apply (Hr x.2)|].
    apply result_bind_err in Ex as [Ex|(? & _ & ?)]; [|done]. by eapply (Hc ((entries mm).*2)).
  - apply result_bind_err in Ex as [Ex|(c & Hrc & Ex)]; [by apply (Hr x)|]. apply (Hc l (λ _ h, h) x c); [subst l; set_solver|done..].
  - apply result_bind_err in Ex as [Ex|(c & Hrc & Ex)]; [by apply (Hr x)|]. apply (Hc l (λ _ h, h) x c); [subst l; set_solver|done..].
Qed.

Lemma render_in (m : gmap ObjectId Object) i o :
  addressed m → m !! i = Some o →
  tree_to_json (2 + size m) (reads_of m) o = to_json (2 + size m) (reads_of m) o ∧
  to_json (2 + size m) (reads_of m) o ≠ Err OutOfFuel.
Proof.
  intros Ha Hi. split; [apply tree_to_json_reads; lia|]. eapply to_json_fuel; [by eapply tree_heights|lia].
Qed.

(** What reading the JSON at [pth] comes to, at the policy's own path above all. *)
Definition json_post (pth : string) (r : result RE Json) : Prop :=
  r ≠ Err OutOfFuel ∧
  ∀ p, parse (active_path (ps_prefix st) path) = Ok p → parse pth = Ok p →
    (∃ j pol, r = Ok j ∧ policy_from_json j = Ok pol ∧ speaks pol) ∨
    (∃ e, r = Err (Fail e) ∧ is_path_not_found e = false).

Lemma wp_get_json pth w : wpf (get_json (ps_repo st) ref_name pth) (λ r _, json_post pth r) w.
Proof.
  unfold get_json. apply wp_bind. unfold get_inner. destruct (path_is_secret pth).
  { split; [done|]. intros p _ _. right. by eexists. }
  apply wp_head. intros c w1 Hg1 Hs1. unfold parse_repo_path, lift_repo, of_result.
  destruct (parse pth) as [p|e] eqn:Hp; [|split; [done|intros ? _ ?; congruence]]. cbn [map_err mbind prog_mbind prog_bind]. apply wp_reads_tree. intros w2 Hi2 Hg2.
  pose proof (seen_root_stable _ _ _ Hi2 Hg2 Hs1) as Hs2.
  assert (∀ o, tree_get (w_store w2) (state_root c) p = Ok o ↔ value_at (objects (w_store w2)) (state_root c) p = Some o) as Htot
    by (intros o; exact (tree_get_total (w_store w2) (state_root c) p o)).
  destruct Hs2 as [Ha2 (pp & start & p' & o & j & pol & H1 & H2 & H3 & H4 & H5 & H6 & H7 & H8 & H9)].
  destruct (tree_get _ _ _) as [o'|e] eqn:Hget; cbn [map_err].
  - pose proof (proj1 (Htot o') eq_refl) as Ho'. unfold render. apply wp_reads. intros w3 Hi3 [Ho3 _].
    assert (∃ i, objects (w_store w2) !! i = Some o') as [i Hi] by (unfold value_at in Ho'; apply bind_Some in Ho' as (i & _ & ?); by exists i).
    destruct (render_in (objects (w_store w3)) i o') as [-> Hf]; [apply Hi3|by eapply lookup_weaken|]. split.
    + by destruct (to_json _ _ o') as [?|[|?]].
    + intros q Hq Hq'. rewrite H5 in Hq. injection Hq as <-. rewrite Hp in Hq'. injection Hq' as ->.
      assert (o' = o) as -> by congruence. left. exists j, pol.
      rewrite (to_json_mono (objects (w_store w2)) _ (2 + size (objects (w_store w2))) _ o j) //.
      apply map_subseteq_size in Ho3. lia.
  - split; [done|]. intros q Hq Hq'. rewrite H5 in Hq. injection Hq as <-. rewrite Hp in Hq'. injection Hq' as ->.
    by apply Htot in H6.
Qed.

Context (Hlive : ∀ p, speaks p → live st now tenant_filter p).

(** Two paths that lead to the same place. *)
Definition same_place (pth : string) : Prop :=
  ∃ p, parse (active_path (ps_prefix st) path) = Ok p ∧ parse (active_path (ps_prefix st) pth) = Ok p.

Definition load_post (pth : string) (r : result PE Policy) : Prop :=
  r ≠ Err OutOfFuel ∧
  (same_place pth → (∃ pol, r = Ok pol ∧ speaks pol) ∨ (∃ e, r = Err (Fail e) ∧ ∀ x, e ≠ PolicyNotFound x)).

Lemma wp_load_active pth w : wpf (load_active st ref_name pth) (λ r _, load_post pth r) w.
Proof.
  unfold load_active. apply wp_bind. unfold from_repo. eapply wp_follow; [apply wp_get_json|].
  intros r w' [H1 H2]. destruct r as [j|[|e]]; [|done|].
  - split; [by destruct (policy_from_json j)|]. intros (p & Hp & Hq).
    destruct (H2 p Hp Hq) as [(j' & pol & [= <-] & Hj & Hs)|(e & [=] & _)]. left. exists pol. by rewrite Hj.
  - split; [done|]. intros (p & Hp & Hq). destruct (H2 p Hp Hq) as [(? & ? & [=] & _)|(e' & [= <-] & He)].
    right. rewrite He. by eexists.
Qed.

Lemma wp_load_all l w :
  wpf (load_all st ref_name tenant_filter l) (λ r _, r ≠ Err OutOfFuel ∧
    ∀ out, r = Ok out → (∃ pth, pth ∈ l ∧ same_place pth) → ∃ pol, pol ∈ out ∧ speaks pol) w.
Proof.
  revert w. induction l as [|x l IH]; intros w; cbn [load_all].
  { split; [done|]. intros out _ (? & ?%elem_of_nil & _). done. }
  apply wp_bind. eapply wp_follow; [apply wp_load_active|]. intros r w1 [H1 H2].
  assert (∀ found, (same_place x → ∃ pol, pol ∈ found ∧ speaks pol) → ∀ w1,
    wpf (rest ← load_all st ref_name tenant_filter l; mret (found ++ rest)) (λ r _, r ≠ Err OutOfFuel ∧
      ∀ out, r = Ok out → (∃ pth, pth ∈ x :: l ∧ same_place pth) → ∃ pol, pol ∈ out ∧ speaks pol) w1) as Hrest.
  { intros found Hf w1'. eapply wp_next; [apply IH|intros e [H3 _]; by split; [|intros ? [=]]|].
    intros rest w2 [_ H4]. split; [done|]. intros out [= <-] (pth & Hin & Hp).
    apply elem_of_cons in Hin as [->|Hin].
    - destruct (Hf Hp) as (pol & ? & ?). exists pol. split; [set_solver|done].
    - destruct (H4 rest eq_refl) as (pol & ? & ?); [by exists pth|]. exists pol. split; [set_solver|done]. }
  destruct r as [pol|[|e]]; [|done|].
  - apply Hrest. intros Hp. destruct (H2 Hp) as [(pol' & [= <-] & Hs)|(e & [=] & _)]. exists pol.
    split; [|done]. destruct (Hlive _ Hs) as (_ & _ & Ht). apply Is_true_true_1 in Ht as ->. by left.
  - destruct e; try (split; [done|by intros ? [=]]). apply Hrest. intros Hp.
    destruct (H2 Hp) as [(? & [=] & _)|(e & [= <-] & He)]. by destruct (He path0).
Qed.

Context (path0 : string) (Hnorm : normalize path0 = Ok path) (Hdeep : length (split "/" path) + 3 ≤ LEVELS).

(** The listing of a tree with the policy in it names the policy. *)
Lemma listing_names m root :
  path_is_secret (ps_prefix st) = false → in_tree m root →
  ∃ pp start, parse (ps_prefix st) = Ok pp ∧ value_at m root pp = Some start ∧ Walks.intact LEVELS m start ∧
    length (gather listed LEVELS m start (list_base (ps_prefix st))) ≤ MAX_RESULTS ∧
    ∃ pth, same_place pth ∧ ∃ leaf, leaf ∈ gather listed LEVELS m start (list_base (ps_prefix st)) ∧
      path_is_secret leaf = false ∧ policy_of_leaf (ps_prefix st) None leaf = Some pth.
Proof.
  intros Hsec (pp & start & p & o & j & pol & H1 & H2 & H3 & H4 & H5 & H6 & H7 & H8 & H9).
  exists pp, start. split_and!; [exact H1|exact H2|exact H3|exact H4|].
  destruct (normal_path path0 path _ pp p Hnorm H1 H5) as (Hne & q & -> & Hq & Hc & Hl & Hd).
  exists (policy_text q). split; [eexists; split; [exact H5|by apply policy_active_parses]|].
  assert (list_base (ps_prefix st) = ps_prefix st) as ->.
  { unfold list_base. rewrite (bool_decide_eq_false_2 (ps_prefix st = "/")) // orb_false_r. by case_bool_decide. }
  destruct (record_leaf _ m o j (ps_prefix st +:+ slashed (display_component <$> q ++ [Key META_KEY])) H7 (policy_json_record _ _ H8))
    as (f & i & a & Hrow & Ha & Hf & Hh).
  exists (ps_prefix st +:+ slashed (display_component <$> q ++ [Key META_KEY; Key f])). split_and!.
  - assert (LEVELS = length (q ++ [Key META_KEY]) + S (S (LEVELS - length q - 3))) as ->
      by (rewrite length_app Hl /=; lia).
    eapply gather_along; [by eapply value_at_app|]. eapply gather_row; [exact Hrow|exact Ha|].
    rewrite gather_S. apply elem_of_app. left. unfold listed. cbn [fst snd].
    assert (q ++ [Key META_KEY; Key f] = (q ++ [Key META_KEY]) ++ [Key f]) as -> by by rewrite -app_assoc.
    rewrite (fmap_app _ (q ++ _)) slashed_app -string_app_assoc. csimpl. apply list_elem_of_singleton. unfold leaf_path.
    rewrite bool_decide_eq_false_2 //. cbn [slashed]. intros E. apply (f_equal String.length) in E.
    rewrite !string_app_length /= in E. lia.
  - by apply policy_leaf_public.
  - by apply leaf_names_policy.
Qed.

Definition list_post (r : result RE (list string)) : Prop :=
  match r with
  | Ok leaves => ∃ pth, same_place pth ∧ pth ∈ omap (policy_of_leaf (ps_prefix st) None) leaves
  | Err OutOfFuel => False
  | Err (Fail e) => is_path_not_found e = false
  end.

Lemma wp_list_paths w : wpf (list_paths (ps_repo st) ref_name (ps_prefix st) None) (λ r _, list_post r) w.
Proof.
  unfold list_paths. destruct (path_is_secret (ps_prefix st)) eqn:Hsec; [done|].
  apply wp_head. intros c w1 Hg1 Hs1. apply wp_bind, wp_reads. intros w2 Hi2 Hg2. cbn [default].
  destruct (seen_root_stable _ _ _ Hi2 Hg2 Hs1) as [Ha Ht].
  destruct (listing_names _ _ Hsec Ht) as (pp & start & H1 & H2 & H3 & H4 & pth & Hpth & leaf & Hleaf & Hpub & Hname).
  assert (∃ r, objects (w_store w2) !! state_root c = Some r) as [r Hr] by (apply value_at_inv in H2 as (r & Hr & _); by exists r).
  assert (tree_list_paths (w_store w2) (state_root c) (ps_prefix st) 50 =
    Ok (gather listed LEVELS (objects (w_store w2)) start (list_base (ps_prefix st)))) as ->.
  { unfold tree_list_paths, load_root.
    rewrite (read_child_ok _ (objects (w_store w2)) (state_root c) r) //. cbn [mbind result_bind].
    rewrite (list_start (w_store w2) (state_root c) (ps_prefix st) pp start r) //. cbn [mbind result_bind].
    rewrite (list_from_start (w_store w2) start (list_base (ps_prefix st)) 50) levels_listed; [|exact H3].
    by rewrite take_ge. }
  cbn [stop_tree list_post]. exists pth. split; [done|]. apply list_elem_of_omap. exists leaf. split; [|done].
  apply elem_of_List_filter. by rewrite Hpub.
Qed.

Lemma wp_list_scoped w :
  wpf (list_scoped st ref_name None tenant_filter) (λ r _, r ≠ Err OutOfFuel ∧
    ∀ out, r = Ok out → ∃ pol, pol ∈ out ∧ speaks pol) w.
Proof.
  unfold list_scoped. eapply wp_follow; [apply wp_list_paths|]. intros [leaves|[|e]] w1 Hr; [|done|].
  - destruct Hr as (pth & Hp & Hin).
    eapply (wp_mono in_force keeps_stored); [|apply wp_load_all]. intros r w2 _ [H1 H2]. split; [done|].
    intros out Hout. apply (H2 out Hout). exists pth. split; [|done].
    by rewrite elem_of_dedup merge_sort_Permutation.
  - simpl in Hr. rewrite Hr. by split; [|intros ? [=]].
Qed.

Lemma wp_active_scoped w :
  wpf (active_scoped st now ref_name None tenant_filter) (λ r _, r ≠ Err OutOfFuel ∧
    ∀ out, r = Ok out → ∃ pol, pol ∈ out ∧ speaks pol) w.
Proof.
  unfold active_scoped. eapply wp_next; [apply wp_list_scoped|intros e [He _]; split; [by intros [= ->]|by intros ? [=]]|].
  intros l w1 [_ H]. split; [done|]. intros out [= <-]. destruct (H l eq_refl) as (pol & Hin & Hs). exists pol.
  split; [|done]. destruct (Hlive _ Hs) as (Ha & Hg & _). by rewrite !elem_of_List_filter.
Qed.
End force.

(** ** Proposals *)

(** A policy that goes to the local evaluation. *)
Definition is_local (st : PolicyStore) (p : Policy) : Prop :=
  ps_external_evaluators st = None ∨ external_evaluator p = None.

Lemma local_partition st policies p :
  p ∈ policies → is_local st p → p ∈ (partition_for_dispatch st policies).1.
Proof.
  unfold partition_for_dispatch. intros Hp Hl. destruct (ps_external_evaluators st) as [registry|] eqn:E; [|done].
  destruct Hl as [?|Hl]; [congruence|]. simpl. apply list_elem_of_omap. exists (inl p). split; [|done].
  apply list_elem_of_omap. exists p. split; [done|]. unfold dispatch. by rewrite Hl.
Qed.

Lemma field_gate_strength c p d : field_gate c p = Some d → strength d = 2.
Proof. unfold field_gate. destruct (missing_fields p c); [done|]. destruct (approval_hint p _) as [[? ?] ?]. by intros [= <-]. Qed.

(** What a proposal has to fear of a policy: a field it lacks, or a rule. *)
Definition restrains (c : ChangeProposal) (p : Policy) : Prop :=
  tokens_intersect (triggers p) (prop_tokens c) ∧
  (missing_fields p c ≠ [] ∨ ∃ v, v ∈ own_verdicts (prop_action c) p ∧ 2 ≤ strength v).

(** A proposal that a policy restrains is denied or needs an approval. *)
Lemma evaluate_change_restrained policies c p :
  p ∈ policies → restrains c p → 2 ≤ strength (evaluate_change policies c).
Proof.
  intros Hp [Ht Hr]. unfold evaluate_change.
  assert (p ∈ List.filter (λ p, tokens_intersect (triggers p) (prop_tokens c)) policies) as Hin by by apply elem_of_List_filter.
  set (consulted := List.filter _ policies) in *. destruct consulted as [|q l] eqn:E; [by apply elem_of_nil in Hin|].
  destruct (first_of (field_gate c) (q :: l)) as [d|] eqn:Hd.
  { apply first_of_some in Hd as (? & _ & ->%field_gate_strength). lia. }
  destruct Hr as [Hm|(v & Hv & Hn)].
  - pose proof (first_of_none _ _ Hd p Hin) as H. unfold field_gate in H. destruct (missing_fields p c); [done|].
    by destruct (approval_hint p _) as [[? ?] ?].
  - trans (strength v); [done|]. apply evaluate_matched_strictest. apply list_elem_of_bind. by exists p.
Qed.

(** ** Properties *)

(** C13: What an evaluation of a request answers is the strictest of what the
    policies that match it say, each through its engine when it has one: deny
    before approval before allow, one of their own decisions, and no match only
    when none of them decides. *)
Theorem evaluation_is_strictest `{CH : ContentHash, RX : Regexes, PS : PolicySerde} st now ref_name s action agent_id
    tenant_filter w :
  match run (evaluate_scoped st now ref_name s action agent_id tenant_filter) w with
  | (Ok d, w') => ∃ matched,
      run (policies_for_situation_scoped st now ref_name s tenant_filter) w = (Ok matched, w') ∧
      strictest d (matched ≫= verdicts st s action agent_id) ∧
      Forall (λ p, is_currently_active p now ∧ signature_passes st p ∧ selector_matches (situation_selector p) s) matched
  | (Err e, w') => run (policies_for_situation_scoped st now ref_name s tenant_filter) w = (Err e, w')
  end.
Proof.
  unfold evaluate_scoped. rewrite run_bind. unfold mbind, stateful_bind.
  destruct (run (policies_for_situation_scoped _ _ _ _ _) w) as [[matched|e] w'] eqn:E; [|done].
  pose proof (decision_strictest st s action agent_id matched) as Hd.
  destruct (partition_for_dispatch st matched) as [locals externals]. exists matched. split_and!; [done|done|].
  unfold policies_for_situation_scoped, active_scoped in E.
  apply run_bind_ok in E as (l1 & w1 & E1 & E). injection E as <- _.
  apply run_bind_ok in E1 as (l & w2 & _ & E1). injection E1 as <- _.
  apply Forall_forall. intros p. rewrite !elem_of_List_filter. tauto.
Qed.

(** C11: A policy in force is heeded: while the ref's head, whichever it is, has at
    the policy's path the record of a live policy that matches the request, an
    evaluation that answers, answers no less than the policy says, whatever
    others write between its steps; and it never runs out of fuel. *)
Theorem policy_heeded `{CH : ContentHash, HA : !HashAcyclic, RX : Regexes, PS : PolicySerde, PL : !PolicySerdeLaws}
    st now ref_name s action agent_id tenant_filter path0 path n w w' r :
  let speaks p := live st now tenant_filter p ∧ selector_matches (situation_selector p) s ∧
    ∃ v, v ∈ verdicts st s action agent_id p ∧ n ≤ strength v in
  normalize path0 = Ok path → length (split "/" path) + 3 ≤ LEVELS →
  in_force st ref_name path speaks w →
  rtc (amid (λ w w', in_force st ref_name path speaks w' ∧ keeps_stored w w'))
    (evaluate_scoped st now ref_name s action agent_id tenant_filter, w) (Ret r, w') →
  match r with Ok d => n ≤ strength d | Err e => e ≠ OutOfFuel end.
Proof.
  intros speaks Hnorm Hdeep Hin Hrun.
  apply (amid_sound _ _ _ _ (λ r, match r with Ok d => n ≤ strength d | Err e => e ≠ OutOfFuel end) _ _ Hrun Hin); [|done].
  unfold evaluate_scoped, policies_for_situation_scoped.
  eapply (wp_next st ref_name path speaks _ _ (λ r, r ≠ Err OutOfFuel ∧ ∀ out, r = Ok out → ∃ pol, pol ∈ out ∧ speaks pol));
    [|intros e [He _] ->; done|].
  - eapply wp_next; [eapply wp_active_scoped; [by intros p [? _]|exact Hnorm|exact Hdeep]|
      intros e [He _]; split; [by intros [= ->]|by intros ? [=]]|].
    intros l w1 [_ H]. split; [done|]. intros out [= <-]. destruct (H l eq_refl) as (pol & Hpol & Hs). exists pol.
    split; [|done]. destruct Hs as (_ & Hm & _). by rewrite elem_of_List_filter.
  - intros matched w1 [_ H]. destruct (H matched eq_refl) as (pol & Hpol & Hs).
    pose proof (decision_strictest st s action agent_id matched) as Hd.
    destruct (partition_for_dispatch st matched) as [locals externals]. simpl.
    destruct Hs as (_ & _ & v & Hv & Hn). trans (strength v); [done|]. apply Hd. apply list_elem_of_bind. by exists pol.
Qed.

(** C12: A policy that is evaluated here and restrains a proposal is heeded while
    it stays in force. It is live: in its time, signed as asked, of the tenant.
    It is local: it names no engine, or no engines are installed. It restrains:
    it is triggered, and lacks a field it requires or has a rule against the
    action. While the ref's head, whichever it is, has at the policy's path, of
    a depth the listing reaches, the record of such a policy, an evaluation that
    answers denies the proposal or asks for an approval, whatever others write
    between its steps; and it never runs out of fuel. *)
Theorem change_heeded `{CH : ContentHash, HA : !HashAcyclic, RX : Regexes, PS : PolicySerde, PL : !PolicySerdeLaws}
    st now ref_name c tenant_filter path0 path w w' r :
  let speaks p := live st now tenant_filter p ∧ is_local st p ∧ restrains c p in
  normalize path0 = Ok path → length (split "/" path) + 3 ≤ LEVELS →
  in_force st ref_name path speaks w →
  rtc (amid (λ w w', in_force st ref_name path speaks w' ∧ keeps_stored w w'))
    (evaluate_change_scoped st now ref_name c tenant_filter, w) (Ret r, w') →
  match r with Ok d => is_deny d ∨ is_approval d | Err e => e ≠ OutOfFuel end.
Proof.
  intros speaks Hnorm Hdeep Hin Hrun.
  apply (amid_sound _ _ _ _ (λ r, match r with Ok d => is_deny d ∨ is_approval d | Err e => e ≠ OutOfFuel end) _ _ Hrun Hin);
    [|done].
  unfold evaluate_change_scoped.
  eapply wp_next; [eapply wp_active_scoped; [by intros p [? _]|exact Hnorm|exact Hdeep]|by intros e [He _] ->|].
  intros actives w1 [_ H]. destruct (H actives eq_refl) as (pol & Hpol & _ & Hl & Hr).
  pose proof (local_partition st actives pol Hpol Hl) as Hloc.
  destruct (partition_for_dispatch st actives) as [locals externals]. simpl in *.
  pose proof (evaluate_change_restrained locals c pol Hloc Hr) as H2.
  destruct (combine_strictest (run_externals st externals ∅ (prop_action c) (prop_agent_id c)) (evaluate_change locals c))
    as [_ Hmax]. specialize (Hmax (evaluate_change locals c) ltac:(set_solver)).
  destruct (combine_decisions _ _); simpl in *; [lia|by left|by right|lia].
Qed.

(** *** Witnesses *)

Module Shop.
Import Plain Samples.

(** Patterns are the text to find. *)
#[export] Instance plain_regexes : Regexes := {| Regex := string; regex_new := Some; is_match := contains |}.

(** Policies of one shape, told apart by their path. *)
Definition no_deploys (path : string) : Policy := {|
  policy_path := path; policy_version := 1; policy_situation := "in production";
  situation_selector := SelAll [SelEq "env" "prod"; SelGt "load" 5%Z]; policy_allow := [];
  policy_deny := [{| auth_action := "deploy"; auth_condition := None; auth_preconditions := [] |}];
  require_approval := []; procedure := None; triggers := ["prod"]; required_fields := ["cost"];
  policy_severity := SevAdvLow; proposed_by := "ann"; proposed_at := 0%Z; ratified_by := Some "bob";
  ratified_at := None; ratification_reasoning := None; active_from := 1%Z; policy_expires_at := None;
  supersedes := None; policy_signature := None; tenant_id := None; external_evaluator := None |}.

#[export] Instance plain_policies : PolicySerde := {|
  policy_to_json p := Ok (JObject [("path", JString (policy_path p))]);
  policy_from_json j :=
    match j with
    | JObject kvs =>
        match List.find (λ kv, bool_decide (kv.1 = "path")) kvs with
        | Some (_, JString path) => Ok (no_deploys path)
        | _ => Err "missing field `path`"
        end
    | _ => Err "invalid type"
    end |}.

#[export] Instance plain_policies_laws : PolicySerdeLaws.
Proof.
  split. intros j p. destruct j as [| | | | |kvs]; try done. simpl. destruct (List.find _ kvs) as [[k v]|] eqn:E; [|done].
  destruct v as [| | |v| |]; try done. intros _. left. exists kvs, v. split; [done|].
  apply List_find_Some in E as [E Hk]. apply bool_decide_spec in Hk. simpl in Hk. by subst.
Qed.

(** One policy, at [/policies/db/prod], on [main]. *)
Definition shop_json : Json :=
  JObject [("policies", JObject [("db", JObject [("prod", JObject [("_meta", JObject [("path", JString "db/prod")])])])])].
Definition shop_objects : MemoryStorage := (json_to_tree shop_json mem_new).2.
Definition shop_root : ObjectId := match (json_to_tree shop_json mem_new).1 with Ok i => i | Err _ => Oid "" end.
Definition shop_commit : Commit :=
  build (builder_new shop_root "system" (simple_authority "system" 0%Z) (new_intent "i0" Checkpoint "start")) 0%Z.
Definition shop : World := {|
  w_store := set_refs (put_commit shop_objects shop_commit) {[ ("default", "main") := commit_id shop_commit ]};
  w_specs := ∅ |}.

Definition guard : PolicyStore := ps_new plain_repo "/policies/" "ann".
Definition peak : Situation := {[ "env" := "prod"; "load" := "+12" ]}.
Definition rollout : ChangeProposal := {|
  prop_action := "deploy"; prop_agent_id := "bob"; prop_intent := "upgrade"; preferred_option := "now";
  alternatives := []; prop_tokens := ["prod"]; attached_fields := ∅ |}.

Definition shop_value (p : StatePath) : Object := default mk_null (value_at (objects (w_store shop)) shop_root p).
Definition at_policies : StatePath := [Key "policies"].
Definition at_record : StatePath := [Key "policies"; Key "db"; Key "prod"; Key META_KEY].

Lemma shop_in_force speaks : speaks (no_deploys "db/prod") → in_force guard "main" "db/prod" speaks shop.
Proof.
  intros Hs. assert (consistentb (w_store shop)) as Hc by (vm_compute; exact I). apply consistentb_spec in Hc.
  split; [exact (co_objects _ Hc)|].
  exists (commit_id shop_commit), shop_commit. split_and!; [by vm_compute|by vm_compute|].
  exists at_policies, (shop_value at_policies), at_record, (shop_value at_record),
    (JObject [("path", JString "db/prod")]), (no_deploys "db/prod").
  split_and!; [by vm_compute|by vm_compute| | |by vm_compute|by vm_compute|by vm_compute|by vm_compute|done].
  - apply indexable_intact, indexableb_spec. by vm_compute.
  - assert (length (gather listed LEVELS (objects (w_store shop)) (shop_value at_policies) (list_base (ps_prefix guard))) = 1) as ->
      by by vm_compute.
    unfold MAX_RESULTS, LIST_PATHS_MAX_RESULTS. lia.
Qed.

Lemma no_deploys_live tenant : live guard 10%Z tenant (no_deploys "db/prod").
Proof. split_and!; [by vm_compute|by vm_compute|by destruct tenant]. Qed.

Lemma no_deploys_denies : ∃ v, v ∈ verdicts guard peak "deploy" "bob" (no_deploys "db/prod") ∧ 3 ≤ strength v.
Proof. exists (DDeny "db/prod@1" "denied by db/prod"). split; [|by simpl]. apply list_elem_of_In. by left. Qed.

Lemma no_deploys_restrains : restrains rollout (no_deploys "db/prod").
Proof. split; [by vm_compute|]. by left. Qed.

Lemma peak_matches : selector_matches (situation_selector (no_deploys "db/prod")) peak.
Proof. by vm_compute. Qed.

Lemma amid_run {W E A} (R : relation W) (p : Prog W E A) w : rtc (amid R) (p, w) (Ret (run p w).1, (run p w).2).
Proof.
  revert w. induction p as [r|T f k IH]; intros w; [done|]. eapply rtc_l; [apply amid_own|]. apply IH.
Qed.

Definition ask : PP Decision := evaluate_scoped guard 10%Z "main" peak "deploy" "bob" None.
Definition ask_change : PP Decision := evaluate_change_scoped guard 10%Z "main" rollout (Some "acme").

Lemma policy_heeded_witness : ∃ d, (run ask shop).1 = Ok d ∧ 3 ≤ strength d.
Proof.
  pose proof (policy_heeded guard 10%Z "main" peak "deploy" "bob" None "/db/prod" "db/prod" 3 shop _ _
    ltac:(by vm_compute) ltac:(vm_compute; lia) (shop_in_force _ (conj (no_deploys_live None) (conj peak_matches no_deploys_denies)))
    (amid_run _ ask shop)) as H.
  assert (match (run ask shop).1 with Ok _ => true | Err _ => false end = true) as Hok by (vm_compute; reflexivity).
  destruct ((run ask shop).1) as [d|e]; [|done]. exists d. split; [reflexivity|exact H].
Defined.

Lemma change_heeded_witness : ∃ d, (run ask_change shop).1 = Ok d ∧ (is_deny d ∨ is_approval d).
Proof.
  pose proof (change_heeded guard 10%Z "main" rollout (Some "acme") "/db/prod" "db/prod" shop _ _
    ltac:(by vm_compute) ltac:(vm_compute; lia) (shop_in_force _ (conj (no_deploys_live (Some "acme")) (conj (or_introl eq_refl) no_deploys_restrains)))
    (amid_run _ ask_change shop)) as H.
  assert (match (run ask_change shop).1 with Ok _ => true | Err _ => false end = true) as Hok by (vm_compute; reflexivity).
  destruct ((run ask_change shop).1) as [d|e]; [|done]. exists d. split; [reflexivity|exact H].
Defined.
End Shop.
