(* ===== verification/Floats.v ===== *)
(** * Floats: numbers as 64-bit floats

    The conversions to [f64] the code takes from the language: of an integer,
    and of text. A float is its bit pattern; rounding is to the nearest, ties
    to the even one. *)
From S2P Require Import Prelude Objects Json.

Section rounding.
Local Open Scope Z_scope.

(** The floor of the base-2 logarithm of [n / d]. *)
Definition log2_ratio (n d : Z) : Z :=
  let k := Z.log2 n - Z.log2 d in
  if (if (0 <=? k) then n <? d * 2 ^ k else n * 2 ^ (- k) <? d) then k - 1 else k.

(** [n / d] to the nearest integer. *)
Definition round_ratio (n d : Z) : Z :=
  let q := n / d in
  match (2 * (n mod d)) ?= d with
  | Lt => q
  | Gt => q + 1
  | Eq => if Z.even q then q else q + 1
  end.

(** The float nearest [n / d]; a magnitude too great is infinite. The significand
    [m] times [2 ^ e] has the bits [(e + 1074) * 2 ^ 52 + m], subnormal or not. *)
Definition f64_of_ratio (n d : Z) : Z :=
  if n =? 0 then 0 else
  let e := Z.max (-1074) (log2_ratio n d - 52) in
  let m := if 0 <=? e then round_ratio n (d * 2 ^ e) else round_ratio (n * 2 ^ (- e)) d in
  Z.min f64_inf ((e + 1074) * 2 ^ 52 + m).

Definition f64_negate (b : Z) : Z := Z.lxor b (Z.shiftl 1 63).

(** [n as f64]. *)
Definition f64_of_Z (n : Z) : Z :=
  if n <? 0 then f64_negate (f64_of_ratio (- n) 1) else f64_of_ratio n 1.

(** The float nearest [m * 10 ^ e]. *)
Definition f64_of_decimal (m e : Z) : Z :=
  if 0 <=? e then f64_of_ratio (m * 10 ^ e) 1 else f64_of_ratio m (10 ^ (- e)).
End rounding.

(** ** Text *)

Definition is_digit (c : ascii) : bool := ((48 <=? code c) && (code c <=? 57))%N.

(** The digits at the front, and the rest. *)
Fixpoint span_digits (s : string) : string * string :=
  match s with
  | String c s' => if is_digit c then let '(a, b) := span_digits s' in (String c a, b) else (EmptyString, s)
  | EmptyString => (EmptyString, EmptyString)
  end.

Fixpoint digits_value (acc : Z) (s : string) : Z :=
  match s with
  | EmptyString => acc
  | String c s' => digits_value (acc * 10 + (Z.of_N (code c) - 48))%Z s'
  end.

(** An exponent: a sign, and digits to the end. *)
Definition parse_exponent (s : string) : option Z :=
  let '(negative, s) := match s with
    | String "-" s' => (true, s') | String "+" s' => (false, s') | _ => (false, s) end in
  match span_digits s with
  | (EmptyString, _) | (_, String _ _) => None
  | (ds, EmptyString) => Some (if negative : bool then - digits_value 0 ds else digits_value 0 ds)%Z
  end.

(** Digits with a point before, among or after them, and an exponent. *)
Definition parse_decimal (s : string) : option Z :=
  let '(whole, rest) := span_digits s in
  let '(frac, rest) := match rest with String "." rest => span_digits rest | _ => (EmptyString, rest) end in
  if bool_decide (whole = EmptyString) && bool_decide (frac = EmptyString) then None else
  let m := digits_value 0 (whole +:+ frac) in
  let shift := Z.of_nat (String.length frac) in
  match rest with
  | EmptyString => Some (f64_of_decimal m (- shift))
  | String ("e" | "E") rest => e ← parse_exponent rest; Some (f64_of_decimal m (e - shift))
  | _ => None
  end.

Definition f64_quiet_nan : Z := Z.shiftl 0x7FF8 48.

(** [s.parse::<f64>()]. *)
Definition parse_f64 (s : string) : option Z :=
  let '(negative, body) := match s with
    | String "-" s' => (true, s') | String "+" s' => (false, s') | _ => (false, s) end in
  let lower := to_ascii_lowercase body in
  magnitude ← (if decide (lower = "inf") then Some f64_inf else
               if decide (lower = "infinity") then Some f64_inf else
               if decide (lower = "nan") then Some f64_quiet_nan else parse_decimal body);
  Some (if negative : bool then f64_negate magnitude else magnitude).

(** ** Numbers of JSON *)

(** [Value::as_f64]. *)
Definition json_as_f64 (j : Json) : option Z :=
  match j with
  | JNumber (PosInt n) => Some (f64_of_Z (Z.of_N n))
  | JNumber (NegInt i) => Some (f64_of_Z i)
  | JNumber (FloatNum f) => Some f
  | _ => None
  end.

(** [Value::from] of a float: one that is not finite is null. *)
Definition json_of_f64 (f : Z) : Json := if f64_finite f then JNumber (FloatNum f) else JNull.
