(* ===== verification/Tables.v ===== *)
(** * Tables: the taint, reminder and epoch tables, and the control ref

    Models [agentstategraph/src/control_repo.rs], and what of
    [agentstategraph/src/repo.rs] changes epochs and reminders through it:
    every write to a table is marked pending, made, committed to the control
    ref and unmarked, and reconciling brings tables and control ref together.
    Operations are programs over the store all repositories share, with its
    table of reminders; the edits of one control tree, which read and write
    immutable objects, are one step. Fresh identifiers and clocks are
    arguments, and so are the orders in which hash tables are listed. *)
From S2P Require Import Prelude Objects Paths Json Intents Sessions Commits Epochs Taints Stores Memory.
From S2P Require Import Diffs Merges Trees TreeJson Specs Guards Ancestry Integrity Programs Repos.
From S2P Require Import Reminders Bundles Control.

(** The shared store with its table of reminders. *)
Record Site := {
  site_world : World;
  site_reminders : Reminders;
}.

Definition site_store (s : Site) : MemoryStorage := w_store (site_world s).
Definition with_world (s : Site) (w : World) : Site :=
  {| site_world := w; site_reminders := site_reminders s |}.
Definition with_site_store (s : Site) (st : MemoryStorage) : Site :=
  with_world s (with_store (site_world s) st).

Abbreviation T := (Prog Site ControlError).

Definition repo_fault (e : RE) : ControlError :=
  match e with OutOfFuel => CFuel | Fail e => CRepo e end.

(** ** Steps *)

Definition throw_site {A} (e : RepoError) : T A := fail (CRepo e).

(** One call of the storage interface, with its own error. *)
Definition call {A} (m : stateful MemoryStorage StorageError A) : Prog Site StorageError A := step (λ s,
  match m (site_store s) with (r, st) => (r, with_site_store s st) end).
Definition on_store {A} (m : stateful MemoryStorage StorageError A) : T A := map_error control_storage (call m).
(** A read that cannot fail. *)
Definition look {A} (f : MemoryStorage → A) : T A := on_store (reading (λ s, Ok (f s))).

(** A call of the reminder table. *)
Definition remind {A} (m : stateful Reminders ReminderError A) : Prog Site ReminderError A := step (λ s,
  match m (site_reminders s) with (r, t) => (r, {| site_world := site_world s; site_reminders := t |}) end).

(** A stretch of reads and writes of immutable objects. *)
Definition on_objects {A} (m : CM A) : T A := step (λ s,
  match m (site_store s) with (r, st) => (r, with_site_store s st) end).

(** An operation of the repository. *)
Definition in_site {A} (p : P A) : T A := map_error repo_fault (zoom site_world with_world p).

(** ** Names *)

Definition INDEXED_REF : string := "_control-indexed".
Definition PENDING_PREFIX : string := "_control-pending/".
Definition MAX_ATTEMPTS : nat := 64.

Inductive Kind : Type := TaintRecord | ReminderRecord | EpochRecord.

#[export] Instance Kind_eq_dec : EqDecision Kind.
Proof. solve_decision. Defined.
#[export] Instance Kind_countable : Countable Kind.
Proof.
  refine (inj_countable' (λ k, match k with TaintRecord => 0 | ReminderRecord => 1 | EpochRecord => 2 end)
    (λ n, match n with 0 => TaintRecord | 1 => ReminderRecord | _ => EpochRecord end) _).
  by intros [].
Defined.

Definition kind_str (k : Kind) : string :=
  match k with TaintRecord => "taint" | ReminderRecord => "reminder" | EpochRecord => "epoch" end.
Definition kind_parse (s : string) : option Kind :=
  if decide (s = "taint") then Some TaintRecord
  else if decide (s = "reminder") then Some ReminderRecord
  else if decide (s = "epoch") then Some EpochRecord else None.

(** [s.rsplit_once(sep)]. *)
Fixpoint rsplit_once (sep : ascii) (s : string) : option (string * string) :=
  match s with
  | EmptyString => None
  | String c s' =>
      match rsplit_once sep s' with
      | Some (a, b) => Some (String c a, b)
      | None => if decide (c = sep) then Some (EmptyString, s') else None
      end
  end.

(** The mark of a pending write; [nonce] is a fresh identifier without slashes. *)
Definition pending_mark (k : Kind) (id nonce : string) : string :=
  PENDING_PREFIX +:+ kind_str k +:+ "/" +:+ id +:+ "/" +:+ nonce.

Definition parse_mark (name : string) : option (Kind * string) :=
  rest ← strip_prefix PENDING_PREFIX name;
  '(kind, rest) ← split_once "/" rest;
  '(id, _) ← rsplit_once "/" rest;
  k ← kind_parse kind; Some (k, id).

(** What to commit to the control ref once the table write is done. *)
Inductive Stage : Type :=
  | StageRecord (k : Kind) (id : string)
  | StageMember (epoch : string) (commit : ObjectId).

Definition stage_key (s : Stage) : Kind * string :=
  match s with StageRecord k id => (k, id) | StageMember epoch _ => (EpochRecord, epoch) end.

Record ControlReport := {
  report_committed : bool;
  report_rebuilt : nat;
  report_skipped : list string;
}.
Definition no_report : ControlReport := {| report_committed := false; report_rebuilt := 0; report_skipped := [] |}.

(** ** Errors as text *)

Definition storage_error_display (e : StorageError) : string :=
  match e with
  | ObjectNotFound s => "object not found: " +:+ s
  | CommitNotFound s => "commit not found: " +:+ s
  | RefNotFound s => "ref not found: " +:+ s
  | NamespaceNotFound s => "namespace not found: '" +:+ s +:+ "' (create it with create_namespace before writing refs)"
  | NamespaceAlreadyExists s => "namespace already exists: '" +:+ s +:+ "'"
  | CasConflict name expected actual =>
      "CAS conflict: ref '" +:+ name +:+ "' expected " +:+ expected +:+ ", found " +:+ actual
  | DuplicateRef s => "duplicate ref: " +:+ s
  | Backend s => "storage backend error: " +:+ s
  | Serialization s => "serialization error: " +:+ s
  | EpochAlreadySealed id => "epoch '" +:+ id +:+ "' is already sealed"
  | SessionEnded id => "session '" +:+ id +:+ "' has already ended"
  | InvalidOperation s => "invalid operation: " +:+ s
  | SchemaTooNew backend found compatible_from supported =>
      "the " +:+ backend +:+ " database is at schema version " +:+ pretty found +:+
      ", which needs a build that understands version " +:+ pretty compatible_from +:+
      " or later; this build understands up to " +:+ pretty supported +:+ ". Upgrade AgentStateGraph"
  end.

(** The [Debug] form of a status. *)
Definition reminder_status_debug (s : ReminderStatus) : string :=
  match s with
  | RPending => "Pending" | RDue => "Due" | RAwaitingPermission => "AwaitingPermission"
  | RInProgress => "InProgress" | RCompleted => "Completed" | RSnoozed => "Snoozed" | RCancelled => "Cancelled"
  end.

Definition reminder_error_display (e : ReminderError) : string :=
  match e with
  | RemNotFound id => "reminder not found: " +:+ id
  | AlreadyTerminal id s =>
      "reminder " +:+ id +:+ " is already in a terminal state (" +:+ reminder_status_debug s +:+ ") and cannot be modified"
  | InvalidTransition id from to =>
      "invalid status transition for reminder " +:+ id +:+ ": " +:+ reminder_status_debug from +:+ " → " +:+ reminder_status_debug to
  | RequiresApproval id => "reminder " +:+ id +:+ " requires approval before execution (autonomous=false)"
  | RemStore msg => "storage error: " +:+ msg
  end.

Definition reminder_err (e : ReminderError) : ControlError := control_storage (Backend (reminder_error_display e)).

(** [CommitOptions::new]; [now] is when the authority is granted. *)
Definition options_new (agent : AgentId) (cat : IntentCategory) (descr : string) (intent : IntentId) (now : Time) :
    CommitOptions := {|
  opt_agent_id := agent; opt_authority := simple_authority agent now; opt_intent := new_intent intent cat descr;
  opt_reasoning := None; opt_confidence := None; opt_tool_calls := [] |}.

(** [CommitOptions::with_reasoning]. *)
Definition options_with_reasoning (o : CommitOptions) (r : string) : CommitOptions := {|
  opt_agent_id := opt_agent_id o; opt_authority := opt_authority o; opt_intent := opt_intent o;
  opt_reasoning := Some r; opt_confidence := opt_confidence o; opt_tool_calls := opt_tool_calls o |}.

Definition system_options : IntentCategory → string → IntentId → Time → CommitOptions := options_new "system".

Section tables.
Context `{CH : ContentHash, CS : CommitSerial, RJ : ReminderJson, SD : ControlSerde}.

(** ** Committing to the control ref *)

(** The times one attempt reads: of the edit and of the commit. *)
Record Instants := { at_edit : Time; at_commit : Time }.

Definition control_head : T (option ObjectId) := on_store (reading (λ s, get_ref s default_ns CONTROL_REF)).

Definition control_base (head : option ObjectId) : T (option ObjectId) :=
  match head with
  | None => mret None
  | Some h =>
      c ← look (λ s, get_commit s h);
      match c with Some c => mret (Some (state_root c)) | None => throw_site (CommitMissing (oid_display h)) end
  end.

Definition control_edit (base : option ObjectId) : T Sections :=
  match base with Some root => on_objects (edit_open root) | None => mret sections_empty end.

Definition put_commit_here (c : Commit) : T () := on_store (λ s, (Ok (), put_commit s c)).

(** Move the ref from the head it was read at. *)
Definition move_control (head : option ObjectId) (new : ObjectId) : T bool :=
  match head with
  | Some h => on_store (cas_ref default_ns CONTROL_REF h new)
  | None => on_store (create_ref default_ns CONTROL_REF new)
  end.

(** A commit of a control tree on the head, and the ref moved to it; [None] when
    another writer moved it first. *)
Definition land_control (head : option ObjectId) (root : ObjectId) (agent : AgentId) (auth : Authority) (i : Intent)
    (now : Time) : T (option ObjectId) :=
  let commit := build (builder_parents (builder_new root agent auth i) (option_list head)) now in
  _ ← put_commit_here commit;
  landed ← move_control head (commit_id commit);
  mret (if landed : bool then Some (commit_id commit) else None).

(** One turn of [control_commit]: the head it built on and the head after. *)
Definition control_attempt (o : CommitOptions) (stage : Time → Sections → T Sections) (t : Instants) :
    T (option (option ObjectId * ObjectId)) :=
  head ← control_head;
  base ← control_base head;
  edit ← control_edit base;
  edit ← stage (at_edit t) edit;
  root ← on_objects (write_sections edit);
  if decide (base = Some root) then mret (h ← head; Some (head, h)) else
  landed ← land_control head root (opt_agent_id o) (opt_authority o) (opt_intent o) (at_commit t);
  mret (id ← landed; Some (head, id)).

Definition control_commit (o : CommitOptions) (stage : Time → Sections → T Sections) (clock : nat → Instants) :
    T (option ObjectId * ObjectId) :=
  attempts MAX_ATTEMPTS 0 (CRepo WriteConflict) (λ i, control_attempt o stage (clock i)).

(** ** Writing through *)

(** Put what the stage names into the edit, as the tables hold it. *)
Definition stage_from_tables (stage : Stage) (now : Time) (edit : Sections) : T Sections :=
  match stage with
  | StageRecord TaintRecord id =>
      t ← look (λ s, get_taint s id);
      match t with Some t => on_objects (edit_put_taint t edit) | None => mret edit end
  | StageRecord ReminderRecord id =>
      r ← map_error reminder_err (remind (reading (λ m, Ok (rs_get id m))));
      match r with
      | Some r => on_objects (edit_put_reminder r now edit)
      | None => on_objects (edit_delete_reminder id now edit)
      end
  | StageRecord EpochRecord id =>
      e ← look (λ s, get_epoch s id);
      match e with
      | Some e =>
          edit ← on_objects (edit_put_epoch e edit);
          if bool_decide (epoch_commits e = []) then mret edit
          else on_objects (edit_add_members id (epoch_commits e) edit)
      | None => mret edit
      end
  | StageMember epoch commit => on_objects (edit_add_members epoch [commit] edit)
  end.

(** A call whose result is dropped: [let _ = ...]. *)
Definition ignoring {F A} (p : T A) : Prog Site F () := _ ← caught p; mret ().

(** The bookkeeping after a table write whose control commit landed. *)
Definition settle_write {F} (mark : string) (marked : ObjectId) (before : option ObjectId) (after : ObjectId) :
    Prog Site F () :=
  _ ← match before with
      | Some before =>
          if decide (before = after) then mret ()
          else ignoring (on_store (cas_ref default_ns INDEXED_REF before after))
      | None => mret ()
      end;
  ignoring (on_store (cas_delete_ref default_ns mark marked)).

(** [write_through]: [from_repo] is the conversion of the repository's errors
    into the caller's. *)
Definition write_through {E A} (from_repo : ControlError → E) (stage : Stage) (o : CommitOptions) (nonce : string)
    (clock : nat → Instants) (table : Prog Site E A) : Prog Site E A :=
  let mark := pending_mark (stage_key stage).1 (stage_key stage).2 nonce in
  let marked := oid_hash mark in
  _ ← map_error from_repo (on_store (set_ref default_ns mark marked));
  out ← caught table;
  match out with
  | Err e => _ ← ignoring (on_store (cas_delete_ref default_ns mark marked)); fail e
  | Ok out =>
      moved ← caught (control_commit o (stage_from_tables stage) clock);
      match moved with
      | Ok (before, after) => _ ← settle_write mark marked before after; mret out
      | Err (CRepo _) => mret out
      | Err e => fail (from_repo e)
      end
  end.

(** ** Rebuilding the tables *)

(** What became of a record. *)
Definition report_on (what : string) (r : result string bool) (rep : ControlReport) : ControlReport :=
  match r with
  | Ok true => {| report_committed := report_committed rep; report_rebuilt := S (report_rebuilt rep);
      report_skipped := report_skipped rep |}
  | Ok false => rep
  | Err e => {| report_committed := report_committed rep; report_rebuilt := report_rebuilt rep;
      report_skipped := report_skipped rep ++ [what +:+ ": " +:+ e] |}
  end.

Fixpoint rebuild_each {A} (rebuild : A → T (ControlReport → ControlReport)) (l : list A) (rep : ControlReport) : T ControlReport :=
  match l with
  | [] => mret rep
  | x :: l' => note ← rebuild x; rebuild_each rebuild l' (note rep)
  end.

Definition unresolve (t : Taint) : Taint := {|
  taint_id := taint_id t; taint_path := taint_path t; taint_name := taint_name t;
  kind := kind t; effect := effect t; severity := severity t; taint_reason := taint_reason t;
  taint_agent := taint_agent t; taint_commit_id := taint_commit_id t;
  taint_created_at := taint_created_at t; expires_at := expires_at t;
  resolved_at := None; resolved_by := None; resolved_reason := None; resolved_proof := None;
  propagate := propagate t; metadata := metadata t |}.

(** Whether the row changed, or the first call that failed. *)
Definition rebuild_taint_row (table : list Taint) (t : Taint) : Prog Site StorageError bool :=
  '(have, created) ← match List.find (taint_is (taint_id t)) table with
    | Some h => mret (h, false)
    | None => _ ← call (create_taint (unresolve t)); mret (unresolve t, true)
    end;
  recommitted ← (if bool_decide (taint_commit_id have ≠ taint_commit_id t) && bool_decide (taint_commit_id t ≠ EmptyString)
    then _ ← call (set_taint_commit_id (taint_id t) (taint_commit_id t)); mret true else mret false);
  resolved ← match resolved_at have, resolved_at t with
    | None, Some at_ =>
        _ ← call (resolve_taint (taint_id t) (default EmptyString (resolved_by t)) (default EmptyString (resolved_reason t))
              (resolved_proof t) at_); mret true
    | _, _ => mret false
    end;
  mret (created || recommitted || resolved).

Definition rebuild_taint (table : list Taint) (t : Taint) : T (ControlReport → ControlReport) :=
  r ← caught (rebuild_taint_row table t);
  mret (report_on ("taint " +:+ taint_id t) (map_err storage_error_display r)).

Definition rebuild_reminder_row (table : list Reminder) (id : string) (entry : ReminderEntry) : Prog Site ReminderError bool :=
  match entry, List.find (λ r, bool_decide (rem_id r = id)) table with
  | Live r _, None => _ ← remind (rs_save r); mret true
  | Live r _, Some h => if same_reminder r h then mret false else _ ← remind (rs_update r); mret true
  | Deleted _, Some _ => remind (rs_delete id)
  | Deleted _, None => mret false
  end.

Definition rebuild_reminder (table : list Reminder) (entry : string * ReminderEntry) : T (ControlReport → ControlReport) :=
  r ← caught (rebuild_reminder_row table entry.1 entry.2);
  mret (report_on ("reminder " +:+ entry.1) (map_err reminder_error_display r)).

Definition as_active (e : Epoch) : Epoch := {|
  epoch_id := epoch_id e; epoch_description := epoch_description e; root_intents := root_intents e;
  epoch_status := EpochActive; epoch_created_at := epoch_created_at e; sealed_at := None;
  seal_summary := None; seal_hash := None; epoch_commits := [];
  epoch_agents := epoch_agents e; epoch_branches := epoch_branches e; epoch_tags := epoch_tags e;
  sealed_commits := []; epoch_scope := epoch_scope e; epoch_namespace := epoch_namespace e |}.

(** A commit that isn't here can't join. *)
Fixpoint join_members (epoch : string) (had : gset ObjectId) (l : list ObjectId) : Prog Site StorageError bool :=
  match l with
  | [] => mret false
  | c :: l' =>
      here ← (if decide (c ∈ had) then mret false else call (reading (λ s, Ok (has_commit s c))));
      joined ← (if here : bool then _ ← call (set_commit_epoch c epoch); mret true else mret false);
      rest ← join_members epoch had l';
      mret (joined || rest)
  end.

(** [seal_now] is the time of a seal that has none. *)
Definition rebuild_epoch_row (seal_now : Time) (table : list Epoch) (members : option (gset ObjectId)) (e : Epoch) :
    Prog Site StorageError bool :=
  let have := List.find (epoch_is (epoch_id e)) table in
  '(status, created) ← match have with
    | Some h => mret (epoch_status h, false)
    | None => _ ← call (create_epoch (as_active e)); mret (EpochActive, true)
    end;
  joined ← (if bool_decide (status = EpochActive)
    then join_members (epoch_id e) (match have with Some h => list_to_set (epoch_commits h) | None => ∅ end)
           (match members with Some m => sorted_ids m | None => [] end)
    else mret false);
  sealed ← (if bool_decide (status = EpochActive) && bool_decide (epoch_status e ≠ EpochActive)
    then _ ← call (mem_seal_epoch (epoch_id e) (default EmptyString (seal_summary e)) (default seal_now (sealed_at e))
               (sealed_commits e) (default (oid_hash (epoch_id e)) (seal_hash e))); mret true
    else mret false);
  archived ← (if bool_decide (epoch_status e = EpochArchived) && bool_decide (status ≠ EpochArchived)
    then _ ← call (mem_archive_epoch (epoch_id e)); mret true else mret false);
  assigned ← match epoch_namespace e, have with
    | Some ns, Some h =>
        if bool_decide (epoch_namespace h = None) then call (assign_epoch_namespace (epoch_id e) ns) else mret false
    | _, _ => mret false
    end;
  mret (created || joined || sealed || archived || assigned).

Definition rebuild_epoch (seal_now : string → Time) (table : list Epoch) (members : gmap string (gset ObjectId)) (e : Epoch) :
    T (ControlReport → ControlReport) :=
  r ← caught (rebuild_epoch_row (seal_now (epoch_id e)) table (members !! epoch_id e) e);
  mret (report_on ("epoch " +:+ epoch_id e) (map_err storage_error_display r)).

(** ** Reconciling *)

(** What one attempt takes from the clock and the source of identifiers. *)
Record Fresh := {
  fresh_edit : Time;
  fresh_grant : Time;
  fresh_commit : Time;
  fresh_intent : IntentId;
  fresh_seal : string → Time;
}.

Definition pending_records (pending : list (string * ObjectId)) : gset (Kind * string) :=
  list_to_set (omap (λ p, parse_mark p.1) pending).

(** [list_epochs] leaves membership out; each epoch is read again. *)
Fixpoint epochs_with_members (l : list Epoch) : T (list Epoch) :=
  match l with
  | [] => mret []
  | e :: l' => full ← look (λ s, get_epoch s (epoch_id e)); rest ← epochs_with_members l'; mret (default e full :: rest)
  end.

(** The rows of the tables. *)
Record Rows := {
  row_taints : list Taint;
  row_reminders : list Reminder;
  row_epochs : list Epoch;
}.

Definition read_rows (inter : Reminders → list Reminder) : T Rows :=
  taints ← look (λ s, list_taints s None None true);
  reminders ← map_error reminder_err (remind (reading (λ m, Ok (rs_list inter filter_default m))));
  es ← look list_epochs;
  epochs ← epochs_with_members es;
  mret {| row_taints := taints; row_reminders := reminders; row_epochs := epochs |}.

Definition rows_empty (r : Rows) : bool :=
  bool_decide (row_taints r = []) && bool_decide (row_reminders r = []) && bool_decide (row_epochs r = []).

(** An epoch's record as the control tree has it. *)
Definition epoch_record (e : Epoch) : Epoch := epoch_with_lists e [] (merge_sort oid_le (sealed_commits e)).

Definition take_epoch (control : ControlState) (e : Epoch) (edit : Sections) : CM Sections :=
  edit ← (if decide (cs_epochs control !! epoch_id e = Some (epoch_record e)) then mret edit else edit_put_epoch e edit);
  if existsb (λ c, match cs_members control !! epoch_id e with Some m => bool_decide (c ∉ m) | None => true end) (epoch_commits e)
  then edit_add_members (epoch_id e) (epoch_commits e) edit else mret edit.

(** The rows the control ref lacks or holds differently, as a control tree. *)
Definition candidate_of (order : gset (Kind * string) → list (Kind * string)) (control : ControlState) (rows : Rows)
    (pending : gset (Kind * string)) (now : Time) : CM ObjectId :=
  edit ← edit_all edit_put_taint
    (List.filter (λ t, bool_decide (cs_taints control !! taint_id t ≠ Some t)) (row_taints rows)) sections_empty;
  edit ← edit_all (λ r, edit_put_reminder r now)
    (List.filter (λ r, bool_decide (cs_reminders control !! rem_id r = None)
                       || bool_decide ((ReminderRecord, rem_id r) ∈ pending)) (row_reminders rows)) edit;
  edit ← edit_all (λ ki, edit_delete_reminder ki.2 now)
    (List.filter (λ ki, bool_decide (ki.1 = ReminderRecord) && bool_decide (ki.2 ∉ (rem_id <$> row_reminders rows)))
      (order pending)) edit;
  edit ← edit_all (take_epoch control) (row_epochs rows) edit;
  write_sections edit.

(** The control ref at the tree merged: as it is, or on a new commit; [None] when
    another writer moved it first. *)
Definition take_rows (t : Fresh) (head base : option ObjectId) (merged : ObjectId) : T (option (option ObjectId * bool)) :=
  if decide (base = Some merged) then mret (Some (head, false)) else
  landed ← land_control head merged "system" (simple_authority "system" (fresh_grant t))
    (new_intent (fresh_intent t) Migrate "take the taint, reminder and epoch tables into the control ref") (fresh_commit t);
  mret (id ← landed; Some (Some id, true)).

(** The tables take every record they don't match. *)
Definition rebuild_tables (t : Fresh) (state : ControlState) (rows : Rows) (rep : ControlReport) : T ControlReport :=
  rep ← rebuild_each (rebuild_taint (row_taints rows)) (entries (cs_taints state)).*2 rep;
  rep ← rebuild_each (rebuild_reminder (row_reminders rows)) (entries (cs_reminders state)) rep;
  rebuild_each (rebuild_epoch (fresh_seal t) (row_epochs rows) (cs_members state)) (entries (cs_epochs state)).*2 rep.

(** The tables match the head, and what was pending has been taken. *)
Definition mark_settled (new_head : option ObjectId) (pending : list (string * ObjectId)) : T () :=
  _ ← match new_head with Some h => on_store (set_ref default_ns INDEXED_REF h) | None => mret () end;
  each (λ p, ignoring (on_store (cas_delete_ref default_ns p.1 p.2))) pending.

Section reconcile.
Context (inter : Reminders → list Reminder) (order : gset (Kind * string) → list (Kind * string)).

(** [None] when another writer moved the control ref first. *)
Definition try_reconcile_control (t : Fresh) : T (option ControlReport) :=
  head ← control_head;
  indexed ← on_store (reading (λ s, get_ref s default_ns INDEXED_REF));
  pending ← on_store (reading (λ s, list_refs s default_ns PENDING_PREFIX));
  if bool_decide (is_Some head) && bool_decide (head = indexed) && bool_decide (pending = []) then mret (Some no_report) else
  base ← control_base head;
  control ← match base with Some root => on_objects (read root) | None => mret control_default end;
  rows ← read_rows inter;
  if bool_decide (head = None) && rows_empty rows && bool_decide (pending = []) then mret (Some no_report) else
  candidate ← on_objects (candidate_of order control rows (pending_records pending) (fresh_edit t));
  merged ← match base with
    | Some root => m ← on_objects (control_merge root candidate); mret (merged_root m)
    | None => mret candidate
    end;
  taken ← take_rows t head base merged;
  match taken with
  | None => mret None
  | Some (new_head, committed) =>
      state ← on_objects (read merged);
      rep ← rebuild_tables t state rows {| report_committed := committed; report_rebuilt := 0; report_skipped := [] |};
      _ ← mark_settled new_head pending;
      mret (Some rep)
  end.

Definition reconcile_control (fresh : nat → Fresh) : T ControlReport :=
  attempts MAX_ATTEMPTS 0 (CRepo WriteConflict) (λ i, try_reconcile_control (fresh i)).

(** Opening a repository reconciles, and does not fail on it. *)
Definition open_repository (fresh : nat → Fresh) : T () :=
  r ← caught (reconcile_control fresh);
  match r with Ok _ | Err (CRepo _) => mret () | Err e => fail e end.
End reconcile.
End tables.
