(* ===== verification/Admin.v ===== *)
(** * Admin: taints, watches, epochs and writes of JSON

    Models the administration of taints of [agentstategraph/src/taint.rs], with
    the parameters of [agentstategraph-taint/src/types.rs], and what of
    [agentstategraph/src/repo.rs] goes through the control tables: epochs,
    reminders as a store, and writes of JSON with the escalation of watches
    after them. Each change is written through to the control ref ([Tables]).
    Fresh identifiers and clocks are arguments. *)
From S2P Require Import Prelude Objects Paths Json Intents Sessions Commits Epochs Taints Stores Memory.
From S2P Require Import Diffs Merges Trees TreeJson Specs Guards Ancestry Integrity Programs Repos.
From S2P Require Import Bundles Transfers Reminders Control Floats Tables.

(** ** Parameters *)

Record TaintParams := {
  tp_name : string; tp_effect : TaintEffect; tp_reason : string; tp_severity : TaintSeverity;
  tp_expires_at : option Time; tp_propagate : bool; tp_metadata : gmap string Json; tp_agent_id : AgentId;
}.

Record UntaintParams := { up_reason : string; up_proof : option string; up_agent_id : AgentId }.

Record QuarantineParams := {
  qp_name : string; qp_reason : string; qp_severity : TaintSeverity; qp_authorized_agents : list string;
  qp_expires_at : option Time; qp_propagate : bool; qp_agent_id : AgentId;
}.

Inductive WatchDirection : Type := Above | Below.

Record WatchParams := {
  wp_name : string; wp_reason : string; wp_metric : option string; wp_threshold : option Z;
  wp_direction : WatchDirection; wp_check_interval_secs : option N; wp_expires_at : option Time;
  wp_severity : TaintSeverity; wp_propagate : bool; wp_agent_id : AgentId;
}.

Record UnwatchParams := { np_reason : option string; np_agent_id : AgentId }.

(** What an administrative call takes from the clock, the source of identifiers
    and the tracing context: for the record, its intent commit, and the control
    commit. *)
Record Call := {
  call_id : string;
  call_now : Time;
  call_nonce : string;
  intent_id' : IntentId;
  intent_grant : Time;
  intent_clock : nat → Time;
  intent_trace : option CommitTrace;
  control_intent : IntentId;
  control_grant : Time;
  control_clock : nat → Instants;
}.

(** The text of a float. *)
Class F64Text := { f64_display : Z → string }.

(** The text of a repository error. *)
Class RepoText := { repo_error_display : RepoError → string }.

Section admin.
Context `{CH : ContentHash, CS : CommitSerial, RJ : ReminderJson, SD : ControlSerde}.

(** ** Intent commits *)

(** [write_taint_intent]: a commit that changes no state. *)
Definition write_taint_intent (r : Repository) (c : Call) (ref_name : string) (cat : IntentCategory) (descr : string)
    (agent : AgentId) (reasoning : option string) : P ObjectId :=
  let o := options_new agent cat descr (intent_id' c) (intent_grant c) in
  let o := match reasoning with Some why => options_with_reasoning o why | None => o end in
  attempts MAX_REF_CAS_ATTEMPTS 0 (Fail WriteConflict) (λ attempt,
    '(parent_id, is_branch) ← head_for_write r ref_name;
    parent ← require_commit parent_id (RefMissing ref_name);
    commit ← create_commit r (intent_clock c attempt) (intent_trace c) (state_root parent) [parent_id] o;
    landed ← move_ref r ref_name parent_id is_branch (commit_id commit);
    mret (if landed : bool then Some (commit_id commit) else None)).

(** ** Creating and resolving *)

Definition taint_through (c : Call) (id agent : string) (cat : IntentCategory) (descr : string) (table : T ()) : T () :=
  write_through (λ e, e) (StageRecord TaintRecord id)
    (options_new agent cat descr (control_intent c) (control_grant c)) (call_nonce c) (control_clock c) table.

(** What [taint], [quarantine] and [watch_path] do with the record they made. *)
Definition create_through (r : Repository) (c : Call) (ref_name : string) (cat : IntentCategory) (descr : string)
    (t : Taint) : T string :=
  _ ← taint_through c (taint_id t) (taint_agent t) cat descr (
    _ ← on_store (create_taint t);
    commit_id ← in_site (write_taint_intent r c ref_name cat descr (taint_agent t) (Some (taint_reason t)));
    on_store (set_taint_commit_id (taint_id t) (oid_display commit_id)));
  mret (taint_id t).

Definition taint (r : Repository) (c : Call) (ref_name path : string) (p : TaintParams) : T string :=
  create_through r c ref_name Intents.Taint ("taint " +:+ tp_name p +:+ " on " +:+ path +:+ ": " +:+ tp_reason p) {|
    taint_id := call_id c; taint_path := path; taint_name := tp_name p; kind := KTaint; effect := tp_effect p;
    severity := tp_severity p; taint_reason := tp_reason p; taint_agent := tp_agent_id p; taint_commit_id := EmptyString;
    taint_created_at := call_now c; expires_at := tp_expires_at p; resolved_at := None; resolved_by := None;
    resolved_reason := None; resolved_proof := None; propagate := tp_propagate p; metadata := tp_metadata p |}.

Definition quarantine (r : Repository) (c : Call) (ref_name path : string) (p : QuarantineParams) : T string :=
  create_through r c ref_name Quarantine ("quarantine " +:+ qp_name p +:+ " on " +:+ path +:+ ": " +:+ qp_reason p) {|
    taint_id := call_id c; taint_path := path; taint_name := qp_name p; kind := KQuarantine; effect := Block;
    severity := qp_severity p; taint_reason := qp_reason p; taint_agent := qp_agent_id p; taint_commit_id := EmptyString;
    taint_created_at := call_now c; expires_at := qp_expires_at p; resolved_at := None; resolved_by := None;
    resolved_reason := None; resolved_proof := None; propagate := qp_propagate p;
    metadata := {[ "authorized_agents" := JArray (JString <$> qp_authorized_agents p) ]} |}.

Definition direction_json (d : WatchDirection) : Json :=
  JString (match d with Above => "above" | Below => "below" end).

Definition watch_metadata (p : WatchParams) : gmap string Json :=
  let m : gmap string Json := ∅ in
  let m := match wp_metric p with Some s => <["metric" := JString s]> m | None => m end in
  let m := match wp_threshold p with Some t => <["threshold" := json_of_f64 t]> m | None => m end in
  let m := <["direction" := direction_json (wp_direction p)]> m in
  match wp_check_interval_secs p with Some i => <["check_interval_secs" := JNumber (PosInt i)]> m | None => m end.

Definition watch_path (r : Repository) (c : Call) (ref_name path : string) (p : WatchParams) : T string :=
  create_through r c ref_name Watch ("watch " +:+ wp_name p +:+ " on " +:+ path +:+ ": " +:+ wp_reason p) {|
    taint_id := call_id c; taint_path := path; taint_name := wp_name p; kind := KWatch; effect := Advisory;
    severity := wp_severity p; taint_reason := wp_reason p; taint_agent := wp_agent_id p; taint_commit_id := EmptyString;
    taint_created_at := call_now c; expires_at := wp_expires_at p; resolved_at := None; resolved_by := None;
    resolved_reason := None; resolved_proof := None; propagate := wp_propagate p; metadata := watch_metadata p |}.

Definition resolve_kind (r : Repository) (c : Call) (ref_name path taint_name' : string) (k : TaintKind) (cat : IntentCategory)
    (p : UntaintParams) : T () :=
  candidates ← look (λ s, list_taints s (Some path) (Some k) false);
  match List.find (λ t, bool_decide (taint_path t = path) && bool_decide (taint_name t = taint_name')) candidates with
  | None => throw_site (TaintRefused (TaintNotFound (kind_debug k +:+ ":" +:+ path +:+ ":" +:+ taint_name')) None)
  | Some target =>
      let descr := "resolve " +:+ kind_debug k +:+ " " +:+ taint_name' +:+ " on " +:+ path in
      taint_through c (taint_id target) (up_agent_id p) cat descr (
        _ ← on_store (resolve_taint (taint_id target) (up_agent_id p) (up_reason p) (up_proof p) (call_now c));
        _ ← in_site (write_taint_intent r c ref_name cat descr (up_agent_id p) (Some (up_reason p)));
        mret ())
  end.

Definition untaint (r : Repository) (c : Call) (ref_name path name : string) (p : UntaintParams) : T () :=
  resolve_kind r c ref_name path name KTaint Untaint p.
Definition unquarantine (r : Repository) (c : Call) (ref_name path name : string) (p : UntaintParams) : T () :=
  resolve_kind r c ref_name path name KQuarantine Unquarantine p.
Definition unwatch (r : Repository) (c : Call) (ref_name path name : string) (p : UnwatchParams) : T () :=
  resolve_kind r c ref_name path name KWatch Unwatch
    {| up_reason := default EmptyString (np_reason p); up_proof := None; up_agent_id := np_agent_id p |}.

(** ** Watches *)

(** A number, or text that is one. *)
Definition metric_number (j : Json) : option Z :=
  match json_as_f64 j with
  | Some n => Some n
  | None => s ← as_str j; parse_f64 s
  end.

Definition extract_metric (value : Json) (metric : string) : option Z :=
  match metric_number value with
  | Some n => Some n
  | None => match value with JObject m => v ← json_map m !! metric; metric_number v | _ => None end
  end.

Section watches.
Context `{FT : F64Text}.

Definition watch_direction (w : Taint) : string := default "above" (metadata w !! "direction" ≫= as_str).

(** A watch the value has crossed: its metric, threshold and the number now. *)
Definition watch_crossed (w : Taint) (value : Json) : option (string * Z * Z) :=
  metric ← metadata w !! "metric" ≫= as_str;
  threshold ← metadata w !! "threshold" ≫= json_as_f64;
  current ← extract_metric value metric;
  if (if decide (watch_direction w = "below") then f64_ltb current threshold else f64_ltb threshold current)
  then Some (metric, threshold, current) else None.

Definition auto_name (w : Taint) : string := "watch-threshold-exceeded-" +:+ taint_name w.

Definition escalation (w : Taint) (x : string * Z * Z) : TaintParams :=
  let '(metric, threshold, current) := x in {|
  tp_name := auto_name w; tp_effect := Warn;
  tp_reason := "Watch threshold exceeded: " +:+ metric +:+ " = " +:+ f64_display current +:+ " " +:+
    (if decide (watch_direction w = "below") then "<" else ">") +:+ " " +:+ f64_display threshold;
  tp_severity := severity w; tp_expires_at := None; tp_propagate := propagate w;
  tp_metadata := <["observed" := json_of_f64 current]> (<["threshold" := json_of_f64 threshold]>
    (<["metric" := JString metric]> (<["source_watch_id" := JString (taint_id w)]> (<["auto_escalated" := JBool true]> ∅))));
  tp_agent_id := "watch/" +:+ taint_id w |}.

Fixpoint escalate_each (r : Repository) (calls : string → Call) (ref_name : string) (value : Json) (l : list Taint) :
    T (list string) :=
  match l with
  | [] => mret []
  | w :: l' =>
      match watch_crossed w value with
      | None => escalate_each r calls ref_name value l'
      | Some x =>
          existing ← look (λ s, list_taints s (Some (taint_path w)) (Some KTaint) false);
          if existsb (λ t, bool_decide (taint_name t = auto_name w)) existing then escalate_each r calls ref_name value l' else
          id ← taint r (calls (taint_id w)) ref_name (taint_path w) (escalation w x);
          ids ← escalate_each r calls ref_name value l';
          mret (id :: ids)
      end
  end.

(** [calls] gives the fresh values for the taint of each watch. *)
Definition auto_escalate_watches (r : Repository) (calls : string → Call) (now : Time) (ref_name path : string) (value : Json) :
    T (list string) :=
  candidates ← look (λ s, check_taint s path now);
  escalate_each r calls ref_name value (List.filter (λ t, bool_decide (kind t = KWatch)) candidates).

(** ** Writing JSON *)

(** What a write takes from its surroundings. *)
Record Write := {
  write_now : Time;
  write_clock : nat → Time;
  write_trace : option CommitTrace;
  escalate_now : Time;
  escalate_calls : string → Call;
}.

(** The value as a stored object. *)
Definition value_object (value : Json) : P Object :=
  root_id ← on_tree (json_to_tree value);
  o ← read_store (λ s, stop_storage (map_err Fail (mem_get_object s root_id)));
  match o with Some o => mret o | None => throw_repo (RefMissing "value") end.

Definition after_write (r : Repository) (w : Write) (ref_name path : string) (value : Json) (o : CommitOptions) : T () :=
  if is_taint_lifecycle_intent (category (opt_intent o)) then mret () else
  _ ← auto_escalate_watches r (escalate_calls w) (escalate_now w) ref_name path value; mret ().

Definition set_json (r : Repository) (w : Write) (ref_name path : string) (value : Json) (o : CommitOptions) : T ObjectId :=
  obj ← in_site (value_object value);
  commit_id ← in_site (set_inner r (write_now w) (write_clock w) (write_trace w) ref_name path obj o);
  _ ← after_write r w ref_name path value o;
  mret commit_id.

(** Up to the escalation: a commit on [expected_head], and the ref moved to it. *)
Definition write_json_at (r : Repository) (w : Write) (ref_name : string) (expected_head : ObjectId) (path : string) (value : Json)
    (o : CommitOptions) : P ObjectId :=
  _ ← lift_repo (check_meta_guard path (opt_intent o));
  _ ← (if is_taint_lifecycle_intent (category (opt_intent o)) then mret [] else
       read_store (λ s, map_err Fail (pre_commit_taint_check s (write_now w) [path] o)));
  base ← require_commit expected_head (RefMissing ref_name);
  obj ← value_object value;
  state_path ← parse_repo_path path;
  new_root ← on_tree (tree_set (state_root base) state_path obj);
  new_commit ← create_commit r (write_clock w 0) (write_trace w) new_root [expected_head] o;
  landed ← advance_ref r ref_name expected_head (commit_id new_commit);
  if landed : bool then mret (commit_id new_commit) else throw_repo WriteConflict.

Definition set_json_cas_inner (r : Repository) (w : Write) (ref_name : string) (expected_head : ObjectId) (path : string)
    (value : Json) (o : CommitOptions) : T ObjectId :=
  commit_id ← in_site (write_json_at r w ref_name expected_head path value o);
  _ ← after_write r w ref_name path value o;
  mret commit_id.
End watches.

(** ** Epochs *)

Definition epoch_through {A} (c : Call) (id what : string) (table : T A) : T A :=
  write_through (λ e, e) (StageRecord EpochRecord id)
    (system_options Checkpoint ("epoch " +:+ id +:+ ": " +:+ what) (control_intent c) (control_grant c))
    (call_nonce c) (control_clock c) table.

Definition repo_create_epoch (r : Repository) (c : Call) (id descr : string) (roots : list IntentId) : T Epoch :=
  let epoch := with_namespace (epoch_new id descr roots (call_now c)) (ns_name (active_namespace r)) in
  _ ← epoch_through c id "create" (on_store (create_epoch epoch));
  mret epoch.

Definition create_epoch_scoped (r : Repository) (c : Call) (id descr : string) (roots : list IntentId) (scope : EpochScope) : T Epoch :=
  let epoch := with_scope (with_namespace (epoch_new id descr roots (call_now c)) (ns_name (active_namespace r))) scope in
  _ ← epoch_through c id "create" (on_store (create_epoch epoch));
  mret epoch.

Definition repo_get_epoch (id : string) : T Epoch :=
  e ← look (λ s, get_epoch s id);
  match e with Some e => mret e | None => throw_site (RefMissing ("epoch not found: " +:+ id)) end.

Definition SEAL_DOMAIN : string := "asg-epoch-seal-v1" +:+ String (ascii_of_nat 0) EmptyString.

Definition compute_seal_hash (id : string) (sealed : list ObjectId) : ObjectId :=
  oid_hash (SEAL_DOMAIN +:+ id +:+ String (ascii_of_nat 0) EmptyString +:+
            String.concat EmptyString (oid_bytes <$> merge_sort oid_le sealed)).

(** [order] lists a hash set. *)
Definition seal_epoch (order : gset ObjectId → list ObjectId) (r : Repository) (c : Call) (id summary : string) : T () :=
  epoch ← repo_get_epoch id;
  sealed ← match seal_ref (epoch_scope epoch) with
    | Some ref_name =>
        head ← on_store (reading (λ s, get_ref s (active_namespace r) ref_name));
        match head with
        | Some head =>
            seen ← in_site (read_store (λ s,
              stop_storage (reachable_commits_from (λ i, Ok (get_commit s i)) (history_fuel (commits s)) head)));
            mret (order seen)
        | None => mret []
        end
    | None => mret (epoch_commits epoch)
    end;
  epoch_through c id "seal" (on_store (mem_seal_epoch id summary (call_now c) sealed (compute_seal_hash id sealed))).

Definition repo_assign_epoch_namespace `{TX : Text} (c : Call) (id namespace : string) : T bool :=
  match namespace_new namespace with
  | Err e => throw_site (InvalidOp ("invalid namespace: " +:+ namespace_error_display e))
  | Ok _ => epoch_through c id "assign namespace" (on_store (assign_epoch_namespace id namespace))
  end.

Definition repo_list_epochs (r : Repository) : T (list EpochEntry) :=
  es ← look list_epochs;
  mret (to_entry <$> List.filter (λ e, epoch_binds_namespace e (active_namespace r)) es).
Definition list_all_epochs : T (list EpochEntry) := es ← look list_epochs; mret (List.map to_entry es).

Definition archive_epoch (c : Call) (id : string) : T () := epoch_through c id "archive" (on_store (mem_archive_epoch id)).

(** What making a commit does when an epoch is active. *)
Definition commit_in_epoch (c : Call) (epoch_id : string) (commit : Commit) : T () :=
  write_through (λ e, e) (StageMember epoch_id (commit_id commit))
    (system_options Checkpoint ("epoch " +:+ epoch_id +:+ ": add " +:+ oid_display (commit_id commit)) (control_intent c) (control_grant c))
    (call_nonce c) (control_clock c) (on_store (set_commit_epoch (commit_id commit) epoch_id)).

(** ** Reminders *)

(** An error of the reminder store, or what no error carries. *)
Inductive StoreFault : Type :=
  | Refused (e : ReminderError)
  | Broken (e : ControlError).

Section reminders.
Context `{RT : RepoText}.

Definition store_fault (e : ControlError) : StoreFault :=
  match e with CRepo e => Refused (RemStore (repo_error_display e)) | e => Broken e end.

Definition reminder_through {A} (c : Call) (id what : string) (table : Prog Site ReminderError A) : Prog Site StoreFault A :=
  write_through store_fault (StageRecord ReminderRecord id)
    (system_options Checkpoint ("reminder " +:+ id +:+ ": " +:+ what) (control_intent c) (control_grant c))
    (call_nonce c) (control_clock c) (map_error Refused table).

Definition repo_save (c : Call) (x : Reminder) : Prog Site StoreFault () :=
  reminder_through c (rem_id x) "save" (remind (rs_save x)).
Definition repo_rs_get (id : string) : Prog Site StoreFault (option Reminder) :=
  map_error Refused (remind (reading (λ m, Ok (rs_get id m)))).
Definition repo_update (c : Call) (x : Reminder) : Prog Site StoreFault () :=
  reminder_through c (rem_id x) "update" (remind (rs_update x)).
Definition repo_update_if_unchanged (c : Call) (expected new : Reminder) : Prog Site StoreFault bool :=
  reminder_through c (rem_id new) "update" (remind (rs_update_if_unchanged expected new)).
Definition repo_delete (c : Call) (id : string) : Prog Site StoreFault bool :=
  reminder_through c id "delete" (remind (rs_delete id)).
Definition repo_rs_list (inter : Reminders → list Reminder) (f : ReminderFilter) : Prog Site StoreFault (list Reminder) :=
  map_error Refused (remind (reading (λ m, Ok (rs_list inter f m)))).
End reminders.
End admin.
