(* ===== verification/Reconciles.v ===== *)
(** * Reconciles: what reconciling the control tables does

    Proofs about [Tables]: with nobody else about, reconciling takes every row
    into the control ref by the merge rules, brings the tables up to what the
    ref then holds, and leaves nothing for a second one to do. *)
From S2P Require Import Prelude Objects Paths Json Intents Sessions Commits Epochs Taints Stores Memory.
From S2P Require Import Diffs Merges Trees TreeJson Specs Guards Ancestry Integrity Programs Repos Rules Alone.
From S2P Require Import Heights Bundles Shallows Reminders Control Converge Records Tables Admin.

(** ** Running steps alone *)

Section runs.
Implicit Types d : Site.

Lemma run_then {E A B} (p : Prog Site E A) (k : A → Prog Site E B) d a d' :
  run p d = (Ok a, d') → run (p ≫= k) d = run (k a) d'.
Proof. intros H. by rewrite run_bind (stateful_seq _ _ _ _ _ H). Qed.

Lemma run_call {A} (m : stateful MemoryStorage StorageError A) d :
  run (call m) d = ((m (site_store d)).1, with_site_store d (m (site_store d)).2).
Proof. simpl. by destruct (m (site_store d)). Qed.

Lemma run_on_store {A} (m : stateful MemoryStorage StorageError A) d r st :
  m (site_store d) = (r, st) → run (on_store m) d = (map_err control_storage r, with_site_store d st).
Proof. intros H. unfold on_store. by rewrite run_map_error run_call H. Qed.

Lemma with_same_site d : with_site_store d (site_store d) = d.
Proof. destruct d as [[st sp] t]. done. Qed.

Lemma run_store_read {A} (f : MemoryStorage → result StorageError A) d a :
  f (site_store d) = Ok a → run (on_store (reading f)) d = (Ok a, d).
Proof. intros H. rewrite (run_on_store _ _ (Ok a) (site_store d)); [by rewrite with_same_site|]. by rewrite /reading H. Qed.

Lemma run_look {A} (f : MemoryStorage → A) d : run (look f) d = (Ok (f (site_store d)), d).
Proof. unfold look. by apply run_store_read. Qed.

Lemma run_on_objects {A} (m : CM A) d a st :
  m (site_store d) = (Ok a, st) → run (on_objects m) d = (Ok a, with_site_store d st).
Proof. intros H. simpl. by rewrite H. Qed.

Lemma run_ignoring {F A} (p : T A) d : run (ignoring p : Prog Site F ()) d = (Ok (), (run p d).2).
Proof. unfold ignoring. by rewrite (run_then _ _ _ _ _ (run_caught p d)). Qed.

Lemma run_remind_read {A} (f : Reminders → A) d :
  run (map_error reminder_err (remind (reading (λ m, Ok (f m))))) d = (Ok (f (site_reminders d)), d).
Proof. rewrite run_map_error. by destruct d. Qed.

Lemma run_first {E A} (p : nat → Prog Site E (option A)) n gave_up d a d' :
  run (p 0) d = (Ok (Some a), d') → run (attempts (S n) 0 gave_up p) d = (Ok a, d').
Proof. intros H. cbn [attempts]. by rewrite (run_then _ _ _ _ _ H). Qed.

Lemma with_site_store_twice d st st' : with_site_store (with_site_store d st) st' = with_site_store d st'.
Proof. done. Qed.
End runs.

(** ** The edits of control trees change objects only *)

Section edits.
Context `{CH : ContentHash, RJ : ReminderJson, SD : ControlSerde}.

Lemma only_objects_map_err {E F A} (f : E → F) (m : stateful MemoryStorage E A) :
  only_objects m → only_objects (map_err_st f m).
Proof. intros Hm s. specialize (Hm s). unfold map_err_st. by destruct (m s). Qed.

Lemma only_objects_put o : only_objects (put_control o).
Proof. apply only_objects_map_err. intros s. destruct (put_object o s) as [r s'] eqn:Hp. by eapply put_object_added. Qed.

Lemma only_objects_put_json j : only_objects (put_json j).
Proof.
  unfold put_json. destruct j as [j|e]; [|apply only_objects_throw]. apply only_objects_map_err. unfold json_to_tree.
  destruct (json_to_objects j) as [o out].
  apply only_objects_bind; [|intros; apply only_objects_ret]. apply only_objects_map_err, only_objects_batch.
Qed.

Lemma only_objects_put_ids ids : only_objects (put_ids ids).
Proof. apply only_objects_bind; [|intros; apply only_objects_ret]. apply only_objects_map_err, only_objects_batch. Qed.
Lemma only_objects_reads {E A} (m : stateful MemoryStorage E A) : (∀ s, (m s).2 = s) → only_objects m.
Proof. intros Hm s. rewrite Hm. apply (reflexivity (R := objects_added)). Qed.

Ltac only_edits := repeat first
  [ progress intros | apply only_objects_ret | apply only_objects_put | apply only_objects_put_json | apply only_objects_put_ids
  | apply only_objects_reading | apply only_objects_throw | solve [auto] | apply only_objects_bind | case_match ].

Lemma only_objects_edit_all {A} (edit : A → Sections → CM Sections) l sec :
  (∀ x sec, only_objects (edit x sec)) → only_objects (edit_all edit l sec).
Proof. intros He. revert sec. induction l as [|x l IH]; intros sec; cbn [edit_all]; only_edits. Qed.

Lemma only_objects_add_members epoch l sec : only_objects (edit_add_members epoch l sec).
Proof. unfold edit_add_members. only_edits. Qed.

Lemma only_objects_put_epoch e sec : only_objects (edit_put_epoch e sec).
Proof. unfold edit_put_epoch, put_epoch, put_map. only_edits. Qed.

Lemma only_objects_write sec : only_objects (write_sections sec).
Proof. unfold write_sections, put_map. only_edits. Qed.

Lemma only_objects_put_entry id e sec : only_objects (edit_put_entry id e sec).
Proof. unfold edit_put_entry, put_reminder, put_map, put_time, put_string. only_edits. Qed.

Lemma only_objects_put_taint t sec : only_objects (edit_put_taint t sec).
Proof. unfold edit_put_taint, put_taint. only_edits. Qed.

Lemma only_objects_merge a b : only_objects (control_merge a b).
Proof.
  assert (∀ n id x y, only_objects (merge_record n id x y)) as H1 by (intros []; unfold merge_record; only_edits).
  assert (∀ n theirs ours cs, only_objects (merge_records n theirs ours cs)) as H2.
  { intros n theirs. induction theirs as [|[id t] theirs IH]; intros ours cs; cbn [merge_records]; only_edits. }
  assert (∀ names x y cs, only_objects (merge_sections names x y cs)) as H3.
  { intros names. induction names as [|n names IH]; intros x y cs; cbn [merge_sections]; only_edits. }
  pose proof only_objects_write. unfold control_merge. only_edits.
Qed.

Lemma only_objects_candidate order control rows pending now : only_objects (candidate_of order control rows pending now).
Proof.
  pose proof only_objects_put_taint. pose proof only_objects_put_entry. pose proof only_objects_put_epoch.
  pose proof only_objects_add_members. pose proof only_objects_write. unfold candidate_of.
  repeat (apply only_objects_bind; [apply only_objects_edit_all; unfold take_epoch; only_edits|intros]). auto.
Qed.
End edits.

(** ** The rows as a control tree *)

Definition by_id {A B} (key : A → string) (val : A → B) (l : list A) : gmap string B :=
  list_to_map ((λ x, (key x, val x)) <$> l).

Lemma by_id_lookup {A B} (key : A → string) (val : A → B) l x :
  NoDup (key <$> l) → x ∈ l → by_id key val l !! key x = Some (val x).
Proof.
  intros Hn Hx. apply elem_of_list_to_map_1.
  - by rewrite -list_fmap_compose.
  - apply list_elem_of_fmap. by exists x.
Qed.

Lemma by_id_Some {A B} (key : A → string) (val : A → B) l k y :
  by_id key val l !! k = Some y → ∃ x, x ∈ l ∧ key x = k ∧ val x = y.
Proof. intros H%elem_of_list_to_map_2%list_elem_of_fmap. destruct H as (x & [= -> ->] & Hx). eauto. Qed.

Lemma by_id_None {A B} (key : A → string) (val : A → B) l k :
  by_id key val l !! k = None ↔ k ∉ key <$> l.
Proof. unfold by_id. rewrite -not_elem_of_list_to_map -list_fmap_compose. done. Qed.

Lemma NoDup_fmap_fst_eq {A B} (a : A) (l : list (A * B)) : (∀ x, x ∈ l → x.1 = a) → NoDup l → NoDup l.*2.
Proof.
  intros Ha. induction 1 as [|[a' b] l Hx Hl IH]; csimpl; [constructor|]. constructor.
  - intros ([a'' b'] & Hb & Hin)%list_elem_of_fmap. simpl in Hb. subst b'. apply Hx.
    pose proof (Ha (a', b) ltac:(by left)) as H1. pose proof (Ha (a'', b) ltac:(by right)) as H2. simpl in *. by subst.
  - apply IH. intros x ?. apply Ha. by right.
Qed.

Lemma NoDup_key_inj {A} (key : A → string) l x y : NoDup (key <$> l) → x ∈ l → y ∈ l → key x = key y → x = y.
Proof.
  intros Hn Hx Hy Hk. pose proof (by_id_lookup key id l x Hn Hx) as H1. rewrite Hk (by_id_lookup key id l y Hn Hy) in H1.
  by injection H1.
Qed.

(** A row of a sublist, by its key. *)
Lemma by_id_filter {A B} (key : A → string) (val : A → B) p l k :
  NoDup (key <$> l) →
  by_id key val (List.filter p l) !! k =
    (x ← (by_id key id l : gmap string A) !! k; if p x : bool then Some (val x) else None).
Proof.
  intros Hn. destruct ((by_id key id l : gmap string A) !! k) as [x|] eqn:Hx; simpl.
  - apply by_id_Some in Hx as (x' & Hin & <- & Hx). change (x' = x) in Hx. subst x'. destruct (p x) eqn:Hp.
    + apply by_id_lookup; [by apply NoDup_fmap_List_filter|]. apply elem_of_List_filter. by rewrite Hp.
    + apply by_id_None. intros (y & Hy & [Hiny Hpy]%elem_of_List_filter)%list_elem_of_fmap.
      assert (y = x) as Heq; [|by rewrite Heq Hp in Hpy]. by eapply (NoDup_key_inj key l).
  - apply by_id_None in Hx. apply by_id_None. intros (y & -> & [Hy _]%elem_of_List_filter)%list_elem_of_fmap.
    by apply Hx, list_elem_of_fmap_2.
Qed.

Section candidate.
Context `{CH : ContentHash, HA : !HashAcyclic, CF : !CollisionFree, RJ : ReminderJson, SD : ControlSerde}.
Context (order : gset (Kind * string) → list (Kind * string)) (Horder : ∀ X, NoDup (order X) ∧ ∀ x, x ∈ order X ↔ x ∈ X).
Context (control : ControlState) (pending : gset (Kind * string)) (now : Time).

(** Rows under ids of their own that serialize. *)
Record rows_ok (rows : Rows) : Prop := {
  ro_taint_ids : NoDup (taint_id <$> row_taints rows);
  ro_taints t : t ∈ row_taints rows → encodes taint_to_json taint_from_json t t;
  ro_reminder_ids : NoDup (rem_id <$> row_reminders rows);
  ro_reminders r : r ∈ row_reminders rows → encodes reminder_to_json reminder_from_json r r;
  ro_epoch_ids : NoDup (epoch_id <$> row_epochs rows);
  ro_epochs e : e ∈ row_epochs rows → epoch_encodes e ∧ Forall valid_oid (epoch_commits e);
}.

Definition new_taint (t : Taint) : bool := bool_decide (cs_taints control !! taint_id t ≠ Some t).
Definition new_reminder (r : Reminder) : bool :=
  bool_decide (cs_reminders control !! rem_id r = None) || bool_decide ((ReminderRecord, rem_id r) ∈ pending).
Definition gone_reminder (rows : Rows) (ki : Kind * string) : bool :=
  bool_decide (ki.1 = ReminderRecord) && bool_decide (ki.2 ∉ (rem_id <$> row_reminders rows)).
Definition new_epoch (e : Epoch) : bool := bool_decide (cs_epochs control !! epoch_id e ≠ Some (epoch_record e)).
Definition new_members (e : Epoch) : bool :=
  existsb (λ c, match cs_members control !! epoch_id e with Some m => bool_decide (c ∉ m) | None => true end) (epoch_commits e).

(** What the candidate holds. *)
Definition candidate_state (rows : Rows) : ControlState := {|
  cs_taints := by_id taint_id id (List.filter new_taint (row_taints rows));
  cs_reminders := by_id snd (λ _, Deleted now) (List.filter (gone_reminder rows) (order pending)) ∪
    by_id rem_id (λ r, Live r now) (List.filter new_reminder (row_reminders rows));
  cs_epochs := by_id epoch_id as_sets (List.filter new_epoch (row_epochs rows));
  cs_members := by_id epoch_id (λ e, list_to_set (epoch_commits e)) (List.filter new_members (row_epochs rows));
|}.

Lemma edit_single {A} (edit : A → Sections → CM Sections) e sec s r :
  edit_all edit [e] sec s = r → edit e sec s = r.
Proof.
  cbn [edit_all]. unfold mbind, stateful_bind. intros <-. by destruct (edit e sec s) as [[]].
Qed.

Lemma put_epoch_filed e sec s ve :
  addressed (objects s) → epoch_encodes e → ve !! epoch_id e = None → filed epoch_at (objects s) SEpochs sec ve →
  ∃ s' sec', edit_put_epoch e sec s = (Ok sec', s') ∧ later s s' ∧ (∀ n, n ≠ SEpochs → section n sec' = section n sec) ∧
    filed epoch_at (objects s') SEpochs sec' (<[epoch_id e := as_sets e]> ve).
Proof.
  intros Hs He Hv Hf.
  destruct (edit_all_ok epoch_at SEpochs epoch_id as_sets put_epoch edit_put_epoch [e] ve sec s) as (s' & sec' & R & L & O & F).
  { intros. by eapply epoch_at_mono. }
  { done. }
  { intros x s0 ->%list_elem_of_singleton Hs0. by apply put_epoch_ok. }
  { done. } { apply NoDup_singleton. } { by intros x ->%list_elem_of_singleton. } { done. }
  exists s', sec'. split_and!; [by apply edit_single|done..|]. csimpl in F. by rewrite -insert_union_l left_id_L in F.
Qed.

Lemma add_members_filed e sec s vm :
  addressed (objects s) → Forall valid_oid (epoch_commits e) → vm !! epoch_id e = None → filed members_at (objects s) SMembers sec vm →
  ∃ s' sec', edit_add_members (epoch_id e) (epoch_commits e) sec s = (Ok sec', s') ∧ later s s' ∧
    (∀ n, n ≠ SMembers → section n sec' = section n sec) ∧
    filed members_at (objects s') SMembers sec' (<[epoch_id e := list_to_set (epoch_commits e)]> vm).
Proof.
  intros Hs He Hv Hf.
  destruct (edit_all_ok members_at SMembers epoch_id (λ e, list_to_set (epoch_commits e))
    (λ e, put_ids (sorted_ids (list_to_set (epoch_commits e)))) (λ e, edit_add_members (epoch_id e) (epoch_commits e)) [e] vm sec s)
    as (s' & sec' & R & L & O & F).
  { intros. by eapply members_at_mono. }
  { intros x sec0 s0 Hk. cbn [section] in *. unfold edit_add_members. rewrite Hk (stateful_seq _ _ _ ∅ s0) //.
    rewrite right_id_L (bool_decide_false (is_Some None)); [|by intros [? ?]]. by rewrite andb_false_r. }
  { intros x s0 ->%list_elem_of_singleton Hs0.
    destruct (put_ids_ok (list_to_set (epoch_commits e)) s0) as (s' & ? & ? & ?); [done| |by eexists s', _].
    intros i Hi%elem_of_list_to_set. by apply (proj1 (Forall_forall _ _) He). }
  { done. } { apply NoDup_singleton. } { by intros x ->%list_elem_of_singleton. } { done. }
  exists s', sec'. split_and!; [|done..|].
  - exact (edit_single (λ e, edit_add_members (epoch_id e) (epoch_commits e)) e sec s _ R).
  - csimpl in F. by rewrite -insert_union_l left_id_L in F.
Qed.

(** One epoch's record and members, each taken if it is new. *)
Lemma take_epoch_filed e sec s ve vm :
  addressed (objects s) → epoch_encodes e → Forall valid_oid (epoch_commits e) → ve !! epoch_id e = None → vm !! epoch_id e = None →
  filed epoch_at (objects s) SEpochs sec ve → filed members_at (objects s) SMembers sec vm →
  ∃ s' sec', take_epoch control e sec s = (Ok sec', s') ∧ later s s' ∧
    (∀ n, n ≠ SEpochs → n ≠ SMembers → section n sec' = section n sec) ∧
    filed epoch_at (objects s') SEpochs sec' (if new_epoch e then <[epoch_id e := as_sets e]> ve else ve) ∧
    filed members_at (objects s') SMembers sec' (if new_members e then <[epoch_id e := list_to_set (epoch_commits e)]> vm else vm).
Proof.
  intros Hs He Hc Hve Hvm Fe Fm. unfold take_epoch.
  assert (∃ s1 sec1, (if decide (cs_epochs control !! epoch_id e = Some (epoch_record e)) then mret sec else edit_put_epoch e sec) s
      = (Ok sec1, s1) ∧ later s s1 ∧ (∀ n, n ≠ SEpochs → section n sec1 = section n sec) ∧
    filed epoch_at (objects s1) SEpochs sec1 (if new_epoch e then <[epoch_id e := as_sets e]> ve else ve)) as (s1 & c1 & R1 & L1 & O1 & F1).
  { unfold new_epoch. case_decide as Hd.
    - rewrite bool_decide_false; [|by intros ?]. exists s, sec. split_and!; [done|by apply later_refl|done..].
    - rewrite bool_decide_true //. by apply put_epoch_filed. }
  assert (filed members_at (objects s1) SMembers c1 vm) as Fm1.
  { intros k. rewrite O1 //. revert k. apply (filed_mono _ (objects s)); [|done]. intros. eapply members_at_mono; [apply L1|done]. }
  rewrite (stateful_seq _ _ _ _ _ R1). fold (new_members e). destruct (new_members e).
  - destruct (add_members_filed e c1 s1 vm) as (s2 & c2 & R2 & L2 & O2 & F2); [apply L1|done..|].
    exists s2, c2. split_and!; [done|by eapply later_trans|intros; by rewrite O2 // O1| |done].
    intros k. rewrite O2 //. revert k. apply (filed_mono _ (objects s1)); [|done]. intros. eapply epoch_at_mono; [apply L2|done].
  - exists s1, c1. split_and!; [done..|by intros; apply O1|done|done].
Qed.

Lemma by_id_cons {A B} (key : A → string) (val : A → B) p x l (m : gmap string B) :
  key x ∉ key <$> l → m !! key x = None →
  by_id key val (List.filter p l) ∪ (if p x : bool then <[key x := val x]> m else m) = by_id key val (List.filter p (x :: l)) ∪ m.
Proof.
  intros Hx Hm. cbn [List.filter]. destruct (p x); [|done]. unfold by_id. csimpl. rewrite -insert_union_l insert_union_r //.
  apply by_id_None. intros (y & Hy & [Hin _]%elem_of_List_filter)%list_elem_of_fmap. apply Hx. rewrite Hy. by apply list_elem_of_fmap_2.
Qed.

Lemma take_epochs_filed es sec s ve vm :
  addressed (objects s) → NoDup (epoch_id <$> es) → (∀ e, e ∈ es → epoch_encodes e ∧ Forall valid_oid (epoch_commits e)) →
  (∀ e, e ∈ es → ve !! epoch_id e = None ∧ vm !! epoch_id e = None) →
  filed epoch_at (objects s) SEpochs sec ve → filed members_at (objects s) SMembers sec vm →
  ∃ s' sec', edit_all (take_epoch control) es sec s = (Ok sec', s') ∧ later s s' ∧
    (∀ n, n ≠ SEpochs → n ≠ SMembers → section n sec' = section n sec) ∧
    filed epoch_at (objects s') SEpochs sec' (by_id epoch_id as_sets (List.filter new_epoch es) ∪ ve) ∧
    filed members_at (objects s') SMembers sec' (by_id epoch_id (λ e, list_to_set (epoch_commits e)) (List.filter new_members es) ∪ vm).
Proof.
  revert sec s ve vm. induction es as [|e es IH]; intros sec s ve vm Hs Hn He Hv Fe Fm.
  { exists s, sec. split_and!; [done|by apply later_refl|done|..]; unfold by_id; csimpl; by rewrite left_id_L. }
  csimpl in Hn. apply NoDup_cons in Hn as [Hne Hn]. destruct (He e) as [E1 E2]; [by left|]. destruct (Hv e) as [V1 V2]; [by left|].
  destruct (take_epoch_filed e sec s ve vm) as (s1 & c1 & R1 & L1 & O1 & F1 & G1); [done..|].
  cbn [edit_all]. rewrite (stateful_seq _ _ _ _ _ R1).
  destruct (IH c1 s1 (if new_epoch e then <[epoch_id e := as_sets e]> ve else ve)
    (if new_members e then <[epoch_id e := list_to_set (epoch_commits e)]> vm else vm) (proj1 L1) Hn)
    as (s2 & c2 & R2 & L2 & O2 & F2 & G2); [intros; apply He; by right| |exact F1|exact G1|].
  - intros x Hx. assert (epoch_id e ≠ epoch_id x) as Hk by (intros Heq; apply Hne; rewrite Heq; by apply list_elem_of_fmap_2).
    destruct (Hv x) as [W1 W2]; [by right|]. split; [by destruct (new_epoch e); rewrite ?lookup_insert_ne|].
    by destruct (new_members e); rewrite ?lookup_insert_ne.
  - exists s2, c2. rewrite !by_id_cons // in F2, G2. split_and!; [done|by eapply later_trans| |done|done].
    intros. by rewrite O2 // O1.
Qed.

(** A time that reads back. *)
Definition time_back (t : Time) : Prop := parse_rfc3339 (to_rfc3339 t) = Ok t.

Lemma candidate_ok rows s :
  addressed (objects s) → rows_ok rows → time_back now →
  ∃ root s', candidate_of order control rows pending now s = (Ok root, s') ∧ later s s' ∧
    holds_state (objects s') root (candidate_state rows).
Proof.
  intros Hs [T1 T2 M1 M2 E1 E2] Hnow. unfold candidate_of.
  destruct (edit_all_ok taint_at STaints taint_id id put_taint edit_put_taint (List.filter new_taint (row_taints rows)) ∅ sections_empty s)
    as (s1 & c1 & R1 & L1 & O1 & F1).
  { intros. by eapply taint_at_mono. }
  { done. }
  { intros t s0 [Ht _]%elem_of_List_filter Hs0. apply put_taint_ok; [done|by apply T2]. }
  { done. } { by apply NoDup_fmap_List_filter. } { done. } { by apply filed_start. }
  rewrite right_id_L in F1. rewrite (stateful_seq _ _ _ _ _ R1).
  destruct (edit_all_ok entry_at SReminders rem_id (λ r, Live r now) (λ r, put_reminder (Live r now)) (λ r, edit_put_reminder r now)
    (List.filter new_reminder (row_reminders rows)) ∅ c1 s1) as (s2 & c2 & R2 & L2 & O2 & F2).
  { intros. by eapply entry_at_mono. }
  { done. }
  { intros r s0 [Hr _]%elem_of_List_filter Hs0. apply put_reminder_ok; [done|]. split; [by apply M2|done]. }
  { apply L1. } { by apply NoDup_fmap_List_filter. } { done. } { apply filed_start. by rewrite O1. }
  rewrite right_id_L in F2. rewrite (stateful_seq _ _ _ _ _ R2).
  destruct (edit_all_ok entry_at SReminders snd (λ _, Deleted now) (λ _, put_reminder (Deleted now)) (λ ki, edit_delete_reminder ki.2 now)
    (List.filter (gone_reminder rows) (order pending)) (by_id rem_id (λ r, Live r now) (List.filter new_reminder (row_reminders rows))) c2 s2)
    as (s3 & c3 & R3 & L3 & O3 & F3).
  { intros. by eapply entry_at_mono. }
  { done. }
  { intros ki s0 _ Hs0. by apply put_reminder_ok. }
  { apply L2. }
  { destruct (Horder pending) as [Hn _]. apply (NoDup_fmap_fst_eq ReminderRecord); [|by apply NoDup_ListNoDup, List.NoDup_filter, NoDup_ListNoDup].
    intros ki [_ Hk]%elem_of_List_filter. by apply andb_True in Hk as [?%bool_decide_unpack _]. }
  { intros ki [_ Hk]%elem_of_List_filter. apply andb_True in Hk as [_ Hk%bool_decide_unpack]. apply by_id_None.
    intros (r & Hrk & [Hr _]%elem_of_List_filter)%list_elem_of_fmap. apply Hk. rewrite Hrk. by apply list_elem_of_fmap_2. }
  { exact F2. }
  rewrite (stateful_seq _ _ _ _ _ R3).
  destruct (take_epochs_filed (row_epochs rows) c3 s3 ∅ ∅) as (s4 & c4 & R4 & L4 & O4 & F4 & G4);
    [apply L3|done|done|done|apply filed_start; by rewrite O3 // O2 // O1..|].
  rewrite right_id_L in F4. rewrite right_id_L in G4. rewrite (stateful_seq _ _ _ _ _ R4).
  destruct (write_sections_ok c4 s4) as (s' & R & L & Hsec); [apply L4|].
  exists (root_of c4), s'. pose proof (later_trans _ _ _ L4 L) as L4'.
  pose proof (later_trans _ _ _ L3 L4') as L3'. pose proof (later_trans _ _ _ L2 L3') as L2'.
  split_and!; [done|apply (later_trans _ _ _ L1 L2')|]. apply (filed_state _ c4); [done|..]; intros k.
  - rewrite O4 // O3 // O2 //. revert k. apply (filed_mono _ (objects s1)); [|exact F1]. intros. eapply taint_at_mono; [apply L2'|done].
  - rewrite O4 //. revert k. apply (filed_mono _ (objects s3)); [|exact F3]. intros. eapply entry_at_mono; [apply L4'|done].
  - revert k. apply (filed_mono _ (objects s4)); [|exact F4]. intros. eapply epoch_at_mono; [apply L|done].
  - revert k. apply (filed_mono _ (objects s4)); [|exact G4]. intros. eapply members_at_mono; [apply L|done].
Qed.
End candidate.

(** ** The table of taints *)

Definition same_record (o t : Taint) : Prop := taint_id o = taint_id t ∧ Memory.taint_key o = Memory.taint_key t.

(** The rows of other ids are as they were, and each row is of a record that was
    there or of [t]. *)
Definition touched (t : Taint) (ts ts' : list Taint) : Prop :=
  (∀ id, id ≠ taint_id t → List.find (taint_is id) ts' = List.find (taint_is id) ts) ∧
  ∀ row, row ∈ ts' → same_record row t ∨ ∃ o, o ∈ ts ∧ same_record row o.

Lemma touched_refl t ts : touched t ts ts.
Proof. split; [done|]. intros row Hr. right. by exists row. Qed.

Lemma touched_trans t ts1 ts2 ts3 : touched t ts1 ts2 → touched t ts2 ts3 → touched t ts1 ts3.
Proof.
  intros [F1 R1] [F2 R2]. split; [intros id Hid; by rewrite F2 // F1|].
  intros row [?|(o & Ho & [H1 H2])]%R2; [by left|]. apply R1 in Ho as [[H3 H4]|(o' & Ho' & [H3 H4])].
  - left. split; congruence.
  - right. exists o'. split; [done|]. split; congruence.
Qed.

Lemma taint_is_spec id t : taint_is id t ↔ taint_id t = id.
Proof. unfold taint_is. apply bool_decide_spec. Qed.

Lemma touched_update t f ts : (∀ x, same_record (f x) x) → touched t ts (update_first (taint_is (taint_id t)) f ts).
Proof.
  intros Hf. split.
  - intros id Hid. apply update_first_find_ne. intros x Hx%taint_is_spec. destruct (Hf x) as [Hi _].
    unfold taint_is. rewrite !bool_decide_false //; congruence.
  - intros row [Hr|(x & Hx & _ & ->)]%elem_of_update_first; right; [by exists row|by exists x].
Qed.

Lemma touched_append t ts row : same_record row t → touched t ts (ts ++ [row]).
Proof.
  intros [Hi Hk]. split.
  - intros id Hid. rewrite List_find_app /=. destruct (List.find _ ts); [done|]. unfold taint_is.
    rewrite bool_decide_false //. congruence.
  - intros r [Hr|Hr]%elem_of_app; [right; by exists r|]. apply list_elem_of_singleton in Hr as ->. by left.
Qed.

(** When, by whom, why and on what proof a taint was resolved. *)
Definition resolution (t : Taint) : option Time * option string * option string * option string :=
  (resolved_at t, resolved_by t, resolved_reason t, resolved_proof t).

(** The row of a taint whose record is [t], where the table had [old]. A new row
    is the record, and one that was there keeps what it says; the record's
    commit is taken unless it names none, and its resolution if the row was not
    resolved, what it does not say being empty. *)
Record taint_follows (t : Taint) (old : option Taint) (row : Taint) : Prop := {
  tf_id : taint_id row = taint_id t;
  tf_what : let b := default t old in
    taint_path row = taint_path b ∧ taint_name row = taint_name b ∧ kind row = kind b ∧ effect row = effect b ∧
    severity row = severity b ∧ propagate row = propagate b ∧ expires_at row = expires_at b;
  tf_why : let b := default t old in
    taint_reason row = taint_reason b ∧ taint_agent row = taint_agent b ∧
    taint_created_at row = taint_created_at b ∧ metadata row = metadata b;
  tf_commit : taint_commit_id row =
    if decide (taint_commit_id t = EmptyString) then taint_commit_id (default t old) else taint_commit_id t;
  tf_resolution : resolution row =
    match old ≫= resolved_at, resolved_at t with
    | None, Some at_ =>
        (Some at_, Some (default EmptyString (resolved_by t)), Some (default EmptyString (resolved_reason t)), resolved_proof t)
    | _, _ => match old with Some h => resolution h | None => (None, None, None, None) end
    end;
}.

(** What the calls make of a row that is there. *)
Definition recommit (t h : Taint) : Taint :=
  if bool_decide (taint_commit_id h ≠ taint_commit_id t) && bool_decide (taint_commit_id t ≠ EmptyString)
  then taint_set_commit h (taint_commit_id t) else h.
Definition brought_up (t h : Taint) : Taint :=
  match resolved_at h, resolved_at t with
  | None, Some at_ =>
      taint_resolve (recommit t h) (default EmptyString (resolved_by t)) (default EmptyString (resolved_reason t)) (resolved_proof t) at_
  | _, _ => recommit t h
  end.

Lemma recommit_spec t h :
  taint_commit_id (recommit t h) = (if decide (taint_commit_id t = EmptyString) then taint_commit_id h else taint_commit_id t) ∧
  ∃ c, recommit t h = taint_set_commit h c.
Proof.
  assert (h = taint_set_commit h (taint_commit_id h)) as Hself by by destruct h.
  unfold recommit. case_decide as He.
  - rewrite (bool_decide_false (taint_commit_id t ≠ _)) ?andb_false_r; [|by intros []]. split; [done|by eexists].
  - rewrite (bool_decide_true (taint_commit_id t ≠ _)) // andb_true_r. case_bool_decide as Hc; [by split; [|eexists]|].
    split; [by destruct (decide (taint_commit_id h = taint_commit_id t))|by eexists].
Qed.

Lemma brought_up_follows t h old :
  taint_id h = taint_id t → (old = Some h ∨ old = None ∧ h = unresolve t) → taint_follows t old (brought_up t h).
Proof.
  intros Hid Hold. destruct (recommit_spec t h) as [Hc [c Hr]]. unfold brought_up. rewrite Hr in Hc |- *. simpl in Hc. subst c.
  destruct Hold as [->|[-> ->]].
  - split; simpl; destruct (resolved_at h) eqn:Hh, (resolved_at t) eqn:Ht; simpl; unfold resolution; simpl; by rewrite ?Hh.
  - split; simpl; destruct (resolved_at t) eqn:Ht; done.
Qed.

Definition with_taints (d : Site) (ts : list Taint) : Site := with_site_store d (set_taints (site_store d) ts).
Definition taints_of (d : Site) : list Taint := mem_taints (site_store d).

Lemma with_taints_same d : with_taints d (taints_of d) = d.
Proof. by destruct d as [[[] sp] m]. Qed.

(** A row that is there is brought up to the record. *)
Lemma follow_row (created : bool) t h d :
  List.find (taint_is (taint_id t)) (taints_of d) = Some h →
  ∃ b ts, run (recommitted ← (if bool_decide (taint_commit_id h ≠ taint_commit_id t) && bool_decide (taint_commit_id t ≠ EmptyString)
      then _ ← call (set_taint_commit_id (taint_id t) (taint_commit_id t)); mret true else mret false);
    resolved ← match resolved_at h, resolved_at t with
      | None, Some at_ =>
          _ ← call (resolve_taint (taint_id t) (default EmptyString (resolved_by t)) (default EmptyString (resolved_reason t))
                (resolved_proof t) at_); mret true
      | _, _ => mret false
      end;
    mret (created || recommitted || resolved)) d = (Ok b, with_taints d ts) ∧
    touched t (taints_of d) ts ∧ List.find (taint_is (taint_id t)) ts = Some (brought_up t h).
Proof.
  intros Hh. unfold brought_up, recommit.
  set (c := bool_decide (taint_commit_id h ≠ taint_commit_id t) && bool_decide (taint_commit_id t ≠ EmptyString)).
  set (h1 := if c then taint_set_commit h (taint_commit_id t) else h).
  assert (∃ ts1, run (if c then _ ← call (set_taint_commit_id (taint_id t) (taint_commit_id t)); mret true else mret false) d
      = (Ok c, with_taints d ts1) ∧ touched t (taints_of d) ts1 ∧ List.find (taint_is (taint_id t)) ts1 = Some h1) as (ts1 & R1 & T1 & F1).
  { unfold h1. destruct c.
    - exists (update_first (taint_is (taint_id t)) (λ x, taint_set_commit x (taint_commit_id t)) (taints_of d)).
      split_and!; [|by apply touched_update|rewrite update_first_find; [by rewrite Hh|done]].
      unfold set_taint_commit_id, call, step. unfold taints_of in Hh. simpl. by rewrite Hh.
    - exists (taints_of d). rewrite with_taints_same. split_and!; [done|apply touched_refl|done]. }
  assert (resolved_at h1 = resolved_at h) as E1 by by unfold h1; destruct c.
  rewrite (run_then _ _ _ _ _ R1). clearbody c h1.
  destruct (resolved_at h) as [u|] eqn:Hu; [|destruct (resolved_at t) as [v|] eqn:Hv].
  - by exists (created || c || false), ts1.
  - exists (created || c || true),
      (update_first (taint_is (taint_id t)) (λ x, taint_resolve x (default EmptyString (resolved_by t))
        (default EmptyString (resolved_reason t)) (resolved_proof t) v) ts1).
    split_and!; [|by eapply touched_trans; [exact T1|apply touched_update]|rewrite update_first_find; [by rewrite F1|done]].
    unfold resolve_taint, call, step. simpl. rewrite F1. unfold unresolved. by rewrite E1.
  - by exists (created || c || false), ts1.
Qed.

(** Another record of the same path, name and kind. *)
Definition rivals (t o : Taint) : Prop := Memory.taint_key o = Memory.taint_key t ∧ taint_id o ≠ taint_id t.

Lemma same_taint_key a b : same_taint a b ↔ Memory.taint_key a = Memory.taint_key b.
Proof. unfold same_taint, Memory.taint_key. rewrite !andb_True !bool_decide_spec. split; [by intros [[-> ->] ->]|by intros [= -> -> ->]]. Qed.

Lemma rebuild_taint_row_ok table t d :
  List.find (taint_is (taint_id t)) table = List.find (taint_is (taint_id t)) (taints_of d) →
  ∃ r ts, run (rebuild_taint_row table t) d = (r, with_taints d ts) ∧ touched t (taints_of d) ts ∧
    match r with
    | Ok _ => ∃ row, List.find (taint_is (taint_id t)) ts = Some row ∧
        taint_follows t (List.find (taint_is (taint_id t)) table) row
    | Err _ => List.find (taint_is (taint_id t)) table = None ∧ List.find (taint_is (taint_id t)) ts = None ∧
        ∃ o, o ∈ taints_of d ∧ rivals t o
    end.
Proof.
  intros Heq. unfold rebuild_taint_row. rewrite Heq.
  destruct (List.find (taint_is (taint_id t)) (taints_of d)) as [h|] eqn:Hh.
  - destruct (follow_row false t h d Hh) as (b & ts & R & T & F).
    exists (Ok b), ts. split_and!; [exact R|done|]. eexists. split; [exact F|]. apply brought_up_follows; [|by left].
    apply List_find_Some in Hh as [_ Hh]. by apply taint_is_spec in Hh.
  - destruct (create_taint (unresolve t) (site_store d)) as [[[]|e] st] eqn:Hc.
    + unfold create_taint in Hc. case_match; [done|]. injection Hc as <-.
      destruct (follow_row true t (unresolve t) (with_taints d (taints_of d ++ [unresolve t]))) as (b & ts & R & T & F).
      { unfold taints_of at 1. simpl. change (mem_taints (site_store d)) with (taints_of d). rewrite List_find_app Hh /=.
        unfold taint_is. by rewrite bool_decide_true. }
      exists (Ok b), ts. split_and!; [|eapply touched_trans; [by apply (touched_append t (taints_of d) (unresolve t))|exact T]|].
      * rewrite (run_then _ _ _ (unresolve t, true) (with_taints d (taints_of d ++ [unresolve t]))); [exact R|].
        simpl. unfold create_taint. change (mem_taints (site_store d)) with (taints_of d) in *. by rewrite H.
      * eexists. split; [exact F|]. apply brought_up_follows; [done|by right].
    + pose proof Hc as Hc'. unfold create_taint in Hc'. case_match eqn:Hex; [|done]. injection Hc' as <- <-.
      eexists (Err _), (taints_of d). split_and!; [|apply touched_refl|done|done|].
      * rewrite with_taints_same. unfold mbind at 1, prog_mbind at 1. simpl. rewrite Hc. simpl.
        by rewrite with_same_site.
      * apply existsb_exists in Hex as (o & Ho & Hu). apply Is_true_true, andb_True in Hu as [_ Hu%same_taint_key].
        exists o. apply list_elem_of_In in Ho. split; [done|]. split; [done|]. intros Hid.
        apply list_elem_of_In, (List.find_none _ _ Hh) in Ho.
        unfold taint_is in Ho. by rewrite bool_decide_true in Ho.
Qed.

(** The note on a record that was skipped. *)
Definition skip_note (what id : string) (notes : list string) : Prop := ∃ why, (what +:+ id +:+ ": " +:+ why) ∈ notes.

Lemma report_on_grows what r rep x : x ∈ report_skipped rep → x ∈ report_skipped (report_on what r rep).
Proof. destruct r as [[]|e]; simpl; [done..|]. intros. apply elem_of_app. by left. Qed.

(** All records, one after the other. *)
Lemma rebuild_taints_ok table l rep d :
  NoDup (taint_id <$> l) →
  (∀ t, t ∈ l → List.find (taint_is (taint_id t)) table = List.find (taint_is (taint_id t)) (taints_of d)) →
  ∃ rep' ts, run (rebuild_each (rebuild_taint table) l rep) d = (Ok rep', with_taints d ts) ∧
    (∀ x, x ∈ report_skipped rep → x ∈ report_skipped rep') ∧
    (∀ id, id ∉ taint_id <$> l → List.find (taint_is id) ts = List.find (taint_is id) (taints_of d)) ∧
    (∀ row, row ∈ ts → ∃ o, (o ∈ taints_of d ∨ o ∈ l) ∧ same_record row o) ∧
    ∀ t, t ∈ l →
      (∃ row, List.find (taint_is (taint_id t)) ts = Some row ∧
         taint_follows t (List.find (taint_is (taint_id t)) table) row) ∨
      skip_note "taint " (taint_id t) (report_skipped rep') ∧ List.find (taint_is (taint_id t)) table = None ∧
        List.find (taint_is (taint_id t)) ts = None ∧ ∃ o, (o ∈ taints_of d ∨ o ∈ l) ∧ rivals t o.
Proof.
  revert rep d. induction l as [|t l IH]; intros rep d Hn Heq.
  { exists rep, (taints_of d). rewrite with_taints_same. split_and!; [done..| |by intros t ?%elem_of_nil].
    intros row Hr. exists row. by split; [left|]. }
  csimpl in Hn. apply NoDup_cons in Hn as [Ht Hn].
  destruct (rebuild_taint_row_ok table t d) as (r & ts1 & R1 & [T1 T2] & G1); [apply Heq; by left|].
  set (rep1 := report_on ("taint " +:+ taint_id t) (map_err storage_error_display r) rep).
  destruct (IH rep1 (with_taints d ts1) Hn) as (rep' & ts & R & S & O & B & G).
  { intros t' Ht'. rewrite Heq; [|by right]. symmetry. apply T1. intros Hid. apply Ht. rewrite -Hid. by apply list_elem_of_fmap_2. }
  exists rep', ts. split_and!.
  - cbn [rebuild_each]. unfold rebuild_taint at 1.
    rewrite (run_then _ _ _ (report_on ("taint " +:+ taint_id t) (map_err storage_error_display r)) (with_taints d ts1)); [exact R|].
    by rewrite (run_then _ _ _ r (with_taints d ts1)); [|by rewrite run_caught R1].
  - intros x Hx. apply S. by apply report_on_grows.
  - intros id Hid. csimpl in Hid. apply not_elem_of_cons in Hid as [Hid1 Hid2]. rewrite O //. by apply T1.
  - intros row Hr. destruct (B row Hr) as (o & [Ho|Ho] & [H1 H2]); [|exists o; split; [right; by right|done]].
    destruct (T2 o Ho) as [[H3 H4]|(o' & Ho' & [H3 H4])].
    + exists t. split; [right; by left|]. split; congruence.
    + exists o'. split; [by left|]. split; congruence.
  - intros t' [->|Ht']%elem_of_cons.
    + destruct r as [b|e].
      * left. destruct G1 as (row & Hrow & Hf). exists row. split; [|done]. rewrite O //.
      * right. destruct G1 as (Hnone & Hgone & o & Ho & Hr). split_and!; [|done|by rewrite O|exists o; by split; [left|]].
        exists (storage_error_display e). apply S. simpl. apply elem_of_app. right. rewrite string_app_assoc. by left.
    + destruct (G t' Ht') as [?|(Hs & Hnone & Hgone & o & Ho & Hr)]; [by left|]. right. split_and!; [done..|].
      destruct Ho as [Ho|Ho]; [|exists o; split; [right; by right|done]].
      destruct (T2 o Ho) as [[H3 H4]|(o' & Ho' & [H3 H4])].
      * exists t. split; [right; by left|]. destruct Hr. split; congruence.
      * exists o'. split; [by left|]. destruct Hr. split; congruence.
Qed.

(** ** The table of reminders *)

Section reminders.
Context `{RJ : ReminderJson}.

Definition with_reminders (d : Site) (m : Reminders) : Site := {| site_world := site_world d; site_reminders := m |}.

(** The row under the id of a control record. *)
Definition reminder_follows (e : ReminderEntry) (row : option Reminder) : Prop :=
  match e with
  | Live r _ => ∃ x, row = Some x ∧ (x = r ∨ same_reminder r x)
  | Deleted _ => row = None
  end.

Lemma rebuild_reminder_row_ok table id e d :
  List.find (λ r, bool_decide (rem_id r = id)) table = site_reminders d !! id → (∀ r t, e = Live r t → rem_id r = id) →
  ∃ b m, run (rebuild_reminder_row table id e) d = (Ok b, with_reminders d m) ∧
    (∀ k, k ≠ id → m !! k = site_reminders d !! k) ∧ reminder_follows e (m !! id).
Proof.
  intros Heq Hid. unfold rebuild_reminder_row. rewrite Heq.
  assert (with_reminders d (site_reminders d) = d) as Hsame by by destruct d.
  destruct e as [r t|t].
  - specialize (Hid r t eq_refl). destruct (site_reminders d !! id) as [h|] eqn:Hh; [destruct (same_reminder r h) eqn:Hs|].
    + exists false, (site_reminders d). rewrite Hsame. split_and!; [done..|]. exists h. rewrite Hh Hs. by split; [|right].
    + exists true, (<[id := r]> (site_reminders d)). split_and!.
      * unfold mbind, prog_mbind, remind, step. cbn [prog_bind run]. unfold rs_update. rewrite Hid Hh. done.
      * intros k Hk. by rewrite lookup_insert_ne.
      * exists r. rewrite lookup_insert_eq. by split; [|left].
    + exists true, (<[id := r]> (site_reminders d)). split_and!.
      * unfold mbind, prog_mbind, remind, step. cbn [prog_bind run]. unfold rs_save. by rewrite Hid.
      * intros k Hk. by rewrite lookup_insert_ne.
      * exists r. rewrite lookup_insert_eq. by split; [|left].
  - destruct (site_reminders d !! id) as [h|] eqn:Hh.
    + eexists _, (delete id (site_reminders d)). split_and!; [done| |by rewrite /= lookup_delete_eq].
      intros k Hk. by rewrite lookup_delete_ne.
    + exists false, (site_reminders d). rewrite Hsame. done.
Qed.

Lemma rebuild_reminders_ok table l rep d :
  NoDup l.*1 →
  (∀ id e, (id, e) ∈ l → List.find (λ r, bool_decide (rem_id r = id)) table = site_reminders d !! id ∧
     ∀ r t, e = Live r t → rem_id r = id) →
  ∃ rep' m, run (rebuild_each (rebuild_reminder table) l rep) d = (Ok rep', with_reminders d m) ∧
    report_skipped rep' = report_skipped rep ∧ (∀ k, k ∉ l.*1 → m !! k = site_reminders d !! k) ∧
    ∀ id e, (id, e) ∈ l → reminder_follows e (m !! id).
Proof.
  revert rep d. induction l as [|[id e] l IH]; intros rep d Hn Heq.
  { exists rep, (site_reminders d). split_and!; [by destruct d|done..|by intros id e ?%elem_of_nil]. }
  csimpl in Hn. apply NoDup_cons in Hn as [Hid Hn].
  destruct (Heq id e) as [H1 H2]; [by left|].
  destruct (rebuild_reminder_row_ok table id e d H1 H2) as (b & m1 & R1 & O1 & G1).
  assert (∀ k x, (k, x) ∈ l → k ≠ id) as Hne.
  { intros k x Hk ->. apply Hid. apply list_elem_of_fmap. by exists (id, x). }
  set (rep1 := report_on ("reminder " +:+ id) (Ok b) rep).
  destruct (IH rep1 (with_reminders d m1) Hn) as (rep' & m & R & S & O & G).
  { intros k x Hk. simpl. rewrite O1; [|by eapply Hne]. apply Heq. by right. }
  exists rep', m. split_and!.
  - cbn [rebuild_each]. unfold rebuild_reminder at 1.
    rewrite (run_then _ _ _ (report_on ("reminder " +:+ id) (Ok b)) (with_reminders d m1)); [exact R|].
    by rewrite (run_then _ _ _ (Ok b) (with_reminders d m1)); [|by rewrite run_caught R1].
  - rewrite S. unfold rep1. by destruct b.
  - intros k Hk. csimpl in Hk. apply not_elem_of_cons in Hk as [Hk1 Hk2]. rewrite O //. by apply O1.
  - intros k x [[= -> ->]|Hk]%elem_of_cons; [|by apply G]. rewrite O //.
Qed.
End reminders.

(** ** The table of epochs *)

Section epochs.
Context `{CH : ContentHash}.

Definition epochs_of (d : Site) : list Epoch := epochs (site_store d).
Definition tags_of (d : Site) : list (ObjectId * string) := commit_epoch (site_store d).
Definition with_epochs (d : Site) (es : list Epoch) (tags : list (ObjectId * string)) : Site :=
  with_site_store d (set_commit_epochs (set_epochs (site_store d) es) tags).

Lemma with_epochs_same d : with_epochs d (epochs_of d) (tags_of d) = d.
Proof. by destruct d as [[[] sp] m]. Qed.

Lemma epoch_is_spec id e : epoch_is id e ↔ epoch_id e = id.
Proof. unfold epoch_is. apply bool_decide_spec. Qed.

(** Tags: each commit that is to join is tagged with [id], the others are as
    they were. *)
Definition joined_tags (id : string) (J : ObjectId → Prop) (tags tags' : list (ObjectId * string)) : Prop :=
  ∀ c k, (c, k) ∈ tags' ↔ (c, k) ∈ tags ∧ ¬ J c ∨ J c ∧ k = id.

Lemma associate_spec l c id x k : (x, k) ∈ associate l c id ↔ (x, k) ∈ l ∧ x ≠ c ∨ x = c ∧ k = id.
Proof.
  unfold associate. rewrite elem_of_app elem_of_List_filter list_elem_of_singleton bool_decide_spec. simpl. naive_solver.
Qed.

(** [d] with the row of one epoch, and with tags. *)
Definition row_at (id : string) (row : Epoch) (tags : list (ObjectId * string)) (d0 d : Site) : Prop :=
  ∃ es, d = with_epochs d0 es tags ∧ (∀ k, k ≠ id → List.find (epoch_is k) es = List.find (epoch_is k) (epochs_of d0)) ∧
    List.find (epoch_is id) es = Some row.

Lemma update_epoch_row {A} id row tags (f : Epoch → result StorageError (A * Epoch)) d0 d a row' :
  row_at id row tags d0 d → f row = Ok (a, row') → epoch_id row' = epoch_id row →
  ∃ d', run (call (update_epoch id f)) d = (Ok a, d') ∧ row_at id row' tags d0 d'.
Proof.
  intros (es & -> & Ho & Hrow) Hf Hid. pose proof (List_find_Some _ _ _ Hrow) as [_ Hr%epoch_is_spec].
  set (es' := update_first (epoch_is id) (λ _, row') es). exists (with_epochs d0 es' tags). split.
  - rewrite run_call. unfold update_epoch, find_epoch. simpl. by rewrite Hrow Hf.
  - exists es'. split_and!; [done| |].
    + intros k Hk. rewrite -Ho //. apply update_first_find_ne. intros x Hx%epoch_is_spec. unfold epoch_is.
      rewrite !bool_decide_false //; congruence.
    + unfold es'. rewrite update_first_find; [by rewrite Hrow|]. intros x Hx. apply epoch_is_spec. congruence.
Qed.

Definition sealed_row (row : Epoch) (summary : string) (at_ : Time) (sealed : list ObjectId) (h : ObjectId) : Epoch :=
  epoch_set_sealed_commits (epoch_set_seal (epoch_set_status row EpochSealed) at_ summary h) sealed.

Lemma seal_row id row tags summary at_ sealed h d0 d :
  row_at id row tags d0 d → epoch_status row = EpochActive →
  ∃ d', run (call (mem_seal_epoch id summary at_ sealed h)) d = (Ok (), d') ∧ row_at id (sealed_row row summary at_ sealed h) tags d0 d'.
Proof.
  intros H Hst. eapply update_epoch_row; [exact H| |done]. cbv beta. unfold is_closed. by rewrite Hst.
Qed.

Lemma archive_row id row tags d0 d :
  row_at id row tags d0 d → epoch_status row = EpochSealed →
  ∃ d', run (call (mem_archive_epoch id)) d = (Ok (), d') ∧ row_at id (epoch_set_status row EpochArchived) tags d0 d'.
Proof.
  intros H Hst. eapply update_epoch_row; [exact H| |done]. cbv beta. by rewrite Hst.
Qed.

Lemma assign_row id row tags ns d0 d :
  row_at id row tags d0 d → epoch_namespace row = None →
  ∃ d', run (call (assign_epoch_namespace id ns)) d = (Ok true, d') ∧ row_at id (with_namespace row ns) tags d0 d'.
Proof.
  intros H Hns. eapply update_epoch_row; [exact H| |done]. cbv beta. by rewrite Hns.
Qed.

(** The members that join: those listed, not there before and stored here. *)
Lemma join_row id row tags had l d0 d :
  row_at id row tags d0 d → epoch_status row = EpochActive →
  ∃ b tags' d', run (join_members id had l) d = (Ok b, d') ∧ row_at id row tags' d0 d' ∧
    joined_tags id (λ c, c ∈ l ∧ c ∉ had ∧ has_commit (site_store d0) c) tags tags'.
Proof.
  intros H Hst. revert tags d H. induction l as [|c l IH]; intros tags d H.
  { exists false, tags, d. split_and!; [done|done|]. intros x k. set_solver. }
  cbn [join_members]. set (here := bool_decide (c ∉ had) && has_commit (site_store d0) c).
  assert (run (if decide (c ∈ had) then mret false else call (reading (λ s, Ok (has_commit s c)))) d = (Ok here, d)) as Rb.
  { unfold here. case_decide; [by rewrite bool_decide_false; [|by intros []]|]. rewrite bool_decide_true //.
    rewrite run_call. unfold reading. simpl. rewrite with_same_site. by destruct H as (es & -> & _). }
  rewrite (run_then _ _ _ _ _ Rb).
  set (tags1 := if here then associate tags c id else tags).
  assert (∃ d1, run (if here then _ ← call (set_commit_epoch c id); mret true else mret false) d = (Ok here, d1) ∧
    row_at id row tags1 d0 d1) as (d1 & R1 & H1).
  { unfold tags1. clearbody here. destruct here; [|by exists d]. destruct H as (es & -> & Ho & Hrow).
    exists (with_epochs d0 es (associate tags c id)). split; [|by exists es].
    rewrite (run_then _ _ _ () (with_epochs d0 es (associate tags c id))); [done|].
    rewrite run_call. unfold set_commit_epoch, find_epoch. simpl. by rewrite Hrow /is_closed Hst. }
  rewrite (run_then _ _ _ _ _ R1).
  destruct (IH tags1 d1 H1) as (b & tags' & d' & R' & H' & J'). exists (here || b), tags', d'.
  rewrite (run_then _ _ _ _ _ R'). split_and!; [done|done|].
  assert (Is_true here ↔ c ∉ had ∧ has_commit (site_store d0) c) as Hhere by by unfold here; rewrite andb_True bool_decide_spec.
  intros x k. rewrite (J' x k). unfold tags1. destruct here.
  - rewrite associate_spec. destruct (decide (x = c)) as [->|Hx]; [|set_solver].
    destruct (decide (c ∈ l)); set_solver.
  - destruct (decide (x = c)) as [->|Hx]; [|set_solver]. set_solver.
Qed.

(** What a row was taken from the table, of what matters to rebuilding it. *)
Definition same_row (h row : option Epoch) : Prop :=
  match h, row with
  | Some h, Some row => epoch_status h = epoch_status row ∧ epoch_namespace h = epoch_namespace row
  | None, None => True
  | _, _ => False
  end.

(** The row of an epoch whose record is [e], where the table had [old]. A new
    row is the record, an old one keeps what it says. An epoch that was open is
    sealed if the record's is, with the record's seal (at [now], with no summary
    and the hash of its id, where it has none); a row that is sealed keeps its
    seal; the later status holds; and the record's namespace is taken where the
    row has none. *)
Record epoch_follows (now : Time) (e : Epoch) (old : option Epoch) (row : Epoch) : Prop := {
  ef_id : epoch_id row = epoch_id e;
  ef_what : let b := default e old in
    epoch_description row = epoch_description b ∧ root_intents row = root_intents b ∧
    epoch_created_at row = epoch_created_at b ∧ epoch_agents row = epoch_agents b ∧
    epoch_branches row = epoch_branches b ∧ epoch_tags row = epoch_tags b ∧ epoch_scope row = epoch_scope b;
  ef_status : epoch_status row =
    match default EpochActive (epoch_status <$> old), epoch_status e with
    | EpochArchived, _ | _, EpochArchived => EpochArchived
    | EpochSealed, _ | _, EpochSealed => EpochSealed
    | EpochActive, EpochActive => EpochActive
    end;
  ef_seal : (sealed_at row, seal_summary row, seal_hash row, sealed_commits row) =
    match default EpochActive (epoch_status <$> old), epoch_status e with
    | EpochActive, EpochSealed | EpochActive, EpochArchived =>
        (Some (default now (sealed_at e)), Some (default EmptyString (seal_summary e)),
         Some (default (oid_hash (epoch_id e)) (seal_hash e)), sealed_commits e)
    | _, _ => match old with
              | Some h => (sealed_at h, seal_summary h, seal_hash h, sealed_commits h)
              | None => (None, None, None, [])
              end
    end;
  ef_namespace : epoch_namespace row =
    match old ≫= epoch_namespace with Some ns => Some ns | None => epoch_namespace e end;
}.

(** What an active row becomes by the record's seal, and so on. *)
Definition row_sealed (now : Time) (e row : Epoch) : Epoch :=
  if bool_decide (epoch_status row = EpochActive) && bool_decide (epoch_status e ≠ EpochActive)
  then sealed_row row (default EmptyString (seal_summary e)) (default now (sealed_at e)) (sealed_commits e)
         (default (oid_hash (epoch_id e)) (seal_hash e))
  else row.
Definition row_archived (e row : Epoch) : Epoch :=
  if bool_decide (epoch_status e = EpochArchived) && bool_decide (epoch_status row ≠ EpochArchived)
  then epoch_set_status row EpochArchived else row.
Definition row_assigned (e row : Epoch) : Epoch :=
  match epoch_namespace e, epoch_namespace row with Some ns, None => with_namespace row ns | _, _ => row end.

Lemma row_follows now e old :
  (∀ h, old = Some h → epoch_id h = epoch_id e) →
  epoch_follows now e old (row_assigned e (row_archived e (row_sealed now e (default (as_active e) old)))).
Proof.
  intros Hid. destruct old as [h|]; simpl.
  - specialize (Hid h eq_refl). unfold row_assigned, row_archived, row_sealed.
    destruct (epoch_status h) eqn:Hh, (epoch_status e) eqn:He; simpl; rewrite ?Hh;
      destruct (epoch_namespace e) as [ns|] eqn:Hn, (epoch_namespace h) as [ns'|] eqn:Hn'; simpl; rewrite ?Hn';
      split; simpl; rewrite ?Hh ?He ?Hn ?Hn' //.
  - unfold row_assigned, row_archived, row_sealed.
    destruct (epoch_status e) eqn:He; simpl;
      destruct (epoch_namespace e) as [ns|] eqn:Hn; simpl; rewrite ?Hn; split; simpl; rewrite ?He ?Hn //.
Qed.

(** The commits that join an epoch: members of the record that are stored here,
    were not members of the row, of an epoch that was open or is new. *)
Definition joins (table : list Epoch) (members : option (gset ObjectId)) (s : MemoryStorage) (id : string) (c : ObjectId) : Prop :=
  let old := List.find (epoch_is id) table in
  default EpochActive (epoch_status <$> old) = EpochActive ∧ c ∈ default ∅ members ∧
  c ∉ default [] (epoch_commits <$> old) ∧ has_commit s c.

#[export] Instance joins_dec table members s id c : base.Decision (joins table members s id c).
Proof. unfold joins. apply _. Defined.

Lemma rebuild_epoch_row_ok seal_now table members e d :
  let id := epoch_id e in
  same_row (List.find (epoch_is id) table) (List.find (epoch_is id) (epochs_of d)) →
  ∃ b d' row tags, run (rebuild_epoch_row seal_now table members e) d = (Ok b, d') ∧ row_at id row tags d d' ∧
    epoch_follows seal_now e (List.find (epoch_is id) (epochs_of d)) row ∧
    joined_tags id (joins table members (site_store d) id) (tags_of d) tags.
Proof.
  intros id Hsame. unfold rebuild_epoch_row, joins. fold id. set (have := List.find (epoch_is id) table) in *.
  set (old := List.find (epoch_is id) (epochs_of d)) in *.
  set (st := default EpochActive (epoch_status <$> have)). set (row := default (as_active e) old).
  assert (∀ h, old = Some h → epoch_id h = epoch_id e) as Hids by by intros h [_ ?%epoch_is_spec]%List_find_Some.
  assert (epoch_status row = st ∧ epoch_id row = id ∧ (is_Some have → epoch_namespace row = have ≫= epoch_namespace) ∧
    (have = None → epoch_namespace row = epoch_namespace e)) as (Hst & Hid & Hns & Hns').
  { unfold row, st. clearbody have old. destruct have as [h|], old as [r|]; simpl in Hsame; try done; simpl.
    destruct Hsame. split_and!; [done|by apply Hids|done|done]. }
  assert (∃ created d1, run (match have with
      | Some h => mret (epoch_status h, false)
      | None => _ ← call (create_epoch (as_active e)); mret (EpochActive, true)
      end) d = (Ok (st, created), d1) ∧ row_at id row (tags_of d) d d1) as (created & d1 & R1 & G1).
  { unfold row, st. destruct have as [h|] eqn:Hhave, old as [r|] eqn:Hold; simpl in Hsame; try done.
    - exists false, d. split; [done|]. exists (epochs_of d). by rewrite with_epochs_same.
    - exists true, (with_epochs d (epochs_of d ++ [as_active e]) (tags_of d)). split.
      + rewrite (run_then _ _ _ () (with_epochs d (epochs_of d ++ [as_active e]) (tags_of d))); [done|].
        rewrite run_call. unfold create_epoch. fold (epochs_of d).
        destruct (existsb (epoch_is (epoch_id (as_active e))) (epochs_of d)) eqn:Hex; [|by destruct d as [[[] sp] m]].
        apply existsb_exists in Hex as (x & Hx & Hix). apply (List.find_none _ _ Hold) in Hx. simpl in Hix. unfold id in Hx. by rewrite Hx in Hix.
      + exists (epochs_of d ++ [as_active e]). split_and!; [done| |].
        * intros k Hk. rewrite List_find_app /=. destruct (epoch_is k (as_active e)) eqn:Hka; [|by destruct (List.find (epoch_is k) (epochs_of d))]. apply Is_true_true, epoch_is_spec in Hka. by destruct Hk.
        * fold old. rewrite List_find_app. fold old. rewrite Hold /= /epoch_is bool_decide_true //. }
  rewrite (run_then _ _ _ _ _ R1). cbn beta iota. clear R1.
  pose proof (row_follows seal_now e old Hids) as Hfollows. fold row in Hfollows. clearbody row.
  assert (∃ joined d2 tags, run (if bool_decide (st = EpochActive)
      then join_members id (match have with Some h => list_to_set (epoch_commits h) | None => ∅ end)
             (match members with Some m => sorted_ids m | None => [] end)
      else mret false) d1 = (Ok joined, d2) ∧ row_at id row tags d d2 ∧
    joined_tags id (λ c, st = EpochActive ∧ c ∈ default ∅ members ∧ c ∉ default [] (epoch_commits <$> have) ∧ has_commit (site_store d) c)
      (tags_of d) tags) as (joined & d2 & tags & R2 & G2 & J2).
  { case_bool_decide as Ha.
    - destruct (join_row id row (tags_of d) (match have with Some h => list_to_set (epoch_commits h) | None => ∅ end)
        (match members with Some m => sorted_ids m | None => [] end) d d1 G1) as (b & tags & d2 & R & G & J); [congruence|].
      exists b, d2, tags. split_and!; [done|done|]. intros c k. rewrite (J c k).
      assert (c ∈ match members with Some m => sorted_ids m | None => [] end ↔ c ∈ default ∅ members) as Hm.
      { destruct members as [m|]; simpl; [apply elem_of_sorted_ids|set_solver]. }
      assert (c ∈ (match have with Some h => list_to_set (epoch_commits h) | None => ∅ end : gset ObjectId) ↔ c ∈ default [] (epoch_commits <$> have)) as Hh.
      { destruct have; simpl; [apply elem_of_list_to_set|set_solver]. }
      rewrite Hm Hh. naive_solver.
    - exists false, d1, (tags_of d). split_and!; [done|done|]. intros c k. naive_solver. }
  rewrite (run_then _ _ _ _ _ R2). clear R2 G1 d1.
  assert (∃ d3, run (if bool_decide (st = EpochActive) && bool_decide (epoch_status e ≠ EpochActive)
      then _ ← call (mem_seal_epoch id (default EmptyString (seal_summary e)) (default seal_now (sealed_at e))
               (sealed_commits e) (default (oid_hash id) (seal_hash e))); mret true
      else mret false) d2 = (Ok (bool_decide (st = EpochActive) && bool_decide (epoch_status e ≠ EpochActive)), d3) ∧
    row_at id (row_sealed seal_now e row) tags d d3) as (d3 & R3 & G3).
  { unfold row_sealed. rewrite Hst. destruct (bool_decide (st = EpochActive) && bool_decide (epoch_status e ≠ EpochActive)) eqn:Hs; [|by exists d2].
    apply Is_true_true, andb_True in Hs as [Ha%bool_decide_unpack _].
    edestruct (seal_row id row tags) as (d3 & R & G); [exact G2|by rewrite Hst|].
    exists d3. by rewrite (run_then _ _ _ _ _ R). }
  rewrite (run_then _ _ _ _ _ R3). clear R3 G2 d2.
  assert (epoch_status (row_sealed seal_now e row) ≠ EpochArchived ↔ st ≠ EpochArchived) as Har.
  { unfold row_sealed. rewrite Hst. destruct st; simpl; [|by rewrite Hst..]. by case_match; simpl; rewrite ?Hst. }
  set (row3 := row_sealed seal_now e row) in *.
  assert (∃ d4, run (if bool_decide (epoch_status e = EpochArchived) && bool_decide (st ≠ EpochArchived)
      then _ ← call (mem_archive_epoch id); mret true else mret false) d3
      = (Ok (bool_decide (epoch_status e = EpochArchived) && bool_decide (st ≠ EpochArchived)), d4) ∧
    row_at id (row_archived e row3) tags d d4) as (d4 & R4 & G4).
  { unfold row_archived. rewrite (bool_decide_ext _ _ Har).
    destruct (bool_decide (epoch_status e = EpochArchived) && bool_decide (st ≠ EpochArchived)) eqn:Hs; [|by exists d3].
    apply Is_true_true, andb_True in Hs as [Ha%bool_decide_unpack Hb%bool_decide_unpack].
    edestruct (archive_row id row3 tags) as (d4 & R & G); [exact G3| |exists d4; by rewrite (run_then _ _ _ _ _ R)].
    unfold row3, row_sealed. rewrite Hst Ha. by destruct st. }
  rewrite (run_then _ _ _ _ _ R4). clear R4 G3 d3.
  assert (epoch_namespace (row_archived e row3) = epoch_namespace row) as Hn4.
  { unfold row_archived, row3, row_sealed. by repeat case_match. }
  assert (∃ assigned d5, run (match epoch_namespace e, have with
      | Some ns, Some h => if bool_decide (epoch_namespace h = None) then call (assign_epoch_namespace id ns) else mret false
      | _, _ => mret false
      end) d4 = (Ok assigned, d5) ∧ row_at id (row_assigned e (row_archived e row3)) tags d d5) as (assigned & d5 & R5 & G5).
  { unfold row_assigned. rewrite Hn4. destruct (epoch_namespace e) as [ns|] eqn:He; [|by exists false, d4].
    clearbody have. destruct have as [h|]; [rewrite Hns; [|done]; simpl|rewrite Hns'; [|done]; by exists false, d4].
    destruct (epoch_namespace h) as [ns'|] eqn:Hh; simpl; [by exists false, d4|].
    edestruct (assign_row id (row_archived e row3) tags ns) as (d5 & R & G); [exact G4| |by exists true, d5].
    rewrite Hn4 Hns //= Hh //. }
  rewrite (run_then _ _ _ _ _ R5). eexists _, d5, _, tags. split_and!; [done|exact G5|exact Hfollows|done].
Qed.
(** Tags after several epochs took their members: of those that a commit joins,
    one has it; a commit that joins none keeps its tags. *)
Record tags_after (ids : list string) (J : string → ObjectId → Prop) (tags tags' : list (ObjectId * string)) : Prop := {
  ta_from c k : (c, k) ∈ tags' → (c, k) ∈ tags ∧ (∀ id, id ∈ ids → ¬ J id c) ∨ k ∈ ids ∧ J k c;
  ta_joined c id : id ∈ ids → J id c → ∃ k, (c, k) ∈ tags' ∧ k ∈ ids ∧ J k c;
  ta_kept c k : (c, k) ∈ tags → (∀ id, id ∈ ids → ¬ J id c) → (c, k) ∈ tags';
}.

Lemma tags_after_nil J tags : tags_after [] J tags tags.
Proof. split; [intros c k H; left; split; [done|]; set_solver|set_solver|done]. Qed.

Lemma tags_after_cons id ids (J : string → ObjectId → Prop) `{!∀ id c, base.Decision (J id c)} tags tags1 tags' :
  joined_tags id (J id) tags tags1 → tags_after ids J tags1 tags' → tags_after (id :: ids) J tags tags'.
Proof.
  intros H1 [A B C]. split.
  - intros c k [[Hin Hno]|[Hk HJ]]%A; [|right; split; [by right|done]].
    apply H1 in Hin as [[Hin Hn]|[HJ ->]]; [left; split; [done|set_solver]|right; split; [by left|done]].
  - intros c x Hx HJ. destruct (decide (Exists (λ i, J i c) ids)) as [He|Hno].
    + apply Exists_exists in He as (i & Hi & HJi). destruct (B c i Hi HJi) as (k & ? & ? & ?). exists k.
      split_and!; [done|by right|done].
    + assert (∀ i, i ∈ ids → ¬ J i c) as Hall by (intros i Hi Hj; apply Hno, Exists_exists; by exists i).
      apply elem_of_cons in Hx as [->|Hx]; [|by destruct (Hall x Hx)].
      exists id. split_and!; [|by left|done]. apply C; [|done]. apply H1. by right.
  - intros c k Hin Hno. apply C; [|set_solver]. apply H1. left. set_solver.
Qed.

Lemma rebuild_epochs_ok seal_now table members l rep d :
  NoDup (epoch_id <$> l) →
  (∀ e, e ∈ l → same_row (List.find (epoch_is (epoch_id e)) table) (List.find (epoch_is (epoch_id e)) (epochs_of d))) →
  ∃ rep' es tags, run (rebuild_each (rebuild_epoch seal_now table members) l rep) d = (Ok rep', with_epochs d es tags) ∧
    report_skipped rep' = report_skipped rep ∧
    (∀ k, k ∉ epoch_id <$> l → List.find (epoch_is k) es = List.find (epoch_is k) (epochs_of d)) ∧
    (∀ e, e ∈ l → ∃ row, List.find (epoch_is (epoch_id e)) es = Some row ∧
       epoch_follows (seal_now (epoch_id e)) e (List.find (epoch_is (epoch_id e)) (epochs_of d)) row) ∧
    tags_after (epoch_id <$> l) (λ id, joins table (members !! id) (site_store d) id) (tags_of d) tags.
Proof.
  revert rep d. induction l as [|e l IH]; intros rep d Hn Heq.
  { exists rep, (epochs_of d), (tags_of d). rewrite with_epochs_same. split_and!; [done..|by intros e ?%elem_of_nil|apply tags_after_nil]. }
  csimpl in Hn. apply NoDup_cons in Hn as [He Hn].
  destruct (rebuild_epoch_row_ok (seal_now (epoch_id e)) table (members !! epoch_id e) e d) as (b & d1 & row & tags1 & R1 & (es1 & -> & O1 & Hrow) & Hf & J1);
    [apply Heq; by left|].
  assert (∀ x, x ∈ l → epoch_id x ≠ epoch_id e) as Hne.
  { intros x Hx Hid. apply He. rewrite -Hid. by apply list_elem_of_fmap_2. }
  set (rep1 := report_on ("epoch " +:+ epoch_id e) (Ok b) rep).
  destruct (IH rep1 (with_epochs d es1 tags1) Hn) as (rep' & es & tags & R & S & O & G & A).
  { intros x Hx. unfold epochs_of at 1. simpl. rewrite O1; [|by apply Hne]. apply Heq. by right. }
  exists rep', es, tags. split_and!.
  - cbn [rebuild_each]. unfold rebuild_epoch at 1.
    rewrite (run_then _ _ _ (report_on ("epoch " +:+ epoch_id e) (Ok b)) (with_epochs d es1 tags1)); [exact R|].
    by rewrite (run_then _ _ _ (Ok b) (with_epochs d es1 tags1)); [|by rewrite run_caught R1].
  - rewrite S. unfold rep1. by destruct b.
  - intros k Hk. csimpl in Hk. apply not_elem_of_cons in Hk as [Hk1 Hk2]. rewrite O //. by apply O1.
  - intros x [->|Hx]%elem_of_cons; [exists row; by rewrite O|]. destruct (G x Hx) as (rowx & Hr & Hfx).
    exists rowx. split; [done|]. unfold epochs_of in Hfx at 1. simpl in Hfx. rewrite O1 in Hfx; [done|by apply Hne].
  - csimpl. eapply tags_after_cons; [apply _|exact J1|exact A].
Qed.
End epochs.

(** ** All the tables *)

Lemma entries_vals {A} (key : A → string) (m : gmap string A) :
  (∀ k x, m !! k = Some x → key x = k) → NoDup (key <$> (entries m).*2) ∧ ∀ x, x ∈ (entries m).*2 ↔ m !! key x = Some x.
Proof.
  intros Hk. split.
  - rewrite -list_fmap_compose. by apply (entries_keyed m (λ kx, key kx.2)).
  - intros x. rewrite list_elem_of_fmap. split.
    + intros ([k y] & -> & Hy%elem_of_entries). simpl. by rewrite (Hk k y Hy).
    + intros Hx. exists (key x, x). by rewrite elem_of_entries.
Qed.

Section follow.
Context `{CH : ContentHash, RJ : ReminderJson}.

(** Records under their own ids. *)
Record keyed_state (z : ControlState) : Prop := {
  key_taints k t : cs_taints z !! k = Some t → taint_id t = k;
  key_reminders k r t : cs_reminders z !! k = Some (Live r t) → rem_id r = k;
  key_epochs k e : cs_epochs z !! k = Some e → epoch_id e = k;
}.

(** A commit stored in [d'] that joins an epoch of [z], which was open in [d] or
    not there: the record lists it and the row did not have it. *)
Definition due_to_join (z : ControlState) (d d' : Site) (id : string) (c : ObjectId) : Prop :=
  is_Some (cs_epochs z !! id) ∧ c ∈ default ∅ (cs_members z !! id) ∧ has_commit (site_store d') c ∧
  match find_epoch (site_store d) id with
  | Some h => epoch_status h = EpochActive ∧ (c, id) ∉ tags_of d
  | None => True
  end.

(** The tables of [d'] are those of [d] brought up to a control state. A taint is
    left out, with a note, only if the table lacked it and another has its path,
    name and kind. Each commit that is due to join epochs is in one of them. *)
Record followed (seal_now : string → Time) (z : ControlState) (d d' : Site) (notes : list string) : Prop := {
  fo_taints id t : cs_taints z !! id = Some t →
    (∃ row, get_taint (site_store d') id = Some row ∧ taint_follows t (get_taint (site_store d) id) row) ∨
    skip_note "taint " id notes ∧ get_taint (site_store d) id = None ∧ get_taint (site_store d') id = None ∧
      ∃ o, (o ∈ taints_of d ∨ cs_taints z !! taint_id o = Some o) ∧ rivals t o;
  fo_reminders id e : cs_reminders z !! id = Some e → reminder_follows e (site_reminders d' !! id);
  fo_epochs id e : cs_epochs z !! id = Some e →
    ∃ row, find_epoch (site_store d') id = Some row ∧ epoch_follows (seal_now id) e (find_epoch (site_store d) id) row;
  fo_members : (∀ c id, due_to_join z d d' id c → ∃ k, (c, k) ∈ tags_of d' ∧ due_to_join z d d' k c) ∧
    (∀ c k, (c, k) ∈ tags_of d' → (c, k) ∈ tags_of d ∧ (∀ id, ¬ due_to_join z d d' id c) ∨ due_to_join z d d' k c) ∧
    (∀ c k, (c, k) ∈ tags_of d → (∀ id, ¬ due_to_join z d d' id c) → (c, k) ∈ tags_of d');
  fo_others id :
    (cs_taints z !! id = None → get_taint (site_store d') id = get_taint (site_store d) id) ∧
    (cs_reminders z !! id = None → site_reminders d' !! id = site_reminders d !! id) ∧
    (cs_epochs z !! id = None → find_epoch (site_store d') id = find_epoch (site_store d) id);
}.

(** Only tables differ. *)
Record tables_only (d d' : Site) : Prop := {
  to_objects : objects (site_store d') = objects (site_store d);
  to_commits : commits (site_store d') = commits (site_store d);
  to_refs : refs (site_store d') = refs (site_store d);
  to_namespaces : namespaces (site_store d') = namespaces (site_store d);
}.

(** Rows as they were read. *)
Record rows_of (d : Site) (rows : Rows) : Prop := {
  of_taints id : List.find (taint_is id) (row_taints rows) = List.find (taint_is id) (taints_of d);
  of_reminders id : List.find (λ r, bool_decide (rem_id r = id)) (row_reminders rows) = site_reminders d !! id;
  of_epochs id : same_row (List.find (epoch_is id) (row_epochs rows)) (List.find (epoch_is id) (epochs_of d));
  of_members id c : c ∈ default [] (epoch_commits <$> List.find (epoch_is id) (row_epochs rows)) ↔
    is_Some (find_epoch (site_store d) id) ∧ (c, id) ∈ tags_of d;
}.

Lemma joins_due z d d' rows id c :
  rows_of d rows → is_Some (cs_epochs z !! id) → commits (site_store d') = commits (site_store d) →
  joins (row_epochs rows) (cs_members z !! id) (site_store d) id c ↔ due_to_join z d d' id c.
Proof.
  intros Hr He Hc. unfold joins, due_to_join. pose proof (of_epochs _ _ Hr id) as Hs. rewrite (of_members _ _ Hr id c).
  assert (has_commit (site_store d') c = has_commit (site_store d) c) as -> by by rewrite /has_commit Hc.
  change (List.find (epoch_is id) (epochs_of d)) with (find_epoch (site_store d) id) in Hs.
  destruct (List.find (epoch_is id) (row_epochs rows)) as [h|], (find_epoch (site_store d) id) as [r|]; simpl in Hs |- *; try done.
  - destruct Hs as [-> _]. assert (is_Some (Some r)) by by eexists. naive_solver.
  - assert (¬ is_Some (@None Epoch)) by by intros [? ?]. naive_solver.
Qed.

Lemma rebuild_tables_ok t z rows rep d :
  keyed_state z → rows_of d rows →
  ∃ rep' d', run (rebuild_tables t z rows rep) d = (Ok rep', d') ∧ tables_only d d' ∧
    followed (fresh_seal t) z d d' (report_skipped rep').
Proof.
  intros [K1 K2 K3] Hrows. pose proof Hrows as [R1 R2 R3 _]. unfold rebuild_tables.
  destruct (entries_vals taint_id (cs_taints z) K1) as [N1 E1]. destruct (entries_vals epoch_id (cs_epochs z) K3) as [N3 E3].
  destruct (rebuild_taints_ok (row_taints rows) _ rep d N1 ltac:(intros; apply R1)) as (rep1 & ts & H1 & _ & O1 & _ & G1).
  rewrite (run_then _ _ _ _ _ H1).
  destruct (rebuild_reminders_ok (row_reminders rows) (entries (cs_reminders z)) rep1 (with_taints d ts)) as (rep2 & m & H2 & S2 & O2 & G2).
  { apply entries_NoDup. }
  { intros id e He%elem_of_entries. split; [apply R2|]. intros r u ->. by eapply K2. }
  rewrite (run_then _ _ _ _ _ H2).
  destruct (rebuild_epochs_ok (fresh_seal t) (row_epochs rows) (cs_members z) _ rep2 (with_reminders (with_taints d ts) m) N3)
    as (rep3 & es & tags & H3 & S3 & O3 & G3 & A3); [intros; apply R3|].
  assert (∀ id, id ∈ epoch_id <$> (entries (cs_epochs z)).*2 ↔ is_Some (cs_epochs z !! id)) as Hids.
  { intros id. rewrite list_elem_of_fmap. split; [intros (e & -> & He%E3); by exists e|].
    intros [e He]. exists e. rewrite (K3 _ _ He). split; [done|]. apply E3. by rewrite (K3 _ _ He). }
  eexists rep3, _. split; [exact H3|]. split; [done|]. rewrite S3 S2. split.
  - intros id x Hx. assert (x ∈ (entries (cs_taints z)).*2) as Hin by (apply E1; by rewrite (K1 _ _ Hx)).
    destruct (G1 x Hin) as [H|(H & Hnone & Hgone & o & Ho & Hr)]; rewrite (K1 _ _ Hx) in H.
    + left. destruct H as (row & Hrow & Hf). exists row. split; [done|]. by rewrite R1 in Hf.
    + right. rewrite (K1 _ _ Hx) in Hnone. rewrite (K1 _ _ Hx) in Hgone.
      split_and!; [done|by rewrite /get_taint -R1|done|]. exists o. split; [|done].
      destruct Ho as [Ho|Ho]; [by left|right; by apply E1].
  - intros id e He. apply G2. by apply elem_of_entries.
  - intros id e He. assert (e ∈ (entries (cs_epochs z)).*2) as Hin by (apply E3; by rewrite (K3 _ _ He)).
    destruct (G3 e Hin) as (row & Hrow & Hs). rewrite (K3 _ _ He) in Hrow. rewrite (K3 _ _ He) in Hs. by exists row.
  - set (d' := with_epochs _ _ _). destruct A3 as [A B C].
    assert (∀ id c, id ∈ epoch_id <$> (entries (cs_epochs z)).*2 →
      joins (row_epochs rows) (cs_members z !! id) (site_store d) id c ↔ due_to_join z d d' id c) as HJ.
    { intros id c Hid%Hids. by apply joins_due. }
    assert (∀ id c, due_to_join z d d' id c → id ∈ epoch_id <$> (entries (cs_epochs z)).*2) as Hdue.
    { intros id c [He _]. by apply Hids. }
    split_and!.
    + intros c id Hj. pose proof (Hdue _ _ Hj) as Hid. apply HJ in Hj; [|done].
      destruct (B c id Hid Hj) as (k & Hk & Hkid & HkJ). exists k. split; [done|]. by apply HJ.
    + intros c k [[Hin Hno]|[Hk Hj]]%A; [left; split; [done|]|right; by apply HJ].
      intros id Hj. apply (Hno id); [by eapply Hdue|]. apply HJ; [by eapply Hdue|done].
    + intros c k Hin Hno. apply C; [done|]. intros id Hid Hj. apply (Hno id). by apply HJ.
  - intros id. split_and!.
    + intros Hz. apply O1. intros (x & -> & Hx%E1)%list_elem_of_fmap. by rewrite Hx in Hz.
    + intros Hz. apply O2. intros ([k x] & -> & Hx%elem_of_entries)%list_elem_of_fmap. by rewrite Hx in Hz.
    + intros Hz. apply O3. intros [x Hx]%Hids. by rewrite Hx in Hz.
Qed.

(** Only what the tables held, and which commits are stored after, matters. *)
Lemma followed_same seal_now z d0 d d' notes :
  taints_of d0 = taints_of d → epochs_of d0 = epochs_of d → tags_of d0 = tags_of d → site_reminders d0 = site_reminders d →
  followed seal_now z d0 d' notes → followed seal_now z d d' notes.
Proof.
  intros H1 H2 H3 H4.
  assert (∀ id, get_taint (site_store d0) id = get_taint (site_store d) id) as T by (intros id; unfold get_taint; by fold (taints_of d0) (taints_of d); rewrite H1).
  assert (∀ id, find_epoch (site_store d0) id = find_epoch (site_store d) id) as E by (intros id; unfold find_epoch; by fold (epochs_of d0) (epochs_of d); rewrite H2).
  assert (∀ id c, due_to_join z d0 d' id c ↔ due_to_join z d d' id c) as D by (intros id c; unfold due_to_join; by rewrite E H3).
  intros [F1 F2 F3 (F4 & F5 & F6) F7]. split.
  - intros id t Ht. rewrite -T -H1. by apply F1.
  - done.
  - intros id e He. rewrite -E. by apply F3.
  - rewrite -H3. split_and!.
    + intros c id Hd%D. destruct (F4 c id Hd) as (k & ? & ?%D). by exists k.
    + intros c k [[Hin Hno]|Hd]%F5; [left; split; [done|]; intros id Hd%D; by apply (Hno id)|right; by apply D].
    + intros c k Hin Hno. apply F6; [done|]. intros id Hd%D. by apply (Hno id).
  - intros id. rewrite -T -E -H4. apply F7.
Qed.
End follow.

(** ** What the tables hold *)

Lemma find_by_id {A} (key : A → string) k (l : list A) :
  List.find (λ x, bool_decide (key x = k)) l = (by_id key id l : gmap string A) !! k.
Proof.
  induction l as [|x l IH]; [done|]. unfold by_id in *. csimpl. case_bool_decide as Hk.
  - by rewrite -Hk lookup_insert_eq.
  - by rewrite lookup_insert_ne // -IH.
Qed.

Lemma by_id_perm {A B} (key : A → string) (val : A → B) l l' : NoDup (key <$> l) → l ≡ₚ l' → by_id key val l = by_id key val l'.
Proof.
  intros Hn Hp. apply list_to_map_proper; [by rewrite -list_fmap_compose|]. by rewrite Hp.
Qed.

Section rows.
Context `{CH : ContentHash, RJ : ReminderJson, SD : ControlSerde}.
Context (inter : Reminders → list Reminder) (Hinter : ∀ m, inter m ≡ₚ (map_to_list m).*2).

(** The pending marks, and what they name. *)
Definition marks_of (d : Site) : list (string * ObjectId) :=
  match list_refs (site_store d) default_ns PENDING_PREFIX with Ok l => l | Err _ => [] end.
Definition pending_of (d : Site) : gset (Kind * string) := pending_records (marks_of d).

(** Rows under ids of their own that serialize. *)
Record tidy (d : Site) : Prop := {
  td_objects : addressed (objects (site_store d));
  td_default : DEFAULT_NAMESPACE ∈ namespaces (site_store d);
  td_taint_ids : NoDup (taint_id <$> taints_of d);
  td_epoch_ids : NoDup (epoch_id <$> epochs_of d);
  td_reminder_ids k r : site_reminders d !! k = Some r → rem_id r = k;
  td_taints t : t ∈ taints_of d → encodes taint_to_json taint_from_json t t;
  td_reminders k r : site_reminders d !! k = Some r → encodes reminder_to_json reminder_from_json r r;
  td_epochs e : e ∈ epochs_of d → epoch_encodes e;
  td_tags c id : (c, id) ∈ tags_of d → valid_oid c;
}.

(** The tables as a control state. Of reminders, those that the ref [x] lacks or
    a mark names, and a deletion for one a mark names that is gone. *)
Record table_state (d : Site) (x : ControlState) (now : Time) (y : ControlState) : Prop := {
  ts_taints id : cs_taints y !! id = get_taint (site_store d) id;
  ts_reminders id : cs_reminders y !! id = match site_reminders d !! id with
    | Some r => if decide (cs_reminders x !! id = None ∨ (ReminderRecord, id) ∈ pending_of d) then Some (Live r now) else None
    | None => if decide ((ReminderRecord, id) ∈ pending_of d) then Some (Deleted now) else None
    end;
  ts_epochs id : cs_epochs y !! id = as_sets <$> find_epoch (site_store d) id;
  ts_members id : cs_members y !! id =
    if decide (find_epoch (site_store d) id = None ∨ tagged (site_store d) id = []) then None
    else Some (list_to_set (tagged (site_store d) id));
}.

Definition the_rows (d : Site) : Rows := {|
  row_taints := list_taints (site_store d) None None true;
  row_reminders := rs_list inter filter_default (site_reminders d);
  row_epochs := (λ e, default e (get_epoch (site_store d) (epoch_id e))) <$> list_epochs (site_store d);
|}.

Lemma run_epochs_with_members l d :
  run (epochs_with_members l) d = (Ok ((λ e, default e (get_epoch (site_store d) (epoch_id e))) <$> l), d).
Proof.
  induction l as [|e l IH]; [done|]. cbn [epochs_with_members].
  by rewrite (run_then _ _ _ _ _ (run_look _ d)) (run_then _ _ _ _ _ IH).
Qed.

Lemma run_read_rows d : run (read_rows inter) d = (Ok (the_rows d), d).
Proof.
  unfold read_rows.
  by rewrite (run_then _ _ _ _ _ (run_look _ d)) (run_then _ _ _ _ _ (run_remind_read _ d)) (run_then _ _ _ _ _ (run_look _ d))
    (run_then _ _ _ _ _ (run_epochs_with_members _ d)).
Qed.

Lemma all_taints d : list_taints (site_store d) None None true ≡ₚ taints_of d.
Proof.
  unfold list_taints. rewrite stable_sort_Permutation. unfold taints_of.
  induction (mem_taints (site_store d)) as [|t l IH]; simpl; [done|]. by rewrite IH.
Qed.

Lemma all_reminders d : rs_list inter filter_default (site_reminders d) ≡ₚ inter (site_reminders d).
Proof.
  unfold rs_list. rewrite merge_sort_Permutation.
  induction (inter (site_reminders d)) as [|r l IH]; simpl; [done|]. by rewrite IH.
Qed.

Lemma inter_values m r : r ∈ inter m ↔ ∃ id, m !! id = Some r.
Proof.
  rewrite Hinter list_elem_of_fmap. split.
  - intros ([k x] & -> & H%elem_of_map_to_list). by exists k.
  - intros [k H]. exists (k, r). by rewrite elem_of_map_to_list.
Qed.

Lemma reminder_ids d : tidy d → NoDup (rem_id <$> rs_list inter filter_default (site_reminders d)) ∧
  by_id rem_id id (rs_list inter filter_default (site_reminders d)) = site_reminders d.
Proof.
  intros Ht. pose proof (inter_values (site_reminders d)) as Hin.
  assert (NoDup (rem_id <$> inter (site_reminders d))) as Hids.
  { rewrite Hinter -list_fmap_compose. assert ((rem_id ∘ snd) <$> map_to_list (site_reminders d) = (map_to_list (site_reminders d)).*1) as ->;
      [|apply NoDup_fst_map_to_list].
    apply list_fmap_ext. intros i [k r] Hi%list_elem_of_lookup_2%elem_of_map_to_list. by apply (td_reminder_ids d Ht). }
  assert (NoDup (rem_id <$> rs_list inter filter_default (site_reminders d))) as Hids' by by rewrite all_reminders.
  split; [done|]. rewrite (by_id_perm _ _ _ _ Hids' (all_reminders d)). apply map_eq. intros k. apply option_eq. intros r. split.
  - intros (r' & Hr & <- & <-)%by_id_Some. apply Hin in Hr as [i Hi]. by rewrite (td_reminder_ids d Ht i r' Hi).
  - intros Hr. rewrite -(td_reminder_ids d Ht k r Hr). apply (by_id_lookup rem_id id); [done|]. apply Hin. by exists k.
Qed.

Lemma full_epochs d : tidy d →
  NoDup (epoch_id <$> row_epochs (the_rows d)) ∧
  ∀ k, (by_id epoch_id id (row_epochs (the_rows d)) : gmap string Epoch) !! k = get_epoch (site_store d) k.
Proof.
  intros Ht. set (full := λ e, default e (get_epoch (site_store d) (epoch_id e))).
  assert (∀ e, epoch_id (full e) = epoch_id e) as Hid.
  { intros e. unfold full, get_epoch. destruct (find_epoch (site_store d) (epoch_id e)) as [e'|] eqn:He; [|done].
    by apply List_find_Some in He as [_ He%epoch_is_spec]. }
  assert (epoch_id <$> row_epochs (the_rows d) ≡ₚ epoch_id <$> epochs_of d) as Hp.
  { simpl. fold full. rewrite -list_fmap_compose. rewrite (list_fmap_ext (epoch_id ∘ full) epoch_id (list_epochs (site_store d))).
    - unfold list_epochs. by rewrite stable_sort_Permutation.
    - intros i x _. apply Hid. }
  assert (NoDup (epoch_id <$> row_epochs (the_rows d))) as Hn by (rewrite Hp; apply Ht). split; [done|].
  intros k. destruct (get_epoch (site_store d) k) as [e|] eqn:He.
  - unfold get_epoch in He. destruct (find_epoch (site_store d) k) as [e'|] eqn:He'; [|done]. injection He as He.
    pose proof (List_find_Some _ _ _ He') as [Hin Hk%epoch_is_spec].
    assert (full e' = e) as Hfull by (by rewrite /full /get_epoch Hk He' -He).
    assert (epoch_id e = k) as <- by by rewrite -Hfull Hid. apply (by_id_lookup epoch_id id); [done|].
    simpl. apply list_elem_of_fmap. exists e'. split; [done|]. unfold list_epochs. by rewrite stable_sort_Permutation.
  - apply by_id_None. rewrite Hp. intros (e & Hk & Hin)%list_elem_of_fmap. unfold get_epoch, find_epoch in He.
    destruct (List.find (epoch_is k) (epochs (site_store d))) as [e'|] eqn:He'; [done|].
    apply list_elem_of_In, (List.find_none _ _ He') in Hin. unfold epoch_is in Hin. by rewrite bool_decide_true in Hin.
Qed.

Lemma rows_as_read d : tidy d → rows_of d (the_rows d).
Proof.
  intros Ht. destruct (reminder_ids d Ht) as [_ Hr]. destruct (full_epochs d Ht) as [_ He]. split; intros k.
  - unfold taint_is. rewrite !find_by_id. simpl.
    rewrite (by_id_perm taint_id id _ _ _ (all_taints d)); [done|]. rewrite all_taints. apply Ht.
  - rewrite find_by_id. simpl. by rewrite Hr.
  - unfold epoch_is at 1. rewrite find_by_id He. unfold get_epoch, find_epoch, epochs_of.
    by destruct (List.find (epoch_is k) (epochs (site_store d))).
  - intros c. unfold epoch_is. rewrite find_by_id He. unfold get_epoch.
    destruct (find_epoch (site_store d) k) as [e|]; simpl.
    + unfold tagged. rewrite list_elem_of_fmap. split.
      * intros ([c' k'] & -> & [Hin Hk%bool_decide_unpack]%elem_of_List_filter). simpl in *. subst. by split; [eexists|].
      * intros [_ Hin]. exists (c, k). split; [done|]. apply elem_of_List_filter. by rewrite bool_decide_spec.
    + split; [by intros ?%elem_of_nil|by intros [[? ?] _]].
Qed.

Lemma rows_ok_tidy d : tidy d → rows_ok (the_rows d).
Proof.
  intros Ht. destruct (reminder_ids d Ht) as [Hr1 Hr2]. destruct (full_epochs d Ht) as [He1 _]. split; simpl.
  - rewrite all_taints. apply Ht.
  - intros t Hin. apply (td_taints d Ht). by rewrite -(all_taints d).
  - done.
  - intros r Hin. rewrite all_reminders in Hin. apply inter_values in Hin as [k Hk]. by eapply td_reminders.
  - done.
  - intros e (e0 & -> & Hin)%list_elem_of_fmap. unfold list_epochs in Hin. rewrite stable_sort_Permutation in Hin.
    unfold get_epoch. destruct (find_epoch (site_store d) (epoch_id e0)) as [e1|] eqn:He; simpl.
    + pose proof (List_find_Some _ _ _ He) as [Hin1 _]. split; [by apply (td_epochs d Ht e1)|].
      apply Forall_forall. intros c (ce & -> & [Hc _]%elem_of_List_filter)%list_elem_of_fmap. destruct ce. by eapply (td_tags d Ht).
    + unfold find_epoch in He. apply list_elem_of_In, (List.find_none _ _ He) in Hin. unfold epoch_is in Hin. by rewrite bool_decide_true in Hin.
Qed.

Lemma by_id_fmap {A B} (key : A → string) (val : A → B) l : by_id key val l = val <$> (by_id key id l : gmap string A).
Proof.
  unfold by_id. induction l as [|x l IH]; csimpl; [by rewrite fmap_empty|]. by rewrite IH fmap_insert.
Qed.

Lemma merged_by_more {A} (rule : A → A → A → Prop) (x y y' z : gmap string A) :
  (∀ k b, y !! k = Some b → y' !! k = Some b ∨ y' !! k = None ∧ ∃ a, x !! k = Some a ∧ rule a b a) →
  (∀ k, y !! k = None → y' !! k = None) → merged_by rule x y' z → merged_by rule x y z.
Proof.
  intros Hs Hn Hm k. specialize (Hm k). destruct (y !! k) as [b|] eqn:Hy.
  - destruct (Hs k b Hy) as [H|[H (a & Ha & Hr)]]; rewrite H in Hm; [done|]. rewrite Ha in Hm. rewrite Ha. by exists a.
  - by rewrite (Hn k Hy) in Hm.
Qed.

(** What a merge with the rows taken keeps, it keeps of all the tables hold. *)
Lemma keeps_tables order d x now z :
  (∀ X, NoDup (order X) ∧ ∀ k, k ∈ order X ↔ k ∈ X) → tidy d →
  keeps x (candidate_state order x (pending_of d) now (the_rows d)) z → ∃ y, table_state d x now y ∧ keeps x y z.
Proof.
  intros Ho Ht [K1 K2 K3 K4]. destruct (reminder_ids d Ht) as [Hr1 Hr2]. destruct (full_epochs d Ht) as [He1 He2].
  pose proof (rows_ok_tidy d Ht) as Hrows. destruct (rows_as_read d Ht) as [F1 _ _].
  assert (∀ k, (by_id taint_id id (row_taints (the_rows d)) : gmap string Taint) !! k = get_taint (site_store d) k) as Ft.
  { intros k. rewrite -find_by_id. exact (F1 k). }
  eexists {| cs_taints := by_id taint_id id (row_taints (the_rows d));
    cs_reminders := cs_reminders (candidate_state order x (pending_of d) now (the_rows d));
    cs_epochs := by_id epoch_id as_sets (row_epochs (the_rows d));
    cs_members := by_id epoch_id (λ e, list_to_set (epoch_commits e))
      (List.filter (λ e, negb (bool_decide (epoch_commits e = []))) (row_epochs (the_rows d))) |}.
  split; split; cbn [cs_taints cs_reminders cs_epochs cs_members candidate_state].
  - done.
  - intros k. rewrite lookup_union. rewrite (by_id_filter rem_id _ _ _ _ Hr1) Hr2. destruct (site_reminders d !! k) as [r|] eqn:Hr.
    + rewrite (proj2 (by_id_None snd _ _ k)).
      * rewrite left_id_L /=. unfold new_reminder. rewrite (td_reminder_ids d Ht k r Hr).
        case_decide as Hd; case_match eqn:Hb; try done; exfalso; move: Hb.
        -- move=> /orb_false_iff [/bool_decide_eq_false H1 /bool_decide_eq_false H2]. by destruct Hd.
        -- move=> /orb_true_iff [/bool_decide_eq_true H1|/bool_decide_eq_true H2]; apply Hd; auto.
      * intros (ki & -> & [_ Hg]%elem_of_List_filter)%list_elem_of_fmap. apply andb_True in Hg as [_ Hg%bool_decide_unpack].
        apply Hg. simpl. apply list_elem_of_fmap. exists r. split; [by rewrite (td_reminder_ids d Ht _ r Hr)|].
        rewrite all_reminders. apply inter_values. by exists ki.2.
    + simpl. rewrite right_id_L. destruct (Ho (pending_of d)) as [Hno Hio]. case_decide as Hd.
      * apply (by_id_lookup snd (λ _, Deleted now) _ (ReminderRecord, k)).
        -- apply (NoDup_fmap_fst_eq ReminderRecord); [|by apply NoDup_ListNoDup, List.NoDup_filter, NoDup_ListNoDup].
           intros ki [_ Hk]%elem_of_List_filter. by apply andb_True in Hk as [?%bool_decide_unpack _].
        -- apply elem_of_List_filter. split; [by apply Hio|]. apply andb_True. rewrite !bool_decide_spec. split; [done|].
           simpl. intros (r & Hk & Hin)%list_elem_of_fmap. rewrite all_reminders in Hin. apply inter_values in Hin as [k' Hk'].
           by rewrite Hk (td_reminder_ids d Ht k' r Hk') Hk' in Hr.
      * apply by_id_None. intros ([kd k'] & -> & [Hin Hg]%elem_of_List_filter)%list_elem_of_fmap. apply andb_True in Hg as [Hg%bool_decide_unpack _].
        simpl in *. subst. by apply Hd, Hio.
  - intros k. rewrite by_id_fmap lookup_fmap He2. unfold get_epoch. by destruct (find_epoch (site_store d) k).
  - intros k. rewrite by_id_filter // He2. unfold get_epoch. destruct (find_epoch (site_store d) k) as [e|]; simpl.
    + case_bool_decide as H1; case_decide as H2; simpl; try done; [by destruct H2; right|by destruct H2].
    + done.
  - apply (merged_by_more _ _ _ (by_id taint_id id (List.filter (new_taint x) (row_taints (the_rows d))))); [| |exact K1].
    + intros k t Hk. rewrite (by_id_filter taint_id id); [|apply Hrows]. rewrite Hk. simpl. unfold new_taint.
      apply by_id_Some in Hk as (t' & _ & <- & Heq). change (t' = t) in Heq. subst t'. case_bool_decide as Hd; [by left|right].
      split; [done|]. exists t. split; [by destruct (decide (cs_taints x !! taint_id t = Some t))|].
      split; [by left|]. intros e u [->| ->] ?; exists u; (split; [done|lia]).
    + intros k Hk. rewrite (by_id_filter taint_id id); [|apply Hrows]. by rewrite Hk.
  - done.
  - apply (merged_by_more _ _ _ (by_id epoch_id as_sets (List.filter (new_epoch x) (row_epochs (the_rows d))))); [| |exact K3].
    + intros k e' Hk. rewrite by_id_filter //. rewrite by_id_fmap lookup_fmap in Hk.
      destruct ((by_id epoch_id id (row_epochs (the_rows d)) : gmap string Epoch) !! k) as [e|] eqn:He; [|done].
      injection Hk as <-. simpl. unfold new_epoch.
      apply by_id_Some in He as (e' & _ & <- & Heq). change (e' = e) in Heq. subst e'. case_bool_decide as Hd; [by left|right].
      split; [done|]. exists (epoch_record e). split; [by destruct (decide (cs_epochs x !! epoch_id e = Some (epoch_record e)))|].
      split; [by left|]. intros f [->| ->]; (split; [done|]); intros _ u v Hu Hv; simpl in *; rewrite Hu in Hv; injection Hv as ->; done.
    + intros k Hk. rewrite by_id_filter //. rewrite by_id_fmap lookup_fmap in Hk.
      by destruct ((by_id epoch_id id (row_epochs (the_rows d)) : gmap string Epoch) !! k).
  - apply (merged_by_more _ _ _ (by_id epoch_id (λ e, list_to_set (epoch_commits e)) (List.filter (new_members x) (row_epochs (the_rows d))))); [| |exact K4].
    + intros k X. rewrite !by_id_filter //.
      destruct ((by_id epoch_id id (row_epochs (the_rows d)) : gmap string Epoch) !! k) as [e|] eqn:He; [|done]. simpl.
      case_bool_decide as Hem; simpl; [done|]. intros [= <-].
      apply by_id_Some in He as (e' & _ & <- & Heq). change (e' = e) in Heq. subst e'.
      destruct (new_members x e) eqn:Hnew; [by left|right]. split; [done|]. unfold new_members in Hnew.
      destruct (cs_members x !! epoch_id e) as [m|].
      * exists m. split; [done|]. unfold members_rule. apply set_eq. intros c. rewrite elem_of_union elem_of_list_to_set.
        split; [by left|]. intros [?|Hc]; [done|]. destruct (decide (c ∈ m)); [done|]. exfalso.
        apply not_true_iff_false in Hnew. apply Hnew, existsb_exists. exists c. split; [by apply list_elem_of_In|by apply bool_decide_eq_true].
      * destruct (epoch_commits e); [done|]. by simpl in Hnew.
    + intros k. rewrite !by_id_filter //.
      destruct ((by_id epoch_id id (row_epochs (the_rows d)) : gmap string Epoch) !! k) as [e|]; [|done]. simpl.
      unfold new_members. destruct (epoch_commits e); done.
Qed.
End rows.

(** ** The refs *)

Definition control_key (name : string) : string * string := (DEFAULT_NAMESPACE, name).

Lemma get_ref_default s name :
  DEFAULT_NAMESPACE ∈ namespaces s → get_ref s default_ns name = Ok (refs s !! control_key name).
Proof. intros Hd. unfold get_ref, require_namespace. by rewrite decide_True. Qed.

Lemma run_ref d name :
  DEFAULT_NAMESPACE ∈ namespaces (site_store d) →
  run (on_store (reading (λ s, get_ref s default_ns name))) d = (Ok (refs (site_store d) !! control_key name), d).
Proof. intros Hd. apply run_store_read. by apply get_ref_default. Qed.

Definition with_site_refs (d : Site) (r : gmap (string * string) ObjectId) : Site := with_site_store d (set_refs (site_store d) r).

Lemma with_site_refs_same d : with_site_refs d (refs (site_store d)) = d.
Proof. by destruct d as [[[] sp] m]. Qed.

Lemma run_marks d : DEFAULT_NAMESPACE ∈ namespaces (site_store d) →
  run (on_store (reading (λ s, list_refs s default_ns PENDING_PREFIX))) d = (Ok (marks_of d), d) ∧ NoDup (marks_of d).*1 ∧
  ∀ name t, (name, t) ∈ marks_of d ↔ refs (site_store d) !! control_key name = Some t ∧ starts_with PENDING_PREFIX name.
Proof.
  intros Hd. destruct (list_refs_default (site_store d) PENDING_PREFIX Hd) as (l & Hl & Hn & Hin).
  unfold marks_of. rewrite Hl. split_and!; [|done|done]. by apply run_store_read.
Qed.

(** Clearing marks. *)
Lemma run_clear l d :
  DEFAULT_NAMESPACE ∈ namespaces (site_store d) → NoDup l.*1 →
  (∀ name t, (name, t) ∈ l → refs (site_store d) !! control_key name = Some t) →
  ∃ r, run (each (λ p, ignoring (on_store (cas_delete_ref default_ns p.1 p.2))) l) d = ((Ok (), with_site_refs d r) : result ControlError () * Site) ∧
    ∀ k, r !! k = if decide (k ∈ (control_key <$> l.*1)) then None else refs (site_store d) !! k.
Proof.
  intros Hd. revert d Hd. induction l as [|[name t] l IH]; intros d Hd Hn Hin.
  { exists (refs (site_store d)). rewrite with_site_refs_same. split; [done|]. done. }
  csimpl in Hn. apply NoDup_cons in Hn as [Hname Hn]. cbn [each fst snd].
  assert (run (ignoring (on_store (cas_delete_ref default_ns name t)) : Prog Site ControlError ()) d
    = (Ok (), with_site_refs d (delete (control_key name) (refs (site_store d))))) as R.
  { rewrite run_ignoring. f_equal. unfold cas_delete_ref.
    rewrite (run_on_store _ _ (Ok true) (set_refs (site_store d) (delete (control_key name) (refs (site_store d))))); [done|].
    unfold mbind, stateful_bind, reading, require_namespace. rewrite decide_True // /action.
    rewrite (Hin name t); [|by left]. by rewrite decide_True. }
  rewrite (run_then _ _ _ _ _ R).
  destruct (IH (with_site_refs d (delete (control_key name) (refs (site_store d)))) Hd Hn) as (r & Rr & Hr).
  { intros name' t' Hin'. simpl. rewrite lookup_delete_ne; [apply Hin; by right|].
    intros [= ->]. apply Hname. apply list_elem_of_fmap. by exists (name', t'). }
  exists r. split; [exact Rr|]. intros k. rewrite Hr /=. csimpl. destruct (decide (k = control_key name)) as [->|Hk].
  - rewrite lookup_delete_eq (decide_True _ _ (P := _ ∈ _ :: _)); [|by left]. by case_decide.
  - rewrite lookup_delete_ne //. case_decide as H1; case_decide as H2; try done.
    + destruct H2. by right.
    + apply elem_of_cons in H2 as [?|?]; done.
Qed.

Section landing.
Context `{CH : ContentHash, CS : CommitSerial}.

(** Nothing changes but commits and the control ref, which is at a commit of the
    tree. *)
Record landed_at (root : ObjectId) (d d' : Site) : Prop := {
  la_frame : site_reminders d' = site_reminders d ∧ taints_of d' = taints_of d ∧ epochs_of d' = epochs_of d ∧ tags_of d' = tags_of d ∧
    objects (site_store d') = objects (site_store d) ∧ namespaces (site_store d') = namespaces (site_store d);
  la_refs k : k ≠ control_key CONTROL_REF → refs (site_store d') !! k = refs (site_store d) !! k;
  la_head : ∃ h c, refs (site_store d') !! control_key CONTROL_REF = Some h ∧ commits (site_store d') !! h = Some c ∧ state_root c = root;
}.

Lemma run_land_control head root agent auth i now d :
  DEFAULT_NAMESPACE ∈ namespaces (site_store d) → refs (site_store d) !! control_key CONTROL_REF = head →
  ∃ h d', run (land_control head root agent auth i now) d = (Ok (Some h), d') ∧ landed_at root d d' ∧
    refs (site_store d') !! control_key CONTROL_REF = Some h.
Proof.
  intros Hd Hh. unfold land_control. set (c := build _ now).
  set (s1 := put_commit (site_store d) c).
  set (s2 := set_refs s1 (<[control_key CONTROL_REF := commit_id c]> (refs s1))).
  exists (commit_id c), (with_site_store d s2). split_and!.
  - unfold put_commit_here. rewrite (run_then _ _ _ () (with_site_store d s1)); [|by rewrite (run_on_store _ _ (Ok ()) s1)].
    rewrite (run_then _ _ _ true (with_site_store d s2)); [done|]. unfold move_control.
    assert (refs s1 !! control_key CONTROL_REF = head) as Hh1 by done.
    destruct head as [h|]; rewrite (run_on_store _ _ (Ok true) s2) //.
    + unfold cas_ref, mbind, stateful_bind, reading, require_namespace. rewrite decide_True // /action.
      change (refs (site_store (with_site_store d s1))) with (refs s1). unfold control_key in Hh1. rewrite Hh1 decide_True //.
    + unfold create_ref, mbind, stateful_bind, reading, require_namespace. rewrite decide_True // /action.
      change (refs (site_store (with_site_store d s1))) with (refs s1). unfold control_key in Hh1. by rewrite Hh1.
  - split; [done| |].
    + intros k Hk. simpl. by rewrite lookup_insert_ne.
    + exists (commit_id c), c. simpl. rewrite !lookup_insert_eq. done.
  - simpl. by rewrite lookup_insert_eq.
Qed.
End landing.

(** ** Reconciling *)

Lemma pending_not_indexed name : starts_with PENDING_PREFIX name → name ≠ INDEXED_REF ∧ name ≠ CONTROL_REF.
Proof. intros H. split; intros ->; by vm_compute in H. Qed.

Section reconcile.
Context `{CH : ContentHash, CS : CommitSerial, HA : !HashAcyclic, CF : !CollisionFree, RJ : ReminderJson, SD : ControlSerde}.
Context (inter : Reminders → list Reminder) (order : gset (Kind * string) → list (Kind * string)).
Context (Hinter : ∀ m, inter m ≡ₚ (map_to_list m).*2).
Context (Horder : ∀ X, NoDup (order X) ∧ ∀ k, k ∈ order X ↔ k ∈ X).

(** What the control ref holds: nothing yet, or a tree that reads. *)
Definition controls (s : MemoryStorage) (x : ControlState) : Prop :=
  match refs s !! control_key CONTROL_REF with
  | None => x = control_default
  | Some h => ∃ c, commits s !! h = Some c ∧ read (state_root c) s = (Ok x, s)
  end.

(** There is nothing to reconcile, by the refs. *)
Definition looks_settled (d : Site) : Prop :=
  let head := refs (site_store d) !! control_key CONTROL_REF in
  is_Some head ∧ head = refs (site_store d) !! control_key INDEXED_REF ∧ marks_of d = [].

Lemma settled_again fresh d :
  DEFAULT_NAMESPACE ∈ namespaces (site_store d) → looks_settled d → run (reconcile_control inter order fresh) d = (Ok no_report, d).
Proof.
  intros Hd (Hs & Hi & Hm). apply run_first. unfold try_reconcile_control, control_head.
  rewrite (run_then _ _ _ _ _ (run_ref d CONTROL_REF Hd)) (run_then _ _ _ _ _ (run_ref d INDEXED_REF Hd))
    (run_then _ _ _ _ _ (proj1 (run_marks d Hd))).
  by rewrite (bool_decide_true _ Hs) (bool_decide_true _ Hi) (bool_decide_true _ Hm).
Qed.

(** The last steps: reading the tree merged, rebuilding and the bookkeeping. *)
Lemma finish_ok t h z root rows rep pending d :
  DEFAULT_NAMESPACE ∈ namespaces (site_store d) → holds_state (objects (site_store d)) root z → keyed_state z → rows_of d rows →
  NoDup pending.*1 → (∀ name u, (name, u) ∈ pending ↔ refs (site_store d) !! control_key name = Some u ∧ starts_with PENDING_PREFIX name) →
  refs (site_store d) !! control_key CONTROL_REF = Some h → (∃ c, commits (site_store d) !! h = Some c ∧ state_root c = root) →
  ∃ rep' d', run (state ← on_objects (read root);
      rep ← rebuild_tables t state rows rep;
      _ ← mark_settled (Some h) pending;
      mret (Some rep)) d = (Ok (Some rep'), d') ∧
    controls (site_store d') z ∧ followed (fresh_seal t) z d d' (report_skipped rep') ∧ looks_settled d' ∧
    (∀ name, ¬ starts_with CONTROL_PREFIX name → refs (site_store d') !! control_key name = refs (site_store d) !! control_key name) ∧
    (∀ k, k.1 ≠ DEFAULT_NAMESPACE → refs (site_store d') !! k = refs (site_store d) !! k) ∧
    DEFAULT_NAMESPACE ∈ namespaces (site_store d').
Proof.
  intros Hd Hz Hk Hrows Hn Hp Hh (c & Hc & Hroot).
  assert (read root (site_store d) = (Ok z, site_store d)) as Hread by by apply read_spec.
  rewrite (run_then _ _ _ z d); [|by rewrite (run_on_objects _ _ _ _ Hread) with_same_site].
  destruct (rebuild_tables_ok t z rows rep d Hk Hrows) as (rep' & d1 & R1 & [T1 T2 T3 T4] & F1).
  rewrite (run_then _ _ _ _ _ R1).
  assert (DEFAULT_NAMESPACE ∈ namespaces (site_store d1)) as Hd1 by by rewrite T4.
  set (d2 := with_site_refs d1 (<[control_key INDEXED_REF := h]> (refs (site_store d1)))).
  assert (run (on_store (set_ref default_ns INDEXED_REF h)) d1 = (Ok (), d2)) as R2.
  { rewrite (run_on_store _ _ (Ok ()) (set_refs (site_store d1) (<[control_key INDEXED_REF := h]> (refs (site_store d1))))) //.
    unfold set_ref, mbind, stateful_bind, reading, require_namespace. by rewrite decide_True. }
  destruct (run_clear pending d2 Hd1 Hn) as (r & R3 & Hr).
  { intros name u [Hu Hs]%Hp. simpl. rewrite lookup_insert_ne; [by rewrite T3|].
    intros [= Heq]. by apply (proj1 (pending_not_indexed name Hs)). }
  assert (run (mark_settled (Some h) pending) d1 = (Ok (), with_site_refs d2 r)) as R4.
  { unfold mark_settled. by rewrite (run_then _ _ _ _ _ R2). }
  exists rep', (with_site_refs d2 r). rewrite (run_then _ _ _ _ _ R4).
  assert (∀ name, starts_with PENDING_PREFIX name = false → r !! control_key name = <[control_key INDEXED_REF := h]> (refs (site_store d)) !! control_key name) as Hother.
  { intros name Hs. rewrite Hr. rewrite decide_False; [by rewrite /= T3|].
    intros (n' & [= ->] & ([n'' u] & -> & Hin)%list_elem_of_fmap)%list_elem_of_fmap. apply Hp in Hin as [_ Hin]. simpl in Hs. by rewrite Hs in Hin. }
  assert (r !! control_key CONTROL_REF = Some h) as Hctl.
  { rewrite Hother; [|by vm_compute]. rewrite lookup_insert_ne; [done|by vm_compute]. }
  split_and!; [done| | | | | |done].
  - unfold controls. simpl. rewrite Hctl. exists c. split; [by rewrite T2|]. apply read_spec. split; [done|]. simpl. by rewrite T1 Hroot.
  - destruct F1 as [F1 F2 F3 F4 F5]. by split.
  - unfold looks_settled. simpl. split_and!; [by rewrite Hctl| |].
    + rewrite Hctl Hother; [by rewrite lookup_insert_eq|by vm_compute].
    + destruct (run_marks (with_site_refs d2 r) Hd1) as (_ & _ & Hin). destruct (marks_of (with_site_refs d2 r)) as [|[name u] l]; [done|].
      exfalso. destruct (proj1 (Hin name u) ltac:(by left)) as [Hu Hs]. simpl in Hu. rewrite Hr in Hu. case_decide as Hm; [done|].
      simpl in Hu. rewrite lookup_insert_ne in Hu; [|intros [= Heq]; by apply (proj1 (pending_not_indexed name Hs))].
      apply Hm. apply list_elem_of_fmap. exists name. split; [done|]. apply list_elem_of_fmap. exists (name, u). split; [done|].
      apply Hp. by rewrite -T3.
  - intros name Hs. simpl. rewrite Hother.
    + rewrite lookup_insert_ne; [done|]. intros [= <-]. apply Hs. by vm_compute.
    + apply not_true_iff_false. intros Hs'%Is_true_true. apply Hs. apply starts_with_spec in Hs' as [u ->]. apply starts_with_spec. by exists ("-pending/" +:+ u).
  - intros k Hk1. simpl. rewrite Hr decide_False /=.
    + rewrite lookup_insert_ne; [by rewrite T3|]. by intros <-.
    + intros (n' & -> & _)%list_elem_of_fmap. by apply Hk1.
Qed.

(** *** The states along the way *)

Lemma keyed_default : keyed_state control_default.
Proof. by split. Qed.

Lemma keyed_candidate x now d : tidy d → keyed_state (candidate_state order x (pending_of d) now (the_rows inter d)).
Proof.
  intros Ht. split; intros k e; cbn [cs_taints cs_reminders cs_epochs candidate_state].
  - by intros (t & _ & <- & [= <-])%by_id_Some.
  - intros r [H|[_ H]]%lookup_union_Some_raw.
    + by apply by_id_Some in H as (? & _ & _ & ?).
    + by apply by_id_Some in H as (? & _ & <- & [= <- _]).
  - intros (e' & _ & <- & <-)%by_id_Some. done.
Qed.

Lemma merged_keyed {A} (key : A → string → Prop) (rule : A → A → A → Prop) (x y z : gmap string A) :
  (∀ a b c, rule a b c → one_of a b c) → merged_by rule x y z →
  (∀ k a, x !! k = Some a → key a k) → (∀ k a, y !! k = Some a → key a k) → ∀ k a, z !! k = Some a → key a k.
Proof.
  intros Hrule Hm Hx Hy k c Hz. specialize (Hm k). specialize (Hx k). specialize (Hy k).
  destruct (x !! k) as [a|]; [destruct (y !! k) as [b|]|].
  - destruct Hm as (c' & Hc & Hr). rewrite Hz in Hc. injection Hc as <-. apply Hrule in Hr as [->| ->]; auto.
  - rewrite Hz in Hm. injection Hm as ->. auto.
  - rewrite Hz in Hm. auto.
Qed.

Lemma keyed_keeps x y z : keyed_state x → keyed_state y → keeps x y z → keyed_state z.
Proof.
  intros [X1 X2 X3] [Y1 Y2 Y3] [K1 K2 K3 _]. split.
  - apply (merged_keyed (λ t k, taint_id t = k) taint_rule (cs_taints x) (cs_taints y)); [by intros ??? []|done..].
  - intros k r t Hz. eapply (merged_keyed (λ e k, ∀ r t, e = Live r t → rem_id r = k) entry_rule (cs_reminders x) (cs_reminders y)); [by intros ??? []|done| | |done|done].
    + intros k' e He r' t' ->. by eapply X2.
    + intros k' e He r' t' ->. by eapply Y2.
  - apply (merged_keyed (λ t k, epoch_id t = k) epoch_rule (cs_epochs x) (cs_epochs y)); [by intros ??? []|done..].
Qed.

Lemma keeps_default y : keeps control_default y y.
Proof. by split; intros k; simpl; rewrite lookup_empty. Qed.

(** Only objects differ. *)
Lemma objects_only_site d st : objects_only (site_store d) st →
  let d' := with_site_store d st in
  taints_of d' = taints_of d ∧ epochs_of d' = epochs_of d ∧ tags_of d' = tags_of d ∧ site_reminders d' = site_reminders d ∧
  refs st = refs (site_store d) ∧ commits st = commits (site_store d) ∧ namespaces st = namespaces (site_store d).
Proof. by intros ->. Qed.

(** The head of the control ref and the tree it is at. *)
Definition head_tree (s : MemoryStorage) (head base : option ObjectId) : Prop :=
  refs s !! control_key CONTROL_REF = head ∧
  match head with Some h => ∃ c, commits s !! h = Some c ∧ base = Some (state_root c) | None => base = None end.

Lemma controls_tree s x : controls s x →
  ∃ head base, head_tree s head base ∧
    match base with Some root => read root s = (Ok x, s) | None => x = control_default end.
Proof.
  unfold controls, head_tree. destruct (refs s !! control_key CONTROL_REF) as [h|] eqn:Hh.
  - intros (c & Hc & Hr). exists (Some h), (Some (state_root c)). split; [|done]. split; [done|]. by exists c.
  - intros ->. by exists None, None.
Qed.

Lemma run_base d head base : head_tree (site_store d) head base → run (control_base head) d = (Ok base, d).
Proof.
  intros [Hh Hb]. destruct head as [h|]; [|by subst]. destruct Hb as (c & Hc & ->). unfold control_base.
  rewrite (run_then _ _ _ _ _ (run_look _ d)). unfold get_commit. by rewrite Hc.
Qed.

Lemma merge_rows x d now base :
  tidy d → time_back now → match base with Some root => read root (site_store d) = (Ok x, site_store d) | None => x = control_default end →
  ∃ candidate st merged st' z,
    run (on_objects (candidate_of order x (the_rows inter d) (pending_of d) now)) d = (Ok candidate, with_site_store d st) ∧
    run (match base with
         | Some root => m ← on_objects (control_merge root candidate); mret (merged_root m)
         | None => mret candidate
         end) (with_site_store d st) = ((Ok merged, with_site_store d st') : result ControlError ObjectId * Site) ∧
    objects_only (site_store d) st' ∧ holds_state (objects st') merged z ∧
    keeps x (candidate_state order x (pending_of d) now (the_rows inter d)) z.
Proof.
  intros Ht Hnow Hbase.
  destruct (candidate_ok order Horder x (pending_of d) now (the_rows inter d) (site_store d)) as (cand & st & R1 & L1 & S1);
    [apply Ht|by apply rows_ok_tidy|done|].
  pose proof (proj1 (only_objects_candidate order x (the_rows inter d) (pending_of d) now (site_store d))) as O1. rewrite R1 /= in O1.
  pose proof (run_on_objects _ d _ _ R1) as R1'. destruct base as [root|].
  - assert (read root st = (Ok x, st)) as Hx.
    { apply read_spec in Hbase as [_ Hbase]. apply read_spec. split; [done|]. by eapply holds_state_mono; [apply L1|]. }
    destruct (control_merge_run root cand x (candidate_state order x (pending_of d) now (the_rows inter d)) st (proj1 L1) Hx) as (st' & r & z & R2 & L2 & M2 & _ & Sx & Sy & Sz);
      [by apply read_spec|].
    pose proof (proj1 (only_objects_merge root cand st)) as O2. rewrite R2 /= in O2.
    exists cand, st, r, st', z. split_and!; [exact R1'| | |exact Sz|].
    + by rewrite (run_then _ _ _ _ _ (run_on_objects _ (with_site_store d st) _ _ R2)).
    + by etransitivity.
    + eapply holds_keeps; [apply L2|done..].
  - subst x. exists cand, st, cand, st. eexists. split_and!; [exact R1'|done|done|exact S1|]. apply keeps_default.
Qed.

Lemma take_rows_ok t head base merged d :
  DEFAULT_NAMESPACE ∈ namespaces (site_store d) → head_tree (site_store d) head base →
  ∃ h b d', run (take_rows t head base merged) d = (Ok (Some (Some h, b)), d') ∧ landed_at merged d d' ∧
    refs (site_store d') !! control_key CONTROL_REF = Some h.
Proof.
  intros Hd [Hh Hb]. unfold take_rows. case_decide as Heq.
  - destruct head as [h|]; [|by subst]. destruct Hb as (c & Hc & Hb). exists h, false, d. split_and!; [done| |done].
    split; [done|done|]. exists h, c. split_and!; [done..|congruence].
  - destruct (run_land_control head merged "system" (simple_authority "system" (fresh_grant t))
      (new_intent (fresh_intent t) Migrate "take the taint, reminder and epoch tables into the control ref") (fresh_commit t) d Hd Hh)
      as (h & d' & R & L & Hh'). exists h, true, d'. by rewrite (run_then _ _ _ _ _ R).
Qed.

(** *** The whole *)

(** What reconciling leaves of the site [d], whose control ref held [x]: the
    control ref holds what it and the tables held, merged; the tables are up to
    it; and no ref of anyone else's has moved. *)
Record reconciled (x : ControlState) (now : Time) (seal_now : string → Time) (d d' : Site) (rep : ControlReport) : Prop := {
  rc_state : ∃ y z, table_state d x now y ∧ keeps x y z ∧ controls (site_store d') z ∧ followed seal_now z d d' (report_skipped rep);
  rc_refs name : ¬ starts_with CONTROL_PREFIX name → refs (site_store d') !! control_key name = refs (site_store d) !! control_key name;
  rc_namespaces k : k.1 ≠ DEFAULT_NAMESPACE → refs (site_store d') !! k = refs (site_store d) !! k;
}.

Lemma nothing_here fresh d :
  DEFAULT_NAMESPACE ∈ namespaces (site_store d) → refs (site_store d) !! control_key CONTROL_REF = None →
  rows_empty (the_rows inter d) → marks_of d = [] → run (reconcile_control inter order fresh) d = (Ok no_report, d).
Proof.
  intros Hd Hh Hr%Is_true_true Hm. apply run_first. unfold try_reconcile_control, control_head.
  rewrite (run_then _ _ _ _ _ (run_ref d CONTROL_REF Hd)) (run_then _ _ _ _ _ (run_ref d INDEXED_REF Hd))
    (run_then _ _ _ _ _ (proj1 (run_marks d Hd))) Hh.
  rewrite (bool_decide_false (is_Some None)); [|by intros [? ?]]. cbn [andb].
  rewrite (run_then _ _ d None d) // (run_then _ _ d control_default d) // (run_then _ _ _ _ _ (run_read_rows inter d)) Hr.
  by rewrite (bool_decide_true _ Hm).
Qed.

Lemma nothing_reconciled now seal_now d :
  tidy d → refs (site_store d) !! control_key CONTROL_REF = None → rows_empty (the_rows inter d) → marks_of d = [] →
  reconciled control_default now seal_now d d no_report.
Proof.
  intros Ht Hh Hr Hm. split; [|done..]. destruct (keeps_tables inter Hinter order d control_default now control_default Horder Ht) as (y & Hy & Hk).
  - apply andb_True in Hr as [[Hr1%bool_decide_unpack Hr2%bool_decide_unpack]%andb_True Hr3%bool_decide_unpack].
    assert (order (pending_of d) = []) as Ho.
    { unfold pending_of. rewrite Hm. destruct (order _) as [|k l] eqn:Hl; [done|]. exfalso.
      destruct (Horder (pending_records [])) as [_ Hin]. assert (k ∈ order (pending_records [])) as Hk by (rewrite Hl; by left).
      apply Hin in Hk. set_solver. }
    unfold candidate_state. rewrite Hr1 Hr2 Hr3 Ho. apply keeps_default.
  - exists y, control_default. split_and!; [done|done|by rewrite /controls Hh|].
    assert (∀ id c, ¬ due_to_join control_default d d id c) as Hno by by intros id c [[? ?] _].
    split; [done..| |done]. split_and!; [by intros c id ?%Hno|by left|done].
Qed.

Lemma rows_of_same d d' rows : taints_of d' = taints_of d → site_reminders d' = site_reminders d → epochs_of d' = epochs_of d →
  tags_of d' = tags_of d → rows_of d rows → rows_of d' rows.
Proof.
  intros H1 H2 H3 H4 [R1 R2 R3 R4]. split; intros k; rewrite ?H1 ?H2 ?H3 ?H4 //.
  intros c. rewrite R4. unfold find_epoch. by fold (epochs_of d) (epochs_of d'); rewrite H3.
Qed.

(** Everything past the shortcuts. *)
Lemma settle_all fresh x d :
  tidy d → time_back (fresh_edit (fresh 0)) → controls (site_store d) x → keyed_state x → ¬ looks_settled d →
  (refs (site_store d) !! control_key CONTROL_REF = None → ¬ rows_empty (the_rows inter d) ∨ marks_of d ≠ []) →
  ∃ rep d', run (reconcile_control inter order fresh) d = (Ok rep, d') ∧ reconciled x (fresh_edit (fresh 0)) (fresh_seal (fresh 0)) d d' rep ∧
    looks_settled d' ∧ DEFAULT_NAMESPACE ∈ namespaces (site_store d').
Proof.
  intros Ht Hnow Hx Hk Hl Hsome. set (now := fresh_edit (fresh 0)) in *. pose proof (td_default _ Ht) as Hd.
  destruct (controls_tree _ _ Hx) as (head & base & Htree & Hbase). pose proof Htree as [Hh _].
  destruct (merge_rows x d now base Ht Hnow Hbase) as (cand & st & merged & st' & z & R1 & R2 & O & Sz & K).
  destruct (objects_only_site d st' O) as (E1 & E2 & E3 & E4 & E5 & E6 & E7). set (d1 := with_site_store d st') in *.
  assert (DEFAULT_NAMESPACE ∈ namespaces (site_store d1)) as Hd1 by (unfold d1; simpl; by rewrite E7).
  assert (head_tree (site_store d1) head base) as Htree1.
  { destruct Htree as [T1 T2]. split; unfold d1; simpl; [by rewrite E5|by rewrite E6]. }
  destruct (take_rows_ok (fresh 0) head base merged d1 Hd1 Htree1) as (h & b & d2 & R3 & [(F1 & F2 & F3 & F4 & F5 & F6) Lr Lh] & Hh2).
  destruct (run_marks d Hd) as (Rm & Nm & Im).
  destruct (finish_ok (fresh 0) h z merged (the_rows inter d) {| report_committed := b; report_rebuilt := 0; report_skipped := [] |} (marks_of d) d2)
    as (rep & d' & R4 & C4 & G4 & L4 & N4 & M4 & D4).
  - by rewrite F6.
  - by rewrite F5.
  - eapply keyed_keeps; [exact Hk|exact (keyed_candidate x now d Ht)|exact K].
  - apply (rows_of_same d); [by rewrite F2 E1|by rewrite F1 E4|by rewrite F3 E2|by rewrite F4 E3|by apply rows_as_read].
  - exact Nm.
  - intros name u. rewrite Im. split; intros [H1 H2]; (split; [|done]); (rewrite Lr ?E5 // in H1 || rewrite Lr ?E5 //);
      intros [= ->]; by apply (proj2 (pending_not_indexed _ H2)).
  - done.
  - destruct Lh as (h' & c & H1 & H2 & H3). rewrite Hh2 in H1. injection H1 as <-. by exists c.
  - exists rep, d'. split_and!; [| |done|done].
    + apply run_first. unfold try_reconcile_control, control_head.
      rewrite (run_then _ _ _ _ _ (run_ref d CONTROL_REF Hd)) (run_then _ _ _ _ _ (run_ref d INDEXED_REF Hd)) (run_then _ _ _ _ _ Rm).
      assert (bool_decide (is_Some (refs (site_store d) !! control_key CONTROL_REF)) &&
        bool_decide (refs (site_store d) !! control_key CONTROL_REF = refs (site_store d) !! control_key INDEXED_REF) && bool_decide (marks_of d = []) = false) as ->.
      { apply not_true_iff_false. intros Hb%Is_true_true. apply Hl. apply andb_True in Hb as [[H1%bool_decide_unpack H2%bool_decide_unpack]%andb_True H3%bool_decide_unpack]. done. }
      rewrite Hh (run_then _ _ _ _ _ (run_base d head base Htree)).
      rewrite (run_then _ _ d x d); [|destruct base as [root|]; [by rewrite (run_on_objects _ _ _ _ Hbase) with_same_site|by subst]].
      rewrite (run_then _ _ _ _ _ (run_read_rows inter d)).
      assert (bool_decide (head = None) && rows_empty (the_rows inter d) && bool_decide (marks_of d = []) = false) as ->.
      { apply not_true_iff_false. intros Hb%Is_true_true. apply andb_True in Hb as [[H1%bool_decide_unpack H2]%andb_True H3%bool_decide_unpack].
        subst head. by destruct (Hsome H1). }
      by rewrite (run_then _ _ _ _ _ R1) (run_then _ _ _ _ _ R2) (run_then _ _ _ _ _ R3).
    + destruct (keeps_tables inter Hinter order d x now z Horder Ht K) as (y & Hy & Ky). split.
      * exists y, z. split_and!; [done..|].
        by apply (followed_same _ _ d2); [rewrite F2 E1|rewrite F3 E2|rewrite F4 E3|rewrite F1 E4|].
      * intros name Hc. rewrite N4 // Lr ?E5 //. intros [= ->]. by apply Hc.
      * intros k Hk1. rewrite M4 // Lr ?E5 //. by intros ->.
Qed.

Lemma settle_any fresh x d :
  tidy d → time_back (fresh_edit (fresh 0)) → controls (site_store d) x → keyed_state x → ¬ looks_settled d →
  ∃ rep d', run (reconcile_control inter order fresh) d = (Ok rep, d') ∧ reconciled x (fresh_edit (fresh 0)) (fresh_seal (fresh 0)) d d' rep ∧
    ∀ fresh', run (reconcile_control inter order fresh') d' = (Ok no_report, d').
Proof.
  intros Ht Hnow Hx Hk Hl.
  destruct (decide (refs (site_store d) !! control_key CONTROL_REF = None ∧ rows_empty (the_rows inter d) ∧ marks_of d = [])) as [(H1 & H2 & H3)|Hn].
  - exists no_report, d. split_and!; [by apply nothing_here; [apply Ht|..]| |intros; by apply nothing_here; [apply Ht|..]].
    unfold controls in Hx. rewrite H1 in Hx. subst x. by apply nothing_reconciled.
  - destruct (settle_all fresh x d) as (rep & d' & R & C & L & D); [done..| |].
    + intros H1. destruct (decide (rows_empty (the_rows inter d))); [right|by left]. intros H3. by apply Hn.
    + exists rep, d'. split_and!; [done..|]. intros fresh'. by apply settled_again.
Qed.
End reconcile.

(** C9: Reconciling a repository's tables with its control ref settles. Nobody
    else about, the rows being in order, the control ref readable and there
    being something to do, it returns, and the control ref then holds, by the
    rules of merging, what it held and every row of the tables (of reminders
    those it lacked or a pending mark names, and a deletion for each marked one
    that is gone). Each row is then fixed by the ref's record and the row that
    was there. A new taint or epoch says what its record says, with defaults for
    what a resolution or a seal leaves out. A taint that was there keeps what it says, takes the record's commit, and its resolution
    if it had none; one that the table lacked and that another of its path, name
    and kind keeps out is left out, with a note. An epoch that was open takes
    the record's seal with time, summary, hash and commits, and its archiving,
    and the record's namespace where it had none. A reminder is the ref's or is
    deleted. The stored commits the ref lists as members of an epoch that was
    open join it, and no others move. Rows of which the ref says nothing stay;
    no ref but the bookkeeping ones has changed; and reconciling again does
    nothing. *)
Theorem reconcile_settles `{CH : ContentHash, CS : CommitSerial, HA : !HashAcyclic, CF : !CollisionFree, RJ : ReminderJson, SD : ControlSerde}
    inter order fresh x d :
  (∀ m : Reminders, inter m ≡ₚ (map_to_list m).*2) →
  (∀ X : gset (Kind * string), NoDup (order X) ∧ ∀ k, k ∈ order X ↔ k ∈ X) →
  tidy d → time_back (fresh_edit (fresh 0)) → controls (site_store d) x → keyed_state x → ¬ looks_settled d →
  ∃ rep d', run (reconcile_control inter order fresh) d = (Ok rep, d') ∧ reconciled x (fresh_edit (fresh 0)) (fresh_seal (fresh 0)) d d' rep ∧
    ∀ fresh', run (reconcile_control inter order fresh') d' = (Ok no_report, d').
Proof. intros Hi Ho. by apply settle_any. Qed.

(** *** Witness *)

Section witnesses.
Import Plain Clerk.
Local Instance some_serial : CommitSerial := λ _, "commit".

Definition listed (m : Reminders) : list Reminder := (map_to_list m).*2.

(** A control ref at [state1], and tables with a taint, a reminder that the ref
    has deleted and that is marked, and an epoch of their own. *)
Definition control_tip : Commit :=
  build (builder_new roots.1.1 "ann" (simple_authority "ann" 0%Z) (new_intent "i" Migrate "start")) 0%Z.
Definition desk_refs : gmap (string * string) ObjectId :=
  {[ control_key CONTROL_REF := commit_id control_tip; control_key (pending_mark ReminderRecord "r1" "n") := mem1 ]}.
Definition desk : Site := {|
  site_world := {| w_store := set_epochs (set_taints (set_refs (put_commit shelf control_tip) desk_refs)
    [stain "t2" None "d"]) [era "e2" EpochActive None None []]; w_specs := ∅ |};
  site_reminders := {[ "r1" := chore "r1" RPending ]} |}.
Definition day (i : nat) : Fresh := {| fresh_edit := 7%Z; fresh_grant := 7%Z; fresh_commit := 7%Z; fresh_intent := "i";
  fresh_seal := λ _, 7%Z |}.

Lemma desk_tidy : tidy desk.
Proof.
  split.
  - apply checked_addressed. vm_compute. reflexivity.
  - vm_compute. set_solver.
  - by apply NoDup_singleton.
  - by apply NoDup_singleton.
  - intros k r. simpl. by intros [<- <-]%lookup_singleton_Some.
  - intros t ->%list_elem_of_singleton. eexists. split_and!; [reflexivity|by vm_compute|by vm_compute].
  - intros k r. simpl. intros [<- <-]%lookup_singleton_Some. eexists. split_and!; [reflexivity|by vm_compute|by vm_compute].
  - intros t ->%list_elem_of_singleton. split; [|constructor]. eexists. split_and!; [reflexivity|by vm_compute|by vm_compute].
  - intros c id H. vm_compute in H. by apply elem_of_nil in H.
Qed.

Lemma desk_state : state_at roots.1.1 = settled_state state1.
Proof. vm_compute. reflexivity. Qed.

Lemma shelf_state : holds_state (objects shelf) roots.1.1 (settled_state state1).
Proof.
  pose proof (reads_read roots.1.1 ltac:(vm_compute; reflexivity)) as H. apply read_spec in H as [_ H]. by rewrite desk_state in H.
Qed.

Lemma set_tables_objects s c r ts es : objects (set_epochs (set_taints (set_refs (put_commit s c) r) ts) es) = objects s.
Proof. done. Qed.

Lemma desk_controls : controls (site_store desk) (settled_state state1).
Proof.
  exists control_tip. split; [vm_compute; reflexivity|]. apply read_spec. split; [reflexivity|].
  cbn [site_store site_world w_store desk]. rewrite set_tables_objects. exact shelf_state.
Qed.

Lemma reconcile_settles_witness :
  ∃ rep d', run (reconcile_control listed elements day) desk = (Ok rep, d') ∧
    reconciled (settled_state state1) 7%Z (λ _, 7%Z) desk d' rep ∧
    ∀ fresh', run (reconcile_control listed elements fresh') d' = (Ok no_report, d').
Proof.
  apply (reconcile_settles listed elements day (settled_state state1) desk).
  - done.
  - intros X. split; [apply NoDup_elements|intros k; apply elem_of_elements].
  - exact desk_tidy.
  - by vm_compute.
  - exact desk_controls.
  - split; simpl; intros k.
    + by intros t [<- <-]%lookup_singleton_Some.
    + by intros r t [<- ?]%lookup_singleton_Some.
    + intros e (e' & <- & [<- <-]%lookup_singleton_Some)%lookup_fmap_Some. done.
  - intros (_ & Hi & _). vm_compute in Hi. done.
Defined.
End witnesses.

(** ** Two behaviours to know of *)

Section examples.
Import Plain Clerk.
Local Instance one_serial : CommitSerial := λ _, "commit".

(** A control ref with an unresolved taint and a resolved one of the same path,
    name and kind, and no rows. *)
Definition rivals_state : ControlState := {|
  cs_taints := {[ "t1" := stain "t1" None ""; "t2" := stain "t2" (Some 4%Z) "" ]};
  cs_reminders := ∅; cs_epochs := ∅; cs_members := ∅ |}.
Definition rivals_desk : Site :=
  match write rivals_state mem_new with
  | (Ok root, s) =>
      let c := build (builder_new root "ann" (simple_authority "ann" 0%Z) (new_intent "i" Migrate "start")) 0%Z in
      {| site_world := {| w_store := set_refs (put_commit s c) {[ control_key CONTROL_REF := commit_id c ]}; w_specs := ∅ |};
         site_reminders := ∅ |}
  | (Err _, s) => {| site_world := {| w_store := s; w_specs := ∅ |}; site_reminders := ∅ |}
  end.

(** The resolved one is brought in as unresolved first, so it is left out, and
    it stays out: reconciling again finds nothing to do. *)
Definition rivals_outcome : result ControlError ControlReport * list string * result ControlError ControlReport :=
  let '(r, d') := run (reconcile_control listed elements day) rivals_desk in
  (r, taint_id <$> taints_of d', (run (reconcile_control listed elements day) d').1).

Lemma resolved_taint_left_out : rivals_outcome =
  (Ok {| report_committed := false; report_rebuilt := 1;
         report_skipped := ["taint t2: storage backend error: duplicate active taint (/a, n, Taint)"] |}, ["t1"], Ok no_report).
Proof. vm_compute. reflexivity. Qed.

(** A taint whose intent commit fails, on a ref that is not there, is an error,
    and yet it is in the table from then on, without a mark for the next
    reconcile and without a commit. *)
Definition bare_call : Call := {| call_id := "t1"; call_now := 0%Z; call_nonce := "n"; intent_id' := "i"; intent_grant := 0%Z;
  intent_clock := λ _, 0%Z; intent_trace := None; control_intent := "j"; control_grant := 0%Z;
  control_clock := λ _, {| at_edit := 0%Z; at_commit := 0%Z |} |}.
Definition block : TaintParams := {| tp_name := "n"; tp_effect := Block; tp_reason := "stop"; tp_severity := SevHigh;
  tp_expires_at := None; tp_propagate := true; tp_metadata := ∅; tp_agent_id := "ann" |}.
Definition bare_site : Site := {| site_world := {| w_store := mem_new; w_specs := ∅ |}; site_reminders := ∅ |}.

Definition bare_repo : Repository := {| instance := "x"; repo_namespace := default_ns; active_session := None;
  active_session_namespace := None; epoch_seal_strict := true; branch_refs_only := false |}.

Lemma failed_taint_stays :
  let '(a, d') := run (taint bare_repo bare_call "nowhere" "/a" block) bare_site in
  a = Err (CRepo (BranchNotFound "nowhere")) ∧ (λ t, (taint_id t, taint_commit_id t)) <$> taints_of d' = [("t1", EmptyString)] ∧
  marks_of d' = [].
Proof. vm_compute. split_and!; reflexivity. Qed.
End examples.
