(* ===== verification/Exchange.v ===== *)
(** * Exchange: exporting and importing a store with its control tables

    Models [Repository::export_store] and [Repository::import_store] of
    [agentstategraph/src/sync/store.rs] whole: [Transfers] has the bundle's way
    in and out, [Tables] the reconciling of the control tables that an export
    starts with and an import ends with. An import that fails before its refs
    land changes no ref; what can fail after is only the reconciling. *)
From S2P Require Import Prelude Objects Paths Json Intents Sessions Commits Epochs Taints Stores Memory.
From S2P Require Import Diffs Merges Trees TreeJson Specs Guards Ancestry Integrity Programs Repos Rules Alone.
From S2P Require Import Heights Missing Packs Bundles Shallows Transfers Reminders Control Converge Tables Reconciles.

(** [TransferError] from the repository's error. *)
Definition control_fault (e : ControlError) : TE :=
  match e with CRepo e => Fail (TRepo e) | CPanic | CFuel => OutOfFuel end.

Section exchange.
Context `{CH : ContentHash, CS : CommitSerial, ZS : Zstd, SJ : Serde, TX : Text, RJ : ReminderJson, SD : ControlSerde}.
Context (inter : Reminders → list Reminder) (order : gset (Kind * string) → list (Kind * string)).
Context (shallow_order : gset ObjectId → list ObjectId).

Abbreviation XT := (Prog Site TE).

Definition on_world {A} (p : PT A) : XT A := zoom site_world with_world p.
Definition reconcile_first (fresh : nat → Fresh) : XT ControlReport :=
  map_error control_fault (reconcile_control inter order fresh).

Definition export_store (fresh : nat → Fresh) (fuel tree_fuel : nat) : XT (string * ExportReport) :=
  _ ← reconcile_first fresh;
  on_world (export_reconciled fuel tree_fuel shallow_order).

(** The report of an import is that of the bundle and that of the tables. *)
Definition import_store (fresh : nat → Fresh) (tree_fuel : nat) (input : string) (limits : BundleLimits) :
    XT (ImportReport * ControlReport) :=
  report ← on_world (import_unreconciled tree_fuel shallow_order input limits);
  control ← reconcile_first fresh;
  mret (report, control).
End exchange.

(** ** What reconciling leaves alone, however it ends *)

(** Nothing is lost of objects, commits and namespaces, and no ref moves but the
    control ref, its index and the marks, which only go. *)
Record spares (s s' : MemoryStorage) : Prop := {
  sp_refs k : k ≠ control_key CONTROL_REF → k ≠ control_key INDEXED_REF →
    refs s' !! k = refs s !! k ∨ refs s' !! k = None ∧ k.1 = DEFAULT_NAMESPACE ∧ starts_with PENDING_PREFIX k.2;
  sp_namespaces : namespaces s' = namespaces s;
  sp_objects : objects s ⊆ objects s';
  sp_commits i : is_Some (commits s !! i) → is_Some (commits s' !! i);
}.

#[export] Instance spares_preorder : PreOrder spares.
Proof.
  split.
  - intros s. split; [by left|done..].
  - intros s1 s2 s3 [R1 N1 O1 C1] [R2 N2 O2 C2]. split; [|by rewrite N2|by trans (objects s2)|by auto].
    intros k H1 H2. destruct (R2 k H1 H2) as [->|?]; [by apply R1|by right].
Qed.

Lemma spares_same s s' : refs s' = refs s → namespaces s' = namespaces s → objects s' = objects s → commits s' = commits s → spares s s'.
Proof. intros R N O C. split; [intros; left; by rewrite R|done|by rewrite O|by rewrite C]. Qed.

Lemma spares_added s s' : objects_added s s' → spares s s'.
Proof. intros [-> Ho]. by split; [left|..]. Qed.

(** A program that spares the store at each of its steps. *)
Definition sparing {E A} (p : Prog Site E A) : Prop := ∀ d, spares (site_store d) (site_store (run p d).2).

Lemma sparing_ret {E A} (r : result E A) : sparing (Ret r).
Proof. intros d. apply (reflexivity (R := spares)). Qed.
Lemma sparing_mret {E A} (a : A) : sparing (mret a : Prog Site E A).
Proof. apply sparing_ret. Qed.
Lemma sparing_fail {E A} (e : E) : sparing (fail e : Prog Site E A).
Proof. apply sparing_ret. Qed.

(** What follows may count on what came first having happened. *)
Lemma sparing_then {E A B} (p : Prog Site E A) (k : A → Prog Site E B) :
  sparing p → (∀ a, (∃ d d', run p d = (Ok a, d')) → sparing (k a)) → sparing (p ≫= k).
Proof.
  intros Hp Hk d. specialize (Hp d). rewrite run_bind. unfold mbind, stateful_bind.
  destruct (run p d) as [[a|e] d'] eqn:Hrun; [|done]. simpl in Hp. etransitivity; [exact Hp|]. apply Hk. by exists d, d'.
Qed.
Lemma sparing_bind {E A B} (p : Prog Site E A) (k : A → Prog Site E B) : sparing p → (∀ a, sparing (k a)) → sparing (p ≫= k).
Proof. intros Hp Hk. apply sparing_then; [done|auto]. Qed.

Lemma sparing_map_error {E F A} (f : E → F) (p : Prog Site E A) : sparing p → sparing (map_error f p).
Proof. intros Hp d. by rewrite run_map_error. Qed.
Lemma sparing_caught {E F A} (p : Prog Site E A) : sparing p → sparing (caught p : Prog Site F (result E A)).
Proof. intros Hp d. by rewrite run_caught. Qed.

Lemma sparing_call {A} (m : stateful MemoryStorage StorageError A) : (∀ s, spares s (m s).2) → sparing (call m).
Proof. intros Hm d. rewrite run_call. apply Hm. Qed.
Lemma sparing_on_store {A} (m : stateful MemoryStorage StorageError A) : (∀ s, spares s (m s).2) → sparing (on_store m).
Proof. intros Hm. by apply sparing_map_error, sparing_call. Qed.
Lemma sparing_read {A} (f : MemoryStorage → result StorageError A) : sparing (call (reading f)).
Proof. apply sparing_call. intros s. apply (reflexivity (R := spares)). Qed.
Lemma sparing_on_read {A} (f : MemoryStorage → result StorageError A) : sparing (on_store (reading f)).
Proof. apply sparing_map_error, sparing_read. Qed.
Lemma sparing_look {A} (f : MemoryStorage → A) : sparing (look f).
Proof. apply sparing_on_read. Qed.
Lemma sparing_remind {A} (m : stateful Reminders ReminderError A) : sparing (remind m).
Proof. intros d. simpl. destruct (m (site_reminders d)). apply (reflexivity (R := spares)). Qed.
Lemma sparing_on_objects {A} (m : CM A) : only_objects m → sparing (on_objects m).
Proof. intros Hm d. specialize (Hm (site_store d)). simpl. destruct (m (site_store d)). by apply spares_added. Qed.
Lemma sparing_ignoring {F A} (p : T A) : sparing p → sparing (ignoring p : Prog Site F ()).
Proof. intros Hp. apply sparing_bind; [by apply sparing_caught|intros; apply sparing_mret]. Qed.

Lemma sparing_each {E A} (f : A → Prog Site E ()) l : (∀ x, x ∈ l → sparing (f x)) → sparing (each f l).
Proof.
  induction l as [|x l IH]; intros Hf; cbn [each]; [apply sparing_mret|].
  apply sparing_bind; [apply Hf; by left|]. intros _. apply IH. intros y ?. apply Hf. by right.
Qed.
Lemma sparing_attempts {E A} (n first : nat) (gave_up : E) (body : nat → Prog Site E (option A)) :
  (∀ i, sparing (body i)) → sparing (attempts n first gave_up body).
Proof.
  intros Hb. revert first. induction n as [|n IH]; intros first; cbn [attempts]; [apply sparing_fail|].
  apply sparing_bind; [apply Hb|]. intros [a|]; [apply sparing_ret|apply IH].
Qed.
Lemma sparing_rebuild_each {A} (f : A → T (ControlReport → ControlReport)) l rep : (∀ x, sparing (f x)) → sparing (rebuild_each f l rep).
Proof.
  intros Hf. revert rep. induction l as [|x l IH]; intros rep; cbn [rebuild_each]; [apply sparing_mret|].
  apply sparing_bind; [apply Hf|]. intros note. apply IH.
Qed.

Create HintDb spares.
#[export] Hint Resolve sparing_ret sparing_mret sparing_fail sparing_map_error sparing_caught sparing_read sparing_on_read
  sparing_look sparing_remind sparing_ignoring : spares.
Ltac sparing := repeat first
  [ progress intros | done | solve [auto with spares] | apply sparing_bind | apply sparing_map_error | apply sparing_caught | case_match ].

(** *** The calls *)

(** Calls that touch tables only. *)
Lemma spares_create_taint t s : spares s (create_taint t s).2.
Proof. unfold create_taint. case_match; by apply spares_same. Qed.
Lemma spares_set_taint_commit_id id c s : spares s (set_taint_commit_id id c s).2.
Proof. unfold set_taint_commit_id. case_match; by apply spares_same. Qed.
Lemma spares_resolve_taint id a r p t s : spares s (resolve_taint id a r p t s).2.
Proof. unfold resolve_taint. repeat case_match; by apply spares_same. Qed.
Lemma spares_create_epoch e s : spares s (create_epoch e s).2.
Proof. unfold create_epoch. case_match; by apply spares_same. Qed.
Lemma spares_update_epoch {A} id (f : Epoch → result StorageError (A * Epoch)) s : spares s (update_epoch id f s).2.
Proof. unfold update_epoch. repeat case_match; by apply spares_same. Qed.
Lemma spares_set_commit_epoch c id s : spares s (set_commit_epoch c id s).2.
Proof. unfold set_commit_epoch. repeat case_match; by apply spares_same. Qed.

(** Calls that change one ref. *)
Lemma spares_set_refs s r : (∀ k, k ≠ control_key CONTROL_REF → k ≠ control_key INDEXED_REF →
    r !! k = refs s !! k ∨ r !! k = None ∧ k.1 = DEFAULT_NAMESPACE ∧ starts_with PENDING_PREFIX k.2) → spares s (set_refs s r).
Proof. by intros Hr; split. Qed.

Lemma spares_write s name i : name = CONTROL_REF ∨ name = INDEXED_REF → spares s (set_refs s (<[control_key name := i]> (refs s))).
Proof. intros Hn. apply spares_set_refs. intros k H1 H2. left. apply lookup_insert_ne. by destruct Hn; subst. Qed.

Lemma spares_set_indexed h s : spares s (set_ref default_ns INDEXED_REF h s).2.
Proof.
  unfold set_ref, mbind, stateful_bind, reading, action. destruct (require_namespace s default_ns); simpl; [|apply (reflexivity (R := spares))].
  apply spares_write. by right.
Qed.
Lemma spares_cas_control a b s : spares s (cas_ref default_ns CONTROL_REF a b s).2.
Proof.
  unfold cas_ref, mbind, stateful_bind, reading, action. destruct (require_namespace s default_ns); simpl; [|apply (reflexivity (R := spares))].
  repeat case_match; simpl; try apply (reflexivity (R := spares)). apply spares_write. by left.
Qed.
Lemma spares_create_control b s : spares s (create_ref default_ns CONTROL_REF b s).2.
Proof.
  unfold create_ref, mbind, stateful_bind, reading, action. destruct (require_namespace s default_ns); simpl; [|apply (reflexivity (R := spares))].
  repeat case_match; simpl; try apply (reflexivity (R := spares)). apply spares_write. by left.
Qed.
Lemma spares_unmark name i s : starts_with PENDING_PREFIX name → spares s (cas_delete_ref default_ns name i s).2.
Proof.
  intros Hn. unfold cas_delete_ref, mbind, stateful_bind, reading, action.
  destruct (require_namespace s default_ns); simpl; [|apply (reflexivity (R := spares))].
  case_decide; simpl; [|apply (reflexivity (R := spares))]. apply spares_set_refs. intros k _ _.
  destruct (decide (k = control_key name)) as [->|Hk]; [right; by rewrite lookup_delete_eq|left; by rewrite lookup_delete_ne].
Qed.
Lemma spares_put_commit c s : spares s (put_commit s c).
Proof.
  split; [by left|done|done|]. intros i Hi. unfold put_commit. simpl.
  destruct (decide (commit_id c = i)) as [<-|]; [by rewrite lookup_insert_eq|by rewrite lookup_insert_ne].
Qed.
#[export] Hint Resolve spares_create_taint spares_set_taint_commit_id spares_resolve_taint spares_create_epoch spares_update_epoch
  spares_set_commit_epoch spares_set_indexed spares_cas_control spares_create_control sparing_call sparing_on_store
  sparing_on_objects : spares.

Section reconciling.
Context `{CH : ContentHash, CS : CommitSerial, RJ : ReminderJson, SD : ControlSerde}.

(** *** The rows *)

Lemma sparing_rebuild_taint table t : sparing (rebuild_taint table t).
Proof. unfold rebuild_taint, rebuild_taint_row. sparing. Qed.

Lemma sparing_rebuild_reminder table e : sparing (rebuild_reminder table e).
Proof. unfold rebuild_reminder, rebuild_reminder_row. sparing. Qed.

Lemma sparing_join_members epoch had l : sparing (join_members epoch had l).
Proof. induction l as [|c l IH]; cbn [join_members]; sparing. Qed.

Lemma sparing_rebuild_epoch seal_now table members e : sparing (rebuild_epoch seal_now table members e).
Proof. pose proof sparing_join_members. unfold rebuild_epoch, rebuild_epoch_row, mem_seal_epoch, mem_archive_epoch, assign_epoch_namespace. sparing. Qed.

Lemma sparing_rebuild_tables t z rows rep : sparing (rebuild_tables t z rows rep).
Proof.
  apply sparing_bind; [apply sparing_rebuild_each; intros; apply sparing_rebuild_taint|]. intros rep1.
  apply sparing_bind; [apply sparing_rebuild_each; intros; apply sparing_rebuild_reminder|]. intros rep2.
  apply sparing_rebuild_each. intros. apply sparing_rebuild_epoch.
Qed.

(** *** The ref and the marks *)

Lemma sparing_take_rows t head base merged : sparing (take_rows t head base merged).
Proof.
  unfold take_rows, land_control, put_commit_here, move_control.
  assert (∀ c, sparing (on_store (λ s, (Ok (), put_commit s c)))) by (intros; apply sparing_on_store; intros; apply spares_put_commit).
  sparing.
Qed.

Lemma sparing_mark_settled head l : (∀ p, p ∈ l → starts_with PENDING_PREFIX p.1) → sparing (mark_settled head l).
Proof.
  intros Hl. apply sparing_bind; [destruct head; auto with spares|]. intros _. apply sparing_each. intros p Hp.
  apply sparing_ignoring, sparing_on_store. intros s. apply spares_unmark. by apply Hl.
Qed.

Lemma sparing_read_rows inter : sparing (read_rows inter).
Proof.
  assert (∀ l, sparing (epochs_with_members l)) as He by (induction l; cbn [epochs_with_members]; sparing).
  unfold read_rows. sparing.
Qed.

Lemma listed_marks d d' l :
  run (on_store (reading (λ s, list_refs s default_ns PENDING_PREFIX))) d = (Ok l, d') → ∀ p, p ∈ l → starts_with PENDING_PREFIX p.1.
Proof.
  unfold on_store. rewrite run_map_error run_call /reading /=. unfold list_refs. destruct (require_namespace _ _); [|done].
  intros [= <- _] p [_ Hp]%elem_of_List_filter. exact Hp.
Qed.

Lemma only_objects_read root : only_objects (read root).
Proof.
  assert (∀ {A} (f : ObjectId → CM A) l, (∀ i, only_objects (f i)) → only_objects (read_records f l)) as Hl.
  { intros A f l Hf. induction l as [|[id t] l IH]; cbn [read_records]; [apply only_objects_ret|].
    apply only_objects_bind; [apply Hf|]. intros. apply only_objects_bind; [exact IH|intros; apply only_objects_ret]. }
  unfold read, sections_from_store, from_store.
  repeat first [ apply only_objects_reading | apply only_objects_ret | apply Hl; intros | apply only_objects_bind; [|intros] ].
Qed.

Section whole.
Context (inter : Reminders → list Reminder) (order : gset (Kind * string) → list (Kind * string)).

Lemma sparing_try t : sparing (try_reconcile_control inter order t).
Proof.
  pose proof only_objects_read. pose proof only_objects_candidate. pose proof only_objects_merge.
  pose proof sparing_read_rows. pose proof sparing_take_rows. pose proof sparing_rebuild_tables.
  unfold try_reconcile_control, control_head, control_base.
  apply sparing_bind; [sparing|intros head]. apply sparing_bind; [sparing|intros indexed].
  apply sparing_then; [sparing|]. intros pending (d & d' & Hp). pose proof (listed_marks _ _ _ Hp) as Hmarks.
  case_match; [apply sparing_mret|]. apply sparing_bind; [unfold throw_site; sparing|intros base].
  apply sparing_bind; [sparing|intros control]. apply sparing_bind; [sparing|intros rows].
  case_match; [apply sparing_mret|]. apply sparing_bind; [sparing|intros candidate].
  apply sparing_bind; [sparing|intros merged]. apply sparing_bind; [sparing|intros [[head' b]|]]; [|apply sparing_mret].
  apply sparing_bind; [sparing|intros state]. apply sparing_bind; [sparing|intros rep].
  apply sparing_bind; [by apply sparing_mark_settled|intros; apply sparing_mret].
Qed.

Lemma sparing_reconcile fresh : sparing (reconcile_control inter order fresh).
Proof. apply sparing_attempts. intros i. apply sparing_try. Qed.
End whole.
End reconciling.

(** ** What an import comes to *)

Section importing.
Context `{CH : ContentHash, CS : CommitSerial, ZS : Zstd, SJ : Serde, TX : Text, RJ : ReminderJson, SD : ControlSerde}.
Context (inter : Reminders → list Reminder) (order : gset (Kind * string) → list (Kind * string)).
Context (shallow_order : gset ObjectId → list ObjectId).

(** The outside code as documented: hashes that neither collide nor cycle, every
    listing complete, and a clock whose times print and parse back. *)
Record lawful (fresh : nat → Fresh) : Prop := {
  lw_acyclic : HashAcyclic;
  lw_collisions : CollisionFree;
  lw_reminders m : inter m ≡ₚ (map_to_list m).*2;
  lw_marks X : NoDup (order X) ∧ ∀ k, k ∈ order X ↔ k ∈ X;
  lw_clock : time_back (fresh_edit (fresh 0));
}.

(** The control ref is at a control tree, or there is none. *)
Definition control_readable (s : MemoryStorage) : Prop := ∃ x, controls s x ∧ keyed_state x.

(** The bundle's refs landed, at the store [w1], and then the tables were
    reconciled with the control ref they brought, with the answer [r]. *)
Definition import_landed (fresh : nat → Fresh) (d d' : Site) (b : Bundle) (r : result ControlError ControlReport) : Prop :=
  ∃ w1, imported (site_world d) w1 b ∧ spares (w_store w1) (site_store d') ∧
    run (reconcile_control inter order fresh) (with_world d w1) = (r, d') ∧
    (lawful fresh → tidy d → Forall finite (b_objects b) → control_readable (w_store w1) → ∃ rep, r = Ok rep).

Lemma run_on_world {A} (p : PT A) d : run (on_world p) d = ((run p (site_world d)).1, with_world d (run p (site_world d)).2).
Proof. unfold on_world. rewrite run_zoom //. by destruct d. Qed.

Lemma put_objects_addressed os m : addressed m → Forall finite os → addressed (foldl put_object_in m os).
Proof.
  revert m. induction os as [|o os IH]; intros m Hm Hos; [done|]. apply Forall_cons in Hos as [Ho Hos]. simpl. apply IH; [|done].
  unfold put_object_in. destruct (m !! oid_of o) as [o'|] eqn:Hl; [done|].
  intros i o0 [[<- <-]|[_ Hi]]%lookup_insert_Some; [done|by apply Hm].
Qed.

(** The tables are as tidy as they were. *)
Lemma imported_tidy d w b : tidy d → Forall finite (b_objects b) → imported (site_world d) w b → tidy (with_world d w).
Proof.
  intros [T1 T2 T3 T4 T5 T6 T7 T8 T9] Hb Hi. pose proof (im_tables _ _ _ Hi) as (E1 & E2 & E3 & _).
  unfold taints_of, epochs_of, tags_of, site_store in *.
  split; unfold taints_of, epochs_of, tags_of, site_store; simpl; rewrite ?E1 ?E2 ?E3; try done.
  - rewrite (im_stored _ _ _ Hi). by apply put_objects_addressed.
  - by apply (im_content _ _ _ Hi).
Qed.

(** On a tidy site with a readable control ref, reconciling returns. *)
Lemma reconcile_returns fresh d :
  lawful fresh → tidy d → control_readable (site_store d) → ∃ rep, (run (reconcile_control inter order fresh) d).1 = Ok rep.
Proof.
  intros [Ha Hc Hi Ho Ht] Hd (x & Hx & Hk). destruct (decide (looks_settled d)) as [Hl|Hl].
  - exists no_report. by rewrite (settled_again inter order fresh d (td_default _ Hd) Hl).
  - destruct (settle_any inter order Hi Ho fresh x d Hd Ht Hx Hk Hl) as (rep & d' & Hrun & _). exists rep. by rewrite Hrun.
Qed.

Lemma run_import_store fresh fuel input limits d :
  run (import_store inter order shallow_order fresh fuel input limits) d =
  match run (import_unreconciled fuel shallow_order input limits) (site_world d) with
  | (Ok report, w) =>
      match run (reconcile_control inter order fresh) (with_world d w) with
      | (Ok control, d') => (Ok (report, control), d')
      | (Err e, d') => (Err (control_fault e), d')
      end
  | (Err e, w) => (Err e, with_world d w)
  end.
Proof.
  unfold import_store. rewrite run_bind. unfold mbind at 1, stateful_bind at 1. rewrite run_on_world.
  destruct (run (import_unreconciled fuel shallow_order input limits) (site_world d)) as [[rep|e] w1]; [|done].
  unfold reconcile_first. cbn [fst snd]. rewrite run_bind. unfold mbind, stateful_bind. rewrite run_map_error.
  by destruct (run (reconcile_control inter order fresh) (with_world d w1)) as [[control|e] d'].
Qed.

(** ** Property *)

(** C5: What importing a store comes to, run alone, whatever the bytes. Either it
    fails with an error before a ref moves: then not one ref, namespace or row
    of a table has changed, and no object or commit that was here is gone. Or
    the bytes are a bundle the reader verifies, and its refs have landed: every
    ref it carries points at a commit that is here with its whole tree, every
    commit it carries that is not marked shallow has its parents here, and no
    other ref, but shallow marks, moved. Then the tables are reconciled with
    the control ref: that loses no object, commit or namespace and moves no ref
    but the control ref, its index and the marks of pending writes, and its
    answer is the import's, report or error. It is a report when the tables
    were in order and the control ref, as it landed, is at a control tree. *)
Theorem import_spec fresh fuel input limits d :
  DEFAULT_NAMESPACE ∈ namespaces (site_store d) →
  (∀ b, from_bytes input limits = Ok b →
    tree_fuel (foldl put_object_in (objects (site_store d)) (b_objects b)) ≤ fuel) →
  match run (import_store inter order shallow_order fresh fuel input limits) d with
  | (Ok (rep, control), d') => ∃ b n, from_bytes input limits = Ok b ∧ accepted limits b ∧
      import_landed fresh d d' b (Ok control) ∧ rep = imported_report b n
  | (Err e, d') =>
      ((∃ e', e = Fail e') ∧ import_failed (site_world d) (site_world d') ∧ site_reminders d' = site_reminders d) ∨
      ∃ b e', from_bytes input limits = Ok b ∧ accepted limits b ∧ import_landed fresh d d' b (Err e') ∧ e = control_fault e'
  end.
Proof.
  intros Hd Hf. pose proof (import_unreconciled_spec fuel shallow_order input limits (site_world d) Hd Hf) as Hspec.
  rewrite run_import_store.
  destruct (run (import_unreconciled fuel shallow_order input limits) (site_world d)) as [[rep|e] w1].
  2: { left. destruct Hspec. by split_and!. }
  destruct Hspec as (b & n & Hb & Ha & Hi & ->).
  pose proof (sparing_reconcile inter order fresh (with_world d w1)) as Hs.
  pose proof (λ Hl Ht Hfin, reconcile_returns fresh (with_world d w1) Hl (imported_tidy d w1 b Ht Hfin Hi)) as Hret.
  destruct (run (reconcile_control inter order fresh) (with_world d w1)) as [r d'] eqn:Hrun.
  assert (import_landed fresh d d' b r) as Hland by by exists w1; split_and!.
  destruct r as [control|e]; [by exists b, n|right; by exists b, e].
Qed.

(** ** Exporting *)

Lemma run_reads_bind {A B} (p : PT A) (k : A → PT B) w : (run p w).2 = w → (∀ a, (run (k a) w).2 = w) → (run (p ≫= k) w).2 = w.
Proof. intros Hp Hk. rewrite run_bind. unfold mbind, stateful_bind. destruct (run p w) as [[a|e] w']; simpl in *; by subst. Qed.

Lemma run_listing {A} (f : MemoryStorage → result StorageError A) w : (run (in_repo (storage (reading f))) w).2 = w.
Proof. unfold in_repo. rewrite run_map_error. by destruct w. Qed.

Lemma export_reconciled_reads fuel tree_fuel w : (run (export_reconciled fuel tree_fuel shallow_order) w).2 = w.
Proof.
  assert (∀ l, (run (collect_refs l) w).2 = w) as Hc.
  { induction l as [|ns l IH]; cbn [collect_refs]; [done|]. apply run_reads_bind; [apply run_listing|]. intros. by apply run_reads_bind. }
  apply run_reads_bind.
  - apply run_reads_bind; [apply run_listing|]. intros nss. apply run_reads_bind; [apply Hc|]. intros refs. by apply run_reads_bind.
  - intros [refs set]. by apply run_reads_bind.
Qed.

(** An export is of the store as reconciling left it, or fails as that failed;
    and it changes nothing besides. *)
Lemma run_export_store fresh fuel tree_fuel d :
  run (export_store inter order shallow_order fresh fuel tree_fuel) d =
  match run (reconcile_control inter order fresh) d with
  | (Ok _, d') => ((run (export_reconciled fuel tree_fuel shallow_order) (site_world d')).1, d')
  | (Err e, d') => (Err (control_fault e), d')
  end.
Proof.
  unfold export_store. rewrite run_bind. unfold mbind, stateful_bind, reconcile_first. rewrite run_map_error.
  destruct (run (reconcile_control inter order fresh) d) as [[rep|e] d']; [|done]. simpl. rewrite run_on_world export_reconciled_reads.
  by destruct d'.
Qed.
End importing.

(** *** Witness *)

Section witnesses.
Import Toy Clerk.

Definition blank : Site := {| site_world := {| w_store := mem_new; w_specs := ∅ |}; site_reminders := ∅ |}.
Definition listing (m : Reminders) : list Reminder := (map_to_list m).*2.
Definition noon (i : nat) : Fresh := {| fresh_edit := 7%Z; fresh_grant := 7%Z; fresh_commit := 7%Z; fresh_intent := "i";
  fresh_seal := λ _, 7%Z |}.

Definition bring (input : string) := run (import_store listing elements elements noon 10 input default_limits) blank.

Lemma import_spec_witness : ∃ n d', bring small_bytes = (Ok (imported_report small n, no_report), d') ∧
  import_landed listing elements noon blank d' small (Ok no_report).
Proof.
  assert (from_bytes small_bytes default_limits = Ok small) as Hb by by vm_compute.
  pose proof (import_spec listing elements elements noon 10 small_bytes default_limits blank) as H.
  fold (bring small_bytes) in H. assert (match (bring small_bytes).1 with Ok x => x.2 = no_report | Err _ => False end) as Hok by by vm_compute.
  destruct (bring small_bytes) as [[[rep control]|e] d']; [|done]. cbn [fst snd] in Hok. subst control.
  destruct H as (b & n & Hb' & _ & Hi & ->); [by vm_compute| |].
  - intros b Hb'. rewrite Hb in Hb'. injection Hb' as <-. vm_compute. lia.
  - rewrite Hb in Hb'. injection Hb' as <-. exists n, d'. split; [reflexivity|exact Hi].
Defined.

(** ** A failed import that leaves something reachable *)

(** A bundle whose control ref is at a commit of a note, not of a control tree. *)
Definition at_first (name : string) : BundleRef :=
  {| br_namespace := default_ns; br_name := name; br_target := commit_id first_commit |}.
Definition odd : Bundle := {| b_refs := [at_first "main"; at_first CONTROL_REF]; b_shallow := [commit_id first_commit];
  b_commits := [first_commit]; b_objects := [note] |}.
Definition odd_bytes : string := match to_bytes odd with Ok bytes => bytes | Err _ => EmptyString end.

(** The import fails, and both refs are there. *)
Lemma failed_import_lands :
  let '(r, d') := bring odd_bytes in
  (match r with Err (Fail (TRepo (InvalidOp _))) => true | _ => false end) = true ∧
  refs (site_store d') !! control_key "main" = Some (commit_id first_commit) ∧
  refs (site_store d') !! control_key CONTROL_REF = Some (commit_id first_commit).
Proof. vm_compute. split_and!; reflexivity. Qed.
End witnesses.
