(* ===== verification/Watches.v ===== *)
(** * Watches: subscriptions to changes

    Models [agentstategraph/src/watch.rs]: patterns, subscribers with the
    events they have pending, and the manager that queues an event for each
    change a pattern matches. No other part of the program notifies the
    manager; hosts reach it through [Repository::watches]. The counter of
    subscriptions is the process's in the code and the manager's here; ids are
    unique either way. *)
From S2P Require Import Prelude Objects Paths Json Intents Commits.

Definition SubscriptionId : Type := N.

Inductive PathPattern : Type :=
  | Exact (p : string)
  | Prefix (p : string)
  | AllPaths.

Definition pattern_matches (p : PathPattern) (path : string) : bool :=
  match p with
  | Exact p => bool_decide (path = p)
  | Prefix p => starts_with p path
  | AllPaths => true
  end.

Record WatchEvent := {
  ev_commit : ObjectId; ev_path : string; ev_agent : string; ev_description : string; ev_category : string; ev_timestamp : string;
}.

Record Watcher := { pattern : PathPattern; events : list WatchEvent }.

(** The subscribers, and the next subscription's number, which counts in 64
    bits. *)
Record WatchManager := { next_sub : N; watchers : gmap SubscriptionId Watcher }.

Definition watches_new : WatchManager := {| next_sub := 1; watchers := ∅ |}.

Definition subscribe (p : PathPattern) (m : WatchManager) : SubscriptionId * WatchManager :=
  (next_sub m, {| next_sub := ((next_sub m + 1) mod 2 ^ 64)%N;
                  watchers := <[next_sub m := {| pattern := p; events := [] |}]> (watchers m) |}).

Definition unsubscribe (id : SubscriptionId) (m : WatchManager) : bool * WatchManager :=
  (bool_decide (is_Some (watchers m !! id)), {| next_sub := next_sub m; watchers := delete id (watchers m) |}).

Definition drain_events (id : SubscriptionId) (m : WatchManager) : list WatchEvent * WatchManager :=
  match watchers m !! id with
  | Some w => (events w, {| next_sub := next_sub m; watchers := <[id := {| pattern := pattern w; events := [] |}]> (watchers m) |})
  | None => ([], m)
  end.

Definition pending_count (id : SubscriptionId) (m : WatchManager) : nat :=
  match watchers m !! id with Some w => length (events w) | None => 0 end.

Section notify.
Context `{TX : Text}.

(** A change that landed. *)
Record Change := { ch_commit : ObjectId; ch_paths : list string; ch_agent : string; ch_intent : Intent }.

Definition event_of (c : Change) (stamp path : string) : WatchEvent := {|
  ev_commit := ch_commit c; ev_path := path; ev_agent := ch_agent c; ev_description := description (ch_intent c);
  ev_category := debug_category (category (ch_intent c)); ev_timestamp := stamp |}.

(** The events a change is for a pattern; [stamp] is the time now, at each path. *)
Definition events_for (c : Change) (stamp : nat → string) (p : PathPattern) : list WatchEvent :=
  omap (λ ip, if pattern_matches p ip.2 then Some (event_of c (stamp ip.1) ip.2) else None) (imap pair (ch_paths c)).

Definition notify (c : Change) (stamp : SubscriptionId → nat → string) (m : WatchManager) : WatchManager := {|
  next_sub := next_sub m;
  watchers := map_imap (λ id w, Some {| pattern := pattern w; events := events w ++ events_for c (stamp id) (pattern w) |}) (watchers m) |}.

(** ** Runs *)

Inductive WatchCall : Type :=
  | Subscribe (p : PathPattern)
  | Unsubscribe (id : SubscriptionId)
  | Notify (c : Change) (stamp : SubscriptionId → nat → string)
  | Drain (id : SubscriptionId).

(** What a call hands to the subscription [id], and the manager after it. *)
Definition watch_call (id : SubscriptionId) (k : WatchCall) (m : WatchManager) : list WatchEvent * WatchManager :=
  match k with
  | Subscribe p => ([], (subscribe p m).2)
  | Unsubscribe i => ([], (unsubscribe i m).2)
  | Notify c stamp => ([], notify c stamp m)
  | Drain i => let '(l, m') := drain_events i m in (if decide (i = id) then l else [], m')
  end.

Fixpoint watch_run (id : SubscriptionId) (l : list WatchCall) (m : WatchManager) : list WatchEvent * WatchManager :=
  match l with
  | [] => ([], m)
  | k :: l' => let '(a, m') := watch_call id k m in let '(b, m'') := watch_run id l' m' in (a ++ b, m'')
  end.

Definition pending (id : SubscriptionId) (m : WatchManager) : list WatchEvent :=
  match watchers m !! id with Some w => events w | None => [] end.

(** All that the pattern of [id] matches. *)
Definition matched (id : SubscriptionId) (p : PathPattern) (k : WatchCall) : list WatchEvent :=
  match k with Notify c stamp => events_for c (stamp id) p | _ => [] end.

Lemma watch_call_ok id p k m w :
  watchers m !! id = Some w → pattern w = p → (id < next_sub m)%N → (next_sub m + 1 < 2 ^ 64)%N → k ≠ Unsubscribe id →
  let '(a, m') := watch_call id k m in
  a ++ pending id m' = pending id m ++ matched id p k ∧ (next_sub m ≤ next_sub m' ≤ next_sub m + 1)%N ∧
  ∃ w', watchers m' !! id = Some w' ∧ pattern w' = p.
Proof.
  intros Hw Hp Hid Hb Hk. unfold pending, matched. rewrite Hw. destruct k as [q|i|c stamp|i]; simpl.
  - rewrite lookup_insert_ne; [|lia]. rewrite Hw app_nil_r N.mod_small; [|lia]. split_and!; [done|lia|lia|by exists w].
  - rewrite lookup_delete_ne; [|congruence]. rewrite Hw app_nil_r. split_and!; [done|lia|lia|by exists w].
  - rewrite map_lookup_imap Hw /= Hp. split_and!; [done|lia|lia|by eexists].
  - unfold drain_events. destruct (watchers m !! i) as [wi|] eqn:Hi; simpl.
    + case_decide as Hd.
      * subst i. rewrite Hw in Hi. injection Hi as <-. rewrite lookup_insert_eq /= !app_nil_r. split_and!; [done|lia|lia|by eexists].
      * rewrite lookup_insert_ne // Hw app_nil_r. split_and!; [done|lia|lia|by exists w].
    + rewrite Hw app_nil_r. split_and!; [by case_decide|lia|lia|by exists w].
Qed.

(** A subscriber that stays misses nothing, gets nothing twice and in order:
    what it drained, with what it still has pending, is what it had pending and
    then every event of the changes since that its pattern matches. *)
Theorem watch_delivers_once id p l m w :
  watchers m !! id = Some w → pattern w = p → (id < next_sub m)%N → (next_sub m + N.of_nat (length l) < 2 ^ 64)%N →
  Unsubscribe id ∉ l →
  let '(got, m') := watch_run id l m in got ++ pending id m' = pending id m ++ (l ≫= matched id p).
Proof.
  revert m w. induction l as [|k l IH]; intros m w Hw Hp Hid Hb Hl; simpl; [by rewrite app_nil_r|].
  apply not_elem_of_cons in Hl as [Hk Hl]. simpl in Hb.
  pose proof (watch_call_ok id p k m w Hw Hp Hid ltac:(lia) ltac:(congruence)) as H1.
  destruct (watch_call id k m) as [a m1]. destruct H1 as (H1 & H2 & w' & Hw' & Hp').
  specialize (IH m1 w' Hw' Hp' ltac:(lia) ltac:(lia) Hl). destruct (watch_run id l m1) as [b m2].
  by rewrite -app_assoc IH app_assoc H1 -app_assoc.
Qed.
End notify.

(** *** Witness *)

Section witnesses.
Local Instance any_text : Text := {| to_lowercase := λ s, s; debug_str := λ s, s |}.

Definition a_change : Change := {| ch_commit := Oid "c"; ch_paths := ["/a/x"; "/b"; "/a/y"]; ch_agent := "ann";
  ch_intent := new_intent "i" Fix "fix" |}.
Definition a_run : list WatchCall := [Notify a_change (λ _ _, "now"); Subscribe AllPaths; Drain 1%N; Notify a_change (λ _ _, "later"); Drain 2%N].

Lemma watch_delivers_once_witness :
  let '(got, m') := watch_run 1%N a_run (subscribe (Prefix "/a/") watches_new).2 in
  got ++ pending 1%N m' = a_run ≫= matched 1%N (Prefix "/a/") ∧ length (got ++ pending 1%N m') = 4.
Proof.
  pose proof (watch_delivers_once 1%N (Prefix "/a/") a_run (subscribe (Prefix "/a/") watches_new).2 {| pattern := Prefix "/a/"; events := [] |}) as H.
  cbv zeta in H. destruct (watch_run 1%N a_run (subscribe (Prefix "/a/") watches_new).2) as [got m'] eqn:E.
  assert (got ++ pending 1%N m' = a_run ≫= matched 1%N (Prefix "/a/")) as Hg.
  { apply H; [reflexivity|reflexivity|reflexivity|reflexivity|]. unfold a_run. intros Hin. repeat (apply elem_of_cons in Hin as [Hin|Hin]; [discriminate Hin|]). by apply elem_of_nil in Hin. }
  split; [exact Hg|]. rewrite Hg. reflexivity.
Defined.
End witnesses.
