(* ===== verification/Tasks.v ===== *)
(** * Tasks: plans and their tasks

    Models the crate [agentstategraph-tasks]: records, ids and paths
    ([types.rs], [paths.rs]), the status table ([state.rs]), the store of plans
    and tasks over a repository ([store.rs]), the verification of proofs
    ([verifier.rs]) and the renumbering of tasks before a merge
    ([renumber.rs]), with the read at the merge base of
    [agentstategraph/src/repo.rs] that it uses. The derived encodings are the
    class [TaskSerde], and clocks and fresh identifiers are arguments. *)
From S2P Require Import Prelude Objects Paths Json Intents Sessions Commits Epochs Taints Stores Memory.
From S2P Require Import Diffs Merges Trees TreeJson Walks Specs Guards Ancestry Integrity Programs Repos Mergers.
From S2P Require Import Bundles Transfers Reminders Control Policies Floats Tables Admin.

(** ** Records *)

Abbreviation TaskId := string.

Inductive PlanStatus : Type := PlanActive | PlanCompleted | PlanArchived.
Inductive TaskStatus : Type := TaskPending | TaskInProgress | TaskDone | TaskAbandoned.
Inductive TaskPriority : Type := LowPriority | MediumPriority | HighPriority | CriticalPriority.
Inductive ProofKind : Type := ProofCommit | ProofFile | ProofTest | ProofText.
Inductive OnCompleteHook : Type := PromoteChange | NamedHook (name : string).

#[export] Instance PlanStatus_eq_dec : EqDecision PlanStatus.
Proof. solve_decision. Defined.
#[export] Instance TaskStatus_eq_dec : EqDecision TaskStatus.
Proof. solve_decision. Defined.

Record PlanRecord := {
  plan_name : string; plan_description : option string; plan_status : PlanStatus; plan_created_at : Time;
  plan_created_by : string; plan_archived_at : option Time; plan_summary : option string;
  plan_closed_at : option Time; plan_closed_by : option string;
}.

Record TaskProof := { proof_kind : ProofKind; proof_value : string; proof_note : option string }.

Record Task := {
  task_id : TaskId; task_title : string; task_notes : option string; task_status : TaskStatus;
  task_priority : TaskPriority; parent_id : option TaskId; blocked_by : list TaskId;
  task_created_at : Time; task_created_by : string; started_at : option Time; started_by : option string;
  task_completed_at : option Time; task_completed_by : option string; proof : option TaskProof;
  abandoned_at : option Time; abandoned_reason : option string; assigned_to : option string;
  payload : option Json; parent_change : option string; on_complete : option OnCompleteHook;
}.

Definition MAX_NOTES_BYTES : N := 16 * 1024.

Definition task_terminal (s : TaskStatus) : bool :=
  match s with TaskDone | TaskAbandoned => true | _ => false end.

Definition priority_rank (p : TaskPriority) : N :=
  match p with LowPriority => 0 | MediumPriority => 1 | HighPriority => 2 | CriticalPriority => 3 end.

(** [format!("t-{:03}", n)]. *)
Definition pad3 (s : string) : string :=
  match s with
  | String _ EmptyString => "00" +:+ s
  | String _ (String _ EmptyString) => "0" +:+ s
  | _ => s
  end.
Definition task_id_new (n : N) : TaskId := "t-" +:+ pad3 (pretty n).

(** [TaskId::number], without its error. *)
Definition task_number (id : TaskId) : option N := s ← strip_prefix "t-" id; parse_uint u32_max s.

(** Sums of [u32] wrap around. *)
Definition add32 (a b : N) : N := ((a + b) mod 2 ^ 32)%N.

Inductive TaskStoreError : Type :=
  | PlanNotFound (s : string)
  | SummaryRequired
  | CannotClose (plan reason : string)
  | PlanAlreadyExists (s : string)
  | TaskNotFound (plan : string) (id : TaskId)
  | TaskTransitionRefused (from to : TaskStatus)
  | TaskBlocked (blockers : list TaskId)
  | BlockerNotFound (blockers : list TaskId)
  | ProofRequired
  | ParentNotFound (id : TaskId)
  | ParentIsSubtask (id : TaskId)
  | ReasonRequired
  | TitleRequired
  | NotesTooLong (len max : N)
  | BlockerCycle (cycle : list TaskId)
  | InvalidTaskId (s : string)
  | InvalidBlockerId (s : string)
  | TaskWriteConflict
  | TaskRepo (s : string)
  | TaskSerdeError (s : string).

(** ** Paths *)

Definition META_KEY : string := "_meta".
Definition plan_root (prefix plan : string) : string := prefix +:+ "/" +:+ plan.
Definition plan_meta (prefix plan : string) : string := prefix +:+ "/" +:+ plan +:+ "/_meta".
Definition task_path (prefix plan : string) (id : TaskId) : string := prefix +:+ "/" +:+ plan +:+ "/" +:+ id.

(** ** The status table *)

Inductive Transition : Type := StartTask | CompleteTask | AbandonTask.

Definition transition_target (t : Transition) : TaskStatus :=
  match t with StartTask => TaskInProgress | CompleteTask => TaskDone | AbandonTask => TaskAbandoned end.

Definition check_transition (from : TaskStatus) (t : Transition) : result TaskStoreError () :=
  match from, t with
  | TaskPending, StartTask | TaskInProgress, CompleteTask | TaskPending, AbandonTask | TaskInProgress, AbandonTask => Ok ()
  | _, _ => Err (TaskTransitionRefused from (transition_target t))
  end.

(** ** Blockers *)

Definition blocker_satisfied (tasks : list Task) (id : TaskId) : bool :=
  existsb (λ t, bool_decide (task_id t = id) && bool_decide (task_status t = TaskDone)) tasks.

(** Who waits on whom; of two tasks of one id the last counts. *)
Definition blocker_edges (tasks : list Task) : gmap TaskId (list TaskId) :=
  foldl (λ m t, <[task_id t := blocked_by t]> m) ∅ tasks.

(** What the search has seen, and the route to where it is. *)
Definition Search : Type := gset TaskId * list TaskId.

Fixpoint reaches_any (reach : TaskId → Search → option (bool * Search)) (l : list TaskId) (s : Search) : option (bool * Search) :=
  match l with
  | [] => Some (false, s)
  | x :: l' => '(found, s) ← reach x s; if found : bool then Some (true, s) else reaches_any reach l' s
  end.

(** Depth first from [node]; [None] when fuel runs out. *)
Fixpoint reaches (fuel : nat) (edges : gmap TaskId (list TaskId)) (target node : TaskId) (s : Search) : option (bool * Search) :=
  match fuel with
  | 0 => None
  | S fuel' =>
      let '(visited, path) := s in
      let path := path ++ [node] in
      if decide (node = target) then Some (true, (visited, path)) else
      if decide (node ∈ visited) then Some (false, (visited, removelast path)) else
      '(found, (visited, path)) ← reaches_any (reaches fuel' edges target) (default [] (edges !! node)) ({[ node ]} ∪ visited, path);
      if found : bool then Some (true, (visited, path)) else Some (false, (visited, removelast path))
  end.

(** The cycle that the blockers of [id] would close. Below a node not yet seen
    there are only others, so the number of tasks is enough fuel. *)
Definition blocker_cycle (tasks : list Task) (id : TaskId) (blockers : list TaskId) : option (option (list TaskId)) :=
  let edges := blocker_edges tasks in
  '(found, (_, path)) ← reaches_any (reaches (S (size edges)) edges id) blockers (∅, [id]);
  Some (if found : bool then Some path else None).

(** ** Proofs *)

Inductive VerifyResult : Type :=
  | Verified (message : string)
  | Decayed (reason : string)
  | Unverifiable (reason : string).

Definition Verifier : Type := TaskProof → VerifyResult.
Definition noop_verifier : Verifier := λ _, Unverifiable "no verifier configured".

Record VerifyEntry := { ve_task_id : TaskId; ve_result : VerifyResult }.
Record VerifyReport := { report_plan : string; report_results : list VerifyEntry }.

Definition is_verified (r : VerifyEntry) : bool := match ve_result r with Verified _ => true | _ => false end.
Definition is_decayed (r : VerifyEntry) : bool := match ve_result r with Decayed _ => true | _ => false end.
Definition is_unverifiable (r : VerifyEntry) : bool := match ve_result r with Unverifiable _ => true | _ => false end.

Definition verified_count (r : VerifyReport) : nat := length (List.filter is_verified (report_results r)).
Definition decayed_count (r : VerifyReport) : nat := length (List.filter is_decayed (report_results r)).
Definition unverifiable_count (r : VerifyReport) : nat := length (List.filter is_unverifiable (report_results r)).
Definition all_strongly_verified (r : VerifyReport) : bool :=
  negb (bool_decide (length (report_results r) = 0)) && forallb is_verified (report_results r).
Definition has_unverifiable (r : VerifyReport) : bool := existsb is_unverifiable (report_results r).

(** ** Renumbering *)

(** [Value::get] with a key. *)
Definition json_get (j : Json) (k : string) : option Json :=
  match j with JObject m => json_map m !! k | _ => None end.
(** [Map::insert], on an object. *)
Definition json_set (k : string) (v : Json) (j : Json) : Json :=
  match j with JObject m => JObject (entries (<[k := v]> (json_map m))) | _ => j end.
(** [Value::as_object], as its entries. *)
Definition json_entries (j : Json) : list (string * Json) :=
  match j with JObject m => entries (json_map m) | _ => [] end.

Definition number_eqb (a b : JsonNumber) : bool :=
  match a, b with
  | FloatNum x, FloatNum y => f64_eqb x y
  | _, _ => bool_decide (a = b)
  end.

(** Equality of values: of floats as numbers. *)
Fixpoint json_eqb (a b : Json) : bool :=
  match a, b with
  | JNull, JNull => true
  | JBool x, JBool y => bool_decide (x = y)
  | JNumber x, JNumber y => number_eqb x y
  | JString x, JString y => bool_decide (x = y)
  | JArray l, JArray l' =>
      (fix go l l' := match l, l' with
       | [], [] => true
       | x :: l, y :: l' => json_eqb x y && go l l'
       | _, _ => false end) l l'
  | JObject m, JObject m' =>
      (fix go m m' := match m, m' with
       | [], [] => true
       | (k, x) :: m, (k', y) :: m' => bool_decide (k = k') && json_eqb x y && go m m'
       | _, _ => false end) m m'
  | _, _ => false
  end.
Definition json_opt_eqb (a b : option Json) : bool :=
  match a, b with Some a, Some b => json_eqb a b | None, None => true | _, _ => false end.

Definition task_entries (plan : Json) : list (string * Json) :=
  List.filter (λ kv, bool_decide (kv.1 ≠ META_KEY)) (json_entries plan).

Definition same_task (a b : Json) : bool :=
  json_opt_eqb (json_get a "created_at") (json_get b "created_at") && json_opt_eqb (json_get a "created_by") (json_get b "created_by").

(** [None] before any number; equal numbers by their text. *)
Definition move_le (a b : string) : Prop :=
  match task_number a, task_number b with
  | None, None => String.le a b
  | None, Some _ => True
  | Some _, None => False
  | Some x, Some y => (x < y)%N ∨ x = y ∧ String.le a b
  end.
#[export] Instance move_le_dec a b : base.Decision (move_le a b).
Proof. unfold move_le. repeat case_match; apply _. Defined.

Definition collides (theirs : Json) (base : option Json) (id : string) (task : Json) : bool :=
  negb (bool_decide (id ∈ (match base with Some b => (task_entries b).*1 | None => [] end))) &&
  match (list_to_map (task_entries theirs) : gmap string Json) !! id with
  | Some their => negb (same_task task their)
  | None => false
  end.

(** The highest number, or 0. *)
Definition highest_number (ids : list string) : N := foldr N.max 0%N (omap task_number ids).

Definition plan_moves (ours theirs : Json) (base : option Json) : list (TaskId * TaskId) :=
  let colliding := (List.filter (λ kv, collides theirs base kv.1 kv.2) (task_entries ours)).*1 in
  let highest := highest_number ((task_entries ours).*1 ++ (task_entries theirs).*1) in
  imap (λ i id, (id, task_id_new (add32 (add32 highest 1) (N.of_nat i)))) (merge_sort move_le colliding).

Definition rename (moves : list (TaskId * TaskId)) (id : string) : option string :=
  snd <$> List.find (λ m, bool_decide (m.1 = id)) moves.
Definition renamed (moves : list (TaskId * TaskId)) (id : string) : string := default id (rename moves id).

Definition move_blocker (moves : list (TaskId * TaskId)) (b : Json) : Json :=
  match b with JString s => JString (renamed moves s) | b => b end.

(** A task's references and, when it moves, its id. *)
Definition move_task (moves : list (TaskId * TaskId)) (key : string) (task : Json) : Json :=
  let task := match json_get task "parent_id" with
    | Some (JString parent) => match rename moves parent with Some to => json_set "parent_id" (JString to) task | None => task end
    | _ => task
    end in
  let task := match json_get task "blocked_by" with
    | Some (JArray blockers) => json_set "blocked_by" (JArray (move_blocker moves <$> blockers)) task
    | _ => task
    end in
  if bool_decide (renamed moves key ≠ key) then json_set "id" (JString (renamed moves key)) task else task.

Definition apply_moves (plan : Json) (moves : list (TaskId * TaskId)) : Json :=
  JObject (entries (foldl (λ out kv,
    if decide (kv.1 = META_KEY) then <[kv.1 := kv.2]> out
    else <[renamed moves kv.1 := move_task moves kv.1 kv.2]> out) (∅ : gmap string Json) (json_entries plan))).

(** ** The store *)

Class TaskSerde := {
  plan_to_json : PlanRecord → result string Json;
  plan_from_json : Json → result string PlanRecord;
  task_to_json : Task → result string Json;
  task_from_json : Json → result string Task;
}.

(** What refuses an operation, or what no error carries. *)
Inductive TaskFault : Type :=
  | TaskRefused (e : TaskStoreError)
  | TaskBroken (e : ControlError).

Abbreviation K := (Prog Site TaskFault).

Record TaskStore := { ts_repo : Repository; ts_prefix : string; ts_agent_id : string }.

Definition store_new (r : Repository) (prefix agent : string) : TaskStore := {|
  ts_repo := r;
  ts_prefix := (fix drop s := match s with
    | String "/" EmptyString | EmptyString => EmptyString
    | String c s' => String c (drop s') end) prefix;
  ts_agent_id := agent |}.

Definition MAX_CAS_RETRIES : nat := 32.

(** What one turn of a loop takes from the clock, the source of identifiers and
    the rest of the surroundings. *)
Record Turn := { turn_now : Time; turn_write : Write; turn_intent : IntentId; turn_grant : Time }.

Definition refuse_task {A} (e : TaskStoreError) : K A := fail (TaskRefused e).
Definition check_task {A} (r : result TaskStoreError A) : K A := of_result (map_err TaskRefused r).

Definition is_path_not_found (e : RepoError) : bool := match e with TreeErr (PathNotFound _) => true | _ => false end.

Definition task_debug_status (s : TaskStatus) : string :=
  match s with TaskPending => "Pending" | TaskInProgress => "InProgress" | TaskDone => "Done" | TaskAbandoned => "Abandoned" end.
Definition debug_priority (p : TaskPriority) : string :=
  match p with LowPriority => "Low" | MediumPriority => "Medium" | HighPriority => "High" | CriticalPriority => "Critical" end.

(** Notes as a task stores them. *)
Definition normalize_notes (notes : option string) : result TaskStoreError (option string) :=
  match notes with
  | None => Ok None
  | Some text =>
      if is_blank text then Ok None
      else if (MAX_NOTES_BYTES <? slen text)%N then Err (NotesTooLong (slen text) MAX_NOTES_BYTES)
      else Ok (Some text)
  end.

Section store.
Context `{CH : ContentHash, CS : CommitSerial, RJ : ReminderJson, SD : ControlSerde, FT : F64Text, RT : RepoText}.
Context `{TS : TaskSerde, RX : Regexes}.

(** The blocker pattern is static; [None] would be a panic at start-up. *)
Definition BLOCKER_ID_RE : option Regex := regex_new "^t-\d{1,9}$".

Definition validate_blocker_ids (blockers : list TaskId) : result TaskStoreError () :=
  match List.find (λ b, match BLOCKER_ID_RE with Some re => negb (is_match re b) | None => false end) blockers with
  | Some b => Err (InvalidBlockerId b)
  | None => Ok ()
  end.

Section calls.
Context (st : TaskStore).

(** The default conversion of an error. *)
Definition task_repo (e : RepoError) : TaskStoreError := TaskRepo (repo_error_display e).

(** [f().map_err(make)?]. *)
Definition task_site {A} (make : RepoError → TaskStoreError) (p : T A) : K A :=
  map_error (λ e, match e with CRepo e => TaskRefused (make e) | e => TaskBroken e end) p.

Definition map_not_found (e' : TaskStoreError) (e : RepoError) : TaskStoreError :=
  if is_path_not_found e then e' else task_repo e.

Definition task_value {A} (r : result string A) : K A := check_task (map_err TaskSerdeError r).

Definition commit_opts (t : Turn) (descr : string) : CommitOptions :=
  options_new (ts_agent_id st) Plan descr (turn_intent t) (turn_grant t).

Definition task_head (ref_name : string) : K ObjectId := task_site task_repo (in_site (resolve_ref (ts_repo st) ref_name)).

Definition task_json (e : TaskStoreError) (ref_name path : string) : K Json :=
  task_site (map_not_found e) (in_site (get_json (ts_repo st) ref_name path)).

(** [None] when the path is not there. *)
Definition read_json (ref_name path : string) : K (option Json) :=
  r ← caught (in_site (get_json (ts_repo st) ref_name path));
  match r with
  | Ok v => mret (Some v)
  | Err (CRepo e) => if is_path_not_found e then mret None else refuse_task (task_repo e)
  | Err e => fail (TaskBroken e)
  end.

(** A write on the head read; [None] when the ref moved. *)
Definition cas_json (t : Turn) (ref_name : string) (head : ObjectId) (path : string) (value : Json) (descr : string) :
    K (option ObjectId) :=
  r ← caught (set_json_cas_inner (ts_repo st) (turn_write t) ref_name head path value (commit_opts t descr));
  match r with
  | Ok id => mret (Some id)
  | Err (CRepo WriteConflict) => mret None
  | Err (CRepo e) => refuse_task (task_repo e)
  | Err e => fail (TaskBroken e)
  end.

Definition retrying {A} (turns : nat → Turn) (body : Turn → K (option A)) : K A :=
  attempts MAX_CAS_RETRIES 0 (TaskRefused TaskWriteConflict) (λ i, body (turns i)).

(** *** Reading *)

Definition plan_from_tree (name : string) (plan : Json) : result TaskFault PlanRecord :=
  match json_get plan META_KEY with
  | None => Err (TaskRefused (PlanNotFound name))
  | Some meta => map_err (TaskRefused ∘ TaskSerdeError) (plan_from_json meta)
  end.

Definition task_id_le (a b : Task) : Prop := String.le (task_id a) (task_id b).
#[export] Instance task_id_le_dec : RelDecision task_id_le.
Proof. intros a b. unfold task_id_le. apply _. Defined.

Definition tasks_from_tree (plan : Json) : result TaskFault (list Task) :=
  l ← traverse (λ kv, map_err (TaskRefused ∘ TaskSerdeError) (task_from_json kv.2)) (task_entries plan);
  Ok (stable_sort task_id_le l).

Definition list_plans (ref_name : string) : K (list PlanRecord) :=
  root ← read_json ref_name (ts_prefix st);
  match root with
  | Some root => of_result (traverse (λ kv, plan_from_tree kv.1 kv.2) (json_entries root))
  | None => mret []
  end.

Definition list_plans_with_tasks (ref_name : string) : K (list (PlanRecord * list Task)) :=
  root ← read_json ref_name (ts_prefix st);
  match root with
  | Some root => of_result (traverse (λ kv, p ← plan_from_tree kv.1 kv.2; ts ← tasks_from_tree kv.2; Ok (p, ts)) (json_entries root))
  | None => mret []
  end.

Definition get_plan (ref_name name : string) : K PlanRecord :=
  value ← task_json (PlanNotFound name) ref_name (plan_meta (ts_prefix st) name);
  task_value (plan_from_json value).

Definition plan_exists (ref_name name : string) : K bool :=
  r ← caught (get_plan ref_name name);
  match r with
  | Ok _ => mret true
  | Err (TaskRefused (PlanNotFound _)) => mret false
  | Err e => fail e
  end.

Definition list_tasks (ref_name plan : string) : K (list Task) :=
  root ← task_json (PlanNotFound plan) ref_name (plan_root (ts_prefix st) plan);
  match json_get root META_KEY with
  | None => refuse_task (PlanNotFound plan)
  | Some _ => of_result (tasks_from_tree root)
  end.

Definition get_task (ref_name plan : string) (id : TaskId) : K Task :=
  value ← task_json (TaskNotFound plan id) ref_name (task_path (ts_prefix st) plan id);
  task_value (task_from_json value).

(** The component of a leaf below the plan. *)
Definition leaf_task (root leaf : string) : option string :=
  suffix ← strip_prefix (root +:+ "/") leaf;
  first ← List.hd_error (split "/" suffix);
  if decide (first = EmptyString ∨ first = META_KEY) then None else Some first.

Definition task_ids (ref_name plan : string) : K (list TaskId) :=
  let root := plan_root (ts_prefix st) plan in
  leaves ← task_site (map_not_found (PlanNotFound plan)) (in_site (list_paths (ts_repo st) ref_name root None));
  mret (merge_sort String.le (elements (list_to_set (omap (leaf_task root) leaves) : gset string))).

Definition next_task_number (ref_name plan : string) : K N :=
  ids ← task_ids ref_name plan;
  mret (add32 (highest_number ids) 1).

(** *** Plans *)

Definition create_plan (turns : nat → Turn) (ref_name name : string) (descr : option string) : K PlanRecord :=
  retrying turns (λ t,
    head ← task_head ref_name;
    there ← plan_exists ref_name name;
    if there : bool then refuse_task (PlanAlreadyExists name) else
    let plan := {| plan_name := name; plan_description := descr; plan_status := PlanActive; plan_created_at := turn_now t;
      plan_created_by := ts_agent_id st; plan_archived_at := None; plan_summary := None; plan_closed_at := None;
      plan_closed_by := None |} in
    value ← task_value (plan_to_json plan);
    landed ← cas_json t ref_name head (plan_meta (ts_prefix st) name) value ("Create plan " +:+ name);
    mret (_ ← landed; Some plan)).

Definition archived (now : Time) (p : PlanRecord) : PlanRecord := {|
  plan_name := plan_name p; plan_description := plan_description p; plan_status := PlanArchived;
  plan_created_at := plan_created_at p; plan_created_by := plan_created_by p; plan_archived_at := Some now;
  plan_summary := plan_summary p; plan_closed_at := plan_closed_at p; plan_closed_by := plan_closed_by p |}.

Definition archive_plan (turns : nat → Turn) (ref_name name : string) : K PlanRecord :=
  retrying turns (λ t,
    head ← task_head ref_name;
    plan ← get_plan ref_name name;
    let plan := archived (turn_now t) plan in
    value ← task_value (plan_to_json plan);
    landed ← cas_json t ref_name head (plan_meta (ts_prefix st) name) value ("Archive plan " +:+ name);
    mret (_ ← landed; Some plan)).

Definition closed (summary : string) (now : Time) (by_ : string) (p : PlanRecord) : PlanRecord := {|
  plan_name := plan_name p; plan_description := plan_description p; plan_status := PlanCompleted;
  plan_created_at := plan_created_at p; plan_created_by := plan_created_by p; plan_archived_at := plan_archived_at p;
  plan_summary := Some summary; plan_closed_at := Some now; plan_closed_by := Some by_ |}.

(** Why a plan with these tasks stays open. *)
Definition open_reason (tasks : list Task) : option string :=
  if decide (tasks = []) then Some "plan has no tasks" else
  t ← List.find (λ t, negb (task_terminal (task_status t))) tasks;
  Some ("task " +:+ task_id t +:+ " is still " +:+ task_debug_status (task_status t) +:+
        "; every task must be done or abandoned first").

Definition close_plan (turns : nat → Turn) (ref_name name summary : string) : K PlanRecord :=
  if is_blank summary then refuse_task SummaryRequired else
  retrying turns (λ t,
    head ← task_head ref_name;
    plan ← get_plan ref_name name;
    match plan_status plan with
    | PlanCompleted => mret (Some plan)
    | PlanArchived => refuse_task (CannotClose name "plan is archived")
    | PlanActive =>
        tasks ← list_tasks ref_name name;
        match open_reason tasks with
        | Some why => refuse_task (CannotClose name why)
        | None =>
            let plan := closed (trim summary) (turn_now t) (ts_agent_id st) plan in
            value ← task_value (plan_to_json plan);
            landed ← cas_json t ref_name head (plan_meta (ts_prefix st) name) value ("Close plan " +:+ name);
            mret (_ ← landed; Some plan)
        end
    end).

Definition delete_plan (t : Turn) (ref_name name : string) : K () :=
  there ← plan_exists ref_name name;
  if there : bool then
    _ ← task_site task_repo (in_site (delete_inner (ts_repo st) (write_now (turn_write t)) (write_clock (turn_write t))
          (write_trace (turn_write t)) ref_name (plan_root (ts_prefix st) name) (commit_opts t ("Delete plan " +:+ name))));
    mret ()
  else refuse_task (PlanNotFound name).

Definition list_plans_by_status (ref_name : string) (status : option PlanStatus) : K (list PlanRecord) :=
  plans ← list_plans ref_name;
  mret (match status with None => plans | Some s => List.filter (λ p, bool_decide (plan_status p = s)) plans end).

(** *** Adding tasks *)

Record AddTask := {
  at_title : string; at_priority : TaskPriority; at_parent : option TaskId; at_blocked_by : list TaskId;
  at_assigned : option string; at_payload : option Json; at_parent_change : option string;
  at_on_complete : option OnCompleteHook; at_notes : option string;
}.

Definition new_task (a : AddTask) (notes : option string) (id : TaskId) (now : Time) : Task := {|
  task_id := id; task_title := at_title a; task_notes := notes; task_status := TaskPending; task_priority := at_priority a;
  parent_id := at_parent a; blocked_by := at_blocked_by a; task_created_at := now; task_created_by := ts_agent_id st;
  started_at := None; started_by := None; task_completed_at := None; task_completed_by := None; proof := None;
  abandoned_at := None; abandoned_reason := None; assigned_to := at_assigned a; payload := at_payload a;
  parent_change := at_parent_change a; on_complete := at_on_complete a |}.

(** The parent and the blockers that a new task names are there. *)
Definition check_new_task (ref_name plan : string) (a : AddTask) : K () :=
  there ← plan_exists ref_name plan;
  if negb there then refuse_task (PlanNotFound plan) else
  _ ← match at_parent a with
    | Some parent =>
        p ← get_task ref_name plan parent;
        if bool_decide (is_Some (parent_id p)) then refuse_task (ParentIsSubtask parent) else mret ()
    | None => mret ()
    end;
  _ ← check_task (validate_blocker_ids (at_blocked_by a));
  each (λ b, _ ← get_task ref_name plan b; mret ()) (at_blocked_by a).

Definition add_task_with_extensions (turns : nat → Turn) (ref_name plan : string) (a : AddTask) : K Task :=
  notes ← check_task (normalize_notes (at_notes a));
  _ ← check_new_task ref_name plan a;
  retrying turns (λ t,
    head ← task_head ref_name;
    n ← next_task_number ref_name plan;
    let task := new_task a notes (task_id_new n) (turn_now t) in
    value ← task_value (task_to_json task);
    landed ← cas_json t ref_name head (task_path (ts_prefix st) plan (task_id task)) value
               ("Add task " +:+ plan +:+ "/" +:+ task_id task);
    mret (_ ← landed; Some task)).

Definition add_task (turns : nat → Turn) (ref_name plan title : string) (priority : TaskPriority) (parent : option TaskId)
    (blockers : list TaskId) (assigned : option string) : K Task :=
  add_task_with_extensions turns ref_name plan {| at_title := title; at_priority := priority; at_parent := parent;
    at_blocked_by := blockers; at_assigned := assigned; at_payload := None; at_parent_change := None;
    at_on_complete := None; at_notes := None |}.

(** *** Changing a task *)

Definition with_started (t : Task) (now : Time) (by_ : string) : Task := {|
  task_id := task_id t; task_title := task_title t; task_notes := task_notes t; task_status := TaskInProgress;
  task_priority := task_priority t; parent_id := parent_id t; blocked_by := blocked_by t;
  task_created_at := task_created_at t; task_created_by := task_created_by t; started_at := Some now; started_by := Some by_;
  task_completed_at := task_completed_at t; task_completed_by := task_completed_by t; proof := proof t;
  abandoned_at := abandoned_at t; abandoned_reason := abandoned_reason t; assigned_to := assigned_to t;
  payload := payload t; parent_change := parent_change t; on_complete := on_complete t |}.

Definition with_completed (t : Task) (p : TaskProof) (now : Time) (by_ : string) : Task := {|
  task_id := task_id t; task_title := task_title t; task_notes := task_notes t; task_status := TaskDone;
  task_priority := task_priority t; parent_id := parent_id t; blocked_by := blocked_by t;
  task_created_at := task_created_at t; task_created_by := task_created_by t; started_at := started_at t; started_by := started_by t;
  task_completed_at := Some now; task_completed_by := Some by_; proof := Some p;
  abandoned_at := abandoned_at t; abandoned_reason := abandoned_reason t; assigned_to := assigned_to t;
  payload := payload t; parent_change := parent_change t; on_complete := on_complete t |}.

Definition with_abandoned (t : Task) (reason : string) (now : Time) : Task := {|
  task_id := task_id t; task_title := task_title t; task_notes := task_notes t; task_status := TaskAbandoned;
  task_priority := task_priority t; parent_id := parent_id t; blocked_by := blocked_by t;
  task_created_at := task_created_at t; task_created_by := task_created_by t; started_at := started_at t; started_by := started_by t;
  task_completed_at := task_completed_at t; task_completed_by := task_completed_by t; proof := proof t;
  abandoned_at := Some now; abandoned_reason := Some reason; assigned_to := assigned_to t;
  payload := payload t; parent_change := parent_change t; on_complete := on_complete t |}.

(** What the setters change. *)
Definition with_details (t : Task) (title : string) (notes : option string) (p : TaskPriority) (blockers : list TaskId)
    (agent : option string) : Task := {|
  task_id := task_id t; task_title := title; task_notes := notes; task_status := task_status t;
  task_priority := p; parent_id := parent_id t; blocked_by := blockers;
  task_created_at := task_created_at t; task_created_by := task_created_by t; started_at := started_at t; started_by := started_by t;
  task_completed_at := task_completed_at t; task_completed_by := task_completed_by t; proof := proof t;
  abandoned_at := abandoned_at t; abandoned_reason := abandoned_reason t; assigned_to := agent;
  payload := payload t; parent_change := parent_change t; on_complete := on_complete t |}.

(** Read, change and write back one task, and again when the ref moved. *)
Definition update_task (turns : nat → Turn) (ref_name plan : string) (id : TaskId) (descr : string)
    (change : Time → Task → K Task) : K Task :=
  retrying turns (λ t,
    head ← task_head ref_name;
    task ← get_task ref_name plan id;
    task ← change (turn_now t) task;
    value ← task_value (task_to_json task);
    landed ← cas_json t ref_name head (task_path (ts_prefix st) plan (task_id task)) value descr;
    mret (_ ← landed; Some task)).

(** The blockers that are not there, and those that are and are not done. *)
Definition BlockerCheck : Type := list TaskId * list TaskId.
Definition sort_blockers (tasks : list Task) (blockers : list TaskId) : BlockerCheck :=
  (List.filter (λ b, negb (existsb (λ t, bool_decide (task_id t = b)) tasks)) blockers,
   List.filter (λ b, match List.find (λ t, bool_decide (task_id t = b)) tasks with
                     | Some t => bool_decide (task_status t ≠ TaskDone)
                     | None => false
                     end) blockers).

Definition classify_blockers (ref_name plan : string) (blockers : list TaskId) : K BlockerCheck :=
  if decide (blockers = []) then mret ([], []) else
  tasks ← list_tasks ref_name plan; mret (sort_blockers tasks blockers).

Definition start_step (ref_name plan : string) (now : Time) (t : Task) : K Task :=
  _ ← check_task (check_transition (task_status t) StartTask);
  '(missing, pending) ← classify_blockers ref_name plan (blocked_by t);
  if negb (bool_decide (missing = [])) then refuse_task (BlockerNotFound missing) else
  if negb (bool_decide (pending = [])) then refuse_task (TaskBlocked pending) else
  mret (with_started t now (ts_agent_id st)).

Definition complete_step (p : TaskProof) (now : Time) (t : Task) : K Task :=
  _ ← check_task (check_transition (task_status t) CompleteTask); mret (with_completed t p now (ts_agent_id st)).

Definition abandon_step (reason : string) (now : Time) (t : Task) : K Task :=
  _ ← check_task (check_transition (task_status t) AbandonTask); mret (with_abandoned t reason now).

(** The first blocker that is no task of the plan. *)
Definition lacking (tasks : list Task) (blockers : list TaskId) : option TaskId :=
  List.find (λ b, negb (existsb (λ t, bool_decide (task_id t = b)) tasks)) blockers.

(** The search's fuel is enough ([Boards.blocker_cycle_spec]). *)
Definition blockers_step (ref_name plan : string) (blockers : list TaskId) (now : Time) (t : Task) : K Task :=
  tasks ← list_tasks ref_name plan;
  match lacking tasks blockers with
  | Some b => refuse_task (TaskNotFound plan b)
  | None =>
      match blocker_cycle tasks (task_id t) blockers with
      | None => fail (TaskBroken CFuel)
      | Some (Some cycle) => refuse_task (BlockerCycle cycle)
      | Some None => mret (with_details t (task_title t) (task_notes t) (task_priority t) blockers (assigned_to t))
      end
  end.

Definition label (plan : string) (id : TaskId) : string := plan +:+ "/" +:+ id.

Definition start_task (turns : nat → Turn) (ref_name plan : string) (id : TaskId) : K Task :=
  update_task turns ref_name plan id ("Start " +:+ label plan id) (start_step ref_name plan).

Definition complete_task (turns : nat → Turn) (ref_name plan : string) (id : TaskId) (p : TaskProof) : K Task :=
  update_task turns ref_name plan id ("Complete " +:+ label plan id) (complete_step p).

Definition abandon_task (turns : nat → Turn) (ref_name plan : string) (id : TaskId) (reason : string) : K Task :=
  if is_blank reason then refuse_task ReasonRequired else
  update_task turns ref_name plan id ("Abandon " +:+ label plan id) (abandon_step reason).

Definition set_priority (turns : nat → Turn) (ref_name plan : string) (id : TaskId) (p : TaskPriority) : K Task :=
  update_task turns ref_name plan id ("Set priority " +:+ debug_priority p +:+ " on " +:+ label plan id)
    (λ _ t, mret (with_details t (task_title t) (task_notes t) p (blocked_by t) (assigned_to t))).

Definition set_title (turns : nat → Turn) (ref_name plan : string) (id : TaskId) (title : string) : K Task :=
  if is_blank title then refuse_task TitleRequired else
  update_task turns ref_name plan id ("Retitle " +:+ label plan id)
    (λ _ t, mret (with_details t title (task_notes t) (task_priority t) (blocked_by t) (assigned_to t))).

Definition set_notes (turns : nat → Turn) (ref_name plan : string) (id : TaskId) (notes : option string) : K Task :=
  notes ← check_task (normalize_notes notes);
  update_task turns ref_name plan id
    ((match notes with Some _ => "Set notes on " | None => "Clear notes on " end) +:+ label plan id)
    (λ _ t, mret (with_details t (task_title t) notes (task_priority t) (blocked_by t) (assigned_to t))).

Definition set_blockers (turns : nat → Turn) (ref_name plan : string) (id : TaskId) (blockers : list TaskId) : K Task :=
  _ ← check_task (validate_blocker_ids blockers);
  update_task turns ref_name plan id ("Update blockers on " +:+ label plan id) (blockers_step ref_name plan blockers).

Definition assign_task (turns : nat → Turn) (ref_name plan : string) (id : TaskId) (agent : string) : K Task :=
  update_task turns ref_name plan id ("Assign " +:+ label plan id +:+ " to " +:+ agent)
    (λ _ t, mret (with_details t (task_title t) (task_notes t) (task_priority t) (blocked_by t) (Some agent))).

Definition unassign_task (turns : nat → Turn) (ref_name plan : string) (id : TaskId) : K Task :=
  update_task turns ref_name plan id ("Unassign " +:+ label plan id)
    (λ _ t, mret (with_details t (task_title t) (task_notes t) (task_priority t) (blocked_by t) None)).

(** *** Choosing and summing up *)

Definition is_candidate (tasks : list Task) (agent : option string) (include_unassigned : bool) (t : Task) : bool :=
  bool_decide (task_status t = TaskPending) && forallb (blocker_satisfied tasks) (blocked_by t) &&
  match agent with
  | None => true
  | Some agent => match assigned_to t with Some a => bool_decide (a = agent) | None => include_unassigned end
  end.

(** By priority, the highest first, and then by id. *)
Definition candidate_le (a b : Task) : Prop :=
  (priority_rank (task_priority b) < priority_rank (task_priority a))%N ∨
  priority_rank (task_priority a) = priority_rank (task_priority b) ∧ String.le (task_id a) (task_id b).
#[export] Instance candidate_le_dec : RelDecision candidate_le.
Proof. intros a b. unfold candidate_le. apply _. Defined.

Definition choose_task (tasks : list Task) (agent : option string) (include_unassigned : bool) : option Task :=
  List.hd_error (stable_sort candidate_le (List.filter (is_candidate tasks agent include_unassigned) tasks)).

Definition next_task_for (ref_name plan : string) (agent : option string) (include_unassigned : bool) : K (option Task) :=
  tasks ← list_tasks ref_name plan; mret (choose_task tasks agent include_unassigned).

Definition next_task (ref_name plan : string) : K (option Task) := next_task_for ref_name plan None true.

Definition rollup (tasks : list Task) (parent : Task) : TaskStatus :=
  let subtasks := List.filter (λ t, bool_decide (parent_id t = Some (task_id parent))) tasks in
  let open := List.filter (λ t, bool_decide (task_status t ≠ TaskAbandoned)) subtasks in
  if decide (subtasks = []) then task_status parent
  else if existsb (λ t, bool_decide (task_status t = TaskInProgress)) subtasks then TaskInProgress
  else if negb (bool_decide (open = [])) && forallb (λ t, bool_decide (task_status t = TaskDone)) open then TaskDone
  else TaskPending.

Definition derived_status (ref_name plan : string) (parent : TaskId) : K TaskStatus :=
  tasks ← list_tasks ref_name plan;
  match List.find (λ t, bool_decide (task_id t = parent)) tasks with
  | None => refuse_task (TaskNotFound plan parent)
  | Some p => mret (rollup tasks p)
  end.

Definition verify_plan (ref_name plan : string) (verify : Verifier) : K VerifyReport :=
  tasks ← list_tasks ref_name plan;
  results ← check_task (traverse (λ t, match proof t with
      | None => Err ProofRequired
      | Some p => Ok {| ve_task_id := task_id t; ve_result := verify p |}
      end) (List.filter (λ t, bool_decide (task_status t = TaskDone)) tasks));
  mret {| report_plan := plan; report_results := results |}.

(** *** Renumbering before a merge *)

(** [Repository::get_json_at_merge_base]; [order] and [inter] list hash tables of the
    search. *)
Definition get_json_at_merge_base (order : Parents → list ObjectId) (inter : gset ObjectId → list ObjectId) (r : Repository) (source target path : string) : P (option Json) :=
  if path_is_secret path then throw_repo (ReservedPath path) else
  base ← caught (merge_base order inter r source target);
  match base with
  | Err (Fail (RefMissing _)) => mret None
  | Err e => fail e
  | Ok base =>
      commit ← require_commit base (CommitMissing (oid_display base));
      state_path ← parse_repo_path path;
      obj ← caught (on_tree (reading (λ s, tree_get s (state_root commit) state_path)));
      match obj with
      | Ok obj => j ← render obj; mret (Some j)
      | Err (Fail (TreeErr (PathNotFound _))) => mret None
      | Err e => fail e
      end
  end.

Record Renumbering := {
  rn_renamed : gmap string (list (TaskId * TaskId));
  rn_plan_conflicts : list string;
  rn_commits : list ObjectId;
}.
Definition no_renumbering : Renumbering := {| rn_renamed := ∅; rn_plan_conflicts := []; rn_commits := [] |}.
Definition renumbering_empty (r : Renumbering) : bool :=
  bool_decide (rn_renamed r = ∅) && bool_decide (rn_plan_conflicts r = []).
Definition new_id (r : Renumbering) (plan : string) (old : TaskId) : option TaskId :=
  moves ← rn_renamed r !! plan; rename moves old.

Definition list_moves (moves : list (TaskId * TaskId)) : string :=
  String.concat ", " ((λ m, m.1 +:+ "→" +:+ m.2) <$> moves).

(** One turn of the loop over a plan; [None] when the ref moved. *)
Definition renumber_turn (order : Parents → list ObjectId) (inter : gset ObjectId → list ObjectId) (t : Turn) (ref_name theirs name : string) (rep : Renumbering) : K (option Renumbering) :=
  let root := plan_root (ts_prefix st) name in
  head ← task_head ref_name;
  ours ← read_json ref_name root;
  theirs_plan ← read_json theirs root;
  match ours, theirs_plan with
  | Some ours, Some theirs_plan =>
  base ← task_site task_repo (in_site (get_json_at_merge_base order inter (ts_repo st) theirs ref_name root));
  if bool_decide (base = None) && negb (json_opt_eqb (json_get ours META_KEY) (json_get theirs_plan META_KEY)) then
    mret (Some {| rn_renamed := rn_renamed rep; rn_plan_conflicts := rn_plan_conflicts rep ++ [name]; rn_commits := rn_commits rep |})
  else
  let moves := plan_moves ours theirs_plan base in
  if decide (moves = []) then mret (Some rep) else
  landed ← cas_json t ref_name head root (apply_moves ours moves)
    ("Renumber tasks in " +:+ name +:+ " before merging " +:+ theirs +:+ ": " +:+ list_moves moves);
  mret (commit ← landed; Some {| rn_renamed := <[name := moves]> (rn_renamed rep); rn_plan_conflicts := rn_plan_conflicts rep;
    rn_commits := rn_commits rep ++ [commit] |})
  | _, _ => mret (Some rep)
  end.

Fixpoint renumber_plans (order : Parents → list ObjectId) (inter : gset ObjectId → list ObjectId) (turns : string → nat → Turn) (ref_name theirs : string) (names : list string) (rep : Renumbering) :
    K Renumbering :=
  match names with
  | [] => mret rep
  | name :: names' =>
      rep ← retrying (turns name) (λ t, renumber_turn order inter t ref_name theirs name rep);
      renumber_plans order inter turns ref_name theirs names' rep
  end.

Definition renumber_before_merge (order : Parents → list ObjectId) (inter : gset ObjectId → list ObjectId) (turns : string → nat → Turn) (ref_name theirs : string) : K Renumbering :=
  our_plans ← read_json ref_name (ts_prefix st);
  match our_plans with None => mret no_renumbering | Some our_plans =>
  their_plans ← read_json theirs (ts_prefix st);
  match their_plans with None => mret no_renumbering | Some their_plans =>
  renumber_plans order inter turns ref_name theirs
    (List.filter (λ name, bool_decide (is_Some (json_get their_plans name))) (json_entries our_plans).*1) no_renumbering
  end end.
End calls.
End store.
