(* ===== verification/Boards.v ===== *)
(** * Boards: what the store of tasks guarantees

    Proofs about [Tasks]: the search for a cycle of blockers finds one exactly
    when there is one; renumbering leaves no task of one side under an id that
    another task of the other side has, loses nothing, and rewrites every
    reference to what moved. *)
From S2P Require Import Prelude Objects Paths Json Intents Sessions Commits Epochs Taints Stores Memory.
From S2P Require Import Diffs Merges Trees TreeJson Walks Specs Guards Ancestry Integrity Programs Repos Mergers.
From S2P Require Import Bundles Transfers Reminders Control Policies Floats Tables Admin Tasks.

(** ** Cycles of blockers *)

Section search.
Context (edges : gmap TaskId (list TaskId)) (target : TaskId).

Definition waits (a b : TaskId) : Prop := b ∈ default [] (edges !! a).

(** Each waits on the next. *)
Fixpoint linked (R : TaskId → TaskId → Prop) (l : list TaskId) : Prop :=
  match l with
  | x :: (y :: _) as l' => R x y ∧ linked R l'
  | _ => True
  end.

(** A route to the target that meets it only at its end. *)
Definition route (x : TaskId) (r : list TaskId) : Prop :=
  ∃ l, r = l ++ [target] ∧ target ∉ l ∧ List.hd_error r = Some x ∧ linked waits r.

(** What was seen since [v] leads only to what has been seen. *)
Definition closed_since (v v' : gset TaskId) : Prop :=
  ∀ x, x ∈ v' → x ∉ v → x ≠ target ∧ ∀ y, waits x y → y ∈ v'.

Lemma closed_since_trans v1 v2 v3 : v2 ⊆ v3 → closed_since v1 v2 → closed_since v2 v3 → closed_since v1 v3.
Proof.
  intros Hs H1 H2 x Hx Hx1. destruct (decide (x ∈ v2)) as [Hx2|Hx2].
  - destruct (H1 x Hx2 Hx1) as [Ht Hy]. split; [done|]. intros y Hw. by apply Hs, Hy.
  - by apply H2.
Qed.

Definition search_ok (l : list TaskId) (v : gset TaskId) (p : list TaskId) (res : option (bool * Search)) : Prop :=
  ∃ found v' p', res = Some (found, (v', p')) ∧ v ⊆ v' ∧
    if found : bool then ∃ x r, x ∈ l ∧ route x r ∧ p' = p ++ r
    else p' = p ∧ (∀ x, x ∈ l → x ∈ v') ∧ closed_since v v'.

Lemma reaches_any_ok reach l v p :
  (∀ x v' p', x ∈ l → v ⊆ v' → search_ok [x] v' p' (reach x (v', p'))) → search_ok l v p (reaches_any reach l (v, p)).
Proof.
  revert v p. induction l as [|x l IH]; intros v p Hr; simpl.
  { exists false, v, p. split_and!; [done..|by intros x ?%elem_of_nil|by intros x ?]. }
  destruct (Hr x v p) as (found & v1 & p1 & -> & Hs & H1); [by left|done|]. simpl. destruct found.
  { destruct H1 as (y & r & ->%list_elem_of_singleton & Hy & ->). exists true, v1, (p ++ r). split_and!; [done..|]. exists x, r. split; [by left|done]. }
  destruct H1 as (-> & Hx & Hc). destruct (IH v1 p) as (found & v2 & p2 & -> & Hs2 & H2).
  { intros y v' p' Hy Hv. apply Hr; [by right|by etransitivity]. }
  exists found, v2, p2. split; [done|]. split; [by etransitivity|]. destruct found.
  - destruct H2 as (y & r & Hy & H2). exists y, r. split; [by right|done].
  - destruct H2 as (-> & Hl & Hc2). split_and!; [done| |by eapply closed_since_trans].
    intros y [->|Hy]%elem_of_cons; [|by apply Hl]. apply Hs2, Hx. by left.
Qed.

Lemma route_step x y r : x ≠ target → waits x y → route y r → route x (x :: r).
Proof.
  intros Hx Hw (l & -> & Hl & Hh & Hk). exists (x :: l). split_and!; [done| |done|].
  - apply not_elem_of_cons. by split.
  - destruct l as [|z l]; simpl in *; injection Hh as ->; by split.
Qed.

Lemma reaches_ok fuel x v p : size (dom edges ∖ v) < fuel → search_ok [x] v p (reaches fuel edges target x (v, p)).
Proof.
  revert x v p. induction fuel as [|fuel IH]; intros x v p Hf; [lia|]. cbn [reaches].
  case_decide as Ht.
  { exists true, v, (p ++ [x]). split_and!; [done..|]. exists x, [x]. split; [by left|]. split; [|done].
    exists []. subst. split_and!; [done|by apply not_elem_of_nil|done..]. }
  case_decide as Hv.
  { exists false, v, p. rewrite List.removelast_last. split_and!; [done..|by intros y ->%list_elem_of_singleton|by intros y]. }
  destruct (reaches_any_ok (reaches fuel edges target) (default [] (edges !! x)) ({[ x ]} ∪ v) (p ++ [x])) as (found & v' & p' & -> & Hs & H).
  { intros y v' p' Hy Hs. apply IH. destruct (edges !! x) as [l|] eqn:Hx; [|by apply elem_of_nil in Hy].
    assert (x ∈ dom edges ∖ v) as Hin by (apply elem_of_difference; split; [by apply elem_of_dom|done]).
    assert (size (dom edges ∖ v') < size (dom edges ∖ v)); [|lia]. apply subset_size. split; [set_solver|].
    intros Hsub. specialize (Hsub x Hin). apply elem_of_difference in Hsub as [_ Hsub]. apply Hsub, Hs. set_solver. }
  simpl. destruct found.
  - destruct H as (y & r & Hy & Hr & ->). exists true, v', (p ++ x :: r). split; [by rewrite -app_assoc|].
    split; [set_solver|]. exists x, (x :: r). split; [by left|]. split; [by eapply route_step|done].
  - destruct H as (-> & Hl & Hc). exists false, v', p. rewrite List.removelast_last. split_and!; [done|set_solver|done| |].
    + intros y ->%list_elem_of_singleton. set_solver.
    + intros y Hy Hyv. destruct (decide (y = x)) as [->|Hyx]; [split; [done|by intros z Hz; apply Hl]|]. apply Hc; [done|set_solver].
Qed.

Lemma closed_reach v x y : closed_since ∅ v → x ∈ v → rtc waits x y → y ∈ v.
Proof.
  intros Hc Hx Hr. revert Hx. induction Hr as [|x z y Hw _ IH]; intros Hx; [done|]. apply IH.
  destruct (Hc x Hx) as [_ Hy]; [set_solver|]. by apply Hy.
Qed.
End search.

(** Who waits on whom once [id] waits on [blockers]. *)
Definition waits_with (tasks : list Task) (id : TaskId) (blockers : list TaskId) (a b : TaskId) : Prop :=
  if decide (a = id) then b ∈ blockers else waits (blocker_edges tasks) a b.

Lemma rtc_avoid (R S : TaskId → TaskId → Prop) y : (∀ a b, a ≠ y → R a b → S a b) → ∀ x, rtc R x y → rtc S x y.
Proof.
  intros H x Hr. induction Hr as [|x z y Hx _ IH]; [done|]. destruct (decide (x = y)) as [->|Hn]; [done|].
  eapply rtc_l; [by apply H|by apply IH].
Qed.

Lemma linked_weaken (R S : TaskId → TaskId → Prop) l y :
  (∀ a b, a ∈ l → R a b → S a b) → linked R (l ++ [y]) → linked S (l ++ [y]).
Proof.
  induction l as [|x [|z l] IH]; intros H; simpl; [done|..].
  - intros [Hx _]. split; [|done]. apply H; [by left|done].
  - intros [Hx Hl]. split; [apply H; [by left|done]|]. apply IH; [|done]. intros a b Ha. apply H. by right.
Qed.

Lemma linked_tc (R : TaskId → TaskId → Prop) l x z y : linked R (x :: z :: l) → last (z :: l) = Some y → tc R x y.
Proof.
  revert x z. induction l as [|w l IH]; intros x z; simpl.
  - intros [Hx _] [= ->]. by apply tc_once.
  - intros [Hx Hl] Hlast. eapply tc_l; [exact Hx|]. by apply (IH z w).
Qed.

Lemma tc_first (R : TaskId → TaskId → Prop) x z : tc R x z → ∃ y, R x y ∧ rtc R y z.
Proof. intros []; [by eexists|]. eexists. split; [done|by apply tc_rtc]. Qed.

(** A cycle through [id]. *)
Definition cycle_at (R : TaskId → TaskId → Prop) (id : TaskId) (c : list TaskId) : Prop :=
  ∃ x l, c = id :: x :: l ∧ linked R c ∧ last c = Some id.

(** The search for a cycle that new blockers of a task would close is right: it
    returns on the fuel given, finds a cycle exactly when the task would wait on
    itself, and returns it from the task back to itself; and when it finds none
    in a plan without cycles, the plan stays without. *)
Theorem blocker_cycle_spec tasks id blockers :
  let R := waits_with tasks id blockers in
  ∃ r, blocker_cycle tasks id blockers = Some r ∧
    (r = None ↔ ¬ tc R id id) ∧ (∀ c, r = Some c → cycle_at R id c) ∧
    (r = None → (∀ x, ¬ tc (waits (blocker_edges tasks)) x x) → ∀ x, ¬ tc R x x).
Proof.
  intros R. unfold blocker_cycle. set (edges := blocker_edges tasks).
  destruct (reaches_any_ok edges id (reaches (S (size edges)) edges id) blockers ∅ [id]) as (found & v & p & -> & _ & H).
  { intros x v p _ _. apply reaches_ok. assert (size (dom edges ∖ v) ≤ size (dom edges)) by (apply subseteq_size; set_solver).
    rewrite size_dom in H. lia. }
  assert (∀ x, tc R x id → ∃ y, R x y ∧ rtc (waits edges) y id) as Hfirst.
  { intros x Hx. destruct (tc_first R x id Hx) as (y & Hy & Hr). exists y. split; [done|]. apply (rtc_avoid R); [|done].
    intros a b Ha. unfold R, waits_with. by rewrite decide_False. }
  assert (found = false → ¬ tc R id id) as Hno.
  { intros -> Hc. destruct H as (_ & Hb & Hclosed). destruct (Hfirst id Hc) as (y & Hy & Hr).
    unfold R, waits_with in Hy. rewrite decide_True // in Hy. assert (id ∈ v) as Hid by (eapply closed_reach; eauto).
    by destruct (Hclosed id Hid) as [? _]. }
  assert (found = true → cycle_at R id p) as Hcycle.
  { intros ->. destruct H as (x & r & Hx & (l & -> & Hl & Hh & Hk) & ->).
    assert (linked R (id :: (l ++ [id]))) as HR.
    { destruct l as [|z l]; simpl in Hh; injection Hh as ->.
      - split; [|done]. unfold R, waits_with. by rewrite decide_True.
      - split; [unfold R, waits_with; by rewrite decide_True|]. apply (linked_weaken (waits edges) R (x :: l)); [|done].
        intros a b Ha. unfold R, waits_with. rewrite decide_False //. by intros ->. }
    destruct l as [|z l]; simpl in Hh; injection Hh as ->; (eexists _, _; split; [done|]; split; [exact HR|]).
    - done.
    - by rewrite last_cons last_snoc. }
  assert (found = true → tc R id id) as Hyes.
  { intros Hf. destruct (Hcycle Hf) as (x & l & -> & Hl & Hlast). by eapply linked_tc. }
  exists (if found then Some p else None). split; [done|]. split_and!.
  - destruct found; [split; [done|intros Hn; by destruct (Hn (Hyes eq_refl))]|]. split; [intros _; by apply Hno|done].
  - intros c. destruct found; [|done]. intros [= <-]. by apply Hcycle.
  - destruct found; [done|]. intros _ Hold x Hx.
    assert (∀ a b, tc R a b → tc (waits edges) a b ∨ rtc R a id ∧ tc R id b) as Hpass.
    { intros a b Hab. induction Hab as [a b Hab|a c b Hac Hcb IH].
      - destruct (decide (a = id)) as [->|Hn]; [right; split; [done|by apply tc_once]|]. left. apply tc_once.
        unfold R, waits_with in Hab. by rewrite decide_False in Hab.
      - destruct (decide (a = id)) as [->|Hn]; [right; split; [done|by eapply tc_l]|]. destruct IH as [IH|[IH1 IH2]].
        + left. eapply tc_l; [|exact IH]. unfold R, waits_with in Hac. by rewrite decide_False in Hac.
        + right. split; [|done]. by eapply rtc_l. }
    destruct (Hpass x x Hx) as [H1|[H1 H2]]; [by apply (Hold x)|]. apply (Hno eq_refl).
    eapply tc_rtc_r; [exact H2|exact H1].
Qed.

(** ** Numbers of tasks *)

Lemma task_number_new n : (n ≤ u32_max)%N → task_number (task_id_new n) = Some n.
Proof.
  intros Hn. unfold task_number, task_id_new. rewrite strip_prefix_app /=.
  pose proof (parse_uint_pretty u32_max n Hn) as Hp. pose proof (pretty_N_digits n) as Hd.
  assert (∀ s, str_forall is_ascii_digit s → s ≠ EmptyString → parse_uint u32_max s = parse_digits u32_max 0 s) as Hu.
  { intros [|c s] Hs Hne; [done|]. unfold parse_uint. rewrite decide_False; [done|]. intros ->. by apply andb_True in Hs as [? _]. }
  destruct (pretty n) as [|a [|b [|c s]]]; [done|..|done]; cbn [pad3].
  - by rewrite Hu // in Hp.
  - by rewrite Hu // in Hp.
Qed.

Lemma highest_number_ge ids id n : id ∈ ids → task_number id = Some n → (n ≤ highest_number ids)%N.
Proof.
  intros Hi Hn. unfold highest_number. assert (n ∈ omap task_number ids) as H by (apply list_elem_of_omap; eauto).
  induction (omap task_number ids) as [|x l IH]; [by apply elem_of_nil in H|]. simpl.
  apply elem_of_cons in H as [->|H]; [lia|]. specialize (IH H). lia.
Qed.

(** ** Values *)

Lemma json_get_object (m : gmap string Json) k : json_get (JObject (entries m)) k = m !! k.
Proof. unfold json_get, json_map. by rewrite list_to_map_entries. Qed.

Lemma json_get_set_ne k k' v j : k ≠ k' → json_get (json_set k v j) k' = json_get j k'.
Proof. intros Hk. destruct j; try done. cbn [json_set]. rewrite json_get_object lookup_insert_ne //. Qed.

Lemma json_get_set k v j : is_Some (json_get j k) → json_get (json_set k v j) k = Some v.
Proof. destruct j; try by intros [? ?]. intros _. cbn [json_set]. by rewrite json_get_object lookup_insert_eq. Qed.

Lemma json_entries_get j k v : (k, v) ∈ json_entries j ↔ json_get j k = Some v.
Proof. destruct j; simpl; try (split; [by intros ?%elem_of_nil|done]). apply elem_of_entries. Qed.

Lemma json_entries_NoDup j : NoDup (json_entries j).*1.
Proof. destruct j; simpl; try apply NoDup_nil_2. apply entries_NoDup. Qed.

Lemma elem_of_task_entries j k v : (k, v) ∈ task_entries j ↔ json_get j k = Some v ∧ k ≠ META_KEY.
Proof. unfold task_entries. by rewrite elem_of_List_filter json_entries_get bool_decide_spec. Qed.

Lemma task_entries_NoDup j : NoDup (task_entries j).*1.
Proof. apply NoDup_fmap_List_filter, json_entries_NoDup. Qed.

Lemma task_entries_map j k : (list_to_map (task_entries j) : gmap string Json) !! k = if decide (k = META_KEY) then None else json_get j k.
Proof.
  apply option_eq. intros v. rewrite -elem_of_list_to_map; [|apply task_entries_NoDup]. rewrite elem_of_task_entries.
  case_decide; naive_solver.
Qed.

(** ** What a task that moves keeps *)

Definition moved_references (moves : list (TaskId * TaskId)) (v v' : Json) : Prop :=
  json_get v' "parent_id" = (match json_get v "parent_id" with Some (JString p) => Some (JString (renamed moves p)) | o => o end) ∧
  json_get v' "blocked_by" = (match json_get v "blocked_by" with Some (JArray l) => Some (JArray (move_blocker moves <$> l)) | o => o end) ∧
  ∀ f, f ≠ "parent_id" → f ≠ "blocked_by" → f ≠ "id" → json_get v' f = json_get v f.

Lemma move_task_references moves k v : moved_references moves v (move_task moves k v).
Proof.
  unfold move_task.
  set (v1 := match json_get v "parent_id" with Some (JString p) => match rename moves p with Some to => json_set "parent_id" (JString to) v | None => v end | _ => v end).
  assert (∀ f, f ≠ "parent_id" → json_get v1 f = json_get v f) as H1.
  { intros f Hf. unfold v1. repeat case_match; try done. by apply json_get_set_ne. }
  assert (json_get v1 "parent_id" = match json_get v "parent_id" with Some (JString p) => Some (JString (renamed moves p)) | o => o end) as P1.
  { unfold v1, renamed. destruct (json_get v "parent_id") as [[| | |p| |]|] eqn:Hp; try done.
    destruct (rename moves p) as [to|]; [|done]. by apply json_get_set; eexists. }
  clearbody v1. set (v2 := match json_get v1 "blocked_by" with Some (JArray l) => json_set "blocked_by" (JArray (move_blocker moves <$> l)) v1 | _ => v1 end).
  assert (∀ f, f ≠ "blocked_by" → json_get v2 f = json_get v1 f) as H2.
  { intros f Hf. unfold v2. destruct (json_get v1 "blocked_by") as [[]|]; try done. by apply json_get_set_ne. }
  assert (json_get v2 "blocked_by" = match json_get v "blocked_by" with Some (JArray l) => Some (JArray (move_blocker moves <$> l)) | o => o end) as P2.
  { unfold v2. rewrite H1 //. destruct (json_get v "blocked_by") as [[| | | |l|]|] eqn:Hp; try (by rewrite H1).
    apply json_get_set. by rewrite H1. }
  clearbody v2. assert (∀ f, f ≠ "id" → json_get (if bool_decide (renamed moves k ≠ k) then json_set "id" (JString (renamed moves k)) v2 else v2) f = json_get v2 f) as H3.
  { intros f Hf. case_bool_decide; [by apply json_get_set_ne|done]. }
  split_and!.
  - rewrite H3 // H2 //.
  - rewrite H3 //.
  - intros f Hp Hb Hi. rewrite H3 // H2 // H1 //.
Qed.

(** ** Renumbering *)

Lemma rename_Some moves a b : NoDup moves.*1 → rename moves a = Some b ↔ (a, b) ∈ moves.
Proof.
  intros Hn. unfold rename. split.
  - destruct (List.find (λ m, bool_decide (m.1 = a)) moves) as [[x y]|] eqn:Hf; [|done]. intros [= <-].
    apply List_find_Some in Hf as [Hin Hx%bool_decide_unpack]. simpl in Hx. by subst.
  - intros Hin. destruct (List.find (λ m, bool_decide (m.1 = a)) moves) as [[x y]|] eqn:Hf; simpl.
    + apply List_find_Some in Hf as [Hin' Hx%bool_decide_unpack]. simpl in Hx. subst x. f_equal.
      apply (elem_of_list_to_map moves) in Hin, Hin'; [|done..]. rewrite Hin in Hin'. by injection Hin'.
    + apply list_elem_of_In, (List.find_none _ _ Hf) in Hin. simpl in Hin. by rewrite bool_decide_true in Hin.
Qed.

Lemma rename_None moves a : rename moves a = None ↔ a ∉ moves.*1.
Proof.
  unfold rename. split.
  - intros Hf ([x y] & -> & Hin)%list_elem_of_fmap. simpl in Hf. destruct (List.find (λ m, bool_decide (m.1 = x)) moves) eqn:Hf'; [done|].
    apply list_elem_of_In, (List.find_none _ _ Hf') in Hin. simpl in Hin. by rewrite bool_decide_true in Hin.
  - intros Ha. destruct (List.find (λ m, bool_decide (m.1 = a)) moves) as [[x y]|] eqn:Hf; [|done]. exfalso.
    apply List_find_Some in Hf as [Hin Hx%bool_decide_unpack]. simpl in Hx. subst. apply Ha. apply list_elem_of_fmap. by exists (a, y).
Qed.

Lemma foldl_insert_at {A B} (f : A → string) (g : A → B) l (m : gmap string B) k :
  NoDup (f <$> l) →
  foldl (λ out x, <[f x := g x]> out) m l !! k =
    match List.find (λ x, bool_decide (f x = k)) l with Some x => Some (g x) | None => m !! k end.
Proof.
  revert m. induction l as [|x l IH]; intros m Hn; [done|]. csimpl in Hn. apply NoDup_cons in Hn as [Hx Hn]. simpl.
  rewrite IH //. case_bool_decide as Hk.
  - subst k. destruct (List.find (λ y, bool_decide (f y = f x)) l) as [y|] eqn:Hy; [|by rewrite lookup_insert_eq].
    apply List_find_Some in Hy as [Hin Hfy%bool_decide_unpack]. exfalso. apply Hx. rewrite -Hfy. by apply list_elem_of_fmap_2.
  - destruct (List.find (λ y, bool_decide (f y = k)) l); [done|]. by rewrite lookup_insert_ne.
Qed.

Section renumbering.
Context (ours theirs : Json) (base : option Json).
Let moves : list (TaskId * TaskId) := plan_moves ours theirs base.
Let out : Json := apply_moves ours moves.
Let highest : N := highest_number ((task_entries ours).*1 ++ (task_entries theirs).*1).

(** Numbers up to the last one given fit. *)
Context (Hroom : (highest + N.of_nat (length moves) ≤ u32_max)%N).

Let colliding : list string := merge_sort move_le (List.filter (λ kv, collides theirs base kv.1 kv.2) (task_entries ours)).*1.

Lemma moves_at i a b : moves !! i = Some (a, b) ↔ colliding !! i = Some a ∧ b = task_id_new (add32 (add32 highest 1) (N.of_nat i)).
Proof. unfold moves, plan_moves. rewrite list_lookup_imap_Some. fold colliding. naive_solver. Qed.

Lemma moves_fst : moves.*1 = colliding.
Proof.
  apply list_eq. intros i. rewrite list_lookup_fmap. destruct (moves !! i) as [[a b]|] eqn:Hm; simpl.
  - by apply moves_at in Hm as [-> _].
  - destruct (colliding !! i) as [a|] eqn:Ha; [|done].
    assert (moves !! i = Some (a, task_id_new (add32 (add32 highest 1) (N.of_nat i)))) as H by by apply moves_at.
    by rewrite Hm in H.
Qed.

Lemma elem_of_colliding k : k ∈ colliding ↔ ∃ v, json_get ours k = Some v ∧ k ≠ META_KEY ∧ collides theirs base k v.
Proof.
  unfold colliding. rewrite merge_sort_Permutation list_elem_of_fmap. split.
  - intros ([k' v] & -> & [[Hin Hne]%elem_of_task_entries Hc]%elem_of_List_filter). by exists v.
  - intros (v & Hv & Hne & Hc). exists (k, v). split; [done|]. apply elem_of_List_filter. split; [by apply elem_of_task_entries|done].
Qed.

Lemma moves_NoDup : NoDup moves.*1.
Proof. rewrite moves_fst /colliding merge_sort_Permutation. apply NoDup_fmap_List_filter, task_entries_NoDup. Qed.

(** A new id has a number past all of both sides'. *)
Lemma new_number i a b : moves !! i = Some (a, b) → task_number b = Some (highest + 1 + N.of_nat i)%N.
Proof.
  intros H. pose proof (lookup_lt_Some _ _ _ H) as Hi. apply moves_at in H as [_ ->]. unfold add32. unfold u32_max in Hroom.
  rewrite !(N.mod_small _ (2 ^ 32)); [|lia..]. apply task_number_new. unfold u32_max. lia.
Qed.

Lemma renamed_cases k :
  (rename moves k = None ∧ renamed moves k = k ∧ k ∉ colliding) ∨
  ∃ i, moves !! i = Some (k, renamed moves k) ∧ k ∈ colliding ∧ task_number (renamed moves k) = Some (highest + 1 + N.of_nat i)%N.
Proof.
  unfold renamed. destruct (rename moves k) as [b|] eqn:Hr; simpl.
  - right. apply (rename_Some _ _ _ moves_NoDup) in Hr. pose proof Hr as [i Hi]%list_elem_of_lookup. exists i. split_and!; [done| |by eapply new_number].
    rewrite -moves_fst. apply list_elem_of_fmap. by exists (k, b).
  - left. split_and!; [done..|]. rewrite -moves_fst. by apply rename_None.
Qed.

(** The new ids are nobody's. *)
Lemma new_not_held k i : task_number k = Some (highest + 1 + N.of_nat i)%N →
  k ≠ META_KEY ∧ json_get ours k = None ∧ json_get theirs k = None.
Proof.
  intros Hn. assert (k ≠ META_KEY) as Hm by by intros ->.
  assert (∀ j, (task_entries j).*1 ⊆ (task_entries ours).*1 ++ (task_entries theirs).*1 → json_get j k = None) as H.
  { intros j Hj. destruct (json_get j k) as [v|] eqn:Hv; [|done]. exfalso.
    assert (k ∈ (task_entries j).*1) as Hin by (apply list_elem_of_fmap; exists (k, v); by rewrite elem_of_task_entries).
    apply Hj in Hin. pose proof (highest_number_ge _ _ _ Hin Hn) as Hle. fold highest in Hle. lia. }
  split_and!; [done|..]; apply H; intros x ?; apply elem_of_app; auto.
Qed.

Lemma renamed_inj k1 k2 v1 v2 :
  json_get ours k1 = Some v1 → json_get ours k2 = Some v2 → renamed moves k1 = renamed moves k2 → k1 = k2.
Proof.
  intros H1 H2 He. destruct (renamed_cases k1) as [(_ & E1 & _)|(i & M1 & _ & N1)], (renamed_cases k2) as [(_ & E2 & _)|(j & M2 & _ & N2)].
  - congruence.
  - rewrite -He E1 in N2. destruct (new_not_held k1 j N2) as (_ & Ho & _). congruence.
  - rewrite He E2 in N1. destruct (new_not_held k2 i N1) as (_ & Ho & _). congruence.
  - rewrite He in N1. rewrite N1 in N2. injection N2 as N2. assert (i = j) as -> by lia. rewrite M1 in M2. by injection M2.
Qed.

Definition moved_value (k : string) (v : Json) : Json := if decide (k = META_KEY) then v else move_task moves k v.

Lemma meta_stays : renamed moves META_KEY = META_KEY.
Proof. destruct (renamed_cases META_KEY) as [(_ & E & _)|(i & _ & (v & _ & Hm & _)%elem_of_colliding & _)]; done. Qed.

Lemma out_get k' v' : json_get out k' = Some v' ↔ ∃ k v, json_get ours k = Some v ∧ k' = renamed moves k ∧ v' = moved_value k v.
Proof.
  set (f := λ kv : string * Json, renamed moves kv.1). set (g := λ kv : string * Json, moved_value kv.1 kv.2).
  assert (out = JObject (entries (foldl (λ m kv, <[f kv := g kv]> m) (∅ : gmap string Json) (json_entries ours)))) as Hout.
  { unfold out, apply_moves, f, g, moved_value. do 2 f_equal. generalize (∅ : gmap string Json). induction (json_entries ours) as [|[k v] l IH]; intros m; [done|].
    cbn [foldl fst snd]. rewrite -IH. f_equal. case_decide as Hk; [|done]. rewrite Hk. by rewrite meta_stays. }
  assert (NoDup (f <$> json_entries ours)) as Hn.
  { apply NoDup_fmap_2_strong; [|apply (NoDup_fmap_1 fst), json_entries_NoDup]. intros [k1 v1] [k2 v2] H1 H2 He.
    apply json_entries_get in H1, H2. unfold f in He. simpl in He. assert (k1 = k2) as -> by by eapply renamed_inj.
    rewrite H1 in H2. by injection H2 as ->. }
  rewrite Hout json_get_object (foldl_insert_at f g _ _ _ Hn) lookup_empty. split.
  - destruct (List.find _ (json_entries ours)) as [[k v]|] eqn:Hf; [|done]. intros [= <-].
    apply List_find_Some in Hf as [Hin Hk%bool_decide_unpack]. apply json_entries_get in Hin. by exists k, v.
  - intros (k & v & Hv & -> & ->). destruct (List.find (λ x, bool_decide (f x = renamed moves k)) (json_entries ours)) as [[k2 v2]|] eqn:Hf.
    + apply List_find_Some in Hf as [Hin Hk%bool_decide_unpack]. apply json_entries_get in Hin. unfold f in Hk. simpl in Hk.
      assert (k2 = k) as -> by by eapply renamed_inj. rewrite Hv in Hin. by injection Hin as ->.
    + apply json_entries_get in Hv. apply list_elem_of_In, (List.find_none _ _ Hf) in Hv. unfold f in Hv. simpl in Hv. by rewrite bool_decide_true in Hv.
Qed.

(** Whether a task of ours clashes does not depend on its references. *)
Lemma collides_moved id k v : collides theirs base id (move_task moves k v) = collides theirs base id v.
Proof.
  unfold collides, same_task. destruct (move_task_references moves k v) as (_ & _ & H). rewrite !H //.
Qed.

Lemma nothing_left k v : json_get out k = Some v → k ≠ META_KEY → collides theirs base k v = false.
Proof.
  intros (k0 & v0 & Hv & -> & ->)%out_get Hne. unfold moved_value. case_decide as Hm; [subst k0; by rewrite meta_stays in Hne|].
  rewrite collides_moved. destruct (renamed_cases k0) as [(_ & E & Hc)|(i & _ & _ & Hn)].
  - rewrite E. apply not_true_iff_false. intros Hc'%Is_true_true. apply Hc, elem_of_colliding. by exists v0.
  - destruct (new_not_held _ _ Hn) as (_ & _ & Ht). unfold collides. rewrite task_entries_map decide_False // Ht. by rewrite andb_false_r.
Qed.
End renumbering.

(** Renumbering, as long as numbers fit in 32 bits: afterwards nothing is left to
    move; every entry of the plan is there, once, under its own id or, exactly
    for the tasks that clash, a new one; and a task that is written back changes
    in its references to moved tasks, and its id, only. *)
Theorem renumber_spec ours theirs base :
  let moves := plan_moves ours theirs base in
  let out := apply_moves ours moves in
  (highest_number ((task_entries ours).*1 ++ (task_entries theirs).*1) + N.of_nat (length moves) ≤ u32_max)%N →
  plan_moves out theirs base = [] ∧
  (∀ k' v', json_get out k' = Some v' ↔
     ∃ k v, json_get ours k = Some v ∧ k' = renamed moves k ∧ v' = if decide (k = META_KEY) then v else move_task moves k v) ∧
  (∀ k v, json_get ours k = Some v → (renamed moves k ≠ k ↔ k ≠ META_KEY ∧ collides theirs base k v)) ∧
  (∀ k1 k2 v1 v2, json_get ours k1 = Some v1 → json_get ours k2 = Some v2 → renamed moves k1 = renamed moves k2 → k1 = k2) ∧
  (∀ k v, moved_references moves v (move_task moves k v)).
Proof.
  intros moves out Hroom. split_and!.
  - unfold plan_moves at 1. assert (List.filter (λ kv, collides theirs base kv.1 kv.2) (task_entries out) = []) as ->; [|done].
    destruct (List.filter _ (task_entries out)) as [|[k v] l] eqn:Hf; [done|]. exfalso.
    assert ((k, v) ∈ (k, v) :: l) as Hin by by left. rewrite -Hf in Hin. apply elem_of_List_filter in Hin as [[Hv Hm]%elem_of_task_entries Hc].
    simpl in Hc. by rewrite (nothing_left ours theirs base Hroom k v Hv Hm) in Hc.
  - apply out_get. done.
  - intros k v Hv. destruct (renamed_cases ours theirs base Hroom k) as [(_ & E & Hc)|(i & Hi & Hc & Hn)]; [fold moves in E|fold moves in Hn].
    + split; [done|]. intros [H1 H2]. exfalso. apply Hc, elem_of_colliding. by exists v.
    + split; [|intros _ He]. { intros _. apply elem_of_colliding in Hc as (v' & Hv' & ? & ?). rewrite Hv in Hv'. by injection Hv' as <-. }
      rewrite He in Hn. eapply new_not_held in Hn as (_ & Ho & _); [congruence|done].
  - by apply renamed_inj.
  - intros. apply move_task_references.
Qed.
